(* ===== verification/_CoqProject ===== *)
-Q . S2P
Prelude.v
Errors.v
Text.v
Bytes.v
Frames.v
FramesCorrect.v
HpackTables.v
Huffman.v
HuffmanCorrect.v
Hpack.v
HpackCorrect.v
HpackRoundtrip.v
HpackSpec.v
Flow.v
Stream.v
Connection.v
ConnectionInv.v
ConnectionSteps.v
ConnectionCorrect.v
ConnectionOps.v
Retired.v
ConnectionSlots.v
Footprint.v
Uploads.v
Waiting.v
Downloads.v
Response.v
Framing.v
FramingCorrect.v
EndToEnd.v
Replay.v
ReplayCorrect.v
Retry.v
RetryCorrect.v
Evidence.v
Recovery.v
RecoveryCorrect.v
Listeners.v
ListenersCorrect.v
Regex.v
Sort.v
Decimal.v
Channel.v
ChannelCorrect.v
Client.v
ClientCorrect.v
Transport.v
TransportCorrect.v
Json.v
JsonCorrect.v
Contracts.v
Walk.v
ContractsCorrect.v
ContractTypes.v
Interceptors.v
StrictClient.v
StrictCorrect.v
RetryCalls.v
Statistics.v
JsText.v
Metrics.v
LoadRun.v
JsValues.v
Package.v
PackageCorrect.v
Release.v
ReleaseCorrect.v
DurableCall.v
