(* ===== verification/Prelude.v ===== *)
(** * Verification of the grpc-bridge browser client

    grpc-bridge carries gRPC from a browser to a back end: a WebSocket to a bridge process that
    forwards bytes, and inside it an HTTP/2 connection that is spoken by the browser itself.
    This library models the browser side, [src/web/src/], and proves that it does what it is
    for.  Paths below are relative to that directory.

    ** The program

    - [h2/bytes.ts], [h2/frames/], [h2/hpack/]: bytes, frames, header compression.
    - [h2/flow.ts], [h2/stream.ts], [h2/connection.ts]: send windows, one stream, and the
      connection that reads the transport, dispatches frames, admits requests, uploads bodies
      and hands response bodies to their readers under consumption-driven flow control.
    - [framing.ts]: gRPC records and the final status, on top of a stream.
    - [retry.ts]: the attempts of a call and the buffer its input is replayed from.
    - [recovery.ts]: a durable connection that dials, drains and reconnects sessions.
    - [transport.ts]: one gRPC call over a connection: headers, upload, response, errors.
    - [channel.ts]: a WebSocket as the byte stream below a connection.
    - [client.ts]: configuration, and one connection shared by several users.
    - [contracts.ts], [strict-client.ts], [interceptors.ts]: generated contracts, the guard that
      holds a client to its contract, and the application's interceptors around it.

    A request runs through [retry.ts] and [recovery.ts] to [transport.ts], which frames the
    messages and calls [H2Connection.request]; what arrives on the WebSocket runs through
    [FrameDecoder.push] and [H2Connection.dispatch] to the stream and to [unframe].

    ** Files

    Each model file has one definition per function or method, under the source's name where
    Rocq allows it; a [...Correct] file holds the theorems when they do not fit beside it.

    - [Prelude]: results and the state-and-exception monad, lengths, [subarray], 32-bit
      operators, strings as UTF-16 code units, shared lemmas and tactics.
    - [Errors] ([h2/errors.ts]), [Text] (the UTF-8 encoder and decoder of the platform),
      [Bytes] ([h2/bytes.ts]).  [Bytes.ByteSink] with [Bytes.ByteSinkLaws] is the interface of
      a byte writer: the codecs are written against it and [ByteWriter] implements it.
    - [Frames] ([h2/frames/codec.ts], [h2/frames/types.ts]), [FramesCorrect].
    - [HpackTables], [Huffman], [HuffmanCorrect], [Hpack], [HpackCorrect], [HpackRoundtrip]
      ([h2/hpack/]); [HpackSpec] is RFC 7541's sender, with a dynamic table of its own, as the
      abstract specification of the decoder.
    - [Flow] ([h2/flow.ts]), [Stream] ([h2/stream.ts]).
    - [Connection] ([h2/connection.ts], [h2/types.ts]): [Conn] is the object's state, [Event]
      and [step] the pieces of code its event loop runs between two [await]s, [reachable] the
      states that follow from the constructor.  [ConnectionInv] and [ConnectionSteps] hold the
      accounting invariant and its preservation by every step, [ConnectionCorrect] what follows,
      [ConnectionOps] the behaviour of single operations, [ConnectionSlots] the invariant of
      parked requests and unfinished header blocks, [Retired] what becomes of a request whose
      interim response ended its stream.
    - [Footprint]: what each step may change of objects, windows and waiters, as an interface that
      a relation between states implements; with it, [Uploads] shows what becomes of request
      bodies, [Waiting] that uploads wake up and finish, and [Evidence] (after [Retry]) what a
      failed request says about the peer.  [Downloads] is about response bodies and their readers.
    - [Response] (the response object of [h2/connection.ts] and [h2/types.ts]).
    - [Framing], [FramingCorrect] ([framing.ts]); [EndToEnd] puts them on top of the connection,
      from the messages of one side to the messages of the other.
    - [Replay], [ReplayCorrect] (the class [Replay] of [retry.ts]), [Retry], [RetryCorrect]
      (the rest of it).
    - [RetryCalls] (pauses, the abort signal and the wrappers of [retry.ts] around the loop).
    - [Recovery], [RecoveryCorrect] ([recovery.ts]); [Listeners] is the same class with its
      subscribers, which run in the middle of an emission and may call back, and
      [ListenersCorrect] the refinement of the first model by the second.
    - [Regex]: a backtracking matcher with its relational meaning; [Sort]: stable sorting by a
      comparison function; [Decimal]: decimal numerals.
    - [Channel], [ChannelCorrect] ([channel.ts]).
    - [Client], [ClientCorrect] ([client.ts]): [Client.Shared] is the object's state over a store of
      connections, [Client.shared_step] its pieces of code; [Client.Pool] is what it promises its
      users, and [ClientCorrect.shared_refines_pool] the refinement.
    - [Transport], [TransportCorrect] ([transport.ts]).
    - [Json], [JsonCorrect] (the canonical JSON of [contracts.ts]); [Contracts] (the rest of it),
      [Walk] (its graph search), [ContractsCorrect], [ContractTypes].
    - [Interceptors], [StrictClient], [StrictCorrect] ([interceptors.ts], [strict-client.ts]):
      [Interceptors.Runner] is the interface to the Connect library's interceptors.
    - [DurableCall] (the constructor of [recovery.ts]): the joints between [Retry], [Recovery] and
      [Transport], and a time limit on its way through them.
    - [Statistics] and [Metrics] ([../scripts/load-benchmark-lib.ts],
      [../scripts/soak-analysis-lib.ts]): what the benchmarks compute and what they parse;
      [LoadRun] ([../scripts/load-benchmark.ts]): the workers of a load test with their shared
      counters and log, and its verdict.
    - [JsText]: strings and numerals of JavaScript; [JsValues]: parsed JSON.
    - [Package], [PackageCorrect] ([../scripts/package-audit-lib.mjs],
      [release-provenance-lib.mjs], [verify-tarball.mjs]): what may be published.
    - [Release], [ReleaseCorrect] ([../scripts/artifact-install-lib.mjs],
      [test-package-consumer.mjs], [release-preflight-lib.mjs], [release-preflight.mjs] and the
      reports of [../../packaging/consumer/]): the evidence from the archive to its release.

    ** How code becomes definitions

    An object is a record and a method a function from state to state; a method that throws
    returns [result], with the mutations made before the throw.  An [async] method is split at
    its [await]s; a promise is what it was settled with, a parked task a number in a list of
    waiters.  Objects shared by reference live in a store and are named by their position
    ([Connection.objs]).  Numbers are [Z] with the wrap-around of 32-bit operators written out
    where the code uses them; times, delays and tokens are rationals.  The network, the
    scheduler, the clock, random numbers and the application are the arguments of steps, so the
    theorems hold for all of their behaviours.

    ** What is proved

    - Codecs: frames, header blocks, Huffman codes and gRPC records round-trip; the header decoder
      follows every sender that RFC 7541 allows, through evictions and size updates; decoding does
      not depend on how the bytes are cut into chunks; buffers and tables keep their bounds;
      the header budget only filters.
    - Flow control, over all reachable states: receive credit is conserved and agrees with the
      wire; unread data is bounded by the advertised windows; uploads stay within the peer's
      credit; stream ids are 1, 3, 5, ...
    - Connection life: no wake-up of a parked request is lost; GOAWAY, teardown and stream
      errors settle exactly what they must; nothing is written after closing.
    - Bodies: readers get exactly the bytes that arrived on their own stream, in order, and a
      reset never looks like a clean end; no reader waits for what has come; the reading methods
      of a response give exactly the body, once.
    - Calls: a retry is made only for the reasons of the retry contract, attempts are bounded
      and the loop ends, the deadline covers attempts and pauses, replay budgets hold, and as long
      as attempts start before the call is committed and commits come when the latest one has
      caught up, each attempt is given the input from its beginning; what happens otherwise is
      stated too.  What is left of a limit, after all attempts and waits, is what the server is
      told, rounded up to a millisecond and capped at eight digits.  An attempt is repeated
      without counting only if the peer has disowned its stream or nothing of it was written.
    - Uploads: what is written for a request is, byte for byte, what the application gave, and
      never looks complete when it is not; a parked upload waits for credit that is really
      missing, and with enough credit it finishes.
    - End to end: the messages of a call, framed, uploaded, cut into DATA frames of any size and
      parsed again, arrive as they were sent, in both directions.
    - Transport: a call commits before it shows anything, reports the caller's abort or deadline
      as such, uploads its messages as records; once it is over its timer and its listener are
      gone, and the calls for which they stay (a header that cannot be built, a stream of messages
      that is never iterated) are told apart.  A retried call charges the throttle once per failed
      attempt and at most once at its end, and once it is over it holds nothing.
    - Recovery: exactly one dial, session or timer at any time; no waiting call is forgotten;
      closing, also of an opening that failed, releases every session; all of it whatever the
      subscribers do while they are being told.
    - Sharing: the shared connection behaves as a pool of users; its counts are exact, it closes
      with the last user or on disposal and never under a user.
    - Contracts: the graph is typed, complete, independent of declaration order, and compared as
      data; exactly the contracts that match are accepted; a bound client speaks only its
      contract, whatever interceptors do.
    - Channel: the receive queue keeps its bound and its order; writes are paced and in order.
    - Benchmarks: the histogram's percentiles up to a minute agree with the exact ones to a
      millisecond, and those beyond are the maximum; a trend is the least-squares line; a recovery
      passes exactly when every limit holds; a metrics page is
      read back as it was written; the report of a load test is true to its log, however its workers
      interleave, and churning makes every cycle once.
    - Releases: exactly the listed kinds of files are accepted, in any order; binding an archive
      into a consumer changes the lines of that archive only; from an archive that was bound, the
      rest of the chain - the audit of the installed package, the reports of its three browsers,
      the acceptance and the decision - succeeds exactly under conditions that are listed.

    Four theorems state defects: [Retired.interim_end_stream_never_settles] (an interim
    response with END_STREAM leaves its request unanswered for good),
    [ReplayCorrect.commit_while_replaying_loses] (a commit during a replay loses messages),
    [ListenersCorrect.closing_listener_misleads_others] (a subscriber that closes the connection
    makes the others hear of it before its opening) and [TransportCorrect.long_deadline_expires]
    (a limit beyond 2^31 ms expires at once).  [TransportCorrect.commitment] and
    [RetryCalls.calls_give_back] say, among other things, which calls never give back their timer
    and their listeners.

    ** Fuel

    Loops that are not structural take fuel, chosen so that it cannot run out: the length of
    the buffer for loops that consume it ([push_loop], [u_chunk], [send_continuations],
    [decode_loop], [decode_uri]), the number of entries for evictions, a bound on the digits for
    prefix integers.  [push_loop_spec], [frames_of_fuel], [decode_loop_done], [read_rest_fuel],
    [evict_spec], [grow_enough], [continuations_spec] and [unframe_records] are the
    corresponding statements.  [Contracts.visitMessage] nests at most once per message of the
    registry and has one more as fuel ([Walk.visit_methods_spec]); the matcher of [Regex] and
    [Contracts.binary_loop] take lengths ([ContractTypes.binary_loop_all]).  The rounds of
    [Retry.run_loop] are observations of the surroundings, not fuel: [attempts_bounded] shows
    that it ends.

    ** What is not modelled

    Messages of errors that are not [ConnectError]s or [TypeError]s; letter case outside ASCII
    ([toLowerCase] and [toUpperCase] are applied to header names, methods and hexadecimal digits
    only); times (round-trip times of pings); [json()] of a response, which is [JSON.parse] of its text; the getters and wrapper
    classes of [client.ts] and [strict-client.ts] that only delegate; [queue.ts], whose two
    functions connect a [TransformStream] of the platform to a generator and keep no state of
    their own.  Parameters stand for Protobuf-ES (encoding, default values), for the Connect
    library (interceptors, [ConnectError.from]), for the platform's URL parser and for the digests
    of [node:crypto].  Downloads are followed for connections without server push, the only ones
    that [channel.ts] opens.  WebSocket I/O, DOM code, generated code, the drivers of the other
    benchmarks, the programs that the release scripts start ([git], [npm], [tar], browsers), and the
    bridge and the demo servers (written in Go, Python and C#) are outside. *)
From stdpp Require Export base tactics numbers list gmap strings option.
From Stdlib Require Export ZArith Lia.

Local Open Scope Z_scope.

(** ** Results of code that can throw *)

Inductive result (E A : Type) : Type :=
| Ok (a : A)
| Throw (e : E).
Arguments Ok {E A} a.
Arguments Throw {E A} e.

(** JavaScript statements that mutate an object of type [S] and may throw.  A throw does
    not undo the mutations made before it, so the state is returned on both outcomes. *)
Definition M (S E A : Type) : Type := S → S * result E A.

Section monad.
Context {S E : Type}.

#[export] Instance M_ret : MRet (M S E) := λ A a s, (s, Ok a).

#[export] Instance M_bind : MBind (M S E) := λ A B f m s,
  match m s with
  | (s', Ok a) => f a s'
  | (s', Throw e) => (s', Throw e)
  end.

Definition throw {A} (e : E) : M S E A := λ s, (s, Throw e).
Definition get_state : M S E S := λ s, (s, Ok s).
Definition modify (f : S → S) : M S E unit := λ s, (f s, Ok tt).

Lemma bind_ok {A B} (f : A → M S E B) (m : M S E A) s s' a :
  m s = (s', Ok a) → (m ≫= f) s = f a s'.
Proof. intros H. unfold mbind, M_bind. by rewrite H. Qed.

Lemma bind_ret {A B} (f : A → M S E B) a s : ((mret a : M S E A) ≫= f) s = f a s.
Proof. done. Qed.

Lemma bind_throw {A B} (f : A → M S E B) (m : M S E A) s s' e :
  m s = (s', Throw e) → (m ≫= f) s = (s', Throw e).
Proof. intros H. unfold mbind, M_bind. by rewrite H. Qed.

Lemma bind_inv {A B} (f : A → M S E B) (m : M S E A) s s' b :
  (m ≫= f) s = (s', Ok b) → ∃ s1 a, m s = (s1, Ok a) ∧ f a s1 = (s', Ok b).
Proof.
  unfold mbind, M_bind. destruct (m s) as [s1 [a|e]] eqn:Hm; [|discriminate].
  intros H. eauto.
Qed.
End monad.

(** ** Lengths as JavaScript numbers *)

Abbreviation bytes := (list Z).

(** [l.length]. *)
Definition zlen {A} (l : list A) : Z := Z.of_nat (length l).

Definition is_byte (b : Z) : Prop := 0 ≤ b < 256.

Lemma zlen_nil {A} : zlen (@nil A) = 0.
Proof. done. Qed.
Lemma zlen_cons {A} (x : A) l : zlen (x :: l) = 1 + zlen l.
Proof. unfold zlen. simpl. lia. Qed.
Lemma zlen_app {A} (l k : list A) : zlen (l ++ k) = zlen l + zlen k.
Proof. unfold zlen. rewrite length_app. lia. Qed.
Lemma zlen_nonneg {A} (l : list A) : 0 ≤ zlen l.
Proof. unfold zlen. lia. Qed.
Lemma zlen_replicate {A} n (x : A) : zlen (replicate n x) = Z.of_nat n.
Proof. unfold zlen. by rewrite length_replicate. Qed.
Lemma zlen_take {A} n (l : list A) : zlen (take n l) = Z.min (Z.of_nat n) (zlen l).
Proof. unfold zlen. rewrite length_take. lia. Qed.
Lemma zlen_drop {A} n (l : list A) : zlen (drop n l) = Z.max 0 (zlen l - Z.of_nat n).
Proof. unfold zlen. rewrite length_drop. lia. Qed.
Lemma zlen_0_inv {A} (l : list A) : zlen l = 0 → l = [].
Proof. destruct l; [done|]. rewrite zlen_cons. pose proof (zlen_nonneg l). lia. Qed.
Lemma zlen_to_nat {A} (l : list A) : Z.to_nat (zlen l) = length l.
Proof. unfold zlen. lia. Qed.

Create Rewrite HintDb zlen.
#[export] Hint Rewrite @zlen_nil @zlen_cons @zlen_app @zlen_replicate @zlen_take @zlen_drop : zlen.

(** Normalise lengths, remember that they are not negative, and call [lia]. *)
Ltac zlen_pos :=
  repeat match goal with
  | |- context [zlen ?l] => lazymatch goal with
      | _ : 0 ≤ zlen l |- _ => fail
      | _ => pose proof (zlen_nonneg l) end
  | _ : context [zlen ?l] |- _ => lazymatch goal with
      | _ : 0 ≤ zlen l |- _ => fail
      | _ => pose proof (zlen_nonneg l) end
  end.
Ltac zl := autorewrite with zlen in *; zlen_pos; lia.

Lemma take_zlen_app {A} (l k : list A) : take (Z.to_nat (zlen l)) (l ++ k) = l.
Proof. rewrite zlen_to_nat. apply take_app_length. Qed.
Lemma drop_zlen_app {A} (l k : list A) : drop (Z.to_nat (zlen l)) (l ++ k) = k.
Proof. rewrite zlen_to_nat. apply drop_app_length. Qed.
Lemma take_zlen {A} (l : list A) : take (Z.to_nat (zlen l)) l = l.
Proof. rewrite zlen_to_nat. apply firstn_all. Qed.
Lemma lookup_zlen_app {A} (l : list A) x k : (l ++ x :: k) !! Z.to_nat (zlen l) = Some x.
Proof. rewrite zlen_to_nat. by apply list_lookup_middle. Qed.

Lemma forallb_elem {A} (P : A → bool) l x : forallb P l = true → x ∈ l → P x = true.
Proof. rewrite forallb_forall. intros H Hx. apply H. by apply list_elem_of_In. Qed.

(** [b.subarray(s, e)]: a negative index counts from the end, both are clamped. *)
Definition rel_index (n i : Z) : Z := if i <? 0 then Z.max (n + i) 0 else Z.min i n.
Definition subarray (b : bytes) (s e : Z) : bytes :=
  let s' := rel_index (zlen b) s in
  let e' := rel_index (zlen b) e in
  take (Z.to_nat (e' - s')) (drop (Z.to_nat s') b).

Lemma subarray_in b s e :
  0 ≤ s → s ≤ e → subarray b s e = take (Z.to_nat (e - s)) (drop (Z.to_nat s) b).
Proof.
  intros Hs He. unfold subarray, rel_index.
  rewrite !(proj2 (Z.ltb_ge _ _)) by lia.
  destruct (decide (zlen b ≤ s)) as [H|H].
  - rewrite !Z.min_r by lia.
    rewrite !drop_ge by (unfold zlen in *; lia). by rewrite !take_nil.
  - rewrite (Z.min_l s) by lia. destruct (decide (e ≤ zlen b)); [by rewrite Z.min_l by lia|].
    rewrite Z.min_r by lia. rewrite !take_ge; [done| |];
      rewrite length_drop; unfold zlen in *; lia.
Qed.

Lemma subarray_mid a b c : subarray (a ++ b ++ c) (zlen a) (zlen a + zlen b) = b.
Proof.
  rewrite subarray_in by zl. rewrite drop_zlen_app.
  replace (zlen a + zlen b - zlen a) with (zlen b) by lia. apply take_zlen_app.
Qed.

(** ** 32-bit integer operators *)

Definition to_uint32 (x : Z) : Z := x mod 2 ^ 32.
Definition to_int32 (x : Z) : Z := (x + 2 ^ 31) mod 2 ^ 32 - 2 ^ 31.
Definition js_and (a b : Z) : Z := Z.land (to_int32 a) (to_int32 b).
Definition js_or (a b : Z) : Z := Z.lor (to_int32 a) (to_int32 b).
Definition js_shl (a n : Z) : Z := to_int32 (Z.shiftl (to_int32 a) (n mod 32)).
Definition js_shru (a n : Z) : Z := Z.shiftr (to_uint32 a) (n mod 32).

Lemma to_int32_id x : - 2 ^ 31 ≤ x < 2 ^ 31 → to_int32 x = x.
Proof. intros H. unfold to_int32. rewrite Z.mod_small; lia. Qed.
Lemma to_uint32_id x : 0 ≤ x < 2 ^ 32 → to_uint32 x = x.
Proof. intros H. unfold to_uint32. by rewrite Z.mod_small. Qed.
Lemma to_int32_mod x m : 0 ≤ m ≤ 32 → to_int32 x mod 2 ^ m = x mod 2 ^ m.
Proof.
  intros Hm. unfold to_int32.
  assert (2 ^ 32 = 2 ^ (32 - m) * 2 ^ m) as Hp by (rewrite <- Z.pow_add_r by lia; f_equal; lia).
  rewrite (Z.mod_eq (x + _)) by lia. rewrite Hp at 1.
  set (q := (x + 2 ^ 31) / 2 ^ 32).
  replace (x + 2 ^ 31 - 2 ^ (32 - m) * 2 ^ m * q - 2 ^ 31)
    with (x + (- 2 ^ (32 - m) * q) * 2 ^ m) by ring.
  apply Z_mod_plus_full.
Qed.

(** Masking with [2^m - 1] keeps the low bits, also of a value that wraps. *)
Lemma js_and_ones x m : 0 ≤ m ≤ 31 → js_and x (2 ^ m - 1) = x mod 2 ^ m.
Proof.
  intros Hm. unfold js_and.
  assert (0 < 2 ^ m ≤ 2 ^ 31) by
    (split; [apply Z.pow_pos_nonneg; lia | apply Z.pow_le_mono_r; lia]).
  rewrite (to_int32_id (2 ^ m - 1)) by lia.
  rewrite Z.sub_1_r, <- Z.ones_equiv, Z.land_ones by lia. by apply to_int32_mod; lia.
Qed.

Lemma js_and_255 x : js_and x 255 = x mod 256.
Proof. apply (js_and_ones x 8). lia. Qed.
Lemma js_and_127 x : js_and x 127 = x mod 128.
Proof. apply (js_and_ones x 7). lia. Qed.
Lemma js_and_65535 x : js_and x 65535 = x mod 2 ^ 16.
Proof. apply (js_and_ones x 16). lia. Qed.
Lemma js_and_31bits x : js_and x 0x7fffffff = x mod 2 ^ 31.
Proof. apply (js_and_ones x 31). lia. Qed.

Lemma land_high_low a b n : 0 ≤ n → 0 ≤ b < 2 ^ n → Z.land (a * 2 ^ n) b = 0.
Proof.
  intros Hn Hb. apply Z.bits_inj'. intros i Hi. rewrite Z.land_spec, Z.bits_0.
  destruct (Z.lt_ge_cases i n); [rewrite Z.mul_pow2_bits_low by lia; done|].
  rewrite <- (Z.mod_small b (2 ^ n)) by exact Hb. rewrite Z.mod_pow2_bits_high by lia.
  apply andb_false_r.
Qed.

Lemma lor_add a b n : 0 ≤ n → 0 ≤ b < 2 ^ n → Z.lor (a * 2 ^ n) b = a * 2 ^ n + b.
Proof.
  intros Hn Hb. pose proof (land_high_low a b n Hn Hb) as H0.
  rewrite Z.add_nocarry_lxor by done. by rewrite <- Z.lxor_lor.
Qed.

Lemma js_shru_div x n : 0 ≤ x < 2 ^ 32 → 0 ≤ n < 32 → js_shru x n = x / 2 ^ n.
Proof.
  intros Hx Hn. unfold js_shru. rewrite to_uint32_id by lia.
  rewrite (Z.mod_small n) by lia. apply Z.shiftr_div_pow2; lia.
Qed.

(** ** JavaScript strings: sequences of UTF-16 code units *)

Abbreviation jsstring := (list Z).

(** A string literal whose characters are ASCII. *)
Definition js (s : string) : jsstring :=
  map (λ c, Z.of_N (Ascii.N_of_ascii c)) (String.list_ascii_of_string s).

#[export] Instance result_eq_dec {E A} `{EqDecision E, EqDecision A} : EqDecision (result E A).
Proof. solve_decision. Defined.

(** The own properties of an object, in the order they were made. *)
Fixpoint own {A} (o : list (jsstring * A)) (key : jsstring) : option A :=
  match o with
  | [] => None
  | (k, v) :: o' => if decide (k = key) then Some v else own o' key
  end.
Fixpoint put {A} (o : list (jsstring * A)) (key : jsstring) (value : A) : list (jsstring * A) :=
  match o with
  | [] => [(key, value)]
  | (k, v) :: o' => if decide (k = key) then (k, value) :: o' else (k, v) :: put o' key value
  end.

Lemma own_put {A} (o : list (jsstring * A)) k v k' :
  own (put o k v) k' = if decide (k = k') then Some v else own o k'.
Proof.
  induction o as [|[k0 v0] o IH]; cbn [own put]; [done|].
  destruct (decide (k0 = k)) as [->|]; cbn [own]; [by destruct (decide (k = k'))|].
  destruct (decide (k0 = k')) as [->|]; [by rewrite decide_False|done].
Qed.

(** White space and line terminators, as [trim] and the number parsers skip them. *)
Definition is_space (u : Z) : bool :=
  ((9 <=? u) && (u <=? 13)) || (u =? 0x20) || (u =? 0xA0) || (u =? 0x1680) ||
  ((0x2000 <=? u) && (u <=? 0x200A)) || (u =? 0x2028) || (u =? 0x2029) || (u =? 0x202F) ||
  (u =? 0x205F) || (u =? 0x3000) || (u =? 0xFEFF).
Fixpoint trim_start (s : jsstring) : jsstring :=
  match s with u :: s' => if is_space u then trim_start s' else s | [] => [] end.

(** [Number.MAX_SAFE_INTEGER]. *)
Definition MAX_SAFE_INTEGER : Z := 9007199254740991.
