(* ===== verification/Errors.v ===== *)
(** * Errors: [h2/errors.ts]

    The HTTP/2 error codes, the [H2Error] class, and the values the modelled code throws.
    The message text of an error is not modelled. *)
From S2P Require Import Prelude.
Local Open Scope Z_scope.

Inductive ErrorCodeName :=
| NO_ERROR | PROTOCOL_ERROR | INTERNAL_ERROR | FLOW_CONTROL_ERROR | SETTINGS_TIMEOUT
| STREAM_CLOSED | FRAME_SIZE_ERROR | REFUSED_STREAM | CANCEL | COMPRESSION_ERROR
| CONNECT_ERROR | ENHANCE_YOUR_CALM | INADEQUATE_SECURITY | HTTP_1_1_REQUIRED.

#[export] Instance ErrorCodeName_eq_dec : EqDecision ErrorCodeName.
Proof. solve_decision. Defined.

Definition ERROR_CODES : list ErrorCodeName :=
  [ NO_ERROR; PROTOCOL_ERROR; INTERNAL_ERROR; FLOW_CONTROL_ERROR; SETTINGS_TIMEOUT;
    STREAM_CLOSED; FRAME_SIZE_ERROR; REFUSED_STREAM; CANCEL; COMPRESSION_ERROR;
    CONNECT_ERROR; ENHANCE_YOUR_CALM; INADEQUATE_SECURITY; HTTP_1_1_REQUIRED ].

(** [ERROR_CODES[code]]: [undefined] outside the array. *)
Definition errorCodeName (code : Z) : option ErrorCodeName :=
  if code <? 0 then None else ERROR_CODES !! Z.to_nat code.

(** [ERROR_CODES.indexOf(name)]. *)
Fixpoint index_of (n : ErrorCodeName) (l : list ErrorCodeName) (i : Z) : Z :=
  match l with
  | [] => -1
  | m :: l' => if decide (m = n) then i else index_of n l' (i + 1)
  end.
Definition errorCodeValue (name : ErrorCodeName) : Z := index_of name ERROR_CODES 0.

(** Evidence that a request was not processed by the peer. *)
Inductive Evidence := Unsent | Refused.

#[export] Instance Evidence_eq_dec : EqDecision Evidence.
Proof. solve_decision. Defined.

Record H2Error := mkH2Error {
  h2_code : ErrorCodeName;
  h2_streamId : option Z;
  h2_retry : option Evidence;
}.

#[export] Instance H2Error_eq_dec : EqDecision H2Error.
Proof. solve_decision. Defined.

(** [new H2Error(code, message)] and [new H2Error(code, message, streamId)]. *)
Definition h2_error (c : ErrorCodeName) : H2Error := mkH2Error c None None.
Definition h2_stream_error (c : ErrorCodeName) (id : Z) : H2Error := mkH2Error c (Some id) None.

(** What a [throw] in the HTTP/2 engine can carry: an [H2Error], a [RangeError] of a
    [DataView], the decoder's [UnknownFrameType], or a value made outside the engine (a
    transport failure, an abort reason), named by a number. *)
Inductive exn :=
| EH2 (e : H2Error)
| ERangeError
| EUnknownFrameType (typeId : Z)
| EForeign (n : Z).

#[export] Instance exn_eq_dec : EqDecision exn.
Proof. solve_decision. Defined.

(** [err instanceof H2Error ? err.code : "PROTOCOL_ERROR"]. *)
Definition exn_code (e : exn) : ErrorCodeName :=
  match e with EH2 h => h2_code h | _ => PROTOCOL_ERROR end.

Definition exn_retry (e : exn) : option Evidence :=
  match e with EH2 h => h2_retry h | _ => None end.

Lemma errorCodeName_value n : errorCodeName (errorCodeValue n) = Some n.
Proof. by destruct n. Qed.

Lemma errorCodeValue_bounds n : 0 ≤ errorCodeValue n < 14.
Proof. destruct n; vm_compute; split; congruence. Qed.
