(* ===== verification/Text.v ===== *)
(** * Text: the UTF-8 codec of [h2/bytes.ts]

    [encodeUtf8] and [decodeUtf8] call the platform's [TextEncoder] and
    [TextDecoder("utf-8", { fatal: false })].  Strings are sequences of UTF-16 code units.
    The encoder turns an unpaired surrogate into U+FFFD; the decoder is the state machine of
    the Encoding standard: malformed input becomes U+FFFD, one per maximal prefix, and one
    leading byte order mark is dropped. *)
From S2P Require Import Prelude.
Local Open Scope Z_scope.

Definition REPLACEMENT : Z := 0xFFFD.
Definition BOM : Z := 0xFEFF.

Definition is_high (u : Z) : bool := (0xD800 <=? u) && (u <=? 0xDBFF).
Definition is_low (u : Z) : bool := (0xDC00 <=? u) && (u <=? 0xDFFF).

(** Code points of a string; an unpaired surrogate is replaced. *)
Fixpoint code_points (s : jsstring) : list Z :=
  match s with
  | [] => []
  | u :: s' =>
      if is_high u then
        match s' with
        | v :: s'' =>
            if is_low v then (0x10000 + (u - 0xD800) * 1024 + (v - 0xDC00)) :: code_points s''
            else REPLACEMENT :: code_points s'
        | [] => [REPLACEMENT]
        end
      else if is_low u then REPLACEMENT :: code_points s'
      else u :: code_points s'
  end.

Definition utf8_bytes (c : Z) : bytes :=
  if c <? 0x80 then [c]
  else if c <? 0x800 then [0xC0 + c / 64; 0x80 + c mod 64]
  else if c <? 0x10000 then [0xE0 + c / 4096; 0x80 + c / 64 mod 64; 0x80 + c mod 64]
  else [0xF0 + c / 262144; 0x80 + c / 4096 mod 64; 0x80 + c / 64 mod 64; 0x80 + c mod 64].

Definition encodeUtf8 (s : jsstring) : bytes := mjoin (map utf8_bytes (code_points s)).

(** The decoder's state: the code point under construction, how many continuation bytes it
    needs and has seen, and the range the next byte must be in. *)
Record dstate := DState { d_cp : Z; d_needed : Z; d_seen : Z; d_lower : Z; d_upper : Z }.

Definition dinit : dstate := DState 0 0 0 0x80 0xBF.

(** A byte read while no character is under construction. *)
Definition start_byte (b : Z) : dstate * list Z :=
  if b <=? 0x7F then (dinit, [b])
  else if (0xC2 <=? b) && (b <=? 0xDF) then (DState (b - 0xC0) 1 0 0x80 0xBF, [])
  else if (0xE0 <=? b) && (b <=? 0xEF) then
    (DState (b - 0xE0) 2 0 (if b =? 0xE0 then 0xA0 else 0x80)
                           (if b =? 0xED then 0x9F else 0xBF), [])
  else if (0xF0 <=? b) && (b <=? 0xF4) then
    (DState (b - 0xF0) 3 0 (if b =? 0xF0 then 0x90 else 0x80)
                           (if b =? 0xF4 then 0x8F else 0xBF), [])
  else (dinit, [REPLACEMENT]).

Fixpoint utf8_code_points (st : dstate) (bs : bytes) : list Z :=
  match bs with
  | [] => if d_needed st =? 0 then [] else [REPLACEMENT]
  | b :: bs' =>
      if d_needed st =? 0 then
        let '(st', out) := start_byte b in out ++ utf8_code_points st' bs'
      else if (d_lower st <=? b) && (b <=? d_upper st) then
        let cp := d_cp st * 64 + (b - 0x80) in
        if d_seen st + 1 =? d_needed st then cp :: utf8_code_points dinit bs'
        else utf8_code_points (DState cp (d_needed st) (d_seen st + 1) 0x80 0xBF) bs'
      else
        let '(st', out) := start_byte b in REPLACEMENT :: out ++ utf8_code_points st' bs'
  end.

Definition drop_bom (cs : list Z) : list Z :=
  match cs with
  | c :: cs' => if c =? BOM then cs' else cs
  | [] => []
  end.

Definition utf16_units (c : Z) : jsstring :=
  if c <? 0x10000 then [c]
  else [0xD800 + (c - 0x10000) / 1024; 0xDC00 + (c - 0x10000) mod 1024].

Definition decodeUtf8 (bs : bytes) : jsstring :=
  mjoin (map utf16_units (drop_bom (utf8_code_points dinit bs))).

(** A string whose surrogates are all paired. *)
Fixpoint well_formed (s : jsstring) : bool :=
  match s with
  | [] => true
  | u :: s' =>
      (0 <=? u) && (u <=? 0xFFFF) &&
      if is_high u then
        match s' with v :: s'' => is_low v && well_formed s'' | [] => false end
      else negb (is_low u) && well_formed s'
  end.

Definition ascii_string (s : jsstring) : bool := forallb (λ u, (0 <=? u) && (u <? 0x80)) s.

(** ** Proofs *)

Definition scalar (c : Z) : Prop := 0 ≤ c < 0xD800 ∨ 0xE000 ≤ c < 0x110000.

(** Turn boolean comparisons among the hypotheses into propositions. *)
Ltac bool_hyps :=
  rewrite ?andb_true_iff, ?andb_false_iff, ?Z.leb_le, ?Z.leb_gt, ?Z.ltb_lt, ?Z.ltb_ge,
    ?Z.eqb_eq, ?Z.eqb_neq in * |-.
Ltac bool_lia := bool_hyps; try lia.

(** Decide the boolean comparisons of the goal with [lia]. *)
Ltac decide_cmp :=
  repeat match goal with
  | |- context [?a <? ?b] =>
      first [ rewrite (proj2 (Z.ltb_lt a b)) by lia | rewrite (proj2 (Z.ltb_ge a b)) by lia ]
  | |- context [?a <=? ?b] =>
      first [ rewrite (proj2 (Z.leb_le a b)) by lia | rewrite (proj2 (Z.leb_gt a b)) by lia ]
  | |- context [?a =? ?b] =>
      first [ rewrite (proj2 (Z.eqb_eq a b)) by lia | rewrite (proj2 (Z.eqb_neq a b)) by lia ]
  end; cbn [andb orb negb].

Lemma utf8_decode_2 a d rest :
  2 ≤ a < 32 → 0 ≤ d < 64 →
  utf8_code_points dinit (0xC0 + a :: 0x80 + d :: rest) =
    (a * 64 + d) :: utf8_code_points dinit rest.
Proof.
  intros Ha Hd. cbn [utf8_code_points d_needed dinit Z.eqb]. unfold start_byte.
  decide_cmp. cbn [app utf8_code_points d_needed d_lower d_upper d_seen d_cp Z.eqb Z.add
    Pos.eqb]. decide_cmp. f_equal. lia.
Qed.

Lemma utf8_decode_3 a b d rest :
  0 ≤ a < 16 → 0 ≤ b < 64 → 0 ≤ d < 64 → (a = 0 → 32 ≤ b) → (a = 13 → b < 32) →
  utf8_code_points dinit (0xE0 + a :: 0x80 + b :: 0x80 + d :: rest) =
    (a * 4096 + b * 64 + d) :: utf8_code_points dinit rest.
Proof.
  intros Ha Hb Hd H0 H13. cbn [utf8_code_points d_needed dinit Z.eqb]. unfold start_byte.
  destruct (decide (a = 0)); [|destruct (decide (a = 13))]; decide_cmp;
    cbn [app utf8_code_points d_needed d_lower d_upper d_seen d_cp Z.eqb Z.add Pos.eqb];
    decide_cmp; cbn [utf8_code_points d_needed d_lower d_upper d_seen d_cp Z.eqb Z.add
      Pos.add Pos.eqb]; decide_cmp; f_equal; lia.
Qed.

Lemma utf8_decode_4 a b e d rest :
  0 ≤ a < 5 → 0 ≤ b < 64 → 0 ≤ e < 64 → 0 ≤ d < 64 →
  (a = 0 → 16 ≤ b) → (a = 4 → b < 16) →
  utf8_code_points dinit (0xF0 + a :: 0x80 + b :: 0x80 + e :: 0x80 + d :: rest) =
    (a * 262144 + b * 4096 + e * 64 + d) :: utf8_code_points dinit rest.
Proof.
  intros Ha Hb He Hd H0 H4. cbn [utf8_code_points d_needed dinit Z.eqb]. unfold start_byte.
  destruct (decide (a = 0)); [|destruct (decide (a = 4))]; decide_cmp;
    cbn [app utf8_code_points d_needed d_lower d_upper d_seen d_cp Z.eqb Z.add Pos.eqb];
    decide_cmp; cbn [utf8_code_points d_needed d_lower d_upper d_seen d_cp Z.eqb Z.add
      Pos.add Pos.eqb]; decide_cmp;
    cbn [utf8_code_points d_needed d_lower d_upper d_seen d_cp Z.eqb Z.add
      Pos.add Pos.succ Pos.eqb]; decide_cmp; f_equal; lia.
Qed.

(** Decoding the bytes of one character yields it and leaves the decoder between characters. *)
Lemma utf8_decode_char c rest :
  scalar c → utf8_code_points dinit (utf8_bytes c ++ rest) = c :: utf8_code_points dinit rest.
Proof.
  intros Hc. unfold scalar in Hc. unfold utf8_bytes.
  destruct (Z.ltb_spec c 0x80); [|destruct (Z.ltb_spec c 0x800);
    [|destruct (Z.ltb_spec c 0x10000)]]; cbn [app].
  - cbn [utf8_code_points d_needed dinit Z.eqb]. unfold start_byte. decide_cmp. done.
  - rewrite utf8_decode_2; [f_equal|..]; Z.to_euclidean_division_equations; lia.
  - rewrite utf8_decode_3; [f_equal|..]; Z.to_euclidean_division_equations; lia.
  - rewrite utf8_decode_4; [f_equal|..]; Z.to_euclidean_division_equations; lia.
Qed.

Lemma utf8_decode_chars cs rest :
  Forall scalar cs →
  utf8_code_points dinit (mjoin (map utf8_bytes cs) ++ rest) =
    cs ++ utf8_code_points dinit rest.
Proof.
  induction 1 as [|c cs Hc Hcs IH]; [done|]. csimpl.
  rewrite <- app_assoc, utf8_decode_char by done. by rewrite IH.
Qed.

Lemma code_points_scalar s :
  Forall (λ u, 0 ≤ u ≤ 0xFFFF) s → Forall scalar (code_points s).
Proof.
  remember (length s) as n eqn:Hn. revert s Hn.
  induction (lt_wf n) as [n _ IH]. intros s -> Hs.
  destruct s as [|u s]; [constructor|]. inversion_clear Hs as [|? ? Hu Hs']. cbn [code_points].
  destruct (is_high u) eqn:Hh.
  - destruct s as [|v s]; [constructor; [unfold scalar, REPLACEMENT; lia|constructor]|].
    destruct (is_low v) eqn:Hl.
    + inversion_clear Hs'. constructor; [unfold scalar, is_high, is_low in *; bool_lia|].
      apply (IH (length s)); [simpl; lia|done|done].
    + constructor; [unfold scalar, REPLACEMENT; lia|].
      apply (IH (length (v :: s))); [simpl; lia|done|done].
  - destruct (is_low u) eqn:Hl; constructor; try (apply (IH (length s)); [simpl; lia|done|done]).
    + unfold scalar, REPLACEMENT. lia.
    + unfold scalar, is_high, is_low in *. bool_lia.
Qed.

Lemma well_formed_units s : well_formed s = true → Forall (λ u, 0 ≤ u ≤ 0xFFFF) s.
Proof.
  remember (length s) as n eqn:Hn. revert s Hn.
  induction (lt_wf n) as [n _ IH]. intros s -> Hs.
  destruct s as [|u s]; [constructor|]. cbn [well_formed] in Hs.
  rewrite !andb_true_iff, !Z.leb_le in Hs. destruct Hs as [[H1 H2] Hs].
  constructor; [lia|]. destruct (is_high u).
  - destruct s as [|v s]; [discriminate|]. apply andb_true_iff in Hs as [Hl Hs].
    constructor; [unfold is_low in Hl; bool_lia|].
    apply (IH (length s)); [simpl; lia|done|done].
  - apply andb_true_iff in Hs as [_ Hs]. apply (IH (length s)); [simpl; lia|done|done].
Qed.

Lemma utf16_code_points s :
  well_formed s = true → mjoin (map utf16_units (code_points s)) = s.
Proof.
  remember (length s) as n eqn:Hn. revert s Hn.
  induction (lt_wf n) as [n _ IH]. intros s -> Hs.
  destruct s as [|u s]; [done|]. cbn [well_formed] in Hs. cbn [code_points].
  rewrite !andb_true_iff, !Z.leb_le in Hs. destruct Hs as [[H1 H2] Hs].
  destruct (is_high u) eqn:Hh.
  - destruct s as [|v s]; [discriminate|]. apply andb_true_iff in Hs as [Hl Hs].
    rewrite Hl. csimpl. rewrite (IH (length s)); [|simpl; lia|done|done].
    unfold utf16_units, is_high, is_low in *. bool_lia. decide_cmp. cbn [app].
    f_equal; [|f_equal]; Z.to_euclidean_division_equations; lia.
  - apply andb_true_iff in Hs as [Hl Hs]. apply negb_true_iff in Hl. rewrite Hl. csimpl.
    rewrite (IH (length s)); [|simpl; lia|done|done].
    unfold utf16_units. decide_cmp. done.
Qed.

Lemma ascii_well_formed s : ascii_string s = true → well_formed s = true.
Proof.
  induction s as [|u s IH]; [done|]. cbn [ascii_string forallb well_formed].
  rewrite !andb_true_iff. intros [[H1 H2] Hs]. unfold is_high, is_low. bool_lia.
  decide_cmp. split_and!; try done. by apply IH.
Qed.

Lemma head_code_points u s :
  u ≠ BOM → well_formed (u :: s) = true → ∀ c cs, code_points (u :: s) = c :: cs → c ≠ BOM.
Proof.
  intros Hu Hs c cs. cbn [code_points]. cbn [well_formed] in Hs. unfold BOM in *.
  destruct (is_high u) eqn:Hh.
  - destruct s as [|v s]; [intros [= <- _]; unfold REPLACEMENT; lia|].
    destruct (is_low v) eqn:Hl; intros [= <- _];
      [unfold is_high, is_low in *; bool_lia | unfold REPLACEMENT; lia].
  - destruct (is_low u); intros [= <- _]; [unfold REPLACEMENT; lia|done].
Qed.

(** UTF-8 round trip on every string without unpaired surrogates and without a leading byte
    order mark (which the decoder drops). *)
Lemma decode_encode_utf8 s :
  well_formed s = true → head s ≠ Some BOM → decodeUtf8 (encodeUtf8 s) = s.
Proof.
  intros Hwf Hbom. unfold decodeUtf8, encodeUtf8.
  rewrite <- (app_nil_r (mjoin (map utf8_bytes _))), utf8_decode_chars
    by (apply code_points_scalar, well_formed_units, Hwf).
  cbn [utf8_code_points dinit d_needed Z.eqb]. rewrite app_nil_r.
  replace (drop_bom (code_points s)) with (code_points s); [by apply utf16_code_points|].
  destruct s as [|u s]; [done|]. destruct (code_points (u :: s)) as [|c cs] eqn:Hc; [done|].
  cbn [drop_bom]. rewrite (proj2 (Z.eqb_neq c BOM)); [done|].
  eapply head_code_points; [|done..]. intros ->. by apply Hbom.
Qed.

Lemma ascii_code_points s : ascii_string s = true → code_points s = s.
Proof.
  induction s as [|u s IH]; [done|]. cbn [ascii_string forallb code_points].
  rewrite !andb_true_iff. intros [[H1 H2] Hs]. unfold is_high, is_low. bool_lia. decide_cmp.
  f_equal. by apply IH.
Qed.

Lemma encodeUtf8_ascii s : ascii_string s = true → encodeUtf8 s = s.
Proof.
  intros H. unfold encodeUtf8. rewrite ascii_code_points by done.
  induction s as [|u s IH]; [done|]. cbn [ascii_string forallb] in H.
  rewrite !andb_true_iff in H. destruct H as [[H1 H2] Hs]. csimpl. rewrite IH by done.
  unfold utf8_bytes. bool_lia. decide_cmp. done.
Qed.

Lemma decodeUtf8_ascii s : ascii_string s = true → decodeUtf8 s = s.
Proof.
  intros H. rewrite <- (encodeUtf8_ascii s) at 1 by done. apply decode_encode_utf8.
  - by apply ascii_well_formed.
  - destruct s as [|u s]; [done|]. intros [= ->]. cbn in H. done.
Qed.

Lemma utf8_bytes_ok c : scalar c → Forall is_byte (utf8_bytes c).
Proof.
  unfold scalar, utf8_bytes, is_byte. intros H.
  repeat case_match; bool_lia; repeat constructor; Z.to_euclidean_division_equations; lia.
Qed.
