(* ===== verification/Bytes.v ===== *)
(** * Bytes: [h2/bytes.ts]

    [concatBytes], the growable [ByteWriter] and the cursor-based [ByteReader].  What a
    writer promises to the frame codec and to HPACK is the interface [ByteSink]: every
    operation appends.  [ByteWriter] keeps the backing array and the doubling of its
    capacity, and the instance proves that it implements the interface.

    A [DataView] access out of range throws a [RangeError]: the reader's operations return
    it; the writer's stores are in range because [ensure] runs first ([ensure_fits]). *)
From S2P Require Import Prelude Errors.
Local Open Scope Z_scope.

Definition concatBytes (chunks : list bytes) : bytes :=
  let total := fold_left (λ t c, t + zlen c) chunks 0 in
  let out := replicate (Z.to_nat total) 0 in
  fst (fold_left
    (λ '(out, offset) c,
       (take (Z.to_nat offset) out ++ c ++ drop (Z.to_nat (offset + zlen c)) out, offset + zlen c))
    chunks (out, 0)).

(** Big-endian bytes of a number, as a [DataView] stores them. *)
Definition be16 (v : Z) : bytes := [v / 256 mod 256; v mod 256].
Definition be24 (v : Z) : bytes := [v / 65536 mod 256; v / 256 mod 256; v mod 256].
Definition be32 (v : Z) : bytes :=
  [v / 16777216 mod 256; v / 65536 mod 256; v / 256 mod 256; v mod 256].

(** ** ByteWriter *)

Record ByteWriter := mkWriter { bw_buf : bytes; bw_len : Z }.

Definition bw_new (initialCapacity : Z) : ByteWriter :=
  mkWriter (replicate (Z.to_nat initialCapacity) 0) 0.

(** [while (cap < need) cap *= 2].  Starting from a positive capacity, [need] rounds are
    enough ([grow_enough]). *)
Fixpoint grow (fuel : nat) (cap need : Z) : Z :=
  match fuel with
  | O => cap
  | S fuel' => if cap <? need then grow fuel' (cap * 2) need else cap
  end.

Definition ensure (extra : Z) (w : ByteWriter) : ByteWriter :=
  let need := bw_len w + extra in
  if need <=? zlen (bw_buf w) then w
  else
    let cap := grow (Z.to_nat need) (zlen (bw_buf w) * 2) need in
    let next := take (Z.to_nat (bw_len w)) (bw_buf w)
                ++ replicate (Z.to_nat (cap - bw_len w)) 0 in
    mkWriter next (bw_len w).

(** Store [bs] at the write position and advance it. *)
Definition store (bs : bytes) (w : ByteWriter) : ByteWriter :=
  mkWriter (take (Z.to_nat (bw_len w)) (bw_buf w) ++ bs
            ++ drop (Z.to_nat (bw_len w + zlen bs)) (bw_buf w))
           (bw_len w + zlen bs).

Definition bw_u8 (v : Z) (w : ByteWriter) : ByteWriter :=
  store [js_and v 0xff] (ensure 1 w).
Definition bw_u16 (v : Z) (w : ByteWriter) : ByteWriter :=
  store (be16 (js_and v 0xffff)) (ensure 2 w).
Definition bw_u24 (v : Z) (w : ByteWriter) : ByteWriter :=
  store [js_and (js_shru v 16) 0xff; js_and (js_shru v 8) 0xff; js_and v 0xff] (ensure 3 w).
Definition bw_u32 (v : Z) (w : ByteWriter) : ByteWriter :=
  store (be32 (js_shru v 0)) (ensure 4 w).
Definition bw_bytes (b : bytes) (w : ByteWriter) : ByteWriter :=
  store b (ensure (zlen b) w).
Definition bw_take (w : ByteWriter) : bytes := take (Z.to_nat (bw_len w)) (bw_buf w).

(** ** The interface of a byte sink *)

Class ByteSink (W : Type) := {
  sink_new : Z → W;
  sink_u8 : Z → W → W;
  sink_u16 : Z → W → W;
  sink_u24 : Z → W → W;
  sink_u32 : Z → W → W;
  sink_bytes : bytes → W → W;
  sink_take : W → bytes;
}.

Class ByteSinkLaws (W : Type) `{ByteSink W} := {
  sink_ok : W → Prop;
  sink_new_ok cap : 0 < cap → sink_ok (sink_new cap);
  sink_new_take cap : 0 < cap → sink_take (sink_new cap) = [];
  sink_u8_ok v w : sink_ok w → sink_ok (sink_u8 v w);
  sink_u8_take v w : sink_ok w → sink_take (sink_u8 v w) = sink_take w ++ [v mod 256];
  sink_u16_ok v w : sink_ok w → sink_ok (sink_u16 v w);
  sink_u16_take v w : sink_ok w → sink_take (sink_u16 v w) = sink_take w ++ be16 v;
  sink_u24_ok v w : sink_ok w → sink_ok (sink_u24 v w);
  sink_u24_take v w : sink_ok w → sink_take (sink_u24 v w) = sink_take w ++ be24 v;
  sink_u32_ok v w : sink_ok w → sink_ok (sink_u32 v w);
  sink_u32_take v w : sink_ok w → sink_take (sink_u32 v w) = sink_take w ++ be32 v;
  sink_bytes_ok b w : sink_ok w → sink_ok (sink_bytes b w);
  sink_bytes_take b w : sink_ok w → sink_take (sink_bytes b w) = sink_take w ++ b;
}.

#[export] Instance ByteWriter_sink : ByteSink ByteWriter := {
  sink_new := bw_new; sink_u8 := bw_u8; sink_u16 := bw_u16; sink_u24 := bw_u24;
  sink_u32 := bw_u32; sink_bytes := bw_bytes; sink_take := bw_take;
}.

(** ** ByteReader *)

Record ByteReader := mkReader { rd_buf : bytes; rd_cursor : Z }.

Abbreviation Rd := (M ByteReader exn).

Definition rd_new (buf : bytes) : ByteReader := mkReader buf 0.

Definition remaining (r : ByteReader) : Z := zlen (rd_buf r) - rd_cursor r.

(** [view.getUint8(i)]. *)
Definition getUint8 (i : Z) : Rd Z := λ r,
  if i <? 0 then (r, Throw ERangeError)
  else match rd_buf r !! Z.to_nat i with
       | Some b => (r, Ok b)
       | None => (r, Throw ERangeError)
       end.

Definition advance (n : Z) : Rd unit :=
  modify (λ r, mkReader (rd_buf r) (rd_cursor r + n)).

Definition rd_peek : Rd Z := λ r, getUint8 (rd_cursor r) r.

Definition rd_u8 : Rd Z := λ r,
  (v ← getUint8 (rd_cursor r); advance 1;; mret v) r.

Definition rd_u16 : Rd Z := λ r,
  (* a 16-bit read is in range exactly when its last byte is *)
  (b ← getUint8 (rd_cursor r + 1); a ← getUint8 (rd_cursor r);
   advance 2;; mret (a * 256 + b)) r.

Definition rd_u24 : Rd Z := λ r,
  (a ← getUint8 (rd_cursor r); b ← getUint8 (rd_cursor r + 1); c ← getUint8 (rd_cursor r + 2);
   advance 3;; mret (js_or (js_or (js_shl a 16) (js_shl b 8)) c)) r.

Definition rd_u32 : Rd Z := λ r,
  (d ← getUint8 (rd_cursor r + 3); c ← getUint8 (rd_cursor r + 2);
   b ← getUint8 (rd_cursor r + 1); a ← getUint8 (rd_cursor r);
   advance 4;; mret (js_shru (a * 16777216 + b * 65536 + c * 256 + d) 0)) r.

Definition rd_bytes (n : Z) : Rd bytes := λ r,
  (advance n;; mret (subarray (rd_buf r) (rd_cursor r) (rd_cursor r + n))) r.

(** ** Proofs: [concatBytes] is concatenation *)

Lemma fold_lengths chunks t :
  fold_left (λ t c, t + zlen c) chunks t = t + zlen (mjoin chunks : bytes).
Proof.
  revert t. induction chunks as [|c cs IH]; intros t; csimpl; [zl|]. rewrite IH. zl.
Qed.

Lemma concatBytes_spec chunks : concatBytes chunks = mjoin chunks.
Proof.
  unfold concatBytes. rewrite fold_lengths.
  enough (∀ (cs : list bytes) (done rest : bytes), zlen rest = zlen (mjoin cs : bytes) →
    fst (fold_left (λ '(out, offset) c,
       (take (Z.to_nat offset) out ++ c ++ drop (Z.to_nat (offset + zlen c)) out,
        offset + zlen c)) cs (done ++ rest, zlen done)) = done ++ mjoin cs) as H.
  { apply (H chunks []). rewrite zlen_replicate. zl. }
  induction cs as [|c cs IH]; intros d rest Hr; csimpl in *.
  - rewrite app_nil_r. apply zlen_0_inv in Hr. subst. by rewrite app_nil_r.
  - rewrite take_zlen_app. autorewrite with zlen in Hr.
    assert (drop (Z.to_nat (zlen d + zlen c)) (d ++ rest) = drop (length c) rest) as ->.
    { rewrite drop_app. rewrite drop_ge by (unfold zlen; lia). simpl.
      f_equal. unfold zlen. lia. }
    rewrite app_assoc. replace (zlen d + zlen c) with (zlen (d ++ c)) by zl.
    rewrite IH; [by rewrite <- app_assoc|]. unfold zlen in *. rewrite length_drop. lia.
Qed.

(** ** Proofs: [ByteWriter] implements [ByteSink] *)

Definition bw_ok (w : ByteWriter) : Prop :=
  0 ≤ bw_len w ≤ zlen (bw_buf w) ∧ 0 < zlen (bw_buf w).

Lemma grow_ge fuel cap need : 0 < cap → cap ≤ grow fuel cap need.
Proof.
  revert cap. induction fuel as [|n IH]; intros cap Hc; simpl; [lia|].
  destruct (cap <? need); [|lia]. specialize (IH (cap * 2)). lia.
Qed.

Lemma grow_enough fuel cap need :
  0 < cap → need ≤ cap + Z.of_nat fuel → need ≤ grow fuel cap need.
Proof.
  revert cap. induction fuel as [|n IH]; intros cap Hc Hf; simpl; [lia|].
  destruct (Z.ltb_spec cap need); [apply IH; lia|lia].
Qed.

(** After [ensure extra] the next [extra] bytes are inside the buffer, and nothing that was
    written changed. *)
Lemma ensure_fits extra w :
  0 ≤ extra → bw_ok w →
  bw_ok (ensure extra w) ∧ bw_len (ensure extra w) = bw_len w ∧
  bw_len w + extra ≤ zlen (bw_buf (ensure extra w)) ∧ bw_take (ensure extra w) = bw_take w.
Proof.
  intros He [Hl Hp]. unfold ensure.
  destruct (Z.leb_spec (bw_len w + extra) (zlen (bw_buf w))).
  { repeat split; lia. }
  set (need := bw_len w + extra).
  set (cap := grow _ _ _).
  assert (zlen (bw_buf w) * 2 ≤ cap) by (apply grow_ge; lia).
  assert (need ≤ cap) by (apply grow_enough; lia).
  unfold bw_ok, bw_take. cbn [bw_buf bw_len].
  assert (bw_len w ≤ zlen (bw_buf w)) by lia.
  assert (zlen (take (Z.to_nat (bw_len w)) (bw_buf w)) = bw_len w) as Ht
    by (rewrite zlen_take; lia).
  repeat split; rewrite ?zlen_app, ?Ht, ?zlen_replicate; try lia.
  rewrite take_app_le by (unfold zlen in Ht; lia). rewrite take_take.
  f_equal. lia.
Qed.

Lemma store_ok bs w : bw_ok w → bw_len w + zlen bs ≤ zlen (bw_buf w) → bw_ok (store bs w).
Proof.
  intros [Hl Hp] Hf. unfold bw_ok, store. cbn [bw_len bw_buf].
  autorewrite with zlen. zlen_pos. lia.
Qed.

Lemma store_take bs w :
  bw_ok w → bw_len w + zlen bs ≤ zlen (bw_buf w) → bw_take (store bs w) = bw_take w ++ bs.
Proof.
  intros [Hl Hp] Hf. unfold bw_take, store. cbn [bw_len bw_buf].
  rewrite app_assoc. set (pre := take _ _ ++ bs).
  assert (zlen pre = bw_len w + zlen bs) as <-
    by (unfold pre; autorewrite with zlen; zlen_pos; lia).
  apply take_zlen_app.
Qed.

Lemma write_ok bs w extra :
  extra = zlen bs → bw_ok w → bw_ok (store bs (ensure extra w)).
Proof.
  intros -> Hw. destruct (ensure_fits (zlen bs) w (zlen_nonneg bs) Hw) as (? & Hl & ? & _).
  apply store_ok; [done|]. lia.
Qed.

Lemma write_take bs w extra :
  extra = zlen bs → bw_ok w → bw_take (store bs (ensure extra w)) = bw_take w ++ bs.
Proof.
  intros -> Hw. destruct (ensure_fits (zlen bs) w (zlen_nonneg bs) Hw) as (? & Hl & ? & <-).
  apply store_take; [done|]. lia.
Qed.

Lemma shru_byte v n : 0 ≤ n ≤ 24 → js_and (js_shru v n) 255 = v / 2 ^ n mod 256.
Proof.
  intros Hn. rewrite js_and_255. unfold js_shru, to_uint32.
  rewrite (Z.mod_small n) by lia. rewrite Z.shiftr_div_pow2 by lia.
  assert (2 ^ 32 = 2 ^ n * 2 ^ (32 - n)) as -> by (rewrite <- Z.pow_add_r by lia; f_equal; lia).
  rewrite Z.rem_mul_r by (try apply Z.pow_nonzero; try apply Z.pow_pos_nonneg; lia).
  rewrite (Z.mul_comm (2 ^ n)), Z.div_add by (apply Z.pow_nonzero; lia).
  rewrite (Z.div_small (v mod _)) by (apply Z.mod_pos_bound, Z.pow_pos_nonneg; lia).
  rewrite Z.add_0_l.
  assert (2 ^ (32 - n) = 256 * 2 ^ (24 - n)) as ->
    by (change 256 with (2 ^ 8); rewrite <- Z.pow_add_r by lia; f_equal; lia).
  rewrite Z.rem_mul_r by (try apply Z.pow_pos_nonneg; lia).
  rewrite (Z.mul_comm 256), Z_mod_plus_full. by apply Zmod_mod.
Qed.

Lemma be16_wrap v : be16 (js_and v 0xffff) = be16 v.
Proof.
  rewrite js_and_65535. unfold be16. change (2 ^ 16) with (256 * 256).
  rewrite Z.rem_mul_r by lia. f_equal; [|f_equal].
  - rewrite (Z.mul_comm 256), Z.div_add by lia.
    rewrite (Z.div_small (v mod 256)) by (apply Z.mod_pos_bound; lia). apply Zmod_mod.
  - rewrite (Z.mul_comm 256), Z_mod_plus_full. apply Zmod_mod.
Qed.

Lemma be32_wrap v : be32 (js_shru v 0) = be32 v.
Proof.
  unfold be32, js_shru. rewrite (Z.mod_small 0), Z.shiftr_0_r by lia. unfold to_uint32.
  f_equal; [|f_equal; [|f_equal; [|f_equal]]]; Z.to_euclidean_division_equations; lia.
Qed.

#[export] Instance ByteWriter_laws : ByteSinkLaws ByteWriter.
Proof.
  refine {| sink_ok := bw_ok |}; cbn [sink_new sink_u8 sink_u16 sink_u24 sink_u32 sink_bytes
    sink_take ByteWriter_sink].
  - intros cap Hc. unfold bw_ok, bw_new. cbn [bw_len bw_buf]. rewrite zlen_replicate. lia.
  - done.
  - intros. by apply write_ok.
  - intros. unfold bw_u8. rewrite write_take by done. by rewrite js_and_255.
  - intros. by apply write_ok.
  - intros. unfold bw_u16. rewrite write_take by done. by rewrite be16_wrap.
  - intros. by apply write_ok.
  - intros. unfold bw_u24. rewrite write_take by done. rewrite !shru_byte, js_and_255 by lia.
    done.
  - intros. by apply write_ok.
  - intros. unfold bw_u32. rewrite write_take by done. by rewrite be32_wrap.
  - intros. by apply write_ok.
  - intros. by apply write_take.
Qed.

Create HintDb sink discriminated.
#[export] Hint Resolve sink_new_ok sink_u8_ok sink_u16_ok sink_u24_ok sink_u32_ok sink_bytes_ok
  : sink.
Create Rewrite HintDb sink_take.
#[export] Hint Rewrite @sink_new_take @sink_u8_take @sink_u16_take @sink_u24_take @sink_u32_take
  @sink_bytes_take using (eauto 20 with sink; lia) : sink_take.

(** ** Proofs: reading what follows the cursor *)

(** A reader that has consumed [pre] and has [rest] to come. *)
Definition rdr (pre rest : bytes) : ByteReader := mkReader (pre ++ rest) (zlen pre).

Lemma rd_new_rdr b : rd_new b = rdr [] b.
Proof. done. Qed.

Lemma remaining_rdr pre rest : remaining (rdr pre rest) = zlen rest.
Proof. unfold remaining, rdr. cbn [rd_buf rd_cursor]. zl. Qed.

Lemma getUint8_rdr pre a b rest :
  getUint8 (zlen pre + zlen a) (rdr pre (a ++ b :: rest)) = (rdr pre (a ++ b :: rest), Ok b).
Proof.
  unfold getUint8, rdr. cbn [rd_buf].
  rewrite (proj2 (Z.ltb_ge _ _)) by zl.
  rewrite app_assoc. replace (zlen pre + zlen a) with (zlen (pre ++ a)) by zl.
  by rewrite lookup_zlen_app.
Qed.

Lemma getUint8_end pre i : zlen pre ≤ i → getUint8 i (rdr pre []) = (rdr pre [], Throw ERangeError).
Proof.
  intros Hi. unfold getUint8, rdr. cbn [rd_buf]. case_match; [done|].
  rewrite app_nil_r, lookup_ge_None_2; [done|]. unfold zlen in Hi. lia.
Qed.

Lemma advance_rdr pre a rest :
  advance (zlen a) (rdr pre (a ++ rest)) = (rdr (pre ++ a) rest, Ok tt).
Proof.
  unfold advance, modify, rdr. cbn [rd_buf rd_cursor]. rewrite zlen_app.
  by rewrite app_assoc.
Qed.

Lemma rd_peek_rdr pre b rest : rd_peek (rdr pre (b :: rest)) = (rdr pre (b :: rest), Ok b).
Proof.
  unfold rd_peek. change (rd_cursor (rdr pre (b :: rest))) with (zlen pre).
  rewrite <- (Z.add_0_r (zlen pre)). exact (getUint8_rdr pre [] b rest).
Qed.

Lemma rd_u8_rdr pre b rest : rd_u8 (rdr pre (b :: rest)) = (rdr (pre ++ [b]) rest, Ok b).
Proof.
  unfold rd_u8. change (rd_cursor (rdr pre (b :: rest))) with (zlen pre).
  rewrite <- (Z.add_0_r (zlen pre)).
  rewrite (bind_ok _ _ _ _ _ (getUint8_rdr pre [] b rest)). cbn [app].
  by rewrite (bind_ok _ _ _ _ _ (advance_rdr pre [b] rest)).
Qed.

Lemma rd_u8_end pre : rd_u8 (rdr pre []) = (rdr pre [], Throw ERangeError).
Proof.
  apply (bind_throw _ _ _ _ _ (getUint8_end pre (zlen pre) (Z.le_refl _))).
Qed.

Lemma rd_u16_rdr pre a b rest :
  rd_u16 (rdr pre (a :: b :: rest)) = (rdr (pre ++ [a; b]) rest, Ok (a * 256 + b)).
Proof.
  unfold rd_u16. change (rd_cursor (rdr pre (a :: b :: rest))) with (zlen pre).
  rewrite (bind_ok _ _ _ _ _ (getUint8_rdr pre [a] b rest)). cbn [app].
  rewrite <- (Z.add_0_r (zlen pre)).
  rewrite (bind_ok _ _ _ _ _ (getUint8_rdr pre [] a (b :: rest))). cbn [app].
  by rewrite (bind_ok _ _ _ _ _ (advance_rdr pre [a; b] rest)).
Qed.

Lemma rd_u32_rdr pre a b c d rest :
  rd_u32 (rdr pre (a :: b :: c :: d :: rest)) =
    (rdr (pre ++ [a; b; c; d]) rest,
     Ok (js_shru (a * 16777216 + b * 65536 + c * 256 + d) 0)).
Proof.
  unfold rd_u32. change (rd_cursor (rdr pre _)) with (zlen pre).
  rewrite (bind_ok _ _ _ _ _ (getUint8_rdr pre [a; b; c] d rest)). cbn [app].
  rewrite (bind_ok _ _ _ _ _ (getUint8_rdr pre [a; b] c (d :: rest))). cbn [app].
  rewrite (bind_ok _ _ _ _ _ (getUint8_rdr pre [a] b (c :: d :: rest))). cbn [app].
  rewrite <- (Z.add_0_r (zlen pre)).
  rewrite (bind_ok _ _ _ _ _ (getUint8_rdr pre [] a (b :: c :: d :: rest))). cbn [app].
  by rewrite (bind_ok _ _ _ _ _ (advance_rdr pre [a; b; c; d] rest)).
Qed.

Lemma rd_u16_be pre v rest :
  0 ≤ v < 2 ^ 16 → rd_u16 (rdr pre (be16 v ++ rest)) = (rdr (pre ++ be16 v) rest, Ok v).
Proof.
  intros Hv. unfold be16. cbn [app]. rewrite rd_u16_rdr. do 2 f_equal.
  Z.to_euclidean_division_equations; lia.
Qed.

Lemma rd_u32_be pre v rest :
  0 ≤ v < 2 ^ 32 → rd_u32 (rdr pre (be32 v ++ rest)) = (rdr (pre ++ be32 v) rest, Ok v).
Proof.
  intros Hv. unfold be32. cbn [app]. rewrite rd_u32_rdr. do 2 f_equal.
  rewrite js_shru_div; [|Z.to_euclidean_division_equations; lia..].
  rewrite Z.div_1_r. Z.to_euclidean_division_equations; lia.
Qed.

Lemma rd_bytes_rdr pre a rest :
  rd_bytes (zlen a) (rdr pre (a ++ rest)) = (rdr (pre ++ a) rest, Ok a).
Proof.
  unfold rd_bytes. rewrite (bind_ok _ _ _ _ _ (advance_rdr pre a rest)).
  unfold mret, M_ret, rdr. cbn [rd_buf rd_cursor]. by rewrite subarray_mid.
Qed.

Lemma rd_bytes_all pre a : rd_bytes (zlen a) (rdr pre a) = (rdr (pre ++ a) [], Ok a).
Proof. rewrite <- (app_nil_r a) at 2. apply rd_bytes_rdr. Qed.

Lemma be32_length v : zlen (be32 v) = 4.
Proof. done. Qed.

Lemma be24_val v :
  0 ≤ v < 2 ^ 24 → ∀ a b c, be24 v = [a; b; c] →
  js_or (js_or (js_shl a 16) (js_shl b 8)) c = v ∧ is_byte a ∧ is_byte b ∧ is_byte c.
Proof.
  intros Hv a b c [= <- <- <-].
  set (a := v / 65536 mod 256). set (b := v / 256 mod 256). set (c := v mod 256).
  assert (0 ≤ a < 256) by (apply Z.mod_pos_bound; lia).
  assert (0 ≤ b < 256) by (apply Z.mod_pos_bound; lia).
  assert (0 ≤ c < 256) by (apply Z.mod_pos_bound; lia).
  split; [|done]. unfold js_or, js_shl.
  rewrite !(to_int32_id a), !(to_int32_id b), !(to_int32_id c) by lia.
  change (16 mod 32) with 16. change (8 mod 32) with 8. rewrite !Z.shiftl_mul_pow2 by lia.
  rewrite !(to_int32_id (a * _)), !(to_int32_id (b * _)) by lia.
  rewrite (lor_add a (b * 2 ^ 8) 16) by lia.
  replace (a * 2 ^ 16 + b * 2 ^ 8) with ((a * 2 ^ 8 + b) * 2 ^ 8) by ring.
  rewrite to_int32_id by lia. rewrite lor_add by lia.
  unfold a, b, c. Z.to_euclidean_division_equations; lia.
Qed.
