(* ===== verification/Frames.v ===== *)
(** * Frames: [h2/frames/types.ts] and [h2/frames/codec.ts]

    The HTTP/2 frame types, their serialization, the parsing of one payload, and the
    streaming [FrameDecoder] with its buffer of unfinished input. *)
From S2P Require Import Prelude Errors Bytes.
Local Open Scope Z_scope.

Definition FRAME_HEADER_SIZE : Z := 9.
Definition DEFAULT_MAX_FRAME_SIZE : Z := 16384.

Module FrameType.
Definition DATA : Z := 0x0.
Definition HEADERS : Z := 0x1.
Definition PRIORITY : Z := 0x2.
Definition RST_STREAM : Z := 0x3.
Definition SETTINGS : Z := 0x4.
Definition PUSH_PROMISE : Z := 0x5.
Definition PING : Z := 0x6.
Definition GOAWAY : Z := 0x7.
Definition WINDOW_UPDATE : Z := 0x8.
Definition CONTINUATION : Z := 0x9.
End FrameType.

Module Flags.
Definition DATA_END_STREAM : Z := 0x1.
Definition DATA_PADDED : Z := 0x8.
Definition HEADERS_END_STREAM : Z := 0x1.
Definition HEADERS_END_HEADERS : Z := 0x4.
Definition HEADERS_PADDED : Z := 0x8.
Definition HEADERS_PRIORITY : Z := 0x20.
Definition SETTINGS_ACK : Z := 0x1.
Definition PING_ACK : Z := 0x1.
Definition PUSH_PROMISE_END_HEADERS : Z := 0x4.
Definition PUSH_PROMISE_PADDED : Z := 0x8.
Definition CONTINUATION_END_HEADERS : Z := 0x4.
End Flags.

(** An absent property of the JavaScript object is [None]. *)
Record Settings := mkSettings {
  headerTableSize : option Z;
  enablePush : option bool;
  maxConcurrentStreams : option Z;
  initialWindowSize : option Z;
  maxFrameSize : option Z;
  maxHeaderListSize : option Z;
}.
Definition no_settings : Settings := mkSettings None None None None None None.

Inductive SettingKey :=
| KHeaderTableSize | KEnablePush | KMaxConcurrentStreams | KInitialWindowSize
| KMaxFrameSize | KMaxHeaderListSize.

Definition SETTINGS_IDS : list (SettingKey * Z) :=
  [ (KHeaderTableSize, 0x1); (KEnablePush, 0x2); (KMaxConcurrentStreams, 0x3);
    (KInitialWindowSize, 0x4); (KMaxFrameSize, 0x5); (KMaxHeaderListSize, 0x6) ].

(** [s[key]] as the number that is sent: [true] is 1 and [false] is 0. *)
Definition setting_value (s : Settings) (key : SettingKey) : option Z :=
  match key with
  | KHeaderTableSize => headerTableSize s
  | KEnablePush => (λ b : bool, if b then 1 else 0) <$> enablePush s
  | KMaxConcurrentStreams => maxConcurrentStreams s
  | KInitialWindowSize => initialWindowSize s
  | KMaxFrameSize => maxFrameSize s
  | KMaxHeaderListSize => maxHeaderListSize s
  end.

Record Priority := mkPriority { streamDependency : Z; weight : Z; exclusive : bool }.

Inductive Frame :=
| DataFrame (streamId : Z) (data : bytes) (flowControlledLength : option Z) (endStream : bool)
| HeadersFrame (streamId : Z) (headerBlockFragment : bytes) (endStream endHeaders : bool)
    (priority : option Priority)
| PriorityFrame (streamId : Z) (priority : Priority)
| RstStreamFrame (streamId errorCode : Z)
| SettingsFrame (ack : bool) (settings : Settings)
| PushPromiseFrame (streamId promisedStreamId : Z) (headerBlockFragment : bytes)
    (endHeaders : bool)
| PingFrame (ack : bool) (opaqueData : bytes)
| GoawayFrame (lastStreamId errorCode : Z) (debugData : bytes)
| WindowUpdateFrame (streamId windowSizeIncrement : Z)
| ContinuationFrame (streamId : Z) (headerBlockFragment : bytes) (endHeaders : bool).

#[export] Instance Settings_eq_dec : EqDecision Settings.
Proof. solve_decision. Defined.
#[export] Instance Priority_eq_dec : EqDecision Priority.
Proof. solve_decision. Defined.
#[export] Instance Frame_eq_dec : EqDecision Frame.
Proof. solve_decision. Defined.

Record Body := mkBody { b_typeId : Z; b_flags : Z; b_streamId : Z; b_payload : bytes }.

(** ** Serialization *)

Section serialize.
Context (W : Type) `{ByteSink W}.

Definition write_priority (p : Priority) (w : W) : W :=
  let dep := js_and (streamDependency p) 0x7fffffff in
  sink_u8 (js_and (weight p - 1) 0xff)
    (sink_u32 (if exclusive p then js_or dep 0x80000000 else dep) w).

Definition write_settings (s : Settings) (w : W) : W :=
  fold_left
    (λ w '(key, id),
       match setting_value s key with
       | None => w
       | Some value => sink_u32 value (sink_u16 id w)
       end)
    SETTINGS_IDS w.

Definition encodeBody (frame : Frame) : Body :=
  match frame with
  | DataFrame streamId data _ endStream =>
      mkBody FrameType.DATA (if endStream then Flags.DATA_END_STREAM else 0) streamId data
  | HeadersFrame streamId fragment endStream endHeaders priority =>
      let flags := if endHeaders then Flags.HEADERS_END_HEADERS else 0 in
      let flags := if endStream then js_or flags Flags.HEADERS_END_STREAM else flags in
      match priority with
      | None => mkBody FrameType.HEADERS flags streamId fragment
      | Some p =>
          mkBody FrameType.HEADERS (js_or flags Flags.HEADERS_PRIORITY) streamId
            (sink_take (sink_bytes fragment
              (write_priority p (sink_new (5 + zlen fragment)))))
      end
  | PriorityFrame streamId p =>
      mkBody FrameType.PRIORITY 0 streamId (sink_take (write_priority p (sink_new 5)))
  | RstStreamFrame streamId errorCode =>
      mkBody FrameType.RST_STREAM 0 streamId (sink_take (sink_u32 errorCode (sink_new 4)))
  | SettingsFrame ack settings =>
      mkBody FrameType.SETTINGS (if ack then Flags.SETTINGS_ACK else 0) 0
        (sink_take (write_settings settings (sink_new 48)))
  | PushPromiseFrame streamId promised fragment endHeaders =>
      mkBody FrameType.PUSH_PROMISE
        (if endHeaders then Flags.PUSH_PROMISE_END_HEADERS else 0) streamId
        (sink_take (sink_bytes fragment
          (sink_u32 (js_and promised 0x7fffffff) (sink_new (4 + zlen fragment)))))
  | PingFrame ack opaque =>
      mkBody FrameType.PING (if ack then Flags.PING_ACK else 0) 0
        (if zlen opaque =? 8 then opaque else replicate 8 0)
  | GoawayFrame lastStreamId errorCode debugData =>
      mkBody FrameType.GOAWAY 0 0
        (sink_take (sink_bytes debugData (sink_u32 errorCode
          (sink_u32 (js_and lastStreamId 0x7fffffff) (sink_new (8 + zlen debugData))))))
  | WindowUpdateFrame streamId increment =>
      mkBody FrameType.WINDOW_UPDATE 0 streamId
        (sink_take (sink_u32 (js_and increment 0x7fffffff) (sink_new 4)))
  | ContinuationFrame streamId fragment endHeaders =>
      mkBody FrameType.CONTINUATION
        (if endHeaders then Flags.CONTINUATION_END_HEADERS else 0) streamId fragment
  end.

Definition serializeFrame (frame : Frame) : bytes :=
  let b := encodeBody frame in
  let header :=
    sink_u32 (js_and (b_streamId b) 0x7fffffff)
      (sink_u8 (b_flags b)
        (sink_u8 (b_typeId b)
          (sink_u24 (zlen (b_payload b)) (sink_new FRAME_HEADER_SIZE)))) in
  concatBytes [sink_take header; b_payload b].
End serialize.

(** ** Parsing of one payload *)

Definition protocol_error : exn := EH2 (h2_error PROTOCOL_ERROR).
Definition frame_size_error : exn := EH2 (h2_error FRAME_SIZE_ERROR).

Definition readPadded (length : Z) (padded : bool) : Rd bytes :=
  if negb padded then rd_bytes length
  else
    padLength ← rd_u8;
    let dataLength := length - 1 - padLength in
    if dataLength <? 0 then throw protocol_error
    else
      data ← rd_bytes dataLength;
      rd_bytes padLength;;
      mret data.

Definition has_flag (flags f : Z) : bool := negb (js_and flags f =? 0).

Definition read_priority : Rd Priority :=
  dep ← rd_u32;
  w ← rd_u8;
  mret (mkPriority (js_and dep 0x7fffffff) (w + 1) (negb (js_and dep 0x80000000 =? 0))).

Definition apply_setting (s : Settings) (id value : Z) : Settings :=
  let '(mkSettings a b c d e f) := s in
  if id =? 0x1 then mkSettings (Some value) b c d e f
  else if id =? 0x2 then mkSettings a (Some (negb (value =? 0))) c d e f
  else if id =? 0x3 then mkSettings a b (Some value) d e f
  else if id =? 0x4 then mkSettings a b c (Some value) e f
  else if id =? 0x5 then mkSettings a b c d (Some value) f
  else if id =? 0x6 then mkSettings a b c d e (Some value)
  else s.

(** [n] iterations of the loop over the entries of a SETTINGS payload. *)
Fixpoint read_settings (n : nat) (s : Settings) : Rd Settings :=
  match n with
  | O => mret s
  | S n' =>
      id ← rd_u16;
      value ← rd_u32;
      read_settings n' (apply_setting s id value)
  end.

Definition parsePayload (typeId flags streamId : Z) (payload : bytes) : Rd Frame :=
  let len := zlen payload in
  if typeId =? FrameType.DATA then
    data ← readPadded len (has_flag flags Flags.DATA_PADDED);
    mret (DataFrame streamId data (Some len) (has_flag flags Flags.DATA_END_STREAM))
  else if typeId =? FrameType.HEADERS then
    let padded := has_flag flags Flags.HEADERS_PADDED in
    let prioritized := has_flag flags Flags.HEADERS_PRIORITY in
    padLength ← (if padded then rd_u8 else mret 0);
    priority ← (if prioritized then p ← read_priority; mret (Some p) else mret None);
    let fragLength := len - (if padded then 1 else 0) - (if prioritized then 5 else 0)
                      - padLength in
    if fragLength <? 0 then throw protocol_error
    else
      fragment ← rd_bytes fragLength;
      mret (HeadersFrame streamId fragment (has_flag flags Flags.HEADERS_END_STREAM)
              (has_flag flags Flags.HEADERS_END_HEADERS) priority)
  else if typeId =? FrameType.PRIORITY then
    if negb (len =? 5) then throw (EH2 (h2_stream_error FRAME_SIZE_ERROR streamId))
    else p ← read_priority; mret (PriorityFrame streamId p)
  else if typeId =? FrameType.RST_STREAM then
    if negb (len =? 4) then throw frame_size_error
    else code ← rd_u32; mret (RstStreamFrame streamId code)
  else if typeId =? FrameType.SETTINGS then
    let ack := has_flag flags Flags.SETTINGS_ACK in
    if ack && negb (len =? 0) then throw frame_size_error
    else if negb (len mod 6 =? 0) then throw frame_size_error
    else s ← read_settings (Z.to_nat (len / 6)) no_settings; mret (SettingsFrame ack s)
  else if typeId =? FrameType.PUSH_PROMISE then
    let padded := has_flag flags Flags.PUSH_PROMISE_PADDED in
    padLength ← (if padded then rd_u8 else mret 0);
    promised ← rd_u32;
    let fragLength := len - (if padded then 1 else 0) - 4 - padLength in
    if fragLength <? 0 then throw protocol_error
    else
      fragment ← rd_bytes fragLength;
      mret (PushPromiseFrame streamId (js_and promised 0x7fffffff) fragment
              (has_flag flags Flags.PUSH_PROMISE_END_HEADERS))
  else if typeId =? FrameType.PING then
    if negb (len =? 8) then throw frame_size_error
    else opaque ← rd_bytes 8; mret (PingFrame (has_flag flags Flags.PING_ACK) opaque)
  else if typeId =? FrameType.GOAWAY then
    if len <? 8 then throw frame_size_error
    else
      last ← rd_u32;
      code ← rd_u32;
      debug ← rd_bytes (len - 8);
      mret (GoawayFrame (js_and last 0x7fffffff) code debug)
  else if typeId =? FrameType.WINDOW_UPDATE then
    if negb (len =? 4) then throw frame_size_error
    else increment ← rd_u32; mret (WindowUpdateFrame streamId (js_and increment 0x7fffffff))
  else if typeId =? FrameType.CONTINUATION then
    fragment ← rd_bytes len;
    mret (ContinuationFrame streamId fragment (has_flag flags Flags.CONTINUATION_END_HEADERS))
  else throw (EUnknownFrameType typeId).

(** ** The streaming decoder *)

Record FrameDecoder := mkFrameDecoder { fd_pending : bytes; fd_maxFrameSize : Z }.

Definition fd_new (maxFrameSize : Z) : FrameDecoder := mkFrameDecoder [] maxFrameSize.

(** [buf[i]] for an index in range. *)
Definition at_ (buf : bytes) (i : Z) : Z := default 0 (buf !! Z.to_nat i).

(** The [while] loop of [push].  Every round consumes at least a frame header, so the length
    of the buffer is fuel enough ([push_loop_spec]). *)
Fixpoint push_loop (fuel : nat) (maxFrameSize : Z) (buf : bytes) (offset : Z)
    (frames : list Frame) : result exn (list Frame * Z) :=
  match fuel with
  | O => Ok (frames, offset)
  | S fuel' =>
      if zlen buf - offset <? FRAME_HEADER_SIZE then Ok (frames, offset)
      else
        let length := js_or (js_or (js_shl (at_ buf offset) 16) (js_shl (at_ buf (offset + 1)) 8))
                            (at_ buf (offset + 2)) in
        if maxFrameSize <? length then Throw frame_size_error
        else
          let total := FRAME_HEADER_SIZE + length in
          if zlen buf - offset <? total then Ok (frames, offset)
          else
            let typeId := at_ buf (offset + 3) in
            let flags := at_ buf (offset + 4) in
            let streamId :=
              js_and (js_or (js_or (js_or (js_shl (at_ buf (offset + 5)) 24)
                                          (js_shl (at_ buf (offset + 6)) 16))
                                   (js_shl (at_ buf (offset + 7)) 8))
                            (at_ buf (offset + 8)))
                     0x7fffffff in
            let payload := subarray buf (offset + FRAME_HEADER_SIZE) (offset + total) in
            match snd (parsePayload typeId flags streamId payload (rd_new payload)) with
            | Ok f => push_loop fuel' maxFrameSize buf (offset + total) (frames ++ [f])
            | Throw (EUnknownFrameType _) =>
                push_loop fuel' maxFrameSize buf (offset + total) frames
            | Throw e => Throw e
            end
  end.

Definition fd_push (chunk : bytes) : M FrameDecoder exn (list Frame) := λ d,
  let buf := if zlen (fd_pending d) =? 0 then chunk else concatBytes [fd_pending d; chunk] in
  match push_loop (length buf) (fd_maxFrameSize d) buf 0 [] with
  | Throw e => (d, Throw e)
  | Ok (frames, offset) =>
      (mkFrameDecoder (if offset =? zlen buf then [] else subarray buf offset (zlen buf))
         (fd_maxFrameSize d), Ok frames)
  end.
