(* ===== verification/FramesCorrect.v ===== *)
(** * FramesCorrect: the frame codec round-trips, and the decoder does not depend on how the
    transport cuts the byte stream *)
From S2P Require Import Prelude Errors Bytes Frames.
Local Open Scope Z_scope.

(** ** Reference decoder: frames of a byte sequence, without offsets *)

Definition option_list {A} (o : option A) : list A := from_option (λ x, [x]) [] o.

Definition frame_length (bs : bytes) : Z :=
  js_or (js_or (js_shl (at_ bs 0) 16) (js_shl (at_ bs 1) 8)) (at_ bs 2).

Definition frame_streamId (bs : bytes) : Z :=
  js_and (js_or (js_or (js_or (js_shl (at_ bs 5) 24) (js_shl (at_ bs 6) 16))
                       (js_shl (at_ bs 7) 8)) (at_ bs 8)) 0x7fffffff.

(** [None]: more bytes are needed; otherwise the first frame (or none, if its type is
    unknown) and what follows it. *)
Definition next_frame (max : Z) (bs : bytes) : option (result exn (option Frame * bytes)) :=
  if zlen bs <? 9 then None
  else if max <? frame_length bs then Some (Throw frame_size_error)
  else if zlen bs <? 9 + frame_length bs then None
  else
    let payload := take (Z.to_nat (frame_length bs)) (drop 9 bs) in
    let rest := drop (9 + Z.to_nat (frame_length bs)) bs in
    Some (match snd (parsePayload (at_ bs 3) (at_ bs 4) (frame_streamId bs) payload
                       (rd_new payload)) with
          | Ok f => Ok (Some f, rest)
          | Throw (EUnknownFrameType _) => Ok (None, rest)
          | Throw e => Throw e
          end).

Fixpoint frames_of (fuel : nat) (max : Z) (bs : bytes) : result exn (list Frame * bytes) :=
  match fuel with
  | O => Ok ([], bs)
  | S fuel' =>
      match next_frame max bs with
      | None => Ok ([], bs)
      | Some (Throw e) => Throw e
      | Some (Ok (f, rest)) =>
          match frames_of fuel' max rest with
          | Ok (fs, r) => Ok (option_list f ++ fs, r)
          | Throw e => Throw e
          end
      end
  end.

(** ** Fields of the header *)

Lemma at_byte bs i : Forall is_byte bs → is_byte (at_ bs i).
Proof.
  intros H. unfold at_. destruct (bs !! Z.to_nat i) as [b|] eqn:E; simpl.
  - by eapply Forall_lookup_1.
  - unfold is_byte. lia.
Qed.

Lemma at_drop bs n i : 0 ≤ n → 0 ≤ i → at_ (drop (Z.to_nat n) bs) i = at_ bs (n + i).
Proof. intros. unfold at_. rewrite lookup_drop. do 2 f_equal. lia. Qed.

Lemma at_app bs k i : 0 ≤ i < zlen bs → at_ (bs ++ k) i = at_ bs i.
Proof. intros. unfold at_. rewrite lookup_app_l; [done|]. unfold zlen in *. lia. Qed.

Lemma frame_length_range bs : Forall is_byte bs → 0 ≤ frame_length bs < 2 ^ 24.
Proof.
  intros Hb. unfold frame_length.
  pose proof (at_byte bs 0 Hb) as H0. pose proof (at_byte bs 1 Hb) as H1.
  pose proof (at_byte bs 2 Hb) as H2. unfold is_byte in *.
  set (a := at_ bs 0) in *. set (b := at_ bs 1) in *. set (c := at_ bs 2) in *.
  destruct (be24_val (a * 65536 + b * 256 + c)) with (a := a) (b := b) (c := c) as [-> _].
  - lia.
  - unfold be24. repeat f_equal; Z.to_euclidean_division_equations; lia.
  - lia.
Qed.

Lemma frame_length_app bs k : 9 ≤ zlen bs → frame_length (bs ++ k) = frame_length bs.
Proof. intros. unfold frame_length. by rewrite !at_app by lia. Qed.

Lemma frame_streamId_app bs k : 9 ≤ zlen bs → frame_streamId (bs ++ k) = frame_streamId bs.
Proof. intros. unfold frame_streamId. by rewrite !at_app by lia. Qed.

(** ** The loop computes the reference decoder *)

Lemma next_frame_consumes max bs f rest :
  Forall is_byte bs → next_frame max bs = Some (Ok (f, rest)) →
  zlen rest + 9 ≤ zlen bs ∧ Forall is_byte rest.
Proof.
  intros Hb. pose proof (frame_length_range bs Hb) as Hl. unfold next_frame.
  repeat case_match; try done; intros [= <- <-]; rewrite ?Z.ltb_ge in *;
    (split; [rewrite zlen_drop; lia|by apply Forall_drop]).
Qed.

Lemma frames_of_fuel max n m bs :
  Forall is_byte bs → (length bs ≤ n)%nat → (n ≤ m)%nat →
  frames_of m max bs = frames_of n max bs.
Proof.
  revert m bs. induction n as [|n IH]; intros m bs Hb Hn Hm.
  - destruct bs; [|simpl in Hn; lia]. by destruct m.
  - destruct m as [|m]; [lia|]. cbn [frames_of].
    destruct (next_frame max bs) as [[[f rest]|e]|] eqn:E; try done.
    destruct (next_frame_consumes _ _ _ _ Hb E) as [Hr Hb'].
    rewrite (IH m rest); [done|done| |lia]. unfold zlen in Hr. lia.
Qed.

Lemma push_loop_spec fuel max buf offset frames :
  Forall is_byte buf → 0 ≤ offset ≤ zlen buf →
  push_loop fuel max buf offset frames =
    match frames_of fuel max (drop (Z.to_nat offset) buf) with
    | Ok (fs, r) => Ok (frames ++ fs, zlen buf - zlen r)
    | Throw e => Throw e
    end.
Proof.
  intros Hb. revert offset frames. induction fuel as [|n IH]; intros offset frames Ho.
  { cbn. rewrite app_nil_r, zlen_drop. do 2 f_equal. lia. }
  cbn [push_loop frames_of]. unfold next_frame. rewrite zlen_drop, Z2Nat.id by lia.
  rewrite Z.max_r by lia. change FRAME_HEADER_SIZE with 9.
  assert (frame_length (drop (Z.to_nat offset) buf) =
    js_or (js_or (js_shl (at_ buf offset) 16) (js_shl (at_ buf (offset + 1)) 8))
      (at_ buf (offset + 2))) as Hlen.
  { unfold frame_length. rewrite !at_drop by lia. by rewrite Z.add_0_r. }
  assert (0 ≤ frame_length (drop (Z.to_nat offset) buf)) as Hpos
    by (apply frame_length_range; by apply Forall_drop).
  unfold frame_streamId. rewrite !at_drop by lia. rewrite <- Hlen in *.
  set (len := frame_length _) in *.
  destruct (Z.ltb_spec (zlen buf - offset) 9).
  { rewrite app_nil_r, zlen_drop. do 2 f_equal. lia. }
  destruct (max <? len); [done|].
  destruct (Z.ltb_spec (zlen buf - offset) (9 + len)).
  { rewrite app_nil_r, zlen_drop. do 2 f_equal. lia. }
  assert (subarray buf (offset + 9) (offset + (9 + len)) =
    take (Z.to_nat len) (drop 9 (drop (Z.to_nat offset) buf))) as ->.
  { rewrite subarray_in by lia. rewrite drop_drop. do 2 f_equal; lia. }
  assert (drop (9 + Z.to_nat len) (drop (Z.to_nat offset) buf) =
    drop (Z.to_nat (offset + (9 + len))) buf) as ->.
  { rewrite drop_drop. f_equal. lia. }
  set (parsed := snd _).
  destruct parsed as [f|[]]; try done; rewrite IH by lia;
    destruct (frames_of n max _) as [[fs r]|e]; try done; cbn [option_list from_option];
    by rewrite <- ?app_assoc.
Qed.

Lemma frames_of_suffix fuel max bs fs r :
  frames_of fuel max bs = Ok (fs, r) → ∃ pre, bs = pre ++ r.
Proof.
  revert bs fs r. induction fuel as [|n IH]; intros bs fs r; cbn [frames_of].
  { intros [= _ <-]. by exists []. }
  destruct (next_frame max bs) as [[[f rest]|e]|] eqn:En; try done.
  2:{ intros [= _ <-]. by exists []. }
  destruct (frames_of n max rest) as [[fs' r']|e] eqn:Ef; [|done]. intros [= _ <-].
  destruct (IH _ _ _ Ef) as [p ->].
  assert (∃ k, p ++ r' = drop k bs) as [k Hk].
  { revert En. unfold next_frame. repeat case_match; try done; intros [= _ <-]; eauto. }
  exists (take k bs ++ p). by rewrite <- app_assoc, Hk, take_drop.
Qed.

(** [push] is: append to the pending bytes, take off the complete frames, keep the rest. *)
Lemma fd_push_spec d chunk :
  Forall is_byte (fd_pending d ++ chunk) →
  fd_push chunk d =
    match frames_of (length (fd_pending d ++ chunk)) (fd_maxFrameSize d)
            (fd_pending d ++ chunk) with
    | Ok (fs, r) => (mkFrameDecoder r (fd_maxFrameSize d), Ok fs)
    | Throw e => (d, Throw e)
    end.
Proof.
  intros Hb. unfold fd_push.
  assert ((if zlen (fd_pending d) =? 0 then chunk else concatBytes [fd_pending d; chunk])
          = fd_pending d ++ chunk) as ->.
  { destruct (Z.eqb_spec (zlen (fd_pending d)) 0) as [H|H].
    - by rewrite (zlen_0_inv _ H).
    - rewrite concatBytes_spec. csimpl. by rewrite app_nil_r. }
  set (buf := fd_pending d ++ chunk) in *.
  rewrite push_loop_spec by (done || zl). rewrite drop_0.
  destruct (frames_of (length buf) (fd_maxFrameSize d) buf) as [[fs r]|e] eqn:E; [|done].
  destruct (frames_of_suffix _ _ _ _ _ E) as [pre Hpre].
  cbn [app]. do 2 f_equal. destruct (Z.eqb_spec (zlen buf - zlen r) (zlen buf)) as [H|H].
  - symmetry. apply zlen_0_inv. lia.
  - rewrite Hpre, zlen_app. replace (zlen pre + zlen r - zlen r) with (zlen pre) by lia.
    rewrite <- (app_nil_r r) at 1. apply subarray_mid.
Qed.

(** ** Chunking *)

Lemma next_frame_app max bs k r :
  Forall is_byte bs → next_frame max bs = Some r →
  next_frame max (bs ++ k) =
    Some (match r with Ok (f, rest) => Ok (f, rest ++ k) | Throw e => Throw e end).
Proof.
  intros Hb. pose proof (frame_length_range bs Hb) as Hl. unfold next_frame.
  destruct (Z.ltb_spec (zlen bs) 9); [done|].
  rewrite frame_length_app, frame_streamId_app, !at_app by lia.
  rewrite zlen_app, (proj2 (Z.ltb_ge _ 9)) by zl.
  destruct (max <? frame_length bs); [by intros [= <-]|].
  destruct (Z.ltb_spec (zlen bs) (9 + frame_length bs)); [done|].
  rewrite (proj2 (Z.ltb_ge _ _)) by zl. intros [= <-].
  rewrite drop_app_le by (unfold zlen in *; lia).
  rewrite take_app_le by (rewrite length_drop; unfold zlen in *; lia).
  rewrite drop_app_le by (unfold zlen in *; lia).
  destruct (snd _) as [f|[]]; done.
Qed.

Lemma frames_of_bytes fuel max bs fs r :
  Forall is_byte bs → frames_of fuel max bs = Ok (fs, r) → Forall is_byte r.
Proof.
  intros Hb H. destruct (frames_of_suffix _ _ _ _ _ H) as [pre ->].
  by apply Forall_app in Hb as [_ ?].
Qed.

(** Decoding a longer input continues where the shorter one stopped. *)
Lemma frames_of_app n max bs k :
  Forall is_byte bs → Forall is_byte k → (length bs ≤ n)%nat →
  frames_of (n + length k) max (bs ++ k) =
    match frames_of n max bs with
    | Throw e => Throw e
    | Ok (fs, r) =>
        match frames_of (length (r ++ k)) max (r ++ k) with
        | Ok (gs, r') => Ok (fs ++ gs, r')
        | Throw e => Throw e
        end
    end.
Proof.
  revert bs. induction n as [|n IH]; intros bs Hb Hk Hn.
  { destruct bs; [|simpl in Hn; lia]. cbn [frames_of app Nat.add].
    by destruct (frames_of (length k) max k) as [[]|]. }
  cbn [frames_of Nat.add]. destruct (next_frame max bs) as [[[f rest]|e]|] eqn:E.
  - rewrite (next_frame_app _ _ k _ Hb E).
    destruct (next_frame_consumes _ _ _ _ Hb E) as [Hr Hb'].
    rewrite IH; [|done|done|unfold zlen in Hr; lia].
    destruct (frames_of n max rest) as [[fs r]|e]; [|done].
    destruct (frames_of _ max (r ++ k)) as [[gs r']|e]; [|done]. by rewrite <- app_assoc.
  - by rewrite (next_frame_app _ _ k _ Hb E).
  - change (match next_frame max (bs ++ k) with
            | Some (Ok (f, rest)) =>
                match frames_of (n + length k) max rest with
                | Ok (fs, r) => Ok (option_list f ++ fs, r)
                | Throw e => Throw e
                end
            | Some (Throw e) => Throw e
            | None => Ok ([], bs ++ k)
            end) with (frames_of (S n + length k) max (bs ++ k)).
    rewrite (frames_of_fuel max (length (bs ++ k)) (S n + length k)); cbn [app].
    + by destruct (frames_of _ max (bs ++ k)) as [[gs r']|e].
    + by apply Forall_app.
    + done.
    + rewrite length_app. lia.
Qed.

(** C27: Feeding the decoder two chunks is feeding it their concatenation: the frames are the
    same and in the same order, the buffered rest is the same, and an error is the same error
    (with one chunk the frames before it are lost, as [push] throws without returning them).
    So the segmentation of the WebSocket messages cannot change what is decoded. *)
Theorem fd_push_chunks d c1 c2 :
  Forall is_byte (fd_pending d) → Forall is_byte c1 → Forall is_byte c2 →
  fd_push (c1 ++ c2) d =
    match fd_push c1 d with
    | (_, Throw e) => (d, Throw e)
    | (d1, Ok fs) =>
        match fd_push c2 d1 with
        | (d2, Ok gs) => (d2, Ok (fs ++ gs))
        | (_, Throw e) => (d, Throw e)
        end
    end.
Proof.
  intros Hp H1 H2. assert (Forall is_byte (fd_pending d ++ c1)) as Hb by by apply Forall_app.
  rewrite !(fd_push_spec d) by (rewrite ?app_assoc; by apply Forall_app).
  rewrite (app_assoc (fd_pending d)), (length_app _ c2), frames_of_app by done.
  destruct (frames_of _ _ (fd_pending d ++ c1)) as [[fs r]|e] eqn:E; [|done].
  pose proof (frames_of_bytes _ _ _ _ _ Hb E) as Hr.
  rewrite fd_push_spec by (by apply Forall_app). cbn [fd_pending fd_maxFrameSize].
  by destruct (frames_of _ _ (r ++ c2)) as [[gs r']|e].
Qed.

Lemma fd_push_chunks_witness :
  Forall is_byte [0; 0; 4; 8] ∧ Forall is_byte [0; 0; 0; 0; 0; 0; 0; 0; 5] ∧
  snd (fd_push ([0; 0; 4; 8] ++ [0; 0; 0; 0; 0; 0; 0; 0; 5]) (fd_new 16384)) =
    Ok [WindowUpdateFrame 0 5].
Proof.
  assert (Forall is_byte [0; 0; 4; 8]) as H1 by (repeat constructor; unfold is_byte; lia).
  assert (Forall is_byte [0; 0; 0; 0; 0; 0; 0; 0; 5]) as H2
    by (repeat constructor; unfold is_byte; lia).
  split; [exact H1|]. split; [exact H2|].
  rewrite (fd_push_chunks (fd_new 16384) _ _ (Forall_nil_2 _) H1 H2). vm_compute. reflexivity.
Defined.

(** ** Bounded buffering *)

Lemma next_frame_none max bs :
  Forall is_byte bs → 0 ≤ max → next_frame max bs = None → zlen bs < 9 + max.
Proof.
  intros Hb Hm. pose proof (frame_length_range bs Hb). unfold next_frame.
  repeat case_match; try done; rewrite ?Z.ltb_lt, ?Z.ltb_ge in *; lia.
Qed.

Lemma frames_of_rest n max bs fs r :
  Forall is_byte bs → 0 ≤ max → (length bs ≤ n)%nat →
  frames_of n max bs = Ok (fs, r) → zlen r < 9 + max.
Proof.
  revert bs fs. induction n as [|n IH]; intros bs fs Hb Hm Hn; cbn [frames_of].
  { destruct bs; [|simpl in Hn; lia]. intros [= _ <-]. rewrite zlen_nil. lia. }
  destruct (next_frame max bs) as [[[f rest]|e]|] eqn:E; [|done|].
  - destruct (next_frame_consumes _ _ _ _ Hb E) as [Hr Hb'].
    destruct (frames_of n max rest) as [[fs' r']|e] eqn:Ef; [|done]. intros [= _ <-].
    eapply IH; [done|done| |done]. unfold zlen in Hr. lia.
  - intros [= _ <-]. by apply next_frame_none.
Qed.

(** Whatever the peer sends, the decoder never holds back more than one incomplete frame:
    fewer than [9 + maxFrameSize] bytes. *)
Theorem fd_pending_bounded d chunk d' fs :
  Forall is_byte (fd_pending d) → Forall is_byte chunk → 0 ≤ fd_maxFrameSize d →
  fd_push chunk d = (d', Ok fs) →
  zlen (fd_pending d') < FRAME_HEADER_SIZE + fd_maxFrameSize d ∧
  fd_maxFrameSize d' = fd_maxFrameSize d.
Proof.
  intros Hp Hc Hm. assert (Forall is_byte (fd_pending d ++ chunk)) as Hb by by apply Forall_app.
  rewrite fd_push_spec by done.
  destruct (frames_of _ _ _) as [[fs' r]|e] eqn:E; [|done]. intros [= <- <-]. split; [|done].
  by eapply frames_of_rest.
Qed.

Lemma fd_pending_bounded_witness :
  ∃ d', fd_push [0; 0; 4; 8; 0; 0; 0; 0; 0; 1] (fd_new 16384) = (d', Ok []) ∧
        zlen (fd_pending d') < 9 + 16384.
Proof.
  eexists. split; [vm_compute; reflexivity|].
  apply (fd_pending_bounded (fd_new 16384) [0; 0; 4; 8; 0; 0; 0; 0; 0; 1] _ []).
  - constructor.
  - repeat constructor; unfold is_byte; lia.
  - vm_compute; discriminate.
  - vm_compute; reflexivity.
Defined.

(** ** Round trip *)

Definition setting_ok (v : option Z) : Prop := from_option (λ v, 0 ≤ v < 2 ^ 32) True v.

Definition priority_ok (p : Priority) : Prop :=
  0 ≤ streamDependency p < 2 ^ 31 ∧ 1 ≤ weight p ≤ 256.

(** Frames whose fields are in the ranges the wire format has room for. *)
Definition frame_ok (f : Frame) : Prop :=
  match f with
  | DataFrame id _ _ _ => 0 ≤ id < 2 ^ 31
  | HeadersFrame id _ _ _ p => 0 ≤ id < 2 ^ 31 ∧ from_option priority_ok True p
  | PriorityFrame id p => 0 ≤ id < 2 ^ 31 ∧ priority_ok p
  | RstStreamFrame id code => 0 ≤ id < 2 ^ 31 ∧ 0 ≤ code < 2 ^ 32
  | SettingsFrame ack s =>
      (ack = true → s = no_settings) ∧
      setting_ok (headerTableSize s) ∧ setting_ok (maxConcurrentStreams s) ∧
      setting_ok (initialWindowSize s) ∧ setting_ok (maxFrameSize s) ∧
      setting_ok (maxHeaderListSize s)
  | PushPromiseFrame id promised _ _ => 0 ≤ id < 2 ^ 31 ∧ 0 ≤ promised < 2 ^ 31
  | PingFrame _ opaque => zlen opaque = 8
  | GoawayFrame last code _ => 0 ≤ last < 2 ^ 31 ∧ 0 ≤ code < 2 ^ 32
  | WindowUpdateFrame id inc => 0 ≤ id < 2 ^ 31 ∧ 0 ≤ inc < 2 ^ 31
  | ContinuationFrame id _ _ => 0 ≤ id < 2 ^ 31
  end.

(** What the decoder adds: the flow-controlled length of a DATA payload. *)
Definition received (f : Frame) : Frame :=
  match f with
  | DataFrame id data _ es => DataFrame id data (Some (zlen data)) es
  | _ => f
  end.

Lemma be32_mod x y : x mod 2 ^ 32 = y mod 2 ^ 32 → be32 x = be32 y.
Proof.
  intros H. rewrite <- (be32_wrap x), <- (be32_wrap y). unfold js_shru, to_uint32.
  by rewrite H.
Qed.

Lemma land_high x : Z.land x (- 2 ^ 31) = x / 2 ^ 31 * 2 ^ 31.
Proof.
  replace (- 2 ^ 31) with (Z.lnot (Z.ones 31)) by done.
  rewrite <- Z.ldiff_land, Z.ldiff_ones_r by lia.
  by rewrite Z.shiftl_mul_pow2, Z.shiftr_div_pow2 by lia.
Qed.

Lemma js_and_top_bit x : 0 ≤ x < 2 ^ 32 → (js_and x 0x80000000 =? 0) = (x <? 2 ^ 31).
Proof.
  intros Hx. unfold js_and. change (to_int32 0x80000000) with (- 2 ^ 31). rewrite land_high.
  unfold to_int32. destruct (Z.ltb_spec x (2 ^ 31)).
  - rewrite Z.mod_small by lia. replace (x + 2 ^ 31 - 2 ^ 31) with x by lia.
    by rewrite Z.div_small by lia.
  - replace (x + 2 ^ 31) with (x - 2 ^ 31 + 1 * 2 ^ 32) by lia.
    rewrite Z_mod_plus_full, Z.mod_small by lia.
    apply Z.eqb_neq. Z.to_euclidean_division_equations. lia.
Qed.

(** The dependency word on the wire: the exclusive flag is the top bit. *)
Lemma priority_word p :
  priority_ok p →
  be32 (if exclusive p then js_or (js_and (streamDependency p) 0x7fffffff) 0x80000000
        else js_and (streamDependency p) 0x7fffffff)
  = be32 (streamDependency p + (if exclusive p then 2 ^ 31 else 0)).
Proof.
  intros [Hd _]. rewrite js_and_31bits, Z.mod_small by lia.
  destruct (exclusive p); [|by rewrite Z.add_0_r]. apply be32_mod. unfold js_or.
  change (to_int32 0x80000000) with (-1 * 2 ^ 31). rewrite to_int32_id by lia.
  rewrite Z.lor_comm, lor_add by lia.
  replace (streamDependency p + 2 ^ 31) with (-1 * 2 ^ 31 + streamDependency p + 1 * 2 ^ 32)
    by lia.
  by rewrite Z_mod_plus_full.
Qed.

Lemma read_priority_rdr pre p rest :
  priority_ok p →
  read_priority (rdr pre ((be32 (streamDependency p + (if exclusive p then 2 ^ 31 else 0))
                           ++ [weight p - 1]) ++ rest)) =
    (rdr (pre ++ be32 (streamDependency p + (if exclusive p then 2 ^ 31 else 0))
              ++ [weight p - 1]) rest, Ok p).
Proof.
  intros [Hd Hw]. set (x := streamDependency p + _).
  assert (0 ≤ x < 2 ^ 32) as Hx by (subst x; destruct (exclusive p); lia).
  unfold read_priority. rewrite <- app_assoc.
  rewrite (bind_ok _ _ _ _ _ (rd_u32_be pre x _ Hx)). cbn [app].
  rewrite (bind_ok _ _ _ _ _ (rd_u8_rdr _ _ _)). unfold mret, M_ret.
  rewrite <- app_assoc, js_and_31bits, js_and_top_bit by done. do 2 f_equal.
  assert (x mod 2 ^ 31 = streamDependency p) as ->.
  { subst x. destruct (exclusive p).
    - rewrite <- (Z.mul_1_l (2 ^ 31)) at 1. by rewrite Z_mod_plus_full, Z.mod_small by lia.
    - rewrite Z.mod_small; lia. }
  assert (negb (x <? 2 ^ 31) = exclusive p) as ->.
  { subst x. destruct (exclusive p).
    - rewrite (proj2 (Z.ltb_ge _ _)); [done|lia].
    - rewrite (proj2 (Z.ltb_lt _ _)); [done|lia]. }
  destruct p as [sd w e]. cbn [weight streamDependency exclusive]. f_equal. lia.
Qed.

(** The (identifier, value) pairs of the settings that are present, in wire order. *)
Definition setting_entries (s : Settings) : list (Z * Z) :=
  omap (λ '(key, id), (λ v, (id, v)) <$> setting_value s key) SETTINGS_IDS.

Definition entry_bytes (e : Z * Z) : bytes := be16 (fst e) ++ be32 (snd e).

Definition entry_ok (e : Z * Z) : Prop := 0 ≤ fst e < 2 ^ 16 ∧ 0 ≤ snd e < 2 ^ 32.

Lemma entries_length es : zlen (mjoin (map entry_bytes es) : bytes) = 6 * zlen es.
Proof. induction es as [|e es IH]; csimpl; [done|]. autorewrite with zlen. rewrite IH. cbn. lia. Qed.

Lemma read_settings_rdr es pre acc :
  Forall entry_ok es →
  read_settings (length es) acc (rdr pre (mjoin (map entry_bytes es))) =
    (rdr (pre ++ mjoin (map entry_bytes es)) [],
     Ok (fold_left (λ s '(id, v), apply_setting s id v) es acc)).
Proof.
  revert pre acc. induction es as [|[id v] es IH]; intros pre acc Hes.
  { cbn. by rewrite app_nil_r. }
  inversion_clear Hes as [|? ? [Hid Hv] Hes']. cbn [fst snd] in *.
  change (mjoin (map entry_bytes ((id, v) :: es)))
    with ((be16 id ++ be32 v) ++ mjoin (map entry_bytes es)).
  cbn [length read_settings fold_left]. rewrite <- app_assoc.
  rewrite (bind_ok _ _ _ _ _ (rd_u16_be pre id _ Hid)).
  rewrite (bind_ok _ _ _ _ _ (rd_u32_be _ v _ Hv)).
  rewrite IH by done. by rewrite <- !app_assoc.
Qed.

Lemma apply_entries s :
  fold_left (λ s '(id, v), apply_setting s id v) (setting_entries s) no_settings = s.
Proof. by destruct s as [[] [[]|] [] [] [] []]. Qed.

Lemma setting_entries_ok s : frame_ok (SettingsFrame false s) → Forall entry_ok (setting_entries s).
Proof.
  intros (_ & H1 & H2 & H3 & H4 & H5). destruct s as [a b c d e f]. cbn in *.
  destruct a, b as [[]|], c, d, e, f; cbn in *; repeat constructor; cbn; lia.
Qed.

(** Reduce the type tests of [parsePayload] and the flags of an encoded frame. *)
Ltac dispatch_type :=
  unfold parsePayload;
  cbn [Z.eqb Pos.eqb FrameType.DATA FrameType.HEADERS FrameType.PRIORITY FrameType.RST_STREAM
    FrameType.SETTINGS FrameType.PUSH_PROMISE FrameType.PING FrameType.GOAWAY
    FrameType.WINDOW_UPDATE FrameType.CONTINUATION].
Ltac flag_is f b :=
  replace (has_flag _ f) with b
    by (repeat match goal with x : bool |- _ => destruct x end; reflexivity).
Ltac sink_solve := repeat first [apply sink_bytes_ok | apply sink_u32_ok | apply sink_new_ok]; zl.

Section roundtrip.
Context {W : Type} {HS : ByteSink W} {HL : ByteSinkLaws W}.

Lemma write_priority_take p (w : W) :
  priority_ok p → sink_ok w →
  sink_ok (write_priority W p w) ∧
  sink_take (write_priority W p w) =
    sink_take w ++ be32 (streamDependency p + (if exclusive p then 2 ^ 31 else 0))
    ++ [weight p - 1].
Proof.
  intros Hp Hw. unfold write_priority. split; [auto with sink|].
  rewrite sink_u8_take, sink_u32_take, priority_word by auto with sink.
  rewrite <- app_assoc. do 2 f_equal.
  destruct Hp as [_ Hwt]. rewrite js_and_255, !Z.mod_small; [done|lia|].
  rewrite Z.mod_small; lia.
Qed.

Lemma write_settings_take s (w : W) :
  sink_ok w →
  sink_take (write_settings W s w) =
    sink_take w ++ mjoin (map entry_bytes (setting_entries s)).
Proof.
  unfold write_settings, setting_entries. generalize SETTINGS_IDS as ids. intros ids.
  revert w. induction ids as [|[key id] ids IH]; intros w Hw; csimpl.
  { by rewrite app_nil_r. }
  destruct (setting_value s key) as [v|]; csimpl; [|by apply IH].
  rewrite IH by auto with sink. unfold entry_bytes. cbn [fst snd].
  rewrite sink_u32_take, sink_u16_take by auto with sink. by rewrite <- !app_assoc.
Qed.

(** The payload of [f] under [W] parses to [g]. *)
Definition parses_to (f g : Frame) : Prop :=
  let b := encodeBody W f in
  snd (parsePayload (b_typeId b) (b_flags b) (b_streamId b) (b_payload b) (rd_new (b_payload b)))
    = Ok g.

Ltac start_parse :=
  unfold parses_to; rewrite rd_new_rdr;
  cbn [encodeBody b_typeId b_flags b_streamId b_payload].

Lemma parse_data id data fc es :
  parses_to (DataFrame id data fc es) (DataFrame id data (Some (zlen data)) es).
Proof.
  start_parse. dispatch_type. flag_is Flags.DATA_PADDED false. cbn [readPadded negb].
  rewrite (bind_ok _ _ _ _ _ (rd_bytes_all [] data)).
  by flag_is Flags.DATA_END_STREAM es.
Qed.

Lemma parse_headers_plain id fr es eh :
  parses_to (HeadersFrame id fr es eh None) (HeadersFrame id fr es eh None).
Proof.
  start_parse. dispatch_type.
  flag_is Flags.HEADERS_PADDED false. flag_is Flags.HEADERS_PRIORITY false.
  flag_is Flags.HEADERS_END_STREAM es. flag_is Flags.HEADERS_END_HEADERS eh.
  rewrite !bind_ret.
  replace (zlen fr - 0 - 0 - 0) with (zlen fr) by lia.
  rewrite (proj2 (Z.ltb_ge _ _)) by zl.
  by rewrite (bind_ok _ _ _ _ _ (rd_bytes_all _ fr)).
Qed.

Lemma parse_headers_priority id fr es eh p :
  priority_ok p →
  parses_to (HeadersFrame id fr es eh (Some p)) (HeadersFrame id fr es eh (Some p)).
Proof.
  intros Hp. start_parse.
  destruct (write_priority_take p (sink_new (5 + zlen fr)) Hp) as [Hwok Hwt]; [sink_solve|].
  rewrite sink_bytes_take, Hwt, sink_new_take by (done || zl). cbn [app].
  set (q := be32 _ ++ _). assert (zlen q = 5) as Hq by done.
  dispatch_type. flag_is Flags.HEADERS_PADDED false. flag_is Flags.HEADERS_PRIORITY true.
  flag_is Flags.HEADERS_END_STREAM es. flag_is Flags.HEADERS_END_HEADERS eh.
  rewrite bind_ret.
  rewrite (bind_ok _ _ _ _ (Some p) (bind_ok _ read_priority _ _ _ (read_priority_rdr [] p fr Hp))).
  rewrite zlen_app, Hq. replace (5 + zlen fr - 0 - 5 - 0) with (zlen fr) by lia.
  rewrite (proj2 (Z.ltb_ge _ _)) by zl.
  by rewrite (bind_ok _ _ _ _ _ (rd_bytes_all _ fr)).
Qed.

Lemma parse_priority id p : priority_ok p → parses_to (PriorityFrame id p) (PriorityFrame id p).
Proof.
  intros Hp. start_parse.
  destruct (write_priority_take p (sink_new 5) Hp) as [Hwok Hwt]; [sink_solve|].
  rewrite Hwt, sink_new_take by lia. cbn [app].
  pose proof (read_priority_rdr [] p [] Hp) as Hr. rewrite app_nil_r in Hr.
  set (q := be32 _ ++ _) in *. assert (zlen q = 5) as Hq by done.
  dispatch_type. rewrite Hq. cbn [Z.eqb Pos.eqb negb].
  by rewrite (bind_ok _ _ _ _ _ Hr).
Qed.

Lemma parse_rst id code :
  0 ≤ code < 2 ^ 32 → parses_to (RstStreamFrame id code) (RstStreamFrame id code).
Proof.
  intros Hc. start_parse. rewrite sink_u32_take, sink_new_take by sink_solve. cbn [app].
  pose proof (rd_u32_be [] code [] Hc) as Hr. rewrite app_nil_r in Hr.
  dispatch_type. rewrite be32_length. cbn [Z.eqb Pos.eqb negb].
  by rewrite (bind_ok _ _ _ _ _ Hr).
Qed.

Lemma parse_settings ack s :
  frame_ok (SettingsFrame ack s) → parses_to (SettingsFrame ack s) (SettingsFrame ack s).
Proof.
  intros Hok. start_parse.
  rewrite write_settings_take by sink_solve. rewrite sink_new_take by lia.
  cbn [app]. set (es := setting_entries s).
  assert (Forall entry_ok es) as Hes.
  { apply setting_entries_ok. destruct Hok as [_ H]. by split. }
  dispatch_type. flag_is Flags.SETTINGS_ACK ack. rewrite entries_length.
  assert (ack && negb (6 * zlen es =? 0) = false) as ->.
  { destruct ack; [|done]. destruct Hok as [Hack _]. subst es. by rewrite Hack. }
  rewrite (Z.mul_comm 6), Z_mod_mult, Z.div_mul, zlen_to_nat by lia.
  cbn [Z.eqb negb].
  rewrite (bind_ok _ _ _ _ _ (read_settings_rdr es [] no_settings Hes)).
  unfold es. by rewrite apply_entries.
Qed.

Lemma parse_push_promise id pr fr eh :
  0 ≤ pr < 2 ^ 31 → parses_to (PushPromiseFrame id pr fr eh) (PushPromiseFrame id pr fr eh).
Proof.
  intros Hp. start_parse.
  rewrite sink_bytes_take, sink_u32_take, sink_new_take by sink_solve.
  rewrite js_and_31bits, Z.mod_small by lia. cbn [app]. dispatch_type.
  flag_is Flags.PUSH_PROMISE_PADDED false. flag_is Flags.PUSH_PROMISE_END_HEADERS eh.
  rewrite bind_ret.
  assert (0 ≤ pr < 2 ^ 32) as Hp' by lia.
  rewrite (bind_ok _ _ _ _ _ (rd_u32_be [] pr fr Hp')).
  rewrite zlen_app, be32_length. replace (4 + zlen fr - 0 - 4 - 0) with (zlen fr) by lia.
  rewrite (proj2 (Z.ltb_ge _ _)) by zl.
  rewrite (bind_ok _ _ _ _ _ (rd_bytes_all _ fr)).
  by rewrite js_and_31bits, Z.mod_small by lia.
Qed.

Lemma parse_ping ack op : zlen op = 8 → parses_to (PingFrame ack op) (PingFrame ack op).
Proof.
  intros Hop. start_parse. rewrite Hop. cbn [Z.eqb Pos.eqb]. dispatch_type.
  rewrite Hop. cbn [Z.eqb Pos.eqb negb]. flag_is Flags.PING_ACK ack.
  pose proof (rd_bytes_all [] op) as Hr. rewrite Hop in Hr.
  by rewrite (bind_ok _ _ _ _ _ Hr).
Qed.

Lemma parse_goaway last code dbg :
  0 ≤ last < 2 ^ 31 → 0 ≤ code < 2 ^ 32 →
  parses_to (GoawayFrame last code dbg) (GoawayFrame last code dbg).
Proof.
  intros Hl Hc. start_parse.
  rewrite sink_bytes_take, !sink_u32_take, sink_new_take by sink_solve.
  rewrite js_and_31bits, Z.mod_small by lia. cbn [app]. dispatch_type.
  rewrite !zlen_app, !be32_length. rewrite (proj2 (Z.ltb_ge _ _)) by zl. rewrite <- app_assoc.
  assert (0 ≤ last < 2 ^ 32) as Hl' by lia.
  rewrite (bind_ok _ _ _ _ _ (rd_u32_be [] last _ Hl')).
  rewrite (bind_ok _ _ _ _ _ (rd_u32_be _ code _ Hc)).
  replace (4 + 4 + zlen dbg - 8) with (zlen dbg) by lia.
  rewrite (bind_ok _ _ _ _ _ (rd_bytes_all _ dbg)).
  by rewrite js_and_31bits, Z.mod_small by lia.
Qed.

Lemma parse_window_update id inc :
  0 ≤ inc < 2 ^ 31 → parses_to (WindowUpdateFrame id inc) (WindowUpdateFrame id inc).
Proof.
  intros Hi. start_parse. rewrite sink_u32_take, sink_new_take by sink_solve.
  rewrite js_and_31bits, Z.mod_small by lia. cbn [app]. dispatch_type.
  assert (0 ≤ inc < 2 ^ 32) as Hi' by lia.
  pose proof (rd_u32_be [] inc [] Hi') as Hr. rewrite app_nil_r in Hr.
  rewrite be32_length. cbn [Z.eqb Pos.eqb negb].
  rewrite (bind_ok _ _ _ _ _ Hr). by rewrite js_and_31bits, Z.mod_small by lia.
Qed.

Lemma parse_continuation id fr eh :
  parses_to (ContinuationFrame id fr eh) (ContinuationFrame id fr eh).
Proof.
  start_parse. dispatch_type. rewrite (bind_ok _ _ _ _ _ (rd_bytes_all [] fr)).
  by flag_is Flags.CONTINUATION_END_HEADERS eh.
Qed.

(** The payload of a well-formed frame parses back to the frame. *)
Lemma parsePayload_encodeBody f : frame_ok f → parses_to f (received f).
Proof.
  destruct f as [| ? ? ? ? [] | | | | | | | |]; cbn [frame_ok received from_option]; intros H;
    destruct_and?; auto using parse_data, parse_headers_plain, parse_headers_priority,
      parse_priority, parse_rst, parse_push_promise, parse_ping, parse_goaway,
      parse_window_update, parse_continuation.
  by apply parse_settings.
Qed.

Lemma serializeFrame_bytes f :
  let b := encodeBody W f in
  serializeFrame W f =
    be24 (zlen (b_payload b)) ++ [b_typeId b mod 256; b_flags b mod 256]
    ++ be32 (b_streamId b mod 2 ^ 31) ++ b_payload b.
Proof.
  cbn zeta. unfold serializeFrame. rewrite concatBytes_spec. cbn [mjoin list_join].
  rewrite app_nil_r, sink_u32_take, !sink_u8_take, sink_u24_take, sink_new_take
    by (repeat first [apply sink_u8_ok | apply sink_u24_ok | apply sink_new_ok]; done).
  rewrite js_and_31bits. by rewrite <- !app_assoc.
Qed.

Lemma streamId_val v :
  0 ≤ v < 2 ^ 31 →
  js_and (js_or (js_or (js_or (js_shl (v / 16777216 mod 256) 24)
                              (js_shl (v / 65536 mod 256) 16))
                       (js_shl (v / 256 mod 256) 8)) (v mod 256)) 0x7fffffff = v.
Proof.
  intros Hv. rewrite js_and_31bits.
  set (a := v / 16777216 mod 256). set (b := v / 65536 mod 256).
  set (c := v / 256 mod 256). set (d := v mod 256).
  assert (0 ≤ a < 128) by (subst a; Z.to_euclidean_division_equations; lia).
  assert (0 ≤ b < 256) by (apply Z.mod_pos_bound; lia).
  assert (0 ≤ c < 256) by (apply Z.mod_pos_bound; lia).
  assert (0 ≤ d < 256) by (apply Z.mod_pos_bound; lia).
  assert (a * 16777216 + b * 65536 + c * 256 + d = v) as Heq
    by (subst a b c d; Z.to_euclidean_division_equations; lia).
  clearbody a b c d. unfold js_or, js_shl.
  change (24 mod 32) with 24. change (16 mod 32) with 16. change (8 mod 32) with 8.
  rewrite !(to_int32_id a), !(to_int32_id b), !(to_int32_id c), !(to_int32_id d) by lia.
  rewrite !Z.shiftl_mul_pow2 by lia.
  rewrite !(to_int32_id (a * _)), !(to_int32_id (b * _)), !(to_int32_id (c * _)) by lia.
  rewrite (lor_add a (b * 2 ^ 16) 24) by lia.
  replace (a * 2 ^ 24 + b * 2 ^ 16) with ((a * 2 ^ 8 + b) * 2 ^ 16) by ring.
  rewrite (to_int32_id ((a * 2 ^ 8 + b) * 2 ^ 16)) by lia.
  rewrite (lor_add _ (c * 2 ^ 8) 16) by lia.
  replace ((a * 2 ^ 8 + b) * 2 ^ 16 + c * 2 ^ 8) with (((a * 2 ^ 8 + b) * 2 ^ 8 + c) * 2 ^ 8)
    by ring.
  rewrite (to_int32_id (_ * 2 ^ 8)) by lia. rewrite lor_add by lia. rewrite Z.mod_small; lia.
Qed.

Lemma encodeBody_fields f :
  frame_ok f →
  let b := encodeBody W f in
  0 ≤ b_typeId b < 256 ∧ 0 ≤ b_flags b < 256 ∧ 0 ≤ b_streamId b < 2 ^ 31.
Proof.
  destruct f as [? ? ? []|? ? [] [] []|? ?|? ?|[] ?|? ? ? []|[] ?|? ? ?|? ?|? ? []];
    cbn [encodeBody frame_ok b_typeId b_flags b_streamId]; intros H; destruct_and?;
    repeat split; try lia; try done.
Qed.

Lemma header_length a b c l :
  frame_length (a :: b :: c :: l) = js_or (js_or (js_shl a 16) (js_shl b 8)) c.
Proof. done. Qed.
Lemma header_type a b c d l : at_ (a :: b :: c :: d :: l) 3 = d.
Proof. done. Qed.
Lemma header_flags a b c d e l : at_ (a :: b :: c :: d :: e :: l) 4 = e.
Proof. done. Qed.
Lemma header_streamId a b c d e f g h i l :
  frame_streamId (a :: b :: c :: d :: e :: f :: g :: h :: i :: l) =
    js_and (js_or (js_or (js_or (js_shl f 24) (js_shl g 16)) (js_shl h 8)) i) 0x7fffffff.
Proof. done. Qed.

(** The decoder takes a serialized frame off the front of its input. *)
Lemma next_frame_serialized max f rest :
  frame_ok f → zlen (b_payload (encodeBody W f)) ≤ max →
  zlen (b_payload (encodeBody W f)) < 2 ^ 24 →
  next_frame max (serializeFrame W f ++ rest) = Some (Ok (Some (received f), rest)).
Proof.
  intros Hok Hmax H24. pose proof (parsePayload_encodeBody f Hok) as Hparse.
  pose proof (encodeBody_fields f Hok) as (Ht & Hf & Hs).
  unfold parses_to in Hparse. rewrite serializeFrame_bytes.
  cbn zeta in *. destruct (encodeBody W f) as [ty fl id payload].
  cbn [b_typeId b_flags b_streamId b_payload] in *.
  rewrite (Z.mod_small ty), (Z.mod_small fl), (Z.mod_small id) by lia. rewrite <- !app_assoc.
  destruct (be24_val (zlen payload) ltac:(zl) _ _ _ eq_refl) as [Hlen _].
  unfold next_frame, be24, be32. cbn [app].
  set (hd := _ :: _) at 1.
  assert (zlen hd = 9 + (zlen payload + zlen rest)) as Hz by (subst hd; zl).
  rewrite Hz. subst hd. rewrite (proj2 (Z.ltb_ge _ 9)) by zl.
  rewrite header_length, header_streamId, header_type, header_flags, Hlen, streamId_val by lia.
  rewrite (proj2 (Z.ltb_ge max _)) by lia.
  rewrite Hz, (proj2 (Z.ltb_ge _ (9 + zlen payload))) by zl.
  cbn [skipn Nat.add]. rewrite drop_0, take_zlen_app, drop_zlen_app. by rewrite Hparse.
Qed.
(** The opaque bytes a frame carries. *)
Definition frame_data (f : Frame) : bytes :=
  match f with
  | DataFrame _ d _ _ | HeadersFrame _ d _ _ _ | PushPromiseFrame _ _ d _ | PingFrame _ d
  | GoawayFrame _ _ d | ContinuationFrame _ d _ => d
  | _ => []
  end.

(** Frames that fit the wire format and a peer's SETTINGS_MAX_FRAME_SIZE. *)
Definition sendable (max : Z) (f : Frame) : Prop :=
  frame_ok f ∧ Forall is_byte (frame_data f) ∧
  zlen (b_payload (encodeBody W f)) ≤ max ∧ zlen (b_payload (encodeBody W f)) < 2 ^ 24.

Lemma mod_byte x : is_byte (x mod 256).
Proof. apply Z.mod_pos_bound. lia. Qed.

Lemma be_bytes v : Forall is_byte (be16 v) ∧ Forall is_byte (be24 v) ∧ Forall is_byte (be32 v).
Proof. repeat split; repeat constructor; apply mod_byte || apply Z.mod_pos_bound; lia. Qed.

Lemma entries_bytes es : Forall is_byte (mjoin (map entry_bytes es)).
Proof.
  induction es as [|e es IH]; [constructor|].
  change (mjoin (map entry_bytes (e :: es))) with (entry_bytes e ++ mjoin (map entry_bytes es)).
  unfold entry_bytes. rewrite !Forall_app. split; [split; apply be_bytes|done].
Qed.

Lemma priority_bytes p w :
  priority_ok p → sink_ok w → Forall is_byte (sink_take w) →
  Forall is_byte (sink_take (write_priority W p w)).
Proof.
  intros Hp Hw Hb. destruct (write_priority_take p w Hp Hw) as [_ ->].
  rewrite !Forall_app. split_and!; [done|apply be_bytes|].
  constructor; [|constructor]. destruct Hp. unfold is_byte. lia.
Qed.

Lemma payload_bytes f :
  frame_ok f → Forall is_byte (frame_data f) → Forall is_byte (b_payload (encodeBody W f)).
Proof.
  assert (∀ cap, 0 < cap → Forall is_byte (sink_take (sink_new cap : W))) as Hnew
    by (intros; by rewrite sink_new_take).
  destruct f as [|? fr ? ? [p|]| | |ack s| |ack op|? ? dbg| |]; cbn [frame_ok frame_data
    encodeBody b_payload from_option]; intros Hok Hd; destruct_and?; try done.
  - rewrite sink_bytes_take by (apply write_priority_take; [done|sink_solve]).
    apply Forall_app. split; [|done]. apply priority_bytes; [done|sink_solve|].
    apply Hnew. zl.
  - apply priority_bytes; [done|sink_solve|]. apply Hnew. lia.
  - rewrite sink_u32_take, sink_new_take by sink_solve. apply be_bytes.
  - rewrite write_settings_take, sink_new_take by sink_solve. apply entries_bytes.
  - rewrite sink_bytes_take, sink_u32_take, sink_new_take by sink_solve.
    rewrite !Forall_app. split_and!; [constructor|apply be_bytes|done].
  - case_match; [done|]. repeat constructor; unfold is_byte; lia.
  - rewrite sink_bytes_take, !sink_u32_take, sink_new_take by sink_solve.
    rewrite !Forall_app. split_and!; [constructor|apply be_bytes..|done].
  - rewrite sink_u32_take, sink_new_take by sink_solve. apply be_bytes.
Qed.

Lemma serializeFrame_is_bytes f :
  frame_ok f → Forall is_byte (frame_data f) → Forall is_byte (serializeFrame W f).
Proof.
  intros Hok Hd. rewrite serializeFrame_bytes. cbn zeta. rewrite !Forall_app.
  split_and!; [apply be_bytes| |apply be_bytes|by apply payload_bytes].
  repeat constructor; apply mod_byte || apply Z.mod_pos_bound; lia.
Qed.

Lemma serializeFrame_length f :
  zlen (serializeFrame W f) = 9 + zlen (b_payload (encodeBody W f)).
Proof. rewrite serializeFrame_bytes. cbn zeta. unfold be24, be32. zl. Qed.

Lemma frames_of_serialized max fs n :
  Forall (sendable max) fs → (length (mjoin (map (serializeFrame W) fs)) ≤ n)%nat →
  frames_of n max (mjoin (map (serializeFrame W) fs)) = Ok (map received fs, []).
Proof.
  revert n. induction fs as [|f fs IH]; intros n Hfs Hn.
  { by destruct n. }
  apply Forall_cons_1 in Hfs as [(Hok & Hd & Hmax & H24) Hfs'].
  change (mjoin (map (serializeFrame W) (f :: fs)))
    with (serializeFrame W f ++ mjoin (map (serializeFrame W) fs)) in *.
  pose proof (serializeFrame_length f) as Hl. rewrite length_app in Hn.
  pose proof (zlen_nonneg (b_payload (encodeBody W f))). unfold zlen in Hl at 1.
  destruct n as [|n]; [lia|]. cbn [frames_of].
  rewrite (next_frame_serialized max f _ Hok Hmax H24). rewrite IH; [done|done|lia].
Qed.
End roundtrip.

(** C11: Serialize any sequence of frames and feed the bytes to a fresh decoder: it returns the
    same frames in order (a DATA frame with its flow-controlled length filled in) and keeps
    nothing back. *)
Theorem frame_roundtrip max fs :
  Forall (sendable (W := ByteWriter) max) fs →
  fd_push (concatBytes (map (serializeFrame ByteWriter) fs)) (fd_new max) =
    (fd_new max, Ok (map received fs)).
Proof.
  intros Hfs. rewrite concatBytes_spec.
  assert (Forall is_byte (mjoin (map (serializeFrame ByteWriter) fs))) as Hb.
  { induction Hfs as [|f fs (Hok & Hd & _) Hfs IH]; [constructor|].
    apply Forall_app. split; [by apply serializeFrame_is_bytes|done]. }
  rewrite fd_push_spec by done. cbn [fd_pending fd_new app fd_maxFrameSize].
  by rewrite frames_of_serialized.
Qed.

Lemma frame_roundtrip_witness :
  let fs := [ SettingsFrame false (mkSettings (Some 4096) (Some false) None (Some 65535) None
                (Some 65536));
              HeadersFrame 1 [0x82; 0x84] true false (Some (mkPriority 3 256 true));
              ContinuationFrame 1 [0x86] true;
              DataFrame 1 [1; 2; 3] None false; RstStreamFrame 1 8;
              PingFrame true [0; 1; 2; 3; 4; 5; 6; 255];
              GoawayFrame 1 0 [7]; WindowUpdateFrame 0 4294 ] in
  fd_push (concatBytes (map (serializeFrame ByteWriter) fs)) (fd_new 16384) =
    (fd_new 16384, Ok (map received fs)).
Proof.
  cbn zeta. apply frame_roundtrip.
  repeat apply Forall_cons_2; [..|apply Forall_nil_2];
    (split; [vm_compute; intuition congruence|]);
    (split; [repeat constructor; vm_compute; congruence|]);
    split; vm_compute; congruence.
Defined.
