(* ===== verification/HuffmanCorrect.v ===== *)
(** * HuffmanCorrect: Huffman decoding and encoding are inverse *)
From S2P Require Import Prelude Errors Bytes HpackTables Huffman.
Local Open Scope Z_scope.

(** ** Bits *)

(** The [n] low bits of [code], most significant first, as both loops test them. *)
Fixpoint code_bits (code : Z) (n : nat) : list bool :=
  match n with
  | O => []
  | S i => negb (js_and (js_shru code (Z.of_nat i)) 1 =? 0) :: code_bits code i
  end.

Definition sym_bits (sym : Z) : list bool :=
  code_bits (fst (code_of sym)) (Z.to_nat (snd (code_of sym))).

Definition bits_of (bs : bytes) : list bool := mjoin (map (λ b, code_bits b 8) bs).

Definition huffman_bits (input : bytes) : list bool := mjoin (map sym_bits input).

Lemma length_code_bits code n : length (code_bits code n) = n.
Proof. induction n as [|n IH]; simpl; auto. Qed.

Lemma bits_of_cons b bs : bits_of (b :: bs) = code_bits b 8 ++ bits_of bs.
Proof. done. Qed.

Lemma length_bits_of bs : length (bits_of bs) = (8 * length bs)%nat.
Proof.
  induction bs as [|b bs IH]; [done|].
  rewrite bits_of_cons, length_app, length_code_bits, IH. simpl. lia.
Qed.

Lemma bits_of_zeros n : bits_of (replicate n 0) = replicate (8 * n) false.
Proof.
  induction n as [|n IH]; [done|]. cbn [replicate]. rewrite bits_of_cons, IH.
  by replace (8 * S n)%nat with (8 + 8 * n)%nat by lia.
Qed.

Definition all_bytes : list Z := seqZ 0 256.

Lemma forallb_bytes (P : Z → bool) :
  forallb P all_bytes = true → ∀ b, is_byte b → P b = true.
Proof.
  intros H b Hb. rewrite forallb_forall in H. apply H, list_elem_of_In.
  unfold all_bytes. rewrite elem_of_seqZ. unfold is_byte in Hb. lia.
Qed.

(** Setting bit [j] of a byte with the mask [0x80 >>> j]. *)
Lemma set_bit_byte b j :
  is_byte b → (j < 8)%nat →
  code_bits (js_or b (js_shru 0x80 (Z.of_nat j))) 8 = <[j := true]> (code_bits b 8) ∧
  is_byte (js_or b (js_shru 0x80 (Z.of_nat j))).
Proof.
  intros Hb Hj.
  pose (P := λ b, forallb (λ j,
    bool_decide (code_bits (js_or b (js_shru 0x80 (Z.of_nat j))) 8 = <[j := true]> (code_bits b 8))
    && (0 <=? js_or b (js_shru 0x80 (Z.of_nat j)))
    && (js_or b (js_shru 0x80 (Z.of_nat j)) <? 256)) (seq 0 8)).
  assert (forallb P all_bytes = true) as HP by (vm_compute; reflexivity).
  pose proof (forallb_bytes P HP b Hb) as H. unfold P in H. rewrite forallb_forall in H.
  specialize (H j). rewrite !andb_true_iff, bool_decide_eq_true in H.
  destruct H as [[H1 H2] H3]; [apply in_seq; lia|]. split; [done|]. unfold is_byte. lia.
Qed.

Lemma code_bits_inj a b : is_byte a → is_byte b → code_bits a 8 = code_bits b 8 → a = b.
Proof.
  intros Ha Hb H.
  pose (val := fold_left (λ v (c : bool), v * 2 + (if c then 1 else 0))).
  assert (∀ x, is_byte x → val (code_bits x 8) 0 = x) as Hv.
  { intros x Hx.
    pose proof (forallb_bytes (λ x, val (code_bits x 8) 0 =? x) ltac:(vm_compute; reflexivity)
      x Hx) as Hv. by apply Z.eqb_eq. }
  rewrite <- (Hv a Ha), <- (Hv b Hb). by rewrite H.
Qed.

Lemma bits_of_inj xs ys :
  Forall is_byte xs → Forall is_byte ys → bits_of xs = bits_of ys → xs = ys.
Proof.
  intros Hxs. revert ys. induction Hxs as [|x xs Hx Hxs IH]; intros ys Hys H.
  - destruct ys; [done|]. apply (f_equal length) in H. rewrite !length_bits_of in H.
    simpl in H. lia.
  - destruct Hys as [|y ys Hy Hys].
    { apply (f_equal length) in H. rewrite !length_bits_of in H. simpl in H. lia. }
    change (code_bits x 8 ++ bits_of xs = code_bits y 8 ++ bits_of ys) in H.
    apply app_inj_1 in H as [H1 H2]; [|by rewrite !length_code_bits].
    f_equal; [by apply code_bits_inj | by apply IH].
Qed.

(** ** The encoder's bit writes *)

Lemma js_and_7 x : js_and x 7 = x mod 8.
Proof. apply (js_and_ones x 3). lia. Qed.

Lemma insert_bits out q r b :
  (r < 8)%nat → out !! q = Some b → is_byte b →
  bits_of (<[q := js_or b (js_shru 0x80 (Z.of_nat r))]> out) =
    <[(8 * q + r)%nat := true]> (bits_of out).
Proof.
  intros Hr. revert q. induction out as [|x out IH]; intros q Hq Hb; [done|].
  destruct q as [|q]; cbn in Hq.
  - injection Hq as ->. cbn [insert list_insert].
    change (code_bits (js_or b (js_shru 0x80 (Z.of_nat r))) 8 ++ bits_of out =
      <[(8 * 0 + r)%nat := true]> (code_bits b 8 ++ bits_of out)).
    destruct (set_bit_byte b r Hb Hr) as [-> _].
    rewrite insert_app_l by (rewrite length_code_bits; lia). f_equal.
  - cbn [insert list_insert].
    change (code_bits x 8 ++ bits_of (<[q := js_or b (js_shru 0x80 (Z.of_nat r))]> out) =
      <[(8 * S q + r)%nat := true]> (code_bits x 8 ++ bits_of out)).
    rewrite IH by done.
    replace (8 * S q + r)%nat with (length (code_bits x 8) + (8 * q + r))%nat
      by (rewrite length_code_bits; lia).
    by rewrite insert_app_r.
Qed.

(** The output array holds the bits [w] written so far, then zeros. *)
Definition written (out : bytes) (bitPos : Z) (w : list bool) : Prop :=
  Forall is_byte out ∧ bitPos = zlen w ∧
  ∃ k, bits_of out = w ++ replicate k false.

Lemma written_skip out bitPos w :
  written out bitPos w → (length w < 8 * length out)%nat →
  written out (bitPos + 1) (w ++ [false]).
Proof.
  intros (Hb & -> & k & Hk) Hlt. split; [done|]. split; [zl|].
  assert (length (bits_of out) = (length w + k)%nat) as Hl
    by (rewrite Hk, length_app, length_replicate; done).
  rewrite length_bits_of in Hl. destruct k as [|k]; [lia|]. exists k.
  rewrite Hk, <- app_assoc. done.
Qed.

Lemma written_set out bitPos w :
  written out bitPos w → (length w < 8 * length out)%nat → bitPos < 2 ^ 32 →
  written (set_bit out bitPos) (bitPos + 1) (w ++ [true]).
Proof.
  intros (Hb & -> & k & Hk) Hlt H32. unfold set_bit.
  rewrite js_shru_div, js_and_7 by zl. change (2 ^ 3) with 8.
  set (q := Z.to_nat (zlen w / 8)). set (r := Z.to_nat (zlen w mod 8)).
  assert ((8 * q + r)%nat = length w) as Hqr
    by (subst q r; unfold zlen; Z.to_euclidean_division_equations; lia).
  assert ((r < 8)%nat) as Hr by (subst r; unfold zlen; Z.to_euclidean_division_equations; lia).
  replace (zlen w mod 8) with (Z.of_nat r)
    by (subst r; rewrite Z2Nat.id; [done|apply Z.mod_pos_bound; lia]).
  destruct (lookup_lt_is_Some_2 out q) as [b Hq]; [lia|]. rewrite Hq.
  pose proof (Forall_lookup_1 _ _ _ _ Hb Hq) as Hbb.
  split; [apply Forall_insert; [done|by apply set_bit_byte]|]. split; [zl|].
  assert (length (bits_of out) = (length w + k)%nat) as Hl
    by (rewrite Hk, length_app, length_replicate; done).
  rewrite length_bits_of in Hl. destruct k as [|k]; [lia|]. exists k.
  rewrite insert_bits, Hk, Hqr by done.
  rewrite <- (Nat.add_0_r (length w)) at 1. rewrite insert_app_r, <- app_assoc. done.
Qed.

Lemma length_set_bit out bitPos : length (set_bit out bitPos) = length out.
Proof. unfold set_bit. case_match; [by rewrite length_insert|done]. Qed.

Lemma write_code_spec code n out bitPos w :
  written out bitPos w → (length w + n ≤ 8 * length out)%nat →
  Z.of_nat (8 * length out) < 2 ^ 32 →
  let '(out', bitPos') := write_code code n out bitPos in
  written out' bitPos' (w ++ code_bits code n) ∧ length out' = length out.
Proof.
  revert out bitPos w. induction n as [|i IH]; intros out bitPos w Hw Hn H32; cbn [write_code].
  { cbn [code_bits]. by rewrite app_nil_r. }
  cbn [code_bits].
  assert (bitPos = zlen w) as Hpos by apply Hw.
  destruct (js_and (js_shru code (Z.of_nat i)) 1 =? 0).
  - specialize (IH out (bitPos + 1) (w ++ [false])).
    destruct (write_code code i out (bitPos + 1)) as [out' bp'].
    rewrite <- app_assoc in IH. apply IH; [|rewrite length_app; simpl; lia|done].
    apply written_skip; [done|lia].
  - specialize (IH (set_bit out bitPos) (bitPos + 1) (w ++ [true])).
    destruct (write_code code i (set_bit out bitPos) (bitPos + 1)) as [out' bp'].
    rewrite <- app_assoc, length_set_bit in IH. apply IH; [|rewrite length_app; simpl; lia|done].
    apply written_set; [done|lia|]. unfold zlen in Hpos. lia.
Qed.

Lemma code_of_pos sym : 0 ≤ snd (code_of sym).
Proof.
  unfold code_of. destruct (HUFFMAN_CODES !! Z.to_nat sym) as [[c n]|] eqn:E; [|done].
  assert (Forall (λ e, 0 ≤ snd e) HUFFMAN_CODES) as H.
  { apply Forall_forall. intros e He.
    assert (forallb (λ e, 0 <=? snd e) HUFFMAN_CODES = true) as Hb by (vm_compute; reflexivity).
    rewrite forallb_forall in Hb. apply Z.leb_le, Hb. exact He. }
  apply (Forall_lookup_1 _ _ _ _ H E).
Qed.

Lemma huffman_bits_cons b bs : huffman_bits (b :: bs) = sym_bits b ++ huffman_bits bs.
Proof. done. Qed.

Lemma huffman_bits_app xs ys : huffman_bits (xs ++ ys) = huffman_bits xs ++ huffman_bits ys.
Proof.
  induction xs as [|x xs IH]; [done|]. cbn [app].
  rewrite !huffman_bits_cons, IH. by rewrite app_assoc.
Qed.

Lemma huffman_bits_one sym : huffman_bits [sym] = sym_bits sym.
Proof. rewrite huffman_bits_cons. apply app_nil_r. Qed.

Lemma zlen_sym_bits sym : zlen (sym_bits sym) = snd (code_of sym).
Proof.
  pose proof (code_of_pos sym). unfold zlen, sym_bits. rewrite length_code_bits. lia.
Qed.

Lemma encodedBitLength_spec input : encodedBitLength input = zlen (huffman_bits input).
Proof.
  unfold encodedBitLength. enough (∀ t, fold_left (λ bits byte, bits + snd (code_of byte))
    input t = t + zlen (huffman_bits input)) as -> by lia.
  induction input as [|b bs IH]; intros t; cbn [fold_left]; [zl|].
  rewrite IH, huffman_bits_cons, zlen_app, zlen_sym_bits. lia.
Qed.

Lemma encode_loop_spec input out bitPos w :
  written out bitPos w → zlen w + zlen (huffman_bits input) ≤ 8 * zlen out → 8 * zlen out < 2 ^ 32 →
  let '(out', bitPos') :=
    fold_left
      (λ '(out, bitPos) byte,
         let '(code, nbits) := code_of byte in write_code code (Z.to_nat nbits) out bitPos)
      input (out, bitPos) in
  written out' bitPos' (w ++ huffman_bits input) ∧ zlen out' = zlen out.
Proof.
  revert out bitPos w. induction input as [|b bs IH]; intros out bitPos w Hw Hlen H32.
  { cbn. by rewrite app_nil_r. }
  cbn [fold_left]. rewrite huffman_bits_cons, zlen_app in Hlen.
  pose proof (zlen_nonneg (huffman_bits bs)).
  pose proof (write_code_spec (fst (code_of b)) (Z.to_nat (snd (code_of b))) out bitPos w Hw)
    as Hc.
  pose proof (zlen_sym_bits b) as Hs. pose proof (code_of_pos b). unfold sym_bits in Hs.
  destruct (code_of b) as [code nbits] eqn:Hcode. cbn [fst snd] in *.
  destruct (write_code code (Z.to_nat nbits) out bitPos) as [out' bp'].
  destruct Hc as [Hw' Hl'].
  { rewrite zlen_sym_bits, Hcode in Hlen. cbn [snd] in Hlen. unfold zlen in *. lia. }
  { unfold zlen in H32. lia. }
  assert (zlen out' = zlen out) as Hz by (unfold zlen; lia).
  specialize (IH out' bp' _ Hw'). destruct (fold_left _ bs (out', bp')) as [out'' bp''].
  rewrite huffman_bits_cons. unfold sym_bits at 1. rewrite Hcode. cbn [fst snd].
  rewrite app_assoc, <- Hz. apply IH; [|lia].
  rewrite zlen_app, Hs. rewrite zlen_sym_bits, Hcode in Hlen. cbn [snd] in Hlen. lia.
Qed.

Lemma pad_bits_spec fuel out bitPos w :
  written out bitPos w → (- zlen w) mod 8 ≤ Z.of_nat fuel →
  zlen w + (- zlen w) mod 8 ≤ 8 * zlen out → 8 * zlen out < 2 ^ 32 →
  written (pad_bits fuel out bitPos) (zlen w + (- zlen w) mod 8)
    (w ++ replicate (Z.to_nat ((- zlen w) mod 8)) true) ∧
  zlen (pad_bits fuel out bitPos) = zlen out.
Proof.
  revert out bitPos w. induction fuel as [|n IH]; intros out bitPos w Hw Hf Hl H32;
    cbn [pad_bits]; assert (bitPos = zlen w) as -> by apply Hw.
  { pose proof (Z.mod_pos_bound (- zlen w) 8). replace ((- zlen w) mod 8) with 0 by lia.
    cbn. by rewrite app_nil_r, Z.add_0_r. }
  rewrite js_and_7. destruct (Z.eqb_spec (zlen w mod 8) 0) as [H0|H0].
  { replace ((- zlen w) mod 8) with 0 by (Z.to_euclidean_division_equations; lia).
    cbn. by rewrite app_nil_r, Z.add_0_r. }
  assert ((- zlen w) mod 8 = 1 + (- (zlen w + 1)) mod 8) as Hm
    by (Z.to_euclidean_division_equations; lia).
  pose proof (Z.mod_pos_bound (- (zlen w + 1)) 8).
  assert (written (set_bit out (zlen w)) (zlen w + 1) (w ++ [true])) as Hw'.
  { apply written_set; [done|unfold zlen in *; lia|lia]. }
  specialize (IH _ _ _ Hw').
  assert (zlen (w ++ [true]) = zlen w + 1) as Hz by zl.
  assert (zlen (set_bit out (zlen w)) = zlen out) as Ho
    by (unfold zlen; by rewrite length_set_bit).
  rewrite Hz, Ho in IH. destruct IH as [IH1 IH2]; [lia..|].
  split; [|done]. rewrite Hm.
  replace (Z.to_nat (1 + _)) with (S (Z.to_nat ((- (zlen w + 1)) mod 8))) by lia.
  cbn [replicate]. rewrite <- app_assoc in IH1. cbn [app] in IH1.
  replace (zlen w + (1 + _)) with (zlen w + 1 + (- (zlen w + 1)) mod 8) by lia. done.
Qed.

(** The encoder's output, bit by bit: the codes, then ones up to the next byte. *)
Lemma huffmanEncode_bits input :
  encodedBitLength input + 7 < 2 ^ 32 →
  Forall is_byte (huffmanEncode input) ∧
  bits_of (huffmanEncode input) =
    huffman_bits input
    ++ replicate (Z.to_nat ((- zlen (huffman_bits input)) mod 8)) true ∧
  zlen (huffmanEncode input) = (encodedBitLength input + 7) / 8.
Proof.
  intros H32. unfold huffmanEncode. rewrite encodedBitLength_spec in *.
  remember (zlen (huffman_bits input)) as L eqn:HLd.
  assert (0 ≤ L) by (subst L; apply zlen_nonneg).
  rewrite js_shru_div by lia. change (2 ^ 3) with 8.
  set (out := replicate (Z.to_nat ((L + 7) / 8)) 0).
  assert (zlen out = (L + 7) / 8) as Ho.
  { subst out. rewrite zlen_replicate, Z2Nat.id; [done|]. apply Z.div_pos; lia. }
  assert (written out 0 []) as Hw.
  { split; [|split; [done|]].
    - apply Forall_replicate. unfold is_byte. lia.
    - eexists. apply bits_of_zeros. }
  assert (L + (- L) mod 8 = 8 * zlen out) as HL.
  { rewrite Ho. Z.to_euclidean_division_equations; lia. }
  pose proof (Z.mod_pos_bound (- L) 8).
  pose proof (encode_loop_spec input out 0 [] Hw) as Hloop.
  destruct (fold_left _ input (out, 0)) as [out' bp'].
  destruct Hloop as [Hw' Hl'].
  { rewrite <- HLd, zlen_nil. lia. }
  { rewrite Ho. Z.to_euclidean_division_equations; lia. }
  cbn [app] in Hw'.
  destruct (pad_bits_spec 7 out' bp' (huffman_bits input) Hw') as [Hp Hpl]; rewrite <- ?HLd in *.
  { lia. } { lia. } { rewrite Hl', Ho. Z.to_euclidean_division_equations; lia. }
  destruct Hp as (Hb & _ & k & Hk). split; [done|]. split; [|lia].
  rewrite Hk. replace k with 0%nat; [by rewrite app_nil_r|].
  apply (f_equal length) in Hk. rewrite length_bits_of, !length_app, !length_replicate in Hk.
  unfold zlen in *. lia.
Qed.

(** ** The decoder, bit by bit *)

(** Keep the conversion tactics from unfolding the tables; [vm_compute] still evaluates them. *)
#[local] Opaque HUFFMAN_CODES ROOT.

Fixpoint run (bits : list bool) (st : decode_state) : result exn decode_state :=
  match bits with
  | [] => Ok st
  | b :: bits' =>
      match decode_bit st b with Ok st' => run bits' st' | Throw e => Throw e end
  end.

Lemma run_app xs ys st :
  run (xs ++ ys) st = match run xs st with Ok st' => run ys st' | Throw e => Throw e end.
Proof.
  revert st. induction xs as [|b xs IH]; intros st; cbn [app run]; [done|].
  destruct (decode_bit st b); [apply IH|done].
Qed.

Lemma decode_byte_run byte n st : decode_byte byte n st = run (code_bits byte n) st.
Proof.
  revert st. induction n as [|i IH]; intros st; cbn [decode_byte code_bits run]; [done|].
  destruct (decode_bit st _); [apply IH|done].
Qed.

Lemma decode_bytes_run input st : decode_bytes input st = run (bits_of input) st.
Proof.
  revert st. induction input as [|b bs IH]; intros st; cbn [decode_bytes]; [done|].
  rewrite bits_of_cons, run_app, decode_byte_run. destruct (run _ st); [apply IH|done].
Qed.

(** The node reached from [t] along a path that meets no symbol. *)
Fixpoint walk (t : TrieNode) (p : list bool) : option TrieNode :=
  match p with
  | [] => Some t
  | b :: p' =>
      match child t b with
      | TNode None c0 c1 => walk (TNode None c0 c1) p'
      | _ => None
      end
  end.

(** All paths to a symbol. *)
Fixpoint paths (t : TrieNode) (pre : list bool) : list (list bool * Z) :=
  match t with
  | TNone => []
  | TNode (Some sym) _ _ => [(pre, sym)]
  | TNode None c0 c1 => paths c0 (pre ++ [false]) ++ paths c1 (pre ++ [true])
  end.

Lemma walk_snoc t p b t' c0 c1 :
  walk t p = Some t' → child t' b = TNode None c0 c1 →
  walk t (p ++ [b]) = Some (TNode None c0 c1).
Proof.
  revert t. induction p as [|x p IH]; intros t; cbn [app walk].
  - intros [= ->] ->. done.
  - destruct (child t x) as [|[s|] d0 d1]; try done. apply IH.
Qed.

Lemma paths_walk c0 c1 p b t' sym d0 d1 pre :
  walk (TNode None c0 c1) p = Some t' → child t' b = TNode (Some sym) d0 d1 →
  (pre ++ p ++ [b], sym) ∈ paths (TNode None c0 c1) pre.
Proof.
  revert c0 c1 pre. induction p as [|x p IH]; intros c0 c1 pre; cbn [walk app paths].
  - intros [= <-] Hc. cbn [child] in Hc. rewrite elem_of_app.
    destruct b; rewrite Hc; cbn [paths]; rewrite !list_elem_of_singleton; auto.
  - intros Hw Hc. rewrite elem_of_app. cbn [child] in Hw.
    replace (pre ++ x :: p ++ [b]) with ((pre ++ [x]) ++ p ++ [b]) by by rewrite <- app_assoc.
    destruct x; [destruct c1 as [|[s|] e0 e1]|destruct c0 as [|[s|] e0 e1]]; try done; eauto.
Qed.

(** Every path of the trie is the code of its symbol, and the table has no other symbols. *)
Lemma paths_ROOT_check :
  forallb (λ e : list bool * Z, bool_decide (fst e = sym_bits (snd e)) && (0 <=? snd e)
    && (snd e <=? 256)) (paths ROOT []) = true.
Proof. vm_compute. reflexivity. Qed.

Lemma paths_ROOT p sym :
  (p, sym) ∈ paths ROOT [] → p = sym_bits sym ∧ 0 ≤ sym ≤ 256.
Proof.
  generalize paths_ROOT_check. generalize (paths ROOT []) as l. intros l Hl H.
  pose proof (forallb_elem _ _ _ Hl H) as Hc. cbn [fst snd] in Hc.
  rewrite !andb_true_iff, bool_decide_eq_true, !Z.leb_le in Hc. tauto.
Qed.

Lemma ROOT_node : ∃ c0 c1, ROOT = TNode None c0 c1.
Proof. vm_compute. eauto. Qed.

(** [bits] have been read: the codes of the output, then a path to the current node. *)
Definition decoded (st : decode_state) (bits : list bool) : Prop :=
  ∃ p, bits = huffman_bits (ds_out st) ++ p ∧ walk ROOT p = Some (ds_node st) ∧
       ds_partialBits st = zlen p ∧ ds_partialAllOnes st = forallb id p ∧
       ds_atRoot st = bool_decide (p = []) ∧ Forall is_byte (ds_out st).

Lemma decoded_root out : Forall is_byte out → decoded (root_state out) (huffman_bits out).
Proof. intros H. exists []. rewrite app_nil_r. repeat split; exact H. Qed.

Lemma decode_bit_decoded st b st' bits :
  decoded st bits → decode_bit st b = Ok st' → decoded st' (bits ++ [b]).
Proof.
  intros (p & -> & Hw & Hn & Ho & Hr & Hb). unfold decode_bit.
  destruct (child (ds_node st) b) as [|[sym|] c0 c1] eqn:Hc; [done| |].
  - destruct (Z.eqb_spec sym HUFFMAN_EOS) as [|Hne]; [done|]. intros [= <-].
    destruct ROOT_node as (r0 & r1 & HR).
    pose proof (paths_walk r0 r1 p b (ds_node st) sym c0 c1 []) as Hp. rewrite <- HR in Hp.
    destruct (paths_ROOT _ _ (Hp Hw Hc)) as [Hs Hrange]. cbn [app] in Hs.
    unfold HUFFMAN_EOS in Hne.
    rewrite <- app_assoc, Hs.
    rewrite <- huffman_bits_one, <- huffman_bits_app. apply decoded_root.
    apply Forall_app. split; [done|]. constructor; [|done]. unfold is_byte. lia.
  - intros [= <-]. exists (p ++ [b]). cbn [ds_out ds_node ds_partialBits ds_partialAllOnes
      ds_atRoot]. rewrite <- app_assoc.
    split; [done|]. split; [by eapply walk_snoc|]. split; [zl|]. split; [|split; [|done]].
    + rewrite Ho, forallb_app. cbn. by rewrite andb_true_r.
    + symmetry. apply bool_decide_eq_false. by destruct p.
Qed.

Lemma run_decoded bits st st' before :
  decoded st before → run bits st = Ok st' → decoded st' (before ++ bits).
Proof.
  revert st before. induction bits as [|b bits IH]; intros st before Hd; cbn [run].
  - intros [= <-]. by rewrite app_nil_r.
  - destruct (decode_bit st b) as [st1|e] eqn:E; [|done]. intros Hrun.
    replace (before ++ b :: bits) with ((before ++ [b]) ++ bits) by by rewrite <- app_assoc.
    eapply IH; [|done]. by eapply decode_bit_decoded.
Qed.

Lemma all_ones p : forallb id p = true → p = replicate (length p) true.
Proof.
  induction p as [|[] p IH]; cbn; try done. intros H. f_equal. auto.
Qed.

(** ** Decoding what was encoded *)

(** A path that ends in [sym] and meets no symbol before. *)
Fixpoint leads (t : TrieNode) (p : list bool) (sym : Z) : bool :=
  match p with
  | [] => false
  | [b] => match child t b with TNode (Some s) _ _ => s =? sym | _ => false end
  | b :: p' => match child t b with
               | TNode None c0 c1 => leads (TNode None c0 c1) p' sym
               | _ => false
               end
  end.

Lemma run_leads p sym st :
  leads (ds_node st) p sym = true → sym ≠ HUFFMAN_EOS →
  run p st = Ok (root_state (ds_out st ++ [sym])).
Proof.
  intros Hl Hne. revert st Hl. induction p as [|b p IH]; intros st Hl; [done|].
  destruct p as [|b' p]; cbn [leads run] in *; unfold decode_bit.
  - destruct (child (ds_node st) b) as [|[s|] c0 c1]; try done. apply Z.eqb_eq in Hl as ->.
    by rewrite (proj2 (Z.eqb_neq _ _) Hne).
  - destruct (child (ds_node st) b) as [|[s|] c0 c1]; try done.
    apply (IH (mkDS (ds_out st) (TNode None c0 c1) false _ _) Hl).
Qed.

Lemma codes_lead b : is_byte b → leads ROOT (sym_bits b) b = true.
Proof.
  apply (forallb_bytes (λ b, leads ROOT (sym_bits b) b)). vm_compute. reflexivity.
Qed.

Lemma run_codes input out :
  Forall is_byte input → run (huffman_bits input) (root_state out) = Ok (root_state (out ++ input)).
Proof.
  intros H. revert out. induction H as [|b bs Hb Hbs IH]; intros out.
  { cbn. by rewrite app_nil_r. }
  rewrite huffman_bits_cons, run_app.
  rewrite (run_leads (sym_bits b) b (root_state out)); cbn [ds_out root_state].
  - rewrite IH. by rewrite <- app_assoc.
  - by apply codes_lead.
  - unfold is_byte, HUFFMAN_EOS in *. lia.
Qed.

(** Up to seven ones after the last symbol are accepted as padding. *)
Lemma run_padding k out :
  (k < 8)%nat →
  ∃ st, run (replicate k true) (root_state out) = Ok st ∧ ds_out st = out ∧
        (negb (ds_atRoot st) && ((7 <? ds_partialBits st) || negb (ds_partialAllOnes st))) = false.
Proof.
  intros Hk. do 8 (destruct k as [|k]; [eexists; split; [vm_compute; reflexivity|done]|]). lia.
Qed.

Lemma huffman_decode_encode s :
  Forall is_byte s → zlen (huffman_bits s) < 2 ^ 31 → huffmanDecode (huffmanEncode s) = Ok s.
Proof.
  intros Hs Hlens. destruct (huffmanEncode_bits s) as (_ & Hebits & _).
  { rewrite encodedBitLength_spec. lia. }
  pose proof (Z.mod_pos_bound (- zlen (huffman_bits s)) 8).
  unfold huffmanDecode. rewrite decode_bytes_run, Hebits, run_app, run_codes by done. cbn [app].
  destruct (run_padding (Z.to_nat ((- zlen (huffman_bits s)) mod 8)) s)
    as (st & -> & Hout & ->); [lia|]. by rewrite Hout.
Qed.

Lemma huffman_decode_inv input s :
  Forall is_byte input → zlen (huffman_bits s) < 2 ^ 31 →
  huffmanDecode input = Ok s → input = huffmanEncode s.
Proof.
  intros Hi Hlens. destruct (huffmanEncode_bits s) as (Heb & Hebits & Helen).
  { rewrite encodedBitLength_spec. lia. }
  unfold huffmanDecode. rewrite decode_bytes_run.
  destruct (run (bits_of input) (root_state [])) as [st|e] eqn:Hr; [|done].
  destruct (negb (ds_atRoot st) && _) eqn:Hpad; [done|]. intros [= <-].
  pose proof (run_decoded _ _ _ [] (decoded_root [] (Forall_nil_2 _)) Hr)
    as (p & Hbits & _ & Hn & Hones & Hroot & _).
  cbn [app] in Hbits.
  assert (forallb id p = true ∧ zlen p ≤ 7) as [Hp Hpl].
  { rewrite Hn, Hones, Hroot in Hpad. destruct p as [|x p]; [done|]. cbn [bool_decide] in Hpad.
    rewrite bool_decide_eq_false_2 in Hpad by done. cbn [negb andb] in Hpad.
    apply orb_false_iff in Hpad as [H1 H2]. apply Z.ltb_ge in H1.
    by apply negb_false_iff in H2. }
  apply bits_of_inj; [done..|]. rewrite Hbits, Hebits, (all_ones p Hp). do 2 f_equal.
  apply (f_equal zlen) in Hbits. rewrite zlen_app in Hbits.
  unfold zlen in Hbits at 1. rewrite length_bits_of in Hbits.
  rewrite <- (zlen_to_nat p). f_equal. pose proof (zlen_nonneg p).
  Z.to_euclidean_division_equations; lia.
Qed.

(** C20: HPACK Huffman coding is a bijection onto its image: a byte string decodes to [s]
    exactly when it is the encoding of [s].  So every string round-trips, and the decoder
    rejects every other input (unused codes, the EOS symbol, padding that is too long or not
    all ones).  The bound keeps bit positions inside 32 bits. *)
Theorem huffman_decode_iff input s :
  Forall is_byte input → Forall is_byte s → zlen (huffman_bits s) < 2 ^ 31 →
  huffmanDecode input = Ok s ↔ input = huffmanEncode s.
Proof.
  intros Hi Hs Hlen. split; [by apply huffman_decode_inv|]. intros ->. by apply huffman_decode_encode.
Qed.

Lemma huffman_decode_iff_witness :
  huffmanDecode [0xf1; 0xe3; 0xc2; 0xe5; 0xf2; 0x3a; 0x6b; 0xa0; 0xab; 0x90; 0xf4; 0xff] =
    Ok (js "www.example.com").
Proof.
  apply (huffman_decode_iff _ (js "www.example.com")).
  - repeat constructor; vm_compute; congruence.
  - repeat constructor; vm_compute; congruence.
  - vm_compute. reflexivity.
  - vm_compute. reflexivity.
Defined.
