(* ===== verification/Hpack.v ===== *)
(** * Hpack: [h2/hpack/hpack.ts]

    Prefix integers, string literals, the decoder with its dynamic table and header-list
    budget, and the stateless encoder. *)
From S2P Require Import Prelude Errors Text Bytes HpackTables Huffman.
Local Open Scope Z_scope.

(** An absent [neverIndex] is [false]: the code only tests it for truth. *)
Record Header := mkHeader { h_name : jsstring; h_value : jsstring; h_neverIndex : bool }.

#[export] Instance Header_eq_dec : EqDecision Header.
Proof. solve_decision. Defined.

Record HeaderDecodeLimits := mkLimits {
  maxHeaderListBytes : Z;
  maxHeaderCount : Z;
  limits_streamId : option Z;
}.

Definition ENTRY_OVERHEAD : Z := 32.
Definition DEFAULT_TABLE_SIZE : Z := 4096.

Fixpoint utf8Length (value : jsstring) : Z :=
  match value with
  | [] => 0
  | code :: rest =>
      if code <=? 0x7f then 1 + utf8Length rest
      else if code <=? 0x7ff then 2 + utf8Length rest
      else if (0xd800 <=? code) && (code <=? 0xdbff) then
        match rest with
        | next :: rest' =>
            if (0xdc00 <=? next) && (next <=? 0xdfff) then 4 + utf8Length rest'
            else 3 + utf8Length rest
        | [] => 3
        end
      else 3 + utf8Length rest
  end.

(** ** Prefix integers *)

Section write.
Context {W : Type} `{ByteSink W}.

(** [while (rest >= 128)] and the final byte; every round divides [rest] by 128, so its
    base-2 logarithm is fuel enough ([write_rest_bytes]). *)
Fixpoint write_rest (fuel : nat) (rest : Z) (w : W) : W :=
  match fuel with
  | O => sink_u8 rest w
  | S fuel' =>
      if 128 <=? rest then write_rest fuel' (rest / 128) (sink_u8 (rest mod 128 + 128) w)
      else sink_u8 rest w
  end.

Definition writeInteger (value prefixBits firstByteFlags : Z) (w : W) : W :=
  let max := js_shl 1 prefixBits - 1 in
  if value <? max then sink_u8 (js_or firstByteFlags value) w
  else
    let rest := value - max in
    write_rest (Z.to_nat (Z.log2 rest)) rest (sink_u8 (js_or firstByteFlags max) w).

Definition writeString (s : jsstring) (w : W) : W :=
  let raw := encodeUtf8 s in
  if huffmanShorter raw then
    let encoded := huffmanEncode raw in
    sink_bytes encoded (writeInteger (zlen encoded) 7 0x80 w)
  else
    sink_bytes raw (writeInteger (zlen raw) 7 0x00 w).
End write.

(** The [do ... while] loop of [readInteger]: the seventh round throws, so seven rounds are
    fuel enough ([read_rest_fuel]). *)
Fixpoint read_rest (fuel : nat) (value shift : Z) : Rd Z :=
  match fuel with
  | O => throw compression_error
  | S fuel' =>
      byte ← rd_u8;
      let value := value + js_and byte 0x7f * 2 ^ shift in
      let shift := shift + 7 in
      if 42 <? shift then throw compression_error
      else if negb (js_and byte 0x80 =? 0) then read_rest fuel' value shift
      else mret value
  end.

Definition readInteger (prefixBits : Z) : Rd Z :=
  let max := js_shl 1 prefixBits - 1 in
  first ← rd_u8;
  let value := js_and first max in
  if value <? max then mret value else read_rest 7 value 0.

Definition lift_result {S A} (r : result exn A) : M S exn A :=
  match r with Ok a => mret a | Throw e => throw e end.

Definition readString : Rd jsstring :=
  first ← rd_peek;
  let huffman := negb (js_and first 0x80 =? 0) in
  length ← readInteger 7;
  r ← get_state;
  if remaining r <? length then throw compression_error
  else
    b ← rd_bytes length;
    raw ← lift_result (if huffman then huffmanDecode b else Ok b);
    mret (decodeUtf8 raw).

(** ** Static table lookup maps *)

(** [`${name}\0${value}`]. *)
Definition pair_key (name value : jsstring) : jsstring := name ++ 0 :: value.

(** The module-level loop that fills both maps; [index] is 1-based. *)
Definition static_maps : gmap jsstring Z * gmap jsstring Z :=
  fst (fold_left
    (λ '((names, pairs), index) '(name, value),
       ((match names !! name with Some _ => names | None => <[name := index]> names end,
         <[pair_key name value := index]> pairs), index + 1))
    STATIC_TABLE ((∅, ∅), 1)).
Definition staticNameToIndex : gmap jsstring Z := fst static_maps.
Definition staticPairToIndex : gmap jsstring Z := snd static_maps.

(** ** The decoder *)

(** [dynamic] is newest first. *)
Record HpackDecoder := mkDecoder {
  dynamic : list HeaderEntry;
  size : Z;
  maxSize : Z;
  protocolMax : Z;
}.

Definition hd_new (maxSize : Z) : HpackDecoder := mkDecoder [] 0 maxSize maxSize.

Definition entry_size (e : HeaderEntry) : Z := zlen (fst e) + zlen (snd e) + ENTRY_OVERHEAD.

(** [while (cond(size) && dynamic.length > 0) { pop; size -= ... }]: every round removes an
    entry, so the length of the table is fuel enough. *)
Fixpoint evict (fuel : nat) (cond : Z → bool) (d : list HeaderEntry) (sz : Z)
    : list HeaderEntry * Z :=
  match fuel with
  | O => (d, sz)
  | S fuel' =>
      if cond sz && (0 <? zlen d) then
        match d !! (length d - 1)%nat with
        | Some removed => evict fuel' cond (take (length d - 1) d) (sz - entry_size removed)
        | None => (d, sz)
        end
      else (d, sz)
  end.

Definition applyMaxSize (newSize : Z) : M HpackDecoder exn unit := λ d,
  if protocolMax d <? newSize then (d, Throw compression_error)
  else
    let '(dyn, sz) := evict (length (dynamic d)) (λ sz, newSize <? sz) (dynamic d) (size d) in
    (mkDecoder dyn sz newSize (protocolMax d), Ok tt).

Definition setProtocolMaxSize (n : Z) : M HpackDecoder exn unit := λ d,
  let d := mkDecoder (dynamic d) (size d) (maxSize d) n in
  if n <? maxSize d then applyMaxSize n d else (d, Ok tt).

Definition entryAt (d : HpackDecoder) (index : Z) : result exn HeaderEntry :=
  if (1 <=? index) && (index <=? STATIC_TABLE_LENGTH)
  then Ok (default ([], []) (STATIC_TABLE !! Z.to_nat (index - 1)))
  else
    let di := index - STATIC_TABLE_LENGTH - 1 in
    match (if di <? 0 then None else dynamic d !! Z.to_nat di) with
    | None => Throw compression_error
    | Some e => Ok e
    end.

Definition hd_insert (name value : jsstring) (d : HpackDecoder) : HpackDecoder :=
  let entrySize := zlen name + zlen value + ENTRY_OVERHEAD in
  let '(dyn, sz) :=
    evict (length (dynamic d)) (λ sz, maxSize d <? sz + entrySize) (dynamic d) (size d) in
  if entrySize <=? maxSize d
  then mkDecoder ((name, value) :: dyn) (sz + entrySize) (maxSize d) (protocolMax d)
  else mkDecoder [] 0 (maxSize d) (protocolMax d).

Record Budget := mkBudget { headerListBytes : Z; fieldCount : Z; rejected : bool }.

(** The mutable variables of one [decode] call: the reader, the decoder object, the list under
    construction and the budget. *)
Record dec_ctx := mkCtx {
  dc_r : ByteReader;
  dc_d : HpackDecoder;
  dc_headers : list Header;
  dc_budget : Budget;
}.
Abbreviation Dec := (M dec_ctx exn).

Definition on_reader {A} (m : Rd A) : Dec A := λ c,
  let '(r, x) := m (dc_r c) in (mkCtx r (dc_d c) (dc_headers c) (dc_budget c), x).
Definition on_decoder {A} (m : M HpackDecoder exn A) : Dec A := λ c,
  let '(d, x) := m (dc_d c) in (mkCtx (dc_r c) d (dc_headers c) (dc_budget c), x).
Definition at_index (index : Z) : Dec HeaderEntry := λ c,
  (c, entryAt (dc_d c) index).

Definition recordHeader (limits : option HeaderDecodeLimits) (name value : jsstring)
    : Dec unit := modify (λ c,
  let b := dc_budget c in
  if rejected b then c
  else
    let nextBytes := headerListBytes b + utf8Length name + utf8Length value + ENTRY_OVERHEAD in
    let over := match limits with
                | None => false
                | Some l => (maxHeaderCount l <=? fieldCount b) || (maxHeaderListBytes l <? nextBytes)
                end in
    mkCtx (dc_r c) (dc_d c)
      (if over then dc_headers c else dc_headers c ++ [mkHeader name value false])
      (mkBudget nextBytes (fieldCount b + 1) over)).

(** Name and value of a literal field whose name index has a [prefixBits]-bit prefix. *)
Definition read_literal (prefixBits : Z) : Dec (jsstring * jsstring) :=
  nameIndex ← on_reader (readInteger prefixBits);
  name ← (if nameIndex =? 0 then on_reader readString
          else e ← at_index nameIndex; mret (fst e));
  value ← on_reader readString;
  mret (name, value).

(** One round of the [while (r.remaining > 0)] loop. *)
Definition decode_field (limits : option HeaderDecodeLimits) : Dec unit :=
  first ← on_reader rd_peek;
  if negb (js_and first 0x80 =? 0) then
    index ← on_reader (readInteger 7);
    if index =? 0 then throw compression_error
    else
      e ← at_index index;
      recordHeader limits (fst e) (snd e)
  else if negb (js_and first 0x40 =? 0) then
    nv ← read_literal 6;
    on_decoder (modify (hd_insert (fst nv) (snd nv)));;
    recordHeader limits (fst nv) (snd nv)
  else if negb (js_and first 0x20 =? 0) then
    n ← on_reader (readInteger 5);
    on_decoder (applyMaxSize n)
  else
    nv ← read_literal 4;
    recordHeader limits (fst nv) (snd nv).

(** Every round reads at least one byte, so the length of the block is fuel enough
    ([decode_loop_done]). *)
Fixpoint decode_loop (fuel : nat) (limits : option HeaderDecodeLimits) : Dec unit :=
  match fuel with
  | O => mret tt
  | S fuel' =>
      c ← get_state;
      if 0 <? remaining (dc_r c) then decode_field limits;; decode_loop fuel' limits
      else mret tt
  end.

Definition hd_decode (block : bytes) (limits : option HeaderDecodeLimits)
    : M HpackDecoder exn (list Header) := λ d,
  let c := mkCtx (rd_new block) d [] (mkBudget 0 0 false) in
  let '(c', x) := decode_loop (length block) limits c in
  (dc_d c',
   match x with
   | Throw e => Throw e
   | Ok _ =>
       if rejected (dc_budget c')
       then Throw (EH2 (mkH2Error ENHANCE_YOUR_CALM (l ← limits; limits_streamId l) None))
       else Ok (dc_headers c')
   end).

(** ** The encoder *)

(** [toLowerCase] on the ASCII letters.  Header names are ASCII; other characters are outside
    the model of this function and kept. *)
Definition toLowerCase (s : jsstring) : jsstring :=
  map (λ u, if (0x41 <=? u) && (u <=? 0x5a) then u + 32 else u) s.

Section encode.
Context {W : Type} `{ByteSink W}.

Definition encode_header (header : Header) (w : W) : W :=
  let name := toLowerCase (h_name header) in
  let value := h_value header in
  match staticPairToIndex !! pair_key name value with
  | Some pairIndex => writeInteger pairIndex 7 0x80 w
  | None =>
      let flags := if h_neverIndex header then 0x10 else 0x00 in
      let w := match staticNameToIndex !! name with
               | Some nameIndex => writeInteger nameIndex 4 flags w
               | None => writeString name (writeInteger 0 4 flags w)
               end in
      writeString value w
  end.
End encode.

Definition he_encode (W : Type) `{ByteSink W} (headers : list Header) : bytes :=
  sink_take (fold_left (λ w h, encode_header h w) headers (sink_new 256)).

Example hpack_example :
  let hs := [mkHeader (js ":method") (js "POST") false;
             mkHeader (js "Content-Type") (js "application/grpc") false;
             mkHeader (js "authorization") (js "Bearer x") true;
             mkHeader (js "x-id") (js "1") false] in
  let '(d, r) := hd_decode (he_encode ByteWriter hs) None (hd_new 4096) in
  d = hd_new 4096 ∧
  r = Ok [mkHeader (js ":method") (js "POST") false;
          mkHeader (js "content-type") (js "application/grpc") false;
          mkHeader (js "authorization") (js "Bearer x") false;
          mkHeader (js "x-id") (js "1") false].
Proof. vm_compute. split; reflexivity. Qed.
