(* ===== verification/HpackCorrect.v ===== *)
(** * HpackCorrect: the dynamic table, the header-list budget and the encoder/decoder round
    trip *)
From S2P Require Import Prelude Errors Text Bytes HpackTables Huffman HuffmanCorrect Hpack.
Local Open Scope Z_scope.

#[local] Opaque HUFFMAN_CODES ROOT STATIC_TABLE staticPairToIndex staticNameToIndex.

(** ** The cost of a header field *)

Lemma utf8_bytes_length c :
  zlen (utf8_bytes c) =
    if c <? 0x80 then 1 else if c <? 0x800 then 2 else if c <? 0x10000 then 3 else 4.
Proof. unfold utf8_bytes. by repeat case_match. Qed.

Lemma encodeUtf8_units u s :
  encodeUtf8 (u :: s) =
    if is_high u then
      match s with
      | v :: s' => if is_low v
                   then utf8_bytes (0x10000 + (u - 0xD800) * 1024 + (v - 0xDC00)) ++ encodeUtf8 s'
                   else utf8_bytes REPLACEMENT ++ encodeUtf8 s
      | [] => utf8_bytes REPLACEMENT
      end
    else if is_low u then utf8_bytes REPLACEMENT ++ encodeUtf8 s
    else utf8_bytes u ++ encodeUtf8 s.
Proof. unfold encodeUtf8. cbn [code_points]. repeat case_match; done. Qed.

(** [utf8Length] computes, without encoding, the exact number of bytes [encodeUtf8]
    produces, also for strings with unpaired surrogates: the header-list budget is charged in
    UTF-8 bytes. *)
Theorem utf8Length_correct s :
  Forall (λ u, 0 ≤ u ≤ 0xFFFF) s → utf8Length s = zlen (encodeUtf8 s).
Proof.
  remember (length s) as n eqn:Hn. revert s Hn.
  induction (lt_wf n) as [n _ IH]. intros s -> Hs.
  destruct s as [|u s]; [done|]. apply Forall_cons_1 in Hs as [Hu Hs].
  assert (∀ t, (length t < length (u :: s))%nat → Forall (λ u, 0 ≤ u ≤ 0xFFFF) t →
    utf8Length t = zlen (encodeUtf8 t)) as IH' by (intros; by eapply IH).
  rewrite encodeUtf8_units. cbn [utf8Length]. unfold is_high, is_low.
  destruct (Z.leb_spec u 0x7f).
  { decide_cmp. rewrite zlen_app, utf8_bytes_length. decide_cmp.
    rewrite <- IH'; [done|simpl; lia|done]. }
  destruct (Z.leb_spec u 0x7ff).
  { decide_cmp. rewrite zlen_app, utf8_bytes_length. decide_cmp.
    rewrite <- IH'; [done|simpl; lia|done]. }
  destruct ((0xd800 <=? u) && (u <=? 0xdbff)) eqn:Hhigh.
  - destruct s as [|v s']; [done|]. apply Forall_cons_1 in Hs as [Hv Hs'].
    destruct ((0xdc00 <=? v) && (v <=? 0xdfff)) eqn:Hlow.
    + rewrite zlen_app, utf8_bytes_length. bool_hyps. decide_cmp.
      rewrite <- IH'; [done|simpl; lia|done].
    + rewrite zlen_app, <- IH'; [done|simpl; lia|by constructor].
  - destruct ((0xdc00 <=? u) && (u <=? 0xdfff)).
    + rewrite zlen_app, <- IH'; [done|simpl; lia|done].
    + rewrite zlen_app, utf8_bytes_length. decide_cmp. rewrite <- IH'; [done|simpl; lia|done].
Qed.

Lemma utf8Length_correct_witness :
  utf8Length [0x48; 0xE9; 0xD83D; 0xDE00; 0xD800] =
    zlen (encodeUtf8 [0x48; 0xE9; 0xD83D; 0xDE00; 0xD800]).
Proof. apply utf8Length_correct. repeat constructor; lia. Defined.

Lemma utf8Length_nonneg s : 0 ≤ utf8Length s.
Proof.
  remember (length s) as n eqn:Hn. revert s Hn.
  induction (lt_wf n) as [n _ IH]. intros s ->. destruct s as [|u s]; [done|].
  assert (0 ≤ utf8Length s) by (apply (IH (length s)); [simpl; lia|done]).
  cbn [utf8Length]. destruct s as [|v s']; [repeat case_match; simpl; lia|].
  assert (0 ≤ utf8Length s') by (apply (IH (length s')); [simpl; lia|done]).
  repeat case_match; lia.
Qed.

(** ** The dynamic table *)

Definition table_size (d : list HeaderEntry) : Z := foldr (λ e t, entry_size e + t) 0 d.

Definition table_ok (d : HpackDecoder) : Prop :=
  size d = table_size (dynamic d) ∧ size d ≤ maxSize d ∧ 0 ≤ maxSize d ≤ protocolMax d.

Lemma entry_size_pos e : 32 ≤ entry_size e.
Proof. unfold entry_size, ENTRY_OVERHEAD. zl. Qed.

Lemma table_size_app d k : table_size (d ++ k) = table_size d + table_size k.
Proof. unfold table_size. induction d as [|e d IH]; simpl; [done|]. rewrite IH. lia. Qed.

Lemma table_size_nonneg d : 0 ≤ table_size d.
Proof.
  induction d as [|e d IH]; [done|]. pose proof (entry_size_pos e). simpl. lia.
Qed.

(** Eviction drops the oldest entries one by one and stops at the first size that fits. *)
Lemma evict_spec fuel cond d sz :
  sz = table_size d → (length d ≤ fuel)%nat →
  ∃ k, let '(d', sz') := evict fuel cond d sz in
    d = d' ++ k ∧ sz' = table_size d' ∧ (cond sz' = false ∨ d' = []).
Proof.
  revert d sz. induction fuel as [|n IH]; intros d sz -> Hf; cbn [evict].
  { exists []. rewrite app_nil_r.
    destruct d; [auto|simpl in Hf; lia]. }
  destruct (cond (table_size d) && (0 <? zlen d)) eqn:Hc.
  - apply andb_true_iff in Hc as [_ Hd]. apply Z.ltb_lt in Hd.
    destruct d as [|e d _] using rev_ind; [done|]. rewrite length_app.
    replace (length d + length [e] - 1)%nat with (length d) by (simpl; lia).
    rewrite list_lookup_middle by done. rewrite take_app_length.
    rewrite table_size_app. cbn [table_size foldr].
    replace (table_size d + (entry_size e + 0) - entry_size e) with (table_size d) by lia.
    rewrite length_app in Hf. simpl in Hf.
    destruct (IH d _ eq_refl) as (k & Hev); [lia|].
    exists (k ++ [e]).
    destruct (evict n cond d (table_size d)) as [d' sz'].
    destruct Hev as (-> & ? & ?). rewrite <- app_assoc. auto.
  - exists []. rewrite app_nil_r. split; [done|]. split; [done|].
    apply andb_false_iff in Hc as [?|Hd]; [auto|]. right. apply zlen_0_inv.
    apply Z.ltb_ge in Hd. zl.
Qed.

Lemma applyMaxSize_ok n d : table_ok d → 0 ≤ n → table_ok (fst (applyMaxSize n d)).
Proof.
  intros (Hs & Hm & Hp) Hn. unfold applyMaxSize. destruct (Z.ltb_spec (protocolMax d) n); [done|].
  destruct (evict_spec (length (dynamic d)) (λ sz, n <? sz) _ _ Hs (Nat.le_refl _))
    as (k & Hev).
  destruct (evict _ _ _ _) as [d' sz']. destruct Hev as (Hd & -> & Hstop).
  repeat split; cbn [size dynamic maxSize protocolMax fst]; try lia.
  destruct Hstop as [Hlt| ->]; [by apply Z.ltb_ge in Hlt|done].
Qed.

Lemma hd_insert_ok name value d : table_ok d → table_ok (hd_insert name value d).
Proof.
  intros (Hs & Hm & Hp). unfold hd_insert.
  set (es := zlen name + zlen value + ENTRY_OVERHEAD).
  destruct (evict_spec (length (dynamic d)) (λ sz, maxSize d <? sz + es) _ _ Hs (Nat.le_refl _))
    as (k & Hev).
  destruct (evict _ _ _ _) as [d' sz']. destruct Hev as (Hd & -> & Hstop).
  destruct (Z.leb_spec es (maxSize d)); repeat split;
    cbn [size dynamic maxSize protocolMax]; try done; try lia.
  - change (table_size ((name, value) :: d')) with (es + table_size d'). lia.
  - destruct Hstop as [Hlt| ->]; [apply Z.ltb_ge in Hlt; lia|cbn [table_size foldr]; lia].
Qed.

Lemma setProtocolMaxSize_ok n d :
  table_ok d → 0 ≤ n → table_ok (fst (setProtocolMaxSize n d)) ∧
  snd (setProtocolMaxSize n d) = Ok tt.
Proof.
  intros (Hs & Hm & Hp) Hn. unfold setProtocolMaxSize. cbn [maxSize].
  destruct (Z.ltb_spec n (maxSize d)) as [Hlt|Hge]; [|repeat split; simpl; lia].
  unfold applyMaxSize. cbn [protocolMax dynamic size]. rewrite Z.ltb_irrefl.
  destruct (evict_spec (length (dynamic d)) (λ sz, n <? sz) _ _ Hs (Nat.le_refl _))
    as (k & Hev).
  destruct (evict _ _ _ _) as [d' sz']. destruct Hev as (Hd & -> & Hstop).
  repeat split; cbn [size dynamic maxSize protocolMax fst]; try lia.
  destruct Hstop as [Hlt'| ->]; [by apply Z.ltb_ge in Hlt'|done].
Qed.

(** ** Programs that keep the table invariant, whatever they return *)

Definition keeps {A} (m : Dec A) : Prop := ∀ c, table_ok (dc_d c) → table_ok (dc_d (fst (m c))).

Lemma keeps_bind {A B} (m : Dec A) (f : A → Dec B) :
  keeps m → (∀ a, keeps (f a)) → keeps (m ≫= f).
Proof.
  intros Hm Hf c Hc. unfold mbind, M_bind. specialize (Hm c Hc).
  destruct (m c) as [c' [a|e]]; [by apply Hf|done].
Qed.

Lemma keeps_ret {A} (a : A) : keeps (mret a).
Proof. by intros c. Qed.
Lemma keeps_throw {A} e : keeps (throw e : Dec A).
Proof. by intros c. Qed.
Lemma keeps_state : keeps get_state.
Proof. by intros c. Qed.
Lemma keeps_reader {A} (m : Rd A) : keeps (on_reader m).
Proof. intros c. unfold on_reader. by destruct (m (dc_r c)). Qed.
Lemma keeps_at_index i : keeps (at_index i).
Proof. by intros c. Qed.
Lemma keeps_record l n v : keeps (recordHeader l n v).
Proof. intros c. unfold recordHeader, modify. simpl. by repeat case_match. Qed.
Lemma keeps_insert n v : keeps (on_decoder (modify (hd_insert n v))).
Proof. intros c. apply hd_insert_ok. Qed.

Create HintDb keeps discriminated.
#[export] Hint Resolve keeps_bind keeps_ret keeps_throw keeps_state keeps_reader keeps_at_index
  keeps_record keeps_insert : keeps.

Lemma shl_ones p : 0 ≤ p ≤ 30 → js_shl 1 p - 1 = 2 ^ p - 1.
Proof.
  intros Hp. unfold js_shl. rewrite (to_int32_id 1) by lia. rewrite Z.mod_small by lia.
  rewrite Z.shiftl_1_l. rewrite to_int32_id; [done|].
  assert (2 ^ p ≤ 2 ^ 30) by (apply Z.pow_le_mono_r; lia).
  assert (0 < 2 ^ p) by (apply Z.pow_pos_nonneg; lia). lia.
Qed.

Lemma read_rest_nonneg fuel v s r r' n :
  0 ≤ v → 0 ≤ s → read_rest fuel v s r = (r', Ok n) → 0 ≤ n.
Proof.
  revert v s r. induction fuel as [|k IH]; intros v s r Hv Hs; cbn [read_rest]; [done|].
  intros H. apply bind_inv in H as (r1 & b & _ & H).
  rewrite js_and_127 in H. pose proof (Z.mod_pos_bound b 128).
  assert (0 < 2 ^ s) by (apply Z.pow_pos_nonneg; lia).
  destruct (42 <? s + 7); [done|]. destruct (negb _).
  - eapply IH in H; [done|nia|lia].
  - injection H as _ <-. nia.
Qed.

Lemma readInteger_nonneg p r r' n : 0 ≤ p ≤ 30 → readInteger p r = (r', Ok n) → 0 ≤ n.
Proof.
  intros Hp H. unfold readInteger in H. rewrite shl_ones in H by done.
  apply bind_inv in H as (r1 & b & _ & H). rewrite js_and_ones in H by lia.
  pose proof (Z.mod_pos_bound b (2 ^ p) ltac:(apply Z.pow_pos_nonneg; lia)).
  destruct (_ <? _) eqn:?; [injection H as _ <-; lia|].
  by eapply read_rest_nonneg; [| |exact H]; lia.
Qed.

Lemma keeps_resize :
  keeps (n ← on_reader (readInteger 5); on_decoder (applyMaxSize n)).
Proof.
  intros c Hc. unfold mbind, M_bind, on_reader.
  destruct (readInteger 5 (dc_r c)) as [r' [n|e]] eqn:Hr; [|done].
  apply readInteger_nonneg in Hr; [|lia]. unfold on_decoder. cbn [dc_d].
  pose proof (applyMaxSize_ok n _ Hc Hr) as H. by destruct (applyMaxSize n (dc_d c)).
Qed.

Lemma keeps_literal p : keeps (read_literal p).
Proof.
  unfold read_literal. apply keeps_bind; [auto with keeps|]. intros i.
  destruct (i =? 0); eauto 10 with keeps.
Qed.
#[export] Hint Resolve keeps_literal keeps_resize : keeps.

Lemma keeps_field l : keeps (decode_field l).
Proof.
  unfold decode_field. apply keeps_bind; [auto with keeps|]. intros b.
  destruct (negb _); [|destruct (negb _); [|destruct (negb _)]]; [|auto 10 with keeps..].
  apply keeps_bind; [auto with keeps|]. intros i. destruct (i =? 0); auto with keeps.
Qed.

Lemma keeps_loop fuel l : keeps (decode_loop fuel l).
Proof.
  induction fuel as [|n IH]; cbn [decode_loop]; [auto with keeps|].
  apply keeps_bind; [auto with keeps|]. intros c.
  destruct (0 <? _); [|auto with keeps]. apply keeps_bind; [apply keeps_field|done].
Qed.

(** Whatever bytes a header block holds and whether decoding it returns, throws or is over
    the budget, the dynamic table stays consistent: [size] is the sum of its entry sizes and
    never exceeds [maxSize], which never exceeds the size the settings allow. *)
Theorem hd_decode_table block limits d :
  table_ok d → table_ok (fst (hd_decode block limits d)).
Proof.
  intros Hd. unfold hd_decode.
  pose proof (keeps_loop (length block) limits
    (mkCtx (rd_new block) d [] (mkBudget 0 0 false)) Hd) as H.
  by destruct (decode_loop _ _ _) as [c' x].
Qed.

Lemma hd_decode_table_witness :
  table_ok (fst (hd_decode [0x40; 1; 0x61; 1; 0x62; 0x3f; 0xff] None (hd_new 40))).
Proof. apply hd_decode_table. vm_compute. split; [done|]. split; [done|]. split; done. Defined.

(** ** The header-list budget *)

(** What the list costs the budget, and when a limit admits it. *)
Definition header_cost (h : Header) : Z := utf8Length (h_name h) + utf8Length (h_value h) + 32.
Definition list_cost (hs : list Header) : Z := foldr (λ h t, header_cost h + t) 0 hs.
Definition within (l : HeaderDecodeLimits) (hs : list Header) : bool :=
  (zlen hs <=? maxHeaderCount l) && (list_cost hs <=? maxHeaderListBytes l).

Lemma list_cost_app a b : list_cost (a ++ b) = list_cost a + list_cost b.
Proof. unfold list_cost. induction a as [|h a IH]; simpl; [done|]. rewrite IH. lia. Qed.

Lemma header_cost_pos h : 32 ≤ header_cost h.
Proof.
  unfold header_cost. pose proof (utf8Length_nonneg (h_name h)).
  pose proof (utf8Length_nonneg (h_value h)). lia.
Qed.

(** The bounded run [c] beside the unbounded run [c0]: same reader and table; until the budget
    is exceeded the same headers, afterwards a list that the limit does not admit. *)
Definition budget_sim (l : HeaderDecodeLimits) (c0 c : dec_ctx) : Prop :=
  dc_r c = dc_r c0 ∧ dc_d c = dc_d c0 ∧
  rejected (dc_budget c0) = false ∧
  if rejected (dc_budget c) then within l (dc_headers c0) = false
  else dc_headers c = dc_headers c0 ∧ within l (dc_headers c0) = true ∧
       headerListBytes (dc_budget c) = list_cost (dc_headers c0) ∧
       fieldCount (dc_budget c) = zlen (dc_headers c0).

Definition respects {A} (l : HeaderDecodeLimits) (m0 m : Dec A) : Prop :=
  ∀ c0 c, budget_sim l c0 c →
    snd (m c) = snd (m0 c0) ∧ budget_sim l (fst (m0 c0)) (fst (m c)).

Lemma respects_bind {A B} l (m0 m : Dec A) (f0 f : A → Dec B) :
  respects l m0 m → (∀ a, respects l (f0 a) (f a)) → respects l (m0 ≫= f0) (m ≫= f).
Proof.
  intros Hm Hf c0 c Hc. destruct (Hm c0 c Hc) as [Heq Hs]. unfold mbind, M_bind.
  destruct (m0 c0) as [c0' x0], (m c) as [c' x]. cbn [fst snd] in *. subst x.
  destruct x0 as [a|e]; [by apply Hf|done].
Qed.
Lemma respects_ret {A} l (a : A) : respects l (mret a) (mret a).
Proof. by intros c0 c. Qed.
Lemma respects_throw {A} l e : respects l (throw e : Dec A) (throw e).
Proof. by intros c0 c. Qed.
Lemma respects_reader {A} l (m : Rd A) : respects l (on_reader m) (on_reader m).
Proof.
  intros c0 c (Hr & Hd & H0 & H). unfold on_reader. rewrite Hr. by destruct (m (dc_r c0)).
Qed.
Lemma respects_decoder {A} l (m : M HpackDecoder exn A) :
  respects l (on_decoder m) (on_decoder m).
Proof.
  intros c0 c (Hr & Hd & H0 & H). unfold on_decoder. rewrite Hd. by destruct (m (dc_d c0)).
Qed.
Lemma respects_at_index l i : respects l (at_index i) (at_index i).
Proof. intros c0 c Hc. pose proof Hc as (_ & Hd & _). unfold at_index. by rewrite Hd. Qed.

Lemma within_snoc l hs h :
  within l (hs ++ [h]) = within l hs && negb ((maxHeaderCount l <=? zlen hs) ||
    (maxHeaderListBytes l <? list_cost hs + header_cost h)).
Proof.
  unfold within. rewrite list_cost_app, zlen_app. cbn [list_cost foldr].
  pose proof (header_cost_pos h). change (zlen [h]) with 1.
  repeat match goal with
  | |- context [?a <=? ?b] => destruct (Z.leb_spec a b)
  | |- context [?a <? ?b] => destruct (Z.ltb_spec a b) end; simpl; try done; lia.
Qed.

Lemma respects_record l n v : respects l (recordHeader None n v) (recordHeader (Some l) n v).
Proof.
  intros c0 c (Hr & Hd & H0 & H). unfold recordHeader, modify. cbn [fst snd]. rewrite H0.
  split; [done|]. pose proof (within_snoc l (dc_headers c0) (mkHeader n v false)) as Hw.
  destruct (rejected (dc_budget c)) eqn:Hrej.
  - rewrite H in Hw. split_and!; cbn [dc_r dc_d dc_budget rejected dc_headers]; try done.
    by rewrite Hrej.
  - destruct H as (Hh & Hin & -> & ->). rewrite Hin in Hw. cbn [andb] in Hw.
    unfold header_cost in Hw. cbn [h_name h_value] in Hw.
    replace (list_cost (dc_headers c0) + (utf8Length n + utf8Length v + 32))
      with (list_cost (dc_headers c0) + utf8Length n + utf8Length v + ENTRY_OVERHEAD) in Hw
      by (unfold ENTRY_OVERHEAD; lia).
    unfold budget_sim.
    cbn [dc_r dc_d dc_budget rejected dc_headers headerListBytes fieldCount].
    split_and!; [done..|]. destruct (_ || _); [done|].
    split_and!; [by rewrite Hh|done| |by rewrite zlen_app].
    rewrite list_cost_app. unfold ENTRY_OVERHEAD. cbn. unfold header_cost. simpl. lia.
Qed.

Create HintDb respects discriminated.
#[export] Hint Resolve respects_bind respects_ret respects_throw respects_reader
  respects_decoder respects_at_index respects_record : respects.

Lemma respects_literal l p : respects l (read_literal p) (read_literal p).
Proof.
  unfold read_literal. apply respects_bind; [auto with respects|]. intros i.
  destruct (i =? 0); eauto 10 with respects.
Qed.
#[export] Hint Resolve respects_literal : respects.

Lemma respects_field l : respects l (decode_field None) (decode_field (Some l)).
Proof.
  unfold decode_field. apply respects_bind; [auto with respects|]. intros b.
  destruct (negb _); [|destruct (negb _); [|destruct (negb _)]]; [|auto 10 with respects..].
  apply respects_bind; [auto with respects|]. intros i. destruct (i =? 0); auto with respects.
Qed.

Lemma respects_loop fuel l : respects l (decode_loop fuel None) (decode_loop fuel (Some l)).
Proof.
  induction fuel as [|n IH]; cbn [decode_loop]; [auto with respects|].
  intros c0 c Hc. pose proof Hc as (Hr & _).
  rewrite (bind_ok _ get_state c0 c0 c0 eq_refl), (bind_ok _ get_state c c c eq_refl), Hr.
  destruct (0 <? remaining (dc_r c0)); [|by apply respects_ret].
  eapply respects_bind; [apply respects_field|done|done].
Qed.

(** The header-list budget only filters.  For every block and decoder, decoding with
    limits updates the dynamic table exactly as decoding without them (so a rejected request
    cannot desynchronise the compression state), fails where it fails, returns the same list
    when that list is within both limits, and otherwise throws [ENHANCE_YOUR_CALM] for the
    stream. *)
Theorem hd_decode_limits block l d :
  0 ≤ maxHeaderCount l → 0 ≤ maxHeaderListBytes l →
  hd_decode block (Some l) d =
    match hd_decode block None d with
    | (d', Throw e) => (d', Throw e)
    | (d', Ok hs) =>
        (d', if within l hs then Ok hs
             else Throw (EH2 (mkH2Error ENHANCE_YOUR_CALM (limits_streamId l) None)))
    end.
Proof.
  intros Hn Hb. unfold hd_decode.
  set (c := mkCtx _ _ _ _).
  assert (budget_sim l c c) as Hc.
  { split_and!; [done..|]. unfold c. cbn. split_and!; try done.
    unfold within. rewrite zlen_nil. cbn [list_cost foldr].
    by rewrite !(proj2 (Z.leb_le 0 _)) by done. }
  destruct (respects_loop (length block) l c c Hc) as [Hx (Hr & Hd & H0 & H)].
  destruct (decode_loop _ None c) as [c0 x0], (decode_loop _ (Some l) c) as [c1 x1].
  cbn [fst snd] in *. subst x1. rewrite Hd. destruct x0 as [u|e]; [|done]. rewrite H0.
  destruct (rejected (dc_budget c1)); [by rewrite H|]. destruct H as (-> & -> & _). done.
Qed.

Lemma hd_decode_limits_witness :
  hd_decode [0x82; 0x40; 1; 0x61; 1; 0x62; 0x84] (Some (mkLimits 100 10 (Some 3))) (hd_new 4096) =
    (mkDecoder [(js "a", js "b")] 34 4096 4096,
     Throw (EH2 (mkH2Error ENHANCE_YOUR_CALM (Some 3) None))).
Proof. rewrite hd_decode_limits by (cbn; lia). vm_compute. reflexivity. Defined.

(** ** The fuel of the loops is enough *)

(** More rounds of [read_rest] than it takes to shift past 42 bits change nothing. *)
Lemma read_rest_step n v s r :
  read_rest (S n) v s r =
    match rd_u8 r with
    | (r', Throw e) => (r', Throw e)
    | (r', Ok byte) =>
        if 42 <? s + 7 then (r', Throw compression_error)
        else if negb (js_and byte 0x80 =? 0)
        then read_rest n (v + js_and byte 0x7f * 2 ^ s) (s + 7) r'
        else (r', Ok (v + js_and byte 0x7f * 2 ^ s))
    end.
Proof.
  cbn [read_rest]. unfold mbind, M_bind. destruct (rd_u8 r) as [r' [b|e]]; [|done].
  destruct (42 <? s + 7); [done|]. by destruct (negb _).
Qed.

Lemma read_rest_fuel n v s r :
  42 < s + 7 * Z.of_nat (S n) → read_rest (S (S n)) v s r = read_rest (S n) v s r.
Proof.
  revert v s r. induction n as [|n IH]; intros v s r Hs; rewrite read_rest_step;
    symmetry; rewrite read_rest_step; symmetry;
    destruct (rd_u8 r) as [r' [b|e]]; try done; destruct (Z.ltb_spec 42 (s + 7)); try done; [lia|].
  destruct (negb _); [|done]. apply IH. lia.
Qed.

(** Reading never moves backwards, and an integer takes at least one byte. *)
Definition forward {A} (k : Z) (m : Rd A) : Prop := ∀ r r' a,
  m r = (r', Ok a) → rd_buf r' = rd_buf r ∧ rd_cursor r + k ≤ rd_cursor r'.

Lemma forward_bind {A B} k j (m : Rd A) (f : A → Rd B) :
  forward k m → (∀ a, forward j (f a)) → forward (k + j) (m ≫= f).
Proof.
  intros Hm Hf r r' b H. apply bind_inv in H as (r1 & a & H1 & H2).
  destruct (Hm _ _ _ H1) as [Hb1 Hc1], (Hf _ _ _ _ H2) as [Hb2 Hc2]. split; [congruence|lia].
Qed.
Lemma forward_weaken {A} k j (m : Rd A) : j ≤ k → forward k m → forward j m.
Proof. intros Hj Hm r r' a H. destruct (Hm _ _ _ H). split; [done|lia]. Qed.
Lemma forward_ret {A} (a : A) : forward 0 (mret a : Rd A).
Proof. intros r r' x [= <- _]. split; [done|lia]. Qed.
Lemma forward_throw {A} k e : forward k (throw e : Rd A).
Proof. by intros r r' x. Qed.
Lemma forward_state : forward 0 (get_state : Rd ByteReader).
Proof. intros r r' x [= <- _]. split; [done|lia]. Qed.

Lemma getUint8_state i r : fst (getUint8 i r) = r.
Proof. unfold getUint8. by repeat case_match. Qed.
Lemma forward_peek : forward 0 rd_peek.
Proof.
  intros r r' a H. unfold rd_peek in H. pose proof (getUint8_state (rd_cursor r) r) as Hs.
  rewrite H in Hs. cbn in Hs. subst. split; [done|lia].
Qed.
Lemma forward_u8 : forward 1 rd_u8.
Proof.
  intros r r' a H. unfold rd_u8 in H. apply bind_inv in H as (r1 & b & H1 & H2).
  pose proof (getUint8_state (rd_cursor r) r) as Hs. rewrite H1 in Hs. cbn in Hs. subst r1.
  injection H2 as <- _. cbn. split; [done|lia].
Qed.

Lemma forward_rest n v s : forward 0 (read_rest n v s).
Proof.
  revert v s. induction n as [|n IH]; intros v s; cbn [read_rest]; [apply forward_throw|].
  apply (forward_weaken (1 + 0)); [lia|]. apply forward_bind; [apply forward_u8|]. intros b.
  cbv zeta. destruct (42 <? s + 7); [apply forward_throw|].
  destruct (negb _); [apply IH|apply forward_ret].
Qed.

Lemma forward_integer p : forward 1 (readInteger p).
Proof.
  unfold readInteger. apply (forward_bind 1 0); [apply forward_u8|]. intros b.
  destruct (_ <? _); [apply forward_ret|apply forward_rest].
Qed.

Lemma forward_string : forward 0 readString.
Proof.
  unfold readString. apply (forward_bind 0 0); [apply forward_peek|]. intros b.
  intros r r' s H. apply bind_inv in H as (r1 & n & H1 & H2).
  pose proof (readInteger_nonneg 7 r r1 n ltac:(lia) H1) as Hn.
  destruct (forward_integer 7 _ _ _ H1) as [Hb1 Hc1].
  rewrite (bind_ok _ get_state _ _ _ eq_refl) in H2. destruct (remaining r1 <? n); [done|].
  apply bind_inv in H2 as (r2 & bs & H2 & H3). injection H2 as <- _.
  apply bind_inv in H3 as (r3 & raw & H3 & H4). injection H4 as <- _.
  destruct (if negb _ then _ else _) as [x|e]; [|done]. injection H3 as <- _.
  cbn [rd_buf rd_cursor]. split; [done|lia].
Qed.

Definition advances {A} (k : Z) (m : Dec A) : Prop := ∀ c c' a,
  m c = (c', Ok a) →
  rd_buf (dc_r c') = rd_buf (dc_r c) ∧ rd_cursor (dc_r c) + k ≤ rd_cursor (dc_r c').

Lemma advances_bind {A B} k (m : Dec A) (f : A → Dec B) :
  advances k m → (∀ a, advances 0 (f a)) → advances k (m ≫= f).
Proof.
  intros Hm Hf c c' b H. apply bind_inv in H as (c1 & a & H1 & H2).
  destruct (Hm _ _ _ H1) as [Hb1 Hc1], (Hf _ _ _ _ H2) as [Hb2 Hc2]. split; [congruence|lia].
Qed.
Lemma advances_weaken {A} (m : Dec A) : advances 1 m → advances 0 m.
Proof. intros Hm c c' a H. destruct (Hm _ _ _ H). split; [done|lia]. Qed.
Lemma advances_ret {A} (a : A) : advances 0 (mret a : Dec A).
Proof. intros c c' x [= <- _]. split; [done|lia]. Qed.
Lemma advances_reader {A} k (m : Rd A) : forward k m → advances k (on_reader m).
Proof.
  intros Hm c c' a H. unfold on_reader in H. destruct (m (dc_r c)) as [r x] eqn:Hr.
  injection H as <- ->. by apply (Hm _ _ _ Hr).
Qed.
Lemma advances_decoder {A} (m : M HpackDecoder exn A) : advances 0 (on_decoder m).
Proof.
  intros c c' a H. unfold on_decoder in H. destruct (m (dc_d c)) as [d x].
  injection H as <- _. split; [done|cbn [dc_r]; lia].
Qed.
Lemma advances_index i : advances 0 (at_index i).
Proof. intros c c' a [= <- _]. split; [done|lia]. Qed.
Lemma advances_record l n v : advances 0 (recordHeader l n v).
Proof.
  intros c c' a [= <-]. split; [by case_match|]. destruct (rejected _); cbn [dc_r]; lia.
Qed.
Lemma advances_throw {A} k e : advances k (throw e : Dec A).
Proof. by intros c c' a. Qed.

Create HintDb advances discriminated.
#[export] Hint Resolve advances_bind advances_ret advances_reader advances_decoder advances_index
  advances_record advances_throw forward_integer forward_string forward_peek : advances.

Lemma advances_literal p : advances 1 (read_literal p).
Proof.
  unfold read_literal. apply advances_bind; [auto with advances|]. intros i.
  destruct (i =? 0); auto 10 with advances.
Qed.
#[export] Hint Resolve advances_literal : advances.

(** One round of the loop consumes at least one byte. *)
Lemma advances_field l : advances 1 (decode_field l).
Proof.
  unfold decode_field. intros c c' a H. apply bind_inv in H as (c1 & b & H1 & H2).
  destruct (advances_reader 0 _ forward_peek _ _ _ H1) as [Hb1 Hc1].
  enough (advances 1 (if negb (js_and b 0x80 =? 0) then
      index ← on_reader (readInteger 7);
      if index =? 0 then throw compression_error
      else e ← at_index index; recordHeader l (fst e) (snd e)
    else if negb (js_and b 0x40 =? 0) then
      nv ← read_literal 6;
      on_decoder (modify (hd_insert (fst nv) (snd nv)));; recordHeader l (fst nv) (snd nv)
    else if negb (js_and b 0x20 =? 0) then
      n ← on_reader (readInteger 5); on_decoder (applyMaxSize n)
    else nv ← read_literal 4; recordHeader l (fst nv) (snd nv))) as Hadv.
  { destruct (Hadv _ _ _ H2) as [Hb2 Hc2]. split; [congruence|lia]. }
  destruct (negb _); [|destruct (negb _); [|destruct (negb _)]]; [|auto 10 with advances..].
  apply advances_bind; [auto with advances|]. intros i.
  destruct (i =? 0); auto with advances.
Qed.

(** Fuel beyond the bytes that remain changes nothing: [decode] is total and [length block]
    rounds are enough. *)
Lemma decode_loop_done n l c :
  remaining (dc_r c) ≤ Z.of_nat n → decode_loop (S n) l c = decode_loop n l c.
Proof.
  revert c. induction n as [|n IH]; intros c Hc.
  - cbn [decode_loop]. rewrite (bind_ok _ get_state _ _ _ eq_refl).
    by rewrite (proj2 (Z.ltb_ge _ _)) by lia.
  - change (decode_loop (S (S n)) l) with (c ← get_state;
      if 0 <? remaining (dc_r c) then decode_field l;; decode_loop (S n) l else mret tt).
    change (decode_loop (S n) l c) with ((c ← get_state;
      if 0 <? remaining (dc_r c) then decode_field l;; decode_loop n l else mret tt) c).
    rewrite !(bind_ok _ get_state _ _ _ eq_refl).
    destruct (0 <? remaining (dc_r c)); [|done].
    unfold mbind, M_bind. destruct (decode_field l c) as [c' [u|e]] eqn:Hf; [|done].
    apply IH. destruct (advances_field l _ _ _ Hf) as [Hb Hcur].
    unfold remaining in *. rewrite Hb. lia.
Qed.
