(* ===== verification/HpackRoundtrip.v ===== *)
(** * HpackRoundtrip: what the HPACK encoder writes, the decoder reads back

    Proved against the [ByteSink] interface, so for every writer that appends. *)
From S2P Require Import Prelude Errors Text Bytes HpackTables Huffman HuffmanCorrect Hpack.
From S2P Require Import HpackCorrect.
Local Open Scope Z_scope.

#[local] Opaque HUFFMAN_CODES ROOT STATIC_TABLE staticPairToIndex staticNameToIndex
  huffmanEncode huffmanDecode encodeUtf8 decodeUtf8.

(** ** The bytes of prefix integers and strings *)

Fixpoint rest_bytes (fuel : nat) (rest : Z) : bytes :=
  match fuel with
  | O => [rest mod 256]
  | S fuel' => if 128 <=? rest then (rest mod 128 + 128) :: rest_bytes fuel' (rest / 128)
               else [rest mod 256]
  end.

Definition int_bytes (value prefixBits flags : Z) : bytes :=
  let max := 2 ^ prefixBits - 1 in
  if value <? max then [flags + value]
  else (flags + max) :: rest_bytes (Z.to_nat (Z.log2 (value - max))) (value - max).

Definition str_bytes (s : jsstring) : bytes :=
  let raw := encodeUtf8 s in
  if huffmanShorter raw then int_bytes (zlen (huffmanEncode raw)) 7 0x80 ++ huffmanEncode raw
  else int_bytes (zlen raw) 7 0x00 ++ raw.

Definition header_bytes (h : Header) : bytes :=
  let name := toLowerCase (h_name h) in
  match staticPairToIndex !! pair_key name (h_value h) with
  | Some i => int_bytes i 7 0x80
  | None =>
      let flags := if h_neverIndex h then 0x10 else 0x00 in
      match staticNameToIndex !! name with
      | Some i => int_bytes i 4 flags
      | None => int_bytes 0 4 flags ++ str_bytes name
      end ++ str_bytes (h_value h)
  end.

(** A flag byte [a * 2^p] that leaves the prefix bits free. *)
Definition flag_ok (p flags : Z) : Prop := ∃ a, flags = a * 2 ^ p ∧ 0 ≤ flags ≤ 256 - 2 ^ p.

Lemma flags_80 : flag_ok 7 0x80.
Proof. exists 1. lia. Qed.
Lemma flags_00 p : 0 ≤ p ≤ 7 → flag_ok p 0.
Proof.
  intros Hp. exists 0. assert (2 ^ p ≤ 2 ^ 7) by (apply Z.pow_le_mono_r; lia). lia.
Qed.
Lemma flags_literal (b : bool) : flag_ok 4 (if b then 0x10 else 0x00).
Proof. exists (if b then 1 else 0). destruct b; lia. Qed.
#[local] Hint Resolve flags_80 flags_00 flags_literal : core.

Section written.
Context {W : Type} `{ByteSinkLaws W}.

Lemma write_rest_bytes fuel rest w :
  sink_ok w →
  sink_ok (write_rest fuel rest w) ∧
  sink_take (write_rest fuel rest w) = sink_take w ++ rest_bytes fuel rest.
Proof.
  revert rest w. induction fuel as [|n IH]; intros rest w Hw; cbn [write_rest rest_bytes].
  { split; [auto with sink|by rewrite sink_u8_take]. }
  destruct (Z.leb_spec 128 rest); [|split; [auto with sink|by rewrite sink_u8_take]].
  destruct (IH (rest / 128) (sink_u8 (rest mod 128 + 128) w)) as [Hok ->]; [auto with sink|].
  split; [done|]. rewrite sink_u8_take, <- app_assoc by done. cbn [app].
  rewrite (Z.mod_small (rest mod 128 + 128)); [done|]. pose proof (Z.mod_pos_bound rest 128). lia.
Qed.

Lemma first_byte p flags x :
  0 ≤ p ≤ 7 → flag_ok p flags → 0 ≤ x < 2 ^ p → js_or flags x mod 256 = flags + x.
Proof.
  intros Hp (a & -> & Ha) Hx. unfold js_or. rewrite !to_int32_id by lia.
  rewrite lor_add by lia. apply Z.mod_small. lia.
Qed.

Lemma writeInteger_bytes v p flags w :
  0 ≤ v → 0 ≤ p ≤ 7 → flag_ok p flags → sink_ok w →
  sink_ok (writeInteger v p flags w) ∧
  sink_take (writeInteger v p flags w) = sink_take w ++ int_bytes v p flags.
Proof.
  intros Hv Hp Hf Hw. unfold writeInteger, int_bytes. rewrite shl_ones by lia.
  assert (0 < 2 ^ p) by (apply Z.pow_pos_nonneg; lia).
  destruct (Z.ltb_spec v (2 ^ p - 1)).
  - split; [auto with sink|]. rewrite sink_u8_take, (first_byte p) by (done || lia). done.
  - match goal with |- context [write_rest ?n ?r ?w'] =>
      destruct (write_rest_bytes n r w') as [Hok ->]; [auto with sink|] end.
    split; [done|]. rewrite sink_u8_take, (first_byte p), <- app_assoc by (done || lia). done.
Qed.

Lemma writeString_bytes s w :
  sink_ok w →
  sink_ok (writeString s w) ∧ sink_take (writeString s w) = sink_take w ++ str_bytes s.
Proof.
  intros Hw. unfold writeString, str_bytes.
  destruct (huffmanShorter (encodeUtf8 s));
    (match goal with |- context [writeInteger ?v 7 ?f ?w0] =>
       destruct (writeInteger_bytes v 7 f w0) as [Hok Ht];
         [apply zlen_nonneg|lia|auto with lia|done|] end;
     split; [auto with sink|]; rewrite sink_bytes_take, Ht, <- app_assoc by done; done).
Qed.
End written.

(** ** Reading them back *)

Lemma bit_80 b : is_byte b → (js_and b 0x80 =? 0) = (b <? 128).
Proof.
  intros Hb. apply eqb_prop. revert b Hb.
  apply (forallb_bytes (λ b, Bool.eqb _ _)). vm_compute. reflexivity.
Qed.
Lemma bit_40_20 b : is_byte b → b < 32 → (js_and b 0x40 =? 0) && (js_and b 0x20 =? 0) = true.
Proof.
  intros Hb Hlt.
  assert (implb (b <? 32) ((js_and b 0x40 =? 0) && (js_and b 0x20 =? 0)) = true) as H.
  { revert b Hb Hlt. intros b Hb _. revert b Hb.
    apply (forallb_bytes (λ b, implb _ _)). vm_compute. reflexivity. }
  by rewrite (proj2 (Z.ltb_lt _ _) Hlt) in H.
Qed.

(** [k] groups of seven bits are read back by [k] rounds; six fit below the limit of 42. *)
Lemma read_rest_rdr k n fuel rest v s pre post :
  0 ≤ rest < 2 ^ (7 * Z.of_nat k) → rest < 128 * 2 ^ Z.of_nat fuel →
  0 ≤ s → s + 7 * Z.of_nat k ≤ 42 → (0 < k ≤ n)%nat →
  read_rest n v s (rdr pre (rest_bytes fuel rest ++ post)) =
    (rdr (pre ++ rest_bytes fuel rest) post, Ok (v + rest * 2 ^ s)).
Proof.
  revert n fuel rest v s pre. induction k as [|k IH]; intros n fuel rest v s pre Hr Hf Hs Hk Hn;
    [lia|].
  destruct n as [|n]; [lia|]. cbn [read_rest].
  destruct (decide (128 ≤ rest)) as [Hbig|Hsmall].
  - destruct fuel as [|fuel]; [lia|]. cbn [rest_bytes].
    rewrite (proj2 (Z.leb_le 128 rest)) by done. cbn [app].
    rewrite (bind_ok _ _ _ _ _ (rd_u8_rdr _ _ _)). pose proof (Z.mod_pos_bound rest 128).
    rewrite (proj2 (Z.ltb_ge 42 (s + 7))) by lia.
    rewrite bit_80 by (unfold is_byte; lia). rewrite (proj2 (Z.ltb_ge _ 128)) by lia. cbn [negb].
    rewrite js_and_127. replace ((rest mod 128 + 128) mod 128) with (rest mod 128)
      by (Z.to_euclidean_division_equations; lia).
    rewrite Nat2Z.inj_succ in Hf. rewrite Z.pow_succ_r in Hf by lia.
    assert (rest / 128 < 2 ^ (7 * Z.of_nat k)).
    { apply Z.div_lt_upper_bound; [lia|]. change 128 with (2 ^ 7).
      rewrite <- Z.pow_add_r by lia. replace (7 + 7 * Z.of_nat k) with (7 * Z.of_nat (S k)) by lia.
      lia. }
    assert (k ≠ 0%nat) by (intros ->; Z.to_euclidean_division_equations; lia).
    rewrite IH; [|split; [apply Z.div_pos; lia|done]| |lia|lia|lia].
    + rewrite <- app_assoc. cbn [app]. do 2 f_equal. rewrite Z.pow_add_r by lia.
      change (2 ^ 7) with 128. rewrite (Z_div_mod_eq_full rest 128) at 3. ring.
    + apply Z.div_lt_upper_bound; lia.
  - assert (rest_bytes fuel rest = [rest]) as ->.
    { destruct fuel; cbn [rest_bytes]; rewrite ?(proj2 (Z.leb_gt 128 rest)) by lia;
        by rewrite Z.mod_small by lia. }
    cbn [app]. rewrite (bind_ok _ _ _ _ _ (rd_u8_rdr _ _ _)).
    rewrite (proj2 (Z.ltb_ge 42 (s + 7))) by lia.
    rewrite bit_80 by (unfold is_byte; lia). rewrite (proj2 (Z.ltb_lt _ 128)) by lia. cbn [negb].
    rewrite js_and_127, Z.mod_small by lia. done.
Qed.

Lemma readInteger_rdr v p flags pre post :
  0 ≤ v < 2 ^ 42 → 1 ≤ p ≤ 7 → flag_ok p flags →
  readInteger p (rdr pre (int_bytes v p flags ++ post)) =
    (rdr (pre ++ int_bytes v p flags) post, Ok v).
Proof.
  intros Hv Hp (a & -> & Ha). unfold readInteger, int_bytes. rewrite shl_ones by lia.
  assert (0 < 2 ^ p) by (apply Z.pow_pos_nonneg; lia).
  assert (∀ x, 0 ≤ x < 2 ^ p → js_and (a * 2 ^ p + x) (2 ^ p - 1) = x) as Hand.
  { intros x Hx. rewrite js_and_ones by lia. rewrite Z.add_comm, Z_mod_plus_full.
    by apply Z.mod_small. }
  destruct (Z.ltb_spec v (2 ^ p - 1)); cbn [app];
    rewrite (bind_ok _ _ _ _ _ (rd_u8_rdr _ _ _)), Hand by lia.
  - by rewrite (proj2 (Z.ltb_lt _ _)) by lia.
  - rewrite Z.ltb_irrefl. set (rest := v - (2 ^ p - 1)). rewrite (read_rest_rdr 6); try lia.
    + rewrite <- app_assoc. cbn [app]. do 2 f_equal. lia.
    + destruct (decide (rest = 0)) as [->|]; [done|].
      rewrite Z2Nat.id by apply Z.log2_nonneg.
      pose proof (Z.log2_spec rest ltac:(lia)) as [_ Hl]. rewrite Z.pow_succ_r in Hl
        by apply Z.log2_nonneg. lia.
Qed.

Lemma int_bytes_head v p flags :
  0 ≤ v → 1 ≤ p ≤ 7 → flag_ok p flags →
  ∃ b bs, int_bytes v p flags = b :: bs ∧ flags ≤ b < flags + 2 ^ p ∧ is_byte b.
Proof.
  intros Hv Hp (a & -> & Ha). unfold int_bytes, is_byte.
  assert (0 < 2 ^ p) by (apply Z.pow_pos_nonneg; lia).
  destruct (Z.ltb_spec v (2 ^ p - 1)); do 2 eexists; split; try done; lia.
Qed.

(** ** Strings *)

(** A string that UTF-8 carries unchanged through [TextEncoder] and [TextDecoder]: no unpaired
    surrogate, no leading byte order mark (which the decoder strips).  The length bound keeps
    the bit positions of the Huffman coder inside 32 bits. *)
Definition sendable (s : jsstring) : bool :=
  well_formed s && bool_decide (head s ≠ Some BOM) && (zlen (encodeUtf8 s) <? 2 ^ 26).

Lemma code_of_30 sym : snd (code_of sym) ≤ 30.
Proof.
  unfold code_of. destruct (HUFFMAN_CODES !! Z.to_nat sym) as [e|] eqn:E; [|done].
  cbn. assert (forallb (λ e, snd e <=? 30) HUFFMAN_CODES = true) as Hb by (vm_compute; reflexivity).
  apply Z.leb_le, (forallb_elem _ _ _ Hb). by eapply list_elem_of_lookup_2.
Qed.

Lemma huffman_bits_bound s : zlen (huffman_bits s) ≤ 30 * zlen s.
Proof.
  induction s as [|b s IH]; [done|]. rewrite huffman_bits_cons, zlen_app, zlen_sym_bits, zlen_cons.
  pose proof (code_of_30 b). lia.
Qed.

Lemma encodeUtf8_bytes s : Forall (λ u, 0 ≤ u ≤ 0xFFFF) s → Forall is_byte (encodeUtf8 s).
Proof.
  intros Hs. Transparent encodeUtf8. unfold encodeUtf8. Opaque encodeUtf8.
  apply code_points_scalar in Hs.
  induction Hs as [|c cs Hc _ IH]; [constructor|].
  csimpl. apply Forall_app_2; [by apply utf8_bytes_ok|done].
Qed.

Lemma str_bytes_head s : ∃ b bs, str_bytes s = b :: bs.
Proof.
  unfold str_bytes.
  destruct (huffmanShorter (encodeUtf8 s));
    (match goal with |- context [int_bytes ?v 7 ?f] =>
       destruct (int_bytes_head v 7 f) as (b & bs & -> & _);
         [apply zlen_nonneg|lia|auto with lia|] end; cbn [app]; eauto).
Qed.

Lemma read_body f s raw (l : bytes) pre post :
  flag_ok 7 f → (f = 0x80 ∨ f = 0) → zlen l < 2 ^ 42 →
  (if f =? 0x80 then huffmanDecode l else Ok l) = Ok raw → decodeUtf8 raw = s →
  readString (rdr pre (int_bytes (zlen l) 7 f ++ l ++ post)) =
    (rdr (pre ++ int_bytes (zlen l) 7 f ++ l) post, Ok s).
Proof.
  intros Hf Hf2 Hl Hraw Hs. pose proof (zlen_nonneg l).
  destruct (int_bytes_head (zlen l) 7 f) as (b & bs & Hib & Hb & Hbyte); [lia..|done|].
  unfold readString. rewrite Hib at 1. cbn [app]. rewrite (bind_ok _ _ _ _ _ (rd_peek_rdr _ _ _)).
  replace (rdr pre (b :: bs ++ l ++ post)) with (rdr pre (int_bytes (zlen l) 7 f ++ l ++ post))
    by (rewrite Hib; done).
  rewrite (bind_ok _ _ _ _ _ (readInteger_rdr (zlen l) 7 f _ _ ltac:(lia) ltac:(lia) Hf)).
  rewrite (bind_ok _ get_state _ _ _ eq_refl), remaining_rdr.
  rewrite (proj2 (Z.ltb_ge _ _)) by zl.
  rewrite (bind_ok _ _ _ _ _ (rd_bytes_rdr _ _ _)), bit_80 by done.
  replace (negb (b <? 128)) with (f =? 0x80).
  2:{ destruct Hf2 as [-> | ->]; cbn; [destruct (Z.ltb_spec b 128)|destruct (Z.ltb_spec b 128)];
      done || lia. }
  rewrite Hraw. cbn [lift_result]. rewrite bind_ret. unfold mret, M_ret.
  by rewrite Hs, <- app_assoc.
Qed.

Lemma readString_rdr s pre post :
  sendable s = true →
  readString (rdr pre (str_bytes s ++ post)) = (rdr (pre ++ str_bytes s) post, Ok s).
Proof.
  unfold sendable. rewrite !andb_true_iff, bool_decide_eq_true, Z.ltb_lt.
  intros [[Hwf Hbom] Hlen]. pose proof (decode_encode_utf8 s Hwf Hbom) as Hdec.
  unfold str_bytes. set (raw := encodeUtf8 s) in *.
  assert (Forall is_byte raw) as Hbytes by (apply encodeUtf8_bytes, well_formed_units, Hwf).
  pose proof (huffman_bits_bound raw). pose proof (zlen_nonneg raw).
  destruct (huffmanShorter raw); rewrite <- app_assoc.
  - destruct (huffmanEncode_bits raw) as (_ & _ & Hl); [rewrite encodedBitLength_spec; lia|].
    rewrite encodedBitLength_spec in Hl.
    apply (read_body 0x80 s raw); [auto|auto|Z.to_euclidean_division_equations; lia| |done].
    apply huffman_decode_encode; [done|lia].
  - apply (read_body 0 s raw); [auto with lia|auto|lia|done|done].
Qed.

(** ** The static table maps *)

Definition no_nul (s : jsstring) : bool := forallb (λ u, negb (u =? 0)) s.

Lemma static_names_no_nul :
  forallb (λ e, no_nul (fst e)) STATIC_TABLE = true.
Proof. vm_compute. reflexivity. Qed.

Definition static_at (i : Z) : HeaderEntry := default ([], []) (STATIC_TABLE !! Z.to_nat (i - 1)).

Lemma static_pairs_check :
  forallb (λ '(k, i), (1 <=? i) && (i <=? STATIC_TABLE_LENGTH) && no_nul (fst (static_at i)) &&
    bool_decide (k = pair_key (fst (static_at i)) (snd (static_at i))))
    (map_to_list staticPairToIndex) = true.
Proof. vm_compute. reflexivity. Qed.

Lemma static_names_check :
  forallb (λ '(k, i), (1 <=? i) && (i <=? STATIC_TABLE_LENGTH) &&
    bool_decide (k = fst (static_at i)))
    (map_to_list staticNameToIndex) = true.
Proof. vm_compute. reflexivity. Qed.

Lemma entryAt_static d i : 1 ≤ i ≤ STATIC_TABLE_LENGTH → entryAt d i = Ok (static_at i).
Proof.
  intros [H1 H2]. unfold entryAt. by rewrite (proj2 (Z.leb_le _ _) H1), (proj2 (Z.leb_le _ _) H2).
Qed.

Lemma pair_key_inj n v n' v' :
  no_nul n = true → no_nul n' = true → pair_key n v = pair_key n' v' → n = n' ∧ v = v'.
Proof.
  unfold pair_key. revert n'. induction n as [|u n IH]; intros [|u' n'] Hn Hn' H; cbn in *.
  - by injection H as ->.
  - injection H as <- _. done.
  - injection H as -> _. done.
  - injection H as -> H. apply andb_true_iff in Hn as [_ Hn]. apply andb_true_iff in Hn' as [_ Hn'].
    destruct (IH n' Hn Hn' H) as [-> ->]. done.
Qed.

Lemma static_pair name value i :
  no_nul name = true → staticPairToIndex !! pair_key name value = Some i →
  1 ≤ i ≤ STATIC_TABLE_LENGTH ∧ static_at i = (name, value).
Proof.
  intros Hn Hi. apply elem_of_map_to_list in Hi.
  pose proof (forallb_elem _ _ _ static_pairs_check Hi) as H. cbn in H.
  rewrite !andb_true_iff, !Z.leb_le, bool_decide_eq_true in H. destruct H as [[[H1 H2] H3] H4].
  apply pair_key_inj in H4 as [-> ->]; [|done..]. by destruct (static_at i).
Qed.

Lemma static_name name i :
  staticNameToIndex !! name = Some i → 1 ≤ i ≤ STATIC_TABLE_LENGTH ∧ fst (static_at i) = name.
Proof.
  intros Hi. apply elem_of_map_to_list in Hi.
  pose proof (forallb_elem _ _ _ static_names_check Hi) as H. cbn in H.
  rewrite !andb_true_iff, !Z.leb_le, bool_decide_eq_true in H. destruct H as [[H1 H2] ->]. done.
Qed.

(** ** Headers *)

Lemma length_61 : STATIC_TABLE_LENGTH = 61.
Proof. reflexivity. Qed.

Lemma encode_header_bytes {W} `{ByteSinkLaws W} h w :
  no_nul (toLowerCase (h_name h)) = true → sink_ok w →
  sink_ok (encode_header h w) ∧ sink_take (encode_header h w) = sink_take w ++ header_bytes h.
Proof.
  intros Hn Hw. unfold encode_header, header_bytes. set (name := toLowerCase (h_name h)) in *.
  destruct (staticPairToIndex !! _) as [i|] eqn:Hp.
  { apply static_pair in Hp as [Hi _]; [|done]. apply writeInteger_bytes; [lia|lia|auto|done]. }
  set (flags := if h_neverIndex h then 0x10 else 0x00).
  assert (flag_ok 4 flags) as Hf by apply flags_literal.
  destruct (staticNameToIndex !! name) as [i|] eqn:Hm.
  - apply static_name in Hm as [Hi _].
    destruct (writeInteger_bytes i 4 flags w) as [Hok Ht]; [lia|lia|done|done|].
    destruct (writeString_bytes (h_value h) (writeInteger i 4 flags w) Hok) as [Hok2 Ht2].
    split; [done|]. by rewrite Ht2, Ht, <- app_assoc.
  - destruct (writeInteger_bytes 0 4 flags w) as [Hok Ht]; [lia|lia|done|done|].
    destruct (writeString_bytes name (writeInteger 0 4 flags w) Hok) as [Hok1 Ht1].
    destruct (writeString_bytes (h_value h) _ Hok1) as [Hok2 Ht2].
    split; [done|]. by rewrite Ht2, Ht1, Ht, <- !app_assoc.
Qed.

Definition encodable (h : Header) : bool :=
  no_nul (toLowerCase (h_name h)) && sendable (toLowerCase (h_name h)) && sendable (h_value h).

(** What the peer sees of a header: the name in lower case; the never-index bit is not
    reported by the decoder. *)
Definition received (h : Header) : Header := mkHeader (toLowerCase (h_name h)) (h_value h) false.

Lemma header_bytes_nonempty h : (0 < length (header_bytes h))%nat.
Proof.
  assert (∀ s, (0 < length (str_bytes s))%nat) as Hs
    by (intros s; destruct (str_bytes_head s) as (b & bs & ->); cbn; lia).
  unfold header_bytes. destruct (_ !! _) as [i|].
  - unfold int_bytes. destruct (_ <? _); cbn; lia.
  - rewrite length_app. specialize (Hs (h_value h)). lia.
Qed.

Lemma on_reader_ok {A B} (m : Rd A) (f : A → Dec B) r r' a d hs b :
  m r = (r', Ok a) → (on_reader m ≫= f) (mkCtx r d hs b) = f a (mkCtx r' d hs b).
Proof. intros Hm. apply bind_ok. unfold on_reader. cbn [dc_r]. by rewrite Hm. Qed.

(** [bs] is the encoding of a string that is read as [s]. *)
Definition reads (bs : bytes) (s : jsstring) : Prop :=
  ∀ pre post, readString (rdr pre (bs ++ post)) = (rdr (pre ++ bs) post, Ok s).

(** A literal is read as the name its prefix denotes, followed by the value. *)
Lemma read_literal_rdr p i flags name mid value vb pre post d hs b :
  0 ≤ i < 2 ^ 42 → 1 ≤ p ≤ 7 → flag_ok p flags → reads vb value →
  (i = 0 ∧ reads mid name) ∨ (i ≠ 0 ∧ mid = [] ∧ ∃ v, entryAt d i = Ok (name, v)) →
  read_literal p (mkCtx (rdr pre ((int_bytes i p flags ++ mid ++ vb) ++ post)) d hs b) =
    (mkCtx (rdr (pre ++ int_bytes i p flags ++ mid ++ vb) post) d hs b, Ok (name, value)).
Proof.
  intros Hi Hp Hf Hv Hcase. unfold read_literal. rewrite <- !app_assoc.
  rewrite (on_reader_ok _ _ _ _ _ _ _ _ (readInteger_rdr i p flags _ _ Hi Hp Hf)).
  destruct Hcase as [(-> & Hn)|(H1 & -> & v & Hn)].
  - cbn [Z.eqb]. rewrite (on_reader_ok _ _ _ _ _ _ _ _ (Hn _ _)).
    rewrite (on_reader_ok _ _ _ _ _ _ _ _ (Hv _ _)). by rewrite <- !app_assoc.
  - rewrite (proj2 (Z.eqb_neq i 0)) by lia. cbn [app].
    erewrite bind_ok; [|unfold mbind, M_bind, at_index; cbn [dc_d]; by rewrite Hn].
    rewrite (on_reader_ok _ _ _ _ _ _ _ _ (Hv _ _)). by rewrite <- !app_assoc.
Qed.

(** The first byte of a representation, which selects the branch. *)
Lemma peek_rdr i p flags pre post d hs b :
  0 ≤ i → 1 ≤ p ≤ 7 → flag_ok p flags →
  ∃ x, flags ≤ x < flags + 2 ^ p ∧ is_byte x ∧ ∀ B (f : Z → Dec B),
    (on_reader rd_peek ≫= f) (mkCtx (rdr pre (int_bytes i p flags ++ post)) d hs b) =
    f x (mkCtx (rdr pre (int_bytes i p flags ++ post)) d hs b).
Proof.
  intros Hi Hp Hf. destruct (int_bytes_head i p flags) as (x & bs & -> & Hx & Hb); [done..|].
  exists x. split_and!; [lia..|done|]. intros B f. apply on_reader_ok. apply rd_peek_rdr.
Qed.

Lemma decode_indexed l i e pre post d hs b :
  1 ≤ i < 2 ^ 42 → entryAt d i = Ok e →
  decode_field l (mkCtx (rdr pre (int_bytes i 7 0x80 ++ post)) d hs b) =
    recordHeader l (fst e) (snd e) (mkCtx (rdr (pre ++ int_bytes i 7 0x80) post) d hs b).
Proof.
  intros Hi He. unfold decode_field.
  destruct (peek_rdr i 7 0x80 pre post d hs b) as (x & Hx & Hbyte & ->); [lia..|auto|].
  rewrite bit_80 by done. rewrite (proj2 (Z.ltb_ge x 128)) by lia. cbn [negb].
  rewrite (on_reader_ok _ _ _ _ _ _ _ _
    (readInteger_rdr i 7 0x80 _ _ ltac:(lia) ltac:(lia) flags_80)).
  rewrite (proj2 (Z.eqb_neq i 0)) by lia.
  erewrite bind_ok; [done|]. unfold at_index. cbn [dc_d]. by rewrite He.
Qed.

Lemma decode_literal l i flags name mid value vb pre post d hs b :
  0 ≤ i < 2 ^ 42 → flags = 0 ∨ flags = 0x10 → reads vb value →
  (i = 0 ∧ reads mid name) ∨ (i ≠ 0 ∧ mid = [] ∧ ∃ v, entryAt d i = Ok (name, v)) →
  decode_field l (mkCtx (rdr pre ((int_bytes i 4 flags ++ mid ++ vb) ++ post)) d hs b) =
    recordHeader l name value (mkCtx (rdr (pre ++ int_bytes i 4 flags ++ mid ++ vb) post) d hs b).
Proof.
  intros Hi Hfl Hv Hcase.
  assert (flag_ok 4 flags) as Hf by (destruct Hfl as [-> | ->]; [apply (flags_literal false)|apply (flags_literal true)]).
  pose proof (read_literal_rdr 4 i flags name mid value vb pre post d hs b Hi ltac:(lia) Hf Hv Hcase) as Hlit.
  unfold decode_field. rewrite <- app_assoc in *.
  destruct (peek_rdr i 4 flags pre ((mid ++ vb) ++ post) d hs b) as (x & Hx & Hbyte & ->); [lia..|done|].
  rewrite bit_80 by done. rewrite (proj2 (Z.ltb_lt x 128)) by (destruct Hfl; lia). cbn [negb].
  pose proof (bit_40_20 x Hbyte ltac:(destruct Hfl; lia)) as Hbits. apply andb_true_iff in Hbits as [-> ->].
  cbn [negb]. by rewrite (bind_ok _ _ _ _ _ Hlit).
Qed.

Definition record_ctx (h : Header) (c : dec_ctx) : dec_ctx :=
  fst (recordHeader None (h_name h) (h_value h) c).

Lemma decode_field_rdr h pre post d hs b :
  encodable h = true →
  decode_field None (mkCtx (rdr pre (header_bytes h ++ post)) d hs b) =
    (record_ctx (received h) (mkCtx (rdr (pre ++ header_bytes h) post) d hs b), Ok tt).
Proof.
  unfold encodable. rewrite !andb_true_iff. intros [[Hnul Hn] Hv].
  unfold header_bytes, received. set (name := toLowerCase (h_name h)) in *.
  destruct (staticPairToIndex !! _) as [i|] eqn:Hp.
  - apply static_pair in Hp as [Hi Hat]; [|done].
    rewrite (decode_indexed None i (name, h_value h)); [done|rewrite length_61 in Hi; lia|].
    by rewrite entryAt_static, Hat.
  - assert ((if h_neverIndex h then 16 else 0) = 0 ∨ (if h_neverIndex h then 16 else 0) = 16) as Hf
      by (destruct (h_neverIndex h); auto).
    destruct (staticNameToIndex !! name) as [i|] eqn:Hm.
    + apply static_name in Hm as [Hi Hat]. change (str_bytes (h_value h)) with ([] ++ str_bytes (h_value h)).
      rewrite (decode_literal None i _ name [] (h_value h)); [done|rewrite length_61 in Hi; lia|done| |].
      * intros pre' post'. by apply readString_rdr.
      * right. split_and!; [lia|done|]. exists (snd (static_at i)).
        rewrite entryAt_static, <- Hat by done. by destruct (static_at i).
    + rewrite <- (app_assoc (int_bytes _ _ _)).
      rewrite (decode_literal None 0 _ name (str_bytes name) (h_value h)); [done|lia|done| |left; split; [done|]];
        intros pre' post'; by apply readString_rdr.
Qed.

Lemma decode_loop_rdr hs fuel pre d acc b :
  forallb encodable hs = true → rejected b = false →
  (length (mjoin (map header_bytes hs)) ≤ fuel)%nat →
  ∃ pre' b', rejected b' = false ∧
    decode_loop fuel None (mkCtx (rdr pre (mjoin (map header_bytes hs))) d acc b) =
      (mkCtx (rdr pre' []) d (acc ++ map received hs) b', Ok tt).
Proof.
  revert fuel pre acc b. induction hs as [|h hs IH]; intros fuel pre acc b Hhs Hb Hf.
  { exists pre, b. split; [done|]. rewrite app_nil_r. destruct fuel; [done|].
    cbn [decode_loop]. rewrite (bind_ok _ get_state _ _ _ eq_refl). cbn [dc_r map].
    change (mjoin []) with (@nil Z). by rewrite remaining_rdr. }
  cbn [forallb] in Hhs. apply andb_true_iff in Hhs as [Hh Hhs].
  change (mjoin (map header_bytes (h :: hs))) with (header_bytes h ++ mjoin (map header_bytes hs)) in *.
  rewrite length_app in Hf. pose proof (header_bytes_nonempty h).
  destruct fuel as [|fuel]; [lia|]. cbn [decode_loop].
  rewrite (bind_ok _ get_state _ _ _ eq_refl). cbn [dc_r]. rewrite remaining_rdr.
  rewrite (proj2 (Z.ltb_lt _ _)) by (unfold zlen; rewrite length_app; lia).
  rewrite (bind_ok _ _ _ _ _ (decode_field_rdr h pre _ d acc b Hh)).
  unfold record_ctx, recordHeader, modify. cbn [dc_budget dc_r dc_d dc_headers fst]. rewrite Hb.
  match goal with |- context [decode_loop fuel None (mkCtx _ _ _ ?b2)] =>
    destruct (IH fuel (pre ++ header_bytes h) (acc ++ [received h]) b2 Hhs eq_refl)
      as (pre' & b' & Hb' & Heq); [lia|] end.
  exists pre', b'. split; [done|]. etransitivity; [exact Heq|]. rewrite <- app_assoc. done.
Qed.

Lemma he_encode_bytes W `{ByteSinkLaws W} hs :
  forallb encodable hs = true → he_encode W hs = mjoin (map header_bytes hs).
Proof.
  intros Hhs. unfold he_encode.
  enough (∀ w, sink_ok w → sink_take (fold_left (λ w h, encode_header h w) hs w) =
    sink_take w ++ mjoin (map header_bytes hs)) as Hfold.
  { rewrite Hfold by (apply sink_new_ok; lia). rewrite sink_new_take by lia. done. }
  induction hs as [|h hs IH]; intros w Hw; [by rewrite app_nil_r|].
  cbn [forallb] in Hhs. apply andb_true_iff in Hhs as [Hh Hhs].
  pose proof Hh as Hnul. unfold encodable in Hnul. rewrite !andb_true_iff in Hnul.
  destruct (encode_header_bytes h w) as [Hok Ht]; [tauto|done|].
  cbn [fold_left]. rewrite IH, Ht, <- app_assoc by done. done.
Qed.

(** C10: header blocks round-trip: for every list of headers whose strings UTF-8 can carry, and
    every decoder state, decoding what the encoder wrote returns the same headers in order,
    with lower-case names, and leaves the decoder's table as it was (the encoder never refers
    to the dynamic table and never adds to it).  Static-table hits, indexed names, Huffman and
    raw strings and the never-indexed form are all covered. *)
Theorem hpack_roundtrip W `{ByteSinkLaws W} hs d :
  forallb encodable hs = true →
  hd_decode (he_encode W hs) None d = (d, Ok (map received hs)).
Proof.
  intros Hhs. rewrite (he_encode_bytes W) by done. unfold hd_decode. rewrite rd_new_rdr.
  destruct (decode_loop_rdr hs (length (mjoin (map header_bytes hs))) [] d []
    (mkBudget 0 0 false) Hhs eq_refl (Nat.le_refl _)) as (pre & b & Hb & ->).
  cbn [dc_d dc_budget dc_headers]. by rewrite Hb.
Qed.

Lemma hpack_roundtrip_witness :
  let hs := [mkHeader (js ":method") (js "POST") false; mkHeader (js "TE") (js "trailers") false;
             mkHeader (js "authorization") (js "Bearer x") true;
             mkHeader (js "x-note") [0x48; 0xE9; 0xD83D; 0xDE00] false] in
  hd_decode (he_encode ByteWriter hs) None (hd_new 4096) = (hd_new 4096, Ok (map received hs)).
Proof. apply (hpack_roundtrip ByteWriter). vm_compute. reflexivity. Defined.
