(* ===== verification/HpackSpec.v ===== *)
(** * HpackSpec: the decoder against RFC 7541

    An abstract sender of header blocks, as the RFC describes one: it works on octets, keeps the
    newest entries that fit its table, and may use any of the representations, for any field, with
    or without Huffman coding.  The decoder of [hpack.ts] follows every such sender. *)
From S2P Require Import Prelude Errors Text Bytes HpackTables Huffman HuffmanCorrect Hpack.
From S2P Require Import HpackCorrect HpackRoundtrip.
Local Open Scope Z_scope.

#[local] Opaque HUFFMAN_CODES ROOT STATIC_TABLE huffmanEncode huffmanDecode encodeUtf8 decodeUtf8.

(** ** Tables *)

(** The newest entries that fit: what eviction from the old end leaves (sections 4.3, 4.4). *)
Section fit.
Context {E : Type} (weight : E → Z).

Fixpoint fit (capacity : Z) (t : list E) : list E :=
  match t with
  | [] => []
  | e :: t => if weight e <=? capacity then e :: fit (capacity - weight e) t else []
  end.

Definition total (t : list E) : Z := foldr (λ e n, weight e + n) 0 t.

Lemma total_app t k : total (t ++ k) = total t + total k.
Proof. unfold total. induction t as [|e t IH]; simpl; lia. Qed.

Hypothesis weight_pos : ∀ e, 0 < weight e.

Lemma total_nonneg t : 0 ≤ total t.
Proof. induction t as [|e t IH]; [done|]. pose proof (weight_pos e). simpl. lia. Qed.

Lemma fit_all c t : total t ≤ c → fit c t = t.
Proof.
  revert c. induction t as [|e t IH]; intros c H; [done|]. cbn [fit total foldr] in *.
  pose proof (total_nonneg t). unfold total in *. rewrite (proj2 (Z.leb_le _ _)) by lia.
  by rewrite IH by lia.
Qed.

Lemma fit_total c t : 0 ≤ c → total (fit c t) ≤ c.
Proof.
  revert c. induction t as [|e t IH]; intros c H; [done|]. cbn [fit].
  destruct (Z.leb_spec (weight e) c); [|done]. cbn [total foldr].
  specialize (IH (c - weight e) ltac:(lia)). unfold total in IH. lia.
Qed.

Lemma fit_prefix c t : fit c t `prefix_of` t.
Proof.
  revert c. induction t as [|e t IH]; intros c; [done|]. cbn [fit].
  destruct (_ <=? _); [by apply prefix_cons|apply prefix_nil].
Qed.

(** The oldest entry goes when the whole does not fit. *)
Lemma fit_evicts c t e : c < total (t ++ [e]) → fit c (t ++ [e]) = fit c t.
Proof.
  revert c. induction t as [|x t IH]; intros c; cbn [fit total foldr app].
  - intros H. by rewrite (proj2 (Z.leb_gt _ _)) by lia.
  - intros H. destruct (_ <=? _); [|done]. rewrite IH; [done|]. unfold total. lia.
Qed.
End fit.

(** Lighter entries and more room leave more of the table. *)
Lemma fit_extends {E E'} (w : E → Z) (w' : E' → Z) (f : E → E') c c' t t' :
  (∀ e, w' (f e) ≤ w e) → c ≤ c' → map f t `prefix_of` t' →
  map f (fit w c t) `prefix_of` fit w' c' t'.
Proof.
  intros Hw. revert c c' t'. induction t as [|e t IH]; intros c c' t' Hc Hp; [apply prefix_nil|].
  destruct t' as [|e' t']; [by apply prefix_nil_not in Hp|].
  pose proof (prefix_cons_inv_1 _ _ _ _ Hp) as <-. apply prefix_cons_inv_2 in Hp. cbn [fit].
  pose proof (Hw e). destruct (Z.leb_spec (w e) c); [|apply prefix_nil].
  rewrite (proj2 (Z.leb_le _ _)) by lia. apply prefix_cons, IH; [lia|done].
Qed.

(** ** The sender *)

Definition Field : Type := bytes * bytes.

(** Section 4.1. *)
Definition octets (e : Field) : Z := zlen (fst e) + zlen (snd e) + 32.

Record Peer := mkPeer { p_table : list Field; p_capacity : Z; p_limit : Z }.

Inductive Indexing := Incremental | Without | Never.

(** A string literal and its Huffman bit (section 5.2). *)
Record Literal := mkLit { huffman : bool; text : bytes }.

Inductive NameRef := NameIndex (i : Z) | NameLiteral (s : Literal).

(** Section 6. *)
Inductive Rep :=
| Indexed (i : Z)
| LiteralField (mode : Indexing) (n : NameRef) (value : Literal)
| Resize (n : Z).

(** The static table is ASCII, one octet per code unit. *)
Definition static_octets : list Field := STATIC_TABLE.

(** Section 2.3.3: one index space, the static table first. *)
Definition address (p : Peer) (i : Z) : option Field :=
  if 1 <=? i then (static_octets ++ p_table p) !! Z.to_nat (i - 1) else None.

Definition name_of (p : Peer) (n : NameRef) : option bytes :=
  match n with NameIndex i => fst <$> address p i | NameLiteral s => Some (text s) end.

(** What one representation does; [None] is a representation the sender may not send. *)
Definition peer_step (p : Peer) (r : Rep) : option (Peer * list Field) :=
  match r with
  | Indexed i => e ← address p i; Some (p, [e])
  | LiteralField mode n value =>
      name ← name_of p n;
      let e := (name, text value) in
      Some (match mode with
            | Incremental => mkPeer (fit octets (p_capacity p) (e :: p_table p)) (p_capacity p) (p_limit p)
            | _ => p
            end, [e])
  | Resize n =>
      if (0 <=? n) && (n <=? p_limit p)
      then Some (mkPeer (fit octets n (p_table p)) n (p_limit p), []) else None
  end.

Fixpoint peer_run (p : Peer) (rs : list Rep) : option (Peer * list Field) :=
  match rs with
  | [] => Some (p, [])
  | r :: rs =>
      '(p', es) ← peer_step p r; '(p'', es') ← peer_run p' rs; Some (p'', es ++ es')
  end.

(** ** The wire *)

Definition lit_bytes (s : Literal) : bytes :=
  if huffman s then int_bytes (zlen (huffmanEncode (text s))) 7 0x80 ++ huffmanEncode (text s)
  else int_bytes (zlen (text s)) 7 0x00 ++ text s.

Definition prefix_of_mode (m : Indexing) : Z * Z :=
  match m with Incremental => (6, 0x40) | Without => (4, 0x00) | Never => (4, 0x10) end.

Definition rep_bytes (r : Rep) : bytes :=
  match r with
  | Indexed i => int_bytes i 7 0x80
  | LiteralField mode n value =>
      let '(p, flags) := prefix_of_mode mode in
      match n with
      | NameIndex i => int_bytes i p flags ++ [] ++ lit_bytes value
      | NameLiteral s => int_bytes 0 p flags ++ lit_bytes s ++ lit_bytes value
      end
  | Resize n => int_bytes n 5 0x20
  end.

(** Strings of octets, short enough for 32-bit positions in the Huffman coder. *)
Definition octet_string (s : bytes) : bool := forallb (λ b, (0 <=? b) && (b <? 256)) s && (zlen s <? 2 ^ 26).
Definition rep_ok (r : Rep) : bool :=
  match r with
  | LiteralField _ n value =>
      match n with NameLiteral s => octet_string (text s) | _ => true end && octet_string (text value)
  | _ => true
  end.

(** How the code shows a field: as text. *)
Definition shown (e : Field) : HeaderEntry := (decodeUtf8 (fst e), decodeUtf8 (snd e)).
Definition shown_header (e : Field) : Header := mkHeader (decodeUtf8 (fst e)) (decodeUtf8 (snd e)) false.

(** ** Decoding never lengthens a string *)

(** Units that the pending character has paid for with the bytes it has used. *)
Definition credit (st : dstate) : Z := if d_needed st =? 0 then 0 else 1 + d_seen st.

Definition pending_ok (st : dstate) : Prop :=
  0 ≤ d_needed st ≤ 3 ∧ (d_needed st ≠ 0 → 0 ≤ d_seen st < d_needed st) ∧ d_upper st ≤ 0xBF ∧
  (d_needed st = 1 → d_cp st < 32) ∧
  (d_needed st = 2 → d_cp st < 16 * 64 ^ d_seen st).

Definition units (cs : list Z) : jsstring := mjoin (map utf16_units cs).

Lemma zlen_units_cons c cs : zlen (units (c :: cs)) = (if c <? 0x10000 then 1 else 2) + zlen (units cs).
Proof. unfold units, utf16_units. csimpl. destruct (c <? 0x10000); zl. Qed.

Lemma units_app a b : zlen (units (a ++ b)) = zlen (units a) + zlen (units b).
Proof. unfold units. by rewrite map_app, join_app, zlen_app. Qed.

Lemma start_byte_ok b :
  pending_ok (fst (start_byte b)) ∧
  (snd (start_byte b) = [] ∧ credit (fst (start_byte b)) = 1 ∨
   ∃ c, snd (start_byte b) = [c] ∧ c < 0x10000 ∧ credit (fst (start_byte b)) = 0).
Proof.
  unfold start_byte, pending_ok, credit, dinit, REPLACEMENT.
  repeat case_match; cbn; bool_lia;
    (split; [repeat split; lia|]);
    first [left; split; done | right; eexists; split_and!; [done|lia|done]].
Qed.

Lemma units_bound bs st :
  pending_ok st → zlen (units (utf8_code_points st bs)) ≤ zlen bs + credit st.
Proof.
  revert st. induction bs as [|b bs IH]; intros st (Hn & Hs & Hu & H1 & H2).
  { cbn [utf8_code_points]. unfold credit. destruct (Z.eqb_spec (d_needed st) 0); [done|].
    rewrite zlen_units_cons. cbn. lia. }
  assert (∀ out0, zlen (units (out0 ++ (let '(st', out) := start_byte b in out ++ utf8_code_points st' bs)))
            ≤ zlen (units out0) + (1 + zlen bs)) as Hstart.
  { intros out0. destruct (start_byte_ok b) as [Hok Hout].
    destruct (start_byte b) as [st' out]. cbn [fst snd] in *. specialize (IH st' Hok).
    rewrite units_app.
    destruct Hout as [[-> Hc]|(c & -> & Hc & Hc')]; cbn [app]; [lia|].
    rewrite zlen_units_cons, (proj2 (Z.ltb_lt _ _)) by lia. lia. }
  cbn [utf8_code_points]. unfold credit. rewrite zlen_cons.
  destruct (Z.eqb_spec (d_needed st) 0) as [E|E]; [specialize (Hstart []); cbn [app] in Hstart; change (zlen (units [])) with 0 in Hstart; lia|].
  specialize (Hs E).
  destruct ((d_lower st <=? b) && (b <=? d_upper st)) eqn:Hb.
  - bool_lia. destruct (Z.eqb_spec (d_seen st + 1) (d_needed st)) as [Ed|Ed].
    + rewrite zlen_units_cons. specialize (IH dinit). change (credit dinit) with 0 in IH.
      assert (pending_ok dinit) as Hd by (unfold pending_ok; cbn; lia). specialize (IH Hd).
      destruct (Z.ltb_spec (d_cp st * 64 + (b - 128)) 65536) as [|Hbig]; [lia|].
      assert (d_needed st = 3) as H3; [|lia].
      assert (d_needed st = 1 ∨ d_needed st = 2 ∨ d_needed st = 3) as [H|[H|H]] by lia; [| |done].
      * specialize (H1 H). lia.
      * specialize (H2 H). replace (d_seen st) with 1 in H2 by lia. lia.
    + match goal with |- context [utf8_code_points ?s _] => specialize (IH s) end.
      unfold credit in IH. cbn [d_needed d_seen] in IH. rewrite (proj2 (Z.eqb_neq _ _)) in IH by done.
      etransitivity; [apply IH|lia].
      unfold pending_ok. cbn [d_needed d_seen d_upper d_cp]. split_and!; try lia.
      intros H. specialize (H2 H). assert (d_seen st = 0) as Hz by lia.
      rewrite Hz in H2 |- *. change (64 ^ 0) with 1 in H2. change (64 ^ (0 + 1)) with 64. lia.
  - specialize (Hstart [REPLACEMENT]). cbn [app] in Hstart.
    change (zlen (units [REPLACEMENT])) with 1 in Hstart.
    destruct (start_byte b). lia.
Qed.

Lemma decodeUtf8_length bs : zlen (decodeUtf8 bs) ≤ zlen bs.
Proof.
  Transparent decodeUtf8. unfold decodeUtf8. Opaque decodeUtf8.
  pose proof (units_bound bs dinit) as H. change (credit dinit) with 0 in H.
  assert (pending_ok dinit) as Hd by (unfold pending_ok; cbn; lia). specialize (H Hd).
  fold (units (drop_bom (utf8_code_points dinit bs))).
  destruct (utf8_code_points dinit bs) as [|c cs]; [apply zlen_nonneg|]. cbn [drop_bom].
  destruct (c =? BOM); [|lia]. rewrite zlen_units_cons in H. destruct (c <? 65536); lia.
Qed.

(** ** The decoder's table *)

Lemma entry_weight_pos e : 0 < entry_size e.
Proof. pose proof (entry_size_pos e). lia. Qed.
Lemma octets_pos e : 0 < octets e.
Proof. unfold octets. zl. Qed.
#[local] Hint Resolve entry_weight_pos octets_pos : core.

Lemma evict_fit n c d :
  (length d ≤ n)%nat →
  evict n (λ sz, c <? sz) d (table_size d) = (fit entry_size c d, table_size (fit entry_size c d)).
Proof.
  revert d. induction n as [|n IH]; intros d Hn; [destruct d; [done|simpl in Hn; lia]|].
  cbn [evict]. destruct d as [|e d _] using rev_ind.
  { rewrite andb_false_r. done. }
  destruct (Z.ltb_spec c (table_size (d ++ [e]))) as [Hc|Hc]; cbn [andb].
  - rewrite (proj2 (Z.ltb_lt _ _)) by zl. rewrite length_app in *. cbn [length] in *.
    replace (length d + 1 - 1)%nat with (length d) by lia.
    rewrite list_lookup_middle, take_app_length by done.
    rewrite (fit_evicts entry_size) by done. rewrite <- IH by lia. f_equal.
    rewrite table_size_app. cbn [table_size foldr]. lia.
  - by rewrite fit_all by done.
Qed.

Lemma evict_ext n f g d z : (∀ z, f z = g z) → evict n f d z = evict n g d z.
Proof.
  intros H. revert d z. induction n as [|n IH]; intros d z; cbn [evict]; [done|].
  rewrite H. repeat case_match; auto.
Qed.

(** Insertion: the newest entries that fit, the inserted one first. *)
Lemma hd_insert_fit name value d :
  table_ok d → dynamic (hd_insert name value d) = fit entry_size (maxSize d) ((name, value) :: dynamic d).
Proof.
  intros (Hs & Hm & Hp). unfold hd_insert. rewrite Hs.
  set (es := zlen name + zlen value + ENTRY_OVERHEAD).
  replace (evict _ _ _ _) with
    (evict (length (dynamic d)) (λ sz, maxSize d - es <? sz) (dynamic d) (table_size (dynamic d))).
  2:{ apply evict_ext. intros z.
      destruct (Z.ltb_spec (maxSize d - es) z), (Z.ltb_spec (maxSize d) (z + es)); done || lia. }
  rewrite evict_fit by done. cbn [fit]. change (entry_size (name, value)) with es.
  by destruct (es <=? maxSize d).
Qed.

Lemma applyMaxSize_fit n d :
  table_ok d → n ≤ protocolMax d →
  ∃ d', applyMaxSize n d = (d', Ok tt) ∧ dynamic d' = fit entry_size n (dynamic d) ∧
    maxSize d' = n ∧ protocolMax d' = protocolMax d.
Proof.
  intros (Hs & Hm & Hp) Hn. unfold applyMaxSize. rewrite (proj2 (Z.ltb_ge _ _)) by done.
  rewrite Hs, evict_fit by done. eexists. split_and!; done.
Qed.

(** ** The decoder follows the sender *)

(** What relates a sender to the decoder of its blocks.  The code sizes entries by their UTF-16
    length, which can be less than their octets, so its table may keep more than the sender's. *)
Record follows (p : Peer) (d : HpackDecoder) : Prop := mkFollows {
  fo_ok : table_ok d;
  fo_capacity : maxSize d = p_capacity p;
  fo_limit : protocolMax d = p_limit p;
  fo_small : p_limit p < 2 ^ 32;
  fo_fits : total octets (p_table p) ≤ p_capacity p;
  fo_table : map shown (p_table p) `prefix_of` dynamic d;
}.

Lemma follows_new limit : 0 ≤ limit < 2 ^ 32 → follows (mkPeer [] limit limit) (hd_new limit).
Proof. intros H. repeat split; cbn; lia || done. Qed.

Lemma static_ascii :
  forallb (λ e, ascii_string (fst e) && ascii_string (snd e)) STATIC_TABLE = true.
Proof. vm_compute. reflexivity. Qed.

Lemma static_shown e : e ∈ STATIC_TABLE → shown e = e.
Proof.
  intros H. pose proof (forallb_elem _ _ _ static_ascii H) as Ha. cbn in Ha.
  apply andb_true_iff in Ha as [H1 H2]. unfold shown.
  rewrite !decodeUtf8_ascii by done. by destruct e.
Qed.

Lemma shown_weight e : entry_size (shown e) ≤ octets e.
Proof.
  unfold entry_size, octets, shown, ENTRY_OVERHEAD. cbn [fst snd].
  pose proof (decodeUtf8_length (fst e)). pose proof (decodeUtf8_length (snd e)). lia.
Qed.

Lemma total_length t : 32 * zlen t ≤ total octets t.
Proof.
  induction t as [|e t IH]; [done|]. unfold total in *. cbn [foldr]. rewrite zlen_cons.
  assert (32 ≤ octets e) by (unfold octets; zl). lia.
Qed.

Lemma entryAt_address p d i e :
  follows p d → address p i = Some e → entryAt d i = Ok (shown e) ∧ 1 ≤ i < 2 ^ 42.
Proof.
  intros Hf. unfold address. destruct (Z.leb_spec 1 i) as [H1|]; [|done]. intros He.
  pose proof (fo_ok p d Hf) as (_ & _ & Hp). rewrite (fo_capacity p d Hf), (fo_limit p d Hf) in Hp.
  pose proof (fo_small p d Hf). pose proof (fo_fits p d Hf). pose proof (total_length (p_table p)).
  pose proof (lookup_lt_Some _ _ _ He) as Hlt. rewrite length_app in Hlt.
  assert (Z.of_nat (length static_octets) = STATIC_TABLE_LENGTH) as Hl by reflexivity.
  pose proof length_61. split; [|unfold zlen in *; lia].
  destruct (decide (i ≤ STATIC_TABLE_LENGTH)) as [Hs|Hd].
  - rewrite lookup_app_l in He by lia. rewrite entryAt_static by done.
    assert (static_at i = e) as -> by (apply (f_equal (default ([], []))) in He; exact He).
    by rewrite static_shown by (by eapply list_elem_of_lookup_2).
  - rewrite lookup_app_r in He by lia. unfold entryAt.
    rewrite (proj2 (Z.leb_gt i _)) by lia. rewrite andb_false_r, (proj2 (Z.ltb_ge _ 0)) by lia.
    replace (Z.to_nat (i - 1) - length static_octets)%nat with (Z.to_nat (i - STATIC_TABLE_LENGTH - 1))
      in He by lia.
    rewrite (prefix_lookup_Some (map shown (p_table p)) _ _ (shown e)); [done| |by apply fo_table].
    rewrite list_lookup_fmap. by rewrite He.
Qed.

Lemma follows_insert p d e :
  follows p d →
  follows (mkPeer (fit octets (p_capacity p) (e :: p_table p)) (p_capacity p) (p_limit p))
    (hd_insert (fst (shown e)) (snd (shown e)) d).
Proof.
  intros [Hok Hc Hl Hs Hf Ht]. pose proof Hok as (_ & _ & Hp).
  assert (maxSize (hd_insert (fst (shown e)) (snd (shown e)) d) = maxSize d ∧
          protocolMax (hd_insert (fst (shown e)) (snd (shown e)) d) = protocolMax d) as [E1 E2].
  { unfold hd_insert. destruct (evict _ _ _ _). by destruct (_ <=? _). }
  split; cbn [p_table p_capacity p_limit].
  - by apply hd_insert_ok.
  - by rewrite E1.
  - by rewrite E2.
  - done.
  - apply fit_total; lia.
  - rewrite hd_insert_fit by done. apply fit_extends; [apply shown_weight|lia|].
    rewrite map_cons. replace (fst (shown e), snd (shown e)) with (shown e) by done.
    by apply prefix_cons.
Qed.

Lemma follows_resize p d n d' :
  follows p d → 0 ≤ n ≤ p_limit p → table_ok d' → maxSize d' = n → protocolMax d' = protocolMax d →
  dynamic d' = fit entry_size n (dynamic d) →
  follows (mkPeer (fit octets n (p_table p)) n (p_limit p)) d'.
Proof.
  intros [Hok Hc Hl Hs Hf Ht] Hn Hok' Hm Hp Hd. split; cbn [p_table p_capacity p_limit]; try done.
  - by rewrite Hp.
  - apply fit_total; lia.
  - rewrite Hd. apply fit_extends; [apply shown_weight|lia|done].
Qed.

Lemma reads_literal s : octet_string (text s) = true → reads (lit_bytes s) (decodeUtf8 (text s)).
Proof.
  unfold octet_string. rewrite andb_true_iff, Z.ltb_lt. intros [Hb Hlen] pre post.
  assert (Forall is_byte (text s)) as Hbytes.
  { apply Forall_forall. intros x Hx. apply list_elem_of_In in Hx.
    pose proof (forallb_elem _ _ _ Hb Hx) as H. cbn in H. unfold is_byte. bool_lia. }
  pose proof (huffman_bits_bound (text s)). pose proof (zlen_nonneg (text s)).
  unfold lit_bytes. destruct (huffman s); rewrite <- app_assoc.
  - destruct (huffmanEncode_bits (text s)) as (_ & _ & Hl); [rewrite encodedBitLength_spec; lia|].
    rewrite encodedBitLength_spec in Hl.
    apply (read_body 0x80 _ (text s)); [apply flags_80|auto|Z.to_euclidean_division_equations; lia| |done].
    apply huffman_decode_encode; [done|lia].
  - apply (read_body 0 _ (text s)); [apply flags_00; lia|auto|lia|done|done].
Qed.

Lemma record_keeps name value r d hs b :
  rejected b = false →
  ∃ b', rejected b' = false ∧ recordHeader None name value (mkCtx r d hs b) =
    (mkCtx r d (hs ++ [mkHeader name value false]) b', Ok tt).
Proof.
  intros Hb. unfold recordHeader, modify. cbn [dc_budget dc_r dc_d dc_headers]. rewrite Hb.
  eexists (mkBudget _ _ false). split; reflexivity.
Qed.

(** What a step of the decoder does to the bytes [bs]: it ends with decoder [d'] and has recorded
    [out]. *)
Definition consumes (bs : bytes) (d d' : HpackDecoder) (out : list Header) : Prop :=
  ∀ pre post hs b, rejected b = false →
  ∃ b', rejected b' = false ∧
    decode_field None (mkCtx (rdr pre (bs ++ post)) d hs b) =
      (mkCtx (rdr (pre ++ bs) post) d' (hs ++ out) b', Ok tt).

(** A byte of each kind of representation. *)
Lemma bit_40 b : is_byte b → 64 ≤ b < 128 → (js_and b 0x40 =? 0) = false.
Proof.
  intros Hb Hr.
  assert (implb ((64 <=? b) && (b <? 128)) (negb (js_and b 0x40 =? 0)) = true) as H.
  { revert b Hb Hr. intros b Hb _. revert b Hb.
    apply (forallb_bytes (λ b, implb _ _)). vm_compute. reflexivity. }
  rewrite (proj2 (Z.leb_le _ _)), (proj2 (Z.ltb_lt _ _)) in H by lia. by apply negb_true_iff in H.
Qed.
Lemma bit_20 b : is_byte b → 32 ≤ b < 64 → (js_and b 0x40 =? 0) = true ∧ (js_and b 0x20 =? 0) = false.
Proof.
  intros Hb Hr.
  assert (implb ((32 <=? b) && (b <? 64)) ((js_and b 0x40 =? 0) && negb (js_and b 0x20 =? 0)) = true) as H.
  { revert b Hb Hr. intros b Hb _. revert b Hb.
    apply (forallb_bytes (λ b, implb _ _)). vm_compute. reflexivity. }
  rewrite (proj2 (Z.leb_le _ _)), (proj2 (Z.ltb_lt _ _)) in H by lia.
  apply andb_true_iff in H as [? H]. split; [done|by apply negb_true_iff in H].
Qed.

Lemma flags_40 : flag_ok 6 0x40.
Proof. exists 1. lia. Qed.
Lemma flags_20 : flag_ok 5 0x20.
Proof. exists 1. lia. Qed.

(** A name reference, as the two forms a literal can have. *)
Lemma consumes_literal p d mode n value name :
  follows p d → rep_ok (LiteralField mode n value) = true → name_of p n = Some name →
  consumes (rep_bytes (LiteralField mode n value)) d
    (match mode with Incremental => hd_insert (decodeUtf8 name) (decodeUtf8 (text value)) d | _ => d end)
    [shown_header (name, text value)].
Proof.
  intros Hf Hok Hn pre post hs b Hb. cbn [rep_ok] in Hok. apply andb_true_iff in Hok as [Hno Hvo].
  pose proof (reads_literal _ Hvo) as Hv.
  assert (∃ i mid, rep_bytes (LiteralField mode n value) =
    int_bytes i (fst (prefix_of_mode mode)) (snd (prefix_of_mode mode)) ++ mid ++ lit_bytes value ∧
    0 ≤ i < 2 ^ 42 ∧
    ((i = 0 ∧ reads mid (decodeUtf8 name)) ∨
     (i ≠ 0 ∧ mid = [] ∧ ∃ v, entryAt d i = Ok (decodeUtf8 name, v)))) as (i & mid & -> & Hi & Hcase).
  { cbn [rep_bytes]. destruct (prefix_of_mode mode) as [pr fl]. destruct n as [i|s]; cbn [fst snd name_of] in *.
    - destruct (address p i) as [[a v]|] eqn:Ha; [|done]. injection Hn as <-.
      destruct (entryAt_address _ _ _ _ Hf Ha) as [He Hi]. exists i, []. split_and!; [done|lia..|].
      right. split_and!; [lia|done|by eexists].
    - injection Hn as <-. exists 0, (lit_bytes s). split_and!; [done|lia..|].
      left. split; [done|by apply reads_literal]. }
  destruct mode; cbn [prefix_of_mode fst snd].
  - pose proof (read_literal_rdr 6 i 0x40 _ mid _ _ pre post d hs b Hi ltac:(lia) flags_40 Hv Hcase) as Hlit.
    unfold decode_field. rewrite <- app_assoc in *.
    destruct (peek_rdr i 6 0x40 pre ((mid ++ lit_bytes value) ++ post) d hs b)
      as (x & Hx & Hbyte & Hpeek); [lia..|apply flags_40|].
    rewrite Hpeek, bit_80 by done. rewrite (proj2 (Z.ltb_lt x 128)) by lia. cbn [negb].
    rewrite bit_40 by (done || lia). cbn [negb].
    rewrite (bind_ok _ _ _ _ _ Hlit). cbn [fst snd]. by apply record_keeps.
  - rewrite (decode_literal None i _ _ mid _ (lit_bytes value) pre post d hs b Hi (or_introl eq_refl) Hv Hcase).
    by apply record_keeps.
  - rewrite (decode_literal None i _ _ mid _ (lit_bytes value) pre post d hs b Hi (or_intror eq_refl) Hv Hcase).
    by apply record_keeps.
Qed.

Lemma consumes_resize n d d' :
  0 ≤ n < 2 ^ 42 → applyMaxSize n d = (d', Ok tt) → consumes (int_bytes n 5 0x20) d d' [].
Proof.
  intros Hn Ha pre post hs b Hb. exists b. split; [done|]. unfold decode_field. rewrite app_nil_r.
  destruct (peek_rdr n 5 0x20 pre post d hs b) as (x & Hx & Hbyte & Hpeek); [lia..|apply flags_20|].
  rewrite Hpeek, bit_80 by done. rewrite (proj2 (Z.ltb_lt x 128)) by lia. cbn [negb].
  destruct (bit_20 x Hbyte) as [-> ->]; [lia|]. cbn [negb].
  rewrite (on_reader_ok _ _ _ _ _ _ _ _ (readInteger_rdr n 5 0x20 _ _ Hn ltac:(lia) flags_20)).
  unfold on_decoder. cbn [dc_r dc_d dc_headers dc_budget]. by rewrite Ha.
Qed.

(** One representation: the decoder reports what the sender meant and still follows it. *)
Lemma decode_rep p d r p' es :
  follows p d → rep_ok r = true → peer_step p r = Some (p', es) →
  ∃ d', consumes (rep_bytes r) d d' (map shown_header es) ∧ follows p' d'.
Proof.
  intros Hf Hok Hs. destruct r as [i|mode n value|n]; cbn [peer_step] in Hs.
  - destruct (address p i) as [e|] eqn:Ha; [|done]. injection Hs as <- <-. exists d. split; [|done].
    destruct (entryAt_address _ _ _ _ Hf Ha) as [He Hi]. intros pre post hs b Hb.
    cbn [rep_bytes]. rewrite (decode_indexed None i (shown e)) by done. by apply record_keeps.
  - destruct (name_of p n) as [name|] eqn:Hn; [|done]. injection Hs as <- <-.
    eexists. split; [by apply (consumes_literal p)|].
    destruct mode; [by apply (follows_insert p d (name, text value))|done|done].
  - destruct (Z.leb_spec 0 n); [|done]. destruct (Z.leb_spec n (p_limit p)); [|done].
    injection Hs as <- <-. pose proof (fo_ok _ _ Hf) as Hokd. pose proof (fo_small _ _ Hf).
    destruct (applyMaxSize_fit n d Hokd) as (d' & Ha & Hd & Hm & Hp);
      [rewrite (fo_limit _ _ Hf); lia|].
    exists d'. split; [apply consumes_resize; [lia|done]|].
    apply (follows_resize p d); try done. rewrite <- (f_equal fst Ha : _ = d'). by apply applyMaxSize_ok.
Qed.

Lemma rep_bytes_nonempty p r p' es : peer_step p r = Some (p', es) → (0 < length (rep_bytes r))%nat.
Proof.
  intros _. assert (∀ v p f, (0 < length (int_bytes v p f))%nat) as Hi
    by (intros v q f; unfold int_bytes; destruct (_ <? _); cbn; lia).
  destruct r as [i|mode n value|n]; cbn [rep_bytes]; [apply Hi| |apply Hi].
  destruct (prefix_of_mode mode) as [q f], n as [i|s]; rewrite length_app.
  - specialize (Hi i q f). lia.
  - specialize (Hi 0 q f). lia.
Qed.

Lemma decode_loop_follows rs fuel p d p' es pre acc b :
  follows p d → forallb rep_ok rs = true → peer_run p rs = Some (p', es) → rejected b = false →
  (length (mjoin (map rep_bytes rs)) ≤ fuel)%nat →
  ∃ d' pre' b', follows p' d' ∧ rejected b' = false ∧
    decode_loop fuel None (mkCtx (rdr pre (mjoin (map rep_bytes rs))) d acc b) =
      (mkCtx (rdr pre' []) d' (acc ++ map shown_header es) b', Ok tt).
Proof.
  revert fuel p d es pre acc b. induction rs as [|r rs IH]; intros fuel p d es pre acc b Hf Hok Hr Hb Hfu.
  { injection Hr as <- <-. exists d, pre, b. split; [done|]. split; [done|]. rewrite app_nil_r.
    destruct fuel; [done|]. cbn [decode_loop]. rewrite (bind_ok _ get_state _ _ _ eq_refl).
    cbn [dc_r map]. change (mjoin []) with (@nil Z). by rewrite remaining_rdr. }
  cbn [forallb] in Hok. apply andb_true_iff in Hok as [Hor Hok]. cbn [peer_run] in Hr.
  destruct (peer_step p r) as [[p1 es1]|] eqn:Hs; [|done]. cbn in Hr.
  destruct (peer_run p1 rs) as [[p2 es2]|] eqn:Hrest; [|done]. cbn in Hr. injection Hr as <- <-.
  destruct (decode_rep p d r p1 es1 Hf Hor Hs) as (d1 & Hc & Hf1).
  change (mjoin (map rep_bytes (r :: rs))) with (rep_bytes r ++ mjoin (map rep_bytes rs)) in *.
  rewrite length_app in Hfu. pose proof (rep_bytes_nonempty _ _ _ _ Hs).
  destruct fuel as [|fuel]; [lia|]. cbn [decode_loop].
  rewrite (bind_ok _ get_state _ _ _ eq_refl). cbn [dc_r]. rewrite remaining_rdr.
  rewrite (proj2 (Z.ltb_lt _ _)) by (unfold zlen; rewrite length_app; lia).
  destruct (Hc pre (mjoin (map rep_bytes rs)) acc b Hb) as (b1 & Hb1 & Hd).
  rewrite (bind_ok _ _ _ _ _ Hd).
  destruct (IH fuel p1 d1 es2 (pre ++ rep_bytes r) (acc ++ map shown_header es1) b1 Hf1 Hok Hrest Hb1)
    as (d' & pre' & b' & Hf' & Hb' & Heq); [lia|].
  exists d', pre', b'. split; [done|]. split; [done|]. etransitivity; [exact Heq|].
  by rewrite map_app, app_assoc.
Qed.

(** ** Connections *)

Definition block_bytes (rs : list Rep) : bytes := mjoin (map rep_bytes rs).

(** The blocks of a connection, in order: every one continues with the tables the last one left. *)
Fixpoint peer_blocks (p : Peer) (blocks : list (list Rep)) : option (Peer * list (list Field)) :=
  match blocks with
  | [] => Some (p, [])
  | rs :: blocks =>
      '(p', es) ← peer_run p rs; '(p'', ess) ← peer_blocks p' blocks; Some (p'', es :: ess)
  end.

Fixpoint decode_blocks (d : HpackDecoder) (blocks : list bytes) : HpackDecoder * list (result exn (list Header)) :=
  match blocks with
  | [] => (d, [])
  | b :: blocks =>
      let '(d', r) := hd_decode b None d in
      let '(d'', rs) := decode_blocks d' blocks in (d'', r :: rs)
  end.

(** C9: the decoder understands every RFC 7541 sender.  Take any sender that keeps the tables of
    the RFC, within the announced limit, and sends any legal representations in any number of
    blocks: indexed fields of both tables, literals with and without indexing and never
    indexed, names by index or as text, Huffman coded or raw, over arbitrary octets, and table size
    updates.  A fresh decoder returns for every block exactly the fields the sender meant, as
    text, in order, and never fails; its table always holds the sender's, although it sizes
    entries by their UTF-16 length and not by their octets. *)
Theorem decodes_every_sender limit blocks p ess :
  0 ≤ limit < 2 ^ 32 → forallb (forallb rep_ok) blocks = true →
  peer_blocks (mkPeer [] limit limit) blocks = Some (p, ess) →
  let '(d, rs) := decode_blocks (hd_new limit) (map block_bytes blocks) in
  rs = map (λ es, Ok (map shown_header es)) ess ∧
  map shown (p_table p) `prefix_of` dynamic d ∧ maxSize d = p_capacity p.
Proof.
  intros Hl Hok. pose proof (follows_new limit Hl) as Hf. revert Hf.
  generalize (mkPeer [] limit limit) (hd_new limit). intros p0 d0 Hf Hr. revert p0 d0 ess Hf Hr.
  induction blocks as [|rs blocks IH]; intros p0 d0 ess Hf Hr.
  { injection Hr as <- <-. cbn. split; [done|]. by destruct Hf. }
  cbn [forallb] in Hok. apply andb_true_iff in Hok as [Hor Hok]. cbn [peer_blocks] in Hr.
  destruct (peer_run p0 rs) as [[p1 es]|] eqn:Hs; [|done]. cbn in Hr.
  destruct (peer_blocks p1 blocks) as [[p2 ess']|] eqn:Hrest; [|done]. cbn in Hr. injection Hr as <- <-.
  cbn [map decode_blocks]. unfold hd_decode. rewrite rd_new_rdr. unfold block_bytes at 1 2.
  destruct (decode_loop_follows rs (length (mjoin (map rep_bytes rs))) p0 d0 p1 es [] []
    (mkBudget 0 0 false) Hf Hor Hs eq_refl (Nat.le_refl _)) as (d1 & pre & b & Hf1 & Hb & ->).
  cbn [dc_d dc_budget dc_headers app]. rewrite Hb. specialize (IH Hok p1 d1 ess' Hf1 Hrest).
  destruct (decode_blocks d1 (map block_bytes blocks)) as [d2 rs2]. destruct IH as (-> & IH). done.
Qed.

(** The examples of RFC 7541, appendix C.4: three requests that share a dynamic table. *)
Module Rfc.
Definition coded (s : string) : Literal := mkLit true (js s).
Definition C4 : list (list Rep) :=
  [[Indexed 2; Indexed 6; Indexed 4; LiteralField Incremental (NameIndex 1) (coded "www.example.com")];
   [Indexed 2; Indexed 6; Indexed 4; Indexed 62;
    LiteralField Incremental (NameIndex 24) (coded "no-cache")];
   [Indexed 2; Indexed 7; Indexed 5; Indexed 63;
    LiteralField Incremental (NameLiteral (coded "custom-key")) (coded "custom-value"); Resize 0]].
End Rfc.

Example rfc_bytes :
  block_bytes (Rfc.C4 !!! 0%nat) =
    [0x82; 0x86; 0x84; 0x41; 0x8c; 0xf1; 0xe3; 0xc2; 0xe5; 0xf2; 0x3a; 0x6b; 0xa0; 0xab; 0x90; 0xf4; 0xff] ∧
  block_bytes (Rfc.C4 !!! 1%nat) = [0x82; 0x86; 0x84; 0xbe; 0x58; 0x86; 0xa8; 0xeb; 0x10; 0x64; 0x9c; 0xbf].
Proof. vm_compute. split; reflexivity. Qed.

Lemma decodes_every_sender_witness :
  ∃ p ess, peer_blocks (mkPeer [] 4096 4096) Rfc.C4 = Some (p, ess) ∧ p_table p = [] ∧
  ess !! 2%nat = Some [(js ":method", js "GET"); (js ":scheme", js "https"); (js ":path", js "/index.html");
                       (js ":authority", js "www.example.com"); (js "custom-key", js "custom-value")] ∧
  let '(d, rs) := decode_blocks (hd_new 4096) (map block_bytes Rfc.C4) in
  rs = map (λ es, Ok (map shown_header es)) ess ∧
  map shown (p_table p) `prefix_of` dynamic d ∧ maxSize d = p_capacity p.
Proof.
  do 2 eexists. split; [vm_compute; reflexivity|]. split; [reflexivity|]. split; [reflexivity|].
  apply (decodes_every_sender 4096 Rfc.C4); [lia|vm_compute; reflexivity|vm_compute; reflexivity].
Defined.
