(* ===== verification/Flow.v ===== *)
(** * Flow: [h2/flow.ts]

    The send side of one HTTP/2 flow-control window.  A waiter is the [resolve] function of a
    promise; here it is the number of the task that awaits the promise, and an operation that
    resolves promises returns the numbers of the tasks it wakes. *)
From S2P Require Import Prelude.
Local Open Scope Z_scope.

Record SendWindow := mkWindow { available : Z; waiters : list nat; sw_closed : bool }.

#[export] Instance SendWindow_eq_dec : EqDecision SendWindow.
Proof. solve_decision. Defined.

Definition sw_new (initial : Z) : SendWindow := mkWindow initial [] false.

Definition sw_wake (w : SendWindow) : SendWindow * list nat :=
  match waiters w with
  | [] => (w, [])
  | pending => (mkWindow (available w) [] (sw_closed w), pending)
  end.

(** Add to [available] and wake when the result is positive. *)
Definition sw_add (n : Z) (w : SendWindow) : SendWindow * list nat :=
  let w := mkWindow (available w + n) (waiters w) (sw_closed w) in
  if 0 <? available w then sw_wake w else (w, []).

Definition sw_update (increment : Z) (w : SendWindow) : SendWindow * list nat :=
  sw_add increment w.
Definition sw_adjust (delta : Z) (w : SendWindow) : SendWindow * list nat :=
  sw_add delta w.
Definition sw_consume (n : Z) (w : SendWindow) : SendWindow :=
  mkWindow (available w - n) (waiters w) (sw_closed w).

(** [true] when the promise is resolved at once; otherwise task [t] is parked. *)
Definition sw_waitPositive (t : nat) (w : SendWindow) : SendWindow * bool :=
  if (0 <? available w) || sw_closed w then (w, true)
  else (mkWindow (available w) (waiters w ++ [t]) (sw_closed w), false).

Definition sw_close (w : SendWindow) : SendWindow * list nat :=
  sw_wake (mkWindow (available w) (waiters w) true).

(** ** Sequences of operations *)

Inductive WindowOp :=
| WUpdate (increment : Z) | WAdjust (delta : Z) | WConsume (n : Z) | WWait (t : nat) | WClose.

(** The window after the operation and the waits it resolves. *)
Definition window_op (op : WindowOp) (w : SendWindow) : SendWindow * list nat :=
  match op with
  | WUpdate n => sw_update n w
  | WAdjust n => sw_adjust n w
  | WConsume n => (sw_consume n w, [])
  | WWait t => let '(w', now) := sw_waitPositive t w in (w', if now : bool then [t] else [])
  | WClose => sw_close w
  end.

Fixpoint window_run (ops : list WindowOp) (w : SendWindow) : SendWindow * list nat :=
  match ops with
  | [] => (w, [])
  | op :: ops' =>
      let '(w1, woken) := window_op op w in
      let '(w2, later) := window_run ops' w1 in (w2, woken ++ later)
  end.

(** ** Specification *)

Definition op_credit (op : WindowOp) : Z :=
  match op with WUpdate n | WAdjust n => n | WConsume n => - n | _ => 0 end.
Definition op_waits (op : WindowOp) : list nat :=
  match op with WWait t => [t] | _ => [] end.
Definition credit (ops : list WindowOp) : Z := foldr (λ op t, op_credit op + t) 0 ops.
Definition waits (ops : list WindowOp) : list nat := mjoin (map op_waits ops).

(** The caller consumes what a positive check granted. *)
Definition op_valid (op : WindowOp) : bool :=
  match op with WConsume n => 0 <=? n | _ => true end.

(** No task is parked while there is capacity or after the window is closed. *)
Definition window_ok (w : SendWindow) : Prop :=
  waiters w ≠ [] → available w ≤ 0 ∧ sw_closed w = false.

Lemma sw_wake_spec w :
  let '(w', woken) := sw_wake w in
  w' = mkWindow (available w) [] (sw_closed w) ∧ woken = waiters w.
Proof. unfold sw_wake. destruct w as [a [|t ts] c]; done. Qed.

Lemma window_op_ok op w :
  op_valid op = true → window_ok w →
  let '(w', woken) := window_op op w in
  window_ok w' ∧ available w' = available w + op_credit op ∧
  waiters w ++ op_waits op ≡ₚ woken ++ waiters w'.
Proof.
  intros Hop Hw. unfold window_ok in *.
  assert (∀ n, available (sw_add n w).1 = available w + n ∧
    (waiters (sw_add n w).1 ≠ [] → available (sw_add n w).1 ≤ 0 ∧ sw_closed (sw_add n w).1 = false) ∧
    waiters w ≡ₚ (sw_add n w).2 ++ waiters (sw_add n w).1) as Hadd.
  { intros n. unfold sw_add. cbn [available]. destruct (Z.ltb_spec 0 (available w + n)).
    - pose proof (sw_wake_spec (mkWindow (available w + n) (waiters w) (sw_closed w))) as Hs.
      destruct (sw_wake _) as [w' woken]. destruct Hs as [-> ->]. cbn. rewrite app_nil_r. done.
    - cbn. split; [done|]. split; [|done]. intros H'. destruct (Hw H'). split; [lia|done]. }
  destruct op as [n|n|n|t|]; cbn [window_op op_credit op_waits]; rewrite ?app_nil_r.
  - unfold sw_update. destruct (Hadd n) as (? & ? & ?). by destruct (sw_add n w).
  - unfold sw_adjust. destruct (Hadd n) as (? & ? & ?). by destruct (sw_add n w).
  - cbn [sw_consume available waiters sw_closed]. split; [|split; [lia|done]].
    intros H'. destruct (Hw H'). cbn in Hop. apply Z.leb_le in Hop.
    split; [lia|done].
  - unfold sw_waitPositive. destruct ((0 <? available w) || sw_closed w) eqn:Hc.
    + split; [done|]. split; [lia|]. cbn. apply Permutation_app_comm.
    + apply orb_false_iff in Hc as [H1 H2]. apply Z.ltb_ge in H1. cbn.
      split; [done|]. split; [lia|done].
  - unfold sw_close. pose proof (sw_wake_spec (mkWindow (available w) (waiters w) true)) as Hs.
    destruct (sw_wake _) as [w' woken]. destruct Hs as [-> ->]. cbn. rewrite app_nil_r.
    split; [done|]. split; [lia|done].
Qed.

(** Over every sequence of operations on a new window, the capacity is the initial value
    plus what was granted minus what was consumed (it may be negative), no task is left parked
    while capacity is positive or after the window is closed, and every [waitPositive] is
    resolved exactly once or still parked. *)
Theorem window_run_spec ops initial :
  forallb op_valid ops = true →
  let '(w, resolved) := window_run ops (sw_new initial) in
  available w = initial + credit ops ∧
  (waiters w ≠ [] → available w ≤ 0 ∧ sw_closed w = false) ∧
  waits ops ≡ₚ resolved ++ waiters w.
Proof.
  intros Hv. enough (∀ w0, window_ok w0 → let '(w, resolved) := window_run ops w0 in
    available w = available w0 + credit ops ∧ window_ok w ∧
    waiters w0 ++ waits ops ≡ₚ resolved ++ waiters w) as H.
  { apply (H (sw_new initial)). done. }
  induction ops as [|op ops IH]; intros w0 H0; cbn [window_run].
  { cbn. rewrite app_nil_r. split; [lia|done]. }
  cbn [forallb] in Hv. apply andb_true_iff in Hv as [Hv1 Hv].
  pose proof (window_op_ok op w0 Hv1 H0) as Hop. destruct (window_op op w0) as [w1 woken].
  destruct Hop as (Hok & Hav & Hperm). specialize (IH Hv w1 Hok).
  destruct (window_run ops w1) as [w2 later]. destruct IH as (Hav2 & Hok2 & Hperm2).
  unfold credit. cbn [foldr]. fold (credit ops). split; [lia|]. split; [done|].
  change (waits (op :: ops)) with (op_waits op ++ waits ops).
  by rewrite app_assoc, Hperm, <- !app_assoc, Hperm2.
Qed.

Lemma window_run_spec_witness :
  let ops := [WConsume 65535; WWait 1; WWait 2; WAdjust (-10); WUpdate 5; WUpdate 6; WWait 3] in
  window_run ops (sw_new 65535) = (mkWindow 1 [] false, [1; 2; 3]%nat) ∧
  waits ops ≡ₚ [1; 2; 3]%nat ++ [].
Proof.
  cbv zeta. split; [reflexivity|].
  exact (proj2 (proj2 (window_run_spec [WConsume 65535; WWait 1; WWait 2; WAdjust (-10); WUpdate 5;
    WUpdate 6; WWait 3] 65535 eq_refl))).
Defined.
