(* ===== verification/Stream.v ===== *)
(** * Stream: [h2/stream.ts]

    The receive side of one stream: the response head, the body buffer behind a pull-based
    [ReadableStream], trailers, resets and cancellation.

    A promise is its settlement ([head]); the calls on the [ReadableStream]'s controller are
    logged in [controller].  The two callbacks of the constructor belong to the connection:
    [pullBody] returns how many bytes it hands to [onConsume], and the steps of [cancelBody]
    around its callbacks are composed in [Connection.body_cancel]. *)
From S2P Require Import Prelude Errors Flow HpackTables Hpack.
Local Open Scope Z_scope.

Inductive StreamState := idle | reservedRemote | open | halfClosedLocal | halfClosedRemote | closed.

#[export] Instance StreamState_eq_dec : EqDecision StreamState.
Proof. solve_decision. Defined.

(** ** Plain objects used as string maps *)

(** The own properties of an object in insertion order. *)
Abbreviation jsobject := (list (jsstring * jsstring)).

(** What a template literal makes of a property that [{}] inherits from [Object.prototype]. *)
Definition native (name : string) : jsstring :=
  js "function " ++ js name ++ js "() { [native code] }".
Definition inherited (key : jsstring) : option jsstring :=
  if decide (key = js "__proto__") then Some (js "[object Object]")
  else if decide (key = js "constructor") then Some (native "Object")
  else if decide (key ∈ [js "__defineGetter__"; js "__defineSetter__"; js "hasOwnProperty";
         js "__lookupGetter__"; js "__lookupSetter__"; js "isPrototypeOf";
         js "propertyIsEnumerable"; js "toString"; js "valueOf"; js "toLocaleString"])
  then Some (js "function " ++ key ++ js "() { [native code] }")
  else None.

(** [o[key]]; [None] is [undefined]. *)
Definition obj_get (o : jsobject) (key : jsstring) : option jsstring :=
  match own o key with Some v => Some v | None => inherited key end.

(** [o[key] = value]: the setter [__proto__] ignores a string. *)
Definition obj_set (o : jsobject) (key value : jsstring) : jsobject :=
  if decide (key = js "__proto__") then o else put o key value.

(** ** [Number.parseInt(value, 10)]; [None] is NaN *)

Definition is_digit (u : Z) : bool := (0x30 <=? u) && (u <=? 0x39).
Fixpoint digits (acc : option Z) (s : jsstring) : option Z :=
  match s with
  | u :: s' => if is_digit u then digits (Some (default 0 acc * 10 + (u - 0x30))) s' else acc
  | [] => acc
  end.
Definition parseInt (value : jsstring) : option Z :=
  match trim_start value with
  | 0x2D :: s => Z.opp <$> digits None s
  | 0x2B :: s => digits None s
  | s => digits None s
  end.

(** ** Heads *)

Record HeadHead := mkHead {
  hh_endStream : bool;
  status : option Z;
  hh_headers : jsobject;
  raw : list Header;
}.

Definition starts_with_colon (name : jsstring) : bool :=
  match name with 0x3A :: _ => true | _ => false end.

Definition collect_field (name value : jsstring) (headers : jsobject) : jsobject :=
  match obj_get headers name with
  | None => obj_set headers name value
  | Some existing =>
      obj_set headers name
        (existing ++ (if decide (name = js "cookie") then js "; " else js ", ") ++ value)
  end.

Definition collectHeaders (raw : list Header) : HeadHead :=
  let '(status, headers) :=
    fold_left
      (λ '(status, headers) h,
         if decide (h_name h = js ":status") then (parseInt (h_value h), headers)
         else if starts_with_colon (h_name h) then (status, headers)
         else (status, collect_field (h_name h) (h_value h) headers))
      raw (None, []) in
  mkHead false status headers raw.

(** ** The stream object *)

Inductive Promise (A : Type) :=
| Pending
| Resolved (a : A)
| Rejected (e : exn).
Arguments Pending {A}.
Arguments Resolved {A} a.
Arguments Rejected {A} e.

(** Calls on the body's [ReadableStreamDefaultController]. *)
Inductive ControllerCall := Enqueue (chunk : bytes) | CtlError (e : exn) | CtlClose.

Record H2Stream := mkStream {
  id : Z;
  sendWindow : SendWindow;
  recvWindow : Z;
  state : StreamState;
  localClosed : bool;
  remoteClosed : bool;
  head : Promise HeadHead;
  gotHead : bool;
  trailers : option jsobject;
  recvQueue : list bytes;
  recvBuffered : Z;
  recvEnded : bool;
  recvError : option exn;
  recvNotify : bool;           (* a pull is parked *)
  bodyDone : bool;
  stopped : option exn;        (* the abort reason of the [AbortController] *)
  controller : list ControllerCall;
}.

Definition stream_new (sid initialSendWindow : Z) (st : StreamState) (initialReceiveWindow : Z)
    : H2Stream :=
  mkStream sid (sw_new initialSendWindow) initialReceiveWindow st false false Pending false None
    [] 0 false None false false None [].

(** *** Field updates *)

Definition set_sendWindow (w : SendWindow) (s : H2Stream) : H2Stream :=
  mkStream (id s) w (recvWindow s) (state s) (localClosed s) (remoteClosed s) (head s) (gotHead s)
    (trailers s) (recvQueue s) (recvBuffered s) (recvEnded s) (recvError s) (recvNotify s)
    (bodyDone s) (stopped s) (controller s).
Definition add_recvWindow (n : Z) (s : H2Stream) : H2Stream :=
  mkStream (id s) (sendWindow s) (recvWindow s + n) (state s) (localClosed s) (remoteClosed s)
    (head s) (gotHead s) (trailers s) (recvQueue s) (recvBuffered s) (recvEnded s) (recvError s)
    (recvNotify s) (bodyDone s) (stopped s) (controller s).
Definition set_state (st : StreamState) (s : H2Stream) : H2Stream :=
  mkStream (id s) (sendWindow s) (recvWindow s) st (localClosed s) (remoteClosed s)
    (head s) (gotHead s) (trailers s) (recvQueue s) (recvBuffered s) (recvEnded s) (recvError s)
    (recvNotify s) (bodyDone s) (stopped s) (controller s).
Definition set_localClosed (s : H2Stream) : H2Stream :=
  mkStream (id s) (sendWindow s) (recvWindow s) (state s) true (remoteClosed s)
    (head s) (gotHead s) (trailers s) (recvQueue s) (recvBuffered s) (recvEnded s) (recvError s)
    (recvNotify s) (bodyDone s) (stopped s) (controller s).
Definition set_remoteClosed (s : H2Stream) : H2Stream :=
  mkStream (id s) (sendWindow s) (recvWindow s) (state s) (localClosed s) true
    (head s) (gotHead s) (trailers s) (recvQueue s) (recvBuffered s) (recvEnded s) (recvError s)
    (recvNotify s) (bodyDone s) (stopped s) (controller s).
Definition set_head (h : Promise HeadHead) (s : H2Stream) : H2Stream :=
  mkStream (id s) (sendWindow s) (recvWindow s) (state s) (localClosed s) (remoteClosed s)
    h true (trailers s) (recvQueue s) (recvBuffered s) (recvEnded s) (recvError s)
    (recvNotify s) (bodyDone s) (stopped s) (controller s).
Definition set_trailers (t : jsobject) (s : H2Stream) : H2Stream :=
  mkStream (id s) (sendWindow s) (recvWindow s) (state s) (localClosed s) (remoteClosed s)
    (head s) (gotHead s) (Some t) (recvQueue s) (recvBuffered s) (recvEnded s) (recvError s)
    (recvNotify s) (bodyDone s) (stopped s) (controller s).
Definition set_queue (q : list bytes) (buffered : Z) (s : H2Stream) : H2Stream :=
  mkStream (id s) (sendWindow s) (recvWindow s) (state s) (localClosed s) (remoteClosed s)
    (head s) (gotHead s) (trailers s) q buffered (recvEnded s) (recvError s)
    (recvNotify s) (bodyDone s) (stopped s) (controller s).
Definition set_recvEnded (s : H2Stream) : H2Stream :=
  mkStream (id s) (sendWindow s) (recvWindow s) (state s) (localClosed s) (remoteClosed s)
    (head s) (gotHead s) (trailers s) (recvQueue s) (recvBuffered s) true (recvError s)
    (recvNotify s) (bodyDone s) (stopped s) (controller s).
Definition set_recvError (e : exn) (s : H2Stream) : H2Stream :=
  mkStream (id s) (sendWindow s) (recvWindow s) (state s) (localClosed s) (remoteClosed s)
    (head s) (gotHead s) (trailers s) (recvQueue s) (recvBuffered s) (recvEnded s) (Some e)
    (recvNotify s) (bodyDone s) (stopped s) (controller s).
Definition set_recvNotify (b : bool) (s : H2Stream) : H2Stream :=
  mkStream (id s) (sendWindow s) (recvWindow s) (state s) (localClosed s) (remoteClosed s)
    (head s) (gotHead s) (trailers s) (recvQueue s) (recvBuffered s) (recvEnded s) (recvError s)
    b (bodyDone s) (stopped s) (controller s).
Definition set_bodyDone (s : H2Stream) : H2Stream :=
  mkStream (id s) (sendWindow s) (recvWindow s) (state s) (localClosed s) (remoteClosed s)
    (head s) (gotHead s) (trailers s) (recvQueue s) (recvBuffered s) (recvEnded s) (recvError s)
    (recvNotify s) true (stopped s) (controller s).
Definition set_stopped (e : exn) (s : H2Stream) : H2Stream :=
  mkStream (id s) (sendWindow s) (recvWindow s) (state s) (localClosed s) (remoteClosed s)
    (head s) (gotHead s) (trailers s) (recvQueue s) (recvBuffered s) (recvEnded s) (recvError s)
    (recvNotify s) (bodyDone s) (Some e) (controller s).
Definition call (c : ControllerCall) (s : H2Stream) : H2Stream :=
  mkStream (id s) (sendWindow s) (recvWindow s) (state s) (localClosed s) (remoteClosed s)
    (head s) (gotHead s) (trailers s) (recvQueue s) (recvBuffered s) (recvEnded s) (recvError s)
    (recvNotify s) (bodyDone s) (stopped s) (controller s ++ [c]).

(** *** Operations *)

(** Resolve the parked pull, if there is one: it runs again as a later [pullBody]. *)
Definition wakeRecv (s : H2Stream) : H2Stream := set_recvNotify false s.

Definition endBody (s : H2Stream) : H2Stream := wakeRecv (set_recvEnded s).

Definition is_interim (h : HeadHead) : bool :=
  match status h with Some n => (100 <=? n) && (n <? 200) | None => false end.

Definition receiveHeaders (headers : list Header) (endStream : bool) (s : H2Stream) : H2Stream :=
  if negb (gotHead s) then
    let h := collectHeaders headers in
    if is_interim h then s
    else
      let s := set_head (Resolved (mkHead endStream (status h) (hh_headers h) (raw h))) s in
      if endStream then endBody s else s
  else
    let s := set_trailers (hh_headers (collectHeaders headers)) s in
    if endStream then endBody s else s.

Definition receiveData (data : bytes) (endStream : bool) (s : H2Stream) : H2Stream :=
  let s := if (0 <? zlen data) && negb (bodyDone s)
           then set_queue (recvQueue s ++ [data]) (recvBuffered s + zlen data) s else s in
  let s := if endStream then set_recvEnded s else s in
  wakeRecv s.

Definition discardBuffered (s : H2Stream) : H2Stream * Z :=
  (set_queue [] 0 s, recvBuffered s).

(** [AbortController.abort]: only the first reason counts. *)
Definition abort_stopped (e : exn) (s : H2Stream) : H2Stream :=
  match stopped s with Some _ => s | None => set_stopped e s end.

(** The tasks that waited for the stream's send window are returned. *)
Definition fail (err : exn) (s : H2Stream) : H2Stream * list nat :=
  let s := abort_stopped err s in
  let s := set_state closed s in
  let '(w, woken) := sw_close (sendWindow s) in
  let s := set_sendWindow w s in
  let s := if negb (gotHead s) then set_head (Rejected err) s else s in
  let s := match recvError s with None => set_recvError err s | Some _ => s end in
  (wakeRecv s, woken).

Definition reset_error (sid errorCode : Z) : exn :=
  let name := default PROTOCOL_ERROR (errorCodeName errorCode) in
  EH2 (mkH2Error name (Some sid) (if decide (name = REFUSED_STREAM) then Some Refused else None)).

Definition receiveReset (errorCode : Z) (s : H2Stream) : H2Stream * list nat :=
  fail (reset_error (id s) errorCode) s.

(** One run of the loop of [pullBody]: the number of bytes passed to [onConsume], if a chunk
    was handed over.  With nothing to report the pull parks. *)
Definition pullBody (s : H2Stream) : H2Stream * option Z :=
  match recvQueue s with
  | chunk :: rest =>
      (call (Enqueue chunk) (set_queue rest (recvBuffered s - zlen chunk) s), Some (zlen chunk))
  | [] =>
      match recvError s with
      | Some e => (call (CtlError e) (set_bodyDone s), None)
      | None => if recvEnded s then (call CtlClose (set_bodyDone s), None)
                else (set_recvNotify true s, None)
      end
  end.

(** [cancelBody] up to its first callback: is the stream live? *)
Definition cancel_begin (s : H2Stream) : H2Stream * bool :=
  (set_bodyDone s,
   negb (bodyDone s) && negb (recvEnded s) && bool_decide (recvError s = None)).
(** [this.recvBuffered = 0; this.recvQueue.length = 0]. *)
Definition cancel_clear (s : H2Stream) : H2Stream := set_queue [] 0 s.

(** ** What the consumer of a body sees *)

Inductive StreamOp :=
| SHeaders (headers : list Header) (endStream : bool)
| SData (data : bytes) (endStream : bool)
| SFail (err : exn)
| SPull.

(** A [ReadableStream] calls [pull] only while the stream is readable and no pull is parked. *)
Definition stream_op (op : StreamOp) (s : H2Stream) : H2Stream :=
  match op with
  | SHeaders hs fin => receiveHeaders hs fin s
  | SData d fin => receiveData d fin s
  | SFail e => fst (fail e s)
  | SPull => if bodyDone s || recvNotify s then s else fst (pullBody s)
  end.

(** The bytes an operation adds to the body; a finished body takes none. *)
Definition accepted_by (op : StreamOp) (s : H2Stream) : bytes :=
  match op with SData d _ => if bodyDone s then [] else d | _ => [] end.

Definition stream_run (ops : list StreamOp) (s : H2Stream) : H2Stream * bytes :=
  fold_left (λ '(s, acc) op, (stream_op op s, acc ++ accepted_by op s)) ops (s, []).

Definition failures (ops : list StreamOp) : list exn :=
  omap (λ op, match op with SFail e => Some e | _ => None end) ops.

Lemma stream_run_snoc ops op s :
  stream_run (ops ++ [op]) s =
    (stream_op op (stream_run ops s).1,
     (stream_run ops s).2 ++ accepted_by op (stream_run ops s).1).
Proof.
  unfold stream_run. rewrite fold_left_app. cbn [fold_left].
  by destruct (fold_left _ ops (s, [])) as [s' acc].
Qed.

Lemma failures_snoc ops op :
  failures (ops ++ [op]) = failures ops ++ failures [op].
Proof. apply omap_app. Qed.

(** The observable body state after [ops]. *)
Definition body_inv (s0 : H2Stream) (ops : list StreamOp) (s : H2Stream) (acc : bytes) : Prop :=
  ∃ chunks fin,
    controller s = map Enqueue chunks ++ fin ∧
    mjoin chunks ++ mjoin (recvQueue s) = acc ∧
    recvBuffered s = zlen (mjoin (recvQueue s) : bytes) ∧
    recvError s = failures ops !! 0%nat ∧
    ((fin = [] ∧ bodyDone s = false) ∨
     (fin = [CtlClose] ∧ bodyDone s = true ∧ recvQueue s = [] ∧
        ∃ ops1 ops2, ops = ops1 ++ ops2 ∧ failures ops1 = [] ∧
          recvEnded (stream_run ops1 s0).1 = true) ∨
     (∃ e, fin = [CtlError e] ∧ bodyDone s = true ∧ recvQueue s = [] ∧
        failures ops !! 0%nat = Some e)).

(** Operations that leave the queue, the log and [bodyDone] alone keep the invariant. *)
Lemma body_inv_same s0 ops op s s' acc :
  body_inv s0 ops s acc → failures [op] = [] →
  controller s' = controller s → recvQueue s' = recvQueue s → recvBuffered s' = recvBuffered s →
  recvError s' = recvError s → bodyDone s' = bodyDone s →
  body_inv s0 (ops ++ [op]) s' acc.
Proof.
  intros (chunks & fin & Hc & Hq & Hb & He & Hfin) Hop E1 E2 E3 E4 E5.
  exists chunks, fin. rewrite E1, E2, E3, E4, E5, failures_snoc, Hop, app_nil_r.
  split_and!; [done..|]. destruct Hfin as [H|[(? & ? & ? & ops1 & ops2 & -> & H)|H]]; [auto| |auto].
  right. left. split_and!; [done..|]. exists ops1, (ops2 ++ [op]). by rewrite app_assoc.
Qed.

Lemma mjoin_snoc (l : list bytes) d : mjoin (l ++ [d]) = mjoin l ++ d.
Proof. rewrite join_app. cbn. by rewrite app_nil_r. Qed.

Lemma body_inv_data s0 ops s acc d fin :
  body_inv s0 ops s acc →
  body_inv s0 (ops ++ [SData d fin]) (receiveData d fin s) (acc ++ accepted_by (SData d fin) s).
Proof.
  intros Hinv. unfold receiveData. cbn [accepted_by].
  destruct (bodyDone s) eqn:Hd; cbn [negb].
  { rewrite andb_false_r, app_nil_r. eapply body_inv_same; [done|done|by destruct fin..]. }
  destruct (Z.ltb_spec 0 (zlen d)) as [Hl|Hl]; cbn [andb].
  2:{ assert (d = []) as -> by (apply zlen_0_inv; zl). rewrite app_nil_r.
      eapply body_inv_same; [done|done|by destruct fin..]. }
  destruct Hinv as (chunks & fin' & Hc & Hq & Hb & He & Hfin).
  destruct Hfin as [[-> _]|[(_ & H & _)|(e & _ & H & _)]]; [|congruence..].
  exists chunks, []. rewrite failures_snoc. cbn [failures omap list_omap]. rewrite !app_nil_r in *.
  assert (∀ st : H2Stream, recvQueue st = recvQueue s ++ [d] →
    mjoin chunks ++ mjoin (recvQueue st) = acc ++ d) as Hj.
  { intros st ->. by rewrite mjoin_snoc, app_assoc, Hq. }
  assert (∀ st : H2Stream, recvQueue st = recvQueue s ++ [d] →
    recvBuffered st = recvBuffered s + zlen d →
    recvBuffered st = zlen (mjoin (recvQueue st) : bytes)) as Hz.
  { intros st -> ->. by rewrite mjoin_snoc, zlen_app, Hb. }
  destruct fin; (split_and!; [done|by apply Hj|by apply Hz|done|left; done]).
Qed.

Lemma body_inv_fail s0 ops s acc e :
  body_inv s0 ops s acc → body_inv s0 (ops ++ [SFail e]) (fst (fail e s)) acc.
Proof.
  intros (chunks & fin & Hc & Hq & Hb & He & Hfin).
  assert (∃ s', fst (fail e s) = s' ∧ controller s' = controller s ∧ recvQueue s' = recvQueue s ∧
    recvBuffered s' = recvBuffered s ∧ bodyDone s' = bodyDone s ∧
    recvError s' = match recvError s with Some x => Some x | None => Some e end)
    as (s' & -> & E1 & E2 & E3 & E4 & E5).
  { unfold fail, abort_stopped. eexists. split; [done|].
    destruct (stopped s), (sw_close _) as [w woken]; cbn;
      destruct (gotHead s), (recvError s) eqn:Hre; cbn; rewrite ?Hre; done. }
  exists chunks, fin. rewrite E1, E2, E3, E4, E5, failures_snoc, He.
  cbn [failures omap list_omap].
  assert ((failures ops ++ [e]) !! 0%nat = match failures ops !! 0%nat with
    Some x => Some x | None => Some e end) as -> by (by destruct (failures ops)).
  split_and!; [done..|].
  destruct Hfin as [H|[(? & ? & ? & ops1 & ops2 & -> & H)|(x & ? & ? & ? & Hx)]].
  - auto.
  - right. left. split_and!; [done..|]. exists ops1, (ops2 ++ [SFail e]). by rewrite app_assoc.
  - right. right. exists x. rewrite Hx. done.
Qed.

Lemma body_inv_pull s0 ops s acc :
  stream_run ops s0 = (s, acc) → bodyDone s = false →
  body_inv s0 ops s acc → body_inv s0 (ops ++ [SPull]) (fst (pullBody s)) acc.
Proof.
  intros Hrun Hd (chunks & fin & Hc & Hq & Hb & He & Hfin).
  destruct Hfin as [[-> _]|[(_ & H & _)|(e & _ & H & _)]]; [|congruence..].
  rewrite app_nil_r in Hc. unfold pullBody. destruct (recvQueue s) as [|c rest] eqn:Hrq.
  - cbn in Hb. rewrite app_nil_r in Hq. subst acc.
    destruct (recvError s) as [x|] eqn:Hre; [|destruct (recvEnded s) eqn:Hen].
    + exists chunks, [CtlError x]. rewrite failures_snoc, app_nil_r. cbn.
      rewrite Hc, Hrq, Hre, app_nil_r. split_and!; [done..|]. right. right. by exists x.
    + exists chunks, [CtlClose]. rewrite failures_snoc, app_nil_r. cbn.
      rewrite Hc, Hrq, Hre, app_nil_r. split_and!; [done..|]. right. left.
      split_and!; [done..|]. exists ops, [SPull]. rewrite Hrun.
      split_and!; [done| |done]. by destruct (failures ops).
    + exists chunks, []. rewrite failures_snoc, app_nil_r. cbn.
      rewrite Hc, Hrq, Hre, !app_nil_r. split_and!; [done..|]. left. done.
  - exists (chunks ++ [c]), []. rewrite failures_snoc, app_nil_r. cbn.
    rewrite Hc, He, map_app, app_nil_r. split_and!; [done| | |done|left; done].
    + rewrite mjoin_snoc, <- app_assoc. exact Hq.
    + rewrite Hb. change (mjoin (c :: rest) : bytes) with (c ++ mjoin rest). rewrite zlen_app. lia.
Qed.

Lemma body_inv_headers s0 ops s acc hs fin :
  body_inv s0 ops s acc → body_inv s0 (ops ++ [SHeaders hs fin]) (receiveHeaders hs fin s) acc.
Proof.
  intros H. eapply body_inv_same; [exact H|done|..];
    unfold receiveHeaders; destruct (gotHead s); cbn [negb];
    try destruct (is_interim _); by destruct fin.
Qed.

Lemma body_inv_run s0 ops :
  controller s0 = [] → recvQueue s0 = [] → recvBuffered s0 = 0 → recvError s0 = None →
  bodyDone s0 = false →
  body_inv s0 ops (stream_run ops s0).1 (stream_run ops s0).2.
Proof.
  intros E1 E2 E3 E4 E5. induction ops as [|op ops IH] using rev_ind.
  { exists [], []. cbn. rewrite E1, E2, E3, E4, E5. split_and!; [done..|]. left. done. }
  rewrite stream_run_snoc. destruct (stream_run ops s0) as [s acc] eqn:Hrun. cbn [fst snd] in *.
  destruct op as [hs fin|d fin|e|]; cbn [stream_op].
  - cbn [accepted_by]. rewrite app_nil_r. by apply body_inv_headers.
  - by apply body_inv_data.
  - cbn [accepted_by]. rewrite app_nil_r. by apply body_inv_fail.
  - cbn [accepted_by]. rewrite app_nil_r. destruct (bodyDone s || recvNotify s) eqn:Hd.
    + by eapply body_inv_same.
    + apply orb_false_iff in Hd as [Hd _]. by apply body_inv_pull.
Qed.

(** Over every interleaving of arriving headers, data and failures with pulls, the
    consumer gets the accepted body bytes in order: what was handed over followed by what is
    queued is exactly what arrived, and the byte counter agrees with the queue.  The body ends
    at most once, only with an empty queue: with [close] only if END_STREAM came before any
    failure (a reset never looks like a clean end), with [error] only with the first failure's
    error. *)
Theorem body_delivery ops sid w rw :
  let s0 := stream_new sid w open rw in
  let '(s, received) := stream_run ops s0 in
  ∃ chunks fin,
    controller s = map Enqueue chunks ++ fin ∧
    mjoin chunks ++ mjoin (recvQueue s) = received ∧
    recvBuffered s = zlen (mjoin (recvQueue s) : bytes) ∧
    ((fin = [] ∧ bodyDone s = false) ∨
     (fin = [CtlClose] ∧ recvQueue s = [] ∧
        ∃ ops1 ops2, ops = ops1 ++ ops2 ∧ failures ops1 = [] ∧
          recvEnded (stream_run ops1 s0).1 = true) ∨
     (∃ e, fin = [CtlError e] ∧ recvQueue s = [] ∧ failures ops !! 0%nat = Some e)).
Proof.
  cbv zeta. pose proof (body_inv_run (stream_new sid w open rw) ops eq_refl eq_refl eq_refl
    eq_refl eq_refl) as H.
  destruct (stream_run ops _) as [s acc]. destruct H as (chunks & fin & H1 & H2 & H3 & _ & H4).
  exists chunks, fin. split_and!; [done..|].
  destruct H4 as [H4 | [(Hf & _ & H4) | (e & Hf & _ & H4)]]; [by left | by right; left | right; right; by exists e].
Qed.

Example body_delivery_example :
  let '(s, received) := stream_run
    [SPull; SHeaders [mkHeader (js ":status") (js "200") false] false; SData [1; 2] false; SPull;
     SData [3] false; SFail (EForeign 7); SData [4] true; SPull; SPull; SPull; SPull]
    (stream_new 1 65535 open 100) in
  controller s = [Enqueue [1; 2]; Enqueue [3]; Enqueue [4]; CtlError (EForeign 7)] ∧
  received = [1; 2; 3; 4].
Proof. vm_compute. done. Qed.

(** ** Collecting header fields *)

Definition field_values (raw : list Header) (name : jsstring) : list jsstring :=
  map h_value (filter (λ h, h_name h = name) raw).
Definition separator (name : jsstring) : jsstring :=
  if decide (name = js "cookie") then js "; " else js ", ".
Definition join_values (sep : jsstring) (vs : list jsstring) : option jsstring :=
  match vs with
  | [] => None
  | v :: vs' => Some (fold_left (λ acc v, acc ++ sep ++ v) vs' v)
  end.

Lemma own_set o k v k' :
  k' ≠ js "__proto__" → own (obj_set o k v) k' = if decide (k = k') then Some v else own o k'.
Proof.
  intros Hp. unfold obj_set. destruct (decide (k = js "__proto__")) as [->|]; [|apply own_put].
  by rewrite decide_False by congruence.
Qed.

Lemma join_values_snoc sep vs v :
  join_values sep (vs ++ [v]) =
    Some (match join_values sep vs with Some e => e ++ sep ++ v | None => v end).
Proof.
  destruct vs as [|v0 vs]; [done|]. cbn [join_values app]. by rewrite fold_left_app.
Qed.

(** The header object of a response gives, for every regular field name that is not a
    property of [Object.prototype], the values of all fields of that name in wire order, joined
    with a comma (with a semicolon for cookies); an absent name is undefined. *)
Theorem collectHeaders_get raw name :
  starts_with_colon name = false → inherited name = None →
  obj_get (hh_headers (collectHeaders raw)) name =
    join_values (separator name) (field_values raw name).
Proof.
  intros Hcolon Hinh. unfold obj_get. rewrite Hinh.
  assert (name ≠ js "__proto__") as Hp by (intros ->; vm_compute in Hinh; discriminate).
  unfold collectHeaders.
  set (f := λ '(status, headers) h, if decide (h_name h = js ":status") then _ else _).
  enough (own (snd (fold_left f raw (None, []))) name = join_values (separator name)
    (field_values raw name)) as H.
  { destruct (fold_left f raw (None, [])) as [st hs]. cbn [hh_headers snd] in *. rewrite H.
    by destruct (join_values _ _). }
  induction raw as [|h raw IH] using rev_ind; [done|].
  rewrite fold_left_app. cbn [fold_left]. destruct (fold_left f raw (None, [])) as [st hs].
  unfold field_values in *. rewrite list.filter_app, map_app, filter_cons, filter_nil. cbn [snd] in *.
  unfold f. destruct (decide (h_name h = js ":status")) as [Hst|Hst].
  { rewrite decide_False by (intros <-; by rewrite Hst in Hcolon). by rewrite app_nil_r. }
  destruct (starts_with_colon (h_name h)) eqn:Hc.
  { rewrite decide_False by congruence. by rewrite app_nil_r. }
  cbn [snd]. unfold collect_field, obj_get. destruct (decide (h_name h = name)) as [->|Hne].
  - cbn [map]. rewrite join_values_snoc, <- IH, Hinh.
    destruct (own hs name); rewrite own_set, decide_True by done; done.
  - rewrite app_nil_r, <- IH.
    destruct (match own hs (h_name h) with Some v => Some v | None => _ end);
      by rewrite own_set, decide_False by done.
Qed.

Lemma collectHeaders_get_witness :
  obj_get (hh_headers (collectHeaders
    [mkHeader (js ":status") (js "200") false; mkHeader (js "x-a") (js "1") false;
     mkHeader (js "vary") (js "x") false; mkHeader (js "x-a") (js "2") false])) (js "x-a") =
    Some (js "1, 2").
Proof. rewrite collectHeaders_get by reflexivity. reflexivity. Defined.

(** The exception is real: a field named like an inherited property picks that property up. *)
Example collectHeaders_constructor :
  obj_get (hh_headers (collectHeaders [mkHeader (js "constructor") (js "v") false]))
    (js "constructor") = Some (js "function Object() { [native code] }, v").
Proof. vm_compute. reflexivity. Qed.
