(* ===== verification/Connection.v ===== *)
(** * Connection: [h2/connection.ts] and [h2/types.ts]

    The connection object as a state, one definition per method, and the steps its event loop
    can take.  JavaScript runs each piece of code between two [await]s without interruption, so
    an [async] method becomes one definition per piece.

    - Stream objects live in a store ([objs]); the [Map] of live streams holds references into
      it, so a retired stream whose body is still being read keeps its own state.
    - [send] appends the frame to [wire] unless the connection is closed.  [wire] also records
      the frames that were dispatched, so flow-control accounting can be stated on the wire.
    - [request] and [pumpBody] are resumed by the scheduler: a parked request is a number in
      [streamSlotWaiters] (then in [woken]), a body pump is an entry of [pumps] with a phase.
    - The user's [onPush] callback is a parameter: it returns or throws; a cancellation of the
      push is the separate step [EvPushCancel].
    Times (the result of a ping) are not modelled. *)
From S2P Require Import Prelude Errors Text Bytes Frames HpackTables Huffman Hpack Flow Stream.
Local Open Scope Z_scope.

(** ** [Map] with insertion order *)

Fixpoint map_get {K V} `{EqDecision K} (m : list (K * V)) (k : K) : option V :=
  match m with
  | [] => None
  | (k', v) :: m' => if decide (k' = k) then Some v else map_get m' k
  end.
Fixpoint map_set {K V} `{EqDecision K} (m : list (K * V)) (k : K) (v : V) : list (K * V) :=
  match m with
  | [] => [(k, v)]
  | (k', v') :: m' => if decide (k' = k) then (k', v) :: m' else (k', v') :: map_set m' k v
  end.
Definition map_delete {K V} `{EqDecision K} (m : list (K * V)) (k : K) : list (K * V) :=
  filter (λ e, fst e ≠ k) m.

(** ** Constants and data *)

Definition CONNECTION_PREFACE : bytes := Eval vm_compute in
  js "PRI * HTTP/2.0" ++ [13; 10; 13; 10] ++ js "SM" ++ [13; 10; 13; 10].
Definition SPEC_INITIAL_WINDOW : Z := 65535.
Definition MAX_HEADER_BLOCK_SIZE : Z := 1048576.
Definition DEFAULT_MAX_HEADER_LIST_BYTES : Z := 64 * 1024.
Definition DEFAULT_MAX_HEADER_COUNT : Z := 256.

Definition FORBIDDEN_HEADERS : list jsstring :=
  [ js "connection"; js "host"; js "keep-alive"; js "proxy-connection"; js "transfer-encoding";
    js "upgrade" ].

Inductive HeaderKind := KResponse | KPush (promisedStreamId : Z).

Record PendingHeaderBlock := mkPending {
  pb_streamId : Z;
  pb_kind : HeaderKind;
  pb_endStream : bool;
  pb_fragments : list bytes;
  pb_size : Z;
}.

(** [maxConcurrentStreams]: [None] is [Infinity]. *)
Record RemoteSettings := mkRemote {
  r_initialWindowSize : Z;
  r_maxFrameSize : Z;
  r_headerTableSize : Z;
  r_enablePush : bool;
  r_maxConcurrentStreams : option Z;
}.

Inductive BodyInit := BNone | BString (s : jsstring) | BBytes (b : bytes) | BStream.

Record H2RequestInit := mkInit {
  i_method : option jsstring;
  i_path : option jsstring;
  i_authority : option jsstring;
  i_scheme : option jsstring;
  i_headers : list (jsstring * jsstring);
  i_body : BodyInit;
}.

Record PushedRequest := mkPush {
  push_method : jsstring;
  push_path : jsstring;
  push_authority : jsstring;
  push_scheme : jsstring;
  push_headers : jsobject;
}.

(** Where a body pump is suspended. *)
Inductive PumpPhase :=
| PAwaitChunk            (* the next chunk of the body *)
| PWaitConn              (* [connSendWindow.waitPositive()], parked *)
| PConnOk                (* ... resolved *)
| PWaitStream            (* [stream.sendWindow.waitPositive()], parked *)
| PStreamOk              (* ... resolved *)
| PSending (grant : Z)   (* the write of a DATA frame *)
| PEnding                (* the write of the final DATA frame *)
| PDone.

(** [p_fixed]: chunks still to come of a body that is not a [ReadableStream]. *)
Record Pump := mkPump {
  p_ref : nat;
  p_fixed : option (list bytes);
  p_chunk : bytes;
  p_offset : Z;
  p_phase : PumpPhase;
}.

Inductive Wire := TxPreface | Tx (f : Frame) | Rx (f : Frame).

Record Conn := mkConn {
  decoder : HpackDecoder;
  frameDecoder : FrameDecoder;
  objs : list H2Stream;  (* every stream object ever created *)
  streams : list (Z * nat);  (* the [Map]: id to object, in insertion order *)
  nextStreamId : Z;
  connSendWindow : SendWindow;
  connRecvAvailable : Z;
  remote : RemoteSettings;
  streamSlotWaiters : list nat;
  pendingHeaderBlock : option PendingHeaderBlock;
  pings : list (jsstring * nat);
  pingCounter : Z;
  closedFlag : bool;
  closeError : option exn;
  goawayReceived : bool;
  highestPromised : Z;
  closing : nat;  (* calls of [close] that await their GOAWAY *)
  pumps : list Pump;
  woken : list nat;  (* requests whose slot wait was resolved *)
  pingResults : list (nat * option exn);  (* settled pings: [None] resolved *)
  wire : list Wire;  (* frames written and dispatched, in order *)
}.

Definition set_decoder (x : HpackDecoder) (c : Conn) : Conn :=
  mkConn x (frameDecoder c) (objs c) (streams c) (nextStreamId c) (connSendWindow c)
    (connRecvAvailable c) (remote c) (streamSlotWaiters c) (pendingHeaderBlock c) (pings c)
    (pingCounter c) (closedFlag c) (closeError c) (goawayReceived c) (highestPromised c)
    (closing c) (pumps c) (woken c) (pingResults c) (wire c).
Definition set_frameDecoder (x : FrameDecoder) (c : Conn) : Conn :=
  mkConn (decoder c) x (objs c) (streams c) (nextStreamId c) (connSendWindow c)
    (connRecvAvailable c) (remote c) (streamSlotWaiters c) (pendingHeaderBlock c) (pings c)
    (pingCounter c) (closedFlag c) (closeError c) (goawayReceived c) (highestPromised c)
    (closing c) (pumps c) (woken c) (pingResults c) (wire c).
Definition set_objs (x : list H2Stream) (c : Conn) : Conn :=
  mkConn (decoder c) (frameDecoder c) x (streams c) (nextStreamId c) (connSendWindow c)
    (connRecvAvailable c) (remote c) (streamSlotWaiters c) (pendingHeaderBlock c) (pings c)
    (pingCounter c) (closedFlag c) (closeError c) (goawayReceived c) (highestPromised c)
    (closing c) (pumps c) (woken c) (pingResults c) (wire c).
Definition set_streams (x : list (Z * nat)) (c : Conn) : Conn :=
  mkConn (decoder c) (frameDecoder c) (objs c) x (nextStreamId c) (connSendWindow c)
    (connRecvAvailable c) (remote c) (streamSlotWaiters c) (pendingHeaderBlock c) (pings c)
    (pingCounter c) (closedFlag c) (closeError c) (goawayReceived c) (highestPromised c)
    (closing c) (pumps c) (woken c) (pingResults c) (wire c).
Definition set_nextStreamId (x : Z) (c : Conn) : Conn :=
  mkConn (decoder c) (frameDecoder c) (objs c) (streams c) x (connSendWindow c)
    (connRecvAvailable c) (remote c) (streamSlotWaiters c) (pendingHeaderBlock c) (pings c)
    (pingCounter c) (closedFlag c) (closeError c) (goawayReceived c) (highestPromised c)
    (closing c) (pumps c) (woken c) (pingResults c) (wire c).
Definition set_connSendWindow (x : SendWindow) (c : Conn) : Conn :=
  mkConn (decoder c) (frameDecoder c) (objs c) (streams c) (nextStreamId c) x
    (connRecvAvailable c) (remote c) (streamSlotWaiters c) (pendingHeaderBlock c) (pings c)
    (pingCounter c) (closedFlag c) (closeError c) (goawayReceived c) (highestPromised c)
    (closing c) (pumps c) (woken c) (pingResults c) (wire c).
Definition set_connRecvAvailable (x : Z) (c : Conn) : Conn :=
  mkConn (decoder c) (frameDecoder c) (objs c) (streams c) (nextStreamId c) (connSendWindow c) x
    (remote c) (streamSlotWaiters c) (pendingHeaderBlock c) (pings c) (pingCounter c)
    (closedFlag c) (closeError c) (goawayReceived c) (highestPromised c) (closing c) (pumps c)
    (woken c) (pingResults c) (wire c).
Definition set_remote (x : RemoteSettings) (c : Conn) : Conn :=
  mkConn (decoder c) (frameDecoder c) (objs c) (streams c) (nextStreamId c) (connSendWindow c)
    (connRecvAvailable c) x (streamSlotWaiters c) (pendingHeaderBlock c) (pings c)
    (pingCounter c) (closedFlag c) (closeError c) (goawayReceived c) (highestPromised c)
    (closing c) (pumps c) (woken c) (pingResults c) (wire c).
Definition set_streamSlotWaiters (x : list nat) (c : Conn) : Conn :=
  mkConn (decoder c) (frameDecoder c) (objs c) (streams c) (nextStreamId c) (connSendWindow c)
    (connRecvAvailable c) (remote c) x (pendingHeaderBlock c) (pings c) (pingCounter c)
    (closedFlag c) (closeError c) (goawayReceived c) (highestPromised c) (closing c) (pumps c)
    (woken c) (pingResults c) (wire c).
Definition set_pendingHeaderBlock (x : option PendingHeaderBlock) (c : Conn) : Conn :=
  mkConn (decoder c) (frameDecoder c) (objs c) (streams c) (nextStreamId c) (connSendWindow c)
    (connRecvAvailable c) (remote c) (streamSlotWaiters c) x (pings c) (pingCounter c)
    (closedFlag c) (closeError c) (goawayReceived c) (highestPromised c) (closing c) (pumps c)
    (woken c) (pingResults c) (wire c).
Definition set_pings (x : list (jsstring * nat)) (c : Conn) : Conn :=
  mkConn (decoder c) (frameDecoder c) (objs c) (streams c) (nextStreamId c) (connSendWindow c)
    (connRecvAvailable c) (remote c) (streamSlotWaiters c) (pendingHeaderBlock c) x
    (pingCounter c) (closedFlag c) (closeError c) (goawayReceived c) (highestPromised c)
    (closing c) (pumps c) (woken c) (pingResults c) (wire c).
Definition set_pingCounter (x : Z) (c : Conn) : Conn :=
  mkConn (decoder c) (frameDecoder c) (objs c) (streams c) (nextStreamId c) (connSendWindow c)
    (connRecvAvailable c) (remote c) (streamSlotWaiters c) (pendingHeaderBlock c) (pings c) x
    (closedFlag c) (closeError c) (goawayReceived c) (highestPromised c) (closing c) (pumps c)
    (woken c) (pingResults c) (wire c).
Definition set_closedFlag (x : bool) (c : Conn) : Conn :=
  mkConn (decoder c) (frameDecoder c) (objs c) (streams c) (nextStreamId c) (connSendWindow c)
    (connRecvAvailable c) (remote c) (streamSlotWaiters c) (pendingHeaderBlock c) (pings c)
    (pingCounter c) x (closeError c) (goawayReceived c) (highestPromised c) (closing c)
    (pumps c) (woken c) (pingResults c) (wire c).
Definition set_closeError (x : option exn) (c : Conn) : Conn :=
  mkConn (decoder c) (frameDecoder c) (objs c) (streams c) (nextStreamId c) (connSendWindow c)
    (connRecvAvailable c) (remote c) (streamSlotWaiters c) (pendingHeaderBlock c) (pings c)
    (pingCounter c) (closedFlag c) x (goawayReceived c) (highestPromised c) (closing c)
    (pumps c) (woken c) (pingResults c) (wire c).
Definition set_goawayReceived (x : bool) (c : Conn) : Conn :=
  mkConn (decoder c) (frameDecoder c) (objs c) (streams c) (nextStreamId c) (connSendWindow c)
    (connRecvAvailable c) (remote c) (streamSlotWaiters c) (pendingHeaderBlock c) (pings c)
    (pingCounter c) (closedFlag c) (closeError c) x (highestPromised c) (closing c) (pumps c)
    (woken c) (pingResults c) (wire c).
Definition set_highestPromised (x : Z) (c : Conn) : Conn :=
  mkConn (decoder c) (frameDecoder c) (objs c) (streams c) (nextStreamId c) (connSendWindow c)
    (connRecvAvailable c) (remote c) (streamSlotWaiters c) (pendingHeaderBlock c) (pings c)
    (pingCounter c) (closedFlag c) (closeError c) (goawayReceived c) x (closing c) (pumps c)
    (woken c) (pingResults c) (wire c).
Definition set_closing (x : nat) (c : Conn) : Conn :=
  mkConn (decoder c) (frameDecoder c) (objs c) (streams c) (nextStreamId c) (connSendWindow c)
    (connRecvAvailable c) (remote c) (streamSlotWaiters c) (pendingHeaderBlock c) (pings c)
    (pingCounter c) (closedFlag c) (closeError c) (goawayReceived c) (highestPromised c) x
    (pumps c) (woken c) (pingResults c) (wire c).
Definition set_pumps (x : list Pump) (c : Conn) : Conn :=
  mkConn (decoder c) (frameDecoder c) (objs c) (streams c) (nextStreamId c) (connSendWindow c)
    (connRecvAvailable c) (remote c) (streamSlotWaiters c) (pendingHeaderBlock c) (pings c)
    (pingCounter c) (closedFlag c) (closeError c) (goawayReceived c) (highestPromised c)
    (closing c) x (woken c) (pingResults c) (wire c).
Definition set_woken (x : list nat) (c : Conn) : Conn :=
  mkConn (decoder c) (frameDecoder c) (objs c) (streams c) (nextStreamId c) (connSendWindow c)
    (connRecvAvailable c) (remote c) (streamSlotWaiters c) (pendingHeaderBlock c) (pings c)
    (pingCounter c) (closedFlag c) (closeError c) (goawayReceived c) (highestPromised c)
    (closing c) (pumps c) x (pingResults c) (wire c).
Definition set_pingResults (x : list (nat * option exn)) (c : Conn) : Conn :=
  mkConn (decoder c) (frameDecoder c) (objs c) (streams c) (nextStreamId c) (connSendWindow c)
    (connRecvAvailable c) (remote c) (streamSlotWaiters c) (pendingHeaderBlock c) (pings c)
    (pingCounter c) (closedFlag c) (closeError c) (goawayReceived c) (highestPromised c)
    (closing c) (pumps c) (woken c) x (wire c).
Definition set_wire (x : list Wire) (c : Conn) : Conn :=
  mkConn (decoder c) (frameDecoder c) (objs c) (streams c) (nextStreamId c) (connSendWindow c)
    (connRecvAvailable c) (remote c) (streamSlotWaiters c) (pendingHeaderBlock c) (pings c)
    (pingCounter c) (closedFlag c) (closeError c) (goawayReceived c) (highestPromised c)
    (closing c) (pumps c) (woken c) (pingResults c) x.

(** The fields the constructor fixes. *)
Record Config := mkConfig {
  onPush : option (PushedRequest → result exn unit);
  localMaxFrameSize : Z;
  localInitialWindow : Z;
  connRecvWindow : Z;
}.

(** ** Helper functions of the module *)

Definition hex_digit (n : Z) : Z := if n <? 10 then 0x30 + n else 0x61 + (n - 10).
Definition hex (b : bytes) : jsstring := b ≫= λ x, [hex_digit (x / 16); hex_digit (x mod 16)].

Definition validWindow (value : Z) : bool := (0 <=? value) && (value <=? 0x7fffffff).
Definition validConnectionWindow (value : Z) : bool :=
  (SPEC_INITIAL_WINDOW <=? value) && (value <=? 0x7fffffff).

Definition isIdleInboundStream (streamId nextLocalStreamId highestPromised : Z) : bool :=
  if streamId =? 0 then true
  else if streamId mod 2 =? 1 then nextLocalStreamId <=? streamId else highestPromised <? streamId.

Fixpoint pseudo (headers : list Header) (name : jsstring) : option jsstring :=
  match headers with
  | [] => None
  | h :: hs => if decide (h_name h = name) then Some (h_value h) else pseudo hs name
  end.

Definition collectRequestHead (raw : list Header) : HeadHead :=
  mkHead false None
    (fold_left
      (λ headers h,
         if starts_with_colon (h_name h) then headers
         else obj_set headers (h_name h)
                match obj_get headers (h_name h) with
                | None => h_value h
                | Some existing => existing ++ js ", " ++ h_value h
                end)
      raw []) raw.

(** [toUpperCase] on the ASCII letters, as [toLowerCase]. *)
Definition toUpperCase (s : jsstring) : jsstring :=
  map (λ u, if (0x61 <=? u) && (u <=? 0x7a) then u - 32 else u) s.

Definition buildRequestHeaders (init : H2RequestInit) : list Header :=
  [ mkHeader (js ":method") (toUpperCase (default (js "GET") (i_method init))) false;
    mkHeader (js ":scheme") (default (js "http") (i_scheme init)) false ]
  ++ match i_authority init with
     | Some (u :: a) => [ mkHeader (js ":authority") (u :: a) false ]
     | _ => []
     end
  ++ [ mkHeader (js ":path") (default (js "/") (i_path init)) false ]
  ++ (i_headers init ≫= λ '(rawName, value),
        let name := toLowerCase rawName in
        if starts_with_colon name then []
        else if decide (name ∈ FORBIDDEN_HEADERS) then []
        else [ mkHeader name value
                 (bool_decide (name = js "authorization") || bool_decide (name = js "cookie")) ]).

Definition bodyIsEmpty (body : BodyInit) : bool :=
  match body with
  | BNone => true
  | BString s => zlen s =? 0
  | BBytes b => zlen b =? 0
  | BStream => false
  end.

(** The chunks [iterateBody] yields when they do not come from a [ReadableStream]. *)
Definition fixed_chunks (body : BodyInit) : option (list bytes) :=
  match body with
  | BNone => Some []
  | BString s => Some [encodeUtf8 s]
  | BBytes b => Some [b]
  | BStream => None
  end.

(** ** Streams and pumps *)

Definition with_obj (r : nat) (f : H2Stream → H2Stream) (c : Conn) : Conn :=
  set_objs (alter f r (objs c)) c.

(** [this.streams.get(id)]: the object, with its reference. *)
Definition get_stream (sid : Z) (c : Conn) : option (nat * H2Stream) :=
  match map_get (streams c) sid with
  | Some r => match objs c !! r with Some s => Some (r, s) | None => None end
  | None => None
  end.

Definition wake_pump (p : Pump) : Pump :=
  mkPump (p_ref p) (p_fixed p) (p_chunk p) (p_offset p)
    match p_phase p with
    | PWaitConn => PConnOk
    | PWaitStream => PStreamOk
    | ph => ph
    end.
Definition wake_pumps (ids : list nat) (c : Conn) : Conn :=
  set_pumps (fold_left (λ ps i, alter wake_pump i ps) ids (pumps c)) c.

Definition fail_stream (err : exn) (r : nat) (c : Conn) : Conn :=
  match objs c !! r with
  | None => c
  | Some s => let '(s', ids) := fail err s in wake_pumps ids (with_obj r (λ _, s') c)
  end.

(** ** The write path *)

Definition send (f : Frame) (c : Conn) : Conn :=
  if closedFlag c then c else set_wire (wire c ++ [Tx f]) c.

(** [close] up to its [await]. *)
Definition close (c : Conn) : Conn :=
  if closedFlag c then c
  else set_closing (S (closing c)) (send (GoawayFrame (highestPromised c) 0 []) c).

(** ** Slots and windows *)

Definition activeStreams (c : Conn) : Z :=
  zlen (filter (λ e : Z * nat, fst e mod 2 = 1) (streams c)).

Definition canOpenStream (c : Conn) : bool :=
  match r_maxConcurrentStreams (remote c) with
  | None => true
  | Some m => activeStreams c <? m
  end.

Definition wakeStreamSlots (c : Conn) : Conn :=
  let c := if goawayReceived c && (zlen (streams c) =? 0) && negb (closedFlag c)
           then close c else c in
  match streamSlotWaiters c with
  | [] => c
  | pending => set_woken (woken c ++ pending) (set_streamSlotWaiters [] c)
  end.

Definition replenishConnectionWindow (n : Z) (c : Conn) : Conn :=
  if closedFlag c || (n <=? 0) then c
  else send (WindowUpdateFrame 0 n) (set_connRecvAvailable (connRecvAvailable c + n) c).

Definition replenishRecvWindow (streamId n : Z) (c : Conn) : Conn :=
  if closedFlag c || (n <=? 0) then c
  else
    replenishConnectionWindow n
      match get_stream streamId c with
      | Some (r, s) =>
          if remoteClosed s then c
          else send (WindowUpdateFrame streamId n) (with_obj r (add_recvWindow n) c)
      | None => c
      end.

(** ** Teardown *)

Definition delete_stream (sid : Z) (c : Conn) : Conn :=
  set_streams (map_delete (streams c) sid) c.

Definition discard_stream (r : nat) (s : H2Stream) (c : Conn) : Conn :=
  let '(s', n) := discardBuffered s in
  replenishConnectionWindow n (with_obj r (λ _, s') c).

Definition resetStream (sid : Z) (code : ErrorCodeName) (c : Conn) : Conn :=
  let stream := get_stream sid c in
  let c := send (RstStreamFrame sid (errorCodeValue code)) c in
  match stream with
  | None => c
  | Some (r, s) =>
      let c := discard_stream r s c in
      let c := with_obj r (set_state closed) c in
      let c := delete_stream sid c in
      let c := wakeStreamSlots c in
      fail_stream (EH2 (h2_stream_error code sid)) r c
  end.

Definition retireIfFullyClosed (sid : Z) (c : Conn) : Conn :=
  match get_stream sid c with
  | Some (r, s) =>
      if localClosed s && remoteClosed s
      then wakeStreamSlots (delete_stream sid (with_obj r (set_state closed) c))
      else c
  | None => c
  end.

Definition destroy (err : exn) (c : Conn) : Conn :=
  if closedFlag c then c
  else
    let c := set_closeError (Some err) (set_closedFlag true c) in
    let '(w, ids) := sw_close (connSendWindow c) in
    let c := wake_pumps ids (set_connSendWindow w c) in
    let c := fold_left (λ c '(_, r), fail_stream err r c) (streams c) c in
    let c := set_streams [] c in
    let c := wakeStreamSlots c in
    set_pings []
      (set_pingResults (pingResults c ++ map (λ '(_, t), (t, Some err)) (pings c)) c).

Definition connectionError (err : exn) (c : Conn) : Conn :=
  destroy err (send (GoawayFrame (highestPromised c) (errorCodeValue (exn_code err)) []) c).

(** ** Dispatch: one definition per frame type *)

Abbreviation Cn := (M Conn exn unit).

Definition conn_throw (code : ErrorCodeName) : Cn := throw (EH2 (h2_error code)).

Definition guardHeaderBlockSize : Cn := λ c,
  match pendingHeaderBlock c with
  | Some pb => if MAX_HEADER_BLOCK_SIZE <? pb_size pb then conn_throw ENHANCE_YOUR_CALM c
               else (c, Ok tt)
  | None => (c, Ok tt)
  end.

Definition adjust_stream (delta : Z) (c : Conn) (r : nat) : Conn :=
  match objs c !! r with
  | None => c
  | Some s => let '(w, ids) := sw_adjust delta (sendWindow s) in
              wake_pumps ids (with_obj r (set_sendWindow w) c)
  end.

Definition apply_initial_window (v : option Z) : Cn := λ c,
  match v with
  | None => (c, Ok tt)
  | Some n =>
      if 0x7fffffff <? n then conn_throw FLOW_CONTROL_ERROR c
      else
        let r := remote c in
        let delta := n - r_initialWindowSize r in
        let c := set_remote (mkRemote n (r_maxFrameSize r) (r_headerTableSize r) (r_enablePush r)
                   (r_maxConcurrentStreams r)) c in
        (fold_left (λ c '(_, r), adjust_stream delta c r) (streams c) c, Ok tt)
  end.

Definition apply_max_frame_size (v : option Z) : Cn := λ c,
  match v with
  | None => (c, Ok tt)
  | Some n =>
      if (n <? 16384) || (16777215 <? n) then conn_throw PROTOCOL_ERROR c
      else
        let r := remote c in
        (set_remote (mkRemote (r_initialWindowSize r) n (r_headerTableSize r) (r_enablePush r)
           (r_maxConcurrentStreams r)) c, Ok tt)
  end.

Definition apply_other_settings (s : Settings) (c : Conn) : Conn :=
  let r := remote c in
  let c := set_remote (mkRemote (r_initialWindowSize r) (r_maxFrameSize r)
             (default (r_headerTableSize r) (headerTableSize s))
             (default (r_enablePush r) (enablePush s))
             match maxConcurrentStreams s with
             | Some n => Some n | None => r_maxConcurrentStreams r end) c in
  match maxConcurrentStreams s with Some _ => wakeStreamSlots c | None => c end.

Definition applyRemoteSettings (s : Settings) : Cn :=
  apply_initial_window (initialWindowSize s);;
  apply_max_frame_size (maxFrameSize s);;
  modify (apply_other_settings s).

Definition on_settings (ack : bool) (s : Settings) : Cn :=
  if ack then mret tt
  else applyRemoteSettings s;; modify (send (SettingsFrame true no_settings)).

Section config.
Context (cfg : Config).

Definition handlePush (promisedId : Z) (requestHeaders : list Header) : Cn := λ c,
  let c := if highestPromised c <? promisedId then set_highestPromised promisedId c else c in
  match onPush cfg with
  | None => (send (RstStreamFrame promisedId (errorCodeValue REFUSED_STREAM)) c, Ok tt)
  | Some callback =>
      let s := set_localClosed (stream_new promisedId (r_initialWindowSize (remote c))
                 reservedRemote (localInitialWindow cfg)) in
      let c := set_streams (map_set (streams c) promisedId (length (objs c)))
                 (set_objs (objs c ++ [s]) c) in
      let req := collectRequestHead requestHeaders in
      (c, callback (mkPush (default (js "GET") (pseudo requestHeaders (js ":method")))
                           (default (js "/") (pseudo requestHeaders (js ":path")))
                           (default [] (pseudo requestHeaders (js ":authority")))
                           (default (js "http") (pseudo requestHeaders (js ":scheme")))
                           (hh_headers req)))
  end.

Definition completeHeaderBlock : Cn := λ c,
  match pendingHeaderBlock c with
  | None => (c, Ok tt)   (* not reached: the callers have just set it *)
  | Some pb =>
      let c := set_pendingHeaderBlock None c in
      let block := match pb_fragments pb with [b] => b | fs => concatBytes fs end in
      let '(d, x) := hd_decode block
        (Some (mkLimits DEFAULT_MAX_HEADER_LIST_BYTES DEFAULT_MAX_HEADER_COUNT
                 (Some (pb_streamId pb)))) (decoder c) in
      let c := set_decoder d c in
      match x with
      | Throw e => (c, Throw e)
      | Ok headers =>
          match pb_kind pb with
          | KResponse =>
              (match get_stream (pb_streamId pb) c with
               | None => c
               | Some (r, _) =>
                   let c := with_obj r (receiveHeaders headers (pb_endStream pb)) c in
                   if pb_endStream pb
                   then retireIfFullyClosed (pb_streamId pb) (with_obj r set_remoteClosed c)
                   else c
               end, Ok tt)
          | KPush promisedId => handlePush promisedId headers c
          end
      end
  end.

Definition begin_block (sid : Z) (kind : HeaderKind) (endStream : bool) (fragment : bytes)
    (endHeaders : bool) : Cn :=
  modify (set_pendingHeaderBlock (Some (mkPending sid kind endStream [fragment] (zlen fragment))));;
  guardHeaderBlockSize;;
  if endHeaders then completeHeaderBlock else mret tt.

Definition on_continuation (sid : Z) (fragment : bytes) (endHeaders : bool) : Cn := λ c,
  match pendingHeaderBlock c with
  | None => conn_throw PROTOCOL_ERROR c
  | Some pb =>
      if negb (pb_streamId pb =? sid) then conn_throw PROTOCOL_ERROR c
      else
        (modify (set_pendingHeaderBlock (Some (mkPending (pb_streamId pb) (pb_kind pb)
           (pb_endStream pb) (pb_fragments pb ++ [fragment]) (pb_size pb + zlen fragment))));;
         guardHeaderBlockSize;;
         if endHeaders then completeHeaderBlock else mret tt) c
  end.

(** DATA for a stream that is live and not half-closed by the peer. *)
Definition data_on_stream (sid : Z) (r : nat) (s : H2Stream) (data : bytes) (flowBytes : Z)
    (endStream : bool) (c : Conn) : Conn :=
  let c := with_obj r (add_recvWindow (- flowBytes)) c in
  let discardedPadding := flowBytes - zlen data in
  let c := if 0 <? discardedPadding then replenishRecvWindow sid discardedPadding c else c in
  let c := with_obj r (receiveData data endStream) c in
  if endStream then retireIfFullyClosed sid (with_obj r set_remoteClosed c) else c.

Definition on_data (sid : Z) (data : bytes) (flowControlledLength : option Z) (endStream : bool)
    : Cn := λ c,
  let stream := get_stream sid c in
  let flowBytes := default (zlen data) flowControlledLength in
  if connRecvAvailable c <? flowBytes then conn_throw FLOW_CONTROL_ERROR c
  else
    let c := set_connRecvAvailable (connRecvAvailable c - flowBytes) c in
    match stream with
    | Some (r, s) =>
        if remoteClosed s then
          (resetStream sid STREAM_CLOSED (replenishConnectionWindow flowBytes c), Ok tt)
        else if recvWindow s <? flowBytes then
          (resetStream sid FLOW_CONTROL_ERROR (replenishConnectionWindow flowBytes c), Ok tt)
        else (data_on_stream sid r s data flowBytes endStream c, Ok tt)
    | None =>
        let c := replenishConnectionWindow flowBytes c in
        if isIdleInboundStream sid (nextStreamId c) (highestPromised c)
        then conn_throw PROTOCOL_ERROR c
        else (send (RstStreamFrame sid (errorCodeValue STREAM_CLOSED)) c, Ok tt)
    end.

Definition on_rst_stream (sid errorCode : Z) (c : Conn) : Conn :=
  match get_stream sid c with
  | None => c
  | Some (r, s) =>
      let c := discard_stream r s c in
      let c := fail_stream (reset_error (id s) errorCode) r c in
      wakeStreamSlots (delete_stream sid c)
  end.

Definition on_window_update (sid increment : Z) : Cn := λ c,
  if increment =? 0 then
    if sid =? 0 then conn_throw PROTOCOL_ERROR c else (resetStream sid PROTOCOL_ERROR c, Ok tt)
  else if sid =? 0 then
    let '(w, ids) := sw_update increment (connSendWindow c) in
    (wake_pumps ids (set_connSendWindow w c), Ok tt)
  else
    (match get_stream sid c with
     | None => c
     | Some (r, s) => let '(w, ids) := sw_update increment (sendWindow s) in
                      wake_pumps ids (with_obj r (set_sendWindow w) c)
     end, Ok tt).

Definition on_ping (ack : bool) (opaque : bytes) (c : Conn) : Conn :=
  if ack then
    match map_get (pings c) (hex opaque) with
    | Some t => set_pingResults (pingResults c ++ [(t, None)])
                  (set_pings (map_delete (pings c) (hex opaque)) c)
    | None => c
    end
  else send (PingFrame true opaque) c.

(** The error given to a stream that GOAWAY excludes. *)
Definition excluded (errorCode sid : Z) : exn :=
  EH2 (mkH2Error (default NO_ERROR (errorCodeName errorCode)) (Some sid) (Some Refused)).

Definition on_goaway (lastStreamId errorCode : Z) (c : Conn) : Conn :=
  let c := set_goawayReceived true c in
  let c := fold_left
    (λ c '(sid, r),
       if lastStreamId <? sid
       then delete_stream sid (fail_stream (excluded errorCode sid) r c) else c)
    (streams c) c in
  let c := wakeStreamSlots c in
  if errorCode =? 0 then c
  else destroy (EH2 (h2_error (default NO_ERROR (errorCodeName errorCode)))) c.

Definition is_continuation (f : Frame) : bool :=
  match f with ContinuationFrame _ _ _ => true | _ => false end.

Definition dispatch (f : Frame) : Cn := λ c,
  let c := set_wire (wire c ++ [Rx f]) c in
  if bool_decide (is_Some (pendingHeaderBlock c)) && negb (is_continuation f)
  then conn_throw PROTOCOL_ERROR c
  else
    match f with
    | SettingsFrame ack s => on_settings ack s c
    | HeadersFrame sid fragment endStream endHeaders _ =>
        begin_block sid KResponse endStream fragment endHeaders c
    | ContinuationFrame sid fragment endHeaders => on_continuation sid fragment endHeaders c
    | PushPromiseFrame sid promised fragment endHeaders =>
        begin_block sid (KPush promised) false fragment endHeaders c
    | DataFrame sid data flow endStream => on_data sid data flow endStream c
    | RstStreamFrame sid code => (on_rst_stream sid code c, Ok tt)
    | WindowUpdateFrame sid increment => on_window_update sid increment c
    | PingFrame ack opaque => (on_ping ack opaque c, Ok tt)
    | GoawayFrame last code _ => (on_goaway last code c, Ok tt)
    | PriorityFrame _ _ => (c, Ok tt)
    end.

(** The loop over the decoded frames. *)
Fixpoint dispatch_all (frames : list Frame) (c : Conn) : Conn :=
  match frames with
  | [] => c
  | f :: fs =>
      match dispatch f c with
      | (c', Ok _) => dispatch_all fs c'
      | (c', Throw (EH2 (mkH2Error code (Some sid) _))) =>
          dispatch_all fs (resetStream sid code c')
      | (c', Throw e) => connectionError e c'
      end
  end.

Definition onBytes (chunk : bytes) (c : Conn) : Conn :=
  let '(fd, x) := fd_push chunk (frameDecoder c) in
  let c := set_frameDecoder fd c in
  match x with
  | Throw e => connectionError e c
  | Ok frames => dispatch_all frames c
  end.

(** ** Requests *)

(** The [while] loop of [sendHeaders]: every round advances by at least one byte, so the length
    of the block is fuel enough. *)
Fixpoint send_continuations (fuel : nat) (sid : Z) (block : bytes) (max offset : Z) (c : Conn)
    : Conn :=
  match fuel with
  | O => c
  | S fuel' =>
      if offset <? zlen block then
        let next := Z.min (offset + max) (zlen block) in
        send_continuations fuel' sid block max next
          (send (ContinuationFrame sid (subarray block offset next) (zlen block <=? next)) c)
      else c
  end.

Definition send_block (sid : Z) (block : bytes) (endStream : bool) (c : Conn) : Conn :=
  let max := r_maxFrameSize (remote c) in
  if zlen block <=? max then send (HeadersFrame sid block endStream true None) c
  else
    send_continuations (length block) sid block max max
      (send (HeadersFrame sid (subarray block 0 max) endStream false None) c).

Definition sendHeaders (sid : Z) (headers : list Header) (endStream : bool) (c : Conn) : Conn :=
  send_block sid (he_encode ByteWriter headers) endStream c.

(** [check]: [aborted] is the reason of an aborted signal. *)
Definition request_check (aborted : option exn) (c : Conn) : option exn :=
  match aborted with
  | Some e => Some e
  | None => if closedFlag c || goawayReceived c
            then Some (EH2 (mkH2Error REFUSED_STREAM None (Some Unsent))) else None
  end.

(** The connection setup failed ([ready] rejected). *)
Definition request_setup_failed (aborted : option exn) (c : Conn) : exn :=
  match request_check aborted c with
  | Some e => e
  | None => EH2 (h2_error INTERNAL_ERROR)
  end.

Inductive Admission :=
| Refuse (e : exn)
| Park
| Admit (r : nat).

(** From the reservation of the slot to the [await] of the response head.  The signal cannot
    become aborted between the last [check] and here, since nothing awaits in between. *)
Definition open_stream (init : H2RequestInit) (c : Conn) : Conn * Admission :=
  let sid := nextStreamId c in
  let c := set_nextStreamId (sid + 2) c in
  let r := length (objs c) in
  let s := stream_new sid (r_initialWindowSize (remote c)) open (localInitialWindow cfg) in
  let c := set_streams (map_set (streams c) sid r) (set_objs (objs c ++ [s]) c) in
  let headers := buildRequestHeaders init in
  let hasBody := negb (bodyIsEmpty (i_body init)) in
  let c := sendHeaders sid headers (negb hasBody) c in
  let c := with_obj r (set_state (if hasBody then open else halfClosedLocal)) c in
  (if hasBody
   then set_pumps (pumps c ++ [mkPump r (fixed_chunks (i_body init)) [] 0 PAwaitChunk]) c
   else with_obj r set_localClosed c,
   Admit r).

(** [request] number [t] from [await this.ready], or from a wake-up, to its next [await]. *)
Definition request_resume (t : nat) (init : H2RequestInit) (aborted : option exn) (c : Conn)
    : Conn * Admission :=
  match request_check aborted c with
  | Some e => (c, Refuse e)
  | None =>
      if canOpenStream c then open_stream init c
      else (set_streamSlotWaiters (streamSlotWaiters c ++ [t]) c, Park)
  end.

(** The abort listener of a parked request. *)
Definition abort_parked (t : nat) (c : Conn) : Conn :=
  if decide (t ∈ streamSlotWaiters c)
  then set_woken (woken c ++ [t]) (set_streamSlotWaiters (filter (λ t', t' ≠ t) (streamSlotWaiters c)) c)
  else c.

(** The abort listener of an admitted request, and the handler of a failed body pump: the
    stream object fails with [e], then the stream is reset.  The abort listener does nothing
    when the id is gone; the pump's handler fails the object in any case. *)
Definition abort_request (r : nat) (e : exn) (c : Conn) : Conn :=
  match objs c !! r with
  | None => c
  | Some s =>
      if bool_decide (is_Some (map_get (streams c) (id s)))
      then resetStream (id s) CANCEL (fail_stream e r c) else c
  end.

Definition pump_failed (r : nat) (e : exn) (c : Conn) : Conn :=
  match objs c !! r with
  | None => c
  | Some s =>
      let c := fail_stream e r c in
      if bool_decide (is_Some (map_get (streams c) (id s))) then resetStream (id s) CANCEL c else c
  end.

(** ** The body pump *)

Definition set_pump (i : nat) (p : Pump) (c : Conn) : Conn := set_pumps (<[i := p]> (pumps c)) c.

Definition pump_at (p : Pump) (ph : PumpPhase) : Pump :=
  mkPump (p_ref p) (p_fixed p) (p_chunk p) (p_offset p) ph.

(** [this.closedFlag || stream.sendWindow.isClosed]. *)
Definition pump_stopped (s : H2Stream) (c : Conn) : bool :=
  closedFlag c || sw_closed (sendWindow s).

(** The head of the inner [while]: up to [await this.connSendWindow.waitPositive()]. *)
Definition pump_top (i : nat) (p : Pump) (s : H2Stream) (c : Conn) : Conn :=
  if p_offset p <? zlen (p_chunk p) then
    if pump_stopped s c then set_pump i (pump_at p PDone) c
    else
      let '(w, now) := sw_waitPositive i (connSendWindow c) in
      set_pump i (pump_at p (if now : bool then PConnOk else PWaitConn)) (set_connSendWindow w c)
  else set_pump i (pump_at p PAwaitChunk) c.

(** From the second [waitPositive] to the [await] of the write. *)
Definition pump_grant (i : nat) (p : Pump) (s : H2Stream) (c : Conn) : Conn :=
  if pump_stopped s c then set_pump i (pump_at p PDone) c
  else
    let grant := Z.min (Z.min (Z.min (zlen (p_chunk p) - p_offset p) (available (connSendWindow c)))
                              (available (sendWindow s))) (r_maxFrameSize (remote c)) in
    if grant <=? 0 then pump_top i p s c
    else
      let slice := subarray (p_chunk p) (p_offset p) (p_offset p + grant) in
      let c := set_connSendWindow (sw_consume grant (connSendWindow c)) c in
      let c := with_obj (p_ref p) (set_sendWindow (sw_consume grant (sendWindow s))) c in
      set_pump i (pump_at p (PSending grant)) (send (DataFrame (id s) slice None false) c).

(** The body is exhausted. *)
Definition pump_end (i : nat) (p : Pump) (s : H2Stream) (c : Conn) : Conn :=
  if pump_stopped s c || negb (bool_decide (is_Some (map_get (streams c) (id s))))
  then set_pump i (pump_at p PDone) c
  else set_pump i (pump_at p PEnding) (send (DataFrame (id s) [] None true) c).

(** The chunk that a suspended [for await] receives: of a fixed body the next one, of a
    [ReadableStream] what its reader delivered ([None] at its end; empty chunks are skipped). *)
Definition pump_next (i : nat) (p : Pump) (s : H2Stream) (delivered : option bytes) (c : Conn)
    : Conn :=
  match p_fixed p with
  | Some [] => pump_end i p s c
  | Some (chunk :: rest) => pump_top i (mkPump (p_ref p) (Some rest) chunk 0 PAwaitChunk) s c
  | None =>
      match delivered with
      | None => pump_end i p s c
      | Some [] => c
      | Some chunk => pump_top i (mkPump (p_ref p) None chunk 0 PAwaitChunk) s c
      end
  end.

(** Resume pump [i]: one run from its [await] to the next. *)
Definition pump_step (i : nat) (delivered : option bytes) (c : Conn) : Conn :=
  match pumps c !! i with
  | None => c
  | Some p =>
      match objs c !! p_ref p with
      | None => c
      | Some s =>
          match p_phase p with
          | PAwaitChunk => pump_next i p s delivered c
          | PWaitConn | PWaitStream | PDone => c
          | PConnOk =>
              let '(w, now) := sw_waitPositive i (sendWindow s) in
              set_pump i (pump_at p (if now : bool then PStreamOk else PWaitStream))
                (with_obj (p_ref p) (set_sendWindow w) c)
          | PStreamOk => pump_grant i p s c
          | PSending grant =>
              pump_top i (mkPump (p_ref p) (p_fixed p) (p_chunk p) (p_offset p + grant) PAwaitChunk)
                s c
          | PEnding =>
              let c := with_obj (p_ref p) (λ s, set_localClosed (set_state halfClosedLocal s)) c in
              set_pump i (pump_at p PDone) (retireIfFullyClosed (id s) c)
          end
      end
  end.

(** A pump that throws: the body's reader failed, or a write did. *)
Definition pump_throws (i : nat) (e : exn) (c : Conn) : Conn :=
  match pumps c !! i with
  | None => c
  | Some p =>
      match p_phase p with
      | PAwaitChunk | PSending _ | PEnding => pump_failed (p_ref p) e (set_pump i (pump_at p PDone) c)
      | _ => c
      end
  end.

(** ** Response bodies *)

Definition body_pull (r : nat) (c : Conn) : Conn :=
  match objs c !! r with
  | None => c
  | Some s =>
      if bodyDone s || recvNotify s then c
      else
        let '(s', consumed) := pullBody s in
        let c := with_obj r (λ _, s') c in
        match consumed with Some n => replenishRecvWindow (id s) n c | None => c end
  end.

Definition body_cancel (r : nat) (c : Conn) : Conn :=
  match objs c !! r with
  | None => c
  | Some s =>
      let '(s', live) := cancel_begin s in
      let c := with_obj r (λ _, s') c in
      let c := if 0 <? recvBuffered s then replenishRecvWindow (id s) (recvBuffered s) c else c in
      let c := with_obj r cancel_clear c in
      if live && bool_decide (is_Some (map_get (streams c) (id s)))
      then resetStream (id s) CANCEL c else c
  end.

(** ** Ping, close, transport *)

(** [ping] number [t]. *)
Definition ping (t : nat) (c : Conn) : Conn :=
  let n := pingCounter c + 1 in
  let c := set_pingCounter n c in
  let opaque := [0; 0; 0; 0] ++ be32 (js_shru n 0) in
  if closedFlag c then
    set_pingResults (pingResults c ++ [(t, Some (default (EH2 (h2_error INTERNAL_ERROR)) (closeError c)))]) c
  else send (PingFrame false opaque) (set_pings (map_set (pings c) (hex opaque) t) c).

(** [close] after its [await]. *)
Definition close_finish (c : Conn) : Conn :=
  match closing c with
  | O => c
  | S n => destroy (EH2 (h2_error NO_ERROR)) (set_closing n c)
  end.

(** ** The steps of the event loop *)

Inductive Event :=
| EvBytes (chunk : bytes)
| EvTransportEnd
| EvTransportError (e : exn)              (* reading or writing failed *)
| EvRequest (t : nat) (init : H2RequestInit) (aborted : option exn)
| EvAbortParked (t : nat)
| EvAbort (r : nat) (e : exn)
| EvPump (i : nat) (delivered : option bytes)
| EvPumpThrows (i : nat) (e : exn)
| EvPull (r : nat)
| EvCancel (r : nat)
| EvPushCancel (promisedId : Z)
| EvPing (t : nat)
| EvClose
| EvCloseFinish.

Definition step (ev : Event) (c : Conn) : Conn :=
  match ev with
  | EvBytes chunk => if zlen chunk =? 0 then c else onBytes chunk c
  | EvTransportEnd => destroy (EH2 (h2_error NO_ERROR)) c
  | EvTransportError e => destroy e c
  | EvRequest t init aborted => fst (request_resume t init aborted c)
  | EvAbortParked t => abort_parked t c
  | EvAbort r e => abort_request r e c
  | EvPump i delivered => pump_step i delivered c
  | EvPumpThrows i e => pump_throws i e c
  | EvPull r => body_pull r c
  | EvCancel r => body_cancel r c
  | EvPushCancel sid => resetStream sid CANCEL c
  | EvPing t => ping t c
  | EvClose => close c
  | EvCloseFinish => close_finish c
  end.
End config.

(** ** The constructor *)

Record ConnectOptions := mkOptions {
  o_headerTableSize : option Z;
  o_enablePush : option bool;
  o_initialWindowSize : option Z;
  o_maxFrameSize : option Z;
  o_connectionWindowSize : option Z;
  o_onPush : option (PushedRequest → result exn unit);
}.

Definition connection_new (o : ConnectOptions) : result exn (Config * Conn) :=
  let maxFrame := default DEFAULT_MAX_FRAME_SIZE (o_maxFrameSize o) in
  let initialWindow := default (1024 * 1024) (o_initialWindowSize o) in
  let recvWindow := default (64 * 1024 * 1024) (o_connectionWindowSize o) in
  if negb (validWindow initialWindow) || negb (validConnectionWindow recvWindow)
  then Throw ERangeError
  else
    let tableSize := default 4096 (o_headerTableSize o) in
    let push := default true (o_enablePush o) in
    let c := mkConn (hd_new tableSize) (fd_new maxFrame) [] [] 1 (sw_new SPEC_INITIAL_WINDOW)
      recvWindow (mkRemote SPEC_INITIAL_WINDOW DEFAULT_MAX_FRAME_SIZE 4096 true None) [] None [] 0
      false None false 0 0 [] [] [] [TxPreface] in
    let c := send (SettingsFrame false (mkSettings (Some tableSize) (Some push) None
               (Some initialWindow) (Some maxFrame) (Some DEFAULT_MAX_HEADER_LIST_BYTES))) c in
    let connGrow := recvWindow - SPEC_INITIAL_WINDOW in
    let c := if 0 <? connGrow then send (WindowUpdateFrame 0 connGrow) c else c in
    Ok (mkConfig (o_onPush o) maxFrame initialWindow recvWindow, c).

(** States the event loop can reach. *)
Inductive reachable (o : ConnectOptions) (cfg : Config) : Conn → Prop :=
| reach_new c : connection_new o = Ok (cfg, c) → reachable o cfg c
| reach_step c ev : reachable o cfg c → reachable o cfg (step cfg ev c).
