(* ===== verification/ConnectionInv.v ===== *)
(** * ConnectionInv: the invariant of the connection

    Flow-control accounting on both sides, the shape of the stream store and the stream ids,
    proved for every method and carried through every step of the event loop. *)
From S2P Require Import Prelude Errors Text Bytes Frames HpackTables Huffman Hpack Flow Stream.
From S2P Require Import Connection.
Local Open Scope Z_scope.

#[local] Opaque HUFFMAN_CODES ROOT STATIC_TABLE staticPairToIndex staticNameToIndex hd_decode
  he_encode.

(** ** [Map] *)

Section maps.
Context {K V : Type} `{EqDecision K}.
Implicit Types (m : list (K * V)).

Lemma map_get_set m k k' v :
  map_get (map_set m k v) k' = if decide (k = k') then Some v else map_get m k'.
Proof.
  induction m as [|[k0 v0] m IH]; cbn [map_get map_set]; [done|].
  destruct (decide (k0 = k)) as [->|Hne]; cbn [map_get].
  - by destruct (decide (k = k')).
  - destruct (decide (k0 = k')) as [->|]; [|done]. by destruct (decide (k = k')).
Qed.

Lemma map_get_delete m k k' :
  map_get (map_delete m k) k' = if decide (k = k') then None else map_get m k'.
Proof.
  induction m as [|[k0 v0] m IH]; cbn [map_get]; [by destruct (decide _)|].
  unfold map_delete in *. rewrite filter_cons. cbn [fst].
  destruct (decide (k0 ≠ k)) as [Hne|He].
  - cbn [map_get]. rewrite IH. destruct (decide (k0 = k')) as [->|]; [|done].
    by rewrite decide_False by congruence.
  - apply dec_stable in He as ->. rewrite IH. by destruct (decide (k = k')).
Qed.

Lemma map_get_elem m k v : map_get m k = Some v → (k, v) ∈ m.
Proof.
  induction m as [|[k0 v0] m IH]; cbn [map_get]; [done|].
  destruct (decide (k0 = k)) as [->|]; [intros [= ->]; left|intros H; right; auto].
Qed.

Lemma map_elem_get m k v : NoDup (map fst m) → (k, v) ∈ m → map_get m k = Some v.
Proof.
  induction m as [|[k0 v0] m IH]; cbn [map_get map fst]; [by intros _ ?%not_elem_of_nil|].
  rewrite list.NoDup_cons. intros [Hk Hnd] [Heq|Hin]%elem_of_cons.
  - injection Heq as -> ->. by rewrite decide_True.
  - rewrite decide_False; [auto|]. intros ->. apply Hk. apply (list_elem_of_fmap_2 fst _ _ Hin).
Qed.

Lemma map_set_keys m k v k' : k' ∈ map fst (map_set m k v) → k' = k ∨ k' ∈ map fst m.
Proof.
  induction m as [|[k0 v0] m IH]; cbn [map_set map fst].
  - intros [->|H]%elem_of_cons; [auto|]. by apply not_elem_of_nil in H.
  - destruct (decide (k0 = k)) as [->|]; cbn [map fst]; [auto|].
    intros [->|H]%elem_of_cons; [right; left|]. destruct (IH H); [auto|right; by right].
Qed.

Lemma map_set_nodup m k v : NoDup (map fst m) → NoDup (map fst (map_set m k v)).
Proof.
  induction m as [|[k0 v0] m IH]; cbn [map_set map fst].
  - intros _. apply NoDup_singleton.
  - rewrite list.NoDup_cons. intros [Hk Hnd]. destruct (decide (k0 = k)) as [->|]; cbn [map fst];
      rewrite list.NoDup_cons; [auto|]. split; [|auto].
    intros [?|?]%map_set_keys; congruence.
Qed.

Lemma map_delete_nodup m k : NoDup (map fst m) → NoDup (map fst (map_delete m k)).
Proof.
  induction m as [|[k0 v0] m IH]; [done|]. cbn [map fst]. rewrite list.NoDup_cons. intros [Hk Hnd].
  unfold map_delete in *. rewrite filter_cons. case_decide; [|auto]. cbn [map fst].
  apply NoDup_cons_2; [|auto]. intros Hin. apply Hk.
  apply list_elem_of_fmap_1 in Hin as ([k1 v1] & -> & Hin). apply list_elem_of_filter in Hin as [_ Hin].
  apply (list_elem_of_fmap_2 fst _ _ Hin).
Qed.
End maps.

(** ** Sums over the wire *)

Definition wsum (m : Wire → Z) (w : list Wire) : Z := foldr (λ e t, m e + t) 0 w.

Lemma wsum_app m a b : wsum m (a ++ b) = wsum m a + wsum m b.
Proof. unfold wsum. induction a as [|e a IH]; simpl; [done|]. rewrite IH. lia. Qed.
Lemma wsum_snoc m w e : wsum m (w ++ [e]) = wsum m w + m e.
Proof. rewrite wsum_app. cbn. lia. Qed.

(** DATA bytes written; connection credit written; flow-controlled bytes and connection credit
    received. *)
Definition tx_data (e : Wire) : Z := match e with Tx (DataFrame _ d _ _) => zlen d | _ => 0 end.
Definition tx_credit (e : Wire) : Z :=
  match e with Tx (WindowUpdateFrame sid n) => if sid =? 0 then n else 0 | _ => 0 end.
Definition frame_flow (f : Frame) : Z :=
  match f with DataFrame _ d flow _ => default (zlen d) flow | _ => 0 end.
Definition frame_credit (f : Frame) : Z :=
  match f with WindowUpdateFrame sid n => if sid =? 0 then n else 0 | _ => 0 end.
Definition rx_flow (e : Wire) : Z := match e with Rx f => frame_flow f | _ => 0 end.
Definition rx_credit (e : Wire) : Z := match e with Rx f => frame_credit f | _ => 0 end.
Definition tx_ids (w : list Wire) : list Z :=
  omap (λ e, match e with Tx (HeadersFrame sid _ _ _ _) => Some sid | _ => None end) w.

Lemma tx_ids_app a b : tx_ids (a ++ b) = tx_ids a ++ tx_ids b.
Proof. apply omap_app. Qed.

(** A frame that moves no credit and opens no stream. *)
Definition neutral (f : Frame) : bool :=
  match f with
  | DataFrame _ d _ _ => zlen d =? 0
  | HeadersFrame _ _ _ _ _ => false
  | WindowUpdateFrame sid n => negb (sid =? 0)
  | _ => true
  end.

(** ** The invariant *)

Definition total (c : Conn) : Z := foldr (λ s t, recvBuffered s + t) 0 (objs c).

Definition stream_ok (s : H2Stream) : Prop := recvBuffered s = zlen (mjoin (recvQueue s) : bytes).

(** A stream in the map has not failed, and its body can only be over when the peer's side
    is. *)
Definition live_ok (s : H2Stream) : Prop :=
  recvError s = None ∧ (recvEnded s = true → remoteClosed s = true) ∧
  (bodyDone s = true → remoteClosed s = true).

Definition odds (n : nat) : list Z := map (λ i, 2 * Z.of_nat i + 1) (seq 0 n).

(** What holds in every state.  [X] are streams about to be removed, for which [live_ok] may be
    broken for a moment. *)
Record core (cfg : Config) (X : Z → Prop) (c : Conn) : Prop := mkCore {
  co_nodup : NoDup (map fst (streams c));
  co_refs : ∀ sid r, map_get (streams c) sid = Some r → ∃ s, objs c !! r = Some s ∧ id s = sid;
  co_objs : ∀ r s, objs c !! r = Some s → stream_ok s;
  co_live : ∀ sid r s, map_get (streams c) sid = Some r → objs c !! r = Some s →
              ¬ X sid → live_ok s;
  co_own : onPush cfg = None → ∀ r s r', objs c !! r = Some s →
             map_get (streams c) (id s) = Some r' → r' = r;
  co_fresh : onPush cfg = None → ∀ r s, objs c !! r = Some s → 0 < id s < nextStreamId c;
  co_send : 0 ≤ available (connSendWindow c);
  co_sent : available (connSendWindow c) + wsum tx_data (wire c) ≤
              SPEC_INITIAL_WINDOW + wsum rx_credit (wire c);
  co_ids : ∃ n, nextStreamId c = 2 * Z.of_nat n + 1 ∧ tx_ids (wire c) = odds n;
  co_cfg : 0 ≤ localInitialWindow cfg;
}.

(** What holds while the connection is open: receive credit is conserved.  [k] bytes are owed
    to the connection window, [j] bytes of an arrived frame are not yet charged, and stream
    [sid] owes [δ sid] to its window. *)
Record acct (cfg : Config) (k j : Z) (δ : Z → Z) (c : Conn) : Prop := mkAcct {
  ac_total : connRecvAvailable c + total c + k = connRecvWindow cfg;
  ac_wire : onPush cfg = None → connRecvAvailable c =
              SPEC_INITIAL_WINDOW + wsum tx_credit (wire c) - wsum rx_flow (wire c) + j;
  ac_pos : 0 ≤ connRecvAvailable c;
  ac_stream : onPush cfg = None → ∀ sid r s, map_get (streams c) sid = Some r →
                objs c !! r = Some s → remoteClosed s = false →
                0 ≤ recvWindow s ∧
                recvWindow s + recvBuffered s + δ sid = localInitialWindow cfg;
}.

Definition inv_at (cfg : Config) (X : Z → Prop) (k j : Z) (δ : Z → Z) (c : Conn) : Prop :=
  core cfg X c ∧ (closedFlag c = false → acct cfg k j δ c).
Abbreviation nobody := (λ _ : Z, False).
Abbreviation nodebt := (λ _ : Z, 0).
Definition inv (cfg : Config) (c : Conn) : Prop := inv_at cfg nobody 0 0 nodebt c.

(** Two states that agree on what the invariant mentions. *)
Definition same (c c' : Conn) : Prop :=
  objs c' = objs c ∧ streams c' = streams c ∧ nextStreamId c' = nextStreamId c ∧
  connSendWindow c' = connSendWindow c ∧ connRecvAvailable c' = connRecvAvailable c ∧
  closedFlag c' = closedFlag c ∧ wire c' = wire c.

Lemma inv_same cfg X k j δ c c' : same c c' → inv_at cfg X k j δ c → inv_at cfg X k j δ c'.
Proof.
  intros (E1 & E2 & E3 & E4 & E5 & E6 & E7) [[] Hac]. split.
  - split; rewrite ?E1, ?E2, ?E3, ?E4, ?E7; auto.
  - rewrite E6. intros Hopen. destruct (Hac Hopen) as [H1 H2 H4 H3].
    split; unfold total in *; rewrite ?E1, ?E2, ?E5, ?E7; auto.
Qed.

Lemma core_same cfg X c c' :
  objs c' = objs c → streams c' = streams c → nextStreamId c' = nextStreamId c →
  connSendWindow c' = connSendWindow c → wire c' = wire c → core cfg X c → core cfg X c'.
Proof.
  intros E1 E2 E3 E4 E5 []. split; rewrite ?E1, ?E2, ?E3, ?E4, ?E5; auto.
Qed.

Ltac by_same := eapply inv_same; [|eassumption]; by repeat split.

(** ** Sending *)

Lemma wire_neutral f w :
  neutral f = true →
  wsum tx_data (w ++ [Tx f]) = wsum tx_data w ∧ wsum tx_credit (w ++ [Tx f]) = wsum tx_credit w ∧
  wsum rx_flow (w ++ [Tx f]) = wsum rx_flow w ∧ wsum rx_credit (w ++ [Tx f]) = wsum rx_credit w ∧
  tx_ids (w ++ [Tx f]) = tx_ids w.
Proof.
  intros Hf. rewrite !wsum_snoc, tx_ids_app.
  destruct f; cbn in *; try done; rewrite ?app_nil_r, ?Z.add_0_r; try done.
  - apply Z.eqb_eq in Hf. rewrite Hf. split_and!; (done || lia).
  - destruct (_ =? 0); [done|]. split_and!; (done || lia).
Qed.

Lemma core_wire cfg X w' c :
  wsum tx_data w' ≤ wsum tx_data (wire c) → wsum rx_credit (wire c) ≤ wsum rx_credit w' →
  tx_ids w' = tx_ids (wire c) → core cfg X c → core cfg X (set_wire w' c).
Proof.
  intros H1 H2 H3 []. split; cbn [streams objs nextStreamId connSendWindow wire set_wire]; auto;
    [lia|by rewrite H3].
Qed.

Lemma inv_send cfg X k j δ f c :
  neutral f = true → inv_at cfg X k j δ c → inv_at cfg X k j δ (send f c).
Proof.
  intros Hf [Hco Hac]. unfold send. destruct (closedFlag c) eqn:Hcl; [split; [done|congruence]|].
  destruct (wire_neutral f (wire c) Hf) as (H1 & H2 & H3 & H4 & H5).
  split; [apply core_wire; (done || lia)|].
  intros _. destruct (Hac eq_refl) as [E1 E2 E4 E3].
  split; [done| |done|done]. intros Hp. cbn [connRecvAvailable wire set_wire]. specialize (E2 Hp). lia.
Qed.

(** A stream's WINDOW_UPDATE.  A stream in the map has a positive id unless the peer promised
    stream 0, which the code does not refuse. *)
Lemma inv_send_update cfg X k j δ sid n c :
  (onPush cfg = None → sid ≠ 0) → inv_at cfg X k j δ c →
  inv_at cfg X k j δ (send (WindowUpdateFrame sid n) c).
Proof.
  intros Hsid [Hco Hac]. unfold send.
  destruct (closedFlag c) eqn:Hcl; [split; [done|congruence]|]. split.
  - apply core_wire; rewrite ?wsum_snoc, ?tx_ids_app; cbn; rewrite ?app_nil_r; (lia || done).
  - intros _. destruct (Hac eq_refl) as [E1 E2 E4 E3]. split; [done| |done|done]. intros Hp.
    cbn [connRecvAvailable wire set_wire]. rewrite !wsum_snoc. cbn [tx_credit rx_flow].
    rewrite (proj2 (Z.eqb_neq sid 0)) by auto. specialize (E2 Hp). lia.
Qed.

(** ** Changing one stream object *)

Lemma total_alter r f (l : list H2Stream) s :
  l !! r = Some s →
  foldr (λ s t, recvBuffered s + t) 0 (alter f r l) =
    foldr (λ s t, recvBuffered s + t) 0 l - recvBuffered s + recvBuffered (f s).
Proof.
  revert r. induction l as [|s0 l IH]; intros [|r] H; cbn in *; try done.
  - injection H as ->. lia.
  - rewrite (IH r H). lia.
Qed.

Lemma lookup_alter_inv {A} (f : A → A) (l : list A) r r' y :
  alter f r l !! r' = Some y →
  ∃ z, l !! r' = Some z ∧ y = (if decide (r = r') then f z else z).
Proof.
  rewrite list_lookup_alter. destruct (decide (r = r')) as [->|Hne]; [|eauto].
  intros (z & Hz & ->)%fmap_Some. eauto.
Qed.

Lemma alter_none {A} (f : A → A) (l : list A) r : l !! r = None → alter f r l = l.
Proof.
  revert r. induction l as [|y l IH]; intros [|r]; cbn; try done. intros H. by rewrite IH.
Qed.
Lemma alter_known {A} (f : A → A) (l : list A) r x : l !! r = Some x → alter f r l = alter (λ _, f x) r l.
Proof.
  intros Hx. apply list_eq. intros i. destruct (decide (i = r)) as [->|Hne].
  - by rewrite !list_lookup_alter_eq, Hx.
  - by rewrite !list_lookup_alter_ne.
Qed.

Lemma core_obj cfg X r f c :
  core cfg X c →
  (∀ s, objs c !! r = Some s →
     id (f s) = id s ∧ (stream_ok s → stream_ok (f s)) ∧
     (live_ok s → live_ok (f s) ∨ X (id s) ∨ map_get (streams c) (id s) ≠ Some r)) →
  core cfg X (with_obj r f c).
Proof.
  intros Hco Hf. destruct Hco as [H1 H2 H3 H4 H5 H6 H7 H8 H9 H10].
  assert (∀ r' s', objs (with_obj r f c) !! r' = Some s' → ∃ s, objs c !! r' = Some s ∧
    id s' = id s ∧ s' = if decide (r = r') then f s else s) as Hl.
  { intros r' s' (s & Hs & ->)%lookup_alter_inv. exists s. split; [done|]. split; [|done].
    destruct (decide (r = r')) as [->|]; [by apply Hf|done]. }
  split; cbn [streams nextStreamId connSendWindow wire with_obj set_objs]; auto.
  - intros sid r' Hg. destruct (H2 _ _ Hg) as (s & Hs & Hid). unfold with_obj. cbn [objs set_objs].
    destruct (decide (r = r')) as [->|Hne].
    + exists (f s). rewrite list_lookup_alter_eq, Hs. split; [done|]. by rewrite (proj1 (Hf s Hs)).
    + exists s. by rewrite list_lookup_alter_ne.
  - intros r' s' (s & Hs & _ & ->)%Hl. destruct (decide (r = r')) as [->|]; [|eauto].
    apply (proj1 (proj2 (Hf s Hs))). eauto.
  - intros sid r' s' Hg (s & Hs & _ & ->)%Hl Hx. pose proof (H4 _ _ _ Hg Hs Hx) as Hlive.
    destruct (decide (r = r')) as [->|]; [|done].
    destruct (H2 _ _ Hg) as (s2 & Hs2 & Hid). rewrite Hs in Hs2. injection Hs2 as <-.
    destruct (proj2 (proj2 (Hf s Hs)) Hlive) as [?|[?|?]]; [done| |]; congruence.
  - intros Hp r' s' r'' (s & Hs & Hid & _)%Hl. rewrite Hid. eauto.
  - intros Hp r' s' (s & Hs & Hid & _)%Hl. rewrite Hid. eauto.
Qed.

Lemma acct_obj cfg k j δ δ' r f s c :
  acct cfg k j δ c → objs c !! r = Some s →
  (∀ sid, sid ≠ id s → δ' sid = δ sid) →
  (∀ sid r', onPush cfg = None → map_get (streams c) sid = Some r' → r' ≠ r → δ' sid = δ sid) →
  (onPush cfg = None → map_get (streams c) (id s) = Some r → remoteClosed (f s) = false →
     remoteClosed s = false ∧ (0 ≤ recvWindow s → 0 ≤ recvWindow (f s)) ∧
     recvWindow (f s) + recvBuffered (f s) + δ' (id s) = recvWindow s + recvBuffered s + δ (id s)) →
  (∀ sid, map_get (streams c) sid = Some r → sid = id s) →
  acct cfg (k + recvBuffered s - recvBuffered (f s)) j δ' (with_obj r f c).
Proof.
  intros [H1 H2 H4 H3] Hs Hδ Hδ' Hf Hid. split.
  - unfold with_obj, total in *. cbn [connRecvAvailable set_objs objs].
    rewrite (total_alter _ _ _ _ Hs). lia.
  - done.
  - done.
  - intros Hp sid r' s' Hg (z & Hz & ->)%lookup_alter_inv. cbn in Hg.
    destruct (decide (r = r')) as [->|Hne].
    + rewrite Hs in Hz. injection Hz as <-. pose proof (Hid _ Hg) as ->. intros Hrc.
      destruct (Hf Hp Hg Hrc) as (Hrc' & Hpos & ->).
      destruct (H3 Hp _ _ _ Hg Hs Hrc'). auto.
    + intros Hrc. rewrite (Hδ' _ _ Hp Hg) by done. eauto.
Qed.

Lemma inv_ext cfg X k j δ δ' c :
  (∀ i, δ' i = δ i) → inv_at cfg X k j δ c → inv_at cfg X k j δ' c.
Proof.
  intros Hδ [Hco Hac]. split; [done|]. intros Ho. destruct (Hac Ho) as [H1 H2 H4 H3].
  split; [done..|]. intros Hp sid r s Hg Hs Hr. rewrite Hδ. eauto.
Qed.

Lemma get_stream_Some sid c r s :
  get_stream sid c = Some (r, s) → map_get (streams c) sid = Some r ∧ objs c !! r = Some s.
Proof.
  unfold get_stream. destruct (map_get _ _) as [r'|] eqn:Hg; [|done].
  destruct (objs c !! r') as [s'|] eqn:Hs; [|done]. by intros [= -> ->].
Qed.

Lemma get_stream_None cfg X sid c :
  core cfg X c → get_stream sid c = None → map_get (streams c) sid = None.
Proof.
  intros Hco. unfold get_stream. destruct (map_get _ _) as [r'|] eqn:Hg; [|done].
  destruct (co_refs _ _ _ Hco _ _ Hg) as (s & -> & _). done.
Qed.

Lemma ref_id cfg X sid r s c :
  core cfg X c → map_get (streams c) sid = Some r → objs c !! r = Some s → id s = sid.
Proof.
  intros Hco Hg Hs. destruct (co_refs _ _ _ Hco _ _ Hg) as (s' & Hs' & <-). congruence.
Qed.

(** A change of one object that leaves its windows and buffer alone. *)
Lemma inv_obj cfg X k j δ r f c :
  inv_at cfg X k j δ c →
  (∀ s, objs c !! r = Some s →
     id (f s) = id s ∧ recvQueue (f s) = recvQueue s ∧ recvBuffered (f s) = recvBuffered s ∧
     recvWindow (f s) = recvWindow s ∧ (remoteClosed (f s) = false → remoteClosed s = false) ∧
     (live_ok s → live_ok (f s) ∨ X (id s) ∨ map_get (streams c) (id s) ≠ Some r)) →
  inv_at cfg X k j δ (with_obj r f c).
Proof.
  intros [Hco Hac] Hf. split.
  - apply core_obj; [done|]. intros s Hs. destruct (Hf s Hs) as (H1 & H2 & H3 & _ & _ & H6).
    split_and!; [done| |done]. unfold stream_ok. by rewrite H2, H3.
  - intros Ho. specialize (Hac Ho). destruct (objs c !! r) as [s|] eqn:Hs.
    + destruct (Hf s eq_refl) as (H1 & H2 & H3 & H4 & H5 & H6).
      replace k with (k + recvBuffered s - recvBuffered (f s)) by lia.
      eapply acct_obj; [done|done|done|done| |].
      * intros _ _ Hr. split; [auto|]. split; lia.
      * intros sid Hg. symmetry. by eapply ref_id.
    + unfold with_obj. rewrite alter_none by done. destruct Hac. by split.
Qed.

(** Fields that the invariant does not see. *)
Definition quiet (f : H2Stream → H2Stream) : Prop := ∀ s,
  id (f s) = id s ∧ recvQueue (f s) = recvQueue s ∧ recvBuffered (f s) = recvBuffered s ∧
  recvWindow (f s) = recvWindow s ∧ remoteClosed (f s) = remoteClosed s ∧
  recvError (f s) = recvError s ∧ recvEnded (f s) = recvEnded s ∧ bodyDone (f s) = bodyDone s.

Lemma inv_quiet cfg X k j δ r f c :
  quiet f → inv_at cfg X k j δ c → inv_at cfg X k j δ (with_obj r f c).
Proof.
  intros Hq Hinv. apply inv_obj; [done|]. intros s _.
  destruct (Hq s) as (H1 & H2 & H3 & H4 & H5 & H6 & H7 & H8). split_and!; try done.
  - by rewrite H5.
  - unfold live_ok. rewrite H5, H6, H7, H8. auto.
Qed.

Lemma inv_delete cfg X X' k j δ δ' sid c :
  (∀ i, i ≠ sid → X i → X' i) → (∀ i, i ≠ sid → δ' i = δ i) →
  inv_at cfg X k j δ c → inv_at cfg X' k j δ' (delete_stream sid c).
Proof.
  intros HX Hδ [Hco Hac].
  assert (∀ i r, map_get (streams (delete_stream sid c)) i = Some r →
    i ≠ sid ∧ map_get (streams c) i = Some r) as Hd.
  { intros i r. unfold delete_stream. cbn [streams set_streams]. rewrite map_get_delete.
    destruct (decide (sid = i)); [done|]. split; [congruence|done]. }
  destruct Hco as [H1 H2 H3 H4 H5 H6 H7 H8 H9 H10]. split.
  - split; try done.
    + by apply map_delete_nodup.
    + intros i r [_ Hg]%Hd. eauto.
    + intros i r s [Hne Hg]%Hd Hs Hx. eapply H4; [done..|]. intros Hx'. by apply Hx, HX.
    + intros Hp r s r' Hs [_ Hg]%Hd. eauto.
  - intros Ho. destruct (Hac Ho) as [E1 E2 E4 E3]. split; [done..|].
    intros Hp i r s [Hne Hg]%Hd Hs Hr. rewrite Hδ by done. eauto.
Qed.

(** ** Windows *)

Definition add_at (δ : Z → Z) (sid n : Z) : Z → Z := λ i, if decide (i = sid) then δ i + n else δ i.

Lemma add_at_ne δ sid n i : i ≠ sid → add_at δ sid n i = δ i.
Proof. intros H. unfold add_at. by rewrite decide_False. Qed.
Lemma add_at_eq δ sid n : add_at δ sid n sid = δ sid + n.
Proof. unfold add_at. by rewrite decide_True. Qed.

Lemma inv_replenish_conn cfg X k j δ n c :
  0 ≤ n → inv_at cfg X (k + n) j δ c → inv_at cfg X k j δ (replenishConnectionWindow n c).
Proof.
  intros Hn [Hco Hac]. unfold replenishConnectionWindow.
  destruct (closedFlag c) eqn:Hc; cbn [orb]; [split; [done|congruence]|].
  destruct (Z.leb_spec n 0); [replace n with 0 in * by lia; rewrite Z.add_0_r in Hac;
    split; [done|intros _; by apply Hac]|].
  unfold send. cbn [closedFlag set_connRecvAvailable]. rewrite Hc. cbn [wire set_connRecvAvailable].
  split.
  - apply core_wire; [| | |by eapply core_same; [..|exact Hco]];
      cbn [wire set_connRecvAvailable]; rewrite ?wsum_snoc, ?tx_ids_app; cbn; rewrite ?app_nil_r;
      (lia || done).
  - intros _. destruct (Hac eq_refl) as [E1 E2 E4 E3].
    split; cbn [connRecvAvailable wire set_wire set_connRecvAvailable streams objs]; [|
      intros Hp; specialize (E2 Hp); rewrite !wsum_snoc; cbn [tx_credit rx_flow];
      rewrite Z.eqb_refl; lia|lia|done].
    unfold total in *. cbn [objs set_wire set_connRecvAvailable]. lia.
Qed.

Lemma inv_replenish cfg X k j δ sid n c :
  0 ≤ n → inv_at cfg X (k + n) j (add_at δ sid n) c →
  inv_at cfg X k j δ (replenishRecvWindow sid n c).
Proof.
  intros Hn Hinv. unfold replenishRecvWindow.
  destruct (closedFlag c) eqn:Hc; cbn [orb].
  { destruct Hinv as [Hco _]. split; [done|congruence]. }
  destruct (Z.leb_spec n 0).
  { replace n with 0 in * by lia. rewrite Z.add_0_r in Hinv. eapply inv_ext; [|exact Hinv].
    intros i. unfold add_at. case_decide; lia. }
  apply inv_replenish_conn; [lia|].
  destruct (get_stream sid c) as [[r s]|] eqn:Hg.
  - apply get_stream_Some in Hg as [Hg Hs]. destruct Hinv as [Hco Hac].
    pose proof (ref_id _ _ _ _ _ _ Hco Hg Hs) as Hid.
    destruct (remoteClosed s) eqn:Hrc.
    + split; [done|]. intros Ho. destruct (Hac Ho) as [E1 E2 E4 E3]. split; [done..|].
      intros Hp i r' s' Hg' Hs' Hr'. destruct (decide (i = sid)) as [->|Hne].
      * congruence.
      * rewrite <- (add_at_ne δ sid n i Hne). eauto.
    + apply inv_send_update; [intros Hp; pose proof (co_fresh _ _ _ Hco Hp _ _ Hs); lia|].
      split.
      * apply core_obj; [done|]. intros s0 _. cbn. split_and!; [done|done|auto].
      * intros Ho. specialize (Hac Ho).
        replace (k + n) with (k + n + recvBuffered s - recvBuffered (add_recvWindow n s))
          by (cbn; lia).
        eapply acct_obj; [done|done| | | |].
        -- intros i Hi. rewrite add_at_ne; [done|congruence].
        -- intros i r' _ Hg' Hne. rewrite add_at_ne; [done|congruence].
        -- intros _ _ _. split; [done|]. rewrite Hid, add_at_eq.
           cbn [recvWindow recvBuffered add_recvWindow]. split; lia.
        -- intros i Hg'. symmetry. by eapply ref_id.
  - destruct Hinv as [Hco Hac]. split; [done|]. intros Ho. destruct (Hac Ho) as [E1 E2 E4 E3].
    split; [done..|]. intros Hp i r' s' Hg' Hs' Hr'. destruct (decide (i = sid)) as [->|Hne].
    + rewrite (get_stream_None _ _ _ _ Hco Hg) in Hg'. done.
    + rewrite <- (add_at_ne δ sid n i Hne). eauto.
Qed.

(** ** Removing streams *)

Lemma inv_wake_pumps cfg X k j δ ids c :
  inv_at cfg X k j δ c → inv_at cfg X k j δ (wake_pumps ids c).
Proof. intros. by_same. Qed.

Lemma fail_fields e s :
  id (fst (fail e s)) = id s ∧ recvQueue (fst (fail e s)) = recvQueue s ∧
  recvBuffered (fst (fail e s)) = recvBuffered s ∧ recvWindow (fst (fail e s)) = recvWindow s ∧
  remoteClosed (fst (fail e s)) = remoteClosed s.
Proof.
  unfold fail, abort_stopped. destruct (stopped s), (sw_close _) as [w woken]; cbn;
    destruct (gotHead s); cbn; destruct (recvError s); done.
Qed.


Lemma inv_fail cfg X k j δ e r c :
  (∀ s, objs c !! r = Some s → X (id s) ∨ map_get (streams c) (id s) ≠ Some r) →
  inv_at cfg X k j δ c → inv_at cfg X k j δ (fail_stream e r c).
Proof.
  intros Hr Hinv. unfold fail_stream. destruct (objs c !! r) as [s|] eqn:Hs; [|done].
  pose proof (fail_fields e s) as Hf. destruct (fail e s) as [s' ids]. cbn [fst] in Hf.
  apply inv_wake_pumps, inv_obj; [done|]. intros s0 Hs0. rewrite Hs in Hs0. injection Hs0 as <-.
  destruct Hf as (H1 & H2 & H3 & H4 & H5). rewrite H5. split_and!; try done.
  intros _. right. by apply Hr.
Qed.

Lemma fail_stream_streams e r c : streams (fail_stream e r c) = streams c.
Proof.
  unfold fail_stream. destruct (objs c !! r); [|done]. by destruct (fail _ _).
Qed.

Lemma inv_close cfg X k j δ c : inv_at cfg X k j δ c → inv_at cfg X k j δ (close c).
Proof.
  intros Hinv. unfold close. destruct (closedFlag c); [done|].
  apply (inv_send _ _ _ _ _ (GoawayFrame (highestPromised c) 0 [])) in Hinv; [|done]. by_same.
Qed.

Lemma inv_wake_slots cfg X k j δ c :
  inv_at cfg X k j δ c → inv_at cfg X k j δ (wakeStreamSlots c).
Proof.
  intros Hinv. unfold wakeStreamSlots.
  assert (inv_at cfg X k j δ (if goawayReceived c && (zlen (streams c) =? 0) && negb (closedFlag c)
    then close c else c)) as Hc by (destruct (_ && _); [by apply inv_close|done]).
  destruct (streamSlotWaiters _); [done|by_same].
Qed.

Lemma wake_slots_fields c :
  streams (wakeStreamSlots c) = streams c ∧ objs (wakeStreamSlots c) = objs c ∧
  closedFlag (wakeStreamSlots c) = closedFlag c.
Proof.
  unfold wakeStreamSlots.
  set (c' := if _ && _ && _ then close c else c).
  assert (streams c' = streams c ∧ objs c' = objs c ∧ closedFlag c' = closedFlag c) as H.
  { unfold c', close, send. destruct (_ && _); [|done]. destruct (closedFlag c) eqn:Hc; [done|].
    cbn. by rewrite Hc. }
  by destruct (streamSlotWaiters c').
Qed.

Lemma inv_discard cfg X k j δ sid r s c :
  map_get (streams c) sid = Some r → objs c !! r = Some s → inv_at cfg X k j δ c →
  inv_at cfg X k j (add_at δ sid (recvBuffered s)) (discard_stream r s c).
Proof.
  intros Hg Hs Hinv. unfold discard_stream, discardBuffered.
  destruct Hinv as [Hco Hac]. pose proof (co_objs _ _ _ Hco _ _ Hs) as Hok.
  pose proof (ref_id _ _ _ _ _ _ Hco Hg Hs) as Hid.
  assert (0 ≤ recvBuffered s) as Hpos by (rewrite Hok; apply zlen_nonneg).
  apply inv_replenish_conn; [done|]. split.
  - apply core_obj; [done|]. intros s0 Hs0. rewrite Hs in Hs0. injection Hs0 as <-.
    split_and!; [done|done|auto].
  - intros Ho. specialize (Hac Ho).
    pose proof (acct_obj cfg k j δ (add_at δ sid (recvBuffered s)) r (λ _, set_queue [] 0 s) s c
      Hac Hs) as Ha.
    cbn [recvBuffered set_queue] in Ha. rewrite Z.sub_0_r in Ha. apply Ha.
    + intros i Hi. rewrite add_at_ne; [done|congruence].
    + intros i r' _ Hg' Hne. rewrite add_at_ne; [done|congruence].
    + intros _ _ Hr. split; [exact Hr|]. rewrite Hid, add_at_eq.
      cbn [recvWindow recvBuffered set_queue]. split; lia.
    + intros i Hg'. symmetry. by eapply ref_id.
Qed.

Lemma replenish_conn_fields n c :
  streams (replenishConnectionWindow n c) = streams c ∧
  objs (replenishConnectionWindow n c) = objs c ∧
  closedFlag (replenishConnectionWindow n c) = closedFlag c.
Proof.
  unfold replenishConnectionWindow, send. destruct (closedFlag c) eqn:Hc; cbn [orb]; [done|].
  destruct (n <=? 0); [done|]. cbn [closedFlag set_connRecvAvailable]. rewrite Hc. cbn. done.
Qed.

Lemma discard_fields r s c :
  streams (discard_stream r s c) = streams c ∧
  objs (discard_stream r s c) = alter (λ _ : H2Stream, set_queue [] 0 s) r (objs c).
Proof.
  unfold discard_stream, discardBuffered.
  destruct (replenish_conn_fields (recvBuffered s) (with_obj r (λ _, set_queue [] 0 s) c))
    as (-> & -> & _). done.
Qed.

Definition owes_only (sid : Z) (δ : Z → Z) : Prop := ∀ i, i ≠ sid → δ i = 0.

(** Forget what concerned a stream that is not in the map. *)
Lemma inv_absent cfg X k j δ δ' sid c :
  map_get (streams c) sid = None → (∀ i, X i → i = sid) → (∀ i, i ≠ sid → δ' i = δ i) →
  inv_at cfg X k j δ c → inv_at cfg nobody k j δ' c.
Proof.
  intros Hn HX Hδ [Hco Hac]. destruct Hco as [H1 H2 H3 H4 H5 H6 H7 H8 H9 H10]. split.
  - split; try done. intros i r s Hg Hs _. eapply H4; [done..|].
    intros ->%HX. congruence.
  - intros Ho. destruct (Hac Ho) as [E1 E2 E4 E3]. split; [done..|].
    intros Hp i r s Hg Hs Hr. rewrite Hδ; [eauto|]. intros ->. congruence.
Qed.

Lemma inv_reset cfg X δ sid code c :
  (∀ i, X i → i = sid) → owes_only sid δ →
  inv_at cfg X 0 0 δ c → inv cfg (resetStream sid code c).
Proof.
  intros HX Hδ Hinv. unfold resetStream.
  apply (inv_send _ _ _ _ _ (RstStreamFrame sid (errorCodeValue code))) in Hinv; [|done].
  assert (get_stream sid c = get_stream sid (send (RstStreamFrame sid (errorCodeValue code)) c)) as ->
    by (unfold send; by destruct (closedFlag c)).
  set (c1 := send _ c) in *. clearbody c1.
  destruct (get_stream sid c1) as [[r s]|] eqn:Hg.
  - apply get_stream_Some in Hg as [Hg Hs].
    pose proof (ref_id _ _ _ _ _ _ (proj1 Hinv) Hg Hs) as Hid.
    apply (inv_discard _ _ _ _ _ _ _ _ _ Hg Hs) in Hinv.
    destruct (discard_fields r s c1) as [Hst Hob]. set (c2 := discard_stream r s c1) in *.
    clearbody c2.
    apply (inv_quiet _ _ _ _ _ r (set_state closed)) in Hinv; [|by repeat split].
    apply (inv_delete _ _ nobody _ _ _ nodebt sid) in Hinv.
    2:{ intros i Hi Hx%HX. congruence. }
    2:{ intros i Hi. rewrite add_at_ne by done. symmetry. by apply Hδ. }
    apply inv_wake_slots in Hinv. apply inv_fail; [|exact Hinv].
    destruct (wake_slots_fields (delete_stream sid (with_obj r (set_state closed) c2)))
      as (-> & -> & _). intros s' Hs'. right.
    unfold delete_stream, with_obj in *. cbn [streams objs set_streams set_objs] in *.
    rewrite Hob, !list_lookup_alter_eq, Hs in Hs'. injection Hs' as <-. cbn.
    rewrite map_get_delete, Hid, decide_True by done. done.
  - eapply inv_absent; [by eapply get_stream_None; [apply Hinv|]|done| |exact Hinv].
    intros i Hi. symmetry. by apply Hδ.
Qed.

Lemma inv_retire cfg sid c : inv cfg c → inv cfg (retireIfFullyClosed sid c).
Proof.
  intros Hinv. unfold retireIfFullyClosed. destruct (get_stream sid c) as [[r s]|]; [|done].
  destruct (_ && _); [|done]. apply inv_wake_slots.
  apply (inv_delete _ nobody _ _ _ nodebt); [done|done|]. apply inv_quiet; [by repeat split|done].
Qed.

(** ** Teardown *)

Lemma core_weaken cfg (X X' : Z → Prop) c : (∀ i, X i → X' i) → core cfg X c → core cfg X' c.
Proof. intros HX []. split; try done. intros. eauto. Qed.

Lemma fail_stream_closed e r c : closedFlag (fail_stream e r c) = closedFlag c.
Proof. unfold fail_stream. destruct (objs c !! r); [|done]. by destruct (fail _ _). Qed.

Lemma inv_fail_all cfg k j δ e (l : list (Z * nat)) c :
  inv_at cfg (λ _, True) k j δ c →
  inv_at cfg (λ _, True) k j δ (fold_left (λ c '(_, r), fail_stream e r c) l c) ∧
  closedFlag (fold_left (λ c '(_, r), fail_stream e r c) l c) = closedFlag c.
Proof.
  revert c. induction l as [|[sid r] l IH]; intros c Hinv; cbn [fold_left]; [done|].
  destruct (IH (fail_stream e r c)) as [H1 H2].
  { apply inv_fail; [auto|done]. }
  split; [done|]. by rewrite H2, fail_stream_closed.
Qed.

Lemma sw_close_available w : available (fst (sw_close w)) = available w.
Proof. unfold sw_close, sw_wake. by destruct (waiters _). Qed.

Lemma core_send_window cfg X w c :
  available w = available (connSendWindow c) → core cfg X c → core cfg X (set_connSendWindow w c).
Proof. intros H []. split; cbn [streams objs nextStreamId connSendWindow wire set_connSendWindow]; auto; lia. Qed.

Lemma core_clear cfg X c : core cfg X c → core cfg nobody (set_streams [] c).
Proof. intros []. split; try done. apply NoDup_nil_2. Qed.

(** [destroy] needs only the part of the invariant that does not speak of credit. *)
Lemma inv_destroy cfg X e c :
  (closedFlag c = true → inv cfg c) → core cfg X c → inv cfg (destroy e c).
Proof.
  intros Hclosed Hco. unfold destroy. destruct (closedFlag c) eqn:Hc; [auto|].
  pose proof (sw_close_available (connSendWindow (set_closeError (Some e) (set_closedFlag true c))))
    as Hav.
  destruct (sw_close _) as [w ids]. cbn [fst] in Hav.
  set (c1 := wake_pumps ids (set_connSendWindow w _)).
  assert (inv_at cfg (λ _, True) 0 0 nodebt c1) as Hinv.
  { split; [|done]. unfold c1. apply (core_same cfg _ (set_connSendWindow w c)); try done.
    apply core_send_window; [done|]. by eapply core_weaken. }
  assert (closedFlag c1 = true) as Hc1 by done. clearbody c1.
  destruct (inv_fail_all cfg 0 0 nodebt e (streams c1) c1 Hinv) as [Hinv2 Hcl]. rewrite Hc1 in Hcl.
  set (c2 := fold_left _ _ _) in *. clearbody c2.
  assert (inv cfg (wakeStreamSlots (set_streams [] c2))) as H.
  { apply inv_wake_slots. split; [|intros Ho; cbn in Ho; congruence]. eapply core_clear. apply Hinv2. }
  by_same.
Qed.

Lemma inv_connection_error cfg e c :
  (closedFlag c = true → inv cfg c) → core cfg nobody c → inv cfg (connectionError e c).
Proof.
  intros Hclosed Hco. unfold connectionError. set (f := GoawayFrame _ _ _).
  apply (inv_destroy _ nobody).
  - unfold send. destruct (closedFlag c) eqn:Hc; [auto|]. cbn. congruence.
  - unfold send. destruct (closedFlag c); [done|].
    destruct (wire_neutral f (wire c) eq_refl) as (H1 & H2 & H3 & H4 & H5).
    apply core_wire; (done || lia).
Qed.
