(* ===== verification/ConnectionSteps.v ===== *)
(** * ConnectionSteps: every step of the connection keeps the invariant *)
From S2P Require Import Prelude Errors Text Bytes Frames HpackTables Huffman Hpack HpackCorrect.
From S2P Require Import Flow Stream Connection ConnectionInv.
Local Open Scope Z_scope.

#[local] Opaque HUFFMAN_CODES ROOT STATIC_TABLE staticPairToIndex staticNameToIndex hd_decode
  he_encode.

(** ** Frames that come out of the decoder *)

(** A decoded DATA frame charges at least its data, and increments are not negative. *)
Definition rx_ok (f : Frame) : Prop :=
  match f with
  | DataFrame _ d flow _ => zlen d ≤ default (zlen d) flow
  | WindowUpdateFrame _ n => 0 ≤ n
  | _ => True
  end.

Lemma zlen_subarray b s e : zlen (subarray b s e) ≤ zlen b.
Proof. unfold subarray. rewrite zlen_take, zlen_drop. zl. Qed.

Lemma rd_bytes_short n r r' b : rd_bytes n r = (r', Ok b) → zlen b ≤ zlen (rd_buf r).
Proof. unfold rd_bytes. intros [= _ <-]. apply zlen_subarray. Qed.

Lemma readPadded_short n padded r r' d :
  readPadded n padded r = (r', Ok d) → zlen d ≤ zlen (rd_buf r).
Proof.
  unfold readPadded. destruct padded; cbn [negb]; [|apply rd_bytes_short].
  intros H. apply bind_inv in H as (r1 & pad & H1 & H).
  destruct (forward_u8 _ _ _ H1) as [<- _]. destruct (_ <? 0); [done|].
  apply bind_inv in H as (r2 & x & H2 & H). apply bind_inv in H as (r3 & y & H3 & H).
  injection H as _ <-. by eapply rd_bytes_short.
Qed.

Ltac step_parse H :=
  match type of H with
  | (if ?b then _ else _) _ = _ => destruct b; [|]
  | (_ ≫= _) _ = _ => let r := fresh "r" in let y := fresh "y" in let H1 := fresh "H" in
      apply bind_inv in H as (r & y & H1 & H)
  | (throw _) _ = _ => discriminate H
  | (mret _) _ = _ => injection H as _ <-
  end.

Lemma parsePayload_rx typeId flags sid payload r f :
  parsePayload typeId flags sid payload (rd_new payload) = (r, Ok f) → rx_ok f.
Proof.
  unfold parsePayload. cbv zeta. intros H.
  destruct (typeId =? FrameType.DATA).
  { apply bind_inv in H as (r1 & d & H1 & H). injection H as _ <-.
    by apply readPadded_short in H1. }
  repeat step_parse H; try exact I.
  cbn. rewrite js_and_31bits. apply Z.mod_pos_bound. lia.
Qed.

Lemma push_loop_rx fuel max buf off frames fs off' :
  push_loop fuel max buf off frames = Ok (fs, off') → Forall rx_ok frames → Forall rx_ok fs.
Proof.
  revert off frames. induction fuel as [|n IH]; intros off frames; cbn [push_loop].
  { by intros [= <- _]. }
  destruct (_ <? FRAME_HEADER_SIZE); [by intros [= <- _]|]. cbv zeta.
  destruct (max <? _); [done|]. destruct (_ <? _); [by intros [= <- _]|].
  match goal with |- context [parsePayload ?t ?fl ?sid ?p (rd_new ?p)] =>
    destruct (parsePayload t fl sid p (rd_new p)) as [r [f|e]] eqn:Hp end; cbn [snd].
  - intros H Hf. eapply IH; [exact H|]. apply Forall_app_2; [done|].
    constructor; [by eapply parsePayload_rx|constructor].
  - destruct e; [done|done| |done]. apply IH.
Qed.

Lemma fd_push_rx chunk d d' fs : fd_push chunk d = (d', Ok fs) → Forall rx_ok fs.
Proof.
  unfold fd_push. destruct (push_loop _ _ _ _ _) as [[fs' off]|e] eqn:Hp; [|done].
  intros [= _ <-]. by eapply push_loop_rx.
Qed.

(** ** Handlers that keep the invariant whatever they return *)

Definition keeps_inv (cfg : Config) (m : Cn) : Prop := ∀ c, inv cfg c → inv cfg (fst (m c)).

Lemma keeps_inv_bind cfg (m : Cn) (f : unit → Cn) :
  keeps_inv cfg m → (∀ u, keeps_inv cfg (f u)) → keeps_inv cfg (m ≫= f).
Proof.
  intros Hm Hf c Hc. unfold mbind, M_bind. specialize (Hm c Hc).
  destruct (m c) as [c' [u|e]]; [by apply Hf|done].
Qed.
Lemma keeps_inv_ret cfg u : keeps_inv cfg (mret u).
Proof. by intros c. Qed.
Lemma keeps_inv_throw cfg code : keeps_inv cfg (conn_throw code).
Proof. by intros c. Qed.
Lemma keeps_inv_modify cfg f : (∀ c, inv cfg c → inv cfg (f c)) → keeps_inv cfg (modify f).
Proof. intros Hf c. apply Hf. Qed.

Lemma adjust_inv cfg delta r c : inv cfg c → inv cfg (adjust_stream delta c r).
Proof.
  intros Hc. unfold adjust_stream. destruct (objs c !! r); [|done].
  destruct (sw_adjust _ _). apply inv_wake_pumps, inv_quiet; [by repeat split|done].
Qed.

Lemma initial_window_inv cfg v : keeps_inv cfg (apply_initial_window v).
Proof.
  intros c Hc. unfold apply_initial_window. destruct v as [n|]; [|done].
  destruct (_ <? n); [done|]. cbn [fst]. set (c1 := set_remote _ c).
  assert (inv cfg c1) as H1 by by_same. clearbody c1.
  generalize (streams c1) as l. intros l. revert c1 H1.
  induction l as [|[sid r] l IH]; intros c1 H1; cbn [fold_left]; [done|].
  by apply IH, adjust_inv.
Qed.

Lemma settings_inv cfg ack s : keeps_inv cfg (on_settings ack s).
Proof.
  unfold on_settings. destruct ack; [apply keeps_inv_ret|].
  apply keeps_inv_bind; [|intros _; apply keeps_inv_modify; intros c; by apply inv_send].
  unfold applyRemoteSettings. apply keeps_inv_bind; [apply initial_window_inv|]. intros _.
  apply keeps_inv_bind.
  - intros c Hc. unfold apply_max_frame_size. destruct (maxFrameSize s); [|done].
    destruct (_ || _); [done|]. by_same.
  - intros _. apply keeps_inv_modify. intros c Hc. unfold apply_other_settings.
    set (c1 := set_remote _ c). assert (inv cfg c1) as H1 by by_same.
    destruct (maxConcurrentStreams s); [by apply inv_wake_slots|done].
Qed.

(** *** New stream objects *)

Lemma lookup_snoc_inv {A} (l : list A) y r z :
  (l ++ [y]) !! r = Some z → l !! r = Some z ∨ (r = length l ∧ z = y).
Proof.
  rewrite lookup_app. destruct (l !! r) as [z'|] eqn:Hl; [auto|].
  apply lookup_ge_None in Hl. intros H. apply list_lookup_singleton_Some in H as [H ->].
  right. split; [lia|done].
Qed.

Lemma refs_bounded cfg X c sid r : core cfg X c → map_get (streams c) sid = Some r → (r < length (objs c))%nat.
Proof.
  intros Hco Hg. destruct (co_refs _ _ _ Hco _ _ Hg) as (s & Hs & _). by eapply lookup_lt_Some.
Qed.

(** Adding a new object under its id.  [next] and [w] are the new counter and wire. *)
Definition add_stream (s : H2Stream) (next : Z) (w : list Wire) (c : Conn) : Conn :=
  set_wire w (set_streams (map_set (streams c) (id s) (length (objs c)))
    (set_objs (objs c ++ [s]) (set_nextStreamId next c))).

Lemma inv_add cfg s next w c :
  inv cfg c → recvQueue s = [] → recvBuffered s = 0 → live_ok s →
  recvWindow s = localInitialWindow cfg → nextStreamId c ≤ next →
  (onPush cfg = None → 0 < id s < next ∧ nextStreamId c ≤ id s) →
  wsum tx_data w = wsum tx_data (wire c) → wsum tx_credit w = wsum tx_credit (wire c) →
  wsum rx_flow w = wsum rx_flow (wire c) → wsum rx_credit w = wsum rx_credit (wire c) →
  (∃ n, next = 2 * Z.of_nat n + 1 ∧ tx_ids w = odds n) →
  inv cfg (add_stream s next w c).
Proof.
  intros [Hco Hac] Hq Hb Hlive Hw Hnext Hfresh W1 W2 W3 W4 Hids.
  assert (∀ i r, map_get (streams (add_stream s next w c)) i = Some r →
    (i = id s ∧ r = length (objs c)) ∨ (i ≠ id s ∧ map_get (streams c) i = Some r)) as Hg.
  { intros i r. unfold add_stream. cbn [streams set_wire set_streams]. rewrite map_get_set.
    destruct (decide (id s = i)) as [<-|]; [intros [= <-]; auto|auto]. }
  assert (∀ r z, objs (add_stream s next w c) !! r = Some z →
    objs c !! r = Some z ∨ (r = length (objs c) ∧ z = s)) as Hl.
  { intros r z. apply lookup_snoc_inv. }
  assert (∀ r z, objs c !! r = Some z → r ≠ length (objs c)) as Hlt.
  { intros r z Hz%lookup_lt_Some. lia. }
  pose proof (λ i r, refs_bounded _ _ _ i r Hco) as Hrb.
  pose proof Hco as [H1 H2 H3 H4 H5 H6 H7 H8 H9 H10]. split.
  - split; try done.
    + by apply map_set_nodup.
    + intros i r [[-> ->]|[_ Hi]]%Hg.
      * exists s. split; [|done]. unfold add_stream. cbn. by rewrite list_lookup_middle.
      * destruct (H2 _ _ Hi) as (z & Hz & Hid). exists z. split; [|done]. unfold add_stream. cbn.
        by apply lookup_app_l_Some.
    + intros r z [Hz|[-> ->]]%Hl; [eauto|]. unfold stream_ok. by rewrite Hq, Hb.
    + intros i r z [[-> ->]|[Hne Hi]]%Hg [Hz|[Hr ->]]%Hl Hx; [by apply Hlt in Hz|done|eauto|done].
    + intros Hp r z r' [Hz|[-> ->]]%Hl [[Hid ->]|[Hne Hi]]%Hg; [|eauto|done|congruence].
      pose proof (H6 Hp _ _ Hz). destruct (Hfresh Hp). lia.
    + intros Hp r z [Hz|[-> ->]]%Hl; cbn.
      * pose proof (H6 Hp _ _ Hz). lia.
      * by apply Hfresh.
    + unfold add_stream. cbn [connSendWindow wire set_wire set_streams set_objs set_nextStreamId].
      lia.
  - intros Ho. destruct (Hac Ho) as [E1 E2 E4 E3]. split.
    + unfold total, add_stream in *. cbn [connRecvAvailable objs set_wire set_streams set_objs].
      rewrite foldr_app. cbn [foldr]. rewrite Hb. exact E1.
    + intros Hp. specialize (E2 Hp).
      change (connRecvAvailable (add_stream s next w c)) with (connRecvAvailable c).
      change (wire (add_stream s next w c)) with w. lia.
    + exact E4.
    + intros Hp i r z [[-> ->]|[Hne Hi]]%Hg [Hz|[Hr ->]]%Hl Hrc; [by apply Hlt in Hz| |eauto|].
      * rewrite Hb, Hw. split; lia.
      * subst r. apply Hrb in Hi. lia.
Qed.

(** *** Header blocks *)

Lemma alter_alter {A} (f g : A → A) (l : list A) r :
  alter g r (alter f r l) = alter (λ y, g (f y)) r l.
Proof. revert r. induction l as [|y l IH]; intros [|r]; cbn; try done. by rewrite IH. Qed.

Lemma with_obj_compose r f g c : with_obj r g (with_obj r f c) = with_obj r (λ s, g (f s)) c.
Proof.
  unfold with_obj. cbn [objs set_objs]. by rewrite alter_alter.
Qed.

Lemma receiveHeaders_fields hs fin s :
  let s' := receiveHeaders hs fin s in
  id s' = id s ∧ recvQueue s' = recvQueue s ∧ recvBuffered s' = recvBuffered s ∧
  recvWindow s' = recvWindow s ∧ remoteClosed s' = remoteClosed s ∧ recvError s' = recvError s ∧
  bodyDone s' = bodyDone s ∧ (recvEnded s' = true → fin = true ∨ recvEnded s = true).
Proof.
  unfold receiveHeaders. destruct (gotHead s); cbn [negb]; [|destruct (is_interim _)];
    destruct fin; cbn; split_and!; auto.
Qed.

Lemma headers_inv cfg r hs (fin : bool) c :
  inv cfg c →
  inv cfg (if fin then with_obj r set_remoteClosed (with_obj r (receiveHeaders hs fin) c)
           else with_obj r (receiveHeaders hs fin) c).
Proof.
  intros Hc. pose proof (receiveHeaders_fields hs fin) as Hf. destruct fin.
  - rewrite with_obj_compose. apply inv_obj; [done|]. intros s _.
    destruct (Hf s) as (H1 & H2 & H3 & H4 & H5 & H6 & H7 & H8). cbn. split_and!; try done.
    intros (L1 & L2 & L3). left. unfold live_ok. cbn. by rewrite H6.
  - apply inv_obj; [done|]. intros s _.
    destruct (Hf s) as (H1 & H2 & H3 & H4 & H5 & H6 & H7 & H8). rewrite H5. split_and!; try done.
    intros (L1 & L2 & L3). left. unfold live_ok. rewrite H5, H6, H7. split_and!; [done| |done].
    intros Hr. apply L2. by destruct (H8 Hr).
Qed.

Lemma push_inv cfg promised hs : keeps_inv cfg (handlePush cfg promised hs).
Proof.
  intros c Hc. unfold handlePush.
  set (c1 := if highestPromised c <? promised then set_highestPromised promised c else c).
  assert (inv cfg c1) as H1 by (unfold c1; destruct (_ <? _); [by_same|done]). clearbody c1.
  destruct (onPush cfg) as [cb|] eqn:Hp; [|by apply inv_send]. cbn [fst].
  set (s := set_localClosed _).
  pose proof (co_ids _ _ _ (proj1 H1)) as Hids.
  eapply inv_same; [|apply (inv_add cfg s (nextStreamId c1) (wire c1) c1); try done].
  - by repeat split.
  - congruence.
Qed.

Lemma complete_inv cfg : keeps_inv cfg (completeHeaderBlock cfg).
Proof.
  intros c Hc. unfold completeHeaderBlock.
  destruct (pendingHeaderBlock c) as [pb|]; [|done]. cbv zeta.
  destruct (hd_decode _ _ _) as [d x]. set (c1 := set_decoder d _).
  assert (inv cfg c1) as H1 by by_same. clearbody c1.
  destruct x as [hs|e]; [|done]. destruct (pb_kind pb) as [|promised]; [|by apply push_inv].
  cbn [fst]. destruct (get_stream (pb_streamId pb) c1) as [[r s]|]; [|done].
  pose proof (headers_inv cfg r hs (pb_endStream pb) c1 H1) as H2.
  destruct (pb_endStream pb); [by apply inv_retire|done].
Qed.

Lemma guard_inv cfg : keeps_inv cfg guardHeaderBlockSize.
Proof.
  intros c Hc. unfold guardHeaderBlockSize. destruct (pendingHeaderBlock c); [|done].
  by destruct (_ <? _).
Qed.

Lemma extend_inv cfg pb (endHeaders : bool) :
  keeps_inv cfg (modify (set_pendingHeaderBlock pb);; guardHeaderBlockSize;;
                 if endHeaders then completeHeaderBlock cfg else mret tt).
Proof.
  apply keeps_inv_bind; [apply keeps_inv_modify; intros c Hc; by_same|]. intros _.
  apply keeps_inv_bind; [apply guard_inv|]. intros _.
  destruct endHeaders; [apply complete_inv|apply keeps_inv_ret].
Qed.

Lemma continuation_inv cfg sid fr endHeaders : keeps_inv cfg (on_continuation cfg sid fr endHeaders).
Proof.
  intros c Hc. unfold on_continuation. destruct (pendingHeaderBlock c); [|done].
  destruct (negb _); [done|]. by apply extend_inv.
Qed.

(** *** DATA *)

Lemma inv_charge cfg X k j δ n c :
  n ≤ connRecvAvailable c → inv_at cfg X k (j + n) δ c →
  inv_at cfg X (k + n) j δ (set_connRecvAvailable (connRecvAvailable c - n) c).
Proof.
  intros Hle [Hco Hac]. split; [by eapply core_same; [..|exact Hco]|]. intros Ho.
  destruct (Hac Ho) as [E1 E2 E4 E3].
  split; [|intros Hp; specialize (E2 Hp)| |done];
    unfold total in *; cbn [connRecvAvailable objs wire set_connRecvAvailable]; lia.
Qed.

Lemma recvWindow_debit cfg k j δ n sid r s c :
  map_get (streams c) sid = Some r → objs c !! r = Some s → n ≤ recvWindow s →
  inv_at cfg nobody k j δ c → inv_at cfg nobody k j (add_at δ sid n) (with_obj r (add_recvWindow (- n)) c).
Proof.
  intros Hg Hs Hle [Hco Hac]. pose proof (ref_id _ _ _ _ _ _ Hco Hg Hs) as Hid. split.
  - apply core_obj; [done|]. intros s0 _. cbn. split_and!; [done|done|auto].
  - intros Ho. specialize (Hac Ho).
    replace k with (k + recvBuffered s - recvBuffered (add_recvWindow (- n) s)) by (cbn; lia).
    eapply acct_obj; [done|done| | | |].
    + intros i Hi. rewrite add_at_ne; [done|congruence].
    + intros i r' _ Hg' Hne. rewrite add_at_ne; [done|congruence].
    + intros _ _ Hr. split; [exact Hr|]. rewrite Hid, add_at_eq.
      cbn [recvWindow recvBuffered add_recvWindow]. split; lia.
    + intros i Hg'. symmetry. by eapply ref_id.
Qed.

Lemma receiveData_fields d fin s :
  bodyDone s = false → stream_ok s →
  let s' := receiveData d fin s in
  id s' = id s ∧ recvBuffered s' = recvBuffered s + zlen d ∧ stream_ok s' ∧
  recvWindow s' = recvWindow s ∧ remoteClosed s' = remoteClosed s ∧ recvError s' = recvError s ∧
  bodyDone s' = bodyDone s ∧ (recvEnded s' = true → fin = true ∨ recvEnded s = true).
Proof.
  intros Hd Hok. unfold receiveData. rewrite Hd. cbn [negb]. rewrite andb_true_r.
  unfold stream_ok in *. destruct (Z.ltb_spec 0 (zlen d)) as [Hl|Hl].
  - assert (recvBuffered s + zlen d = zlen (mjoin (recvQueue s ++ [d]) : bytes)) as Hz
      by (rewrite mjoin_snoc, zlen_app; lia).
    destruct fin; cbn [wakeRecv set_recvNotify set_recvEnded set_queue id recvBuffered recvQueue
      recvWindow remoteClosed recvError bodyDone recvEnded]; split_and!; auto.
  - assert (zlen d = 0) as -> by zl. rewrite Z.add_0_r.
    destruct fin; cbn [wakeRecv set_recvNotify set_recvEnded set_queue id recvBuffered recvQueue
      recvWindow remoteClosed recvError bodyDone recvEnded]; split_and!; auto.
Qed.

(** Buffering the data of a frame pays what its stream and the connection owe. *)
Lemma buffer_inv cfg sid r s d (fin : bool) c :
  map_get (streams c) sid = Some r → objs c !! r = Some s → remoteClosed s = false →
  inv_at cfg nobody (zlen d) 0 (add_at nodebt sid (zlen d)) c →
  inv cfg (if fin then with_obj r set_remoteClosed (with_obj r (receiveData d fin) c)
           else with_obj r (receiveData d fin) c).
Proof.
  intros Hg Hs Hrc [Hco Hac]. pose proof (ref_id _ _ _ _ _ _ Hco Hg Hs) as Hid.
  destruct (co_live _ _ _ Hco _ _ _ Hg Hs (λ H, H)) as (L1 & L2 & L3).
  assert (bodyDone s = false) as Hbd by (destruct (bodyDone s); [by rewrite L3 in Hrc|done]).
  assert (stream_ok s) as Hok by (by eapply co_objs).
  destruct (receiveData_fields d fin s Hbd Hok) as (H1 & H2 & H3 & H4 & H5 & H6 & H7 & H8).
  assert (∀ f, f = (λ s, if fin then set_remoteClosed (receiveData d fin s) else receiveData d fin s) →
    inv cfg (with_obj r f c)) as Hmain.
  { intros f Hf. assert (f s = if fin then set_remoteClosed (receiveData d fin s)
      else receiveData d fin s) as Hfs by (by rewrite Hf).
    assert (id (f s) = id s ∧ stream_ok (f s) ∧ live_ok (f s) ∧
      recvBuffered (f s) = recvBuffered s + zlen d ∧ recvWindow (f s) = recvWindow s) as
      (F1 & F2 & F3 & F4 & F5).
    { rewrite Hfs. unfold live_ok. destruct fin; cbn [set_remoteClosed id recvBuffered recvQueue
        recvWindow remoteClosed recvError bodyDone recvEnded]; unfold stream_ok in *;
        cbn [set_remoteClosed recvBuffered recvQueue]; rewrite ?H5, ?H6, ?H7; split_and!; auto.
      intros Hr. apply L2. by destruct (H8 Hr). }
    split.
    - apply core_obj; [done|]. intros s0 Hs0. rewrite Hs in Hs0. injection Hs0 as <-.
      split_and!; auto.
    - intros Ho. specialize (Hac Ho).
      pose proof (acct_obj cfg _ _ _ nodebt r f s c Hac Hs) as Ha.
      replace (zlen d + recvBuffered s - recvBuffered (f s)) with 0 in Ha by lia. apply Ha.
      + intros i Hi. rewrite add_at_ne; [done|congruence].
      + intros i r' _ Hg' Hne. rewrite add_at_ne; [done|congruence].
      + intros _ _ _. split; [done|]. rewrite Hid, add_at_eq. split; lia.
      + intros i Hg'. symmetry. by eapply ref_id. }
  destruct fin; [rewrite with_obj_compose|]; by apply Hmain.
Qed.

Lemma replenish_fields sid n c :
  streams (replenishRecvWindow sid n c) = streams c ∧
  (∀ r s, objs c !! r = Some s → ∃ s', objs (replenishRecvWindow sid n c) !! r = Some s' ∧
     remoteClosed s' = remoteClosed s ∧ bodyDone s' = bodyDone s ∧ recvQueue s' = recvQueue s ∧
     recvBuffered s' = recvBuffered s ∧ id s' = id s).
Proof.
  unfold replenishRecvWindow. destruct (closedFlag c || (n <=? 0)); [eauto 10|].
  destruct (get_stream sid c) as [[r0 s0]|] eqn:Hg;
    [|destruct (replenish_conn_fields n c) as (-> & -> & _); eauto 10].
  destruct (remoteClosed s0);
    [destruct (replenish_conn_fields n c) as (-> & -> & _); eauto 10|].
  set (c1 := send _ _).
  destruct (replenish_conn_fields n c1) as (-> & -> & _).
  assert (streams c1 = streams c ∧ objs c1 = alter (add_recvWindow n) r0 (objs c)) as [-> ->].
  { unfold c1, send. by destruct (closedFlag _). }
  split; [done|]. intros r s Hs. rewrite list_lookup_alter.
  destruct (decide (r0 = r)) as [->|]; rewrite Hs; cbn; eauto 10.
Qed.

Lemma data_stream_inv cfg sid r s d n fin c :
  map_get (streams c) sid = Some r → objs c !! r = Some s → remoteClosed s = false → zlen d ≤ n →
  n ≤ recvWindow s →
  inv_at cfg nobody n 0 nodebt c → inv cfg (data_on_stream sid r s d n fin c).
Proof.
  intros Hg Hs Hrc Hd Hle Hinv. unfold data_on_stream.
  apply (recvWindow_debit _ _ _ _ n _ _ _ _ Hg Hs Hle) in Hinv.
  set (c1 := with_obj r (add_recvWindow (- n)) c) in *.
  assert (objs c1 !! r = Some (add_recvWindow (- n) s)) as Hs1
    by (unfold c1, with_obj; cbn; by rewrite list_lookup_alter_eq, Hs).
  assert (map_get (streams c1) sid = Some r) as Hg1 by done. clearbody c1.
  set (c2 := if 0 <? n - zlen d then replenishRecvWindow sid (n - zlen d) c1 else c1).
  assert (inv_at cfg nobody (zlen d) 0 (add_at nodebt sid (zlen d)) c2 ∧
    map_get (streams c2) sid = Some r ∧
    ∃ s2, objs c2 !! r = Some s2 ∧ remoteClosed s2 = false) as (Hi2 & Hg2 & s2 & Hs2 & Hrc2).
  { unfold c2. destruct (Z.ltb_spec 0 (n - zlen d)).
    - destruct (replenish_fields sid (n - zlen d) c1) as [Hst Hob]. rewrite Hst.
      destruct (Hob _ _ Hs1) as (s2 & Hs2 & Hr2 & _). split_and!; [|done|exists s2; by rewrite Hr2].
      apply inv_replenish; [lia|]. replace (zlen d + (n - zlen d)) with n by lia.
      eapply inv_ext; [|exact Hinv]. intros i. unfold add_at. case_decide; lia.
    - replace (zlen d) with n by lia. split_and!; [done|done|]. by eexists. }
  clearbody c2. pose proof (buffer_inv cfg sid r s2 d fin c2 Hg2 Hs2 Hrc2 Hi2) as H.
  destruct fin; [by apply inv_retire|done].
Qed.

(** ** Dispatch *)

(** The outcome of a handler: an error that names no stream tears the connection down, so
    after it only the part of the invariant that does not speak of credit is needed. *)
Definition stream_scoped (x : result exn unit) : Prop :=
  match x with
  | Ok _ => True
  | Throw (EH2 e) => is_Some (h2_streamId e)
  | Throw _ => False
  end.
Definition handled (cfg : Config) (cx : Conn * result exn unit) : Prop :=
  core cfg nobody (fst cx) ∧ (stream_scoped (snd cx) → inv cfg (fst cx)).

Lemma handled_inv cfg c x : inv cfg c → handled cfg (c, x).
Proof. intros Hc. split; [apply Hc|done]. Qed.
Lemma handled_keeps cfg m c : keeps_inv cfg m → inv cfg c → handled cfg (m c).
Proof. intros Hm Hc. specialize (Hm c Hc). by destruct (m c); apply handled_inv. Qed.

Lemma inv_closed cfg c : core cfg nobody c → closedFlag c = true → inv cfg c.
Proof. intros Hco Hcl. split; [done|congruence]. Qed.

Lemma data_inv cfg sid d flow fin c :
  zlen d ≤ default (zlen d) flow → inv_at cfg nobody 0 (default (zlen d) flow) nodebt c →
  handled cfg (on_data sid d flow fin c).
Proof.
  intros Hd Hinv. unfold on_data. set (n := default (zlen d) flow) in *.
  destruct (Z.ltb_spec (connRecvAvailable c) n) as [|Hle]; [split; [apply Hinv|by intros [? ?]]|].
  assert (0 ≤ n) as Hn by zl.
  apply (inv_charge cfg nobody 0 0 nodebt n c Hle) in Hinv. rewrite Z.add_0_l in Hinv.
  set (c1 := set_connRecvAvailable _ c) in *.
  assert (get_stream sid c = get_stream sid c1) as -> by done.
  assert (inv cfg (replenishConnectionWindow n c1)) as Hrep
    by (by apply inv_replenish_conn).
  destruct (get_stream sid c1) as [[r s]|] eqn:Hg.
  - apply get_stream_Some in Hg as [Hg Hs].
    destruct (remoteClosed s) eqn:Hrc; [|destruct (Z.ltb_spec (recvWindow s) n)]; apply handled_inv.
    + by eapply (inv_reset _ nobody nodebt).
    + by eapply (inv_reset _ nobody nodebt).
    + by apply data_stream_inv.
  - destruct (isIdleInboundStream _ _ _); [by apply handled_inv|].
    apply handled_inv. by apply inv_send.
Qed.

Lemma rst_inv cfg sid code c : inv cfg c → inv cfg (on_rst_stream sid code c).
Proof.
  intros Hinv. unfold on_rst_stream. destruct (get_stream sid c) as [[r s]|] eqn:Hg; [|done].
  apply get_stream_Some in Hg as [Hg Hs]. pose proof (ref_id _ _ _ _ _ _ (proj1 Hinv) Hg Hs) as Hid.
  apply (inv_discard _ _ _ _ _ _ _ _ _ Hg Hs) in Hinv.
  destruct (discard_fields r s c) as [Hst Hob]. set (c1 := discard_stream r s c) in *. clearbody c1.
  apply inv_wake_slots. eapply (inv_delete _ (λ i, i = sid) nobody _ _ _ nodebt);
    [by intros i Hi ->| |].
  2:{ apply inv_fail; [|split; [eapply core_weaken; [|apply Hinv]|apply Hinv]].
      - intros s' Hs'. left. rewrite Hob, list_lookup_alter_eq, Hs in Hs'. injection Hs' as <-.
        exact Hid.
      - done. }
  intros i Hi. by rewrite add_at_ne.
Qed.

Lemma ping_ack_inv cfg ack opaque c : inv cfg c → inv cfg (on_ping ack opaque c).
Proof.
  intros Hc. unfold on_ping. destruct ack; [|by apply inv_send].
  destruct (map_get _ _); [by_same|done].
Qed.

Lemma fail_stream_ids e r c r' s' :
  objs (fail_stream e r c) !! r' = Some s' → ∃ s, objs c !! r' = Some s ∧ id s' = id s.
Proof.
  unfold fail_stream. destruct (objs c !! r) as [s|] eqn:Hs; [|eauto].
  pose proof (fail_fields e s) as Hf. destruct (fail e s) as [s1 ids]. cbn [fst] in Hf.
  cbn [objs wake_pumps set_pumps with_obj set_objs]. intros (z & Hz & ->)%lookup_alter_inv.
  destruct (decide (r = r')) as [->|]; [|eauto]. exists z. split; [done|].
  rewrite Hs in Hz. injection Hz as <-. apply Hf.
Qed.

Lemma goaway_fold_inv cfg last code (l : list (Z * nat)) c :
  (∀ sid r s, (sid, r) ∈ l → objs c !! r = Some s → id s = sid) → inv cfg c →
  inv cfg (fold_left (λ c '(sid, r), if last <? sid
    then delete_stream sid (fail_stream (excluded code sid) r c) else c) l c).
Proof.
  revert c. induction l as [|[sid r] l IH]; intros c Hl Hc; cbn [fold_left]; [done|].
  apply IH.
  - intros i r' s' Hin Hs'. destruct (last <? sid); [|eapply Hl; [by right|done]].
    apply fail_stream_ids in Hs' as (s & Hs & ->). eapply Hl; [by right|done].
  - destruct (last <? sid); [|done].
    eapply (inv_delete _ (λ i, i = sid) nobody); [by intros i Hi ->|done|].
    apply inv_fail.
    + intros s Hs. left. eapply Hl; [by left|done].
    + split; [by eapply core_weaken; [|apply Hc]|apply Hc].
Qed.

Lemma goaway_inv cfg last code c : inv cfg c → inv cfg (on_goaway last code c).
Proof.
  intros Hc. unfold on_goaway.
  set (c1 := set_goawayReceived true c). assert (inv cfg c1) as H1 by by_same. clearbody c1.
  set (c2 := fold_left _ _ _).
  assert (inv cfg c2) as H2.
  { apply goaway_fold_inv; [|done]. intros sid r s Hin Hs.
    apply map_elem_get in Hin; [|apply H1]. by eapply ref_id; [apply H1|..]. }
  clearbody c2. apply inv_wake_slots in H2. set (c3 := wakeStreamSlots c2) in *.
  destruct (code =? 0); [done|]. eapply inv_destroy; [done|apply H2].
Qed.

(** Logging an arrived frame: its data is still to be charged. *)
Lemma inv_rx cfg f c :
  rx_ok f → inv cfg c →
  inv_at cfg nobody 0 (frame_flow f) nodebt (set_wire (wire c ++ [Rx f]) c).
Proof.
  intros Hf [Hco Hac]. split.
  - apply core_wire; rewrite ?wsum_snoc, ?tx_ids_app; cbn [tx_data rx_credit tx_ids omap list_omap];
      rewrite ?app_nil_r, ?Z.add_0_r; try done.
    destruct f; cbn [frame_credit]; try lia. cbn in Hf. destruct (_ =? 0); lia.
  - intros Ho. destruct (Hac Ho) as [E1 E2 E4 E3]. split; [done| |done|done]. intros Hp.
    specialize (E2 Hp). cbn [connRecvAvailable wire set_wire]. rewrite !wsum_snoc.
    cbn [tx_credit rx_flow]. lia.
Qed.

Lemma sw_add_available n w : available (fst (sw_add n w)) = available w + n.
Proof.
  unfold sw_add. cbn [available]. destruct (0 <? available w + n); [|done].
  unfold sw_wake. cbn [waiters available sw_closed]. by destruct (waiters w).
Qed.

(** A grant to the connection's send window, logged and applied. *)
Lemma conn_update_inv cfg n c :
  0 ≤ n → inv cfg c → n ≠ 0 →
  inv cfg (fst (on_window_update 0 n (set_wire (wire c ++ [Rx (WindowUpdateFrame 0 n)]) c))).
Proof.
  intros Hn Hc Hne. pose proof (inv_rx cfg (WindowUpdateFrame 0 n) c Hn Hc) as [Hco Hac].
  cbn [frame_flow] in Hac. unfold on_window_update. rewrite (proj2 (Z.eqb_neq n 0) Hne).
  cbn [Z.eqb]. set (c1 := set_wire _ c) in *.
  pose proof (sw_add_available n (connSendWindow c1)) as Hav. unfold sw_update.
  destruct (sw_add n (connSendWindow c1)) as [w ids]. cbn [fst] in *.
  apply inv_wake_pumps. split; [|intros Ho; by destruct (Hac Ho)].
  destruct Hc as [Hc _]. destruct Hco, Hc.
  split; try done; cbn [connSendWindow wire set_connSendWindow].
  - rewrite Hav. cbn [connSendWindow c1 set_wire]. lia.
  - rewrite Hav. unfold c1. cbn [connSendWindow wire set_wire]. rewrite !wsum_snoc.
    cbn [tx_data rx_credit frame_credit Z.eqb]. lia.
Qed.

Lemma stream_update_inv cfg sid n c :
  (sid = 0 → n = 0) → inv cfg c → handled cfg (on_window_update sid n c).
Proof.
  intros Hz Hc. unfold on_window_update.
  destruct (Z.eqb_spec n 0) as [->|Hn].
  - destruct (sid =? 0); [by apply handled_inv|]. apply handled_inv.
    by eapply (inv_reset _ nobody nodebt).
  - rewrite (proj2 (Z.eqb_neq sid 0)) by auto. apply handled_inv.
    destruct (get_stream sid c) as [[r s]|]; [|done]. destruct (sw_update _ _).
    apply inv_wake_pumps, inv_quiet; [by repeat split|done].
Qed.

Lemma dispatch_inv cfg f c : rx_ok f → inv cfg c → handled cfg (dispatch cfg f c).
Proof.
  intros Hf Hc. unfold dispatch. pose proof (inv_rx cfg f c Hf Hc) as Hrx.
  set (c1 := set_wire (wire c ++ [Rx f]) c) in *.
  destruct (_ && _); [split; [apply Hrx|by intros [? ?]]|].
  destruct f as [sid d flow fin|sid fr es eh p|sid p|sid code|ack s|sid pr fr eh|ack op|last code dbg
    |sid n|sid fr eh].
  - by apply data_inv.
  - apply handled_keeps; [apply extend_inv|done].
  - by apply handled_inv.
  - by apply handled_inv, rst_inv.
  - apply handled_keeps; [apply settings_inv|done].
  - apply handled_keeps; [apply extend_inv|done].
  - by apply handled_inv, ping_ack_inv.
  - by apply handled_inv, goaway_inv.
  - destruct (decide (sid = 0 ∧ n ≠ 0)) as [[-> Hn]|Hn].
    + pose proof (conn_update_inv cfg n c Hf Hc Hn) as H. fold c1 in H.
      destruct (on_window_update 0 n c1). by apply handled_inv.
    + apply stream_update_inv; [|done]. intros ->.
      destruct (decide (n = 0)); [done|]. by destruct Hn.
  - apply handled_keeps; [apply continuation_inv|done].
Qed.

Lemma dispatch_all_inv cfg fs c :
  Forall rx_ok fs → inv cfg c → inv cfg (dispatch_all cfg fs c).
Proof.
  intros Hfs. revert c. induction Hfs as [|f fs Hf Hfs IH]; intros c Hc; cbn [dispatch_all]; [done|].
  destruct (dispatch_inv cfg f c Hf Hc) as [Hco Hs].
  destruct (dispatch cfg f c) as [c' x]. cbn [fst snd] in *.
  assert (∀ e, inv cfg (connectionError e c')) as Herr.
  { intros e. apply inv_connection_error; [|done]. by apply inv_closed. }
  destruct x as [u|[[code [sid|] retry]| | |]]; try apply Herr.
  - by apply IH, Hs.
  - apply IH. eapply (inv_reset _ nobody nodebt); [done|done|]. apply Hs. by eexists.
Qed.

Lemma onBytes_inv cfg chunk c : inv cfg c → inv cfg (onBytes cfg chunk c).
Proof.
  intros Hc. unfold onBytes. destruct (fd_push chunk (frameDecoder c)) as [fd x] eqn:Hp.
  set (c1 := set_frameDecoder fd c). assert (inv cfg c1) as H1 by by_same. clearbody c1.
  destruct x as [fs|e].
  - apply dispatch_all_inv; [by eapply fd_push_rx|done].
  - apply inv_connection_error; [|apply H1]. done.
Qed.

(** ** Requests *)

Lemma continuations_inv cfg fuel sid block max off c :
  inv cfg c → inv cfg (send_continuations fuel sid block max off c).
Proof.
  revert off c. induction fuel as [|n IH]; intros off c Hc; cbn [send_continuations]; [done|].
  destruct (off <? zlen block); [|done]. apply IH. by apply inv_send.
Qed.

Lemma odds_S n : odds (S n) = odds n ++ [2 * Z.of_nat n + 1].
Proof. unfold odds. rewrite seq_S, map_app. done. Qed.

(** The first frame of a request registers the stream and uses the next odd id. *)
Lemma open_headers_inv cfg c fr es eh :
  inv cfg c → closedFlag c = false →
  inv cfg (send (HeadersFrame (nextStreamId c) fr es eh None)
    (set_streams (map_set (streams c) (nextStreamId c) (length (objs c)))
      (set_objs (objs c ++ [stream_new (nextStreamId c) (r_initialWindowSize (remote c)) open
                              (localInitialWindow cfg)])
        (set_nextStreamId (nextStreamId c + 2) c)))).
Proof.
  intros Hc Hopen. set (s := stream_new _ _ _ _). set (f := HeadersFrame _ _ _ _ _).
  unfold send. cbn [closedFlag set_streams set_objs set_nextStreamId]. rewrite Hopen.
  destruct (co_ids _ _ _ (proj1 Hc)) as (n & Hn & Hids).
  eapply inv_same; [|apply (inv_add cfg s (nextStreamId c + 2) (wire c ++ [Tx f]) c);
    rewrite ?wsum_snoc; try done; try (cbn; lia)].
  - by repeat split.
  - exists (S n). split; [lia|]. rewrite tx_ids_app, Hids, odds_S. cbn. by rewrite Hn.
Qed.

Lemma open_inv cfg init c :
  inv cfg c → closedFlag c = false → inv cfg (fst (open_stream cfg init c)).
Proof.
  intros Hc Hopen. unfold open_stream. cbv zeta. cbn [fst].
  set (c1 := set_streams _ _). set (sid := nextStreamId c) in *.
  assert (inv cfg (sendHeaders sid (buildRequestHeaders init)
    (negb (negb (bodyIsEmpty (i_body init)))) c1)) as H1.
  { unfold sendHeaders, send_block. destruct (_ <=? _); [by apply open_headers_inv|].
    apply continuations_inv. by apply open_headers_inv. }
  set (c2 := sendHeaders _ _ _ _) in *. clearbody c2.
  set (r := length _). set (hb := negb (bodyIsEmpty _)).
  apply (inv_quiet _ _ _ _ _ r (set_state (if hb then open else halfClosedLocal))) in H1;
    [|by repeat split].
  destruct hb; [by_same|]. apply inv_quiet; [by repeat split|done].
Qed.

Lemma request_inv cfg t init aborted c :
  inv cfg c → inv cfg (fst (request_resume cfg t init aborted c)).
Proof.
  intros Hc. unfold request_resume, request_check. destruct aborted; [done|].
  destruct (closedFlag c) eqn:Hcl; [done|]. destruct (goawayReceived c); [done|]. cbn [orb].
  destruct (canOpenStream c); [by apply open_inv|]. by_same.
Qed.

Lemma inv_weaken cfg X k j δ c : inv_at cfg nobody k j δ c → inv_at cfg X k j δ c.
Proof. intros [Hco Hac]. split; [by eapply core_weaken; [|exact Hco]|done]. Qed.

(** Failing a stream object and then resetting its id, when the id is still in the map. *)
Lemma fail_reset_inv cfg r s e c :
  objs c !! r = Some s → inv cfg c →
  inv cfg (let c' := fail_stream e r c in
           if bool_decide (is_Some (map_get (streams c') (id s)))
           then resetStream (id s) CANCEL c' else c').
Proof.
  intros Hs Hc. cbv zeta. rewrite fail_stream_streams.
  assert (inv_at cfg (λ i, i = id s) 0 0 nodebt (fail_stream e r c)) as H1.
  { apply inv_fail; [|by apply inv_weaken]. intros s' Hs'. left. congruence. }
  destruct (bool_decide_reflect (is_Some (map_get (streams c) (id s)))) as [Hin|Hin].
  - by eapply (inv_reset _ (λ i, i = id s) nodebt).
  - apply (inv_absent _ (λ i, i = id s) _ _ nodebt nodebt (id s)); [|done|done|done].
    rewrite fail_stream_streams. by apply eq_None_not_Some.
Qed.

Lemma abort_inv cfg r e c : inv cfg c → inv cfg (abort_request r e c).
Proof.
  intros Hc. unfold abort_request. destruct (objs c !! r) as [s|] eqn:Hs; [|done].
  pose proof (fail_reset_inv cfg r s e c Hs Hc) as H. cbv zeta in H.
  rewrite fail_stream_streams in H. by case_bool_decide.
Qed.

Lemma pump_failed_inv cfg r e c : inv cfg c → inv cfg (pump_failed r e c).
Proof.
  intros Hc. unfold pump_failed. destruct (objs c !! r) as [s|] eqn:Hs; [|done].
  by apply fail_reset_inv.
Qed.

(** ** The body pump *)

Lemma zlen_subarray_le b s e : s ≤ e → zlen (subarray b s e) ≤ e - s.
Proof.
  intros He. unfold subarray. rewrite zlen_take, zlen_drop. unfold rel_index.
  pose proof (zlen_nonneg b). destruct (Z.ltb_spec s 0), (Z.ltb_spec e 0); lia.
Qed.

Lemma waitPositive_available t w : available (fst (sw_waitPositive t w)) = available w.
Proof. unfold sw_waitPositive. by destruct (_ || _). Qed.

Lemma inv_conn_window cfg w c :
  available w = available (connSendWindow c) → inv cfg c → inv cfg (set_connSendWindow w c).
Proof.
  intros Hw [Hco Hac]. split; [by apply core_send_window|]. intros Ho. by destruct (Hac Ho).
Qed.

Lemma pump_top_inv cfg i p s c : inv cfg c → inv cfg (pump_top i p s c).
Proof.
  intros Hc. unfold pump_top. destruct (_ <? _); [|by_same].
  destruct (pump_stopped s c); [by_same|].
  pose proof (waitPositive_available i (connSendWindow c)) as Hw.
  destruct (sw_waitPositive i (connSendWindow c)) as [w now]. cbn [fst] in Hw.
  apply (inv_conn_window cfg w c Hw) in Hc. by_same.
Qed.

(** A DATA frame within the connection's send window. *)
Lemma inv_data_sent cfg sid d fl fin g c :
  zlen d ≤ g → g ≤ available (connSendWindow c) → inv cfg c →
  inv cfg (set_wire (wire c ++ [Tx (DataFrame sid d fl fin)])
    (set_connSendWindow (sw_consume g (connSendWindow c)) c)).
Proof.
  intros Hd Hg [Hco Hac]. pose proof (zlen_nonneg d). split.
  - destruct Hco as [H1 H2 H3 H4 H5 H6 H7 H8 H9 H10].
    split; try done; cbn [connSendWindow wire set_wire set_connSendWindow nextStreamId];
      cbn [sw_consume available]; rewrite ?wsum_snoc, ?tx_ids_app; cbn [tx_data rx_credit tx_ids omap list_omap];
      rewrite ?app_nil_r; try done; lia.
  - intros Ho. destruct (Hac Ho) as [E1 E2 E4 E3]. split; [done| |done|done]. intros Hp. specialize (E2 Hp).
    cbn [connRecvAvailable wire set_wire set_connSendWindow]. rewrite !wsum_snoc.
    cbn [tx_credit rx_flow]. lia.
Qed.

Lemma pump_grant_inv cfg i p s c : inv cfg c → inv cfg (pump_grant i p s c).
Proof.
  intros Hc. unfold pump_grant. destruct (pump_stopped s c) eqn:Hst; [by_same|].
  apply orb_false_iff in Hst as [Hopen _].
  set (g := Z.min _ _). destruct (Z.leb_spec g 0); [by apply pump_top_inv|].
  set (d := subarray _ _ _). set (w := sw_consume g (sendWindow s)).
  assert (inv cfg (with_obj (p_ref p) (set_sendWindow w)
    (set_wire (wire c ++ [Tx (DataFrame (id s) d None false)])
      (set_connSendWindow (sw_consume g (connSendWindow c)) c)))) as H1.
  { apply inv_quiet; [by repeat split|]. apply inv_data_sent; [|lia|done].
    unfold d. etransitivity; [apply zlen_subarray_le; lia|lia]. }
  unfold send. cbn [closedFlag with_obj set_objs set_connSendWindow]. rewrite Hopen. by_same.
Qed.

Lemma pump_end_inv cfg i p s c : inv cfg c → inv cfg (pump_end i p s c).
Proof.
  intros Hc. unfold pump_end. destruct (_ || _); [by_same|].
  apply (inv_send _ _ _ _ _ (DataFrame (id s) [] None true)) in Hc; [|done]. by_same.
Qed.

Lemma pump_step_inv cfg i delivered c : inv cfg c → inv cfg (pump_step i delivered c).
Proof.
  intros Hc. unfold pump_step. destruct (pumps c !! i) as [p|]; [|done].
  destruct (objs c !! p_ref p) as [s|]; [|done]. destruct (p_phase p).
  - unfold pump_next. destruct (p_fixed p) as [[|ch rest]|];
      [by apply pump_end_inv|by apply pump_top_inv|].
    destruct delivered as [[|b ch]|]; [done|by apply pump_top_inv|by apply pump_end_inv].
  - done.
  - destruct (sw_waitPositive i (sendWindow s)) as [w now].
    apply (inv_quiet _ _ _ _ _ (p_ref p) (set_sendWindow w)) in Hc; [|by repeat split]. by_same.
  - done.
  - by apply pump_grant_inv.
  - by apply pump_top_inv.
  - apply (inv_quiet _ _ _ _ _ (p_ref p) (λ s, set_localClosed (set_state halfClosedLocal s)))
      in Hc; [|by repeat split]. apply (inv_retire _ (id s)) in Hc. by_same.
  - done.
Qed.

Lemma pump_throws_inv cfg i e c : inv cfg c → inv cfg (pump_throws i e c).
Proof.
  intros Hc. unfold pump_throws. destruct (pumps c !! i) as [p|]; [|done].
  assert (inv cfg (set_pump i (pump_at p PDone) c)) as H1 by by_same.
  destruct (p_phase p); try done; by apply pump_failed_inv.
Qed.

(** ** Response bodies *)

(** Taking [n] bytes out of a stream's buffer makes the connection and the stream owe them. *)
Lemma take_inv cfg X k j δ r s f n c :
  objs c !! r = Some s → inv_at cfg X k j δ c →
  id (f s) = id s → stream_ok (f s) → (live_ok s → live_ok (f s)) →
  recvBuffered (f s) = recvBuffered s - n → recvWindow (f s) = recvWindow s →
  remoteClosed (f s) = remoteClosed s →
  inv_at cfg X (k + n) j (add_at δ (id s) n) (with_obj r f c).
Proof.
  intros Hs [Hco Hac] F1 F2 F3 F4 F5 F6. split.
  - apply core_obj; [done|]. intros s0 Hs0. rewrite Hs in Hs0. injection Hs0 as <-.
    split_and!; auto.
  - intros Ho. specialize (Hac Ho).
    pose proof (acct_obj cfg k j δ (add_at δ (id s) n) r f s c Hac Hs) as Ha.
    replace (k + recvBuffered s - recvBuffered (f s)) with (k + n) in Ha by lia. apply Ha.
    + intros i Hi. by apply add_at_ne.
    + intros i r' Hp Hg Hne. apply add_at_ne. intros ->.
      by apply Hne, (co_own _ _ _ Hco Hp _ _ _ Hs).
    + intros _ _ Hr. rewrite F6 in Hr. split; [done|]. rewrite add_at_eq. split; lia.
    + intros i Hg. symmetry. by eapply ref_id.
Qed.

Lemma pull_inv cfg r c : inv cfg c → inv cfg (body_pull r c).
Proof.
  intros Hc. unfold body_pull. destruct (objs c !! r) as [s|] eqn:Hs; [|done].
  destruct (_ || _); [done|].
  assert (stream_ok s) as Hok by (by eapply co_objs; [apply Hc|]).
  unfold pullBody. destruct (recvQueue s) as [|ch rest] eqn:Hq.
  - destruct (recvError s) as [e|] eqn:He; [|destruct (recvEnded s) eqn:Hen];
      apply inv_obj; try done; intros s0 Hs0; rewrite Hs in Hs0; injection Hs0 as <-;
      (split_and!; [done|by rewrite ?Hq..|]); unfold live_ok; cbn; rewrite ?He, ?Hen; intuition congruence.
  - apply inv_replenish; [apply zlen_nonneg|].
    apply (take_inv cfg nobody 0 0 nodebt r s
      (λ _, call (Enqueue ch) (set_queue rest (recvBuffered s - zlen ch) s)) (zlen ch) c); try done.
    unfold stream_ok in *. rewrite Hq in Hok.
    change (mjoin (ch :: rest) : bytes) with (ch ++ mjoin rest) in Hok. rewrite zlen_app in Hok.
    cbn [call set_queue recvBuffered recvQueue]. lia.
Qed.

Lemma cancel_begin_inv cfg r s c :
  objs c !! r = Some s → inv cfg c →
  snd (cancel_begin s) = false ∨ map_get (streams c) (id s) = None →
  inv cfg (with_obj r (λ _, set_bodyDone s) c).
Proof.
  intros Hs Hc Hcase. apply inv_obj; [done|]. intros s0 Hs0. rewrite Hs in Hs0.
  injection Hs0 as <-. split_and!; try done. intros (L1 & L2 & L3).
  destruct Hcase as [Hlive|Hnone]; [left|right; right; congruence].
  split_and!; [done|done|]. intros _. cbn. cbn [cancel_begin snd] in Hlive.
  rewrite L1, bool_decide_eq_true_2, andb_true_r in Hlive by done.
  apply andb_false_iff in Hlive as [H|H]; apply negb_false_iff in H; auto.
Qed.

(** Returning the credit of the buffered bytes, then dropping them. *)
Lemma cancel_clear_inv cfg X r s c :
  objs c !! r = Some s → inv_at cfg X 0 0 nodebt c →
  inv_at cfg X 0 0 nodebt (with_obj r cancel_clear
    (if 0 <? recvBuffered s then replenishRecvWindow (id s) (recvBuffered s) c else c)).
Proof.
  intros Hs Hc. assert (stream_ok s) as Hok by (by eapply co_objs; [apply Hc|]).
  set (n := recvBuffered s). assert (0 ≤ n) as Hn by (unfold n; rewrite Hok; apply zlen_nonneg).
  set (c1 := if 0 <? n then _ else c).
  assert (inv_at cfg X (- n) 0 (add_at nodebt (id s) (- n)) c1 ∧
    ∃ s1, objs c1 !! r = Some s1 ∧ recvBuffered s1 = n ∧ id s1 = id s) as (H1 & s1 & Hs1 & Hn1 & Hi1).
  { unfold c1. destruct (Z.ltb_spec 0 n).
    - split.
      + apply inv_replenish; [done|]. replace (- n + n) with 0 by lia.
        eapply inv_ext; [|exact Hc]. intros i. unfold add_at. case_decide; lia.
      + destruct (replenish_fields (id s) n c) as [_ Hob].
        destruct (Hob _ _ Hs) as (s1 & ? & ? & ? & ? & ? & ?). eauto.
    - split; [|by exists s]. assert (- n = 0) as -> by lia. eapply inv_ext; [|exact Hc].
      intros i. unfold add_at. case_decide; lia. }
  clearbody c1. pose proof (take_inv cfg X (- n) 0 _ r s1 cancel_clear n c1 Hs1 H1) as H.
  replace (- n + n) with 0 in H by lia. rewrite Hi1 in H.
  eapply inv_ext; [|apply H]; try done.
  - intros i. unfold add_at. case_decide; lia.
  - cbn. lia.
Qed.

Lemma cancel_inv cfg r c : inv cfg c → inv cfg (body_cancel r c).
Proof.
  intros Hc. unfold body_cancel. destruct (objs c !! r) as [s|] eqn:Hs; [|done].
  destruct (cancel_begin s) as [s' live] eqn:Hcb.
  assert (s' = set_bodyDone s) as -> by (unfold cancel_begin in Hcb; congruence).
  assert (live = snd (cancel_begin s)) as -> by (by rewrite Hcb). clear Hcb.
  set (c1 := with_obj r (λ _, set_bodyDone s) c).
  assert (objs c1 !! r = Some (set_bodyDone s)) as Hs1
    by (unfold c1, with_obj; cbn; by rewrite list_lookup_alter_eq, Hs).
  set (c2 := if 0 <? recvBuffered s then replenishRecvWindow (id s) (recvBuffered s) c1 else c1).
  assert (streams c2 = streams c) as Hst.
  { unfold c2. destruct (_ <? _); [|done].
    exact (proj1 (replenish_fields (id s) (recvBuffered s) c1)). }
  assert (streams (with_obj r cancel_clear c2) = streams c) as -> by done.
  destruct (snd (cancel_begin s) && _) eqn:Hlive.
  - assert (inv_at cfg (λ i, i = id s) 0 0 nodebt c1) as H1.
    { apply inv_obj; [by apply inv_weaken|]. intros s0 Hs0. rewrite Hs in Hs0.
      injection Hs0 as <-. split_and!; auto. }
    eapply (inv_reset _ (λ i, i = id s) nodebt); [done|done|].
    exact (cancel_clear_inv cfg _ r (set_bodyDone s) c1 Hs1 H1).
  - apply (cancel_clear_inv cfg _ r (set_bodyDone s) c1 Hs1), cancel_begin_inv; [done|done|].
    apply andb_false_iff in Hlive as [H|H]; [auto|right].
    apply bool_decide_eq_false in H. by apply eq_None_not_Some.
Qed.

(** ** All steps *)

Lemma step_inv cfg ev c : inv cfg c → inv cfg (step cfg ev c).
Proof.
  intros Hc. destruct ev; cbn [step].
  - destruct (_ =? 0); [done|by apply onBytes_inv].
  - eapply inv_destroy; [done|apply Hc].
  - eapply inv_destroy; [done|apply Hc].
  - by apply request_inv.
  - unfold abort_parked. case_decide; [by_same|done].
  - by apply abort_inv.
  - by apply pump_step_inv.
  - by apply pump_throws_inv.
  - by apply pull_inv.
  - by apply cancel_inv.
  - by eapply (inv_reset _ nobody nodebt).
  - unfold ping. cbv zeta. cbn [closedFlag set_pingCounter]. destruct (closedFlag c); [by_same|].
    apply inv_send; [done|]. by_same.
  - by apply inv_close.
  - unfold close_finish. destruct (closing c) as [|n]; [done|].
    assert (inv cfg (set_closing n c)) as H1 by by_same.
    eapply inv_destroy; [done|apply H1].
Qed.

Lemma new_inv o cfg c : connection_new o = Ok (cfg, c) → inv cfg c.
Proof.
  unfold connection_new. cbv zeta.
  set (iw := default _ (o_initialWindowSize o)). set (rw := default _ (o_connectionWindowSize o)).
  destruct (negb (validWindow iw) || _) eqn:Hv; [done|]. intros [= <- <-].
  apply orb_false_iff in Hv as [Hi Hv]. apply negb_false_iff, andb_true_iff in Hi as [Hi _].
  apply negb_false_iff, andb_true_iff in Hv as [Hv _].
  apply Z.leb_le in Hi, Hv. unfold SPEC_INITIAL_WINDOW in Hv. unfold send. cbn [closedFlag set_wire wire app].
  assert (∀ w, wsum tx_data w = 0 → wsum rx_credit w = 0 → wsum rx_flow w = 0 → tx_ids w = [] →
    SPEC_INITIAL_WINDOW + wsum tx_credit w = rw →
    inv (mkConfig (o_onPush o) (default DEFAULT_MAX_FRAME_SIZE (o_maxFrameSize o)) iw rw)
      (mkConn (hd_new (default 4096 (o_headerTableSize o)))
        (fd_new (default DEFAULT_MAX_FRAME_SIZE (o_maxFrameSize o))) [] [] 1
        (sw_new SPEC_INITIAL_WINDOW) rw
        (mkRemote SPEC_INITIAL_WINDOW DEFAULT_MAX_FRAME_SIZE 4096 true None) [] None [] 0
        false None false 0 0 [] [] [] w)) as H.
  { intros w W1 W2 W3 W4 W5. split.
    - split; cbn [streams objs nextStreamId connSendWindow wire]; try done.
      + apply NoDup_nil_2.
      + rewrite W1, W2. done.
      + exists 0%nat. done.
    - intros _. split; cbn [streams objs connRecvAvailable wire connRecvWindow]; [|lia|lia|done].
      unfold total. cbn [objs foldr]. lia. }
  destruct (Z.ltb_spec 0 (rw - SPEC_INITIAL_WINDOW)); cbn [closedFlag set_wire wire app];
    apply H; try done; cbn; unfold SPEC_INITIAL_WINDOW in *; lia.
Qed.

Lemma reachable_inv o cfg c : reachable o cfg c → inv cfg c.
Proof.
  induction 1 as [c Hn|c ev Hr IH]; [by eapply new_inv|by apply step_inv].
Qed.
