(* ===== verification/ConnectionCorrect.v ===== *)
(** * ConnectionCorrect: what the connection promises

    Theorems about every state the event loop can reach, from the invariant of
    [ConnectionInv], and about single operations. *)
From S2P Require Import Prelude Errors Text Bytes Frames HpackTables Huffman Hpack Flow Stream.
From S2P Require Import Connection ConnectionInv ConnectionSteps.
Local Open Scope Z_scope.

(** ** A concrete run, for the witnesses *)

Definition run (cfg : Config) (evs : list Event) (c : Conn) : Conn :=
  fold_left (λ c ev, step cfg ev c) evs c.

Lemma reachable_run o cfg evs c : reachable o cfg c → reachable o cfg (run cfg evs c).
Proof.
  revert c. induction evs as [|ev evs IH]; intros c Hc; [done|]. apply IH. by constructor.
Qed.

Module Demo.
Definition options : ConnectOptions := mkOptions None None None None None None.
Definition cfg : Config := mkConfig None 16384 1048576 67108864.
Definition start : Conn :=
  match connection_new options with Ok (_, c) => c | Throw _ =>
    mkConn (hd_new 0) (fd_new 0) [] [] 1 (sw_new 0) 0 (mkRemote 0 0 0 true None) [] None [] 0 false
      None false 0 0 [] [] [] [] end.
Definition get (path : string) (body : BodyInit) : H2RequestInit :=
  mkInit (Some (js "post")) (Some (js path)) (Some (js "bridge")) None
    [(js "TE", js "trailers"); (js "Host", js "x")] body.
Definition frame (f : Frame) : bytes := serializeFrame ByteWriter f.
Definition status_200 : bytes := he_encode ByteWriter [mkHeader (js ":status") (js "200") false].
Definition events : list Event :=
  [ EvRequest 0 (get "/a" (BBytes [1; 2; 3])) None; EvRequest 1 (get "/b" BNone) None;
    EvPump 0 None; EvPump 0 None; EvPump 0 None; EvPump 0 None; EvPump 0 None; EvPump 0 None;
    EvBytes (frame (HeadersFrame 1 status_200 false true None));
    EvBytes (frame (DataFrame 1 [7; 8; 9] None false) ++ frame (DataFrame 3 [5] None false));
    EvBytes (frame (WindowUpdateFrame 0 1000));
    EvPull 0 ].
Definition final : Conn := run cfg events start.

Lemma start_eq : connection_new options = Ok (cfg, start).
Proof. vm_compute. reflexivity. Qed.
Lemma final_reachable : reachable options cfg final.
Proof. apply reachable_run. constructor. apply start_eq. Qed.
End Demo.

(** ** Flow control, receiving *)

(** C1: while the connection is open, the credit the peer still holds plus the bytes that wait
    unread in all stream objects (live, retired or reset) is exactly the advertised connection
    window.  So unread data is bounded by that window, and no credit is lost or granted twice,
    whatever the peer sends, however the application reads, cancels and aborts. *)
Theorem receive_credit_conserved o cfg c :
  reachable o cfg c → closedFlag c = false →
  connRecvAvailable c + total c = connRecvWindow cfg ∧ total c ≤ connRecvWindow cfg.
Proof.
  intros Hr Ho. destruct (reachable_inv _ _ _ Hr) as [_ Hac]. destruct (Hac Ho). lia.
Qed.

Lemma receive_credit_conserved_witness :
  connRecvAvailable Demo.final + total Demo.final = 67108864 ∧ total Demo.final = 1.
Proof.
  split; [|vm_compute; reflexivity].
  apply (receive_credit_conserved Demo.options Demo.cfg Demo.final Demo.final_reachable).
  vm_compute. reflexivity.
Defined.

(** Without server push, the window the connection keeps is the one the peer can compute
    from the wire: 65535, plus the WINDOW_UPDATE credit written for stream 0, minus the
    flow-controlled bytes of the DATA frames received. *)
Theorem receive_window_on_wire o cfg c :
  reachable o cfg c → closedFlag c = false → onPush cfg = None →
  connRecvAvailable c = 65535 + wsum tx_credit (wire c) - wsum rx_flow (wire c).
Proof.
  intros Hr Ho Hp. destruct (reachable_inv _ _ _ Hr) as [_ Hac].
  rewrite (ac_wire _ _ _ _ _ (Hac Ho) Hp). unfold SPEC_INITIAL_WINDOW. lia.
Qed.

Lemma receive_window_on_wire_witness :
  connRecvAvailable Demo.final =
    65535 + wsum tx_credit (wire Demo.final) - wsum rx_flow (wire Demo.final).
Proof.
  apply (receive_window_on_wire Demo.options Demo.cfg Demo.final Demo.final_reachable);
    vm_compute; reflexivity.
Defined.

(** Without server push, a live stream whose peer may still send never holds more unread
    bytes than the advertised stream window: its remaining window and its unread bytes add up
    to exactly that window. *)
Theorem stream_window_conserved o cfg c sid r s :
  reachable o cfg c → closedFlag c = false → onPush cfg = None →
  get_stream sid c = Some (r, s) → remoteClosed s = false →
  recvWindow s + recvBuffered s = localInitialWindow cfg ∧
  0 ≤ recvBuffered s ≤ localInitialWindow cfg.
Proof.
  intros Hr Ho Hp Hg Hrc. destruct (reachable_inv _ _ _ Hr) as [Hco Hac].
  apply get_stream_Some in Hg as [Hg Hs].
  destruct (ac_stream _ _ _ _ _ (Hac Ho) Hp _ _ _ Hg Hs Hrc) as [Hpos Heq].
  assert (0 ≤ recvBuffered s) by (rewrite (co_objs _ _ _ Hco _ _ Hs); apply zlen_nonneg). lia.
Qed.

Lemma stream_window_conserved_witness :
  ∃ r s, get_stream 3 Demo.final = Some (r, s) ∧
    recvWindow s + recvBuffered s = 1048576 ∧ recvBuffered s = 1.
Proof.
  destruct (get_stream 3 Demo.final) as [[r s]|] eqn:Hg; [|vm_compute in Hg; discriminate Hg].
  exists r, s. split; [reflexivity|].
  assert (remoteClosed s = false ∧ recvBuffered s = 1) as [H1 H2]
    by (vm_compute in Hg; injection Hg as _ <-; vm_compute; split; reflexivity).
  split; [|exact H2].
  apply (stream_window_conserved Demo.options Demo.cfg Demo.final 3 r s Demo.final_reachable);
    [vm_compute; reflexivity|reflexivity|exact Hg|exact H1].
Defined.

(** ** Flow control, sending *)

(** C8: the DATA bytes ever written never exceed the connection credit the peer granted: 65535
    plus its WINDOW_UPDATEs for stream 0; and the connection's send window never goes
    negative. *)
Theorem sent_within_credit o cfg c :
  reachable o cfg c →
  wsum tx_data (wire c) ≤ 65535 + wsum rx_credit (wire c) ∧ 0 ≤ available (connSendWindow c).
Proof.
  intros Hr. destruct (reachable_inv _ _ _ Hr) as [[] _]. unfold SPEC_INITIAL_WINDOW in *. lia.
Qed.

Lemma sent_within_credit_witness :
  wsum tx_data (wire Demo.final) = 3 ∧
  wsum tx_data (wire Demo.final) ≤ 65535 + wsum rx_credit (wire Demo.final).
Proof.
  split; [vm_compute; reflexivity|].
  apply (sent_within_credit Demo.options Demo.cfg Demo.final Demo.final_reachable).
Defined.

(** The HEADERS frames written open the streams 1, 3, 5, ... in this order, each once, and
    the next request will use the next odd id. *)
Theorem stream_ids_odd o cfg c :
  reachable o cfg c →
  ∃ n, tx_ids (wire c) = map (λ i, 2 * Z.of_nat i + 1) (seq 0 n) ∧
       nextStreamId c = 2 * Z.of_nat n + 1.
Proof.
  intros Hr. destruct (reachable_inv _ _ _ Hr) as [[] _].
  destruct co_ids as (n & H1 & H2). by exists n.
Qed.

Lemma stream_ids_odd_witness :
  ∃ n, tx_ids (wire Demo.final) = map (λ i, 2 * Z.of_nat i + 1) (seq 0 n) ∧
       nextStreamId Demo.final = 2 * Z.of_nat n + 1.
Proof. apply (stream_ids_odd Demo.options Demo.cfg Demo.final Demo.final_reachable). Defined.
