(* ===== verification/ConnectionOps.v ===== *)
(** * ConnectionOps: closing, parked requests, header blocks and single operations *)
From S2P Require Import Prelude Errors Text Bytes Frames HpackTables Huffman Hpack Flow Stream.
From S2P Require Import Connection ConnectionInv ConnectionSteps ConnectionCorrect.
Local Open Scope Z_scope.

#[local] Opaque HUFFMAN_CODES ROOT STATIC_TABLE staticPairToIndex staticNameToIndex hd_decode
  he_encode.

(** ** After the connection is closed *)

Definition is_tx (e : Wire) : bool := match e with Rx _ => false | _ => true end.
Definition txs (w : list Wire) : list Wire := filter (λ e, is_tx e = true) w.

(** A closed connection stays closed and writes nothing more. *)
Definition frozen (c c' : Conn) : Prop :=
  closedFlag c = true → closedFlag c' = true ∧ txs (wire c') = txs (wire c).

Lemma frozen_refl c : frozen c c.
Proof. done. Qed.
Lemma frozen_trans c1 c2 c3 : frozen c1 c2 → frozen c2 c3 → frozen c1 c3.
Proof. intros H1 H2 Hc. destruct (H1 Hc) as [Hc2 <-]. auto. Qed.
(** A change of any other field, before or after. *)
Lemma frozen_same c1 c2 c3 :
  closedFlag c3 = closedFlag c2 → wire c3 = wire c2 → frozen c1 c2 → frozen c1 c3.
Proof. intros H1 H2 H Hc. rewrite H1, H2. auto. Qed.
Lemma frozen_send f c : frozen c (send f c).
Proof. intros Hc. unfold send. by rewrite Hc. Qed.

Ltac frozen_field :=
  cbn [fst];
  match goal with |- frozen _ (?f ?d) => apply (frozen_same _ d); [reflexivity|reflexivity|] end.
Ltac frozen_fields := cbn [fst modify]; first [apply frozen_refl | frozen_field; frozen_fields].

Lemma frozen_close c : frozen c (close c).
Proof. intros Hc. unfold close. by rewrite Hc. Qed.
Lemma frozen_destroy e c : frozen c (destroy e c).
Proof. intros Hc. unfold destroy. by rewrite Hc. Qed.
Lemma frozen_error e c : frozen c (connectionError e c).
Proof. eapply frozen_trans; [apply frozen_send|apply frozen_destroy]. Qed.
Lemma frozen_wake_slots c : frozen c (wakeStreamSlots c).
Proof.
  unfold wakeStreamSlots. destruct (_ && _);
    destruct (streamSlotWaiters _); repeat frozen_field; (apply frozen_close || apply frozen_refl).
Qed.
Lemma frozen_replenish_conn n c : frozen c (replenishConnectionWindow n c).
Proof. intros Hc. unfold replenishConnectionWindow. by rewrite Hc. Qed.
Lemma frozen_replenish sid n c : frozen c (replenishRecvWindow sid n c).
Proof. intros Hc. unfold replenishRecvWindow. by rewrite Hc. Qed.
Lemma frozen_fail e r c : frozen c (fail_stream e r c).
Proof.
  unfold fail_stream. destruct (objs c !! r); [|done]. destruct (fail _ _).
  frozen_fields.
Qed.
Lemma frozen_discard r s c : frozen c (discard_stream r s c).
Proof.
  unfold discard_stream. destruct (discardBuffered s). eapply frozen_trans; [|apply frozen_replenish_conn].
  frozen_fields.
Qed.
Lemma frozen_retire sid c : frozen c (retireIfFullyClosed sid c).
Proof.
  unfold retireIfFullyClosed. destruct (get_stream sid c) as [[r s]|]; [|done].
  destruct (_ && _); [|done]. eapply frozen_trans; [|apply frozen_wake_slots]. frozen_fields.
Qed.

Lemma frozen_reset sid code c : frozen c (resetStream sid code c).
Proof.
  unfold resetStream. set (f := RstStreamFrame _ _).
  destruct (get_stream sid c) as [[r s]|]; [|apply frozen_send].
  eapply frozen_trans; [|apply frozen_fail]. eapply frozen_trans; [|apply frozen_wake_slots].
  do 2 frozen_field. eapply frozen_trans; [apply frozen_send|apply frozen_discard].
Qed.

Create HintDb frozen discriminated.
#[export] Hint Resolve frozen_refl frozen_send frozen_close frozen_destroy frozen_error
  frozen_wake_slots frozen_replenish_conn frozen_replenish frozen_fail frozen_discard
  frozen_retire frozen_reset : frozen.

(** *** Handlers *)

Definition frozen_m (m : Cn) : Prop := ∀ c, frozen c (fst (m c)).

Lemma frozen_bind (m : Cn) (f : unit → Cn) :
  frozen_m m → (∀ u, frozen_m (f u)) → frozen_m (m ≫= f).
Proof.
  intros Hm Hf c. unfold mbind, M_bind. specialize (Hm c).
  destruct (m c) as [c' [u|e]]; [|done]. eapply frozen_trans; [exact Hm|apply Hf].
Qed.

Lemma frozen_adjust delta r c : frozen c (adjust_stream delta c r).
Proof.
  unfold adjust_stream. destruct (objs c !! r); [|done]. destruct (sw_adjust _ _). frozen_fields.
Qed.

Lemma frozen_fold {A} (f : Conn → A → Conn) l c :
  (∀ c a, frozen c (f c a)) → frozen c (fold_left f l c).
Proof.
  intros Hf. revert c. induction l as [|a l IH]; intros c; cbn [fold_left]; [done|].
  eapply frozen_trans; [apply Hf|apply IH].
Qed.

Lemma frozen_settings ack s : frozen_m (on_settings ack s).
Proof.
  unfold on_settings. destruct ack; [done|].
  apply frozen_bind; [|intros _ c; apply frozen_send].
  unfold applyRemoteSettings. apply frozen_bind; [|intros _; apply frozen_bind].
  - intros c. unfold apply_initial_window. destruct (initialWindowSize s); [|done].
    destruct (_ <? _); [done|]. cbn [fst]. eapply frozen_trans; [|apply frozen_fold].
    + frozen_fields.
    + intros c' [sid r]. apply frozen_adjust.
  - intros c. unfold apply_max_frame_size. destruct (maxFrameSize s); [|done].
    destruct (_ || _); [done|]. frozen_fields.
  - intros _ c. cbn [fst modify]. unfold apply_other_settings.
    destruct (maxConcurrentStreams s); [eapply frozen_trans; [|apply frozen_wake_slots]|];
      frozen_fields.
Qed.

Lemma frozen_push cfg promised hs : frozen_m (handlePush cfg promised hs).
Proof.
  intros c. unfold handlePush.
  destruct (_ <? _), (onPush cfg); cbn [fst]; try (frozen_fields); auto with frozen.
  eapply frozen_trans; [|apply frozen_send]. frozen_fields.
Qed.

Lemma frozen_complete cfg : frozen_m (completeHeaderBlock cfg).
Proof.
  intros c. unfold completeHeaderBlock. destruct (pendingHeaderBlock c) as [pb|]; [|done].
  cbv zeta. destruct (hd_decode _ _ _) as [d [hs|e]]; [|frozen_fields].
  eapply (frozen_trans _ (set_decoder d (set_pendingHeaderBlock None c))); [frozen_fields|].
  destruct (pb_kind pb); [|apply frozen_push]. cbn [fst].
  destruct (get_stream _ _) as [[r s]|]; [|done].
  destruct (pb_endStream pb); [eapply frozen_trans; [|apply frozen_retire]|]; frozen_fields.
Qed.

Lemma frozen_extend cfg pb (eh : bool) :
  frozen_m (modify (set_pendingHeaderBlock pb);; guardHeaderBlockSize;;
            if eh then completeHeaderBlock cfg else mret tt).
Proof.
  apply frozen_bind; [intros c; frozen_fields|]. intros _. apply frozen_bind.
  - intros c. unfold guardHeaderBlockSize. destruct (pendingHeaderBlock c); [|done].
    by destruct (_ <? _).
  - intros _. destruct eh; [apply frozen_complete|done].
Qed.

Lemma frozen_data sid d flow fin : frozen_m (on_data sid d flow fin).
Proof.
  intros c. unfold on_data. destruct (_ <? _); [done|].
  set (n := default _ flow). set (c1 := set_connRecvAvailable _ c).
  assert (frozen c c1) as H1 by (unfold c1; frozen_fields). clearbody c1.
  eapply frozen_trans; [exact H1|]. destruct (get_stream sid c) as [[r s]|].
  - destruct (remoteClosed s); [|destruct (_ <? _)]; cbn [fst].
    + eapply frozen_trans; [apply frozen_replenish_conn|apply frozen_reset].
    + eapply frozen_trans; [apply frozen_replenish_conn|apply frozen_reset].
    + unfold data_on_stream.
      assert (frozen c1 (with_obj r (receiveData d fin)
        (if 0 <? n - zlen d
         then replenishRecvWindow sid (n - zlen d) (with_obj r (add_recvWindow (- n)) c1)
         else with_obj r (add_recvWindow (- n)) c1))) as H2.
      { frozen_field. destruct (_ <? _); [eapply frozen_trans; [|apply frozen_replenish]|];
          frozen_fields. }
      destruct fin; [|done]. eapply frozen_trans; [|apply frozen_retire].
      frozen_field. exact H2.
  - destruct (isIdleInboundStream _ _ _); cbn [fst]; [apply frozen_replenish_conn|].
    eapply frozen_trans; [apply frozen_replenish_conn|apply frozen_send].
Qed.

Lemma frozen_dispatch cfg f : frozen_m (dispatch cfg f).
Proof.
  intros c. unfold dispatch. set (c1 := set_wire (wire c ++ [Rx f]) c).
  assert (frozen c c1) as H1.
  { intros Hc. split; [done|]. unfold txs. cbn [wire set_wire c1]. rewrite list.filter_app. cbn.
    by rewrite app_nil_r. }
  clearbody c1. eapply frozen_trans; [exact H1|]. destruct (_ && _); [done|].
  destruct f as [sid d flow fin|sid fr es eh p|sid p|sid code|ack s|sid pr fr eh|ack op|last code dbg
    |sid n|sid fr eh]; cbn [fst].
  - apply frozen_data.
  - apply frozen_extend.
  - done.
  - unfold on_rst_stream. destruct (get_stream sid c1) as [[r s]|]; [|done].
    eapply frozen_trans; [|apply frozen_wake_slots]. frozen_field.
    eapply frozen_trans; [apply frozen_discard|apply frozen_fail].
  - apply frozen_settings.
  - apply frozen_extend.
  - unfold on_ping. destruct ack; [|apply frozen_send]. destruct (map_get _ _); frozen_fields.
  - unfold on_goaway. set (c2 := fold_left _ _ _).
    assert (frozen c1 c2) as H2.
    { eapply frozen_trans; [|apply frozen_fold]; [frozen_fields|].
      intros c' [sid r]. destruct (_ <? _); [|done]. frozen_field. apply frozen_fail. }
    clearbody c2. destruct (code =? 0);
      [|eapply frozen_trans; [|apply frozen_destroy]];
      (eapply frozen_trans; [exact H2|apply frozen_wake_slots]).
  - unfold on_window_update. destruct (n =? 0), (sid =? 0); cbn [fst]; try done.
    + apply frozen_reset.
    + destruct (sw_update _ _). frozen_fields.
    + destruct (get_stream sid c1) as [[r s]|]; [|done]. destruct (sw_update _ _). frozen_fields.
  - unfold on_continuation. destruct (pendingHeaderBlock c1); [|done].
    destruct (negb _); [done|apply frozen_extend].
Qed.

Lemma frozen_dispatch_all cfg fs c : frozen c (dispatch_all cfg fs c).
Proof.
  revert c. induction fs as [|f fs IH]; intros c; cbn [dispatch_all]; [done|].
  pose proof (frozen_dispatch cfg f c) as H1. destruct (dispatch cfg f c) as [c' x].
  destruct x as [u|[[code [sid|] retry]| | |]];
    (eapply frozen_trans; [exact H1|]); try apply frozen_error; [apply IH|].
  eapply frozen_trans; [apply frozen_reset|apply IH].
Qed.

Lemma frozen_top i p s c : frozen c (pump_top i p s c).
Proof.
  unfold pump_top. destruct (_ <? _); [|frozen_fields]. destruct (pump_stopped s c); [frozen_fields|].
  destruct (sw_waitPositive _ _). frozen_fields.
Qed.

Lemma frozen_end i p s c : frozen c (pump_end i p s c).
Proof.
  unfold pump_end. destruct (_ || _); [frozen_fields|]. unfold set_pump. frozen_field.
  apply frozen_send.
Qed.

Lemma frozen_pump i delivered c : frozen c (pump_step i delivered c).
Proof.
  unfold pump_step. destruct (pumps c !! i) as [p|]; [|done].
  destruct (objs c !! p_ref p) as [s|]; [|done]. destruct (p_phase p); try done.
  - unfold pump_next. destruct (p_fixed p) as [[|ch rest]|]; [apply frozen_end|apply frozen_top|].
    destruct delivered as [[|b ch]|]; [done|apply frozen_top|apply frozen_end].
  - destruct (sw_waitPositive _ _). frozen_fields.
  - unfold pump_grant, pump_stopped. intros Hc. rewrite Hc. done.
  - apply frozen_top.
  - unfold set_pump. frozen_field. eapply frozen_trans; [|apply frozen_retire]. frozen_fields.
Qed.

Lemma frozen_if_reset (b : bool) sid code c1 c2 :
  frozen c1 c2 → frozen c1 (if b then resetStream sid code c2 else c2).
Proof. intros H. destruct b; [|done]. eapply frozen_trans; [exact H|apply frozen_reset]. Qed.

Lemma frozen_step cfg ev c : frozen c (step cfg ev c).
Proof.
  destruct ev as [chunk| |e|t init ab|t|r e|i del|i e|r|r|sid|t| |]; cbn [step].
  - destruct (_ =? 0); [done|]. unfold onBytes. destruct (fd_push _ _) as [fd [fs|e]];
      [eapply frozen_trans; [|apply frozen_dispatch_all]|eapply frozen_trans; [|apply frozen_error]];
      frozen_fields.
  - apply frozen_destroy.
  - apply frozen_destroy.
  - intros Hc. unfold request_resume, request_check. rewrite Hc. by destruct ab.
  - unfold abort_parked. case_decide; frozen_fields.
  - unfold abort_request. destruct (objs c !! r); [|done]. case_bool_decide; [|done].
    eapply frozen_trans; [apply frozen_fail|apply frozen_reset].
  - apply frozen_pump.
  - unfold pump_throws. destruct (pumps c !! i) as [p|]; [|done].
    assert (frozen c (pump_failed (p_ref p) e (set_pump i (pump_at p PDone) c))) as H.
    { unfold pump_failed. cbn [objs set_pump set_pumps].
      destruct (objs c !! p_ref p); [|unfold set_pump; frozen_fields]. apply frozen_if_reset.
      eapply frozen_trans; [|apply frozen_fail]. unfold set_pump. frozen_fields. }
    by destruct (p_phase p).
  - unfold body_pull. destruct (objs c !! r); [|done]. destruct (_ || _); [done|].
    destruct (pullBody _) as [s' [n|]]; [eapply frozen_trans; [|apply frozen_replenish]|];
      frozen_fields.
  - unfold body_cancel. destruct (objs c !! r); [|done]. destruct (cancel_begin _).
    apply frozen_if_reset. frozen_field.
    destruct (_ <? _); [eapply frozen_trans; [|apply frozen_replenish]|]; frozen_fields.
  - apply frozen_reset.
  - unfold ping. cbv zeta. destruct (closedFlag _); [frozen_fields|].
    eapply frozen_trans; [|apply frozen_send]. frozen_fields.
  - apply frozen_close.
  - unfold close_finish. destruct (closing c); [done|].
    eapply frozen_trans; [|apply frozen_destroy]. frozen_fields.
Qed.

(** Closing is final: whatever happens after the connection is closed (bytes that still
    arrive, requests, resumed uploads, reads, aborts, pings), it stays closed and not one more
    frame is written. *)
Theorem closed_is_final cfg evs c :
  closedFlag c = true →
  closedFlag (run cfg evs c) = true ∧ txs (wire (run cfg evs c)) = txs (wire c).
Proof.
  revert c. induction evs as [|ev evs IH]; intros c Hc; [done|]. cbn [run fold_left].
  destruct (frozen_step cfg ev c Hc) as [Hc' <-]. by apply IH.
Qed.

Lemma closed_is_final_witness :
  let c := step Demo.cfg EvTransportEnd Demo.final in
  let evs := [EvPull 0; EvPing 4; EvRequest 9 (Demo.get "/c" BNone) None; EvCancel 1;
              EvBytes (Demo.frame (PingFrame false [1; 2; 3; 4; 5; 6; 7; 8]))] in
  closedFlag (run Demo.cfg evs c) = true ∧ txs (wire (run Demo.cfg evs c)) = txs (wire c).
Proof. cbv zeta. apply closed_is_final. vm_compute. reflexivity. Defined.

(** ** Writing a header block *)

(** CONTINUATION frames of which only the last ends the block. *)
Fixpoint conts (sid : Z) (frags : list bytes) : list Frame :=
  match frags with
  | [] => []
  | [f] => [ContinuationFrame sid f true]
  | f :: rest => ContinuationFrame sid f false :: conts sid rest
  end.

Lemma send_open f c : closedFlag c = false → send f c = set_wire (wire c ++ [Tx f]) c.
Proof. intros Hc. unfold send. by rewrite Hc. Qed.

Lemma continuations_spec fuel sid block max off c :
  closedFlag c = false → 0 < max → 0 ≤ off ≤ zlen block → (zlen block - off ≤ Z.of_nat fuel) →
  ∃ frags, wire (send_continuations fuel sid block max off c) = wire c ++ map Tx (conts sid frags) ∧
    mjoin frags = drop (Z.to_nat off) block ∧ Forall (λ f : bytes, zlen f ≤ max) frags ∧
    (frags = [] ↔ zlen block ≤ off).
Proof.
  revert off c. induction fuel as [|n IH]; intros off c Hc Hm Ho Hf; cbn [send_continuations].
  { exists []. rewrite app_nil_r, drop_ge by (unfold zlen in *; lia). split_and!; [done|done|apply Forall_nil_2|split; [intros; lia|done]]. }
  destruct (Z.ltb_spec off (zlen block)) as [Hlt|Hge].
  2:{ exists []. rewrite app_nil_r, drop_ge by (unfold zlen in *; lia). split_and!; [done|done|apply Forall_nil_2|split; [intros; lia|done]]. }
  set (next := Z.min (off + max) (zlen block)). set (fr := subarray block off next).
  destruct (IH next (send (ContinuationFrame sid fr (zlen block <=? next)) c))
    as (frags & Hw & Hj & Hall & Hne); [by rewrite send_open|done|lia|lia|].
  exists (fr :: frags). rewrite Hw, send_open by done. cbn [wire set_wire].
  assert (fr = take (Z.to_nat (next - off)) (drop (Z.to_nat off) block)) as Hfr
    by (apply subarray_in; lia).
  split_and!.
  - rewrite <- app_assoc. f_equal. destruct frags as [|f2 frags].
    + by rewrite (proj2 (Z.leb_le _ _)) by (by apply Hne).
    + rewrite (proj2 (Z.leb_gt _ _)); [done|]. apply Z.nle_gt. intros Hle. by apply Hne in Hle.
  - change (mjoin (fr :: frags) : bytes) with (fr ++ mjoin frags). rewrite Hj, Hfr.
    replace (Z.to_nat next) with (Z.to_nat off + Z.to_nat (next - off))%nat by lia.
    rewrite <- drop_drop. apply take_drop.
  - constructor; [|done]. rewrite Hfr, zlen_take. lia.
  - split; [done|lia].
Qed.

(** A header block is written as one HEADERS frame, or as HEADERS followed by CONTINUATION
    frames with nothing in between: the fragments concatenate to the block, none is longer than
    the peer's maximum frame size, only the last frame ends the block, and END_STREAM is on the
    HEADERS frame. *)
Theorem header_block_split sid block fin c :
  closedFlag c = false → 0 < r_maxFrameSize (remote c) →
  ∃ first frags,
    wire (send_block sid block fin c) =
      wire c ++ map Tx (HeadersFrame sid first fin (bool_decide (frags = [])) None :: conts sid frags) ∧
    first ++ mjoin frags = block ∧
    Forall (λ f : bytes, zlen f ≤ r_maxFrameSize (remote c)) (first :: frags).
Proof.
  intros Hc Hm. unfold send_block. set (max := r_maxFrameSize (remote c)) in *.
  destruct (Z.leb_spec (zlen block) max) as [Hle|Hgt].
  - exists block, []. rewrite send_open by done. cbn [wire set_wire]. split_and!; [done| |].
    + by rewrite app_nil_r.
    + by repeat constructor.
  - rewrite send_open by done. set (first := subarray block 0 max).
    destruct (continuations_spec (length block) sid block max max
      (set_wire (wire c ++ [Tx (HeadersFrame sid first fin false None)]) c))
      as (frags & Hw & Hj & Hall & Hne); [done|done|lia|unfold zlen; lia|].
    exists first, frags. rewrite Hw. cbn [wire set_wire].
    assert (first = take (Z.to_nat max) block) as Hfirst
      by (unfold first; rewrite subarray_in, Z.sub_0_r, drop_0 by lia; done).
    split_and!.
    + rewrite bool_decide_eq_false_2 by (rewrite Hne; lia). by rewrite <- app_assoc.
    + rewrite Hj, Hfirst. apply take_drop.
    + constructor; [|done]. rewrite Hfirst, zlen_take. lia.
Qed.

Lemma header_block_split_witness :
  ∃ first frags,
    wire (send_block 1 (replicate (Z.to_nat 40000) 7) true Demo.start) =
      wire Demo.start ++
        map Tx (HeadersFrame 1 first true (bool_decide (frags = [])) None :: conts 1 frags) ∧
    first ++ mjoin frags = replicate (Z.to_nat 40000) 7 ∧
    Forall (λ f : bytes, zlen f ≤ r_maxFrameSize (remote Demo.start)) (first :: frags).
Proof. apply header_block_split; vm_compute; reflexivity. Defined.

(** ** Admitting a request *)

Lemma map_set_active_le (m : list (Z * nat)) k v :
  zlen (filter (λ e : Z * nat, fst e mod 2 = 1) (map_set m k v)) ≤
  zlen (filter (λ e : Z * nat, fst e mod 2 = 1) m) + 1.
Proof.
  induction m as [|[k' v'] m IH]; cbn [map_set].
  - rewrite filter_cons, filter_nil. case_decide; rewrite ?zlen_cons, ?zlen_nil; lia.
  - destruct (decide (k' = k)) as [->|]; rewrite !filter_cons; cbn [fst];
      case_decide; rewrite ?zlen_cons; lia.
Qed.

Lemma send_fields f c :
  streams (send f c) = streams c ∧ objs (send f c) = objs c ∧ remote (send f c) = remote c ∧
  closedFlag (send f c) = closedFlag c.
Proof. unfold send. by destruct (closedFlag c) eqn:Hc. Qed.

Lemma sendHeaders_fields sid hs fin c :
  streams (sendHeaders sid hs fin c) = streams c ∧ objs (sendHeaders sid hs fin c) = objs c ∧
  remote (sendHeaders sid hs fin c) = remote c.
Proof.
  unfold sendHeaders, send_block. set (block := he_encode _ _).
  destruct (_ <=? _); [split_and!; apply send_fields|].
  set (max := r_maxFrameSize _).
  assert (∀ n off c', streams (send_continuations n sid block max off c') = streams c' ∧
    objs (send_continuations n sid block max off c') = objs c' ∧
    remote (send_continuations n sid block max off c') = remote c') as H.
  { induction n as [|n IH]; intros off c'; cbn [send_continuations]; [done|].
    destruct (_ <? _); [|done].
    match goal with |- context [send_continuations n sid block max ?o ?d] =>
      destruct (IH o d) as (-> & -> & ->) end.
    split_and!; apply send_fields. }
  match goal with |- context [send_continuations ?n sid block max ?o ?d] =>
    destruct (H n o d) as (-> & -> & ->) end.
  split_and!; apply send_fields.
Qed.

(** A request is admitted only on a usable connection with a free slot: afterwards the
    open client streams are still within the peer's limit, and the new stream is registered
    under the next id with the peer's initial send window and our advertised receive window.
    Refused requests carry the evidence that nothing was sent. *)
Theorem admission cfg t init aborted c :
  match request_resume cfg t init aborted c with
  | (c', Admit r) =>
      (∀ m, r_maxConcurrentStreams (remote c) = Some m → activeStreams c' ≤ m) ∧
      closedFlag c = false ∧ goawayReceived c = false ∧ aborted = None ∧
      ∃ s, get_stream (nextStreamId c) c' = Some (r, s) ∧ id s = nextStreamId c ∧
           available (sendWindow s) = r_initialWindowSize (remote c) ∧
           recvWindow s = localInitialWindow cfg ∧ head s = Pending
  | (c', Refuse e) => c' = c ∧ (aborted = Some e ∨ aborted = None ∧ exn_retry e = Some Unsent)
  | (c', Park) => c' = set_streamSlotWaiters (streamSlotWaiters c ++ [t]) c ∧ canOpenStream c = false
  end.
Proof.
  unfold request_resume, request_check. destruct aborted as [e|]; [auto|].
  destruct (closedFlag c || goawayReceived c) eqn:Hcg; [auto|].
  apply orb_false_iff in Hcg as [Hcl Hgo].
  destruct (canOpenStream c) eqn:Hcan; [|done].
  unfold open_stream. cbv zeta. set (hb := negb (bodyIsEmpty _)).
  set (s0 := stream_new _ _ _ _). set (c1 := set_streams _ _).
  destruct (sendHeaders_fields (nextStreamId c) (buildRequestHeaders init) (negb hb) c1)
    as (Hst & Hob & Hre).
  set (c2 := sendHeaders _ _ _ _) in *. clearbody c2. set (r := length (objs c)).
  change (length (objs (set_nextStreamId _ c))) with r.
  set (c3 := if hb then _ else _).
  assert (streams c3 = streams c1) as Hst3 by (unfold c3; by destruct hb).
  assert (∃ s, objs c3 !! r = Some s ∧ id s = nextStreamId c ∧
    available (sendWindow s) = r_initialWindowSize (remote c) ∧
    recvWindow s = localInitialWindow cfg ∧ head s = Pending) as (s & Hs & Hs').
  { assert (objs c2 !! r = Some s0) as H0
      by (rewrite Hob; unfold c1, r; cbn; by rewrite list_lookup_middle).
    unfold c3. destruct hb; unfold with_obj; cbn [objs set_pumps set_objs];
      rewrite !list_lookup_alter_eq, H0; eexists; split; done. }
  split_and!; try done.
  - intros m Hm. unfold canOpenStream in Hcan. rewrite Hm in Hcan. apply Z.ltb_lt in Hcan.
    unfold activeStreams in *. rewrite Hst3. unfold c1. cbn [streams set_streams].
    eapply Z.le_trans; [exact (map_set_active_le (streams c) (nextStreamId c) r)|lia].
  - exists s. unfold get_stream. rewrite Hst3. unfold c1. cbn [streams set_streams].
    rewrite map_get_set, decide_True by done. change (length (objs _)) with r. by rewrite Hs.
Qed.

(** ** GOAWAY and teardown *)

Lemma fail_stream_objs e r c r' :
  objs (fail_stream e r c) !! r' =
    if decide (r = r') then (λ s, fst (fail e s)) <$> objs c !! r else objs c !! r'.
Proof.
  unfold fail_stream. destruct (objs c !! r) as [s|] eqn:Hs.
  - destruct (fail e s) as [s' ids] eqn:Hf. cbn [objs wake_pumps set_pumps with_obj set_objs].
    rewrite list_lookup_alter. destruct (decide (r = r')) as [->|]; [|done].
    rewrite Hs. cbn. by rewrite Hf.
  - destruct (decide (r = r')) as [->|]; [by rewrite Hs|done].
Qed.

Lemma fail_stream_goaway e r c : goawayReceived (fail_stream e r c) = goawayReceived c.
Proof. unfold fail_stream. destruct (objs c !! r); [|done]. by destruct (fail _ _). Qed.

Lemma wake_slots_goaway c : goawayReceived (wakeStreamSlots c) = goawayReceived c.
Proof.
  unfold wakeStreamSlots. set (c' := if _ && _ && _ then close c else c).
  assert (goawayReceived c' = goawayReceived c) as H.
  { unfold c', close, send. destruct (_ && _); [|done]. by destruct (closedFlag c). }
  by destruct (streamSlotWaiters c').
Qed.

(** Distinct ids refer to distinct objects. *)
Lemma refs_distinct cfg X c sid sid' r :
  core cfg X c → (sid, r) ∈ streams c → (sid', r) ∈ streams c → sid = sid'.
Proof.
  intros Hco H1 H2. pose proof (co_nodup _ _ _ Hco) as Hnd.
  apply map_elem_get in H1, H2; [|done..].
  destruct (co_refs _ _ _ Hco _ _ H1) as (s1 & Hs1 & <-).
  destruct (co_refs _ _ _ Hco _ _ H2) as (s2 & Hs2 & <-). congruence.
Qed.

Definition goaway_one (last code : Z) (c : Conn) (e : Z * nat) : Conn :=
  let '(sid, r) := e in
  if last <? sid then delete_stream sid (fail_stream (excluded code sid) r c) else c.

Lemma goaway_one_other last code c sid r sid' r' :
  sid ≠ sid' → r ≠ r' →
  map_get (streams (goaway_one last code c (sid, r))) sid' = map_get (streams c) sid' ∧
  objs (goaway_one last code c (sid, r)) !! r' = objs c !! r'.
Proof.
  intros Hs Hr. unfold goaway_one. destruct (last <? sid); [|done].
  cbn [streams objs delete_stream set_streams].
  by rewrite map_get_delete, fail_stream_streams, fail_stream_objs, !decide_False by done.
Qed.

(** What the loop of the GOAWAY handler does to one stream. *)
Lemma goaway_fold_spec last code (l : list (Z * nat)) c sid r s :
  NoDup (map fst l) → (∀ i i' r, (i, r) ∈ l → (i', r) ∈ l → i = i') →
  (sid, r) ∈ l → map_get (streams c) sid = Some r → objs c !! r = Some s →
  let c' := fold_left (goaway_one last code) l c in
  if last <? sid
  then map_get (streams c') sid = None ∧ objs c' !! r = Some (fst (fail (excluded code sid) s))
  else map_get (streams c') sid = Some r ∧ objs c' !! r = Some s.
Proof.
  cbv zeta. intros Hnd Hinj Hin Hg Hs.
  assert (∀ l' c', (∀ i r', (i, r') ∈ l' → i ≠ sid ∧ r' ≠ r) →
    map_get (streams (fold_left (goaway_one last code) l' c')) sid = map_get (streams c') sid ∧
    objs (fold_left (goaway_one last code) l' c') !! r = objs c' !! r) as Hskip.
  { intros l'. induction l' as [|[i r'] l' IH]; intros c' Hl'; cbn [fold_left]; [done|].
    destruct (Hl' i r') as [H1 H2]; [by left|].
    destruct (IH (goaway_one last code c' (i, r'))) as [-> ->]; [intros; apply Hl'; by right|].
    by apply goaway_one_other. }
  apply list_elem_of_split in Hin as (l1 & l2 & ->).
  rewrite map_app in Hnd. cbn [map fst] in Hnd.
  apply list.NoDup_app in Hnd as (_ & Hd1 & Hnd2). apply list.NoDup_cons in Hnd2 as [Hd2 _].
  rewrite fold_left_app. cbn [fold_left].
  destruct (Hskip l1 c) as [E1 E2].
  { intros i r' Hi. assert (i ≠ sid) as Hne.
    { intros ->. apply (Hd1 sid); [by apply (list_elem_of_fmap_2 fst _ _ Hi)|left]. }
    split; [done|]. intros ->. apply Hne, (Hinj _ _ r); rewrite elem_of_app, elem_of_cons; auto. }
  set (c1 := fold_left _ l1 c) in *. rewrite Hg in E1. rewrite Hs in E2. clearbody c1.
  destruct (Hskip l2 (goaway_one last code c1 (sid, r))) as [E3 E4].
  { intros i r' Hi. assert (i ≠ sid) as Hne.
    { intros ->. apply Hd2. apply (list_elem_of_fmap_2 fst _ _ Hi). }
    split; [done|]. intros ->. apply Hne, (Hinj _ _ r); rewrite elem_of_app, elem_of_cons; auto. }
  rewrite E3, E4. unfold goaway_one. destruct (last <? sid); [|done].
  cbn [streams objs delete_stream set_streams].
  rewrite map_get_delete, fail_stream_objs, !decide_True by done. by rewrite E2.
Qed.

(** A graceful GOAWAY splits the live streams at [lastStreamId]: every stream above it
    leaves the map and fails with an error that proves the peer did not process it (retry
    evidence "refused"), every stream up to it stays in the map with its object untouched, and
    from then on no request is admitted. *)
Theorem goaway_excludes o cfg c last sid r s :
  reachable o cfg c → get_stream sid c = Some (r, s) →
  let c' := on_goaway last 0 c in
  goawayReceived c' = true ∧
  if last <? sid
  then map_get (streams c') sid = None ∧
       objs c' !! r = Some (fst (fail (excluded 0 sid) s)) ∧
       exn_retry (excluded 0 sid) = Some Refused
  else get_stream sid c' = Some (r, s).
Proof.
  intros Hr Hg. cbv zeta. destruct (reachable_inv _ _ _ Hr) as [Hco _].
  apply get_stream_Some in Hg as [Hg Hs]. unfold on_goaway. cbn [Z.eqb].
  set (c1 := set_goawayReceived true c).
  pose proof (goaway_fold_spec last 0 (streams c1) c1 sid r s) as Hf. cbv zeta in Hf.
  set (c2 := fold_left _ _ _). change (fold_left _ (streams c1) c1) with c2 in Hf.
  destruct (wake_slots_fields c2) as (Est & Eob & _).
  assert (goawayReceived (wakeStreamSlots c2) = true) as Hgo.
  { assert (goawayReceived c2 = true) as H2.
    { unfold c2. generalize (streams c1) as l. assert (goawayReceived c1 = true) as H1 by done.
      revert H1. generalize c1 as c0. intros c0 H1 l. revert c0 H1.
      induction l as [|[i r'] l IH]; intros c0 H1; cbn [fold_left]; [done|]. apply IH.
      destruct (last <? i); [|done]. unfold delete_stream. cbn [goawayReceived set_streams].
      by rewrite fail_stream_goaway. }
    by rewrite wake_slots_goaway. }
  split; [done|]. unfold get_stream. rewrite Est, Eob.
  pose proof (co_nodup _ _ _ Hco) as Hnd.
  specialize (Hf Hnd (λ i i' r', refs_distinct cfg nobody c i i' r' Hco) (map_get_elem _ _ _ Hg) Hg Hs).
  destruct (last <? sid); destruct Hf as [F1 F2]; [done|]. by rewrite F1, F2.
Qed.

Lemma goaway_excludes_witness :
  ∃ r s, get_stream 3 Demo.final = Some (r, s) ∧
    let c' := on_goaway 1 0 Demo.final in
    goawayReceived c' = true ∧ map_get (streams c') 3 = None ∧
    objs c' !! r = Some (fst (fail (excluded 0 3) s)).
Proof.
  destruct (get_stream 3 Demo.final) as [[r s]|] eqn:Hg; [|vm_compute in Hg; discriminate Hg].
  exists r, s. split; [reflexivity|]. cbv zeta.
  pose proof (goaway_excludes Demo.options Demo.cfg Demo.final 1 3 r s Demo.final_reachable Hg)
    as (H1 & H2 & H3 & _).
  split; [exact H1|]. split; [exact H2|exact H3].
Defined.

Lemma fail_all_spec e (l : list (Z * nat)) c sid r s :
  (∀ i i' r, (i, r) ∈ l → (i', r) ∈ l → i = i') → NoDup (map fst l) →
  (sid, r) ∈ l → objs c !! r = Some s →
  objs (fold_left (λ c '(_, r), fail_stream e r c) l c) !! r = Some (fst (fail e s)).
Proof.
  intros Hinj Hnd Hin Hs.
  assert (∀ (l' : list (Z * nat)) c', (∀ i r', (i, r') ∈ l' → r' ≠ r) →
    objs (fold_left (λ c '(_, r), fail_stream e r c) l' c') !! r = objs c' !! r) as Hskip.
  { intros l'. induction l' as [|[i r'] l' IH]; intros c' Hl'; cbn [fold_left]; [done|].
    rewrite IH by (intros; eapply Hl'; by right).
    rewrite fail_stream_objs, decide_False; [done|]. eapply Hl'. by left. }
  apply list_elem_of_split in Hin as (l1 & l2 & ->).
  rewrite map_app in Hnd. cbn [map fst] in Hnd.
  apply list.NoDup_app in Hnd as (_ & Hd1 & Hnd2). apply list.NoDup_cons in Hnd2 as [Hd2 _].
  rewrite fold_left_app. cbn [fold_left]. rewrite Hskip.
  - rewrite fail_stream_objs, decide_True by done. rewrite Hskip, Hs; [done|].
    intros i r' Hi ->. apply (Hd1 sid); [|left].
    assert (i = sid) as -> by (apply (Hinj _ _ r); rewrite elem_of_app, elem_of_cons; auto).
    apply (list_elem_of_fmap_2 fst _ _ Hi).
  - intros i r' Hi ->. apply Hd2.
    assert (i = sid) as -> by (apply (Hinj _ _ r); rewrite elem_of_app, elem_of_cons; auto).
    apply (list_elem_of_fmap_2 fst _ _ Hi).
Qed.

Lemma fail_settles e s :
  let s' := fst (fail e s) in
  head s' = (if gotHead s then head s else Rejected e) ∧ gotHead s' = true ∧
  recvError s' = Some (default e (recvError s)) ∧ sw_closed (sendWindow s') = true ∧
  recvQueue s' = recvQueue s.
Proof.
  unfold fail, abort_stopped, sw_close, sw_wake.
  destruct s as [sid [av ws cl] rw st lc rc h g tr q b en er n bd [e'|] ctl]; cbn;
    destruct ws, g, er; done.
Qed.

(** Tearing the connection down leaves nothing waiting: it is closed with the error, no
    stream, parked request or ping is left, every parked request has been resumed and every
    ping rejected with the error, and every stream that was live has its response settled
    (rejected with the error unless a response had arrived), its send window closed and its
    body failed after the bytes already buffered. *)
Theorem destroy_settles o cfg c e sid r s :
  reachable o cfg c → closedFlag c = false → get_stream sid c = Some (r, s) →
  let c' := destroy e c in
  closedFlag c' = true ∧ closeError c' = Some e ∧ streams c' = [] ∧
  streamSlotWaiters c' = [] ∧ woken c' = woken c ++ streamSlotWaiters c ∧
  pings c' = [] ∧ pingResults c' = pingResults c ++ map (λ '(_, t), (t, Some e)) (pings c) ∧
  ∃ s', objs c' !! r = Some s' ∧
    head s' = (if gotHead s then head s else Rejected e) ∧
    sw_closed (sendWindow s') = true ∧ recvError s' = Some e ∧ recvQueue s' = recvQueue s.
Proof.
  intros Hr Ho Hg. cbv zeta. destruct (reachable_inv _ _ _ Hr) as [Hco _].
  apply get_stream_Some in Hg as [Hg Hs]. unfold destroy. rewrite Ho.
  destruct (sw_close _) as [w ids]. set (c1 := wake_pumps ids _).
  pose proof (fail_all_spec e (streams c1) c1 sid r s) as Hf.
  assert (∀ (l : list (Z * nat)) c0, let c' := fold_left (λ c '(_, r), fail_stream e r c) l c0 in
    closedFlag c' = closedFlag c0 ∧ closeError c' = closeError c0 ∧
    streamSlotWaiters c' = streamSlotWaiters c0 ∧ woken c' = woken c0 ∧ pings c' = pings c0 ∧
    pingResults c' = pingResults c0) as Hk.
  { cbv zeta. induction l as [|[i r'] l IH]; intros c0; cbn [fold_left]; [done|].
    destruct (IH (fail_stream e r' c0)) as (-> & -> & -> & -> & -> & ->).
    unfold fail_stream. destruct (objs c0 !! r') as [s0|]; [|done]. by destruct (fail e s0). }
  destruct (Hk (streams c1) c1) as (K1 & K2 & K3 & K4 & K5 & K6).
  set (c2 := fold_left _ (streams c1) c1) in *.
  unfold wakeStreamSlots. cbn [goawayReceived streams closedFlag set_streams]. rewrite K1.
  cbn [closedFlag c1 wake_pumps set_pumps set_connSendWindow set_closeError set_closedFlag negb].
  rewrite andb_false_r. cbn [streamSlotWaiters set_streams].
  assert (∃ s', objs c2 !! r = Some s' ∧ head s' = (if gotHead s then head s else Rejected e) ∧
    sw_closed (sendWindow s') = true ∧ recvError s' = Some e ∧ recvQueue s' = recvQueue s) as Hobj.
  { exists (fst (fail e s)). destruct (fail_settles e s) as (F1 & F2 & F3 & F4 & F5).
    destruct (co_live _ _ _ Hco _ _ _ Hg Hs (λ H, H)) as (L1 & _). rewrite L1 in F3.
    split_and!; try done. apply Hf; [|apply Hco|by apply map_get_elem|done].
    intros i i' r'. by apply (refs_distinct cfg nobody c). }
  assert (streamSlotWaiters c2 = streamSlotWaiters c) as K3' by (by rewrite K3).
  assert (closedFlag c2 = true) as K1' by (by rewrite K1).
  assert (closeError c2 = Some e) as K2' by (by rewrite K2).
  assert (woken c2 = woken c) as K4' by (by rewrite K4).
  assert (pings c2 = pings c) as K5' by (by rewrite K5).
  assert (pingResults c2 = pingResults c) as K6' by (by rewrite K6).
  clearbody c2. destruct (streamSlotWaiters c2) as [|t ts] eqn:Hw; rewrite <- K3';
    cbn [closedFlag closeError streams streamSlotWaiters woken pings pingResults objs set_pings
      set_pingResults set_streams set_woken set_streamSlotWaiters];
    rewrite ?K4', ?K5', ?K6', ?app_nil_r; split_and!; try done.
Qed.

Lemma destroy_settles_witness :
  ∃ r s, get_stream 3 Demo.final = Some (r, s) ∧
    let c' := destroy (EForeign 1) Demo.final in
    closedFlag c' = true ∧ streams c' = [] ∧ ∃ s', objs c' !! r = Some s' ∧ head s' = Rejected (EForeign 1).
Proof.
  destruct (get_stream 3 Demo.final) as [[r s]|] eqn:Hg; [|vm_compute in Hg; discriminate Hg].
  exists r, s. split; [reflexivity|]. cbv zeta.
  assert (gotHead s = false) as Hh by (vm_compute in Hg; injection Hg as _ <-; reflexivity).
  destruct (destroy_settles Demo.options Demo.cfg Demo.final (EForeign 1) 3 r s Demo.final_reachable)
    as (H1 & _ & H2 & _ & _ & _ & _ & s' & H3 & H4 & _); [vm_compute; reflexivity|exact Hg|].
  rewrite Hh in H4. split; [exact H1|]. split; [exact H2|]. exists s'. split; [exact H3|exact H4].
Defined.

(** ** Resetting one stream leaves the others alone *)

Lemma reset_effect sid code r s c :
  get_stream sid c = Some (r, s) →
  let c' := resetStream sid code c in
  closedFlag c' = closedFlag c ∧
  (∀ i, map_get (streams c') i = if decide (sid = i) then None else map_get (streams c) i) ∧
  (∀ r', r' ≠ r → objs c' !! r' = objs c !! r') ∧
  ∃ s', objs c' !! r = Some s' ∧
    head s' = (if gotHead s then head s else Rejected (EH2 (h2_stream_error code sid))) ∧
    recvError s' = Some (default (EH2 (h2_stream_error code sid)) (recvError s)) ∧ recvQueue s' = [].
Proof.
  intros Hg. cbv zeta. unfold resetStream. rewrite Hg. apply get_stream_Some in Hg as [Hg Hs].
  destruct (send_fields (RstStreamFrame sid (errorCodeValue code)) c) as (S1 & S2 & _ & S4).
  set (c1 := send _ c) in *. clearbody c1.
  destruct (discard_fields r s c1) as [D1 D2].
  assert (closedFlag (discard_stream r s c1) = closedFlag c1) as D3
    by exact (proj2 (proj2 (replenish_conn_fields (recvBuffered s)
           (with_obj r (λ _, set_queue [] 0 s) c1)))).
  set (c2 := discard_stream r s c1) in *. clearbody c2.
  set (c3 := delete_stream sid (with_obj r (set_state closed) c2)).
  destruct (wake_slots_fields c3) as (W1 & W2 & W3). set (c4 := wakeStreamSlots c3) in *.
  clearbody c4. rewrite fail_stream_closed, fail_stream_streams, W1, W3.
  assert (objs c4 = alter (set_state closed) r (alter (λ _ : H2Stream, set_queue [] 0 s) r (objs c))) as Ho
    by (rewrite W2; unfold c3; cbn; by rewrite D2, S2).
  split_and!.
  - unfold c3. cbn. by rewrite D3.
  - intros i. unfold c3. cbn [streams delete_stream set_streams with_obj set_objs].
    by rewrite map_get_delete, D1, S1.
  - intros r' Hne. rewrite fail_stream_objs, decide_False, Ho by done.
    by rewrite !list_lookup_alter_ne by done.
  - rewrite fail_stream_objs, decide_True, Ho, !list_lookup_alter_eq, Hs by done. cbn.
    eexists. split; [done|].
    destruct (fail_settles (EH2 (h2_stream_error code sid)) (set_state closed (set_queue [] 0 s)))
      as (F1 & _ & F3 & _ & F5). done.
Qed.

(** A DATA frame that overruns only its stream's window is a stream error: the stream
    leaves the map and fails with FLOW_CONTROL_ERROR, its buffered bytes are dropped, the
    connection stays open, and every other stream and its object are untouched. *)
Theorem stream_overflow_isolated sid d flow fin r s c :
  get_stream sid c = Some (r, s) → closedFlag c = false → remoteClosed s = false →
  recvError s = None → gotHead s = false →
  recvWindow s < default (zlen d) flow ≤ connRecvAvailable c →
  let '(c', x) := on_data sid d flow fin c in
  x = Ok tt ∧ closedFlag c' = false ∧ map_get (streams c') sid = None ∧
  (∀ i, i ≠ sid → map_get (streams c') i = map_get (streams c) i) ∧
  (∀ r', r' ≠ r → objs c' !! r' = objs c !! r') ∧
  ∃ s', objs c' !! r = Some s' ∧
    head s' = Rejected (EH2 (h2_stream_error FLOW_CONTROL_ERROR sid)) ∧
    recvError s' = Some (EH2 (h2_stream_error FLOW_CONTROL_ERROR sid)) ∧ recvQueue s' = [].
Proof.
  intros Hg Ho Hrc Hre Hgh [Hlo Hhi]. unfold on_data. rewrite Hg, Hrc.
  set (n := default (zlen d) flow) in *.
  rewrite (proj2 (Z.ltb_ge _ _)) by lia. rewrite (proj2 (Z.ltb_lt _ _)) by lia.
  set (c1 := set_connRecvAvailable _ c).
  destruct (replenish_conn_fields n c1) as (R1 & R2 & R3).
  set (c2 := replenishConnectionWindow n c1) in *.
  assert (get_stream sid c2 = Some (r, s)) as Hg2 by (unfold get_stream in *; by rewrite R1, R2).
  destruct (reset_effect sid FLOW_CONTROL_ERROR r s c2 Hg2) as (E1 & E2 & E3 & s' & E4 & E5 & E6 & E7).
  rewrite Hgh in E5. rewrite Hre in E6. split_and!; [done| | | | |by exists s'].
  - by rewrite E1, R3.
  - by rewrite E2, decide_True.
  - intros i Hi. by rewrite E2, decide_False, R1 by done.
  - intros r' Hr'. by rewrite E3, R2.
Qed.

Lemma stream_overflow_isolated_witness :
  ∃ r s, get_stream 3 Demo.final = Some (r, s) ∧
    let '(c', x) := on_data 3 [] (Some 2000000) false Demo.final in
    x = Ok tt ∧ closedFlag c' = false ∧ map_get (streams c') 3 = None ∧
    map_get (streams c') 1 = map_get (streams Demo.final) 1.
Proof.
  destruct (get_stream 3 Demo.final) as [[r s]|] eqn:Hg; [|vm_compute in Hg; discriminate Hg].
  exists r, s. split; [reflexivity|].
  pose proof (stream_overflow_isolated 3 [] (Some 2000000) false r s Demo.final Hg) as H.
  destruct (on_data 3 [] (Some 2000000) false Demo.final) as [c' x].
  destruct H as (H1 & H2 & H3 & H4 & _).
  - vm_compute. reflexivity.
  - vm_compute in Hg. injection Hg as _ <-. reflexivity.
  - vm_compute in Hg. injection Hg as _ <-. reflexivity.
  - vm_compute in Hg. injection Hg as _ <-. reflexivity.
  - vm_compute in Hg. injection Hg as _ <-. vm_compute. split; congruence.
  - split; [exact H1|]. split; [exact H2|]. split; [exact H3|]. apply H4. discriminate.
Defined.

(** ** An interim response that ends the stream *)

(** A block of an interim response retires a stream whose upload is done: the stream leaves the map
    while its response promise and its body stay as they were ([Retired] has what becomes of it). *)
Lemma interim_block_retires cfg c sid block d hs r s :
  pendingHeaderBlock c = Some (mkPending sid KResponse true [block] (zlen block)) →
  hd_decode block (Some (mkLimits DEFAULT_MAX_HEADER_LIST_BYTES DEFAULT_MAX_HEADER_COUNT (Some sid)))
    (decoder c) = (d, Ok hs) →
  is_interim (collectHeaders hs) = true →
  get_stream sid c = Some (r, s) → gotHead s = false → localClosed s = true →
  completeHeaderBlock cfg c =
    (wakeStreamSlots (delete_stream sid
       (with_obj r (λ _, set_state closed (set_remoteClosed s)) (set_decoder d (set_pendingHeaderBlock None c)))), Ok tt).
Proof.
  intros Hp Hd Hi Hg Hgh Hlc. unfold completeHeaderBlock. rewrite Hp.
  cbn [pb_fragments pb_streamId pb_kind pb_endStream]. cbv zeta.
  change (decoder (set_pendingHeaderBlock None c)) with (decoder c). rewrite Hd.
  set (c1 := set_decoder d _). change (get_stream sid c1) with (get_stream sid c). rewrite Hg.
  apply get_stream_Some in Hg as [Hg Hs]. change (objs c) with (objs c1) in Hs.
  assert (set_remoteClosed (receiveHeaders hs true s) = set_remoteClosed s) as Hf
    by (unfold receiveHeaders; rewrite Hgh; cbn [negb]; cbv zeta; by rewrite Hi).
  rewrite with_obj_compose. set (f := λ s0, set_remoteClosed (receiveHeaders hs true s0)).
  assert (objs (with_obj r f c1) !! r = Some (set_remoteClosed s)) as H2
    by (unfold with_obj; cbn [objs set_objs]; by rewrite list_lookup_alter_eq, Hs, <- Hf).
  unfold retireIfFullyClosed, get_stream. change (streams (with_obj r f c1)) with (streams c). rewrite Hg, H2.
  cbn [localClosed remoteClosed set_remoteClosed]. rewrite Hlc. cbn [andb]. rewrite with_obj_compose.
  do 3 f_equal. unfold with_obj. f_equal.
  rewrite (alter_known _ _ _ _ Hs). cbn beta. unfold f. by rewrite Hf.
Qed.
