(* ===== verification/Retired.v ===== *)
(** * Retired: a request that was retired without an answer

    A stream object that is no longer registered, that no pump serves and whose response is
    still pending: nothing that can happen to the connection afterwards settles it. *)
From S2P Require Import Prelude Errors Text Bytes Frames HpackTables Huffman Hpack Flow Stream.
From S2P Require Import Connection ConnectionInv ConnectionSteps ConnectionCorrect ConnectionOps.
Local Open Scope Z_scope.

#[local] Opaque HUFFMAN_CODES ROOT STATIC_TABLE staticPairToIndex staticNameToIndex hd_decode
  he_encode.

Section retired.
Context (cfg : Config) (sid : Z) (r : nat).

Record retired (c : Conn) : Prop := mkRetired {
  rt_streams : Forall (λ e : Z * nat, fst e ≠ sid ∧ snd e ≠ r) (streams c);
  rt_obj : ∃ s, objs c !! r = Some s ∧ id s = sid ∧ head s = Pending;
  rt_next : sid < nextStreamId c;
  rt_pumps : Forall (λ p, p_ref p = r → p_phase p = PDone) (pumps c);
}.

(** ** Elementary changes of the state *)

Definition same_store (c c' : Conn) : Prop :=
  streams c' = streams c ∧ objs c' = objs c ∧ nextStreamId c' = nextStreamId c ∧ pumps c' = pumps c.

Lemma retired_same c c' : same_store c c' → retired c → retired c'.
Proof. intros (E1 & E2 & E3 & E4) [H1 H2 H3 H4]. split; by rewrite ?E1, ?E2, ?E3, ?E4. Qed.

Ltac rt_field := cbn [fst modify];
  match goal with |- retired (?f ?d) => apply (retired_same d); [by repeat split|] end.
Ltac rt_fields := cbn [fst modify]; first [assumption | rt_field; rt_fields].

Lemma retired_get k c r' s : retired c → get_stream k c = Some (r', s) → r' ≠ r.
Proof.
  intros [H _ _ _] [Hg%map_get_elem _]%get_stream_Some.
  by destruct (proj1 (list.Forall_forall _ _) H _ Hg).
Qed.

Lemma retired_unregistered c : retired c → map_get (streams c) sid = None.
Proof.
  intros [H _ _ _]. destruct (map_get (streams c) sid) as [r'|] eqn:Hg; [|done].
  apply map_get_elem in Hg. by destruct (proj1 (list.Forall_forall _ _) H _ Hg).
Qed.

Lemma retired_obj r' f c :
  (r' = r → ∀ s, id (f s) = id s ∧ head (f s) = head s) → retired c → retired (with_obj r' f c).
Proof.
  intros Hf [H1 (s & Hs & Hi & Hh) H3 H4]. split; try done. cbn.
  destruct (decide (r' = r)) as [->|Hne].
  - exists (f s). rewrite list_lookup_alter_eq, Hs. destruct (Hf eq_refl s) as [-> ->]. done.
  - exists s. by rewrite list_lookup_alter_ne.
Qed.

Lemma retired_other r' f c : r' ≠ r → retired c → retired (with_obj r' f c).
Proof. intros Hne. by apply retired_obj. Qed.

Lemma retired_delete k c : retired c → retired (delete_stream k c).
Proof. intros [H1 H2 H3 H4]. split; try done. rewrite list.Forall_forall in *. intros e.
  cbn. unfold map_delete. intros [_ He]%list_elem_of_filter. by apply H1.
Qed.

Lemma retired_clear c : retired c → retired (set_streams [] c).
Proof. intros [H1 H2 H3 H4]. by split. Qed.

Lemma retired_wake ids c : retired c → retired (wake_pumps ids c).
Proof.
  intros [H1 H2 H3 H4]. split; try done. cbn. revert H4. generalize (pumps c) as l.
  induction ids as [|i ids IH]; intros l Hl; cbn [fold_left]; [done|]. apply IH. apply Forall_alter; [done|].
  intros p _ Hi Hr. cbn. by rewrite (Hi Hr).
Qed.

Lemma retired_fail e r' c : r' ≠ r → retired c → retired (fail_stream e r' c).
Proof.
  intros Hne H. unfold fail_stream. destruct (objs c !! r'); [|done]. destruct (fail _ _).
  by apply retired_wake, retired_other.
Qed.

Lemma retired_pump i p c : p_ref p ≠ r → retired c → retired (set_pump i p c).
Proof. intros Hne [H1 H2 H3 H4]. split; try done. cbn. by apply Forall_insert. Qed.

Lemma retired_fold (f : Conn → Z * nat → Conn) l c :
  Forall (λ e : Z * nat, fst e ≠ sid ∧ snd e ≠ r) l →
  (∀ c e, snd e ≠ r → retired c → retired (f c e)) → retired c → retired (fold_left f l c).
Proof.
  intros Hl Hf. revert c. induction Hl as [|e l [_ He] _ IH]; intros c Hc; cbn [fold_left]; [done|]. auto.
Qed.

(** ** Methods *)

Lemma retired_send f c : retired c → retired (send f c).
Proof. intros H. unfold send. destruct (closedFlag c); [done|]. rt_fields. Qed.
Lemma retired_close c : retired c → retired (close c).
Proof. intros H. unfold close. destruct (closedFlag c); [done|]. rt_field. by apply retired_send. Qed.
Lemma retired_slots c : retired c → retired (wakeStreamSlots c).
Proof.
  intros H. unfold wakeStreamSlots.
  assert (retired (if goawayReceived c && (zlen (streams c) =? 0) && negb (closedFlag c) then close c else c)) as H'
    by (destruct (_ && _); [by apply retired_close|done]).
  destruct (streamSlotWaiters _); [done|]. rt_fields.
Qed.
Lemma retired_replenish_conn n c : retired c → retired (replenishConnectionWindow n c).
Proof.
  intros H. unfold replenishConnectionWindow. destruct (_ || _); [done|]. apply retired_send. rt_fields.
Qed.
Lemma retired_replenish k n c : retired c → retired (replenishRecvWindow k n c).
Proof.
  intros H. unfold replenishRecvWindow. destruct (_ || _); [done|]. apply retired_replenish_conn.
  destruct (get_stream k c) as [[r' s]|]; [|done]. destruct (remoteClosed s); [done|].
  by apply retired_send, retired_obj.
Qed.
Lemma retired_discard r' s c : r' ≠ r → retired c → retired (discard_stream r' s c).
Proof.
  intros Hne H. unfold discard_stream. destruct (discardBuffered s).
  by apply retired_replenish_conn, retired_other.
Qed.

Lemma retired_reset k code c : retired c → retired (resetStream k code c).
Proof.
  intros H. unfold resetStream. destruct (get_stream k c) as [[r' s]|] eqn:Hg; [|by apply retired_send].
  pose proof (retired_get _ _ _ _ H Hg) as Hne.
  by apply retired_fail, retired_slots, retired_delete, retired_other, retired_discard, retired_send.
Qed.
Lemma retired_retire k c : retired c → retired (retireIfFullyClosed k c).
Proof.
  intros H. unfold retireIfFullyClosed. destruct (get_stream k c) as [[r' s]|] eqn:Hg; [|done].
  destruct (_ && _); [|done]. by apply retired_slots, retired_delete, retired_obj.
Qed.

Lemma retired_destroy e c : retired c → retired (destroy e c).
Proof.
  intros H. unfold destroy. destruct (closedFlag c); [done|]. destruct (sw_close _) as [w ids].
  rt_field. rt_field. apply retired_slots, retired_clear. apply retired_fold.
  - apply (rt_streams _ H).
  - intros c' [k r'] Hne H'. by apply retired_fail.
  - apply retired_wake. rt_fields.
Qed.
Lemma retired_error e c : retired c → retired (connectionError e c).
Proof. intros H. by apply retired_destroy, retired_send. Qed.

(** ** Frames *)

Definition keeps (m : Cn) : Prop := ∀ c, retired c → retired (fst (m c)).

Lemma retired_bind (m : Cn) (f : unit → Cn) : keeps m → (∀ u, keeps (f u)) → keeps (m ≫= f).
Proof.
  intros Hm Hf c H. unfold mbind, M_bind. specialize (Hm c H). destruct (m c) as [c' [u|e]]; [|done]. by apply Hf.
Qed.

Lemma keeps_settings ack s : keeps (on_settings ack s).
Proof.
  unfold on_settings. destruct ack; [by intros c H|].
  apply retired_bind; [|intros _ c H; by apply retired_send].
  unfold applyRemoteSettings. apply retired_bind; [|intros _; apply retired_bind].
  - intros c H. unfold apply_initial_window. destruct (initialWindowSize s); [|done].
    destruct (_ <? _); [done|]. cbn [fst]. apply retired_fold; [apply (rt_streams _ H)| |rt_fields].
    intros c' [k r'] Hne H'. unfold adjust_stream. destruct (objs c' !! r'); [|done].
    destruct (sw_adjust _ _). by apply retired_wake, retired_obj.
  - intros c H. unfold apply_max_frame_size. destruct (maxFrameSize s); [|done].
    destruct (_ || _); [done|]. rt_fields.
  - intros _ c H. cbn [fst modify]. unfold apply_other_settings.
    destruct (maxConcurrentStreams s); [apply retired_slots|]; rt_fields.
Qed.

Lemma keeps_data k d flow fin : keeps (on_data k d flow fin).
Proof.
  intros c H. unfold on_data. destruct (_ <? _); [done|].
  set (n := default _ flow). set (c1 := set_connRecvAvailable _ c).
  assert (retired c1) as H1 by (unfold c1; rt_fields).
  destruct (get_stream k c) as [[r' s]|] eqn:Hg.
  - pose proof (retired_get _ _ _ _ H Hg) as Hne.
    destruct (remoteClosed s); [|destruct (_ <? _)]; cbn [fst].
    + by apply retired_reset, retired_replenish_conn.
    + by apply retired_reset, retired_replenish_conn.
    + unfold data_on_stream.
      assert (retired (with_obj r' (receiveData d fin)
        (if 0 <? n - zlen d
         then replenishRecvWindow k (n - zlen d) (with_obj r' (add_recvWindow (- n)) c1)
         else with_obj r' (add_recvWindow (- n)) c1))) as H2.
      { apply retired_other; [done|]. destruct (_ <? _); [apply retired_replenish|]; by apply retired_other. }
      destruct fin; [|done]. by apply retired_retire, retired_other.
  - destruct (isIdleInboundStream _ _ _); cbn [fst]; [by apply retired_replenish_conn|].
    by apply retired_send, retired_replenish_conn.
Qed.

Lemma retired_rst k code c : retired c → retired (on_rst_stream k code c).
Proof.
  intros H. unfold on_rst_stream. destruct (get_stream k c) as [[r' s]|] eqn:Hg; [|done].
  pose proof (retired_get _ _ _ _ H Hg) as Hne.
  by apply retired_slots, retired_delete, retired_fail, retired_discard.
Qed.

Lemma retired_goaway last code c : retired c → retired (on_goaway last code c).
Proof.
  intros H. unfold on_goaway.
  set (c2 := fold_left _ _ _). assert (retired c2) as H2.
  { unfold c2. apply retired_fold; [apply (rt_streams _ H)| |rt_fields].
    intros c' [k r'] Hne H'. destruct (last <? k); [|done]. by apply retired_delete, retired_fail. }
  destruct (code =? 0); [by apply retired_slots|]. by apply retired_destroy, retired_slots.
Qed.

Lemma keeps_update k n : keeps (on_window_update k n).
Proof.
  intros c H. unfold on_window_update. destruct (n =? 0), (k =? 0); cbn [fst]; try done.
  - by apply retired_reset.
  - destruct (sw_update _ _). apply retired_wake. rt_fields.
  - destruct (get_stream k c) as [[r' s]|]; [|done]. destruct (sw_update _ _).
    by apply retired_wake, retired_obj.
Qed.

Lemma retired_ping ack op c : retired c → retired (on_ping ack op c).
Proof.
  intros H. unfold on_ping. destruct ack; [|by apply retired_send]. destruct (map_get _ _); rt_fields.
Qed.

(** *** Header blocks: without [onPush], only requests register streams. *)
Context (Hpush : onPush cfg = None).

Lemma keeps_complete : keeps (completeHeaderBlock cfg).
Proof.
  intros c H. unfold completeHeaderBlock. destruct (pendingHeaderBlock c) as [pb|]; [|done].
  cbv zeta. destruct (hd_decode _ _ _) as [d x].
  set (c1 := set_decoder d (set_pendingHeaderBlock None c)).
  assert (retired c1) as H1 by (unfold c1; rt_fields). clearbody c1.
  destruct x as [hs|e]; [|done]. destruct (pb_kind pb).
  - cbn [fst]. destruct (get_stream _ _) as [[r' s]|] eqn:Hg; [|done].
    pose proof (retired_get _ _ _ _ H1 Hg) as Hne.
    destruct (pb_endStream pb); [apply retired_retire, retired_other; [done|]|]; by apply retired_other.
  - unfold handlePush. rewrite Hpush. cbn [fst]. apply retired_send. destruct (_ <? _); rt_fields.
Qed.

Lemma keeps_extend pb (eh : bool) :
  keeps (modify (set_pendingHeaderBlock (Some pb));; guardHeaderBlockSize;;
         if eh then completeHeaderBlock cfg else mret tt).
Proof.
  apply retired_bind; [intros c H; rt_fields|]. intros _. apply retired_bind; [|intros _; destruct eh; [apply keeps_complete|by intros c H]].
  intros c H. unfold guardHeaderBlockSize. destruct (pendingHeaderBlock c) as [pb'|]; [|done]. by destruct (_ <? _).
Qed.

Lemma keeps_dispatch f : keeps (dispatch cfg f).
Proof.
  intros c H. unfold dispatch. set (c1 := set_wire (wire c ++ [Rx f]) c).
  assert (retired c1) as H1 by (unfold c1; rt_fields). clearbody c1. destruct (_ && _); [done|].
  destruct f as [k d flow fin|k fr es eh p|k p|k code|ack s|k pr fr eh|ack op|last code dbg|k n|k fr eh].
  - by apply keeps_data.
  - by apply keeps_extend.
  - done.
  - by apply retired_rst.
  - by apply keeps_settings.
  - by apply keeps_extend.
  - by apply retired_ping.
  - by apply retired_goaway.
  - by apply keeps_update.
  - unfold on_continuation. destruct (pendingHeaderBlock c1) as [pb|]; [|done].
    destruct (negb _); [done|]. by apply keeps_extend.
Qed.

Lemma retired_dispatch_all fs c : retired c → retired (dispatch_all cfg fs c).
Proof.
  revert c. induction fs as [|f fs IH]; intros c H; cbn [dispatch_all]; [done|].
  pose proof (keeps_dispatch f c H) as H1. destruct (dispatch cfg f c) as [c' x]. cbn [fst] in H1.
  destruct x as [u|[[code [k|] retry]| | |]]; try (by apply retired_error); [by apply IH|].
  by apply IH, retired_reset.
Qed.

(** ** The other steps *)

Lemma retired_continuations fuel k block max off c :
  retired c → retired (send_continuations fuel k block max off c).
Proof.
  revert off c. induction fuel as [|n IH]; intros off c H; cbn [send_continuations]; [done|].
  destruct (off <? zlen block); [|done]. by apply IH, retired_send.
Qed.
Lemma retired_headers k hs es c : retired c → retired (sendHeaders k hs es c).
Proof.
  intros H. unfold sendHeaders, send_block. destruct (_ <=? _); [by apply retired_send|].
  by apply retired_continuations, retired_send.
Qed.

Lemma map_set_Forall (P : Z * nat → Prop) m k v : P (k, v) → Forall P m → Forall P (map_set m k v).
Proof.
  intros Hp. induction 1 as [|[k' v'] m Hx Hm IH]; cbn [map_set]; [by repeat constructor|].
  destruct (decide (k' = k)) as [->|]; by constructor.
Qed.

(** A new request has a larger id and an object of its own. *)
Lemma retired_open init c : retired c → retired (fst (open_stream cfg init c)).
Proof.
  intros H. unfold open_stream. set (k := nextStreamId c). set (r' := length (objs c)).
  pose proof (rt_next _ H) as Hn. fold k in Hn. destruct (rt_obj _ H) as (s & Hs & Hi & Hh).
  assert (r' ≠ r) as Hne by (apply lookup_lt_Some in Hs; unfold r'; lia).
  set (c1 := set_streams _ _). assert (retired c1) as H1.
  { split.
    - apply map_set_Forall; [cbn; split; [lia|done]|]. apply (rt_streams _ H).
    - exists s. split; [|done]. cbn. by apply lookup_app_l_Some.
    - cbn. fold k. lia.
    - apply (rt_pumps _ H). }
  clearbody c1 k. cbn [fst]. assert (∀ f es hs, retired (with_obj r' f (sendHeaders k hs es c1))) as H2
    by (intros; by apply retired_other, retired_headers).
  destruct (negb _); [|by apply retired_other]. specialize (H2 (set_state open) (negb true) (buildRequestHeaders init)).
  destruct H2 as [G1 G2 G3 G4]. split; try done. cbn. apply Forall_app_2; [done|]. by repeat constructor.
Qed.

Lemma retired_top i p s c : p_ref p ≠ r → retired c → retired (pump_top i p s c).
Proof.
  intros Hne H. unfold pump_top. destruct (_ <? _); [|by apply retired_pump].
  destruct (pump_stopped s c); [by apply retired_pump|]. destruct (sw_waitPositive _ _).
  apply retired_pump; [done|]. rt_fields.
Qed.
Lemma retired_end i p s c : p_ref p ≠ r → retired c → retired (pump_end i p s c).
Proof.
  intros Hne H. unfold pump_end. destruct (_ || _); apply retired_pump; try done. by apply retired_send.
Qed.
Lemma retired_grant i p s c : p_ref p ≠ r → retired c → retired (pump_grant i p s c).
Proof.
  intros Hne H. unfold pump_grant. destruct (pump_stopped s c); [by apply retired_pump|].
  destruct (_ <=? 0); [by apply retired_top|]. apply retired_pump; [done|]. apply retired_send, retired_other; [done|].
  rt_fields.
Qed.

(** A pump that is not done serves another stream. *)
Lemma retired_serves i p c : retired c → pumps c !! i = Some p → p_phase p ≠ PDone → p_ref p ≠ r.
Proof. intros H Hp Hph Hr. apply Hph. by apply (Forall_lookup_1 _ _ _ _ (rt_pumps _ H) Hp). Qed.

Lemma retired_pump_step i delivered c : retired c → retired (pump_step i delivered c).
Proof.
  intros H. unfold pump_step. destruct (pumps c !! i) as [p|] eqn:Hp; [|done].
  destruct (objs c !! p_ref p) as [s|]; [|done].
  pose proof (retired_serves i p c H Hp) as Hne. destruct (p_phase p); try done; specialize (Hne ltac:(done)).
  - unfold pump_next. destruct (p_fixed p) as [[|ch rest]|]; [by apply retired_end|by apply retired_top|].
    destruct delivered as [[|b ch]|]; [done|by apply retired_top|by apply retired_end].
  - destruct (sw_waitPositive _ _). by apply retired_pump, retired_other.
  - by apply retired_grant.
  - by apply retired_top.
  - by apply retired_pump, retired_retire, retired_other.
Qed.

Lemma retired_pump_throws i e c : retired c → retired (pump_throws i e c).
Proof.
  intros H. unfold pump_throws. destruct (pumps c !! i) as [p|] eqn:Hp; [|done].
  pose proof (retired_serves i p c H Hp) as Hne.
  assert (p_ref p ≠ r → retired (pump_failed (p_ref p) e (set_pump i (pump_at p PDone) c))) as Hf.
  { intros Hr. assert (retired (set_pump i (pump_at p PDone) c)) as H1 by (by apply retired_pump).
    unfold pump_failed. destruct (objs _ !! p_ref p) as [s|]; [|done]. cbv zeta.
    assert (retired (fail_stream e (p_ref p) (set_pump i (pump_at p PDone) c))) by (by apply retired_fail).
    destruct (bool_decide _); [by apply retired_reset|done]. }
  destruct (p_phase p); try done; by apply Hf, Hne.
Qed.

(** The abort listener looks its id up first. *)
Lemma retired_abort r' e c : retired c → retired (abort_request r' e c).
Proof.
  intros H. unfold abort_request. destruct (objs c !! r') as [s|] eqn:Hs; [|done].
  destruct (decide (r' = r)) as [->|Hne].
  - destruct (rt_obj _ H) as (s' & Hs' & Hi & _). rewrite Hs in Hs'. injection Hs' as <-.
    rewrite Hi, (retired_unregistered _ H), bool_decide_false; [done|by intros []].
  - destruct (bool_decide _); [|done]. by apply retired_reset, retired_fail.
Qed.

(** Reading or cancelling the body leaves the response alone. *)
Lemma retired_pull r' c : retired c → retired (body_pull r' c).
Proof.
  intros H. unfold body_pull. destruct (objs c !! r') as [s|] eqn:Hs; [|done]. destruct (_ || _); [done|].
  assert (id (fst (pullBody s)) = id s ∧ head (fst (pullBody s)) = head s) as [Ei Eh]
    by (unfold pullBody; by repeat case_match).
  destruct (pullBody s) as [s' consumed]. cbn [fst] in Ei, Eh.
  assert (retired (with_obj r' (λ _, s') c)) as H1.
  { destruct H as [H1 (s0 & Hs0 & Hi & Hh) H3 H4]. split; try done. cbn.
    destruct (decide (r' = r)) as [->|Hne].
    - exists s'. rewrite list_lookup_alter_eq, Hs0. cbn. simplify_eq. by rewrite Ei, Eh.
    - exists s0. by rewrite list_lookup_alter_ne. }
  destruct consumed; [by apply retired_replenish|done].
Qed.

Lemma retired_cancel r' c : retired c → retired (body_cancel r' c).
Proof.
  intros H. unfold body_cancel. destruct (objs c !! r') as [s|] eqn:Hs; [|done].
  destruct (cancel_begin s) as [s' live] eqn:Ec. unfold cancel_begin in Ec. injection Ec as <- _.
  assert (with_obj r' (λ _, set_bodyDone s) c = with_obj r' set_bodyDone c) as ->
    by (unfold with_obj; f_equal; symmetry; by apply alter_known).
  set (c1 := with_obj r' set_bodyDone c). assert (retired c1) as H1 by (by apply retired_obj).
  set (c2 := if 0 <? _ then _ else _).
  assert (retired c2) as H2 by (unfold c2; destruct (_ <? _); [by apply retired_replenish|done]).
  assert (retired (with_obj r' cancel_clear c2)) by (by apply retired_obj).
  destruct (_ && _); [by apply retired_reset|done].
Qed.

Lemma retired_request t init aborted c : retired c → retired (fst (request_resume cfg t init aborted c)).
Proof.
  intros H. unfold request_resume. destruct (request_check aborted c); [done|].
  destruct (canOpenStream c); [by apply retired_open|]. rt_fields.
Qed.

Lemma retired_step ev c : retired c → retired (step cfg ev c).
Proof.
  intros H. destruct ev as [chunk| |e|t init aborted|t|r' e|i delivered|i e|r'|r'|k|t| |]; cbn [step].
  - destruct (_ =? _); [done|]. unfold onBytes. destruct (fd_push _ _) as [fd [frames|e]];
      [apply retired_dispatch_all|apply retired_error]; rt_fields.
  - by apply retired_destroy.
  - by apply retired_destroy.
  - by apply retired_request.
  - unfold abort_parked. case_decide; [|done]. rt_fields.
  - by apply retired_abort.
  - by apply retired_pump_step.
  - by apply retired_pump_throws.
  - by apply retired_pull.
  - by apply retired_cancel.
  - by apply retired_reset.
  - unfold ping. cbv zeta. destruct (closedFlag _); [rt_fields|]. apply retired_send. rt_fields.
  - by apply retired_close.
  - unfold close_finish. destruct (closing c); [done|]. apply retired_destroy. rt_fields.
Qed.

Lemma retired_steps evs c : retired c → retired (fold_left (λ c ev, step cfg ev c) evs c).
Proof. revert c. induction evs as [|ev evs IH]; intros c H; [done|]. by apply IH, retired_step. Qed.
End retired.

(** ** An interim response that ends the stream *)

(** The block of a HEADERS frame, from [dispatch] on. *)
Lemma interim_retires cfg c sid fragment prio d hs r s :
  inv cfg c → onPush cfg = None → pendingHeaderBlock c = None → zlen fragment ≤ MAX_HEADER_BLOCK_SIZE →
  hd_decode fragment (Some (mkLimits DEFAULT_MAX_HEADER_LIST_BYTES DEFAULT_MAX_HEADER_COUNT (Some sid)))
    (decoder c) = (d, Ok hs) →
  is_interim (collectHeaders hs) = true →
  get_stream sid c = Some (r, s) → gotHead s = false → head s = Pending → localClosed s = true →
  Forall (λ p, p_ref p = r → p_phase p = PDone) (pumps c) →
  let '(c', x) := dispatch cfg (HeadersFrame sid fragment true true prio) c in
  x = Ok tt ∧ closedFlag c' = closedFlag c ∧ retired sid r c'.
Proof.
  intros [Hco _] Hpush Hp Hz Hd Hi Hg Hgh Hh Hlc Hpumps. unfold dispatch. set (c1 := set_wire (wire c ++ [Rx _]) c).
  change (pendingHeaderBlock c1) with (pendingHeaderBlock c). rewrite Hp.
  cbn [bool_decide]. rewrite bool_decide_false by (by intros []). cbn [andb]. unfold begin_block.
  set (c2 := set_pendingHeaderBlock (Some (mkPending sid KResponse true [fragment] (zlen fragment))) c1).
  rewrite (bind_ok _ (modify _) c1 c2 tt eq_refl).
  assert (guardHeaderBlockSize c2 = (c2, Ok tt)) as Hguard
    by (unfold guardHeaderBlockSize; cbn; by rewrite (proj2 (Z.ltb_ge _ _))).
  rewrite (bind_ok _ _ _ _ _ Hguard).
  rewrite (interim_block_retires cfg c2 sid fragment d hs r s eq_refl Hd Hi Hg Hgh Hlc).
  pose proof (get_stream_Some _ _ _ _ Hg) as [Hmap Hobj].
  pose proof (ref_id _ _ _ _ _ _ Hco Hmap Hobj) as Hid.
  split; [done|]. split; [by destruct (wake_slots_fields (delete_stream sid
    (with_obj r (λ _, set_state closed (set_remoteClosed s)) (set_decoder d (set_pendingHeaderBlock None c2))))) as (_ & _ & ->)|].
  apply retired_slots. split; [|exists (set_state closed (set_remoteClosed s))| |done].
  - cbn. apply list.Forall_forall. intros [k r'] Hin. unfold map_delete in Hin.
    apply list_elem_of_filter in Hin as [Hk Hin]. cbn in Hk |- *. split; [done|]. intros ->.
    apply (map_elem_get _ _ _ (co_nodup _ _ _ Hco)) in Hin. apply Hk.
    by rewrite <- (ref_id _ _ _ _ _ _ Hco Hin Hobj).
  - cbn. by rewrite list_lookup_alter_eq, Hobj.
  - destruct (co_fresh _ _ _ Hco Hpush _ _ Hobj) as [_ Hf]. by rewrite Hid in Hf.
Qed.

(** C39: a request can stay unanswered for ever.  In a reachable state of a connection without an
    [onPush] callback, let a request have sent all of its body, its response still pending, and let a
    chunk of bytes begin with a HEADERS frame for it that carries END_STREAM and whose block is an
    interim (1xx) response.  The stream is retired, and the connection goes on.  From then on,
    whatever happens - the rest of the chunk, later bytes, the abort of the request, other requests,
    uploads, pings, a GOAWAY, [close], the end or failure of the transport - the stream is not in
    the map and the promise of the response head is neither resolved nor rejected: [request] never
    settles. *)
Theorem interim_end_stream_never_settles o cfg c chunk fd rest sid fragment prio d hs r s evs :
  reachable o cfg c → onPush cfg = None → pendingHeaderBlock c = None →
  get_stream sid c = Some (r, s) → gotHead s = false → head s = Pending → localClosed s = true →
  Forall (λ p, p_ref p = r → p_phase p = PDone) (pumps c) →
  chunk ≠ [] →
  fd_push chunk (frameDecoder c) = (fd, Ok (HeadersFrame sid fragment true true prio :: rest)) →
  zlen fragment ≤ MAX_HEADER_BLOCK_SIZE →
  hd_decode fragment (Some (mkLimits DEFAULT_MAX_HEADER_LIST_BYTES DEFAULT_MAX_HEADER_COUNT (Some sid)))
    (decoder c) = (d, Ok hs) →
  is_interim (collectHeaders hs) = true →
  let c1 := step cfg (EvBytes chunk) c in
  let c' := fold_left (λ c ev, step cfg ev c) evs c1 in
  (rest = [] → closedFlag c1 = closedFlag c) ∧
  map_get (streams c') sid = None ∧ ∃ s', objs c' !! r = Some s' ∧ id s' = sid ∧ head s' = Pending.
Proof.
  intros Hr Hpush Hp Hg Hgh Hh Hlc Hpumps Hne Hfd Hz Hd Hi c1 c'.
  set (c0 := set_frameDecoder fd c).
  assert (inv cfg c0) as Hinv by (apply (inv_same _ _ _ _ _ c); [by repeat split|by apply (reachable_inv o)]).
  pose proof (interim_retires cfg c0 sid fragment prio d hs r s Hinv Hpush Hp Hz Hd Hi Hg Hgh Hh Hlc Hpumps) as H.
  assert (c1 = dispatch_all cfg (HeadersFrame sid fragment true true prio :: rest) c0) as E.
  { unfold c1. cbn [step]. rewrite (proj2 (Z.eqb_neq _ _)) by (by intros ?%zlen_0_inv). unfold onBytes. by rewrite Hfd. }
  cbn [dispatch_all] in E. destruct (dispatch cfg _ c0) as [c2 x]. destruct H as (-> & Hcl & Hret).
  assert (retired sid r c') as Hfin by (apply retired_steps; [done|]; rewrite E; by apply retired_dispatch_all).
  split; [by intros ->; rewrite E|]. split; [by apply (retired_unregistered _ r)|]. apply (rt_obj _ _ _ Hfin).
Qed.

(** A GET that is answered by 103 with END_STREAM, is aborted, and whose connection ends. *)
Module InterimDemo.
Definition block : bytes := he_encode ByteWriter [mkHeader (js ":status") (js "103") false].
Definition chunk : bytes := serializeFrame ByteWriter (HeadersFrame 1 block true true None).
Definition asked : Conn := run Demo.cfg [EvRequest 0 (Demo.get "/a" BNone) None] Demo.start.
Definition later : list Event := [EvAbort 0 (EForeign 0); EvPing 0; EvClose; EvTransportEnd].
Definition finally : Conn :=
  fold_left (λ c ev, step Demo.cfg ev c) later (step Demo.cfg (EvBytes chunk) asked).
End InterimDemo.

Lemma interim_end_stream_never_settles_witness :
  ∃ s, objs InterimDemo.finally !! 0%nat = Some s ∧ id s = 1 ∧ head s = Pending.
Proof.
  destruct (get_stream 1 InterimDemo.asked) as [[r s]|] eqn:Hg; [|vm_compute in Hg; discriminate Hg].
  assert (r = 0%nat ∧ gotHead s = false ∧ head s = Pending ∧ localClosed s = true) as (-> & Hs1 & Hs2 & Hs3)
    by (vm_compute in Hg; injection Hg as <- <-; repeat split; reflexivity).
  destruct (fd_push InterimDemo.chunk (frameDecoder InterimDemo.asked)) as [fd x] eqn:Hfd.
  assert (x = Ok [HeadersFrame 1 InterimDemo.block true true None]) as ->
    by (vm_compute in Hfd; injection Hfd as <- <-; vm_compute; reflexivity).
  destruct (hd_decode InterimDemo.block (Some (mkLimits DEFAULT_MAX_HEADER_LIST_BYTES DEFAULT_MAX_HEADER_COUNT (Some 1)))
    (decoder InterimDemo.asked)) as [d y] eqn:Hd.
  assert (y = Ok [mkHeader (js ":status") (js "103") false]) as ->
    by (vm_compute in Hd; injection Hd as _ <-; vm_compute; reflexivity).
  destruct (interim_end_stream_never_settles Demo.options Demo.cfg InterimDemo.asked InterimDemo.chunk fd [] 1
    InterimDemo.block None d [mkHeader (js ":status") (js "103") false] 0 s InterimDemo.later) as (_ & _ & H).
  - apply reachable_run. constructor. apply Demo.start_eq.
  - reflexivity.
  - vm_compute. reflexivity.
  - exact Hg.
  - exact Hs1.
  - exact Hs2.
  - exact Hs3.
  - vm_compute. constructor.
  - vm_compute. discriminate.
  - exact Hfd.
  - vm_compute. discriminate.
  - exact Hd.
  - vm_compute. reflexivity.
  - exact H.
Defined.
