(* ===== verification/ConnectionSlots.v ===== *)
(** * ConnectionSlots: parked requests and the size of a header block *)
From S2P Require Import Prelude Errors Text Bytes Frames HpackTables Huffman Hpack Flow Stream.
From S2P Require Import Connection ConnectionInv ConnectionSteps ConnectionCorrect.
Local Open Scope Z_scope.

#[local] Opaque HUFFMAN_CODES ROOT STATIC_TABLE staticPairToIndex staticNameToIndex hd_decode
  he_encode.

(** No request is parked unless the peer's limit is reached on a usable connection. *)
Definition parked_ok (c : Conn) : Prop :=
  streamSlotWaiters c ≠ [] →
  canOpenStream c = false ∧ closedFlag c = false ∧ goawayReceived c = false.

(** The operation keeps [parked_ok], the header block under construction, and a closed
    connection closed. *)
Record mild (c c' : Conn) : Prop := mkMild {
  mi_parked : parked_ok c → parked_ok c';
  mi_pending : pendingHeaderBlock c' = pendingHeaderBlock c;
  mi_closed : closedFlag c = true → closedFlag c' = true;
}.

Lemma mild_refl c : mild c c.
Proof. by split. Qed.
Lemma mild_trans c1 c2 c3 : mild c1 c2 → mild c2 c3 → mild c1 c3.
Proof. intros [] []. split; [auto|congruence|auto]. Qed.

(** Agreement on the fields [parked_ok] reads. *)
Definition same_slots (c c' : Conn) : Prop :=
  streamSlotWaiters c' = streamSlotWaiters c ∧ streams c' = streams c ∧
  r_maxConcurrentStreams (remote c') = r_maxConcurrentStreams (remote c) ∧
  closedFlag c' = closedFlag c ∧ goawayReceived c' = goawayReceived c.

Lemma parked_same c c' : same_slots c c' → parked_ok c → parked_ok c'.
Proof.
  intros (E1 & E2 & E3 & E4 & E5) H. unfold parked_ok, canOpenStream, activeStreams.
  rewrite E1, E2, E3, E4, E5. exact H.
Qed.

Lemma mild_same c c1 c' :
  same_slots c1 c' → pendingHeaderBlock c' = pendingHeaderBlock c1 → mild c c1 → mild c c'.
Proof.
  intros Hs Hp [H1 H2 H3]. split.
  - intros H. by eapply parked_same, H1.
  - congruence.
  - destruct Hs as (_ & _ & _ & -> & _). auto.
Qed.

Ltac mild_field :=
  cbn [fst modify];
  match goal with |- mild _ (?f ?d) => apply (mild_same _ d); [by repeat split|reflexivity|] end.
Ltac mild_fields := cbn [fst modify]; first [apply mild_refl | mild_field; mild_fields].

Lemma mild_send f c : mild c (send f c).
Proof. unfold send. destruct (closedFlag c) eqn:Hc; [done|]. mild_fields. Qed.
Lemma mild_close c : mild c (close c).
Proof.
  unfold close. destruct (closedFlag c); [done|]. mild_field. apply mild_send.
Qed.

Lemma wake_slots_empty c : streamSlotWaiters (wakeStreamSlots c) = [].
Proof.
  unfold wakeStreamSlots. set (c' := if _ && _ && _ then close c else c).
  destruct (streamSlotWaiters c') eqn:E; [exact E|reflexivity].
Qed.

(** Waking re-establishes the property from any state: here deletions are allowed. *)
Lemma wake_slots_mild c0 c :
  pendingHeaderBlock c = pendingHeaderBlock c0 → (closedFlag c0 = true → closedFlag c = true) →
  mild c0 (wakeStreamSlots c).
Proof.
  intros Hp Hc. split.
  - intros _. unfold parked_ok. by rewrite wake_slots_empty.
  - rewrite <- Hp. unfold wakeStreamSlots.
    destruct (_ && _); destruct (streamSlotWaiters _); try done; apply (mild_close c).
  - intros H. destruct (wake_slots_fields c) as (_ & _ & ->). auto.
Qed.

Lemma mild_replenish_conn n c : mild c (replenishConnectionWindow n c).
Proof.
  unfold replenishConnectionWindow. destruct (_ || _); [done|].
  eapply mild_trans; [|apply mild_send]. mild_fields.
Qed.
Lemma mild_replenish sid n c : mild c (replenishRecvWindow sid n c).
Proof.
  unfold replenishRecvWindow. destruct (_ || _); [done|].
  eapply mild_trans; [|apply mild_replenish_conn].
  destruct (get_stream sid c) as [[r s]|]; [|done]. destruct (remoteClosed s); [done|].
  eapply mild_trans; [|apply mild_send]. mild_fields.
Qed.
Lemma mild_fail e r c : mild c (fail_stream e r c).
Proof.
  unfold fail_stream. destruct (objs c !! r); [|done]. destruct (fail _ _). mild_fields.
Qed.
Lemma mild_discard r s c : mild c (discard_stream r s c).
Proof.
  unfold discard_stream. destruct (discardBuffered s).
  eapply mild_trans; [|apply mild_replenish_conn]. mild_fields.
Qed.

Lemma mild_reset sid code c : mild c (resetStream sid code c).
Proof.
  unfold resetStream. set (f := RstStreamFrame _ _).
  destruct (get_stream sid c) as [[r s]|]; [|apply mild_send].
  eapply mild_trans; [|apply mild_fail].
  pose proof (mild_trans _ _ _ (mild_send f c) (mild_discard r s (send f c))) as [_ H1 H2].
  apply wake_slots_mild; done.
Qed.
Lemma mild_retire sid c : mild c (retireIfFullyClosed sid c).
Proof.
  unfold retireIfFullyClosed. destruct (get_stream sid c) as [[r s]|]; [|done].
  destruct (_ && _); [|done]. by apply wake_slots_mild.
Qed.

Lemma mild_fold {A} (f : Conn → A → Conn) l c :
  (∀ c a, mild c (f c a)) → mild c (fold_left f l c).
Proof.
  intros Hf. revert c. induction l as [|a l IH]; intros c; cbn [fold_left]; [done|].
  eapply mild_trans; [apply Hf|apply IH].
Qed.

Lemma mild_destroy e c : mild c (destroy e c).
Proof.
  unfold destroy. destruct (closedFlag c) eqn:Hc; [done|]. destruct (sw_close _) as [w ids].
  set (c1 := wake_pumps ids _).
  assert (pendingHeaderBlock c1 = pendingHeaderBlock c) as H1 by done.
  set (c2 := fold_left _ _ c1).
  assert (mild c1 c2) as [_ H2 _] by (apply mild_fold; intros c' [sid r]; apply mild_fail).
  eapply (mild_same _ (wakeStreamSlots (set_streams [] c2))); [by repeat split|done|].
  apply wake_slots_mild; [etransitivity; [exact H2|exact H1]|congruence].
Qed.

Lemma destroy_closed e c : closedFlag (destroy e c) = true.
Proof.
  unfold destroy. destruct (closedFlag c) eqn:Hc; [done|]. destruct (sw_close _) as [w ids].
  set (c1 := wake_pumps ids _). set (c2 := fold_left _ _ c1).
  assert (mild c1 c2) as [_ _ H2] by (apply mild_fold; intros c' [sid r]; apply mild_fail).
  cbn [closedFlag set_pings set_pingResults].
  destruct (wake_slots_fields (set_streams [] c2)) as (_ & _ & ->). by apply H2.
Qed.

Lemma mild_error e c : mild c (connectionError e c).
Proof. eapply mild_trans; [apply mild_send|apply mild_destroy]. Qed.

Lemma mild_if_reset (b : bool) sid code c1 c2 :
  mild c1 c2 → mild c1 (if b then resetStream sid code c2 else c2).
Proof. intros H. destruct b; [|done]. eapply mild_trans; [exact H|apply mild_reset]. Qed.

(** ** Handlers *)

Definition mild_m (m : Cn) : Prop := ∀ c, mild c (fst (m c)).

Lemma mild_bind (m : Cn) (f : unit → Cn) :
  mild_m m → (∀ u, mild_m (f u)) → mild_m (m ≫= f).
Proof.
  intros Hm Hf c. unfold mbind, M_bind. specialize (Hm c).
  destruct (m c) as [c' [u|e]]; [|done]. eapply mild_trans; [exact Hm|apply Hf].
Qed.

Lemma mild_settings ack s : mild_m (on_settings ack s).
Proof.
  unfold on_settings. destruct ack; [done|].
  apply mild_bind; [|intros _ c; apply mild_send].
  unfold applyRemoteSettings. apply mild_bind; [|intros _; apply mild_bind].
  - intros c. unfold apply_initial_window. destruct (initialWindowSize s); [|done].
    destruct (_ <? _); [done|]. cbn [fst]. eapply mild_trans; [|apply mild_fold]; [mild_fields|].
    intros c' [sid r]. unfold adjust_stream. destruct (objs c' !! r); [|done].
    destruct (sw_adjust _ _). mild_fields.
  - intros c. unfold apply_max_frame_size. destruct (maxFrameSize s); [|done].
    destruct (_ || _); [done|]. mild_fields.
  - intros _ c. cbn [fst modify]. unfold apply_other_settings.
    destruct (maxConcurrentStreams s); [by apply wake_slots_mild|]. mild_fields.
Qed.

Lemma mild_data sid d flow fin : mild_m (on_data sid d flow fin).
Proof.
  intros c. unfold on_data. destruct (_ <? _); [done|].
  set (n := default _ flow).
  eapply (mild_trans _ (set_connRecvAvailable (connRecvAvailable c - n) c)); [mild_fields|].
  set (c1 := set_connRecvAvailable _ c). destruct (get_stream sid c) as [[r s]|].
  - destruct (remoteClosed s); [|destruct (_ <? _)]; cbn [fst].
    + eapply mild_trans; [apply mild_replenish_conn|apply mild_reset].
    + eapply mild_trans; [apply mild_replenish_conn|apply mild_reset].
    + unfold data_on_stream.
      assert (mild c1 (with_obj r (receiveData d fin)
        (if 0 <? n - zlen d
         then replenishRecvWindow sid (n - zlen d) (with_obj r (add_recvWindow (- n)) c1)
         else with_obj r (add_recvWindow (- n)) c1))) as H2.
      { mild_field. destruct (_ <? _); [eapply mild_trans; [|apply mild_replenish]|];
          mild_fields. }
      destruct fin; [|done]. eapply mild_trans; [|apply mild_retire].
      mild_field. exact H2.
  - destruct (isIdleInboundStream _ _ _); cbn [fst]; [apply mild_replenish_conn|].
    eapply mild_trans; [apply mild_replenish_conn|apply mild_send].
Qed.

Lemma mild_rst sid code c : mild c (on_rst_stream sid code c).
Proof.
  unfold on_rst_stream. destruct (get_stream sid c) as [[r s]|]; [|done].
  set (e := reset_error _ _).
  pose proof (mild_trans _ _ _ (mild_discard r s c) (mild_fail e r (discard_stream r s c)))
    as [_ H1 H2].
  by apply wake_slots_mild.
Qed.

Lemma mild_goaway last code c : mild c (on_goaway last code c).
Proof.
  unfold on_goaway. set (c2 := fold_left _ _ _).
  assert (pendingHeaderBlock c2 = pendingHeaderBlock c ∧ closedFlag c2 = closedFlag c) as [H1 H2].
  { unfold c2. generalize (streams (set_goawayReceived true c)) as l. intros l.
    assert (∀ c', pendingHeaderBlock (fold_left (λ c '(sid, r), if last <? sid
        then delete_stream sid (fail_stream (excluded code sid) r c) else c) l c') =
        pendingHeaderBlock c' ∧ closedFlag (fold_left (λ c '(sid, r), if last <? sid
        then delete_stream sid (fail_stream (excluded code sid) r c) else c) l c') =
        closedFlag c') as H; [|apply (H (set_goawayReceived true c))].
    induction l as [|[sid r] l IH]; intros c'; cbn [fold_left]; [done|].
    destruct (IH (if last <? sid then delete_stream sid (fail_stream (excluded code sid) r c')
      else c')) as [-> ->].
    destruct (last <? sid); [|done]. unfold delete_stream. cbn [pendingHeaderBlock closedFlag set_streams].
    rewrite fail_stream_closed. split; [|done]. apply (mild_fail (excluded code sid) r c'). }
  assert (mild c (wakeStreamSlots c2)) as H3 by (apply wake_slots_mild; [done|congruence]).
  destruct (code =? 0); [done|]. eapply mild_trans; [exact H3|apply mild_destroy].
Qed.

Lemma mild_update sid n : mild_m (on_window_update sid n).
Proof.
  intros c. unfold on_window_update. destruct (n =? 0), (sid =? 0); cbn [fst]; try done.
  - apply mild_reset.
  - destruct (sw_update _ _). mild_fields.
  - destruct (get_stream sid c) as [[r s]|]; [|done]. destruct (sw_update _ _). mild_fields.
Qed.

(** *** Header blocks *)

Lemma map_set_active (m : list (Z * nat)) k v :
  zlen (filter (λ e : Z * nat, fst e mod 2 = 1) m) ≤
  zlen (filter (λ e : Z * nat, fst e mod 2 = 1) (map_set m k v)).
Proof.
  induction m as [|[k' v'] m IH]; cbn [map_set]; [apply zlen_nonneg|].
  destruct (decide (k' = k)) as [->|].
  - rewrite !filter_cons. cbn [fst]. case_decide; [|lia]. rewrite !zlen_cons. lia.
  - rewrite !filter_cons. cbn [fst]. case_decide; [|lia]. rewrite !zlen_cons. lia.
Qed.

Lemma parked_set k v o c :
  parked_ok c → parked_ok (set_streams (map_set (streams c) k v) (set_objs o c)).
Proof.
  unfold parked_ok, canOpenStream, activeStreams.
  cbn [streamSlotWaiters remote streams closedFlag goawayReceived set_streams set_objs].
  intros H Hw. destruct (H Hw) as (H1 & H2 & H3). split_and!; [|done|done].
  destruct (r_maxConcurrentStreams (remote c)) as [m|]; [|done].
  apply Z.ltb_ge in H1. apply Z.ltb_ge. pose proof (map_set_active (streams c) k v). lia.
Qed.

(** The running size of the header block is the size of its fragments, and within the limit. *)
Definition size_ok (c : Conn) : Prop := ∀ pb, pendingHeaderBlock c = Some pb →
  pb_size pb = zlen (mjoin (pb_fragments pb) : bytes).
Definition block_ok (c : Conn) : Prop := ∀ pb, pendingHeaderBlock c = Some pb →
  pb_size pb ≤ MAX_HEADER_BLOCK_SIZE.

Lemma push_mild cfg promised hs : mild_m (handlePush cfg promised hs).
Proof.
  intros c. unfold handlePush.
  set (c1 := if highestPromised c <? promised then set_highestPromised promised c else c).
  assert (mild c c1) as H1 by (unfold c1; destruct (_ <? _); mild_fields).
  eapply mild_trans; [exact H1|]. clearbody c1. destruct (onPush cfg); cbn [fst]; [|apply mild_send].
  split; [apply parked_set|done|done].
Qed.

Lemma complete_slots cfg c :
  (parked_ok c → parked_ok (fst (completeHeaderBlock cfg c))) ∧
  pendingHeaderBlock (fst (completeHeaderBlock cfg c)) = None ∧
  (closedFlag c = true → closedFlag (fst (completeHeaderBlock cfg c)) = true).
Proof.
  unfold completeHeaderBlock. destruct (pendingHeaderBlock c) as [pb|] eqn:Hp; [|done].
  cbv zeta. destruct (hd_decode _ _ _) as [d x].
  set (c1 := set_decoder d (set_pendingHeaderBlock None c)).
  assert (parked_ok c → parked_ok c1) as H1 by (apply parked_same; by repeat split).
  assert (∀ c2, mild c1 c2 → (parked_ok c → parked_ok c2) ∧ pendingHeaderBlock c2 = None ∧
    (closedFlag c = true → closedFlag c2 = true)) as Hm.
  { intros c2 [M1 M2 M3]. split_and!; [auto|by rewrite M2|exact M3]. }
  destruct x as [hs|e]; [|by apply Hm]. destruct (pb_kind pb); [|apply Hm, push_mild].
  cbn [fst]. apply Hm. destruct (get_stream _ _) as [[r s]|]; [|done].
  destruct (pb_endStream pb); [eapply mild_trans; [|apply mild_retire]|]; mild_fields.
Qed.

(** The common tail of HEADERS, PUSH_PROMISE and CONTINUATION. *)
Lemma extend_slots cfg pb (eh : bool) c :
  pb_size pb = zlen (mjoin (pb_fragments pb) : bytes) →
  let '(c', x) := (modify (set_pendingHeaderBlock (Some pb));; guardHeaderBlockSize;;
                   if eh then completeHeaderBlock cfg else mret tt) c in
  (parked_ok c → parked_ok c') ∧ size_ok c' ∧ (stream_scoped x → block_ok c').
Proof.
  intros Hsz. set (c1 := set_pendingHeaderBlock (Some pb) c).
  assert (parked_ok c → parked_ok c1) as H1 by (apply parked_same; by repeat split).
  rewrite (bind_ok _ (modify (set_pendingHeaderBlock (Some pb))) c c1 tt eq_refl).
  destruct (Z.ltb_spec MAX_HEADER_BLOCK_SIZE (pb_size pb)) as [Hbig|Hsmall].
  - assert (guardHeaderBlockSize c1 = (c1, Throw (EH2 (h2_error ENHANCE_YOUR_CALM)))) as Hg.
    { unfold guardHeaderBlockSize. cbn [pendingHeaderBlock c1 set_pendingHeaderBlock].
      by rewrite (proj2 (Z.ltb_lt _ _)) by done. }
    rewrite (bind_throw _ _ _ _ _ Hg). split_and!; [done|by intros pb' [= <-]|by intros [? ?]].
  - assert (guardHeaderBlockSize c1 = (c1, Ok tt)) as Hg.
    { unfold guardHeaderBlockSize. cbn [pendingHeaderBlock c1 set_pendingHeaderBlock].
      by rewrite (proj2 (Z.ltb_ge _ _)) by done. }
    rewrite (bind_ok _ _ _ _ _ Hg). destruct eh.
    + destruct (complete_slots cfg c1) as (P1 & P2 & P3).
      destruct (completeHeaderBlock cfg c1) as [c' x]. cbn [fst] in *.
      split_and!; [auto|intros pb'; by rewrite P2|intros _ pb'; by rewrite P2].
    + split_and!; [done|by intros pb' [= <-]|by intros _ pb' [= <-]].
Qed.

(** ** Steps *)

Definition slots (c : Conn) : Prop :=
  parked_ok c ∧ size_ok c ∧ (closedFlag c = false → block_ok c).

Lemma slots_mild c c' : mild c c' → slots c → slots c'.
Proof.
  intros [H1 H2 H3] (Hp & Hs & Hb). split_and!; [auto|intros pb; rewrite H2; apply Hs|].
  intros Ho pb. rewrite H2. apply Hb. destruct (closedFlag c); [|done]. by rewrite H3 in Ho.
Qed.

(** After an error that names no stream the connection is torn down. *)
Definition slots_handled (cx : Conn * result exn unit) : Prop :=
  parked_ok (fst cx) ∧ size_ok (fst cx) ∧ (stream_scoped (snd cx) → block_ok (fst cx) ∨ slots (fst cx)).

Lemma slots_handled_mild m c : mild_m m → slots c → slots_handled (m c).
Proof.
  intros Hm Hc. specialize (Hm c). pose proof (slots_mild _ _ Hm Hc) as Hs.
  destruct Hs as (H1 & H2 & H3). split_and!; [done|done|]. by right.
Qed.

Lemma slots_extend cfg pb (eh : bool) c :
  pb_size pb = zlen (mjoin (pb_fragments pb) : bytes) → slots c →
  slots_handled ((modify (set_pendingHeaderBlock (Some pb));; guardHeaderBlockSize;;
                  if eh then completeHeaderBlock cfg else mret tt) c).
Proof.
  intros Hsz (Hp & _). pose proof (extend_slots cfg pb eh c Hsz) as H.
  match goal with |- slots_handled ?t => destruct t as [c' x] end.
  destruct H as (H1 & H2 & H3). split_and!; auto.
Qed.

Lemma slots_dispatch cfg f c : slots c → slots_handled (dispatch cfg f c).
Proof.
  intros Hc. unfold dispatch. set (c1 := set_wire (wire c ++ [Rx f]) c).
  assert (slots c1) as H1 by (eapply slots_mild; [unfold c1; mild_fields|done]). clearbody c1.
  assert (slots_handled (c1, Throw (EH2 (h2_error PROTOCOL_ERROR)))) as Hthrow.
  { destruct H1 as (? & ? & ?). split_and!; [done|done|by intros [? ?]]. }
  assert (∀ c', mild c1 c' → slots_handled (c', Ok tt)) as Hok.
  { intros c' Hm. pose proof (slots_mild _ _ Hm H1) as (? & ? & ?). split_and!; [done|done|by right]. }
  destruct (_ && _); [done|].
  destruct f as [sid d flow fin|sid fr es eh p|sid p|sid code|ack s|sid pr fr eh|ack op|last code dbg
    |sid n|sid fr eh].
  - apply (slots_handled_mild (on_data sid d flow fin)); [apply mild_data|done].
  - apply slots_extend; [cbn; by rewrite app_nil_r|done].
  - by apply Hok.
  - apply Hok, mild_rst.
  - apply (slots_handled_mild (on_settings ack s)); [apply mild_settings|done].
  - apply slots_extend; [cbn; by rewrite app_nil_r|done].
  - apply Hok. unfold on_ping. destruct ack; [|apply mild_send]. destruct (map_get _ _); mild_fields.
  - apply Hok, mild_goaway.
  - apply (slots_handled_mild (on_window_update sid n)); [apply mild_update|done].
  - unfold on_continuation. destruct (pendingHeaderBlock c1) as [pb|] eqn:Hp; [|done].
    destruct (negb _); [done|]. apply slots_extend; [|done].
    cbn [pb_size pb_fragments]. destruct H1 as (_ & Hs & _).
    by rewrite (Hs pb Hp), mjoin_snoc, zlen_app.
Qed.

Lemma slots_closed c : parked_ok c → size_ok c → closedFlag c = true → slots c.
Proof. intros Hp Hs Hc. split_and!; [done|done|congruence]. Qed.

Lemma slots_dispatch_all cfg fs c : slots c → slots (dispatch_all cfg fs c).
Proof.
  revert c. induction fs as [|f fs IH]; intros c Hc; cbn [dispatch_all]; [done|].
  destruct (slots_dispatch cfg f c Hc) as (Hp & Hs & Hx).
  destruct (dispatch cfg f c) as [c' x]. cbn [fst snd] in *.
  assert (∀ e, slots (connectionError e c')) as Herr.
  { intros e. destruct (mild_error e c') as [M1 M2 M3].
    apply slots_closed; [auto|intros pb; rewrite M2; apply Hs|apply destroy_closed]. }
  assert (stream_scoped x → slots c') as Hsl.
  { intros Hsc. destruct (Hx Hsc); [|done]. by split_and!. }
  destruct x as [u|[[code [sid|] retry]| | |]]; try apply Herr.
  - by apply IH, Hsl.
  - apply IH. eapply slots_mild; [apply mild_reset|]. apply Hsl. by eexists.
Qed.

Lemma mild_top i p s c : mild c (pump_top i p s c).
Proof.
  unfold pump_top, set_pump. destruct (_ <? _); [|mild_fields]. destruct (pump_stopped s c); [mild_fields|].
  destruct (sw_waitPositive _ _). mild_fields.
Qed.
Lemma mild_end i p s c : mild c (pump_end i p s c).
Proof.
  unfold pump_end, set_pump. destruct (_ || _); [mild_fields|]. mild_field. apply mild_send.
Qed.

Lemma mild_pump i delivered c : mild c (pump_step i delivered c).
Proof.
  unfold pump_step. destruct (pumps c !! i) as [p|]; [|done].
  destruct (objs c !! p_ref p) as [s|]; [|done]. destruct (p_phase p); try done.
  - unfold pump_next. destruct (p_fixed p) as [[|ch rest]|]; [apply mild_end|apply mild_top|].
    destruct delivered as [[|b ch]|]; [done|apply mild_top|apply mild_end].
  - destruct (sw_waitPositive _ _). unfold set_pump. mild_fields.
  - unfold pump_grant, set_pump. destruct (pump_stopped s c); [mild_fields|].
    destruct (_ <=? 0); [apply mild_top|]. mild_field. eapply mild_trans; [|apply mild_send].
    mild_fields.
  - apply mild_top.
  - unfold set_pump. mild_field. eapply mild_trans; [|apply mild_retire]. mild_fields.
Qed.

Lemma mild_continuations fuel sid block max off c :
  mild c (send_continuations fuel sid block max off c).
Proof.
  revert off c. induction fuel as [|n IH]; intros off c; cbn [send_continuations]; [done|].
  destruct (off <? zlen block); [|done]. eapply mild_trans; [apply mild_send|apply IH].
Qed.
Lemma mild_headers sid hs es c : mild c (sendHeaders sid hs es c).
Proof.
  unfold sendHeaders, send_block. destruct (_ <=? _); [apply mild_send|].
  eapply mild_trans; [apply mild_send|apply mild_continuations].
Qed.

Lemma mild_open cfg init c : mild c (fst (open_stream cfg init c)).
Proof.
  unfold open_stream. cbv zeta. cbn [fst]. set (hb := negb (bodyIsEmpty _)).
  set (c1 := set_streams _ _).
  assert (mild c c1) as H1.
  { split; [|done|done]. intros Hp. unfold c1.
    apply (parked_same (set_streams (map_set (streams c) (nextStreamId c) (length (objs c)))
      (set_objs (objs c) c))); [by repeat split|]. by apply parked_set. }
  eapply mild_trans; [exact H1|]. clearbody c1.
  destruct hb; do 2 mild_field; apply mild_headers.
Qed.

Lemma slots_step cfg ev c : slots c → slots (step cfg ev c).
Proof.
  intros Hc. destruct ev as [chunk| |e|t init ab|t|r e|i del|i e|r|r|sid|t| |]; cbn [step];
    [|eapply slots_mild; [|exact Hc]..].
  - destruct (_ =? 0); [done|]. unfold onBytes. destruct (fd_push _ _) as [fd x].
    set (c1 := set_frameDecoder fd c).
    assert (slots c1) as H1 by (eapply slots_mild; [unfold c1; mild_fields|done]).
    destruct x; [by apply slots_dispatch_all|]. eapply slots_mild; [apply mild_error|done].
  - apply mild_destroy.
  - apply mild_destroy.
  - unfold request_resume. destruct (request_check ab c) eqn:Hck; [done|].
    destruct (canOpenStream c) eqn:Hcan; [apply mild_open|].
    unfold request_check in Hck. destruct ab; [done|].
    destruct (closedFlag c || goawayReceived c) eqn:Hcg; [done|].
    apply orb_false_iff in Hcg as [Hcl Hgo]. by split.
  - unfold abort_parked. case_decide; [|done]. split; [|done|done]. intros Hp Hne. apply Hp.
    intros E. cbn in Hne. by rewrite E in Hne.
  - unfold abort_request. destruct (objs c !! r); [|done]. case_bool_decide; [|done].
    eapply mild_trans; [apply mild_fail|apply mild_reset].
  - apply mild_pump.
  - unfold pump_throws. destruct (pumps c !! i) as [p|]; [|done].
    assert (mild c (pump_failed (p_ref p) e (set_pump i (pump_at p PDone) c))) as H.
    { unfold pump_failed, set_pump. cbn [objs set_pumps].
      destruct (objs c !! p_ref p); [|mild_fields]. apply mild_if_reset.
      eapply mild_trans; [|apply mild_fail]. mild_fields. }
    by destruct (p_phase p).
  - unfold body_pull. destruct (objs c !! r); [|done]. destruct (_ || _); [done|].
    destruct (pullBody _) as [s' [n|]]; [eapply mild_trans; [|apply mild_replenish]|];
      mild_fields.
  - unfold body_cancel. destruct (objs c !! r); [|done]. destruct (cancel_begin _).
    apply mild_if_reset. mild_field.
    destruct (_ <? _); [eapply mild_trans; [|apply mild_replenish]|]; mild_fields.
  - apply mild_reset.
  - unfold ping. cbv zeta. destruct (closedFlag _); [mild_fields|].
    eapply mild_trans; [|apply mild_send]. mild_fields.
  - apply mild_close.
  - unfold close_finish. destruct (closing c); [done|].
    eapply mild_trans; [|apply mild_destroy]. mild_fields.
Qed.

Lemma slots_reachable o cfg c : reachable o cfg c → slots c.
Proof.
  induction 1 as [c Hn|c ev Hr IH]; [|by apply slots_step].
  unfold connection_new in Hn. destruct (_ || _); [done|]. injection Hn as _ <-.
  unfold send. cbn [closedFlag set_wire].
  destruct (_ <? _); cbn [closedFlag set_wire]; by split_and!.
Qed.

(** C21: no wake-up is lost: whenever a request is parked, the peer's concurrency limit is
    reached, the connection is open and no GOAWAY has arrived.  A freed slot, a raised limit,
    a GOAWAY or a teardown has always resumed every parked request. *)
Theorem parked_requests_blocked o cfg c :
  reachable o cfg c → streamSlotWaiters c ≠ [] →
  canOpenStream c = false ∧ closedFlag c = false ∧ goawayReceived c = false.
Proof. intros Hr. apply (slots_reachable _ _ _ Hr). Qed.

Module ParkDemo.
Definition limit_1 : Settings := mkSettings None None (Some 1) None None None.
Definition events : list Event :=
  [ EvBytes (Demo.frame (SettingsFrame false limit_1));
    EvRequest 0 (Demo.get "/a" BNone) None; EvRequest 1 (Demo.get "/b" BNone) None ].
Definition final : Conn := run Demo.cfg events Demo.start.
End ParkDemo.

Lemma parked_requests_blocked_witness :
  streamSlotWaiters ParkDemo.final = [1%nat] ∧ canOpenStream ParkDemo.final = false.
Proof.
  assert (reachable Demo.options Demo.cfg ParkDemo.final) as Hr
    by (apply reachable_run; constructor; apply Demo.start_eq).
  split; [vm_compute; reflexivity|].
  apply (parked_requests_blocked Demo.options Demo.cfg ParkDemo.final Hr). vm_compute. discriminate.
Defined.

(** An unfinished header block never grows past 1 MiB on an open connection, however many
    CONTINUATION frames arrive, and its running size is the size of its fragments. *)
Theorem header_block_bounded o cfg c pb :
  reachable o cfg c → closedFlag c = false → pendingHeaderBlock c = Some pb →
  zlen (concatBytes (pb_fragments pb)) = pb_size pb ∧ pb_size pb ≤ 1048576.
Proof.
  intros Hr Ho Hp. destruct (slots_reachable _ _ _ Hr) as (_ & Hs & Hb).
  rewrite concatBytes_spec. split; [symmetry; by apply Hs|by apply Hb].
Qed.

Lemma header_block_bounded_witness :
  ∃ pb, pendingHeaderBlock (run Demo.cfg [EvBytes (Demo.frame (HeadersFrame 1 [0x82; 0x84] true false None));
          EvBytes (Demo.frame (ContinuationFrame 1 [0x86] false))] Demo.start) = Some pb ∧
    zlen (concatBytes (pb_fragments pb)) = pb_size pb ∧ pb_size pb = 3.
Proof.
  set (c := run _ _ _).
  assert (reachable Demo.options Demo.cfg c) as Hr
    by (apply reachable_run; constructor; apply Demo.start_eq).
  assert (pendingHeaderBlock c = Some (mkPending 1 KResponse true [[0x82; 0x84]; [0x86]] 3)) as Hp
    by (vm_compute; reflexivity).
  eexists. split; [exact Hp|]. split; [|reflexivity].
  apply (header_block_bounded Demo.options Demo.cfg c _ Hr); [vm_compute; reflexivity|exact Hp].
Defined.
