(* ===== verification/Footprint.v ===== *)
(** * Footprint: what the operations of a connection touch

    Every operation of [Connection], the body pumps apart, is made of few primitive changes: it
    writes frames, updates fields, updates stream objects, adds credit to a send window and wakes
    its waiters, fails a stream, shuts the connection's window, appends an object.  A relation
    between states that is reflexive, transitive and contains these changes ([Footprint])
    therefore contains every operation; [Uploads], [Waiting] and [Evidence] are its clients.  A
    relation may restrict the errors that streams fail with ([E]). *)
From S2P Require Import Prelude Errors Text Bytes Frames HpackTables Huffman Hpack Flow Stream.
From S2P Require Import Connection ConnectionInv.
Local Open Scope Z_scope.

#[local] Opaque HUFFMAN_CODES ROOT STATIC_TABLE staticPairToIndex staticNameToIndex hd_decode
  he_encode.

Definition is_data (f : Frame) : bool := match f with DataFrame _ _ _ _ => true | _ => false end.

(** [SETTINGS_MAX_FRAME_SIZE] of the peer stays at or above its minimum. *)
Definition sized (c : Conn) : Prop := 16384 ≤ r_maxFrameSize (remote c).

(** An error that a stream has shown: to the request, to the reader of its body, to its upload. *)
Definition told (s : H2Stream) (e : exn) : Prop :=
  head s = Rejected e ∨ recvError s = Some e ∨ stopped s = Some e.
(** What the updates of an object leave alone. *)
Record tame (s s' : H2Stream) : Prop := mkTame {
  tame_id : id s' = id s;
  tame_window : sendWindow s' = sendWindow s;
  tame_told e : told s' e → told s e;
}.

Class Footprint (E : exn → Prop) (R : Conn → Conn → Prop) : Prop := {
  fp_preorder :: PreOrder R;
  fp_fields c c' : objs c' = objs c → pumps c' = pumps c → connSendWindow c' = connSendWindow c →
    closedFlag c' = closedFlag c → wire c' = wire c → nextStreamId c' = nextStreamId c →
    (sized c → sized c') → R c c';
  fp_received f c : R c (set_wire (wire c ++ [Rx f]) c);
  fp_send f c : is_data f = false → R c (send f c);
  fp_obj r f c : (∀ s, objs c !! r = Some s → tame s (f s)) → R c (with_obj r f c);
  fp_window r s n c :
    objs c !! r = Some s →
    R c (wake_pumps (snd (sw_add n (sendWindow s)))
           (with_obj r (set_sendWindow (fst (sw_add n (sendWindow s)))) c));
  fp_conn_window n c :
    R c (wake_pumps (snd (sw_add n (connSendWindow c)))
           (set_connSendWindow (fst (sw_add n (connSendWindow c))) c));
  fp_internal h : h2_retry h = None → E (EH2 h);
  fp_fail e r c : E e → R c (fail_stream e r c);
  fp_shut e c :
    R c (wake_pumps (snd (sw_close (connSendWindow c)))
           (set_connSendWindow (fst (sw_close (connSendWindow c)))
              (set_closeError (Some e) (set_closedFlag true c))));
  fp_new s c c' : waiters (sendWindow s) = [] → (∀ e, ¬ told s e) → objs c' = objs c ++ [s] → pumps c' = pumps c →
    connSendWindow c' = connSendWindow c → closedFlag c' = closedFlag c → wire c' = wire c →
    nextStreamId c ≤ nextStreamId c' → (sized c → sized c') → R c c';
}.

Lemma get_stream_obj sid c r s : get_stream sid c = Some (r, s) → objs c !! r = Some s.
Proof.
  unfold get_stream. destruct (map_get _ _) as [r'|]; [|done]. destruct (objs c !! r') eqn:E; [|done].
  by intros [= -> ->].
Qed.
Lemma send_objs f c : objs (send f c) = objs c.
Proof. unfold send. by destruct (closedFlag c). Qed.

Lemma receiveData_same d fin s : tame s (receiveData d fin s).
Proof. unfold receiveData. by repeat case_match; split. Qed.
Lemma receiveHeaders_same hs fin s : tame s (receiveHeaders hs fin s).
Proof.
  unfold receiveHeaders. repeat case_match; (split; [done..|]); intros e Ht; unfold told in *; cbn in *; naive_solver.
Qed.
Lemma new_told sid win st limit e : ¬ told (stream_new sid win st limit) e.
Proof. by intros [?|[?|?]]. Qed.

Section footprint.
Context {E : exn → Prop} {R : Conn → Conn → Prop} `{!Footprint E R}.

(** Peel operations off the end of a state. *)
Ltac same_obj := intros ? _; first [by split | by repeat case_match; split].
Ltac touch_op :=
  match goal with
  | |- R _ (send _ _) => etransitivity; [|by apply fp_send]
  | |- R _ (with_obj _ _ _) => etransitivity; [|apply fp_obj; same_obj]
  | |- R _ (?f ?d) => etransitivity; [|by apply (fp_fields d (f d))]
  end.
Ltac touch := cbn [fst snd modify]; repeat first [reflexivity | touch_op].

Lemma touch_close c : R c (close c).
Proof. unfold close. destruct (closedFlag c); touch. Qed.
Lemma touch_wake_slots c : R c (wakeStreamSlots c).
Proof.
  unfold wakeStreamSlots. set (c' := if _ && _ && _ then close c else c).
  assert (R c c') as H by (unfold c'; destruct (_ && _); [apply touch_close|done]).
  destruct (streamSlotWaiters c'); [done|]. etransitivity; [exact H|]. touch.
Qed.
Lemma touch_replenish_conn n c : R c (replenishConnectionWindow n c).
Proof. unfold replenishConnectionWindow. destruct (_ || _); touch. Qed.
Lemma touch_replenish sid n c : R c (replenishRecvWindow sid n c).
Proof.
  unfold replenishRecvWindow. destruct (_ || _); [done|]. etransitivity; [|apply touch_replenish_conn].
  destruct (get_stream sid c) as [[r s]|]; [|done]. destruct (remoteClosed s); touch.
Qed.

(** An object replaced by a new version of itself. *)
Lemma touch_put r s s' c : objs c !! r = Some s → tame s s' → R c (with_obj r (λ _, s') c).
Proof. intros Hs H. apply fp_obj. intros s0 H0. rewrite Hs in H0. by injection H0 as <-. Qed.

Lemma touch_discard r s c : objs c !! r = Some s → R c (discard_stream r s c).
Proof.
  intros Hs. unfold discard_stream. destruct (discardBuffered s) as [s' n] eqn:Ed.
  etransitivity; [|apply touch_replenish_conn]. apply (touch_put r s); [done|..];
    unfold discardBuffered in Ed; by injection Ed as <- <-.
Qed.


Lemma touch_reset sid code c : R c (resetStream sid code c).
Proof.
  unfold resetStream. set (f := RstStreamFrame _ _). destruct (get_stream sid c) as [[r s]|] eqn:Hg; [|touch].
  etransitivity; [|by apply fp_fail, fp_internal]. etransitivity; [|apply touch_wake_slots]. touch_op. touch_op.
  etransitivity; [by apply (fp_send f)|]. apply touch_discard. rewrite send_objs. by apply (get_stream_obj sid).
Qed.
Lemma touch_retire sid c : R c (retireIfFullyClosed sid c).
Proof.
  unfold retireIfFullyClosed. destruct (get_stream sid c) as [[r s]|]; [|done].
  destruct (_ && _); [|done]. etransitivity; [|apply touch_wake_slots]. touch.
Qed.
Lemma touch_fold {A} (f : Conn → A → Conn) l c : (∀ c a, R c (f c a)) → R c (fold_left f l c).
Proof.
  intros Hf. revert c. induction l as [|a l IH]; intros c; cbn [fold_left]; [done|].
  etransitivity; [apply Hf|apply IH].
Qed.
Lemma touch_destroy e c : E e → R c (destroy e c).
Proof.
  intros He. unfold destroy. destruct (closedFlag c); [done|]. pose proof (fp_shut e c) as Hs.
  change (connSendWindow (set_closeError _ _)) with (connSendWindow c).
  destruct (sw_close (connSendWindow c)) as [w l]. cbn [fst snd] in Hs. touch_op. touch_op.
  etransitivity; [|apply touch_wake_slots]. touch_op.
  etransitivity; [exact Hs|]. apply touch_fold. intros c' [sid r]. by apply fp_fail.
Qed.
Lemma touch_error e c : E e → R c (connectionError e c).
Proof. intros He. etransitivity; [|by apply touch_destroy]. touch. Qed.

(** *** Frames of the peer *)

Definition touches (m : Cn) : Prop := ∀ c, R c (fst (m c)).

Lemma touch_ret : touches (mret tt).
Proof. intros c. cbn. reflexivity. Qed.
Lemma touch_bind (m : Cn) (f : unit → Cn) : touches m → (∀ u, touches (f u)) → touches (m ≫= f).
Proof.
  intros Hm Hf c. unfold mbind, M_bind. specialize (Hm c).
  destruct (m c) as [c' [u|e]]; [|done]. etransitivity; [exact Hm|apply Hf].
Qed.

Lemma touch_settings ack s : touches (on_settings ack s).
Proof.
  unfold on_settings. destruct ack; [apply touch_ret|]. apply touch_bind; [|intros _ c; touch].
  unfold applyRemoteSettings. apply touch_bind; [|intros _; apply touch_bind].
  - intros c. unfold apply_initial_window. destruct (initialWindowSize s); [|done].
    destruct (_ <? _); [done|]. cbn [fst]. etransitivity; [|apply touch_fold]; [touch|].
    intros c' [sid r]. unfold adjust_stream. destruct (objs c' !! r) as [s'|] eqn:Hs; [|done].
    pose proof (fp_window r s' (z - r_initialWindowSize (remote c)) c' Hs) as Hw.
    unfold sw_adjust. by destruct (sw_add _ _).
  - intros c. unfold apply_max_frame_size. destruct (maxFrameSize s) as [n|]; [|done].
    destruct (_ || _) eqn:Hn; [done|]. apply orb_false_iff in Hn as [Hn%Z.ltb_ge _].
    apply fp_fields; try done.
  - intros _ c. cbn [fst modify]. unfold apply_other_settings.
    destruct (maxConcurrentStreams s); [etransitivity; [|apply touch_wake_slots]|]; touch.
Qed.


Lemma touch_data sid d flow fin : touches (on_data sid d flow fin).
Proof.
  intros c. unfold on_data. destruct (_ <? _); [done|]. set (n := default _ flow).
  transitivity (set_connRecvAvailable (connRecvAvailable c - n) c); [touch|].
  set (c1 := set_connRecvAvailable _ c). destruct (get_stream sid c) as [[r s]|].
  - destruct (remoteClosed s); [|destruct (_ <? _)]; cbn [fst].
    + etransitivity; [apply touch_replenish_conn|apply touch_reset].
    + etransitivity; [apply touch_replenish_conn|apply touch_reset].
    + unfold data_on_stream.
      set (c2 := if _ <? _ then replenishRecvWindow _ _ _ else _).
      assert (R c1 c2) as H2.
      { unfold c2. destruct (_ <? _); [etransitivity; [|apply touch_replenish]|]; touch. }
      clearbody c2. assert (R c1 (with_obj r (receiveData d fin) c2)) as H3
        by (etransitivity; [exact H2|apply fp_obj; intros ? _; apply receiveData_same]).
      destruct fin; [|done]. etransitivity; [|apply touch_retire]. touch_op. exact H3.
  - destruct (isIdleInboundStream _ _ _); cbn [fst]; [apply touch_replenish_conn|].
    touch_op. apply touch_replenish_conn.
Qed.

Lemma touch_rst sid code c : (∀ i, E (reset_error i code)) → R c (on_rst_stream sid code c).
Proof.
  intros HE. unfold on_rst_stream. destruct (get_stream sid c) as [[r s]|] eqn:Hg; [|done]. set (e := reset_error _ _).
  etransitivity; [|apply touch_wake_slots]. unfold delete_stream. touch_op.
  etransitivity; [|apply fp_fail, HE]. apply touch_discard. by apply (get_stream_obj sid).
Qed.

Lemma touch_goaway last code c : (∀ i, E (excluded code i)) → R c (on_goaway last code c).
Proof.
  intros HE. unfold on_goaway. set (c2 := fold_left _ _ _). assert (R c c2) as H2.
  { unfold c2. etransitivity; [|apply touch_fold]; [touch|]. intros c' [sid r]. destruct (_ <? _); [|done].
    unfold delete_stream. touch_op. apply fp_fail, HE. }
  destruct (code =? 0); [|etransitivity; [|by apply touch_destroy, fp_internal]]; etransitivity; [exact H2|apply touch_wake_slots|
    exact H2|apply touch_wake_slots].
Qed.

Lemma touch_update sid n : touches (on_window_update sid n).
Proof.
  intros c. unfold on_window_update. destruct (n =? 0), (sid =? 0); cbn [fst]; try done.
  - apply touch_reset.
  - pose proof (fp_conn_window n c) as Hw. unfold sw_update. by destruct (sw_add _ _).
  - destruct (get_stream sid c) as [[r s]|] eqn:Hg; [|done].
    pose proof (fp_window r s n c (get_stream_obj _ _ _ _ Hg)) as Hw. unfold sw_update. by destruct (sw_add _ _).
Qed.

Lemma touch_push cfg promised hs : touches (handlePush cfg promised hs).
Proof.
  intros c. unfold handlePush.
  set (c1 := if highestPromised c <? promised then set_highestPromised promised c else c).
  assert (R c c1) as H1 by (unfold c1; destruct (_ <? _); touch).
  etransitivity; [exact H1|]. clearbody c1. destruct (onPush cfg); cbn [fst]; [|touch].
  eapply fp_new; [| |reflexivity|done..]; [reflexivity|by intros e [?|[?|?]]].
Qed.

Lemma touch_complete cfg : touches (completeHeaderBlock cfg).
Proof.
  intros c. unfold completeHeaderBlock. destruct (pendingHeaderBlock c) as [pb|]; [|done].
  cbv zeta. destruct (hd_decode _ _ _) as [d x]. set (c1 := set_decoder d (set_pendingHeaderBlock None c)).
  assert (R c c1) as H1 by (unfold c1; touch). clearbody c1.
  destruct x as [hs|e]; [|done]. destruct (pb_kind pb); [|etransitivity; [exact H1|apply touch_push]].
  cbn [fst]. etransitivity; [exact H1|]. destruct (get_stream _ _) as [[r s]|]; [|done].
  assert (R c1 (with_obj r (receiveHeaders hs (pb_endStream pb)) c1)) as H2
    by (apply fp_obj; intros ? _; apply receiveHeaders_same).
  destruct (pb_endStream pb); [|done]. etransitivity; [|apply touch_retire]. touch_op. exact H2.
Qed.

Lemma touch_block cfg pb (eh : bool) :
  touches (modify (set_pendingHeaderBlock (Some pb));; guardHeaderBlockSize;;
             if eh then completeHeaderBlock cfg else mret tt).
Proof.
  apply touch_bind; [intros c; touch|]. intros _. apply touch_bind.
  - intros c. unfold guardHeaderBlockSize. destruct (pendingHeaderBlock c); [|done]. by destruct (_ <? _).
  - intros _. destruct eh; [apply touch_complete|apply touch_ret].
Qed.

(** The frames that fail single streams. *)
Definition fails_streams (f : Frame) : Prop :=
  match f with
  | RstStreamFrame _ code => ∀ i, E (reset_error i code)
  | GoawayFrame _ code _ => ∀ i, E (excluded code i)
  | _ => True
  end.
Lemma touch_dispatch cfg f : fails_streams f → touches (dispatch cfg f).
Proof.
  intros HE c. unfold dispatch. set (c1 := set_wire (wire c ++ [Rx f]) c).
  assert (R c c1) as H1 by apply fp_received.
  etransitivity; [exact H1|]. clearbody c1. destruct (_ && _); [done|].
  destruct f as [sid d flow fin|sid fr es eh p|sid p|sid code|ack s|sid pr fr eh|ack op|last code dbg
    |sid n|sid fr eh].
  - apply touch_data.
  - apply touch_block.
  - done.
  - by apply touch_rst.
  - apply touch_settings.
  - apply touch_block.
  - cbn [fst]. unfold on_ping. destruct ack; [|touch]. destruct (map_get _ _); touch.
  - by apply touch_goaway.
  - apply touch_update.
  - unfold on_continuation. destruct (pendingHeaderBlock c1) as [pb|]; [|done].
    destruct (negb _); [done|]. apply touch_block.
Qed.

Lemma touch_bytes cfg chunk c : (∀ e, E e) → R c (onBytes cfg chunk c).
Proof.
  intros HE. unfold onBytes. destruct (fd_push chunk (frameDecoder c)) as [fd x].
  transitivity (set_frameDecoder fd c); [touch|]. generalize (set_frameDecoder fd c). intros c1.
  destruct x as [fs|e]; [|by apply touch_error]. revert c1.
  induction fs as [|f fs IH]; intros c1; cbn [dispatch_all]; [done|].
  pose proof (touch_dispatch cfg f ltac:(destruct f; cbn; auto) c1) as Hd. destruct (dispatch cfg f c1) as [c2 x]. cbn [fst] in Hd.
  etransitivity; [exact Hd|]. destruct x as [u|[[code [sid|] retry]| | |]]; try (by apply touch_error); [apply IH|].
  etransitivity; [apply touch_reset|apply IH].
Qed.

(** *** Requests without a body, readers, teardown *)

Lemma touch_continuations fuel sid block max off c : R c (send_continuations fuel sid block max off c).
Proof.
  revert off c. induction fuel as [|n IH]; intros off c; cbn [send_continuations]; [done|].
  destruct (off <? zlen block); [|done]. etransitivity; [|apply IH]. touch.
Qed.
Lemma touch_headers sid hs es c : R c (sendHeaders sid hs es c).
Proof.
  unfold sendHeaders, send_block. destruct (_ <=? _); [touch|].
  etransitivity; [|apply touch_continuations]. touch.
Qed.

Lemma touch_abort_parked t c : R c (abort_parked t c).
Proof. unfold abort_parked. case_decide; touch. Qed.

Lemma touch_pump_failed r e c : E e → R c (pump_failed r e c).
Proof.
  intros He. unfold pump_failed. destruct (objs c !! r) as [s|]; [|done].
  destruct (bool_decide _); [etransitivity; [|apply touch_reset]|]; by apply fp_fail.
Qed.
Lemma touch_abort r e c : E e → R c (abort_request r e c).
Proof.
  intros He. unfold abort_request. destruct (objs c !! r) as [s|]; [|done]. destruct (bool_decide _); [|done].
  etransitivity; [|apply touch_reset]. by apply fp_fail.
Qed.

Lemma touch_pull r c : R c (body_pull r c).
Proof.
  unfold body_pull. destruct (objs c !! r) as [s|] eqn:Hs; [|done]. destruct (_ || _); [done|].
  destruct (pullBody s) as [s' n] eqn:Ep.
  assert (tame s s') as Hs' by (unfold pullBody in Ep; by repeat case_match; injection Ep as <- <-; split).
  destruct n as [n|]; [etransitivity; [|apply touch_replenish]|]; by apply (touch_put r s).
Qed.

Lemma touch_cancel r c : R c (body_cancel r c).
Proof.
  unfold body_cancel. destruct (objs c !! r) as [s|] eqn:Hs; [|done]. destruct (cancel_begin s) as [s' live] eqn:Ec.
  assert (tame s s') as Hs' by (unfold cancel_begin in Ec; by injection Ec as <- <-; split).
  set (c1 := with_obj r (λ _, s') c). assert (R c c1) as H1 by (by apply (touch_put r s)). clearbody c1.
  set (c2 := if 0 <? recvBuffered s then replenishRecvWindow (id s) (recvBuffered s) c1 else c1).
  assert (R c c2) as H2.
  { unfold c2. destruct (_ <? _); [|done]. etransitivity; [exact H1|apply touch_replenish]. }
  clearbody c2. destruct (_ && _); [etransitivity; [|apply touch_reset]|]; touch_op; exact H2.
Qed.


(** [open_stream] up to the start of its pump. *)
Lemma touch_open cfg init c :
  let r := length (objs c) in
  let s := stream_new (nextStreamId c) (r_initialWindowSize (remote c)) open (localInitialWindow cfg) in
  let c1 := set_streams (map_set (streams c) (nextStreamId c) r)
    (set_objs (objs c ++ [s]) (set_nextStreamId (nextStreamId c + 2) c)) in
  let hasBody := negb (bodyIsEmpty (i_body init)) in
  R c (with_obj r (set_state (if hasBody then open else halfClosedLocal))
         (sendHeaders (nextStreamId c) (buildRequestHeaders init) (negb hasBody) c1)).
Proof.
  intros r s c1 hasBody. touch_op. etransitivity; [|apply touch_headers].
  eapply (fp_new s); try done; [apply new_told|]. cbn. lia.
Qed.

(** The events that neither start nor move a pump. *)
Definition pump_event (ev : Event) : bool :=
  match ev with EvRequest _ _ _ | EvPump _ _ | EvPumpThrows _ _ => true | _ => false end.

(** The error that an event brings from outside. *)
Definition event_error (ev : Event) : option exn :=
  match ev with EvTransportError e | EvAbort _ e | EvPumpThrows _ e => Some e | _ => None end.

Lemma touch_quiet_step cfg ev c :
  pump_event ev = false → (∀ chunk, ev ≠ EvBytes chunk) → (∀ e, event_error ev = Some e → E e) →
  R c (step cfg ev c).
Proof.
  intros Hev Hb HE. destruct ev as [chunk| |e|t init ab|t|r e|i d|i e|r|r|sid|t| |]; try discriminate; cbn [step].
  - by destruct (Hb chunk).
  - by apply touch_destroy, fp_internal.
  - by apply touch_destroy, HE.
  - apply touch_abort_parked.
  - by apply touch_abort, HE.
  - apply touch_pull.
  - apply touch_cancel.
  - apply touch_reset.
  - unfold ping. destruct (closedFlag _); touch.
  - apply touch_close.
  - unfold close_finish. destruct (closing c); [done|]. etransitivity; [|by apply touch_destroy, fp_internal]. touch.
Qed.

Lemma touch_step cfg ev c : pump_event ev = false → (∀ e, E e) → R c (step cfg ev c).
Proof.
  intros Hev HE. destruct ev as [chunk| | | | | | | | | | | | |]; try (by apply touch_quiet_step); [|done..].
  cbn [step]. destruct (zlen chunk =? 0); [done|]. by apply touch_bytes.
Qed.
End footprint.
