(* ===== verification/Uploads.v ===== *)
(** * Uploads: request bodies arrive in full and in order

    What the connection writes for the body of a request ([pumpBody] of [h2/connection.ts],
    [Connection.pump_step]) against what the application gave it, over all interleavings of pumps,
    frames of the peer, cancellations and teardown. *)
From S2P Require Import Prelude Errors Text Bytes Frames HpackTables Huffman Hpack Flow Stream.
From S2P Require Import Connection ConnectionInv ConnectionSteps ConnectionCorrect Footprint.
Local Open Scope Z_scope.

#[local] Opaque HUFFMAN_CODES ROOT STATIC_TABLE staticPairToIndex staticNameToIndex hd_decode
  he_encode.

(** ** The DATA frames that were written *)

Definition written_data (e : Wire) : option (Z * (bytes * bool)) :=
  match e with Tx (DataFrame sid data _ fin) => Some (sid, (data, fin)) | _ => None end.
Definition datas (w : list Wire) : list (Z * (bytes * bool)) := omap written_data w.

(** Those of one stream: payload and END_STREAM. *)
Definition upload_of (sid : Z) (l : list (Z * (bytes * bool))) : list (bytes * bool) :=
  omap (λ e, if decide (e.1 = sid) then Some e.2 else None) l.

Definition payload (u : list (bytes * bool)) : bytes := mjoin (map fst u).
Definition unfinished (u : list (bytes * bool)) : Prop := Forall (λ x, x.2 = false) u.
Definition finished_with (u : list (bytes * bool)) (g : bytes) : Prop :=
  ∃ us, u = us ++ [([], true)] ∧ unfinished us ∧ payload us = g.

Lemma datas_app a b : datas (a ++ b) = datas a ++ datas b.
Proof. apply omap_app. Qed.
Lemma upload_of_app sid a b : upload_of sid (a ++ b) = upload_of sid a ++ upload_of sid b.
Proof. apply omap_app. Qed.
Lemma payload_snoc u d fin : payload (u ++ [(d, fin)]) = payload u ++ d.
Proof. unfold payload. rewrite map_app. apply mjoin_snoc. Qed.

Lemma upload_of_own sid new : upload_of sid (map (pair sid) new) = new.
Proof.
  induction new as [|x new IH]; [done|]. cbn. rewrite decide_True by done. cbn. by rewrite <- IH at 2.
Qed.
Lemma upload_of_other sid sid' new : sid' ≠ sid → upload_of sid (map (pair sid') new) = [].
Proof. intros H. induction new as [|x new IH]; [done|]. cbn. by rewrite decide_False. Qed.

(** ** Operations that leave uploads alone *)

Definition woken_from (p p' : Pump) : Prop := p' = p ∨ p' = wake_pump p.
Definition ids (c : Conn) : list Z := map id (objs c).

Record passive (c c' : Conn) : Prop := mkPassive {
  pa_datas : datas (wire c') = datas (wire c);
  pa_pumps : Forall2 woken_from (pumps c) (pumps c');
  pa_ids : ids c `prefix_of` ids c';
  pa_next : nextStreamId c ≤ nextStreamId c';
}.

Lemma wake_twice p : wake_pump (wake_pump p) = wake_pump p.
Proof. unfold wake_pump. cbn. by destruct (p_phase p). Qed.

#[export] Instance woken_preorder : PreOrder woken_from.
Proof.
  split; [by left|]. intros p1 p2 p3 [->| ->] [->| ->]; [by left|by right..|right; apply wake_twice].
Qed.

#[export] Instance passive_preorder : PreOrder passive.
Proof.
  split.
  - intros c. split; reflexivity.
  - intros c1 c2 c3 [] []. split; [congruence|etransitivity; eassumption|etransitivity; eassumption|lia].
Qed.

Lemma passive_field c c' :
  wire c' = wire c → pumps c' = pumps c → objs c' = objs c → nextStreamId c' = nextStreamId c → passive c c'.
Proof. intros H1 H2 H3 H4. split; unfold ids; rewrite ?H1, ?H2, ?H3, ?H4; by try reflexivity. Qed.

Lemma ids_with_obj r f c : (∀ s, objs c !! r = Some s → id (f s) = id s) → ids (with_obj r f c) = ids c.
Proof.
  intros H. unfold ids, with_obj. cbn [objs set_objs]. apply list_eq. intros i. rewrite !list_lookup_fmap.
  destruct (decide (i = r)) as [->|Hi]; [|by rewrite list_lookup_alter_ne].
  rewrite list_lookup_alter_eq. destruct (objs c !! r) as [s|] eqn:E; [|done]. cbn. by rewrite H.
Qed.

Lemma passive_obj r f c : (∀ s, objs c !! r = Some s → id (f s) = id s) → passive c (with_obj r f c).
Proof. intros H. split; [done|reflexivity| |done]. by rewrite ids_with_obj. Qed.

Lemma passive_wake l c : passive c (wake_pumps l c).
Proof.
  split; [done| |reflexivity|done]. unfold wake_pumps. cbn [pumps set_pumps].
  generalize (pumps c) as ps. induction l as [|i l IH]; intros ps; cbn [fold_left]; [done|].
  etransitivity; [|apply IH]. apply Forall2_same_length_lookup_2; [by rewrite length_alter|].
  intros j p p' Hp Hp'. destruct (decide (i = j)) as [->|Hj].
  - rewrite list_lookup_alter_eq, Hp in Hp'. injection Hp' as <-. by right.
  - rewrite list_lookup_alter_ne, Hp in Hp' by done. injection Hp' as <-. by left.
Qed.

Lemma passive_send f c : is_data f = false → passive c (send f c).
Proof.
  intros Hf. unfold send. destruct (closedFlag c); [done|]. split; [|reflexivity|reflexivity|done].
  cbn [wire set_wire]. rewrite datas_app. destruct f; try done; apply app_nil_r.
Qed.

(** Peel operations off the end of a state. *)
Ltac same_id := intros ? _; first [reflexivity | by repeat case_match].
Ltac passive_op :=
  match goal with
  | |- passive _ (send _ _) => etransitivity; [|by apply passive_send]
  | |- passive _ (wake_pumps _ _) => etransitivity; [|apply passive_wake]
  | |- passive _ (with_obj _ _ _) => etransitivity; [|apply passive_obj; same_id]
  | |- passive _ (?f ?d) => etransitivity; [|by apply (passive_field d (f d))]
  end.
Ltac passive := cbn [fst snd modify]; repeat first [reflexivity | passive_op].

#[export] Instance passive_footprint : Footprint (λ _, True) passive.
Proof.
  split.
  - apply _.
  - intros c c' Ho Hp _ _ Hw Hn _. split; unfold ids; rewrite ?Ho, ?Hp, ?Hw, ?Hn; by try reflexivity.
  - intros f c. split; [|reflexivity|reflexivity|done]. cbn [wire set_wire]. rewrite datas_app. apply app_nil_r.
  - apply passive_send.
  - intros r f c H. apply passive_obj. intros s Hs. by destruct (H s Hs).
  - intros r s n c _. passive.
  - intros n c. passive.
  - done.
  - intros e r c _. unfold fail_stream. destruct (objs c !! r) as [s|] eqn:Hs; [|done].
    pose proof (fail_fields e s) as (Hid & _). destruct (fail e s) as [s' l]. cbn [fst] in Hid.
    etransitivity; [|apply passive_wake]. apply passive_obj. intros s0 H0. rewrite Hs in H0. by injection H0 as <-.
  - intros e c. passive.
  - intros s c c' _ _ Ho Hp _ _ Hw Hn _. split; unfold ids; rewrite ?Ho, ?Hp, ?Hw; try reflexivity; [|done].
    rewrite map_app. by apply prefix_app_r.
Qed.

(** ** The progress of a pump *)

(** What a pump has still to write of what it was given. *)
Definition left_over (n : Z) (p : Pump) : bytes :=
  drop (Z.to_nat (p_offset p + n)) (p_chunk p) ++ mjoin (default [] (p_fixed p)).

(** A pump, what was written for its stream, and all it was given. *)
Definition upload_ok (u : list (bytes * bool)) (p : Pump) (g : bytes) : Prop :=
  match p_phase p with
  | PDone => (unfinished u ∧ ∃ rest, g = payload u ++ rest) ∨ finished_with u g
  | PEnding => finished_with u g
  | PSending n => unfinished u ∧ g = payload u ++ left_over n p ∧ 0 ≤ p_offset p ∧ 0 < n
  | PAwaitChunk => unfinished u ∧ g = payload u ++ mjoin (default [] (p_fixed p))
  | _ => unfinished u ∧ g = payload u ++ left_over 0 p ∧ 0 ≤ p_offset p
  end.

Lemma upload_ok_woken u p p' g : woken_from p p' → upload_ok u p g → upload_ok u p' g.
Proof.
  intros [->| ->]; [done|]. unfold upload_ok, wake_pump, left_over. cbn. by destruct (p_phase p).
Qed.

Record uploads_ok (c : Conn) (h : list bytes) : Prop := mkUploadsOk {
  ul_length : length h = length (pumps c);
  ul_pumps : ∀ i p, pumps c !! i = Some p →
    ∃ sid g, ids c !! p_ref p = Some sid ∧ sid < nextStreamId c ∧ h !! i = Some g ∧
      upload_ok (upload_of sid (datas (wire c))) p g;
  ul_distinct : ∀ i j p q sid, pumps c !! i = Some p → pumps c !! j = Some q →
    ids c !! p_ref p = Some sid → ids c !! p_ref q = Some sid → i = j;
  ul_owner : ∀ e, e ∈ datas (wire c) → ∃ i p, pumps c !! i = Some p ∧ ids c !! p_ref p = Some e.1;
}.

Lemma woken_ref p p' : woken_from p p' → p_ref p' = p_ref p.
Proof. by intros [->| ->]. Qed.

Lemma uploads_passive c c' h : passive c c' → uploads_ok c h → uploads_ok c' h.
Proof.
  intros [Hd Hp Hi Hn] [H1 H2 H3 H4].
  assert (∀ i p', pumps c' !! i = Some p' → ∃ p, pumps c !! i = Some p ∧ woken_from p p') as Hback.
  { intros i p' H. destruct (Forall2_lookup_r _ _ _ _ _ Hp H) as (p & ? & ?). by exists p. }
  assert (∀ r sid, ids c !! r = Some sid → ids c' !! r = Some sid) as Hids
    by (intros r sid E; by apply (prefix_lookup_Some _ _ _ _ E Hi)).
  assert (∀ i p, pumps c !! i = Some p → ∃ sid, ids c !! p_ref p = Some sid) as Hsome
    by (intros i p (sid & ? & ? & _)%H2; by exists sid).
  split.
  - by rewrite H1; apply Forall2_length in Hp.
  - intros i p' (p & Ep & Hw)%Hback. destruct (H2 i p Ep) as (sid & g & E1 & E2 & E3 & E4). exists sid, g.
    rewrite (woken_ref p p'), Hd by done. split_and!; auto; [lia|]. by apply (upload_ok_woken _ p).
  - intros i j p' q' sid (p & Ep & Hw)%Hback (q & Eq & Hw')%Hback.
    rewrite (woken_ref p p'), (woken_ref q q') by done. intros E1 E2.
    destruct (Hsome i p Ep) as [s1 Es1], (Hsome j q Eq) as [s2 Es2].
    pose proof (Hids _ _ Es1) as F1. pose proof (Hids _ _ Es2) as F2. rewrite E1 in F1. rewrite E2 in F2.
    injection F1 as <-. injection F2 as <-. by apply (H3 i j p q sid).
  - intros e. rewrite Hd. intros (i & p & Ep & Ei)%H4.
    destruct (Forall2_lookup_l _ _ _ _ _ Hp Ep) as (p' & Ep' & Hw). exists i, p'. split; [done|].
    rewrite (woken_ref p p') by done. by apply Hids.
Qed.

(** Pump [i] moves on, writing [new] for its stream and having been given [g'] in all. *)
Lemma uploads_pump c c' h i p p' sid g' new :
  uploads_ok c h → pumps c !! i = Some p → ids c !! p_ref p = Some sid →
  p_ref p' = p_ref p → pumps c' = <[i := p']> (pumps c) → ids c' = ids c → nextStreamId c' = nextStreamId c →
  datas (wire c') = datas (wire c) ++ map (pair sid) new →
  upload_ok (upload_of sid (datas (wire c)) ++ new) p' g' →
  uploads_ok c' (<[i := g']> h).
Proof.
  intros [H1 H2 H3 H4] Hp Hsid Hr Ep Ei En Ed Hok.
  pose proof (lookup_lt_Some _ _ _ Hp) as Hlt.
  assert (∀ j q, pumps c' !! j = Some q → ∃ q0, pumps c !! j = Some q0 ∧ p_ref q = p_ref q0 ∧
    (j = i ∧ q = p' ∨ j ≠ i ∧ q = q0)) as Hback.
  { intros j q. rewrite Ep. destruct (decide (j = i)) as [->|Hj].
    - rewrite list_lookup_insert_eq by done. intros [= <-]. exists p. split_and!; [done|done|by left].
    - rewrite list_lookup_insert_ne by done. intros Hq. exists q. split_and!; [done|done|by right]. }
  split.
  - by rewrite length_insert, Ep, length_insert.
  - intros j q Hq. destruct (Hback j q Hq) as (q0 & Eq0 & Er & [[-> ->]|[Hj ->]]).
    + exists sid, g'. rewrite Hr, Ei, En, Ed, upload_of_app, upload_of_own. split_and!; [done| | |done].
      * destruct (H2 i p Hp) as (sid' & g & E1 & E2 & _). congruence.
      * apply list_lookup_insert_eq. lia.
    + destruct (H2 j q0 Eq0) as (sid' & g & E1 & E2 & E3 & E4). exists sid', g.
      rewrite Ei, En, Ed, upload_of_app. split_and!; [done|done|by rewrite list_lookup_insert_ne|].
      rewrite upload_of_other, app_nil_r; [done|]. intros <-. by destruct Hj, (H3 j i q0 p sid).
  - intros j k q q' s (q0 & Eq0 & -> & _)%Hback (q0' & Eq0' & -> & _)%Hback. rewrite Ei. by apply H3.
  - intros e. rewrite Ed, Ei, Ep. intros [He|He]%elem_of_app.
    + destruct (H4 e He) as (j & q & Eq & Eid). destruct (decide (j = i)) as [->|Hj].
      * exists i, p'. rewrite list_lookup_insert_eq by done. split; [done|]. rewrite Hr. congruence.
      * exists j, q. by rewrite list_lookup_insert_ne.
    + apply list_elem_of_fmap in He as (x & -> & _). exists i, p'.
      rewrite list_lookup_insert_eq by done. split; [done|]. by rewrite Hr.
Qed.

(** *** The steps of a pump *)

Section pump.
Context (c : Conn) (h : list bytes) (i : nat) (p : Pump) (s : H2Stream) (g : bytes).
Context (Hok : uploads_ok c h) (Hp : pumps c !! i = Some p) (Hs : objs c !! p_ref p = Some s) (Hg : h !! i = Some g).

Abbreviation u := (upload_of (id s) (datas (wire c))).

Lemma pump_id : ids c !! p_ref p = Some (id s).
Proof. unfold ids. by rewrite list_lookup_fmap, Hs. Qed.

Lemma pump_upload : upload_ok u p g.
Proof.
  destruct (ul_pumps c h Hok i p Hp) as (sid & g' & E1 & _ & E2 & H).
  rewrite pump_id in E1. injection E1 as <-. rewrite Hg in E2. by injection E2 as <-.
Qed.

(** A state in which only pump [i] and windows differ, after at most one more frame. *)
Lemma pump_moves c' p' g' new :
  p_ref p' = p_ref p → pumps c' = <[i := p']> (pumps c) → ids c' = ids c → nextStreamId c' = nextStreamId c →
  datas (wire c') = datas (wire c) ++ map (pair (id s)) new → upload_ok (u ++ new) p' g' →
  uploads_ok c' (<[i := g']> h).
Proof. intros. apply (uploads_pump c c' h i p p' (id s) g' new); try done. apply pump_id. Qed.

Lemma pump_stays c' p' g' :
  p_ref p' = p_ref p → pumps c' = <[i := p']> (pumps c) → ids c' = ids c → nextStreamId c' = nextStreamId c →
  wire c' = wire c → upload_ok u p' g' → uploads_ok c' (<[i := g']> h).
Proof.
  intros. apply (pump_moves c' p' g' []); [done..| |by rewrite app_nil_r].
  cbn [map]. by rewrite app_nil_r; f_equal.
Qed.

Lemma stopped_done g' rest p' :
  p_ref p' = p_ref p → unfinished u → g' = payload u ++ rest →
  uploads_ok (set_pump i (pump_at p' PDone) c) (<[i := g']> h).
Proof. intros Hr Hu ->. apply (pump_stays _ (pump_at p' PDone)); try done. cbn. left. split; [done|]. by exists rest. Qed.

Lemma top_ok p' g' :
  p_ref p' = p_ref p → 0 ≤ p_offset p' → unfinished u → g' = payload u ++ left_over 0 p' →
  uploads_ok (pump_top i p' s c) (<[i := g']> h).
Proof.
  intros Hr Ho Hu Eg. unfold pump_top. destruct (Z.ltb_spec (p_offset p') (zlen (p_chunk p'))).
  - destruct (pump_stopped s c); [by apply (stopped_done _ (left_over 0 p'))|].
    destruct (sw_waitPositive i (connSendWindow c)) as [w now].
    apply (pump_stays _ (pump_at p' (if now : bool then PConnOk else PWaitConn))); try done. by destruct now.
  - apply (pump_stays _ (pump_at p' PAwaitChunk)); try done. cbn. split; [done|]. rewrite Eg. f_equal.
    unfold left_over. rewrite drop_ge; [done|]. unfold zlen in *. lia.
Qed.

Lemma send_datas f : closedFlag c = false → datas (wire (send f c)) = datas (wire c) ++ datas [Tx f].
Proof. intros Hc. unfold send. rewrite Hc. cbn [wire set_wire]. apply datas_app. Qed.

Lemma not_stopped : pump_stopped s c = false → closedFlag c = false.
Proof. unfold pump_stopped. by intros [? _]%orb_false_iff. Qed.

Lemma end_ok : unfinished u → g = payload u → uploads_ok (pump_end i p s c) (<[i := g]> h).
Proof.
  intros Hu Eg. unfold pump_end. destruct (pump_stopped s c) eqn:Est; cbn [orb].
  { apply (stopped_done _ []); [done|done|]. by rewrite app_nil_r. }
  destruct (negb _). { apply (stopped_done _ []); [done|done|]. by rewrite app_nil_r. }
  apply not_stopped in Est. apply (pump_moves _ (pump_at p PEnding) g [([], true)]).
  - done.
  - unfold set_pump, send. by rewrite Est.
  - unfold ids, set_pump. cbn [objs set_pumps]. by rewrite send_objs.
  - unfold set_pump, send. by rewrite Est.
  - unfold set_pump. cbn [wire set_pumps]. by rewrite send_datas.
  - cbn. exists u. split_and!; try done. 
Qed.

Lemma grant_ok :
  unfinished u → g = payload u ++ left_over 0 p → 0 ≤ p_offset p → uploads_ok (pump_grant i p s c) (<[i := g]> h).
Proof.
  intros Hu Eg Ho. unfold pump_grant. destruct (pump_stopped s c) eqn:Est; [by apply (stopped_done _ (left_over 0 p))|].
  set (grant := Z.min _ _). destruct (Z.leb_spec grant 0); [by apply top_ok|].
  apply not_stopped in Est. set (slice := subarray _ _ _).
  assert (ids (with_obj (p_ref p) (set_sendWindow (sw_consume grant (sendWindow s)))
    (set_connSendWindow (sw_consume grant (connSendWindow c)) c)) = ids c) as Hids by (by rewrite ids_with_obj).
  apply (pump_moves _ (pump_at p (PSending grant)) g [(slice, false)]).
  - done.
  - unfold set_pump, send. cbn [closedFlag with_obj set_objs set_connSendWindow]. by rewrite Est.
  - unfold ids, set_pump in *. cbn [objs set_pumps]. by rewrite send_objs.
  - unfold set_pump, send. cbn [closedFlag with_obj set_objs set_connSendWindow]. by rewrite Est.
  - unfold set_pump, send. cbn [closedFlag with_obj set_objs set_connSendWindow wire set_pumps]. rewrite Est.
    cbn [wire set_wire]. by rewrite datas_app.
  - cbn. split_and!; [apply Forall_app_2; [done|by constructor]| |done|lia].
    rewrite payload_snoc, <- app_assoc, Eg. f_equal. unfold left_over. cbn [p_offset p_chunk p_fixed pump_at].
    rewrite app_assoc. f_equal. unfold slice. rewrite subarray_in by lia.
    replace (p_offset p + grant - p_offset p) with grant by lia.
    replace (Z.to_nat (p_offset p + 0)) with (Z.to_nat (p_offset p)) by lia.
    replace (Z.to_nat (p_offset p + grant)) with (Z.to_nat (p_offset p) + Z.to_nat grant)%nat by lia.
    rewrite <- drop_drop. by rewrite take_drop.
Qed.
End pump.

(** *** What a pump is given *)

(** The bytes handed to each pump so far: all of a body that is there at once, and of a
    [ReadableStream] the chunks its reader has delivered. *)
Definition handed (cfg : Config) (ev : Event) (c : Conn) (h : list bytes) : list bytes :=
  match ev with
  | EvPump i (Some chunk) =>
      match pumps c !! i with
      | Some p => match p_phase p, p_fixed p with
                  | PAwaitChunk, None => alter (λ g, g ++ chunk) i h
                  | _, _ => h
                  end
      | None => h
      end
  | EvRequest _ init _ =>
      if Nat.ltb (length (pumps c)) (length (pumps (step cfg ev c)))
      then h ++ [mjoin (default [] (fixed_chunks (i_body init)))] else h
  | _ => h
  end.

Inductive uploading (o : ConnectOptions) (cfg : Config) : Conn → list bytes → Prop :=
| uploading_new c : connection_new o = Ok (cfg, c) → uploading o cfg c []
| uploading_step c h ev : uploading o cfg c h → uploading o cfg (step cfg ev c) (handed cfg ev c h).

Lemma insert_same (h : list bytes) i g : h !! i = Some g → <[i := g]> h = h.
Proof. apply list_insert_id. Qed.

(** The last DATA frame is written: this side is closed. *)
Lemma finish_ok c h i p s g :
  uploads_ok c h → pumps c !! i = Some p → objs c !! p_ref p = Some s → h !! i = Some g → p_phase p = PEnding →
  uploads_ok
    (set_pump i (pump_at p PDone)
      (retireIfFullyClosed (id s)
        (with_obj (p_ref p) (λ s, set_localClosed (set_state halfClosedLocal s)) c))) (<[i := g]> h).
Proof.
  intros Hok Hp Hs Hg Eph.
  set (c1 := retireIfFullyClosed _ _). assert (passive c c1) as Hpass.
  { unfold c1. etransitivity; [|apply touch_retire]. passive. }
  pose proof (uploads_passive _ _ _ Hpass Hok) as Hok1.
  destruct (Forall2_lookup_l _ _ _ _ _ (pa_pumps _ _ Hpass) Hp) as (p1 & Hp1 & Hw).
  destruct (ul_pumps c1 h Hok1 i p1 Hp1) as (sid1 & g1 & Hsid1 & _ & Hg1 & Hu1).
  rewrite Hg in Hg1. injection Hg1 as <-.
  apply (uploads_pump c1 _ h i p1 (pump_at p PDone) sid1 g []); try done.
  - by rewrite (woken_ref p p1).
  - by rewrite app_nil_r.
  - rewrite app_nil_r. cbn. right. destruct Hw as [->| ->]; unfold upload_ok in Hu1; cbn in Hu1; by rewrite Eph in Hu1.
Qed.

Lemma uploads_pump_step cfg i d c h : uploads_ok c h → uploads_ok (pump_step i d c) (handed cfg (EvPump i d) c h).
Proof.
  intros Hok. unfold pump_step. destruct (pumps c !! i) as [p|] eqn:Hp.
  2: { replace (handed cfg (EvPump i d) c h) with h; [done|]. cbn. rewrite Hp. by destruct d. }
  destruct (ul_pumps c h Hok i p Hp) as (sid & g & Hsid & _ & Hg & _).
  destruct (objs c !! p_ref p) as [s|] eqn:Hs.
  2: { unfold ids in Hsid. rewrite list_lookup_fmap, Hs in Hsid. done. }
  pose proof (pump_upload c h i p s g Hok Hp Hs Hg) as Hu. unfold upload_ok in Hu.
  assert (p_phase p ≠ PAwaitChunk → handed cfg (EvPump i d) c h = h) as Hsame.
  { intros Hne. cbn. rewrite Hp. destruct d; [|done]. by destruct (p_phase p). }
  destruct (p_phase p) as [| | | | |grant| |] eqn:Eph; try rewrite Hsame by done; try done.
  - destruct Hu as [Hu Eg]. unfold pump_next. destruct (p_fixed p) as [[|chunk rest]|] eqn:Ef.
    + replace (handed cfg (EvPump i d) c h) with (<[i := g]> h)
        by (cbn; rewrite Hp, Eph, Ef, insert_same by done; by destruct d).
      apply (end_ok c h i p s g Hok Hp Hs); [done|]. by rewrite Eg; cbn; rewrite app_nil_r.
    + replace (handed cfg (EvPump i d) c h) with (<[i := g]> h)
        by (cbn; rewrite Hp, Eph, Ef, insert_same by done; by destruct d).
      by apply (top_ok c h i p s Hok Hp Hs).
    + cbn in Eg. rewrite app_nil_r in Eg.
      destruct d as [chunk|]; cbn [handed]; rewrite ?Hp, ?Eph, ?Ef.
      * assert (alter (λ g, g ++ chunk) i h = <[i := g ++ chunk]> h) as Ea.
        { apply list_eq. intros j. destruct (decide (i = j)) as [<-|Hj].
          - rewrite list_lookup_alter_eq, Hg, list_lookup_insert_eq; [done|]. by apply lookup_lt_Some in Hg.
          - by rewrite list_lookup_alter_ne, list_lookup_insert_ne. }
        rewrite Ea. destruct chunk as [|b chunk].
        { by rewrite app_nil_r, insert_same. }
        apply (top_ok c h i p s Hok Hp Hs); [done|done|done|]. unfold left_over. cbn. by rewrite Eg, app_nil_r.
      * rewrite <- (insert_same h i g Hg). by apply (end_ok c h i p s g Hok Hp Hs).
  - destruct (sw_waitPositive i (sendWindow s)) as [w now]. rewrite <- (insert_same h i g Hg).
    apply (pump_stays c h i p s Hok Hp Hs _ (pump_at p (if now : bool then PStreamOk else PWaitStream))); try done.
    + unfold set_pump, ids. cbn [objs set_pumps]. by apply ids_with_obj.
    + by destruct now.
  - destruct Hu as (Hu & Eg & Ho). rewrite <- (insert_same h i g Hg). by apply (grant_ok c h i p s g Hok Hp Hs).
  - destruct Hu as (Hu & Eg & Ho & Hgr). rewrite <- (insert_same h i g Hg).
    apply (top_ok c h i p s Hok Hp Hs); try done; [cbn; lia|]. rewrite Eg. unfold left_over. cbn.
    by rewrite Z.add_0_r.
  - rewrite <- (insert_same h i g Hg). by apply (finish_ok c h i p s g Hok Hp Hs).
Qed.

Lemma uploads_throws i e c h : uploads_ok c h → uploads_ok (pump_throws i e c) h.
Proof.
  intros Hok. unfold pump_throws. destruct (pumps c !! i) as [p|] eqn:Hp; [|done].
  destruct (ul_pumps c h Hok i p Hp) as (sid & g & Hsid & _ & Hg & Hu). unfold upload_ok in Hu.
  assert (upload_ok (upload_of sid (datas (wire c))) (pump_at p PDone) g →
    uploads_ok (pump_failed (p_ref p) e (set_pump i (pump_at p PDone) c)) h) as H.
  { intros Hd. apply (uploads_passive _ _ _ (touch_pump_failed _ _ _ I)). rewrite <- (insert_same h i g Hg).
    apply (uploads_pump c _ h i p (pump_at p PDone) sid g []); try done; by rewrite ?app_nil_r. }
  destruct (p_phase p) as [| | | | |n| |] eqn:Eph; try done; apply H; cbn.
  - left. destruct Hu as [Hu ->]. split; [done|]. by eexists.
  - left. destruct Hu as (Hu & -> & _). split; [done|]. by eexists.
  - by right.
Qed.

(** A new pump. *)
Lemma uploads_add c h r sid fixed :
  uploads_ok c h → ids c !! r = Some sid → sid < nextStreamId c →
  (∀ i p, pumps c !! i = Some p → ids c !! p_ref p ≠ Some sid) →
  uploads_ok (set_pumps (pumps c ++ [mkPump r fixed [] 0 PAwaitChunk]) c) (h ++ [mjoin (default [] fixed)]).
Proof.
  intros [H1 H2 H3 H4] Hr Hlt Hnew.
  assert (upload_of sid (datas (wire c)) = []) as Hnone.
  { assert (∀ e, e ∈ datas (wire c) → e.1 ≠ sid) as Hno.
    { intros e He E. destruct (H4 e He) as (i & p & Hp & Hid). apply (Hnew i p Hp). by rewrite Hid, E. }
    clear -Hno. induction (datas (wire c)) as [|e l IH]; [done|]. cbn.
    rewrite decide_False by (apply Hno; by left). apply IH. intros e' He'. apply Hno. by right. }
  assert (∀ i p, (pumps c ++ [mkPump r fixed [] 0 PAwaitChunk]) !! i = Some p →
    pumps c !! i = Some p ∨ i = length (pumps c) ∧ p = mkPump r fixed [] 0 PAwaitChunk) as Hback.
  { intros i p [?|[? Hi]]%lookup_app_Some; [by left|]. right. apply list_lookup_singleton_Some in Hi as [? <-].
    split; [lia|done]. }
  split; cbn [pumps set_pumps wire nextStreamId].
  - by rewrite !length_app, H1.
  - intros i p [Hp|[-> ->]]%Hback.
    + destruct (H2 i p Hp) as (sid' & g & E1 & E2 & E3 & E4). exists sid', g. split_and!; try done.
      by apply lookup_app_l_Some.
    + exists sid, (mjoin (default [] fixed)). split_and!; [done|done| |].
      * by rewrite lookup_app_r, H1, Nat.sub_diag by lia.
      * rewrite Hnone. by split; [constructor|].
  - intros i j p q s [Hp|[-> ->]]%Hback [Hq|[-> ->]]%Hback E1 E2; [by apply (H3 i j p q s)|..|done].
    + cbn in E2. change (ids c !! r = Some s) in E2. rewrite Hr in E2. injection E2 as <-. by destruct (Hnew i p Hp).
    + cbn in E1. change (ids c !! r = Some s) in E1. rewrite Hr in E1. injection E1 as <-. by destruct (Hnew j q Hq).
  - intros e (i & p & Hp & Hid)%H4. exists i, p. split; [by apply lookup_app_l_Some|done].
Qed.

(** The part of [open_stream] before the pump is started. *)
Lemma passive_open cfg init c :
  let r := length (objs c) in
  let s := stream_new (nextStreamId c) (r_initialWindowSize (remote c)) open (localInitialWindow cfg) in
  let c1 := set_streams (map_set (streams c) (nextStreamId c) r)
    (set_objs (objs c ++ [s]) (set_nextStreamId (nextStreamId c + 2) c)) in
  let hasBody := negb (bodyIsEmpty (i_body init)) in
  let c2 := with_obj r (set_state (if hasBody then open else halfClosedLocal))
    (sendHeaders (nextStreamId c) (buildRequestHeaders init) (negb hasBody) c1) in
  passive c c2 ∧ pumps c2 = pumps c1 ∧ ids c2 !! r = Some (nextStreamId c) ∧ nextStreamId c2 = nextStreamId c + 2 ∧
  ids c2 = ids c ++ [nextStreamId c].
Proof.
  intros r s c1 hasBody c2.
  assert (∀ block fuel max off d, pumps (send_continuations fuel (nextStreamId c) block max off d) = pumps d ∧
    objs (send_continuations fuel (nextStreamId c) block max off d) = objs d ∧
    nextStreamId (send_continuations fuel (nextStreamId c) block max off d) = nextStreamId d) as Hcont.
  { intros block fuel max. induction fuel as [|n IH]; intros off d; cbn [send_continuations]; [done|].
    destruct (off <? zlen block); [|done]. set (d' := send _ d).
    assert (pumps d' = pumps d ∧ objs d' = objs d ∧ nextStreamId d' = nextStreamId d) as (<- & <- & <-)
      by (unfold d', send; by destruct (closedFlag d)). apply IH. }
  set (c3 := sendHeaders _ _ _ c1) in c2.
  assert (pumps c3 = pumps c1 ∧ objs c3 = objs c1 ∧ nextStreamId c3 = nextStreamId c1) as (E1 & E2 & E3).
  { unfold c3, sendHeaders, send_block. destruct (_ <=? _).
    - unfold send. by destruct (closedFlag c1).
    - match goal with |- context [send_continuations ?n ?i ?b ?m ?o ?d] =>
        destruct (Hcont b n m o d) as (-> & -> & ->) end. unfold send. by destruct (closedFlag c1). }
  assert (ids c2 = ids c ++ [nextStreamId c]) as Hids.
  { unfold c2. rewrite ids_with_obj by done. unfold ids. rewrite E2. cbn [c1 objs set_streams set_objs].
    by rewrite map_app. }
  split_and!; try done.
  - apply (touch_open cfg init c).
  - rewrite Hids. rewrite lookup_app_r by (unfold r, ids; by rewrite length_map).
    unfold r, ids. by rewrite length_map, Nat.sub_diag.
Qed.

Lemma uploads_request cfg t init ab c h :
  uploads_ok c h → uploads_ok (step cfg (EvRequest t init ab) c) (handed cfg (EvRequest t init ab) c h).
Proof.
  intros Hok. unfold handed. cbn [step]. unfold request_resume.
  destruct (request_check ab c) as [e|]; [by rewrite Nat.ltb_irrefl|].
  destruct (canOpenStream c); cbn [fst].
  2: { cbn [pumps set_streamSlotWaiters]. rewrite Nat.ltb_irrefl. by apply (uploads_passive c); [passive|]. }
  destruct (passive_open cfg init c) as (Hpass & Hpumps & Hr & Hn & Hids). cbv zeta in *.
  unfold open_stream. cbv zeta. cbn [fst].
  set (c2 := with_obj _ (set_state _) _) in *.
  pose proof (uploads_passive _ _ _ Hpass Hok) as Hok2. destruct (negb (bodyIsEmpty (i_body init))).
  - change (pumps (set_pumps ?x _)) with x.
    rewrite (proj2 (Nat.ltb_lt _ _)) by (rewrite length_app, Hpumps; cbn; lia).
    apply (uploads_add c2 h _ (nextStreamId c)); [done|done|lia|].
    intros i p Hp Hid. destruct (Forall2_lookup_r _ _ _ _ _ (pa_pumps _ _ Hpass) Hp) as (p0 & Hp0 & Hw).
    destruct (ul_pumps c h Hok i p0 Hp0) as (sid & g & Hs0 & Hlt & _).
    rewrite (woken_ref p0 p) in Hid by done.
    pose proof (prefix_lookup_Some _ _ _ _ Hs0 (pa_ids _ _ Hpass)) as Hs2. rewrite Hid in Hs2.
    injection Hs2 as <-. lia.
  - change (pumps (with_obj _ _ c2)) with (pumps c2). rewrite Hpumps.
    change (pumps (set_streams _ _)) with (pumps c). rewrite Nat.ltb_irrefl.
    apply (uploads_passive c2); [|done]. passive.
Qed.

Lemma uploads_step cfg ev c h : uploads_ok c h → uploads_ok (step cfg ev c) (handed cfg ev c h).
Proof.
  intros Hok. destruct (pump_event ev) eqn:Hev.
  - destruct ev; try discriminate; [by apply uploads_request|by apply uploads_pump_step|by apply uploads_throws].
  - assert (handed cfg ev c h = h) as -> by (by destruct ev).
    apply (uploads_passive c); [by apply touch_step|done].
Qed.

Lemma uploading_ok o cfg c h : uploading o cfg c h → uploads_ok c h.
Proof.
  induction 1 as [c H|c h ev _ IH]; [|by apply uploads_step]. unfold connection_new in H.
  destruct (_ || _); [done|]. cbv zeta in H. injection H as _ <-.
  set (c0 := mkConn _ _ _ _ _ _ _ _ _ _ _ _ _ _ _ _ _ _ _ _ _).
  assert (uploads_ok c0 []) as H0.
  { split; [done|by intros [|i] p H|by intros [|i] j p q s H|]. intros e H. by apply not_elem_of_nil in H. }
  apply (uploads_passive c0); [|done]. destruct (_ <? _); passive.
Qed.

Lemma upload_shape u p g :
  upload_ok u p g → (∃ rest, g = payload u ++ rest) ∧ (unfinished u ∨ finished_with u g).
Proof.
  intros Hu. assert (∀ u g, finished_with u g → ∃ rest : bytes, g = payload u ++ rest) as Hfin.
  { intros u' g' (us' & -> & _ & <-). exists []. by rewrite payload_snoc, !app_nil_r. }
  unfold upload_ok in Hu. split.
  - destruct (p_phase p); try (destruct Hu as (_ & -> & _); by eexists).
    + destruct Hu as [_ ->]. by eexists.
    + by apply Hfin.
    + destruct Hu as [[_ ?]|Hu]; [done|by apply Hfin].
  - destruct (p_phase p); try (left; apply Hu); [by right|].
    destruct Hu as [[? _]|?]; [by left|by right].
Qed.

(** C3: request bodies arrive unchanged.  In every state the connection can reach, the DATA
    frames that were written on the stream of a request carry, in order, a prefix of what the
    application gave as that request's body; END_STREAM is set at most once, on a last, empty
    frame, and only when everything was written - so a truncated body never looks complete; no
    two bodies share a stream, and no DATA is written for anything else.  This holds whatever
    windows, frame sizes, settings, cancellations and errors the pumps meet. *)
Theorem uploads_intact o cfg c h :
  uploading o cfg c h →
  (∀ i p, pumps c !! i = Some p → ∃ s g,
     objs c !! p_ref p = Some s ∧ h !! i = Some g ∧
     let u := upload_of (id s) (datas (wire c)) in
     (∃ rest, g = payload u ++ rest) ∧ (unfinished u ∨ finished_with u g) ∧
     (∀ j q t, pumps c !! j = Some q → objs c !! p_ref q = Some t → id t = id s → j = i)) ∧
  (∀ e, e ∈ datas (wire c) → ∃ i p s, pumps c !! i = Some p ∧ objs c !! p_ref p = Some s ∧ id s = e.1).
Proof.
  intros [H1 H2 H3 H4]%uploading_ok.
  assert (∀ r sid, ids c !! r = Some sid → ∃ s, objs c !! r = Some s ∧ id s = sid) as Hobj.
  { intros r sid. unfold ids. rewrite list_lookup_fmap. destruct (objs c !! r) as [s|]; [|done].
    intros [= <-]. by exists s. }
  assert (∀ r s, objs c !! r = Some s → ids c !! r = Some (id s)) as Hid
    by (intros r s E; unfold ids; by rewrite list_lookup_fmap, E).
  split.
  - intros i p Hp. destruct (H2 i p Hp) as (sid & g & Hs & _ & Hg & Hu).
    destruct (Hobj _ _ Hs) as (s & Es & <-). exists s, g. cbv zeta.
    destruct (upload_shape _ p g Hu) as [Hpre Hfin]. split_and!; try done.
    + intros j q t Hq Et E. apply (H3 j i q p (id s)); [done|done|by rewrite <- E; apply Hid|done].
  - intros e (i & p & Hp & Hs)%H4. destruct (Hobj _ _ Hs) as (s & Es & E). by exists i, p, s.
Qed.

(** *** Witness: the body of [Demo] was written in full. *)
Fixpoint handed_all (cfg : Config) (evs : list Event) (c : Conn) (h : list bytes) : Conn * list bytes :=
  match evs with
  | [] => (c, h)
  | ev :: evs' => handed_all cfg evs' (step cfg ev c) (handed cfg ev c h)
  end.

Lemma uploading_all o cfg evs c h :
  uploading o cfg c h → uploading o cfg (handed_all cfg evs c h).1 (handed_all cfg evs c h).2.
Proof.
  revert c h. induction evs as [|ev evs IH]; intros c h H; [done|]. apply (IH (step cfg ev c)). by constructor.
Qed.

Lemma demo_uploading :
  uploading Demo.options Demo.cfg (handed_all Demo.cfg Demo.events Demo.start []).1
    (handed_all Demo.cfg Demo.events Demo.start []).2.
Proof. apply uploading_all, uploading_new, Demo.start_eq. Qed.

Lemma uploads_intact_witness :
  let c := (handed_all Demo.cfg Demo.events Demo.start []).1 in
  upload_of 1 (datas (wire c)) = [([1; 2; 3], false); ([], true)] ∧
  (∀ e, e ∈ datas (wire c) → ∃ i p s, pumps c !! i = Some p ∧ objs c !! p_ref p = Some s ∧ id s = e.1).
Proof.
  cbv zeta. split; [vm_compute; reflexivity|].
  apply (uploads_intact Demo.options Demo.cfg _ (handed_all Demo.cfg Demo.events Demo.start []).2 demo_uploading).
Defined.
