(* ===== verification/Waiting.v ===== *)
(** * Waiting: an upload waits only for credit, and ends when it has it

    The pumps that wait for a send window ([waitPositive] of [h2/flow.ts], awaited by [pumpBody]
    of [h2/connection.ts]) over every state of the event loop, and what a pump does with
    enough credit. *)
From S2P Require Import Prelude Errors Text Bytes Frames HpackTables Huffman Hpack Flow Stream.
From S2P Require Import Connection ConnectionInv ConnectionSteps ConnectionCorrect Footprint Uploads.
Local Open Scope Z_scope.

#[local] Opaque HUFFMAN_CODES ROOT STATIC_TABLE staticPairToIndex staticNameToIndex hd_decode
  he_encode.

(** ** Waking *)

Definition waits_for (ph : PumpPhase) : bool :=
  match ph with PWaitConn | PWaitStream => true | _ => false end.

(** A pump between the windows has bytes of its chunk left. *)
Definition in_chunk (p : Pump) : Prop :=
  match p_phase p with
  | PWaitConn | PConnOk | PWaitStream | PStreamOk => p_offset p < zlen (p_chunk p)
  | _ => True
  end.

Lemma wake_pump_phase p : waits_for (p_phase (wake_pump p)) = false.
Proof. unfold wake_pump. cbn. by destruct (p_phase p). Qed.

Lemma lookup_wake l i c :
  pumps (wake_pumps l c) !! i = (if decide (i ∈ l) then wake_pump <$> pumps c !! i else pumps c !! i).
Proof.
  unfold wake_pumps. cbn [pumps set_pumps]. generalize (pumps c) as ps.
  induction l as [|j l IH]; intros ps; cbn [fold_left].
  { rewrite decide_False; [done|apply not_elem_of_nil]. }
  rewrite IH. destruct (decide (i = j)) as [->|Hij].
  - rewrite list_lookup_alter_eq, (decide_True (P := j ∈ j :: l)) by (by left).
    destruct (decide (j ∈ l)); [|done]. destruct (ps !! j) as [p|]; [|done]. cbn. by rewrite wake_twice.
  - rewrite list_lookup_alter_ne by done. by destruct (decide (i ∈ l)), (decide (i ∈ j :: l)); set_solver.
Qed.

(** A pump that waits after a wake-up was not woken. *)
Lemma still_waits l i c p :
  pumps (wake_pumps l c) !! i = Some p → waits_for (p_phase p) = true →
  pumps c !! i = Some p ∧ i ∉ l.
Proof.
  rewrite lookup_wake. destruct (decide (i ∈ l)); [|done].
  intros (p0 & _ & ->)%fmap_Some Hw. by rewrite wake_pump_phase in Hw.
Qed.
Lemma woken_pump l i c p :
  pumps (wake_pumps l c) !! i = Some p →
  ∃ p0, pumps c !! i = Some p0 ∧ p_ref p0 = p_ref p ∧ (in_chunk p0 → in_chunk p).
Proof.
  rewrite lookup_wake. destruct (decide (i ∈ l)); [|by exists p].
  intros (p0 & Hp & ->)%fmap_Some. exists p0. split_and!; [done..|].
  unfold in_chunk, wake_pump. cbn. by destruct (p_phase p0).
Qed.

(** What adding credit and closing do to the waiters. *)
Lemma sw_add_waiters n w :
  (waiters (fst (sw_add n w)) = [] ∧ snd (sw_add n w) = waiters w) ∨
  (waiters (fst (sw_add n w)) = waiters w ∧ snd (sw_add n w) = []).
Proof.
  unfold sw_add. destruct (0 <? _); [|by right]. unfold sw_wake. cbn. destruct (waiters w); cbn; by left.
Qed.
Lemma sw_add_ok n w : window_ok w → window_ok (fst (sw_add n w)).
Proof.
  intros Hw. pose proof (window_op_ok (WUpdate n) w eq_refl Hw) as H. cbn [window_op] in H.
  unfold sw_update in H. destruct (sw_add n w). by destruct H.
Qed.
Lemma sw_close_spec w :
  waiters (fst (sw_close w)) = [] ∧ snd (sw_close w) = waiters w ∧ sw_closed (fst (sw_close w)) = true.
Proof. unfold sw_close, sw_wake. cbn. by destruct (waiters w). Qed.

Lemma nobody_waits w : waiters w = [] → window_ok w.
Proof. unfold window_ok. by intros ->. Qed.

(** ** The invariant *)

Record waits_ok (c : Conn) : Prop := mkWaitsOk {
  wo_conn i p : pumps c !! i = Some p → p_phase p = PWaitConn → i ∈ waiters (connSendWindow c);
  wo_stream i p s : pumps c !! i = Some p → p_phase p = PWaitStream → objs c !! p_ref p = Some s →
    i ∈ waiters (sendWindow s);
  wo_conn_ok : window_ok (connSendWindow c);
  wo_obj_ok r s : objs c !! r = Some s → window_ok (sendWindow s);
  wo_ref i p : pumps c !! i = Some p → (p_ref p < length (objs c))%nat;
  wo_closed : closedFlag c = true → sw_closed (connSendWindow c) = true;
  wo_sized : sized c;
  wo_chunk i p : pumps c !! i = Some p → in_chunk p;
}.

Definition keeps (c c' : Conn) : Prop := waits_ok c → waits_ok c'.

#[export] Instance keeps_preorder : PreOrder keeps.
Proof. split; [intros c H; exact H|intros c1 c2 c3 H1 H2 H; by apply H2, H1]. Qed.

(** Replacing an object, together with the wake-ups it causes. *)
Lemma keeps_obj r s s' l c :
  objs c !! r = Some s → window_ok (sendWindow s') →
  (waiters (sendWindow s') = [] ∧ l = waiters (sendWindow s) ∨
   waiters (sendWindow s') = waiters (sendWindow s) ∧ l = []) →
  keeps c (wake_pumps l (with_obj r (λ _, s') c)).
Proof.
  intros Hr Hok Hl [H1 H2 H3 H4 H5 H6 H7 H8]. split; try done.
  - intros i p Hp Hph. apply still_waits in Hp as [Hp _]; [|by rewrite Hph]. by apply (H1 i p).
  - intros i p s0 Hp Hph Hs. apply still_waits in Hp as [Hp Hi]; [|by rewrite Hph]. cbn in Hs.
    destruct (decide (p_ref p = r)) as [<-|Hne].
    + rewrite list_lookup_alter_eq, Hr in Hs. injection Hs as <-.
      pose proof (H2 i p s Hp Hph Hr) as Hin. destruct Hl as [[_ ->]|[-> _]]; [by destruct Hi|done].
    + rewrite list_lookup_alter_ne in Hs by done. by apply (H2 i p).
  - intros r' s0 Hs. cbn in Hs. destruct (decide (r' = r)) as [->|Hne].
    + rewrite list_lookup_alter_eq, Hr in Hs. by injection Hs as <-.
    + rewrite list_lookup_alter_ne in Hs by done. by apply (H4 r').
  - intros i p Hp. apply woken_pump in Hp as (p0 & Hp & <- & _). cbn. rewrite length_alter. by apply (H5 i).
  - intros i p Hp. apply woken_pump in Hp as (p0 & Hp & _ & Hin). by apply Hin, (H8 i).
Qed.

(** The same for the window of the connection. *)
Lemma keeps_conn w l c c' :
  objs c' = objs c → pumps c' = pumps c → connSendWindow c' = w → sized c' →
  window_ok w → (closedFlag c' = true → sw_closed w = true) →
  (waiters w = [] ∧ l = waiters (connSendWindow c) ∨ waiters w = waiters (connSendWindow c) ∧ l = []) →
  keeps c (wake_pumps l c').
Proof.
  intros Eo Ep Ew Hs Hok Hcl Hl [H1 H2 H3 H4 H5 H6 H7 H8]. split.
  - intros i p Hp Hph. apply still_waits in Hp as [Hp Hi]; [|by rewrite Hph]. rewrite Ep in Hp.
    pose proof (H1 i p Hp Hph) as Hin. cbn. rewrite Ew. destruct Hl as [[_ ->]|[-> _]]; [by destruct Hi|done].
  - intros i p s Hp Hph. apply still_waits in Hp as [Hp _]; [|by rewrite Hph]. rewrite Ep in Hp. cbn. rewrite Eo.
    by apply H2.
  - cbn. by rewrite Ew.
  - intros r s. cbn. rewrite Eo. apply H4.
  - intros i p Hp. apply woken_pump in Hp as (p0 & Hp & <- & _). rewrite Ep in Hp. cbn. rewrite Eo. by apply (H5 i).
  - cbn. by rewrite Ew.
  - exact Hs.
  - intros i p Hp. apply woken_pump in Hp as (p0 & Hp & _ & Hin). rewrite Ep in Hp. by apply Hin, (H8 i).
Qed.

Lemma keeps_same c c' :
  objs c' = objs c → pumps c' = pumps c → connSendWindow c' = connSendWindow c →
  (closedFlag c' = true → closedFlag c = true) → (sized c → sized c') → keeps c c'.
Proof.
  intros E1 E2 E3 E4 E5 []. split; rewrite ?E1, ?E2, ?E3; auto.
Qed.

Lemma fail_window e s :
  sendWindow (fst (fail e s)) = fst (sw_close (sendWindow s)) ∧ snd (fail e s) = snd (sw_close (sendWindow s)).
Proof.
  assert (∀ s', sendWindow (match recvError s' with None => set_recvError e s' | Some _ => s' end) = sendWindow s')
    as H by (intros s'; by destruct (recvError s')).
  unfold fail. replace (sendWindow (set_state closed (abort_stopped e s))) with (sendWindow s)
    by (unfold abort_stopped; by destruct (stopped s)).
  destruct (sw_close (sendWindow s)) as [w l]. split; [|done]. cbn [fst wakeRecv set_recvNotify sendWindow].
  rewrite H. by destruct (negb _).
Qed.

#[export] Instance keeps_footprint : Footprint (λ _, True) keeps.
Proof.
  split.
  - apply _.
  - intros c c' Ho Hp Hw Hc _ _ Hs. apply keeps_same; try done. by rewrite Hc.
  - intros f c. by apply keeps_same.
  - intros f c _. unfold send. destruct (closedFlag c); [done|]. by apply keeps_same.
  - intros r f c Hf. destruct (objs c !! r) as [s|] eqn:Hr.
    + pose proof (tame_window _ _ (Hf s eq_refl)) as Hw. intros Hc.
      unfold with_obj. rewrite (alter_known f _ _ _ Hr).
      apply (keeps_obj r s (f s) [] c); [done|rewrite Hw; by apply (wo_obj_ok c Hc r)|right; by rewrite Hw|done].
    + apply keeps_same; try done. by apply alter_none.
  - intros r s n c Hs Hc.
    assert (with_obj r (set_sendWindow (fst (sw_add n (sendWindow s)))) c =
      with_obj r (λ _, set_sendWindow (fst (sw_add n (sendWindow s))) s) c) as ->.
    { unfold with_obj. f_equal. by apply alter_known. }
    apply (keeps_obj r s); [done|apply sw_add_ok, (wo_obj_ok c Hc r s Hs)|apply sw_add_waiters|done].
  - intros n c Hc. apply (keeps_conn (fst (sw_add n (connSendWindow c))) _ c); try done.
    + apply Hc.
    + apply sw_add_ok, Hc.
    + intros Hcl. unfold sw_add. pose proof (wo_closed c Hc Hcl) as Hw. destruct (0 <? _); [|done].
      unfold sw_wake. cbn. by destruct (waiters _).
    + apply sw_add_waiters.
  - done.
  - intros e r c _ Hc. unfold fail_stream. destruct (objs c !! r) as [s|] eqn:Hs; [|done].
    pose proof (fail_window e s) as [Ew El]. pose proof (sw_close_spec (sendWindow s)) as (E1 & E2 & _).
    destruct (fail e s) as [s' l]. cbn [fst snd] in *. subst l.
    apply (keeps_obj r s); [done|apply nobody_waits; by rewrite Ew|left; by rewrite Ew|done].
  - intros e c Hc. destruct (sw_close_spec (connSendWindow c)) as (E1 & E2 & E3).
    apply (keeps_conn (fst (sw_close (connSendWindow c))) _ c); try done; [apply Hc|by left].
  - intros s c c' Hs _ Ho Hp Hw Hc _ _ Hsz [H1 H2 H3 H4 H5 H6 H7 H8].
    split; rewrite ?Ho, ?Hp, ?Hw, ?Hc; auto.
    + intros i p s0 Hi Hph Hr. rewrite lookup_app_l in Hr by (by apply (H5 i)). by apply (H2 i p).
    + intros r s0 Hr. apply lookup_app_Some in Hr as [Hr|[_ Hr]]; [by apply (H4 r)|].
      apply list_lookup_singleton_Some in Hr as [_ <-]. by apply nobody_waits.
    + intros i p Hi. rewrite length_app. cbn. pose proof (H5 i p Hi). lia.
Qed.

(** ** Pumps *)

Lemma waits_set_pump i p c :
  waits_ok c → (p_ref p < length (objs c))%nat → in_chunk p →
  (p_phase p = PWaitConn → i ∈ waiters (connSendWindow c)) →
  (∀ s, p_phase p = PWaitStream → objs c !! p_ref p = Some s → i ∈ waiters (sendWindow s)) →
  waits_ok (set_pump i p c).
Proof.
  intros [H1 H2 H3 H4 H5 H6 H7 H8] Hr Hin Hc Hs.
  assert (∀ j q, pumps (set_pump i p c) !! j = Some q → (j = i ∧ q = p) ∨ pumps c !! j = Some q) as Hl.
  { intros j q Hq. cbn in Hq. destruct (decide (j = i)) as [->|Hne].
    - apply list_lookup_insert_Some in Hq as [(_ & <- & _)|[? _]]; [by left|done].
    - rewrite list_lookup_insert_ne in Hq by done. by right. }
  split; try done.
  - intros j q [[-> ->]|Hq]%Hl Hph; [by apply Hc|by apply (H1 j q)].
  - intros j q s [[-> ->]|Hq]%Hl Hph Ho; [by apply Hs|by apply (H2 j q)].
  - intros j q [[_ ->]|Hq]%Hl; [done|by apply (H5 j)].
  - intros j q [[_ ->]|Hq]%Hl; [done|by apply (H8 j)].
Qed.

(** A pump outside its windows. *)
Definition outside (ph : PumpPhase) : bool :=
  match ph with PAwaitChunk | PSending _ | PEnding | PDone => true | _ => false end.

Lemma waits_quiet_pump i p c :
  waits_ok c → (p_ref p < length (objs c))%nat → outside (p_phase p) = true → waits_ok (set_pump i p c).
Proof.
  intros H Hr Hp. apply waits_set_pump; [done|done| |intros E; by rewrite E in Hp|intros s E; by rewrite E in Hp].
  unfold in_chunk. by destruct (p_phase p).
Qed.

(** A window that changes only by a new waiter or by a grant that was within it. *)
Lemma waits_conn_window w c :
  waits_ok c → window_ok w → (∀ i, i ∈ waiters (connSendWindow c) → i ∈ waiters w) →
  (closedFlag c = true → sw_closed w = true) → waits_ok (set_connSendWindow w c).
Proof. intros [H1 H2 H3 H4 H5 H6 H7 H8] Hw Hi Hc. split; try done. intros i p Hp Hph. by apply Hi, (H1 i p). Qed.

Lemma waits_obj_window r s w c :
  waits_ok c → objs c !! r = Some s → window_ok w →
  (∀ i, i ∈ waiters (sendWindow s) → i ∈ waiters w) → waits_ok (with_obj r (set_sendWindow w) c).
Proof.
  intros [H1 H2 H3 H4 H5 H6 H7 H8] Hs Hw Hi.
  assert (∀ r' s', objs (with_obj r (set_sendWindow w) c) !! r' = Some s' →
    (r' = r ∧ sendWindow s' = w) ∨ objs c !! r' = Some s') as Hl.
  { intros r' s' Hr. cbn in Hr. destruct (decide (r' = r)) as [->|Hne].
    - rewrite list_lookup_alter_eq, Hs in Hr. injection Hr as <-. by left.
    - rewrite list_lookup_alter_ne in Hr by done. by right. }
  split; try done.
  - intros i p s' Hp Hph [[E ->]|Ho]%Hl; [|by apply (H2 i p)]. by apply Hi, (H2 i p); [..|rewrite E].
  - intros r' s' [[_ ->]|Ho]%Hl; [done|by apply (H4 r')].
  - intros i p Hp. cbn. rewrite length_alter. by apply (H5 i).
Qed.

Lemma wait_positive_spec i w :
  window_ok w →
  let '(w', now) := sw_waitPositive i w in
  window_ok w' ∧ (∀ j, j ∈ waiters w → j ∈ waiters w') ∧ sw_closed w' = sw_closed w ∧
  available w' = available w ∧ (now = false → i ∈ waiters w').
Proof.
  intros Hw. unfold sw_waitPositive. destruct (_ || _) eqn:E; [by split_and!|].
  apply orb_false_iff in E as [E1%Z.ltb_ge E2]. split_and!; try done; cbn; set_solver.
Qed.

Lemma consume_ok n w : 0 ≤ n → window_ok w → window_ok (sw_consume n w).
Proof. unfold window_ok. cbn. intros Hn H Hw. destruct (H Hw). split; [lia|done]. Qed.

Lemma waits_top i p s c :
  waits_ok c → (p_ref p < length (objs c))%nat → waits_ok (pump_top i p s c).
Proof.
  intros Hc Hr. unfold pump_top. destruct (Z.ltb_spec (p_offset p) (zlen (p_chunk p))); [|by apply waits_quiet_pump].
  destruct (pump_stopped s c); [by apply waits_quiet_pump|].
  pose proof (wait_positive_spec i (connSendWindow c) (wo_conn_ok c Hc)) as Hpos.
  destruct (sw_waitPositive _ _) as [w now]. destruct Hpos as (Hw & Hi & Hcl & _ & Hnow).
  apply waits_set_pump; try done.
  - apply waits_conn_window; try done. rewrite Hcl. apply Hc.
  - unfold in_chunk. cbn. by destruct now.
  - cbn. by destruct now; [|intros _; apply Hnow].
  - cbn. intros s'. by destruct now.
Qed.

Lemma waits_end i p s c :
  waits_ok c → (p_ref p < length (objs c))%nat → waits_ok (pump_end i p s c).
Proof.
  intros Hc Hr. unfold pump_end. destruct (_ || _); [by apply waits_quiet_pump|].
  apply waits_quiet_pump; [|by rewrite send_objs|done]. unfold send. destruct (closedFlag c) eqn:E; [done|].
  by apply (keeps_same c).
Qed.

Lemma waits_grant i p s c :
  waits_ok c → objs c !! p_ref p = Some s → waits_ok (pump_grant i p s c).
Proof.
  intros Hc Hs. assert (p_ref p < length (objs c))%nat as Hr by (by eapply lookup_lt_Some).
  unfold pump_grant. destruct (pump_stopped s c); [by apply waits_quiet_pump|].
  destruct (Z.leb_spec (Z.min (Z.min (Z.min (zlen (p_chunk p) - p_offset p) (available (connSendWindow c)))
    (available (sendWindow s))) (r_maxFrameSize (remote c))) 0) as [|Hg]; [by apply waits_top|].
  set (grant := Z.min _ _) in *.
  set (c1 := set_connSendWindow (sw_consume grant (connSendWindow c)) c).
  assert (waits_ok c1) as H1 by (apply waits_conn_window; [done|apply consume_ok; [lia|apply Hc]|done|apply Hc]).
  set (c2 := with_obj (p_ref p) (set_sendWindow (sw_consume grant (sendWindow s))) c1).
  assert (waits_ok c2) as H2.
  { apply (waits_obj_window _ s); [done|done| |done]. apply consume_ok; [lia|]. by apply (wo_obj_ok c Hc (p_ref p)). }
  assert (length (objs c2) = length (objs c)) as El by (cbn; by rewrite length_alter).
  apply waits_quiet_pump; [|by rewrite send_objs, El|done].
  unfold send. destruct (closedFlag c2); [done|]. by apply (keeps_same c2).
Qed.

Lemma waits_pump_step i d c : waits_ok c → waits_ok (pump_step i d c).
Proof.
  intros Hc. unfold pump_step. destruct (pumps c !! i) as [p|] eqn:Hp; [|done].
  destruct (objs c !! p_ref p) as [s|] eqn:Hs; [|done].
  assert (p_ref p < length (objs c))%nat as Hr by (by eapply lookup_lt_Some).
  destruct (p_phase p) eqn:Hph; try done.
  - unfold pump_next. destruct (p_fixed p) as [[|chunk rest]|]; [by apply waits_end|by apply waits_top|].
    destruct d as [[|x xs]|]; [done|by apply waits_top|by apply waits_end].
  - pose proof (wait_positive_spec i (sendWindow s) (wo_obj_ok c Hc _ _ Hs)) as H.
    destruct (sw_waitPositive _ _) as [w now]. destruct H as (Hw & Hi & _ & _ & Hnow).
    apply waits_set_pump.
    + by apply (waits_obj_window _ s).
    + cbn. by rewrite length_alter.
    + pose proof (wo_chunk c Hc i p Hp) as Hin. unfold in_chunk in *. rewrite Hph in Hin. cbn. by destruct now.
    + cbn. by destruct now.
    + intros s'. cbn. destruct now; [done|]. intros _ Ho. rewrite list_lookup_alter_eq, Hs in Ho.
      injection Ho as <-. by apply Hnow.
  - by apply waits_grant.
  - by apply waits_top.
  - set (c1 := with_obj (p_ref p) (λ s, set_localClosed (set_state halfClosedLocal s)) c).
    assert (keeps c (retireIfFullyClosed (id s) c1)) as Hk
      by (transitivity c1; [unfold c1; apply fp_obj; by intros s0 _|apply touch_retire]).
    apply waits_quiet_pump; [by apply Hk| |done].
    apply (Nat.lt_le_trans _ _ _ Hr). pose proof (touch_retire (R := passive) (id s) c1) as [_ _ Hids _].
    apply prefix_length in Hids. unfold ids in Hids. rewrite !length_map in Hids.
    change (objs c1) with (alter (λ s, set_localClosed (set_state halfClosedLocal s)) (p_ref p) (objs c)) in Hids.
    by rewrite length_alter in Hids.
Qed.

Lemma waits_step cfg ev c : waits_ok c → waits_ok (step cfg ev c).
Proof.
  intros Hc. destruct (pump_event ev) eqn:Hev; [|by apply (touch_step (R := keeps) cfg ev c Hev)].
  destruct ev as [| | |t init ab| | |i d|i e| | | | | |]; try discriminate; cbn [step].
  - unfold request_resume. destruct (request_check ab c); [done|].
    destruct (canOpenStream c); cbn [fst]; [|by apply (keeps_same c)].
    pose proof (touch_open (R := keeps) cfg init c Hc) as Ho.
    pose proof (passive_open cfg init c) as (_ & _ & Hids & _). cbv zeta in Ho, Hids.
    unfold open_stream. cbv zeta. cbn [fst]. set (c2 := with_obj _ (set_state _) _) in *.
    destruct (negb (bodyIsEmpty (i_body init))).
    + assert (length (objs c) < length (objs c2))%nat as Hl.
      { apply lookup_lt_Some in Hids. unfold ids in Hids. by rewrite length_map in Hids. }
      destruct Ho as [H1 H2 H3 H4 H5 H6 H7 H8].
      assert (∀ j q, pumps (set_pumps (pumps c2 ++ [mkPump (length (objs c)) (fixed_chunks (i_body init)) [] 0
        PAwaitChunk]) c2) !! j = Some q → pumps c2 !! j = Some q ∨
        (p_phase q = PAwaitChunk ∧ p_ref q = length (objs c))) as Hl2.
      { intros j q [Hq|[_ Hq]]%lookup_app_Some; [by left|].
        apply list_lookup_singleton_Some in Hq as [_ <-]. by right. }
      split; try done.
      * intros j q [Hq|[E _]]%Hl2 Hph; [by apply (H1 j q)|by rewrite E in Hph].
      * intros j q s [Hq|[E _]]%Hl2 Hph; [by apply (H2 j q)|by rewrite E in Hph].
      * intros j q [Hq|[_ ->]]%Hl2; [by apply (H5 j)|done].
      * intros j q [Hq|[E _]]%Hl2; [by apply (H8 j)|unfold in_chunk; by rewrite E].
    + by apply (fp_obj (R := keeps)).
  - by apply waits_pump_step.
  - unfold pump_throws. destruct (pumps c !! i) as [p|] eqn:Hp; [|done].
    assert (waits_ok (pump_failed (p_ref p) e (set_pump i (pump_at p PDone) c))) as H
      by (apply (touch_pump_failed (R := keeps) _ _ _ I), waits_quiet_pump; [done|exact (wo_ref c Hc i p Hp)|done]).
    by destruct (p_phase p).
Qed.

Lemma reachable_waits o cfg c : reachable o cfg c → waits_ok c.
Proof.
  induction 1 as [c H|c ev _ IH]; [|by apply waits_step]. unfold connection_new in H.
  destruct (_ || _); [done|]. cbv zeta in H. injection H as _ <-.
  set (c0 := mkConn _ _ _ _ _ _ _ _ _ _ _ _ _ _ _ _ _ _ _ _ _).
  assert (waits_ok c0) as H0 by (split; try done; unfold sized; cbn; lia).
  assert (∀ f c, waits_ok c → waits_ok (send f c)) as Hsend.
  { intros f c' Hc'. unfold send. destruct (closedFlag c'); [done|]. by apply (keeps_same c'). }
  destruct (0 <? _); auto.
Qed.

(** C22: uploads wait only for credit: in every reachable state a pump that is parked at the window
    of the connection waits on an open connection without credit, and one parked at the window of
    its stream waits on an open stream window without credit.  Every WINDOW_UPDATE, change of
    SETTINGS_INITIAL_WINDOW_SIZE, reset and teardown that would let it go on has woken it. *)
Theorem parked_uploads_blocked o cfg c i p :
  reachable o cfg c → pumps c !! i = Some p →
  (p_phase p = PWaitConn → closedFlag c = false ∧ available (connSendWindow c) = 0) ∧
  (p_phase p = PWaitStream →
     ∃ s, objs c !! p_ref p = Some s ∧ available (sendWindow s) ≤ 0 ∧ sw_closed (sendWindow s) = false).
Proof.
  intros Hr Hp. pose proof (reachable_waits o cfg c Hr) as Hc. split; intros Hph.
  - pose proof (wo_conn c Hc i p Hp Hph) as Hin.
    destruct (wo_conn_ok c Hc) as [Ha Hcl]; [intros E; rewrite E in Hin; by apply not_elem_of_nil in Hin|].
    destruct (reachable_inv _ _ _ Hr) as [[] _]. split; [|lia].
    destruct (closedFlag c) eqn:E; [|done]. pose proof (wo_closed c Hc E). congruence.
  - destruct (lookup_lt_is_Some_2 (objs c) (p_ref p)) as [s Hs]; [exact (wo_ref c Hc i p Hp)|].
    pose proof (wo_stream c Hc i p s Hp Hph Hs) as Hin. exists s. split; [done|].
    apply (wo_obj_ok c Hc _ _ Hs). intros E. rewrite E in Hin. by apply not_elem_of_nil in Hin.
Qed.

(** ** Progress *)

#[export] Instance PumpPhase_eq_dec : EqDecision PumpPhase.
Proof. solve_decision. Defined.

(** The bytes a pump has still to write, and the resumptions it takes at most. *)
Definition to_write (p : Pump) : bytes :=
  match p_phase p with
  | PAwaitChunk => mjoin (default [] (p_fixed p))
  | PSending n => left_over n p
  | PEnding | PDone => []
  | _ => left_over 0 p
  end.
Definition rounds (p : Pump) : nat :=
  let base := (3 * length (to_write p) + length (default [] (p_fixed p)))%nat in
  match p_phase p with
  | PDone => 0
  | PEnding => 1
  | PSending _ => 3 + base
  | PStreamOk => 1 + base
  | _ => 2 + base
  end.

(** Pump [i] works on a fixed body, on a live stream, with credit for all the rest. *)
Record fed (i : nat) (c : Conn) (p : Pump) (s : H2Stream) : Prop := mkFed {
  fe_pump : pumps c !! i = Some p;
  fe_obj : objs c !! p_ref p = Some s;
  fe_fixed : is_Some (p_fixed p);
  fe_open : pump_stopped s c = false;
  fe_live : is_Some (map_get (streams c) (id s));
  fe_conn : zlen (to_write p) ≤ available (connSendWindow c);
  fe_stream : zlen (to_write p) ≤ available (sendWindow s);
  fe_offset : 0 ≤ p_offset p ∨ p_phase p = PAwaitChunk ∨ p_phase p = PEnding;
  fe_grant n : p_phase p = PSending n → 0 < n;
}.

(** The result of a resumption: the pump is still fed, on the same stream, and nearer its end. *)
Definition advanced (i : nat) (c : Conn) (p : Pump) (s : H2Stream) (c' : Conn) : Prop :=
  ∃ p' s', fed i c' p' s' ∧ p_ref p' = p_ref p ∧ id s' = id s ∧ p_phase p' ≠ PDone ∧
    (rounds p' < rounds p)%nat.

Lemma left_over_end n p : zlen (p_chunk p) ≤ p_offset p + n → left_over n p = mjoin (default [] (p_fixed p)).
Proof. intros H. unfold left_over. rewrite drop_ge; [done|]. unfold zlen in H. lia. Qed.

Lemma left_over_length n p :
  0 ≤ p_offset p + n ≤ zlen (p_chunk p) →
  zlen (left_over n p) = zlen (p_chunk p) - (p_offset p + n) + zlen (mjoin (default [] (p_fixed p)) : bytes).
Proof. intros H. unfold left_over. rewrite zlen_app, zlen_drop, Z2Nat.id by lia. lia. Qed.

Lemma zlen_length {A} (l : list A) : zlen l = Z.of_nat (length l).
Proof. done. Qed.

Lemma live_open s c : pump_stopped s c = false → closedFlag c = false.
Proof. unfold pump_stopped. by intros [? _]%orb_false_iff. Qed.

(** [pump_top] on the chunk [p_chunk p], from [p_offset p]. *)
Lemma top_advances i p0 p s c :
  waits_ok c → pumps c !! i = Some p0 → p_ref p = p_ref p0 → objs c !! p_ref p = Some s →
  is_Some (p_fixed p) → pump_stopped s c = false → is_Some (map_get (streams c) (id s)) →
  0 ≤ p_offset p → zlen (left_over 0 p) ≤ available (connSendWindow c) →
  zlen (left_over 0 p) ≤ available (sendWindow s) →
  (2 + (3 * length (left_over 0 p) + length (default [] (p_fixed p))) < rounds p0)%nat →
  advanced i c p0 s (pump_top i p s c).
Proof.
  intros Hc Hp Hr Hs Hf Hst Hl Ho Hcw Hsw Hm. unfold pump_top. rewrite Hst.
  pose proof (lookup_lt_Some _ _ _ Hp) as Hlt.
  destruct (Z.ltb_spec (p_offset p) (zlen (p_chunk p))) as [Hin|Hout].
  - assert (0 < available (connSendWindow c)) as Hpos.
    { rewrite left_over_length in Hcw by lia. pose proof (zlen_nonneg (mjoin (default [] (p_fixed p)) : bytes)). lia. }
    unfold sw_waitPositive. rewrite (proj2 (Z.ltb_lt _ _) Hpos). cbn [orb].
    exists (pump_at p PConnOk), s. split_and!; try done.
    split; try done; [cbn; by apply list_lookup_insert_eq|by left].
  - rewrite left_over_end in Hcw, Hsw, Hm by lia.
    exists (pump_at p PAwaitChunk), s. split_and!; try done.
    split; try done; [cbn; by apply list_lookup_insert_eq|by right; left].
Qed.

Lemma left_over_at n p ph : left_over n (pump_at p ph) = left_over n p.
Proof. done. Qed.

(** What an upload in phase [ph] makes of its turn, when both windows have room for all of it. *)
Definition goes_on (ph : PumpPhase) : Prop := ∀ i c p s,
  waits_ok c → fed i c p s → p_phase p = ph → advanced i c p s (pump_step i None c).
Ltac take_turn Hph :=
  intros i c p s Hc Hf Hph; destruct Hf as [Hp Hs [rest Hfix] Hst Hl Hcw Hsw Ho Hg];
  unfold pump_step; rewrite Hp, Hs; pose proof (lookup_lt_Some _ _ _ Hp) as Hlt;
  pose proof (wo_chunk _ Hc i p Hp) as Hin; unfold in_chunk in Hin; unfold to_write in *;
  rewrite Hph in *.

Lemma chunk_advances : goes_on PAwaitChunk.
Proof.
  take_turn Hph.
  unfold pump_next. rewrite Hfix. destruct rest as [|chunk rest].
  - unfold pump_end. rewrite Hst. rewrite bool_decide_true by done. cbn [orb negb].
    unfold send. rewrite (live_open s c Hst).
    exists (pump_at p PEnding), s. split_and!; try done.
    + pose proof (zlen_nonneg (mjoin (default [] (p_fixed p)) : bytes)).
      split; try done; cbn; rewrite ?zlen_nil; [by apply list_lookup_insert_eq|lia|lia|by right; right].
    + unfold rounds. rewrite Hph. cbn. lia.
  - set (p1 := mkPump (p_ref p) (Some rest) chunk 0 PAwaitChunk).
    assert (left_over 0 p1 = chunk ++ mjoin rest) as El by done.
    assert (mjoin (default [] (p_fixed p)) = chunk ++ mjoin rest) as Er by (by rewrite Hfix).
    rewrite Er in *. apply top_advances with (p := p1); try done; rewrite ?El; [done..|].
    unfold rounds, to_write. rewrite Hph, Er, Hfix. cbn. lia.
Qed.
Lemma waits_conn_advances : goes_on PWaitConn.
Proof.
  take_turn Hph.
  exfalso. assert (0 ≤ p_offset p) as Hoff by (destruct Ho as [|[|]]; done).
  rewrite left_over_length in Hcw by lia. pose proof (zlen_nonneg (mjoin (default [] (p_fixed p)) : bytes)).
  destruct (wo_conn_ok c Hc); [|lia]. intros E. pose proof (wo_conn c Hc i p Hp Hph) as Hw.
  rewrite E in Hw. by apply not_elem_of_nil in Hw.
Qed.
Lemma conn_ok_advances : goes_on PConnOk.
Proof.
  take_turn Hph.
  assert (0 ≤ p_offset p) as Hoff by (destruct Ho as [|[|]]; done).
  rewrite left_over_length in Hsw, Hcw by lia. pose proof (zlen_nonneg (mjoin (default [] (p_fixed p)) : bytes)).
  unfold sw_waitPositive. rewrite (proj2 (Z.ltb_lt 0 (available (sendWindow s)))) by lia. cbn [orb].
  exists (pump_at p PStreamOk), (set_sendWindow (sendWindow s) s). split_and!; try done.
  - split; try done; try (by cbn; rewrite Hfix).
    + cbn. by apply list_lookup_insert_eq.
    + cbn. by rewrite list_lookup_alter_eq, Hs.
    + unfold to_write. cbn [p_phase pump_at]. rewrite left_over_length by (cbn; lia). by cbn; lia.
    + unfold to_write. cbn [p_phase pump_at]. rewrite left_over_length by (cbn; lia). by cbn; lia.
    + by left.
  - unfold rounds, to_write. rewrite Hph. cbn [p_phase p_fixed pump_at]. rewrite left_over_at. lia.
Qed.
Lemma waits_stream_advances : goes_on PWaitStream.
Proof.
  take_turn Hph.
  exfalso. assert (0 ≤ p_offset p) as Hoff by (destruct Ho as [|[|]]; done).
  rewrite left_over_length in Hsw by lia. pose proof (zlen_nonneg (mjoin (default [] (p_fixed p)) : bytes)).
  destruct (wo_obj_ok c Hc _ _ Hs); [|lia]. intros E. pose proof (wo_stream c Hc i p s Hp Hph Hs) as Hw.
  rewrite E in Hw. by apply not_elem_of_nil in Hw.
Qed.
Lemma stream_ok_advances : goes_on PStreamOk.
Proof.
  take_turn Hph.
  assert (0 ≤ p_offset p) as Hoff by (destruct Ho as [|[|]]; done).
  rewrite left_over_length in Hsw, Hcw by lia. pose proof (zlen_nonneg (mjoin (default [] (p_fixed p)) : bytes)).
  unfold pump_grant. rewrite Hst. set (grant := Z.min _ _). pose proof (wo_sized c Hc) as Hsz. unfold sized in Hsz.
  assert (0 < grant ≤ zlen (p_chunk p) - p_offset p) as Hgr by (unfold grant; lia).
  rewrite (proj2 (Z.leb_gt grant 0)) by lia.
  unfold send. cbn [closedFlag with_obj set_objs set_connSendWindow]. rewrite (live_open s c Hst).
  set (s' := set_sendWindow (sw_consume grant (sendWindow s)) s).
  exists (pump_at p (PSending grant)), s'. split_and!; try done.
  - split; try done; try (by cbn; rewrite Hfix).
    + cbn. by apply list_lookup_insert_eq.
    + cbn. by rewrite list_lookup_alter_eq, Hs.
    + unfold to_write. cbn [p_phase pump_at]. rewrite left_over_length by (cbn; lia). by cbn; lia.
    + unfold to_write. cbn [p_phase pump_at]. rewrite left_over_length by (cbn; lia). by cbn; lia.
    + by left.
    + cbn. intros ? [= <-]. lia.
  - assert (zlen (left_over grant p) + grant = zlen (left_over 0 p)) as Hdec by (rewrite !left_over_length; lia).
    rewrite !zlen_length in Hdec. unfold rounds, to_write. rewrite Hph. cbn [p_phase pump_at].
    rewrite left_over_at. cbn [p_fixed pump_at]. lia.
Qed.
Lemma sending_advances n : goes_on (PSending n).
Proof.
  take_turn Hph.
  assert (0 ≤ p_offset p) as Hoff by (destruct Ho as [|[|]]; done). pose proof (Hg n eq_refl) as Hn.
  set (p1 := mkPump (p_ref p) (p_fixed p) (p_chunk p) (p_offset p + n) PAwaitChunk).
  assert (left_over 0 p1 = left_over n p) as El by (unfold left_over; cbn; by rewrite Z.add_0_r).
  apply top_advances with (p := p1); try done; rewrite ?El; try done; [cbn; lia|].
  unfold rounds, to_write. rewrite Hph. cbn [p_fixed p1]. lia.
Qed.

Lemma pump_advances i c p s :
  waits_ok c → fed i c p s → p_phase p ≠ PEnding → p_phase p ≠ PDone →
  advanced i c p s (pump_step i None c).
Proof.
  intros Hc Hf He Hd. destruct (p_phase p) as [| | | | |n| |] eqn:Hph; try done;
    [apply chunk_advances|apply waits_conn_advances|apply conn_ok_advances|apply waits_stream_advances|
     apply stream_ok_advances|apply (sending_advances n)]; done.
Qed.

(** The end of an upload: the stream is closed on this side. *)
Lemma retire_obj sid c r s :
  objs c !! r = Some s →
  ∃ s', objs (retireIfFullyClosed sid c) !! r = Some s' ∧ id s' = id s ∧ localClosed s' = localClosed s.
Proof.
  intros Hs. unfold retireIfFullyClosed. destruct (get_stream sid c) as [[r' s1]|]; [|by exists s].
  destruct (_ && _); [|by exists s].
  destruct (wake_slots_fields (delete_stream sid (with_obj r' (set_state closed) c))) as (_ & -> & _).
  cbn. destruct (decide (r = r')) as [->|Hne].
  - rewrite list_lookup_alter_eq, Hs. by exists (set_state closed s).
  - rewrite list_lookup_alter_ne by done. by exists s.
Qed.

Lemma ending_step i c p s :
  pumps c !! i = Some p → objs c !! p_ref p = Some s → p_phase p = PEnding →
  ∃ p' s', pumps (pump_step i None c) !! i = Some p' ∧ p_phase p' = PDone ∧
    objs (pump_step i None c) !! p_ref p' = Some s' ∧ id s' = id s ∧ localClosed s' = true ∧
    datas (wire (pump_step i None c)) = datas (wire c).
Proof.
  intros Hp Hs Hph. unfold pump_step. rewrite Hp, Hs, Hph.
  set (c1 := with_obj (p_ref p) (λ s, set_localClosed (set_state halfClosedLocal s)) c).
  assert (objs c1 !! p_ref p = Some (set_localClosed (set_state halfClosedLocal s))) as H1
    by (cbn; by rewrite list_lookup_alter_eq, Hs).
  destruct (retire_obj (id s) c1 _ _ H1) as (s' & H2 & H3 & H4).
  pose proof (touch_retire (R := passive) (id s) c1) as [Hd Hpm _ _].
  destruct (Forall2_lookup_l _ _ _ _ _ Hpm Hp) as (p1 & Hp1 & _).
  exists (pump_at p PDone), s'. split_and!; try done.
  cbn. apply list_lookup_insert_eq. by eapply lookup_lt_Some.
Qed.

Lemma fed_finishes o cfg n i c h p s g :
  (rounds p ≤ n)%nat → uploading o cfg c h → reachable o cfg c → fed i c p s → p_phase p ≠ PDone → h !! i = Some g →
  ∃ k p' s', let c' := run cfg (repeat (EvPump i None) k) c in
    pumps c' !! i = Some p' ∧ p_phase p' = PDone ∧ objs c' !! p_ref p' = Some s' ∧ id s' = id s ∧
    localClosed s' = true ∧ finished_with (upload_of (id s) (datas (wire c'))) g.
Proof.
  revert c p s. induction n as [|n IH]; intros c p s Hn Hu Hr Hf Hd Hg.
  { exfalso. unfold rounds in Hn. destruct (p_phase p); try done; lia. }
  destruct (decide (p_phase p = PEnding)) as [He|He].
  - destruct (ending_step i c p s (fe_pump _ _ _ _ Hf) (fe_obj _ _ _ _ Hf) He) as (p' & s' & H1 & H2 & H3 & H4 & H5 & H6).
    exists 1%nat, p', s'. cbn [repeat run fold_left step]. split_and!; try done.
    change (wire (run cfg (repeat (EvPump i None) 1) c)) with (wire (pump_step i None c)). rewrite H6.
    pose proof (ul_pumps c h (uploading_ok _ _ _ _ Hu) i p (fe_pump _ _ _ _ Hf)) as (sid & g' & Hs & _ & Hg' & Ho).
    rewrite Hg in Hg'. injection Hg' as <-. unfold ids in Hs. rewrite list_lookup_fmap, (fe_obj _ _ _ _ Hf) in Hs.
    injection Hs as <-. unfold upload_ok in Ho. by rewrite He in Ho.
  - pose proof (pump_advances i c p s (reachable_waits _ _ _ Hr) Hf He Hd) as (p1 & s1 & Hf1 & Hr1 & Hid & Hd1 & Hlt).
    assert (uploading o cfg (step cfg (EvPump i None) c) h) as Hu1 by (by apply (uploading_step o cfg c h (EvPump i None))).
    destruct (IH (pump_step i None c) p1 s1) as (k & p' & s' & H1 & H2 & H3 & H4 & H5 & H6); try done; [lia|by apply (reach_step o cfg c (EvPump i None))|].
    exists (S k), p', s'. cbn [repeat]. rewrite Hid in H4, H6. done.
Qed.

Lemma uploading_reachable o cfg c h : uploading o cfg c h → reachable o cfg c.
Proof. induction 1; [by constructor|by apply reach_step]. Qed.

(** C5: with credit an upload completes.  Take any request whose body is a string or bytes, in
    any reachable state in which the connection is open and the stream live: once both send windows
    cover what is not yet written, finitely many resumptions of its pump - none of which ever
    parks - finish it: everything the application gave has been written on its stream, in order
    and followed by END_STREAM, and the stream is closed on this side. *)
Theorem upload_completes o cfg c h i p s g :
  uploading o cfg c h → pumps c !! i = Some p → objs c !! p_ref p = Some s → h !! i = Some g →
  is_Some (p_fixed p) → p_phase p ≠ PDone →
  closedFlag c = false → sw_closed (sendWindow s) = false → is_Some (map_get (streams c) (id s)) →
  zlen g - zlen (payload (upload_of (id s) (datas (wire c)))) ≤
    Z.min (available (connSendWindow c)) (available (sendWindow s)) →
  ∃ k p' s', let c' := run cfg (repeat (EvPump i None) k) c in
    pumps c' !! i = Some p' ∧ p_phase p' = PDone ∧ objs c' !! p_ref p' = Some s' ∧ id s' = id s ∧
    localClosed s' = true ∧ finished_with (upload_of (id s) (datas (wire c'))) g.
Proof.
  intros Hu Hp Hs Hg Hf Hd Hc Hw Hl Hn. pose proof (uploading_reachable _ _ _ _ Hu) as Hr.
  apply (fed_finishes o cfg (rounds p) i c h p s g); try done.
  pose proof (ul_pumps c h (uploading_ok _ _ _ _ Hu) i p Hp) as (sid & g' & Hi & _ & Hg' & Ho).
  rewrite Hg in Hg'. injection Hg' as <-. unfold ids in Hi. rewrite list_lookup_fmap, Hs in Hi. injection Hi as <-.
  assert (zlen g = zlen (payload (upload_of (id s) (datas (wire c)))) + zlen (to_write p) ∧
    (0 ≤ p_offset p ∨ p_phase p = PAwaitChunk ∨ p_phase p = PEnding) ∧ ∀ n, p_phase p = PSending n → 0 < n)
    as (Hz & Hoff & Hgr).
  { unfold upload_ok, to_write in *. destruct (p_phase p) as [| | | | |n| |]; try done;
      try (destruct Ho as (_ & -> & Ho); rewrite zlen_app; split_and!; [done|by left|done]).
    - destruct Ho as [_ ->]. rewrite zlen_app. split_and!; [done|by right; left|done].
    - destruct Ho as (_ & -> & Ho & Hn'). rewrite zlen_app. split_and!; [done|by left|by intros ? [= <-]].
    - destruct Ho as (us & -> & _ & <-). rewrite payload_snoc, app_nil_r, zlen_nil.
      split_and!; [lia|by right; right|done]. }
  split; try done; [|lia|lia]. unfold pump_stopped. by rewrite Hc, Hw.
Qed.

(** ** Witnesses: a window of two bytes under a body of three, and its update *)

Module Stalled.
Definition parked : list Event :=
  [ EvBytes (Demo.frame (SettingsFrame false (mkSettings None None None (Some 2) None None)));
    EvRequest 0 (Demo.get "/a" (BBytes [1; 2; 3])) None;
    EvPump 0 None; EvPump 0 None; EvPump 0 None; EvPump 0 None; EvPump 0 None ].
Definition fed : list Event := parked ++ [EvBytes (Demo.frame (WindowUpdateFrame 1 1))].
Definition at_window : Conn := run Demo.cfg parked Demo.start.
Definition pump : Pump := mkPump 0 (Some []) [1; 2; 3] 2 PWaitStream.
Lemma uploading_fed :
  uploading Demo.options Demo.cfg (handed_all Demo.cfg fed Demo.start []).1 (handed_all Demo.cfg fed Demo.start []).2.
Proof. apply uploading_all, uploading_new, Demo.start_eq. Qed.
End Stalled.

Lemma parked_uploads_blocked_witness :
  ∃ s, objs Stalled.at_window !! 0%nat = Some s ∧ available (sendWindow s) ≤ 0.
Proof.
  destruct (parked_uploads_blocked Demo.options Demo.cfg Stalled.at_window 0 Stalled.pump) as [_ H].
  - apply reachable_run. constructor. apply Demo.start_eq.
  - vm_compute. reflexivity.
  - destruct (H eq_refl) as (s & H1 & H2 & _). exists s. split; [exact H1|exact H2].
Defined.

Lemma upload_completes_witness :
  let c := (handed_all Demo.cfg Stalled.fed Demo.start []).1 in
  ∃ k, finished_with (upload_of 1 (datas (wire (run Demo.cfg (repeat (EvPump 0 None) k) c)))) [1; 2; 3].
Proof.
  cbv zeta. set (c := (handed_all Demo.cfg Stalled.fed Demo.start []).1).
  destruct (objs c !! 0%nat) as [s|] eqn:Hs; [|vm_compute in Hs; discriminate Hs].
  assert (id s = 1) as Hid by (vm_compute in Hs; injection Hs as <-; reflexivity).
  destruct (upload_completes Demo.options Demo.cfg c (handed_all Demo.cfg Stalled.fed Demo.start []).2 0
    (mkPump 0 (Some []) [1; 2; 3] 2 PStreamOk) s [1; 2; 3] Stalled.uploading_fed) as (k & p' & s' & H).
  - vm_compute. reflexivity.
  - exact Hs.
  - vm_compute. reflexivity.
  - eexists. reflexivity.
  - discriminate.
  - vm_compute. reflexivity.
  - vm_compute in Hs. injection Hs as <-. reflexivity.
  - rewrite Hid. eexists. vm_compute. reflexivity.
  - rewrite Hid. vm_compute in Hs. injection Hs as <-. vm_compute. discriminate.
  - exists k. cbv zeta in H. rewrite Hid in H. exact (proj2 (proj2 (proj2 (proj2 (proj2 H))))).
Defined.
