(* ===== verification/Downloads.v ===== *)
(** * Downloads: response bodies arrive intact

    What the consumer of a response body is given against the DATA frames the peer sent on that
    stream, over all interleavings of streams, reads, cancellations, resets and teardown: the
    counterpart of [Uploads], for connections without server push (as [channel.ts] opens them). *)
From Stdlib Require Import FinFun.
From S2P Require Import Prelude Errors Text Bytes Frames HpackTables Huffman Hpack Flow Stream.
From S2P Require Import Connection ConnectionInv ConnectionSteps ConnectionCorrect Footprint.
Local Open Scope Z_scope.

#[local] Opaque HUFFMAN_CODES ROOT STATIC_TABLE staticPairToIndex staticNameToIndex hd_decode
  he_encode.

(** ** The DATA frames that arrived *)

Definition arrived (sid : Z) (e : Wire) : option bytes :=
  match e with
  | Rx (DataFrame sid' data _ _) => if decide (sid' = sid) then Some data else None
  | _ => None
  end.
Definition received (sid : Z) (w : list Wire) : bytes := mjoin (omap (arrived sid) w).

(** A frame with END_STREAM. *)
Definition marks_end (sid : Z) (e : Wire) : bool :=
  match e with
  | Rx (DataFrame sid' _ _ true) | Rx (HeadersFrame sid' _ true _ _) => bool_decide (sid' = sid)
  | _ => false
  end.
Definition ended (sid : Z) (w : list Wire) : Prop := ∃ e, e ∈ w ∧ marks_end sid e = true.

(** The frame that opens a request. *)
Definition opens (sid : Z) (e : Wire) : bool :=
  match e with Tx (HeadersFrame sid' _ _ _ _) => bool_decide (sid' = sid) | _ => false end.

Lemma received_app sid a b : received sid (a ++ b) = received sid a ++ received sid b.
Proof. unfold received. by rewrite omap_app, join_app. Qed.
Lemma received_tx sid fs : received sid (map Tx fs) = [].
Proof. induction fs as [|f fs IH]; [done|]. exact IH. Qed.
Lemma ended_app sid a b : ended sid a → ended sid (a ++ b).
Proof. intros (e & He & H). exists e. split; [apply elem_of_app; by left|done]. Qed.

(** ** The body of one stream object *)

(** A parked read waits for something that has not come. *)
Definition reader_ok (s : H2Stream) : Prop :=
  recvNotify s = true → recvQueue s = [] ∧ recvEnded s = false ∧ recvError s = None.

Record same_body (s s' : H2Stream) : Prop := mkSameBody {
  sb_id : id s' = id s;
  sb_queue : recvQueue s' = recvQueue s;
  sb_controller : controller s' = controller s;
  sb_done : bodyDone s' = bodyDone s;
  sb_ended : recvEnded s' = recvEnded s;
  sb_error : recvError s' = None → recvError s = None;
  sb_remote : remoteClosed s = true → remoteClosed s' = true;
  sb_reader : reader_ok s → reader_ok s';
}.

#[export] Instance same_body_preorder : PreOrder same_body.
Proof.
  split; [by intros s; split|]. intros s1 s2 s3 [] []. split; try congruence; auto.
Qed.

(** Everything that arrived up to some moment, at which the peer had ended the stream. *)
Definition complete (sid : Z) (before mid : list Wire) (got : bytes) : Prop :=
  ∃ upto rest, mid = upto ++ rest ∧ got = received sid upto ∧ ended sid (before ++ upto).

(** [X]: bytes of this body were dropped, and the stream is about to be removed. *)
Definition body_ok (X live : Prop) (w : list Wire) (s : H2Stream) : Prop :=
  ∃ before e mid chunks fin,
    w = before ++ e :: mid ∧ opens (id s) e = true ∧ controller s = map Enqueue chunks ++ fin ∧
    mjoin chunks ++ mjoin (recvQueue s) `prefix_of` received (id s) mid ∧
    (recvEnded s = true → remoteClosed s = true) ∧ reader_ok s ∧
    ((fin = [] ∧ (bodyDone s = false → ¬ X →
        (recvEnded s = false → live → mjoin chunks ++ mjoin (recvQueue s) = received (id s) mid) ∧
        (recvEnded s = true → recvError s = None →
           complete (id s) before mid (mjoin chunks ++ mjoin (recvQueue s))))) ∨
     (fin = [CtlClose] ∧ bodyDone s = true ∧ recvQueue s = [] ∧ complete (id s) before mid (mjoin chunks)) ∨
     (∃ x, fin = [CtlError x] ∧ bodyDone s = true ∧ recvQueue s = [])).

Lemma complete_grow sid before mid w got : complete sid before mid got → complete sid before (mid ++ w) got.
Proof. intros (upto & rest & -> & H). exists upto, (rest ++ w). by rewrite <- app_assoc. Qed.

(** The wire grows by frames that carry nothing for this body, or that nobody counts on. *)
Lemma body_grow (X X' live live' : Prop) w w' s :
  (X → X') → (live' → live) → (received (id s) w' = [] ∨ X' ∨ ¬ live') →
  body_ok X live w s → body_ok X' live' (w ++ w') s.
Proof.
  intros HX Hl Hw (before & e & mid & chunks & fin & -> & Ho & Hc & Hp & He & Hrd & Hfin).
  exists before, e, (mid ++ w'), chunks, fin. rewrite <- app_assoc, received_app. split_and!; try done.
  - by apply prefix_app_r.
  - destruct Hfin as [[-> H]|[(-> & Hd & Hq & H)|(x & -> & H)]].
    + left. split; [done|]. intros Hd Hx. destruct (H Hd) as [H1 H2]; [tauto|]. split.
      * intros Hn Hlive. destruct Hw as [->|[?|?]]; [|done|done]. rewrite app_nil_r. by apply H1, Hl.
      * intros Hn Herr. by apply complete_grow, H2.
    + right. left. split_and!; [done..|]. by apply complete_grow.
    + right. right. by exists x.
Qed.

Lemma body_same X live w s s' : same_body s s' → body_ok X live w s → body_ok X live w s'.
Proof.
  intros [Ei Eq Ec Ed Ee Er Em Erd] (before & e & mid & chunks & fin & Hw & Ho & Hc & Hp & He & Hrd & Hfin).
  exists before, e, mid, chunks, fin. rewrite Ei, Eq, Ec, Ed, Ee. split_and!; try done; [auto|auto|].
  destruct Hfin as [[-> H]|H]; [left|by right]. split; [done|]. intros Hd Hx.
  destruct (H Hd Hx) as [H1 H2]. split; [done|]. auto.
Qed.

(** ** The connection *)

(** The object has failed, or the peer has ended its side. *)
Definition over (s : H2Stream) : Prop := recvError s ≠ None ∨ remoteClosed s = true.
Lemma same_over s s' : same_body s s' → over s → over s'.
Proof. intros [] [H|H]; [left|right]; auto. Qed.

Record downloads (X : nat → Prop) (c : Conn) : Prop := mkDownloads {
  dl_refs sid r : map_get (streams c) sid = Some r → ∃ s, objs c !! r = Some s ∧ id s = sid;
  dl_pending pb : pendingHeaderBlock c = Some pb → pb_endStream pb = true → ended (pb_streamId pb) (wire c);
  dl_closed : closedFlag c = true → ∀ sid, map_get (streams c) sid = None;
  dl_alive r s : objs c !! r = Some s → X r ∨ map_get (streams c) (id s) = Some r ∨ over s;
  dl_objs r s : objs c !! r = Some s → body_ok (X r) (map_get (streams c) (id s) = Some r) (wire c) s;
}.

Abbreviation intact := (downloads (λ _, False)).

(** *** Changes that leave bodies alone *)

Record quiet (c c' : Conn) : Prop := mkQuiet {
  qu_objs : Forall2 same_body (objs c) (objs c');
  qu_wire : ∃ fs, wire c' = wire c ++ map Tx fs;
  qu_streams sid r : map_get (streams c') sid = Some r → map_get (streams c) sid = Some r;
  qu_lost sid r s : map_get (streams c) sid = Some r → objs c' !! r = Some s →
    map_get (streams c') sid = Some r ∨ over s;
  qu_pending : pendingHeaderBlock c' = pendingHeaderBlock c ∨ pendingHeaderBlock c' = None;
  qu_closed : closedFlag c' = true → closedFlag c = true ∨ ∀ sid, map_get (streams c') sid = None;
}.

#[export] Instance quiet_preorder : PreOrder quiet.
Proof.
  split.
  - intros c. split; [reflexivity|exists []; by rewrite app_nil_r|done|by left|by left|by left].
  - intros c1 c2 c3 [O1 [f1 W1] S1 L1 P1 C1] [O2 [f2 W2] S2 L2 P2 C2]. split.
    + by etransitivity.
    + exists (f1 ++ f2). by rewrite W2, W1, map_app, app_assoc.
    + auto.
    + intros sid r s3 H1 H3. destruct (Forall2_lookup_r _ _ _ _ _ O2 H3) as (s2 & H2 & E).
      destruct (L1 _ _ _ H1 H2) as [H|H]; [by apply (L2 _ _ _ H)|right; by apply (same_over s2)].
    + destruct P2 as [->|]; [done|by right].
    + intros H. destruct (C2 H) as [H2|H2]; [|by right]. destruct (C1 H2) as [H1|H1]; [by left|].
      right. intros sid. destruct (map_get (streams c3) sid) as [r|] eqn:E; [|done].
      apply S2 in E. by rewrite H1 in E.
Qed.

Lemma downloads_quiet X c c' : quiet c c' → downloads X c → downloads X c'.
Proof.
  intros [Ho [fs Hw] Hs Hl Hp Hc] [D1 D2 D3 D5 D4]. split.
  - intros sid r H. apply Hs in H. destruct (D1 _ _ H) as (s & Hr & <-).
    destruct (Forall2_lookup_l _ _ _ _ _ Ho Hr) as (s' & Hr' & E). exists s'. split; [done|apply E].
  - intros pb H. destruct Hp as [Hp|Hp]; rewrite Hp in H; [|done]. intros Hb. rewrite Hw.
    by apply ended_app, D2.
  - intros H sid. destruct (Hc H) as [H1|H1]; [|done].
    destruct (map_get (streams c') sid) as [r|] eqn:E; [|done]. apply Hs in E. by rewrite D3 in E.
  - intros r s' Hr'. destruct (Forall2_lookup_r _ _ _ _ _ Ho Hr') as (s & Hr & E). rewrite (sb_id _ _ E).
    destruct (D5 r s Hr) as [?|[H|H]]; [by left| |right; right; by apply (same_over s)].
    destruct (Hl _ _ _ H Hr') as [?|?]; auto.
  - intros r s' Hr'. destruct (Forall2_lookup_r _ _ _ _ _ Ho Hr') as (s & Hr & E).
    apply (body_same _ _ _ s); [done|]. rewrite Hw, (sb_id _ _ E).
    apply (body_grow (X r) (X r) (map_get (streams c) (id s) = Some r)); [done|apply Hs|left; apply received_tx|].
    by apply D4.
Qed.

Lemma quiet_fields c c' :
  objs c' = objs c → wire c' = wire c → streams c' = streams c → closedFlag c' = closedFlag c →
  pendingHeaderBlock c' = pendingHeaderBlock c ∨ pendingHeaderBlock c' = None → quiet c c'.
Proof.
  intros E1 E2 E3 E4 E5. split; rewrite ?E1, ?E3, ?E4; [reflexivity| |done|by left|done|by left].
  exists []. by rewrite E2, app_nil_r.
Qed.
Lemma quiet_send f c : quiet c (send f c).
Proof.
  unfold send. destruct (closedFlag c) eqn:E; [reflexivity|].
  split; [reflexivity|by exists [f]|done|by left|by left|cbn; congruence].
Qed.
Lemma quiet_obj r f c : (∀ s, objs c !! r = Some s → same_body s (f s)) → quiet c (with_obj r f c).
Proof.
  intros H. split; [|exists []; by rewrite app_nil_r|done|by left|by left|by left].
  cbn [objs with_obj set_objs]. apply Forall2_same_length_lookup_2; [by rewrite length_alter|].
  intros i s s' Hs Hs'. destruct (decide (i = r)) as [->|Hne].
  - rewrite list_lookup_alter_eq, Hs in Hs'. injection Hs' as <-. by apply H.
  - rewrite list_lookup_alter_ne, Hs in Hs' by done. by injection Hs' as <-.
Qed.
Lemma quiet_delete sid c :
  (∀ r s, map_get (streams c) sid = Some r → objs c !! r = Some s → over s) → quiet c (delete_stream sid c).
Proof.
  intros H. split; [reflexivity|exists []; by rewrite app_nil_r| | |by left|by left];
    unfold delete_stream; cbn [streams objs set_streams].
  - intros sid' r. rewrite map_get_delete. by case_decide.
  - intros sid' r s Hg Hs. rewrite map_get_delete. case_decide as E; [right|by left]. apply (H r); [by rewrite E|done].
Qed.
Lemma quiet_put r s s' c : objs c !! r = Some s → same_body s s' → quiet c (with_obj r (λ _, s') c).
Proof. intros Hs H. apply quiet_obj. intros s0 H0. rewrite Hs in H0. by injection H0 as <-. Qed.

Lemma fail_same e s : same_body s (fst (fail e s)) ∧ recvError (fst (fail e s)) ≠ None.
Proof.
  unfold fail, abort_stopped. destruct (stopped s), (sw_close _) as [w l]; cbn;
    destruct (gotHead s); cbn; destruct (recvError s) eqn:E; cbn; rewrite ?E; (split; [by split|done]).
Qed.
Lemma quiet_fail e r c : quiet c (fail_stream e r c).
Proof.
  unfold fail_stream. destruct (objs c !! r) as [s|] eqn:Hs; [|reflexivity].
  pose proof (proj1 (fail_same e s)) as Hsame. destruct (fail e s) as [s' l]. cbn [fst] in Hsame.
  etransitivity; [by apply (quiet_put r s s')|]. by apply quiet_fields; try left.
Qed.

(** Peel quiet operations off the end of a state. *)
Ltac same_obj := intros ? _; first [by split | by repeat case_match; split].
Ltac quiet_op :=
  match goal with
  | |- quiet _ (send _ _) => etransitivity; [|apply quiet_send]
  | |- quiet _ (with_obj _ _ _) => etransitivity; [|apply quiet_obj; same_obj]
  | |- quiet _ (fail_stream _ _ _) => etransitivity; [|apply quiet_fail]
  | |- quiet _ (?f ?d) => etransitivity; [|by apply (quiet_fields d (f d)); try left]
  end.
Ltac quiet := cbn [fst snd modify]; repeat first [reflexivity | quiet_op].

Lemma quiet_close c : quiet c (close c).
Proof. unfold close. destruct (closedFlag c); quiet. Qed.
Lemma quiet_wake_slots c : quiet c (wakeStreamSlots c).
Proof.
  unfold wakeStreamSlots. set (c' := if _ && _ && _ then close c else c).
  assert (quiet c c') as H by (unfold c'; destruct (_ && _); [apply quiet_close|done]).
  destruct (streamSlotWaiters c'); [done|]. etransitivity; [exact H|]. quiet.
Qed.
Lemma quiet_replenish_conn n c : quiet c (replenishConnectionWindow n c).
Proof. unfold replenishConnectionWindow. destruct (_ || _); quiet. Qed.
Lemma quiet_replenish sid n c : quiet c (replenishRecvWindow sid n c).
Proof.
  unfold replenishRecvWindow. destruct (_ || _); [reflexivity|]. etransitivity; [|apply quiet_replenish_conn].
  destruct (get_stream sid c) as [[r s]|]; [|reflexivity]. destruct (remoteClosed s); quiet.
Qed.
Lemma quiet_retire sid c : quiet c (retireIfFullyClosed sid c).
Proof.
  unfold retireIfFullyClosed. destruct (get_stream sid c) as [[r s]|] eqn:Hg; [|reflexivity].
  destruct (localClosed s && remoteClosed s) eqn:E; [|reflexivity]. apply andb_true_iff in E as [_ Hr].
  etransitivity; [|apply quiet_wake_slots]. apply get_stream_Some in Hg as [Hg Hs].
  etransitivity; [|apply quiet_delete].
  - quiet.
  - intros r' s' Hg' Hs'. right. cbn in Hg', Hs'. assert (r' = r) as -> by congruence.
    rewrite list_lookup_alter_eq, Hs in Hs'. by injection Hs' as <-.
Qed.
Lemma quiet_fold {A} (f : Conn → A → Conn) l c : (∀ c a, quiet c (f c a)) → quiet c (fold_left f l c).
Proof.
  intros Hf. revert c. induction l as [|a l IH]; intros c; cbn [fold_left]; [reflexivity|].
  etransitivity; [apply Hf|apply IH].
Qed.

Lemma quiet_settings ack s c : quiet c (fst (on_settings ack s c)).
Proof.
  unfold on_settings. destruct ack; [reflexivity|]. unfold applyRemoteSettings, mbind, M_bind.
  assert (quiet c (fst (apply_initial_window (initialWindowSize s) c))) as H1.
  { unfold apply_initial_window. destruct (initialWindowSize s); [|reflexivity]. destruct (_ <? _); [reflexivity|].
    cbn [fst]. etransitivity; [|apply quiet_fold]; [quiet|]. intros c' [sid r]. unfold adjust_stream.
    destruct (objs c' !! r) as [s'|]; [|reflexivity]. destruct (sw_adjust _ _). quiet. }
  destruct (apply_initial_window _ c) as [c1 [u|e]]; [|done]. cbn [fst] in H1.
  assert (quiet c1 (fst (apply_max_frame_size (maxFrameSize s) c1))) as H2
    by (unfold apply_max_frame_size; destruct (maxFrameSize s); [destruct (_ || _)|]; quiet).
  destruct (apply_max_frame_size _ c1) as [c2 [u'|e]]; cbn [fst modify] in *; [|by etransitivity].
  transitivity c2; [by etransitivity|]. quiet_op. unfold apply_other_settings.
  destruct (maxConcurrentStreams s); [etransitivity; [|apply quiet_wake_slots]|]; quiet.
Qed.
Lemma quiet_ping ack opaque c : quiet c (on_ping ack opaque c).
Proof. unfold on_ping. destruct ack; [|quiet]. destruct (map_get _ _); quiet. Qed.

Lemma quiet_continuations fuel sid block max off c : quiet c (send_continuations fuel sid block max off c).
Proof.
  revert off c. induction fuel as [|n IH]; intros off c; cbn [send_continuations]; [reflexivity|].
  destruct (off <? zlen block); [|reflexivity]. etransitivity; [|apply IH]. quiet.
Qed.

(** *** Pumps only write *)

Lemma quiet_top i p s c : quiet c (pump_top i p s c).
Proof.
  unfold pump_top, set_pump. destruct (_ <? _); [|quiet]. destruct (pump_stopped s c); [quiet|].
  destruct (sw_waitPositive _ _). quiet.
Qed.
Lemma quiet_end i p s c : quiet c (pump_end i p s c).
Proof. unfold pump_end, set_pump. destruct (_ || _); quiet. Qed.
Lemma quiet_pump i d c : quiet c (pump_step i d c).
Proof.
  unfold pump_step. destruct (pumps c !! i) as [p|]; [|reflexivity].
  destruct (objs c !! p_ref p) as [s|]; [|reflexivity]. destruct (p_phase p); try reflexivity.
  - unfold pump_next. destruct (p_fixed p) as [[|ch rest]|]; [apply quiet_end|apply quiet_top|].
    destruct d as [[|b ch]|]; [reflexivity|apply quiet_top|apply quiet_end].
  - destruct (sw_waitPositive _ _). unfold set_pump. quiet.
  - unfold pump_grant, set_pump. destruct (pump_stopped s c); [quiet|]. destruct (_ <=? 0); [apply quiet_top|quiet].
  - apply quiet_top.
  - unfold set_pump. quiet_op. etransitivity; [|apply quiet_retire]. quiet.
Qed.

(** *** Streams that are removed *)

Lemma downloads_weaken (X X' : nat → Prop) c : (∀ r, X r → X' r) → downloads X c → downloads X' c.
Proof.
  intros HX [D1 D2 D3 D5 D4]. split; try done.
  { intros r s Hs. destruct (D5 r s Hs) as [?|?]; auto. }
  intros r s Hs. rewrite <- (app_nil_r (wire c)). apply (body_grow (X r) _ (map_get (streams c) (id s) = Some r)); [apply HX|done|by left|by apply D4].
Qed.

(** What was dropped does not matter once the stream has failed and is gone. *)
Lemma downloads_gone X c :
  (∀ r s, X r → objs c !! r = Some s → recvError s ≠ None ∧ map_get (streams c) (id s) ≠ Some r) →
  downloads X c → intact c.
Proof.
  intros HX [D1 D2 D3 D5 D4]. split; try done.
  { intros r s Hs. right. destruct (D5 r s Hs) as [Hx|H]; [|done]. right. left. by apply (HX r). }
  intros r s Hs. destruct (D4 r s Hs) as (before & e & mid & chunks & fin & Hw & Ho & Hc & Hp & He & Hrd & Hfin).
  exists before, e, mid, chunks, fin. split_and!; try done. destruct Hfin as [[-> H]|H]; [left|by right].
  split; [done|]. intros Hd _. split.
  - intros Hn Hl. apply (H Hd); [|done|done]. intros Hx. by destruct (HX r s Hx Hs).
  - intros Hn Herr. apply (H Hd); [|done|done]. intros Hx. by destruct (HX r s Hx Hs).
Qed.

(** One object replaced. *)
Lemma downloads_put X (Y : nat → Prop) r s f c :
  objs c !! r = Some s → id (f s) = id s → (∀ r', X r' → r' ≠ r → Y r') →
  (X r ∨ map_get (streams c) (id s) = Some r ∨ over s → Y r ∨ map_get (streams c) (id s) = Some r ∨ over (f s)) →
  body_ok (Y r) (map_get (streams c) (id s) = Some r) (wire c) (f s) →
  downloads X c → downloads Y (with_obj r f c).
Proof.
  intros Hs Hi HX HA Hok [D1 D2 D3 D5 D4]. split; [|exact D2|exact D3| |].
  - intros sid r' H. destruct (D1 _ _ H) as (s' & Hs' & <-). cbn. destruct (decide (r' = r)) as [->|Hne].
    + rewrite list_lookup_alter_eq, Hs'. rewrite Hs in Hs'. injection Hs' as <-. by exists (f s).
    + rewrite list_lookup_alter_ne by done. by exists s'.
  - intros r' s' Hs'. cbn in Hs' |- *. destruct (decide (r' = r)) as [->|Hne].
    + rewrite list_lookup_alter_eq, Hs in Hs'. injection Hs' as <-. rewrite Hi. by apply HA, D5.
    + rewrite list_lookup_alter_ne in Hs' by done. destruct (D5 r' s' Hs') as [Hx|H]; auto.
  - intros r' s' Hs'. cbn in Hs' |- *. destruct (decide (r' = r)) as [->|Hne].
    + rewrite list_lookup_alter_eq, Hs in Hs'. injection Hs' as <-. by rewrite Hi.
    + rewrite list_lookup_alter_ne in Hs' by done. rewrite <- (app_nil_r (wire c)).
      apply (body_grow (X r') _ (map_get (streams c) (id s') = Some r')); [by intros Hx; apply HX|done|by left|by apply D4].
Qed.

Lemma downloads_put_same X r f c :
  (∀ s, objs c !! r = Some s → id (f s) = id s ∧ (over s → over (f s))) →
  (∀ s, objs c !! r = Some s → body_ok (X r) (map_get (streams c) (id s) = Some r) (wire c) s →
     body_ok (X r) (map_get (streams c) (id s) = Some r) (wire c) (f s)) →
  downloads X c → downloads X (with_obj r f c).
Proof.
  intros Hi Hf Hd. destruct (objs c !! r) as [s|] eqn:Hs.
  - destruct (Hi s eq_refl). apply (downloads_put X X r s); [done..|tauto| |done]. apply Hf; [done|]. by apply (dl_objs _ _ Hd).
  - unfold with_obj. rewrite alter_none by done. by destruct c.
Qed.

(** Buffered chunks are dropped. *)
Lemma downloads_discard (X : nat → Prop) r s c :
  objs c !! r = Some s → downloads X c → downloads (λ r', X r' ∨ r' = r) (discard_stream r s c).
Proof.
  intros Hs Hd. unfold discard_stream, discardBuffered. apply (downloads_quiet _ _ _ (quiet_replenish_conn _ _)).
  apply (downloads_put X _ r s); [done|done|auto|auto| |done].
  destruct (dl_objs _ _ Hd _ _ Hs) as (before & e & mid & chunks & fin & Hw & Ho & Hc & Hp & He & Hrd & Hfin).
  exists before, e, mid, chunks, fin. split_and!; try done; [|by intros Hn; split; [|apply Hrd]|].
  - cbn [recvQueue set_queue id]. rewrite app_nil_r. etransitivity; [|exact Hp]. by apply prefix_app_r.
  - cbn [bodyDone recvQueue set_queue recvEnded recvError id]. destruct Hfin as [[-> _]|[(-> & ? & ? & ?)|(x & -> & ? & ?)]].
    + left. split; [done|]. intros _ []. by right.
    + right. by left.
    + right. right. by exists x.
Qed.

Lemma fail_stream_error e r s c :
  objs c !! r = Some s → ∃ s', objs (fail_stream e r c) !! r = Some s' ∧ recvError s' ≠ None ∧ id s' = id s.
Proof.
  intros Hs. unfold fail_stream. rewrite Hs. destruct (fail_same e s) as [Hb He].
  destruct (fail e s) as [s' l]. cbn [fst] in *. exists s'. cbn. rewrite list_lookup_alter_eq, Hs.
  split_and!; [done|done|apply Hb].
Qed.

(** A stream leaves the map. *)
Lemma downloads_delete (X : nat → Prop) sid c :
  (∀ r s, map_get (streams c) sid = Some r → objs c !! r = Some s → X r ∨ over s) →
  downloads X c → downloads X (delete_stream sid c).
Proof.
  intros HX [D1 D2 D3 D5 D4]. unfold delete_stream.
  assert (∀ i r, map_get (map_delete (streams c) sid) i = Some r → map_get (streams c) i = Some r) as Hsub
    by (intros i r; rewrite map_get_delete; by case_decide).
  split; cbn [streams objs wire closedFlag pendingHeaderBlock set_streams]; [by intros i r H; apply D1, Hsub|done|..].
  - intros H i. rewrite map_get_delete. case_decide; [done|by apply D3].
  - intros r s Hs. rewrite map_get_delete. destruct (D5 r s Hs) as [H|[H|H]]; [by left| |by right; right].
    case_decide as E; [|by right; left]. destruct (HX r s) as [?|?]; [by rewrite E|done|by left|by right; right].
  - intros r s Hs. rewrite <- (app_nil_r (wire c)).
    apply (body_grow (X r) _ (map_get (streams c) (id s) = Some r)); [done|apply Hsub|by left|by apply D4].
Qed.

(** A stream is reset: its object fails and leaves the map. *)
Lemma downloads_reset (X : nat → Prop) sid code c :
  (∀ r, X r → map_get (streams c) sid = Some r) → downloads X c → intact (resetStream sid code c).
Proof.
  intros HX Hd. unfold resetStream. destruct (get_stream sid c) as [[r s]|] eqn:Hg.
  2:{ apply (downloads_quiet _ _ _ (quiet_send _ _)). apply (downloads_gone X); [|done].
      intros r s Hx. apply HX in Hx. unfold get_stream in Hg. rewrite Hx in Hg.
      destruct (dl_refs _ _ Hd _ _ Hx) as (s' & Hs' & _). by rewrite Hs' in Hg. }
  apply get_stream_Some in Hg as [Hg Hs]. set (c1 := send _ c).
  assert (objs c1 = objs c ∧ streams c1 = streams c) as [Eo Es]
    by (unfold c1, send; by destruct (closedFlag c)).
  assert (downloads X c1) as H1 by (by apply (downloads_quiet _ _ _ (quiet_send _ _))). clearbody c1.
  apply (downloads_discard X r s) in H1; [|by rewrite Eo].
  set (c2 := discard_stream r s c1) in *.
  assert (streams c2 = streams c ∧ objs c2 !! r = Some (set_queue [] 0 s)) as [Es2 Hs2].
  { destruct (discard_fields r s c1) as [E1 E2]. fold c2 in E1, E2. rewrite E1, E2, Es, Eo.
    split; [done|]. by rewrite list_lookup_alter_eq, Hs. }
  clearbody c2. set (c3 := delete_stream sid (with_obj r (set_state closed) c2)).
  assert (downloads (λ r', X r' ∨ r' = r) c3) as H3.
  { apply downloads_delete.
    - intros r' s' Hg' _. left. right. cbn in Hg'. rewrite Es2 in Hg'. congruence.
    - apply (downloads_quiet _ c2); [quiet|done]. }
  assert (map_get (streams c3) sid = None ∧ objs c3 !! r = Some (set_state closed (set_queue [] 0 s))) as [Es3 Hs3].
  { unfold c3, delete_stream. split.
    - cbn [streams set_streams]. by rewrite map_get_delete, decide_True.
    - cbn. by rewrite list_lookup_alter_eq, Hs2. }
  clearbody c3.
  destruct (wake_slots_fields c3) as (Es4 & Eo4 & _).
  destruct (fail_stream_error (EH2 (h2_stream_error code sid)) r _ (wakeStreamSlots c3)
    ltac:(rewrite Eo4; exact Hs3)) as (s' & Hs' & He & Hi).
  assert (id s = sid) as Hid by (destruct (dl_refs _ _ Hd _ _ Hg) as (s0 & H0 & <-); congruence).
  apply (downloads_gone (λ r', X r' ∨ r' = r)).
  - intros r' s0 Hx H0. assert (r' = r) as -> by (destruct Hx as [Hx| ->]; [apply HX in Hx; congruence|done]).
    rewrite Hs' in H0. injection H0 as <-. split; [done|]. rewrite fail_stream_streams, Es4, Hi. cbn [id set_state set_queue].
    by rewrite Hid, Es3.
  - apply (downloads_quiet _ _ _ (quiet_fail _ _ _)), (downloads_quiet _ _ _ (quiet_wake_slots _)), H3.
Qed.

(** *** Teardown *)

Lemma quiet_error_stays c c' r s s' :
  quiet c c' → objs c !! r = Some s → objs c' !! r = Some s' → recvError s ≠ None → recvError s' ≠ None.
Proof.
  intros Hq Hs Hs' He E. destruct (Forall2_lookup_lr _ _ _ _ _ _ (qu_objs _ _ Hq) Hs Hs') as []. auto.
Qed.

Lemma fold_fails e (l : list (Z * nat)) c sid r s :
  (sid, r) ∈ l → objs c !! r = Some s →
  ∃ s', objs (fold_left (λ c '(_, r), fail_stream e r c) l c) !! r = Some s' ∧ recvError s' ≠ None.
Proof.
  assert (∀ (l' : list (Z * nat)) c', quiet c' (fold_left (λ c '(_, r), fail_stream e r c) l' c')) as Hq
    by (intros l' c'; apply quiet_fold; intros c0 [? ?]; apply quiet_fail).
  revert c s. induction l as [|[sid' r'] l IH]; intros c s Hin Hs; [by apply not_elem_of_nil in Hin|].
  cbn [fold_left]. apply elem_of_cons in Hin as [[= <- <-]|Hin].
  - destruct (fail_stream_error e r s c Hs) as (s1 & Hs1 & He & _).
    destruct (Forall2_lookup_l _ _ _ _ _ (qu_objs _ _ (Hq l (fail_stream e r c))) Hs1) as (s2 & Hs2 & _).
    exists s2. split; [done|]. by apply (quiet_error_stays _ _ _ _ _ (Hq l (fail_stream e r c)) Hs1 Hs2).
  - destruct (Forall2_lookup_l _ _ _ _ _ (qu_objs _ _ (quiet_fail e r' c)) Hs) as (s1 & Hs1 & _).
    by apply (IH _ s1).
Qed.

Lemma destroy_quiet e c :
  quiet c (destroy e c) ∧
  (closedFlag c = false → (∀ sid, map_get (streams (destroy e c)) sid = None) ∧
     ∀ sid r s, map_get (streams c) sid = Some r → objs (destroy e c) !! r = Some s → recvError s ≠ None).
Proof.
  unfold destroy. destruct (closedFlag c) eqn:Hcl; [split; [reflexivity|done]|].
  set (c1 := set_closeError _ _). destruct (sw_close (connSendWindow c1)) as [w l].
  set (c2 := wake_pumps l (set_connSendWindow w c1)).
  set (c3 := fold_left _ (streams c2) c2). set (c4 := set_streams [] c3).
  assert (quiet c2 c3) as H23 by (apply quiet_fold; intros c' [sid r]; apply quiet_fail).
  assert (∀ sid r s, map_get (streams c) sid = Some r → objs c3 !! r = Some s → recvError s ≠ None) as Hall.
  { intros sid r s Hg Hs. apply map_get_elem in Hg.
    destruct (Forall2_lookup_r _ _ _ _ _ (qu_objs _ _ H23) Hs) as (s0 & H0 & _).
    destruct (fold_fails e (streams c2) c2 sid r s0 Hg H0) as (s' & Hs' & He).
    unfold c3 in Hs. rewrite Hs' in Hs. by injection Hs as <-. }
  assert (quiet c c4) as H4.
  { destruct H23 as [Ho Hw _ _ Hp _]. split; [exact Ho|exact Hw|done| |exact Hp|by right].
    intros sid r s Hg Hs. right. left. by apply (Hall sid r). }
  assert (quiet c4 (wakeStreamSlots c4)) as H5 by apply quiet_wake_slots.
  destruct (wake_slots_fields c4) as (Es & Eo & _).
  set (c5 := wakeStreamSlots c4) in *. split; [|intros _; split].
  - quiet_op. quiet_op. by transitivity c4.
  - intros sid. cbn [streams set_pings set_pingResults]. by rewrite Es.
  - intros sid r s Hg Hs. cbn [objs set_pings set_pingResults] in Hs. rewrite Eo in Hs. by apply (Hall sid r).
Qed.

Lemma downloads_destroy (X : nat → Prop) e c :
  (∀ r, X r → ∃ sid, map_get (streams c) sid = Some r) → downloads X c → intact (destroy e c).
Proof.
  intros HX Hd. destruct (destroy_quiet e c) as [Hq Hall].
  apply (downloads_gone X); [|by apply (downloads_quiet _ c)].
  intros r s Hx Hs. destruct (HX r Hx) as [sid Hg]. destruct (closedFlag c) eqn:Hcl.
  - by rewrite (dl_closed _ _ Hd Hcl) in Hg.
  - destruct (Hall eq_refl) as [Hn He]. split; [by apply (He sid r)|]. by rewrite Hn.
Qed.

Lemma downloads_error (X : nat → Prop) e c :
  (∀ r, X r → ∃ sid, map_get (streams c) sid = Some r) → downloads X c → intact (connectionError e c).
Proof.
  intros HX Hd. unfold connectionError. apply (downloads_destroy X).
  - unfold send. by destruct (closedFlag c).
  - by apply (downloads_quiet _ _ _ (quiet_send _ _)).
Qed.

Lemma intact_quiet c c' : quiet c c' → intact c → intact c'.
Proof. apply downloads_quiet. Qed.

(** *** Frames of the peer *)

Lemma intact_rst sid code c : intact c → intact (on_rst_stream sid code c).
Proof.
  intros Hd. unfold on_rst_stream. destruct (get_stream sid c) as [[r s]|] eqn:Hg; [|done].
  apply get_stream_Some in Hg as [Hg Hs]. pose proof (downloads_discard _ r s c Hs Hd) as H1.
  destruct (discard_fields r s c) as [Es Eo]. set (c1 := discard_stream r s c) in *. clearbody c1.
  set (e := reset_error _ _).
  destruct (fail_stream_error e r (set_queue [] 0 s) c1) as (s2 & Hs2 & He & Hi);
    [by rewrite Eo, list_lookup_alter_eq, Hs|].
  pose proof (fail_stream_streams e r c1) as Es2. pose proof (downloads_quiet _ _ _ (quiet_fail e r c1) H1) as H2.
  set (c2 := fail_stream e r c1) in *. clearbody c2.
  assert (id s = sid) as Hid by (destruct (dl_refs _ _ Hd _ _ Hg) as (s0 & H0 & <-); congruence).
  apply (intact_quiet (delete_stream sid c2)); [apply quiet_wake_slots|].
  apply (downloads_gone (λ r', False ∨ r' = r)).
  - intros r' s0 [[]| ->] H0. cbn in H0. rewrite Hs2 in H0. injection H0 as <-. split; [done|].
    unfold delete_stream. cbn [streams set_streams]. rewrite Hi. cbn [id set_queue].
    by rewrite map_get_delete, decide_True.
  - apply downloads_delete; [|done]. intros r' s' Hg' _. left. right. rewrite Es2, Es in Hg'. congruence.
Qed.

Lemma quiet_exclude last (f : Z → exn) (l : list (Z * nat)) c :
  (∀ sid r, map_get (streams c) sid = Some r → last < sid → map_get l sid = Some r) →
  quiet c (fold_left (λ c '(sid, r), if last <? sid then delete_stream sid (fail_stream (f sid) r c) else c) l c).
Proof.
  revert c. induction l as [|[i r0] l IH]; intros c Hl; cbn [fold_left]; [reflexivity|].
  assert (∀ sid r, i ≠ sid → map_get ((i, r0) :: l) sid = Some r → map_get l sid = Some r) as Htl
    by (intros sid r Hne; cbn; by case_decide).
  destruct (Z.ltb_spec last i) as [Hi|Hi].
  2:{ apply IH. intros sid r Hg Hlt. apply Htl; [lia|by apply Hl]. }
  etransitivity; [|apply IH].
  - etransitivity; [apply quiet_fail|]. apply quiet_delete. intros r s Hg Hs. left.
    rewrite fail_stream_streams in Hg. apply Hl in Hg; [|done]. cbn in Hg. rewrite decide_True in Hg by done.
    injection Hg as ->. destruct (Forall2_lookup_r _ _ _ _ _ (qu_objs _ _ (quiet_fail (f i) r c)) Hs) as (s0 & Hs0 & _).
    destruct (fail_stream_error (f i) r s0 c Hs0) as (s1 & Hs1 & He & _). congruence.
  - unfold delete_stream. cbn [streams set_streams]. intros sid r. rewrite map_get_delete, fail_stream_streams.
    case_decide; [done|]. intros Hg Hlt. apply Htl; [done|by apply Hl].
Qed.
Lemma quiet_goaway last code c : quiet c (on_goaway last code c).
Proof.
  unfold on_goaway. set (c2 := fold_left _ _ _). assert (quiet c c2) as H2.
  { unfold c2. etransitivity; [|by apply quiet_exclude]. quiet. }
  assert (quiet c (wakeStreamSlots c2)) as H3 by (etransitivity; [exact H2|apply quiet_wake_slots]).
  destruct (code =? 0); [done|]. etransitivity; [exact H3|apply destroy_quiet].
Qed.

Lemma intact_update sid n c : intact c → intact (fst (on_window_update sid n c)).
Proof.
  intros Hd. unfold on_window_update. destruct (n =? 0), (sid =? 0); cbn [fst]; [done| | |].
  - by apply (downloads_reset (λ _, False)).
  - destruct (sw_update _ _) as [w l]. cbn [fst]. by apply (intact_quiet c); [quiet|].
  - destruct (get_stream sid c) as [[r s]|]; [|done]. destruct (sw_update _ _) as [w l].
    by apply (intact_quiet c); [quiet|].
Qed.

Lemma received_frame sid sid' d flow fin fs :
  received sid (Rx (DataFrame sid' d flow fin) :: map Tx fs) = if decide (sid' = sid) then d else [].
Proof.
  change (Rx (DataFrame sid' d flow fin) :: map Tx fs) with ([Rx (DataFrame sid' d flow fin)] ++ map Tx fs).
  rewrite received_app, received_tx, app_nil_r. unfold received. cbn. case_decide; cbn; [apply app_nil_r|done].
Qed.

(** What DATA does to its stream's object. *)
Definition take_data (d : bytes) (fin : bool) (s : H2Stream) : H2Stream :=
  if fin then set_remoteClosed (receiveData d fin s) else receiveData d fin s.

Lemma take_data_fields d fin s :
  let s' := take_data d fin s in
  id s' = id s ∧ controller s' = controller s ∧ bodyDone s' = bodyDone s ∧ recvError s' = recvError s ∧
  recvEnded s' = fin || recvEnded s ∧ remoteClosed s' = fin || remoteClosed s ∧
  mjoin (recvQueue s') = mjoin (recvQueue s) ++ (if bodyDone s then [] else d) ∧
  (bodyDone s = true → recvQueue s' = recvQueue s) ∧ recvNotify s' = false.
Proof.
  unfold take_data, receiveData. destruct (bodyDone s) eqn:Hd; cbn [negb].
  - rewrite andb_false_r, app_nil_r. destruct fin; cbn; by rewrite ?Hd.
  - destruct (Z.ltb_spec 0 (zlen d)) as [Hl|Hl]; cbn [andb].
    + destruct fin; cbn; rewrite ?Hd, ?mjoin_snoc; done.
    + assert (d = []) as -> by (apply zlen_0_inv; zl). rewrite app_nil_r. destruct fin; cbn; by rewrite ?Hd.
Qed.

Lemma take_data_over d fin s : over s → over (take_data d fin s).
Proof.
  destruct (take_data_fields d fin s) as (_ & _ & _ & E4 & _ & E6 & _). unfold over. rewrite E4, E6.
  intros [H|H]; [by left|]. right. rewrite H. apply orb_true_r.
Qed.

Lemma body_data (live live' : Prop) w fs sid d flow fin s s2 :
  live → id s = sid → remoteClosed s = false → same_body s s2 → body_ok False live w s →
  body_ok False live' (w ++ Rx (DataFrame sid d flow fin) :: map Tx fs) (take_data d fin s2).
Proof.
  intros Hl Hid Hr [Ei Eq Ec Ed Ee Er Em Erd] (before & e & mid & chunks & out & -> & Ho & Hc & Hp & He & Hrd & Hfin).
  destruct (take_data_fields d fin s2) as (E1 & E2 & E3 & E4 & E5 & E6 & E7 & E8 & E9).
  set (f := Rx (DataFrame sid d flow fin) :: map Tx fs).
  assert (recvEnded s = false) as Hne by (destruct (recvEnded s); [rewrite (He eq_refl) in Hr|]; done).
  assert (received sid (mid ++ f) = received sid mid ++ d) as Hrx
    by (rewrite received_app; unfold f; by rewrite received_frame, decide_True).
  exists before, e, (mid ++ f), chunks, out.
  rewrite E1, E2, E3, E4, E5, E6, E7, Ei, Eq, Ec, Ed, Ee, Hne, orb_false_r, <- app_assoc in *.
  rewrite Hid in *. split_and!; try done.
  - rewrite Hrx, app_assoc. destruct (bodyDone s) eqn:Hdone; [rewrite app_nil_r; by apply prefix_app_r|].
    destruct Hfin as [[-> H]|[(_ & ? & _)|(x & _ & ? & _)]]; [|done..].
    destruct (H eq_refl) as [H1 _]; [tauto|]. by rewrite H1.
  - by intros ->.
  - intros Hn. congruence.
  - destruct Hfin as [[-> H]|[(-> & Hdone & Hq & H)|(x & -> & Hdone & Hq)]].
    + left. split; [done|]. intros Hdone _. destruct (H Hdone) as [H1 _]; [tauto|]. rewrite Hdone.
      rewrite app_assoc, (H1 eq_refl Hl), <- Hrx. split; [done|]. intros -> _.
      exists (mid ++ f), []. rewrite app_nil_r. split_and!; [done..|].
      exists (Rx (DataFrame sid d flow true)). split; [|cbn; by rewrite bool_decide_true].
      unfold f. rewrite !elem_of_app, elem_of_cons. auto.
    + right. left. split_and!; [done..|by rewrite E8|by apply complete_grow].
    + right. right. exists x. split_and!; [done..|by rewrite E8].
Qed.

(** The wire has grown by the frame; what is dropped if it is refused is its stream's. *)
Definition on_stream (sid : Z) (c : Conn) (r : nat) : Prop := map_get (streams c) sid = Some r.

Lemma downloads_frame sid d flow fin c :
  intact c → downloads (on_stream sid c) (set_wire (wire c ++ [Rx (DataFrame sid d flow fin)]) c).
Proof.
  intros [D1 D2 D3 D5 D4]. split; cbn [streams objs wire closedFlag pendingHeaderBlock set_wire]; try done.
  - intros pb Hp Hb. by apply ended_app, D2.
  - intros r s Hs. destruct (D5 r s Hs) as [[]|H]. by right.
  - intros r s Hs. apply (body_grow False _ (map_get (streams c) (id s) = Some r)); [done|done| |by apply D4].
    pose proof (received_frame (id s) sid d flow fin []) as Hr. cbn [map] in Hr. rewrite Hr.
    case_decide as E; [|by left]. right. unfold on_stream. rewrite E.
    destruct (decide (map_get (streams c) (id s) = Some r)); auto.
Qed.

Lemma downloads_other_frame X f c :
  (∀ sid, arrived sid (Rx f) = None) → downloads X c → downloads X (set_wire (wire c ++ [Rx f]) c).
Proof.
  intros Hf [D1 D2 D3 D5 D4]. split; cbn [streams objs wire closedFlag pendingHeaderBlock set_wire]; try done.
  - intros pb Hp Hb. by apply ended_app, D2.
  - intros r s Hs. apply (body_grow (X r) _ (map_get (streams c) (id s) = Some r)); [done|done| |by apply D4].
    left. unfold received. cbn [omap list_omap]. by rewrite Hf.
Qed.

(** An accepted frame: it is charged, its padding is returned, its data buffered. *)
Lemma intact_data_on_stream sid r s d flow n fin c :
  intact c → map_get (streams c) sid = Some r → objs c !! r = Some s → remoteClosed s = false →
  let c1 := set_connRecvAvailable (connRecvAvailable c - n)
              (set_wire (wire c ++ [Rx (DataFrame sid d flow fin)]) c) in
  intact (data_on_stream sid r s d n fin c1).
Proof.
  intros Hd Hg Hs Hr c1. unfold data_on_stream. set (c2 := if 0 <? _ then _ else _).
  assert (quiet (set_wire (wire c ++ [Rx (DataFrame sid d flow fin)]) c) c2) as Hq.
  { unfold c2. destruct (_ <? _); [etransitivity; [|apply quiet_replenish]|]; unfold c1; quiet. }
  pose proof (downloads_quiet _ _ _ Hq (downloads_frame sid d flow fin c Hd)) as H2.
  destruct Hq as [Ho [fs Hw] Hst Hlost _ _]. cbn [objs set_wire wire streams] in Ho, Hw, Hst, Hlost.
  destruct (Forall2_lookup_l _ _ _ _ _ Ho Hs) as (s2 & Hs2 & Hsame). clearbody c2.
  assert (id s = sid) as Hid by (destruct (dl_refs _ _ Hd _ _ Hg) as (s0 & H0 & <-); congruence).
  assert (intact (with_obj r (take_data d fin) c2)) as H3.
  { apply (downloads_put (on_stream sid c) _ r s2); [done|apply take_data_fields| | | |done].
    - intros r' E Hne. unfold on_stream in E. congruence.
    - intros _. right. rewrite (sb_id _ _ Hsame), Hid.
      destruct (Hlost _ _ _ Hg Hs2) as [?|?]; [by left|right; by apply take_data_over].
    - rewrite Hw, <- app_assoc. cbn [app]. apply (body_data (map_get (streams c) (id s) = Some r) _ _ _ sid _ _ _ s);
        [by rewrite Hid|done..|by apply (dl_objs _ _ Hd)]. }
  unfold take_data in H3. destruct fin; [|done].
  rewrite with_obj_compose. by apply (intact_quiet _ _ (quiet_retire _ _)).
Qed.

(** The outcome of a frame, after [onBytes] has dealt with what it threw. *)
Definition settled (cx : Conn * result exn unit) : Prop :=
  match snd cx with
  | Ok _ => intact (fst cx)
  | Throw (EH2 (mkH2Error _ (Some _) _)) => intact (fst cx)
  | Throw e => intact (connectionError e (fst cx))
  end.

Lemma settled_intact cx : intact (fst cx) → settled cx.
Proof.
  intros H. unfold settled. destruct (snd cx) as [u|[[code [sid|] rt]| | |]]; try done;
    by apply (downloads_error (λ _, False)).
Qed.

Lemma settled_data sid d flow fin c :
  intact c → settled (on_data sid d flow fin (set_wire (wire c ++ [Rx (DataFrame sid d flow fin)]) c)).
Proof.
  intros Hd. pose proof (downloads_frame sid d flow fin c Hd) as H1. unfold on_data.
  change (get_stream sid (set_wire _ c)) with (get_stream sid c).
  set (c1 := set_wire _ c) in *. change (connRecvAvailable c1) with (connRecvAvailable c).
  assert (∀ r, on_stream sid c r → ∃ i, map_get (streams c1) i = Some r) as Hlive by (intros r; by exists sid).
  set (n := default (zlen d) flow). destruct (_ <? n).
  { unfold settled, conn_throw, throw. cbn [fst snd]. by apply (downloads_error (on_stream sid c)). }
  set (c2 := set_connRecvAvailable _ c1).
  assert (∀ m, quiet c1 (replenishConnectionWindow m c2)) as Hq
    by (intros m; etransitivity; [|apply quiet_replenish_conn]; unfold c2; quiet).
  assert (∀ m, streams (replenishConnectionWindow m c2) = streams c) as Hst
    by (intros m; apply (replenish_conn_fields m c2)).
  destruct (get_stream sid c) as [[r s]|] eqn:Hg.
  - apply get_stream_Some in Hg as [Hg Hs].
    assert (∀ code, intact (resetStream sid code (replenishConnectionWindow n c2))) as Hreset.
    { intros code. apply (downloads_reset (on_stream sid c)); [by rewrite Hst|]. by apply (downloads_quiet _ _ _ (Hq n)). }
    destruct (remoteClosed s) eqn:Hr; [|destruct (_ <? n)]; apply settled_intact; [apply Hreset..|].
    by apply intact_data_on_stream.
  - assert (intact c1) as Hi.
    { apply (downloads_weaken (on_stream sid c)); [|done]. intros r Hr. unfold on_stream in Hr.
      unfold get_stream in Hg. rewrite Hr in Hg. destruct (dl_refs _ _ Hd _ _ Hr) as (s & E & _). by rewrite E in Hg. }
    apply settled_intact. destruct (isIdleInboundStream _ _ _); cbn [fst].
    + apply (intact_quiet c1); [apply (Hq n)|done].
    + apply (intact_quiet c1); [|done]. etransitivity; [apply (Hq n)|quiet].
Qed.

(** *** Header blocks *)

Definition take_headers (hs : list Header) (fin : bool) (s : H2Stream) : H2Stream :=
  if fin then set_remoteClosed (receiveHeaders hs fin s) else receiveHeaders hs fin s.

Lemma take_headers_fields hs fin s :
  let s' := take_headers hs fin s in
  id s' = id s ∧ recvQueue s' = recvQueue s ∧ controller s' = controller s ∧ bodyDone s' = bodyDone s ∧
  recvError s' = recvError s ∧ remoteClosed s' = fin || remoteClosed s ∧
  (recvEnded s' = recvEnded s ∧ recvNotify s' = recvNotify s ∨
   (recvEnded s' = true ∧ fin = true) ∧ recvNotify s' = false).
Proof.
  unfold take_headers, receiveHeaders.
  destruct (gotHead s); cbn [negb]; [|destruct (is_interim _)]; destruct fin; cbn; auto 10.
Qed.

Lemma take_headers_over hs fin s : over s → over (take_headers hs fin s).
Proof.
  destruct (take_headers_fields hs fin s) as (_ & _ & _ & _ & E5 & E6 & _). unfold over. rewrite E5, E6.
  intros [H|H]; [by left|]. right. rewrite H. apply orb_true_r.
Qed.

Lemma ended_skip sid i e a b : opens i e = true → ended sid (a ++ e :: b) → ended sid (a ++ b).
Proof.
  intros Ho (x & Hx & H). exists x. split; [|done]. apply elem_of_app in Hx as [Hx|Hx]; [set_solver|].
  apply elem_of_cons in Hx as [->|Hx]; [by destruct e|set_solver].
Qed.

Lemma body_headers (live : Prop) w hs fin s :
  live → (fin = true → ended (id s) w) → body_ok False live w s → body_ok False live w (take_headers hs fin s).
Proof.
  intros Hl Hend (before & e & mid & chunks & out & -> & Ho & Hc & Hp & He & Hrd & Hfin).
  destruct (take_headers_fields hs fin s) as (E1 & E2 & E3 & E4 & E5 & E6 & E7).
  exists before, e, mid, chunks, out. rewrite E1, E2, E3, E4, E5, E6. split_and!; try done.
  - intros Hn. destruct E7 as [[E7 _]|[[_ ->] _]]; [|done]. rewrite E7 in Hn. rewrite He by done. apply orb_true_r.
  - unfold reader_ok. rewrite E2, E5. destruct E7 as [[-> ->]|[_ ->]]; [exact Hrd|done].
  - destruct Hfin as [[-> H]|H]; [left|by right]. split; [done|]. intros Hdone Hx. destruct (H Hdone Hx) as [H1 H2].
    destruct E7 as [[E7 _]|[[E7 ->] _]]; rewrite E7; [done|]. split; [done|]. intros _ Herr.
    destruct (recvEnded s) eqn:Hn; [by apply H2|]. rewrite (H1 eq_refl Hl).
    exists mid, []. rewrite app_nil_r. split_and!; [done..|]. by apply (ended_skip _ (id s) e), Hend.
Qed.

Section no_push.
Context (cfg : Config) (Hpush : onPush cfg = None).

Lemma intact_complete c : intact c → intact (fst (completeHeaderBlock cfg c)).
Proof.
  intros Hd. unfold completeHeaderBlock. destruct (pendingHeaderBlock c) as [pb|] eqn:Hp; [|done]. cbv zeta.
  destruct (hd_decode _ _ _) as [d x]. set (c1 := set_decoder d (set_pendingHeaderBlock None c)).
  assert (quiet c c1) as Hq by (apply quiet_fields; try done; by right).
  assert (intact c1) as H1 by (by apply (intact_quiet c)).
  destruct x as [hs|e]; [|done]. destruct (pb_kind pb) as [|promised].
  - destruct (get_stream _ c1) as [[r s]|] eqn:Hg; [|done]. apply get_stream_Some in Hg as [Hg Hs].
    assert (id s = pb_streamId pb) as Hid by (destruct (dl_refs _ _ H1 _ _ Hg) as (s0 & H0 & <-); congruence).
    assert (intact (with_obj r (take_headers hs (pb_endStream pb)) c1)) as H2.
    { apply (downloads_put (λ _, False) _ r s); [done|apply take_headers_fields|by auto| | |done].
      { intros [H|[H|H]]; [done|by right; left|right; right; by apply take_headers_over]. }
      apply body_headers; [by rewrite Hid| |by apply (dl_objs _ _ H1)].
      intros Hb. rewrite Hid. by apply (dl_pending _ _ Hd). }
    unfold take_headers in H2. destruct (pb_endStream pb); [|done]. cbn [fst].
    rewrite with_obj_compose. by apply (intact_quiet _ _ (quiet_retire _ _)).
  - unfold handlePush. rewrite Hpush. cbn [fst]. apply (intact_quiet c1); [|done].
    destruct (_ <? _); quiet.
Qed.

Lemma intact_block pb (eh : bool) c :
  intact c → (pb_endStream pb = true → ended (pb_streamId pb) (wire c)) →
  intact (fst ((modify (set_pendingHeaderBlock (Some pb));; guardHeaderBlockSize;;
                if eh then completeHeaderBlock cfg else mret tt) c)).
Proof.
  intros [D1 D2 D3 D5 D4] Hend. set (c1 := set_pendingHeaderBlock (Some pb) c).
  assert (intact c1) as H1.
  { split; try done. by intros pb' [= <-]. }
  unfold mbind, M_bind, modify. fold c1. unfold guardHeaderBlockSize. cbn [pendingHeaderBlock c1 set_pendingHeaderBlock].
  destruct (_ <? _); [done|]. destruct eh; [by apply intact_complete|done].
Qed.

Lemma settled_dispatch f c : intact c → settled (dispatch cfg f c).
Proof.
  intros Hd. unfold dispatch. destruct (is_data f) eqn:Hf.
  { destruct f as [sid d flow fin| | | | | | | | |]; try done. cbn [is_continuation negb]. rewrite andb_true_r.
    pose proof (downloads_frame sid d flow fin c Hd) as H1.
    destruct (bool_decide _); [|by apply settled_data].
    apply (downloads_error (on_stream sid c)); [intros r; by exists sid|done]. }
  set (c1 := set_wire _ c). assert (intact c1) as H1 by (apply downloads_other_frame; [by destruct f|done]).
  destruct (_ && _); [by apply settled_intact|]. apply settled_intact.
  destruct f as [sid d flow fin|sid fr es eh p|sid p|sid code|ack s|sid pr fr eh|ack op|last code dbg
    |sid n|sid fr eh]; try done; cbn [fst].
  - apply intact_block; [done|]. cbn [pb_endStream pb_streamId]. intros ->.
    exists (Rx (HeadersFrame sid fr true eh p)). split; [|cbn; by rewrite bool_decide_true].
    unfold c1. cbn [wire set_wire]. set_solver.
  - by apply intact_rst.
  - by apply (intact_quiet c1); [apply quiet_settings|].
  - by apply intact_block.
  - by apply (intact_quiet c1); [apply quiet_ping|].
  - by apply (intact_quiet c1); [apply quiet_goaway|].
  - by apply intact_update.
  - unfold on_continuation. destruct (pendingHeaderBlock c1) as [pb|] eqn:Hp; [|done].
    destruct (negb _); [done|]. apply intact_block; [done|]. cbn [pb_endStream pb_streamId]. by apply (dl_pending _ _ H1).
Qed.

Lemma intact_bytes chunk c : intact c → intact (onBytes cfg chunk c).
Proof.
  intros Hd. unfold onBytes. destruct (fd_push chunk (frameDecoder c)) as [fd x].
  assert (intact (set_frameDecoder fd c)) as H1 by (by apply (intact_quiet c); [quiet|]).
  destruct x as [fs|e]; [|by apply (downloads_error (λ _, False))].
  revert H1. generalize (set_frameDecoder fd c). induction fs as [|f fs IH]; intros c1 H1; [done|].
  cbn [dispatch_all]. pose proof (settled_dispatch f c1 H1) as H2. unfold settled in H2.
  destruct (dispatch cfg f c1) as [c2 x]. cbn [fst snd] in H2.
  destruct x as [u|[[code [sid|] retry]| | |]]; try done; [by apply IH|].
  apply IH. by apply (downloads_reset (λ _, False)).
Qed.

(** *** Requests and readers *)

(** No request has the id that the next one takes. *)
Definition unused (c : Conn) : Prop := map_get (streams c) (nextStreamId c) = None.

Lemma intact_open init c :
  closedFlag c = false → unused c → intact c → intact (fst (open_stream cfg init c)).
Proof.
  intros Hcl Hun Hd. unfold open_stream. cbv zeta. set (hasBody := negb (bodyIsEmpty (i_body init))).
  set (sid := nextStreamId c). set (r := length (objs c)).
  set (s := stream_new sid _ open _). set (c1 := set_streams _ _).
  assert (∀ b es eh p, intact (send (HeadersFrame sid b es eh p) c1)) as H1.
  { intros b es eh p. destruct Hd as [D1 D2 D3 D5 D4]. unfold send. change (closedFlag c1) with (closedFlag c). rewrite Hcl.
    split; cbn [streams objs wire closedFlag pendingHeaderBlock set_wire c1 set_streams set_objs set_nextStreamId].
    - intros i r'. rewrite map_get_set. case_decide as E.
      + intros [= <-]. exists s. split; [|done]. by rewrite list_lookup_middle.
      + intros Hg. destruct (D1 _ _ Hg) as (s' & Hs' & Hi). exists s'. split; [|done]. by apply lookup_app_l_Some.
    - intros pb Hp Hb. by apply ended_app, D2.
    - congruence.
    - intros r' s' Hs'. right. rewrite map_get_set. apply lookup_app_Some in Hs' as [Hs'|[Hge Hs']].
      + destruct (D5 r' s' Hs') as [[]|[H|H]]; [left|by right]. case_decide as E; [|done].
        unfold unused in Hun. fold sid in Hun. congruence.
      + apply list_lookup_singleton_Some in Hs' as [Hr' <-]. left. rewrite decide_True by done. f_equal.
        unfold r. lia.
    - intros r' s' Hs'. apply lookup_app_Some in Hs' as [Hs'|[Hge Hs']].
      + apply (body_grow False _ (map_get (streams c) (id s') = Some r')); [done| |by left|by apply D4].
        rewrite map_get_set. case_decide; [|done]. intros [= <-]. apply lookup_lt_Some in Hs'. unfold r in Hs'. lia.
      + apply list_lookup_singleton_Some in Hs' as [_ <-].
        exists (wire c), (Tx (HeadersFrame sid b es eh p)), [], [], []. split_and!; try done.
        * cbn. by rewrite bool_decide_true.
        * by left. }
  assert (intact (sendHeaders sid (buildRequestHeaders init) (negb hasBody) c1)) as H2.
  { unfold sendHeaders, send_block. destruct (_ <=? _); [apply H1|].
    by apply (intact_quiet _ _ (quiet_continuations _ _ _ _ _ _)). }
  cbn [fst]. eapply intact_quiet; [|exact H2]. destruct hasBody; quiet.
Qed.

Lemma intact_pull r c : intact c → intact (body_pull r c).
Proof.
  intros Hd. unfold body_pull. destruct (objs c !! r) as [s|] eqn:Hs; [|done].
  destruct (bodyDone s) eqn:Hdone; [done|]. destruct (recvNotify s) eqn:Hpark; [done|]. cbn [orb].
  destruct (pullBody s) as [s' n] eqn:Ep.
  assert (intact (with_obj r (λ _, s') c)) as H1.
  { assert (id s' = id s ∧ recvError s' = recvError s ∧ remoteClosed s' = remoteClosed s) as (Hi & Herr & Hrem).
    { unfold pullBody in Ep.
      destruct (recvQueue s); [destruct (recvError s) eqn:E; [|destruct (recvEnded s)]|]; by injection Ep as <- <-. }
    apply (downloads_put (λ _, False) _ r s); [done|done|by auto| | |done]; [unfold over; by rewrite Herr, Hrem|].
    clear Hi Herr Hrem. unfold pullBody in Ep.
    destruct (dl_objs _ _ Hd _ _ Hs) as (before & e & mid & chunks & out & Hw & Ho & Hc & Hp & He & Hrd & Hfin).
    destruct Hfin as [[-> H]|[(_ & ? & _)|(x & _ & ? & _)]]; [|congruence..].
    destruct (H Hdone) as [H1 H2]; [tauto|]. rewrite app_nil_r in Hc.
    destruct (recvQueue s) as [|d rest] eqn:Hq.
    - cbn [mjoin list_join] in *. rewrite app_nil_r in *.
      destruct (recvError s) as [x|] eqn:Herr; [|destruct (recvEnded s) eqn:Hend]; injection Ep as <- <-.
      + exists before, e, mid, chunks, [CtlError x]. cbn. rewrite Hq, Hc. cbn. rewrite app_nil_r.
        split_and!; try done. right. right. by exists x.
      + exists before, e, mid, chunks, [CtlClose]. cbn. rewrite Hq, Hc. cbn. rewrite app_nil_r.
        split_and!; try done; [intros _; by apply He|]. right. left. split_and!; try done. by apply H2.
      + exists before, e, mid, chunks, []. cbn. rewrite Hq, Hc, Hend. cbn. rewrite !app_nil_r.
        split_and!; try done. left. split; [done|].
        intros _ _. split; [intros _; by apply H1|done].
    - injection Ep as <- <-. exists before, e, mid, (chunks ++ [d]), [].
      cbn [id controller recvQueue recvEnded remoteClosed bodyDone recvError call set_queue].
      rewrite Hc, map_app, app_nil_r, mjoin_snoc, <- !app_assoc.
      change (mjoin (d :: rest)) with (d ++ mjoin rest) in *. split_and!; try done.
      { unfold reader_ok. cbn. congruence. }
      left. split; [done|]. by intros _ _. }
  destruct n as [n|]; [|done]. by apply (intact_quiet _ _ (quiet_replenish _ _ _)).
Qed.

Lemma intact_cancel r c : intact c → intact (body_cancel r c).
Proof.
  intros Hd. unfold body_cancel. destruct (objs c !! r) as [s|] eqn:Hs; [|done]. cbn [cancel_begin].
  set (c1 := with_obj r (λ _, set_bodyDone s) c).
  assert (intact c1) as H1.
  { apply (downloads_put (λ _, False) _ r s); [done..|by auto|by auto| |done].
    destruct (dl_objs _ _ Hd _ _ Hs) as (before & e & mid & chunks & out & Hw & Ho & Hc & Hp & He & Hrd & Hfin).
    exists before, e, mid, chunks, out. split_and!; try done.
    destruct Hfin as [[-> _]|[(-> & _ & H)|(x & -> & _ & H)]]; [by left|right; by left|right; right; by exists x]. }
  assert (∀ s1, objs c1 !! r = Some s1 → bodyDone s1 = true) as Hd1.
  { intros s1 H. cbn in H. rewrite list_lookup_alter_eq, Hs in H. by injection H as <-. }
  clearbody c1. set (c2 := if 0 <? recvBuffered s then _ else c1).
  assert (quiet c1 c2) as Hq by (unfold c2; destruct (_ <? _); [apply quiet_replenish|reflexivity]).
  assert (intact (with_obj r cancel_clear c2)) as H3.
  { apply downloads_put_same; [by split| |by apply (intact_quiet c1)].
    intros s2 Hs2. destruct (Forall2_lookup_r _ _ _ _ _ (qu_objs _ _ Hq) Hs2) as (s1 & Hs1 & Hsame).
    pose proof (sb_done _ _ Hsame) as Hdone. rewrite (Hd1 s1 Hs1) in Hdone.
    intros (before & e & mid & chunks & out & Hw & Ho & Hc & Hp & He & Hrd & Hfin).
    exists before, e, mid, chunks, out. cbn. rewrite app_nil_r. split_and!; try done.
    - etransitivity; [|exact Hp]. by apply prefix_app_r.
    - intros Hn. split; [done|]. by apply Hrd.
    - destruct Hfin as [[-> _]|[(-> & _ & _ & H)|(x & -> & _ & H)]];
        [left; split; [done|intros; congruence]|right; by left|right; right; by exists x]. }
  destruct (_ && _); [|done]. by apply (downloads_reset (λ _, False)).
Qed.

Lemma intact_abort r e c : intact c → intact (abort_request r e c).
Proof.
  intros Hd. unfold abort_request. destruct (objs c !! r) as [s|]; [|done]. destruct (bool_decide _); [|done].
  apply (downloads_reset (λ _, False)); [done|]. by apply (intact_quiet _ _ (quiet_fail _ _ _)).
Qed.
Lemma intact_pump_failed r e c : intact c → intact (pump_failed r e c).
Proof.
  intros Hd. unfold pump_failed. destruct (objs c !! r) as [s|]; [|done].
  pose proof (intact_quiet _ _ (quiet_fail e r c) Hd) as H1.
  destruct (bool_decide _); [|done]. by apply (downloads_reset (λ _, False)).
Qed.

Lemma intact_step ev c : unused c → intact c → intact (step cfg ev c).
Proof.
  intros Hun Hd. destruct ev as [chunk| |e|t init ab|t|r e|i d|i e|r|r|sid|t| |]; cbn [step].
  - destruct (zlen chunk =? 0); [done|]. by apply intact_bytes.
  - by apply (downloads_destroy (λ _, False)).
  - by apply (downloads_destroy (λ _, False)).
  - unfold request_resume. destruct (request_check ab c) as [e|] eqn:Hc; [done|].
    destruct (canOpenStream c); [|by apply (intact_quiet c); [quiet|]].
    apply intact_open; [|done..]. unfold request_check in Hc. destruct ab; [done|]. by destruct (closedFlag c).
  - apply (intact_quiet c); [|done]. unfold abort_parked. case_decide; quiet.
  - by apply intact_abort.
  - by apply (intact_quiet _ _ (quiet_pump _ _ _)).
  - unfold pump_throws. destruct (pumps c !! i) as [p|]; [|done].
    assert (intact (pump_failed (p_ref p) e (set_pump i (pump_at p PDone) c))) as H
      by (apply intact_pump_failed, (intact_quiet c); [unfold set_pump; quiet|done]).
    by destruct (p_phase p).
  - by apply intact_pull.
  - by apply intact_cancel.
  - by apply (downloads_reset (λ _, False)).
  - apply (intact_quiet c); [|done]. unfold ping. cbv zeta. destruct (closedFlag _); quiet.
  - by apply (intact_quiet _ _ (quiet_close _)).
  - unfold close_finish. destruct (closing c); [done|]. apply (downloads_destroy (λ _, False)); [done|].
    by apply (intact_quiet c); [quiet|].
Qed.
End no_push.

Lemma reachable_intact o cfg c : onPush cfg = None → reachable o cfg c → intact c.
Proof.
  intros Hp. induction 1 as [c H|c ev Hr IH].
  2:{ apply intact_step; [done| |done]. unfold unused.
      destruct (map_get (streams c) (nextStreamId c)) as [r|] eqn:E; [|done].
      destruct (dl_refs _ _ IH _ _ E) as (s & Hs & Hid).
      pose proof (co_fresh _ _ _ (proj1 (reachable_inv _ _ _ Hr)) Hp _ _ Hs). lia. }
  unfold connection_new in H.
  destruct (_ || _); [done|]. cbv zeta in H. injection H as _ <-.
  set (c0 := mkConn _ _ _ _ _ _ _ _ _ _ _ _ _ _ _ _ _ _ _ _ _).
  assert (intact c0) as H0 by (by split).
  apply (intact_quiet c0); [|done]. destruct (_ <? _); quiet.
Qed.

(** ** The theorem *)

(** The payloads that arrived on a stream after its request was sent. *)
Fixpoint after_open (sid : Z) (w : list Wire) : list Wire :=
  match w with
  | [] => []
  | e :: w => if opens sid e then w else after_open sid w
  end.
Definition response_data (sid : Z) (w : list Wire) : bytes := received sid (after_open sid w).

(** An id is opened once. *)
Lemma opens_id sid e : opens sid e = true → tx_ids [e] = [sid].
Proof. destruct e as [|[]|]; try done. cbn. by intros <-%bool_decide_eq_true. Qed.

Lemma after_open_unique sid before e mid :
  NoDup (tx_ids (before ++ e :: mid)) → opens sid e = true → after_open sid (before ++ e :: mid) = mid.
Proof.
  intros Hn Ho. induction before as [|x before IH]; cbn [app after_open]; [by rewrite Ho|].
  change ((x :: before) ++ e :: mid) with ([x] ++ before ++ e :: mid) in Hn.
  rewrite tx_ids_app in Hn. apply list.NoDup_app in Hn as (_ & Hd & Hn).
  destruct (opens sid x) eqn:E; [|by apply IH]. exfalso. apply (Hd sid).
  - rewrite (opens_id sid x E). by left.
  - change (e :: mid) with ([e] ++ mid). rewrite !tx_ids_app, (opens_id sid e Ho). set_solver.
Qed.

Lemma reachable_ids o cfg c : reachable o cfg c → NoDup (tx_ids (wire c)).
Proof.
  intros Hr. destruct (co_ids _ _ _ (proj1 (reachable_inv _ _ _ Hr))) as (n & _ & ->).
  unfold odds. apply NoDup_ListNoDup, Injective_map_NoDup; [intros x y; lia|apply seq_NoDup].
Qed.

(** The invariant, read off the wire. *)
Lemma body_delivered o cfg c r s :
  onPush cfg = None → reachable o cfg c → objs c !! r = Some s →
  ∃ chunks fin,
    controller s = map Enqueue chunks ++ fin ∧
    mjoin chunks ++ mjoin (recvQueue s) `prefix_of` response_data (id s) (wire c) ∧
    (map_get (streams c) (id s) = Some r → bodyDone s = false → recvEnded s = false →
       mjoin chunks ++ mjoin (recvQueue s) = response_data (id s) (wire c)) ∧
    (fin = [] ∨
     (fin = [CtlClose] ∧ ∃ earlier later, wire c = earlier ++ later ∧ ended (id s) earlier ∧
        mjoin chunks = response_data (id s) earlier) ∨
     ∃ x, fin = [CtlError x]).
Proof.
  intros Hp Hr Hs. pose proof (reachable_ids _ _ _ Hr) as Hn.
  destruct (dl_objs _ _ (reachable_intact o cfg c Hp Hr) _ _ Hs)
    as (before & e & mid & chunks & fin & Hw & Ho & Hc & Hpre & _ & _ & Hfin).
  exists chunks, fin. unfold response_data. rewrite Hw in Hn. rewrite Hw, after_open_unique by done.
  split_and!; try done.
  - intros Hl Hd He. destruct Hfin as [[_ H]|[(_ & ? & _)|(x & _ & ? & _)]]; [|congruence..].
    by apply (H Hd); [tauto|..].
  - destruct Hfin as [[-> _]|[(-> & _ & _ & upto & rest & -> & Hg & Hend)|(x & -> & _)]];
      [by left|right; left|right; right; by exists x].
    split; [done|]. exists (before ++ e :: upto), rest. rewrite <- app_assoc. split_and!; [done|..].
    + destruct Hend as (y & Hy & H). exists y. split; [set_solver|done].
    + rewrite after_open_unique; [done| |done].
      replace (before ++ e :: upto ++ rest) with ((before ++ e :: upto) ++ rest) in Hn by (by rewrite <- app_assoc).
      rewrite tx_ids_app in Hn. by apply list.NoDup_app in Hn as [? _].
Qed.

(** A reader that waits, and a body that is not done. *)
Lemma body_parked c r s :
  intact c → objs c !! r = Some s → recvNotify s = true →
  recvQueue s = [] ∧ recvEnded s = false ∧ recvError s = None ∧
  (closedFlag c = false ∧ map_get (streams c) (id s) = Some r ∨ remoteClosed s = true).
Proof.
  intros Hd Hs Hn. destruct (dl_objs _ _ Hd _ _ Hs) as (_ & _ & _ & _ & _ & _ & _ & _ & _ & _ & Hrd & _).
  destruct (Hrd Hn) as (Hq & He & Herr). split_and!; [done..|].
  destruct (dl_alive _ _ Hd _ _ Hs) as [[]|[Hl|[?|?]]]; [left|done|by right]. split; [|done].
  destruct (closedFlag c) eqn:Hcl; [|done]. by rewrite (dl_closed _ _ Hd Hcl) in Hl.
Qed.
Lemma body_open c r s :
  intact c → objs c !! r = Some s → bodyDone s = false → ∀ x, x ∈ controller s → ∃ d, x = Enqueue d.
Proof.
  intros Hd Hs Hdone x. destruct (dl_objs _ _ Hd _ _ Hs) as (before & e & mid & chunks & fin & _ & _ & Hc & _ & _ & _ & Hfin).
  destruct Hfin as [[-> _]|[(_ & E & _)|(y & _ & E & _)]]; [|congruence..]. rewrite Hc, app_nil_r.
  intros (d & -> & _)%list_elem_of_fmap. by exists d.
Qed.

(** C4: response bodies arrive intact.  On a connection without push, in every reachable state
    and for every request, open or over: what the consumer of the response has been given and
    what is buffered for it is, in order, a prefix of the DATA payloads that arrived on the
    request's own stream after its HEADERS were sent - nothing is lost in between, repeated or
    taken from another stream; while the stream lives and is still read, it is all of it.  The
    body is ended by [close] only when everything that had arrived when the peer ended the stream
    was given, so a reset, a protocol error or a teardown never looks like a complete body. *)
Theorem downloads_intact o cfg c r s :
  onPush cfg = None → reachable o cfg c → objs c !! r = Some s →
  ∃ chunks fin,
    controller s = map Enqueue chunks ++ fin ∧
    mjoin chunks ++ mjoin (recvQueue s) `prefix_of` response_data (id s) (wire c) ∧
    (map_get (streams c) (id s) = Some r → bodyDone s = false → recvEnded s = false →
       mjoin chunks ++ mjoin (recvQueue s) = response_data (id s) (wire c)) ∧
    (fin = [] ∨
     (fin = [CtlClose] ∧ ∃ earlier later, wire c = earlier ++ later ∧ ended (id s) earlier ∧
        mjoin chunks = response_data (id s) earlier) ∨
     ∃ x, fin = [CtlError x]).
Proof. apply body_delivered. Qed.

(** C23: no reader is left waiting for what has already come.  On a connection without push, in
    every reachable state, a consumer whose pull is parked has been given everything: its buffer is
    empty, its body has neither ended nor failed, and unless the peer had closed its side (which
    [receiveHeaders] overlooks on an interim head) the connection is open, the stream is still in
    the map, and the chunks handed over are all the DATA that arrived on it.  So data, end, reset
    and teardown each wake the pull they concern. *)
Theorem parked_readers_blocked o cfg c r s :
  onPush cfg = None → reachable o cfg c → objs c !! r = Some s →
  recvNotify s = true → bodyDone s = false →
  recvQueue s = [] ∧ recvEnded s = false ∧ recvError s = None ∧
  ∃ chunks, controller s = map Enqueue chunks ∧
    (remoteClosed s = true ∨
     closedFlag c = false ∧ map_get (streams c) (id s) = Some r ∧
     mjoin chunks = response_data (id s) (wire c)).
Proof.
  intros Hp Hr Hs Hn Hdone. pose proof (reachable_intact o cfg c Hp Hr) as Hd.
  destruct (body_parked c r s Hd Hs Hn) as (Hq & He & Herr & Hlive). split_and!; [done..|].
  destruct (body_delivered o cfg c r s Hp Hr Hs) as (chunks & fin & Hc & _ & Hall & Hfin).
  exists chunks. split.
  - pose proof (body_open c r s Hd Hs Hdone) as Hopen. rewrite Hc in Hopen |- *.
    destruct Hfin as [-> |[[-> _]|[x ->]]]; [apply app_nil_r|..].
    + destruct (Hopen CtlClose) as [d H]; [set_solver|done].
    + destruct (Hopen (CtlError x)) as [d H]; [set_solver|done].
  - destruct Hlive as [[Ho Hl]|Hrem]; [right|by left]. split_and!; [done..|].
    rewrite <- Hall by done. rewrite Hq. symmetry. apply app_nil_r.
Qed.

Module Download.
Definition events : list Event :=
  [EvRequest 0 (Demo.get "/a" BNone) None; EvRequest 1 (Demo.get "/b" BNone) None; EvPull 0;
   EvBytes (Demo.frame (HeadersFrame 1 Demo.status_200 false true None) ++
            Demo.frame (DataFrame 3 [9; 9] None false) ++ Demo.frame (DataFrame 1 [1; 2; 3] None false));
   EvPull 0; EvBytes (Demo.frame (DataFrame 1 [4] None true)); EvPull 0; EvPull 0; EvPull 0].
Definition final : Conn := Eval vm_compute in run Demo.cfg events Demo.start.
Definition object : H2Stream := Eval vm_compute in default (stream_new 0 0 idle 0) (objs final !! 0%nat).
End Download.

Lemma downloads_intact_witness :
  controller Download.object = [Enqueue [1; 2; 3]; Enqueue [4]; CtlClose] ∧
  ∃ chunks fin,
    controller Download.object = map Enqueue chunks ++ fin ∧
    mjoin chunks ++ mjoin (recvQueue Download.object)
      `prefix_of` response_data (id Download.object) (wire Download.final) ∧
    (map_get (streams Download.final) (id Download.object) = Some 0%nat → bodyDone Download.object = false →
       recvEnded Download.object = false →
       mjoin chunks ++ mjoin (recvQueue Download.object) = response_data (id Download.object) (wire Download.final)) ∧
    (fin = [] ∨
     (fin = [CtlClose] ∧ ∃ earlier later, wire Download.final = earlier ++ later ∧ ended (id Download.object) earlier ∧
        mjoin chunks = response_data (id Download.object) earlier) ∨
     ∃ x, fin = [CtlError x]).
Proof.
  split; [reflexivity|]. apply (downloads_intact Demo.options Demo.cfg Download.final 0 Download.object); [reflexivity| |reflexivity].
  assert (Download.final = run Demo.cfg Download.events Demo.start) as -> by (vm_compute; reflexivity).
  apply reachable_run. constructor. exact Demo.start_eq.
Defined.

Module Parked.
Definition events : list Event := firstn 5 Download.events ++ [EvPull 0].
Definition final : Conn := Eval vm_compute in run Demo.cfg events Demo.start.
Definition object : H2Stream := Eval vm_compute in default (stream_new 0 0 idle 0) (objs final !! 0%nat).
End Parked.

Lemma parked_readers_blocked_witness :
  recvNotify Parked.object = true ∧
  recvQueue Parked.object = [] ∧ recvEnded Parked.object = false ∧ recvError Parked.object = None ∧
  ∃ chunks, controller Parked.object = map Enqueue chunks ∧
    (remoteClosed Parked.object = true ∨
     closedFlag Parked.final = false ∧ map_get (streams Parked.final) (id Parked.object) = Some 0%nat ∧
     mjoin chunks = response_data (id Parked.object) (wire Parked.final)).
Proof.
  split; [reflexivity|].
  apply (parked_readers_blocked Demo.options Demo.cfg Parked.final 0 Parked.object); [reflexivity| |reflexivity..].
  assert (Parked.final = run Demo.cfg Parked.events Demo.start) as -> by (vm_compute; reflexivity).
  apply reachable_run. constructor. exact Demo.start_eq.
Defined.
