(* ===== verification/Response.v ===== *)
(** * Response: the response object of a request ([H2Response], [buildResponse], [drain])

    A response carries the head and reads the body once: [bytes], [arrayBuffer] and [text] share
    one promise, which [drain] settles.  The body is the [ReadableStream] of [Stream.H2Stream]; its
    high-water mark is 0, so each chunk that [pullBody] enqueues answers a read that is pending
    and is never buffered in between.  The log [controller] is therefore what the successive reads
    returned, and the promise of [drain] a function of the part of the log after its start.

    [json] applies [JSON.parse] to the same text and is left out. *)
From S2P Require Import Prelude Errors Bytes Text Flow HpackTables Hpack Stream.
Local Open Scope Z_scope.

(** Who holds the lock of the body: nobody, a reader of the application, or [drain]. *)
Inductive Holder := Nobody | Application | Drain.

(** [consumed]: unset, a promise that [getReader] made reject at once because the body was
    locked, or the promise of a [drain] that reads from position [from] of the log. *)
Inductive Consumed := Unread | BodyLocked | Drains (from : nat).

Record H2Response := mkResponse {
  rs_endStream : bool;
  rs_status : option Z;
  rs_headers : jsobject;
  rs_rawHeaders : list Header;
  holder : Holder;
  consumed : Consumed;
}.

Definition buildResponse (h : HeadHead) : H2Response :=
  mkResponse (hh_endStream h) (status h) (hh_headers h) (raw h) Nobody Unread.

Definition set_holder (x : Holder) (r : H2Response) : H2Response :=
  mkResponse (rs_endStream r) (rs_status r) (rs_headers r) (rs_rawHeaders r) x (consumed r).
Definition set_consumed (x : Consumed) (r : H2Response) : H2Response :=
  mkResponse (rs_endStream r) (rs_status r) (rs_headers r) (rs_rawHeaders r) (holder r) x.

(** A promise: pending, resolved, rejected with the stream's error, or rejected with the
    [TypeError] of a locked stream. *)
Inductive Answer (A : Type) :=
| Waits
| Gives (a : A)
| Fails (e : exn)
| LockedError.
Arguments Waits {A}.
Arguments Gives {A} a.
Arguments Fails {A} e.
Arguments LockedError {A}.

Definition answer_map {A B} (f : A → B) (x : Answer A) : Answer B :=
  match x with Waits => Waits | Gives a => Gives (f a) | Fails e => Fails e | LockedError => LockedError end.

(** The loop of [drain] over what its reads return. *)
Fixpoint drain (chunks : list bytes) (reads : list ControllerCall) : Answer bytes :=
  match reads with
  | [] => Waits
  | Enqueue value :: reads => drain (chunks ++ [value]) reads
  | CtlError e :: _ => Fails e
  | CtlClose :: _ => Gives (concatBytes chunks)
  end.

(** The chunks that reads took so far.  A closed or failed body answers every later read with
    the end of the log. *)
Definition chunks_read (s : H2Stream) : list bytes :=
  omap (λ c, match c with Enqueue chunk => Some chunk | _ => None end) (controller s).

Definition consume (s : H2Stream) (r : H2Response) : H2Response :=
  match consumed r with
  | Unread =>
      match holder r with
      | Nobody => set_holder Drain (set_consumed (Drains (length (chunks_read s))) r)
      | _ => set_consumed BodyLocked r
      end
  | _ => r
  end.

(** The promises handed out by [bytes()] (and [arrayBuffer()], a copy) and [text()]. *)
Definition response_bytes (s : H2Stream) (r : H2Response) : Answer bytes :=
  match consumed r with
  | Unread => Waits
  | BodyLocked => LockedError
  | Drains from => drain [] (drop from (controller s))
  end.
Definition text (s : H2Stream) (r : H2Response) : Answer jsstring :=
  answer_map decodeUtf8 (response_bytes s r).
Definition response_trailers (s : H2Stream) : option jsobject := trailers s.

(** ** A response and its stream over time *)

(** Something happens on the stream (a pull only for a pending read, so only under a lock); the
    application takes a reader of the body, or releases it between two reads; it calls one of the
    reading methods. *)
Inductive ResponseEvent := ROn (op : StreamOp) | RGetReader | RRelease | RConsume.

#[export] Instance StreamOp_eq_dec : EqDecision StreamOp.
Proof. solve_decision. Defined.
#[export] Instance ResponseEvent_eq_dec : EqDecision ResponseEvent.
Proof. solve_decision. Defined.

Definition response_op (e : ResponseEvent) (r : H2Response) : option StreamOp :=
  match e with
  | ROn SPull => match holder r with Nobody => None | _ => Some SPull end
  | ROn op => Some op
  | _ => None
  end.

Definition response_step (e : ResponseEvent) (s : H2Stream) (r : H2Response) : H2Stream * H2Response :=
  match e with
  | ROn _ => (match response_op e r with Some op => stream_op op s | None => s end, r)
  | RGetReader => (s, match holder r with Nobody => set_holder Application r | _ => r end)
  | RRelease =>
      (s, match holder r with
          | Application => if recvNotify s then r else set_holder Nobody r
          | _ => r
          end)
  | RConsume => (s, consume s r)
  end.

Definition response_accepts (e : ResponseEvent) (s : H2Stream) : bytes :=
  match e with ROn op => accepted_by op s | _ => [] end.

Record Receiving := mkReceiving { rc_stream : H2Stream; rc_response : H2Response; rc_received : bytes }.

Definition receiving_step (x : Receiving) (e : ResponseEvent) : Receiving :=
  let '(s, r) := response_step e (rc_stream x) (rc_response x) in
  mkReceiving s r (rc_received x ++ response_accepts e (rc_stream x)).

Definition receiving (evs : list ResponseEvent) (s : H2Stream) (h : HeadHead) : Receiving :=
  fold_left receiving_step evs (mkReceiving s (buildResponse h) []).

Definition received_bytes (x : Receiving) : Answer bytes := response_bytes (rc_stream x) (rc_response x).
Definition received_text (x : Receiving) : Answer jsstring := text (rc_stream x) (rc_response x).

Definition event_failures (evs : list ResponseEvent) : list exn :=
  omap (λ e, match e with ROn (SFail x) => Some x | _ => None end) evs.

(** ** Proofs *)

Section Delivery.
Context (s0 : H2Stream) (h : HeadHead).

Abbreviation after evs := (receiving evs s0 h).

Lemma receiving_snoc evs e : after (evs ++ [e]) = receiving_step (after evs) e.
Proof. unfold receiving. by rewrite fold_left_app. Qed.

Lemma event_failures_snoc evs e : event_failures (evs ++ [e]) = event_failures evs ++ event_failures [e].
Proof. apply omap_app. Qed.

Lemma step_stream x e :
  rc_stream (receiving_step x e) =
    match response_op e (rc_response x) with Some op => stream_op op (rc_stream x) | None => rc_stream x end.
Proof. unfold receiving_step, response_step. by destruct e. Qed.

Lemma step_received x e :
  rc_received (receiving_step x e) =
    rc_received x ++
    match response_op e (rc_response x) with Some op => accepted_by op (rc_stream x) | None => [] end.
Proof.
  unfold receiving_step, response_step, response_accepts. destruct e as [[]| | |]; cbn; try done.
  by destruct (holder _).
Qed.

Lemma op_failures e r :
  event_failures [e] = match response_op e r with Some op => failures [op] | None => [] end.
Proof. destruct e as [[]| | |]; cbn; try done. by destruct (holder r). Qed.

(** A history performs operations on the stream, and each prefix of these is what a prefix of the
    history performs. *)
Definition performs (evs : list ResponseEvent) (ops : list StreamOp) : Prop :=
  stream_run ops s0 = (rc_stream (after evs), rc_received (after evs)) ∧
  failures ops = event_failures evs.

Lemma performed evs :
  ∃ ops, performs evs ops ∧
    ∀ ops1 ops2, ops = ops1 ++ ops2 → ∃ evs1 evs2, evs = evs1 ++ evs2 ∧ performs evs1 ops1.
Proof.
  induction evs as [|e evs IH] using rev_ind.
  { exists []. split; [done|]. intros ops1 ops2 [-> _]%eq_sym%app_nil. by exists [], []. }
  destruct IH as (ops & [H1 H2] & IH).
  exists (ops ++ match response_op e (rc_response (after evs)) with Some op => [op] | None => [] end).
  assert (performs (evs ++ [e]) (ops ++ match response_op e (rc_response (after evs)) with Some op => [op] | None => [] end)) as Hall.
  { unfold performs. rewrite receiving_snoc, step_stream, step_received, event_failures_snoc.
    rewrite (op_failures e (rc_response (after evs))).
    destruct (response_op e _) as [op|].
    - by rewrite stream_run_snoc, failures_snoc, H1, H2.
    - by rewrite !app_nil_r, H1, H2. }
  split; [done|]. intros ops1 ops2 Heq.
  destruct (response_op e _) as [op|] eqn:Hop.
  - destruct ops2 as [|op2 ops2 _] using rev_ind.
    + rewrite app_nil_r in Heq. subst ops1. exists (evs ++ [e]), []. by rewrite app_nil_r.
    + rewrite app_assoc in Heq. apply app_inj_tail in Heq as [Heq _].
      destruct (IH _ _ Heq) as (evs1 & evs2 & -> & Hp). exists evs1, (evs2 ++ [e]). by rewrite app_assoc.
  - rewrite app_nil_r in Heq. destruct (IH _ _ Heq) as (evs1 & evs2 & -> & Hp).
    exists evs1, (evs2 ++ [e]). by rewrite app_assoc.
Qed.

(** *** The log only grows by pulls, and not once the body is done *)

Lemma op_log op s :
  (controller (stream_op op s) = controller s ∧ bodyDone (stream_op op s) = bodyDone s) ∨
  (op = SPull ∧ bodyDone s = false ∧ ∃ c, controller (stream_op op s) = controller s ++ [c]).
Proof.
  destruct op as [hs fin|d fin|e|]; cbn [stream_op].
  - left. unfold receiveHeaders. destruct (gotHead s); cbn [negb]; try destruct (is_interim _); by destruct fin.
  - left. unfold receiveData. by destruct (_ && _), fin.
  - left. unfold fail, abort_stopped. destruct (stopped s), (sw_close _) as [win woken]; cbn;
      destruct (gotHead s), (recvError s) eqn:Hr; cbn; rewrite ?Hr; done.
  - destruct (bodyDone s) eqn:Hd; cbn [orb]; [by left|]. destruct (recvNotify s); [by left|].
    unfold pullBody. destruct (recvQueue s); [destruct (recvError s); [|destruct (recvEnded s)]|];
      cbn; rewrite ?Hd; eauto.
Qed.

Lemma step_log x e :
  (controller (rc_stream (receiving_step x e)) = controller (rc_stream x) ∧
   bodyDone (rc_stream (receiving_step x e)) = bodyDone (rc_stream x)) ∨
  (e = ROn SPull ∧ holder (rc_response x) ≠ Nobody ∧ bodyDone (rc_stream x) = false ∧
   ∃ c, controller (rc_stream (receiving_step x e)) = controller (rc_stream x) ++ [c]).
Proof.
  rewrite step_stream. destruct (response_op e _) as [op|] eqn:Hop; [|by left].
  destruct (op_log op (rc_stream x)) as [H|(-> & Hd & H)]; [by left|].
  right. destruct e as [[]| | |]; cbn in Hop; try discriminate.
  destruct (holder (rc_response x)); [discriminate|done..].
Qed.

(** *** What the response's promise is *)

Lemma drain_chunks acc l reads : drain acc (map Enqueue l ++ reads) = drain (acc ++ l) reads.
Proof.
  revert acc. induction l as [|c l IH]; intros acc; cbn; [by rewrite app_nil_r|].
  by rewrite IH, <- app_assoc.
Qed.

Lemma chunks_read_log s chunks fin :
  controller s = map Enqueue chunks ++ fin → (∀ c, Enqueue c ∉ fin) → chunks_read s = chunks.
Proof.
  intros E Hf. unfold chunks_read. rewrite E, omap_app.
  assert (omap (λ c, match c with Enqueue chunk => Some chunk | _ => None end) fin = []) as ->.
  { clear E. induction fin as [|[c|x|] fin IH]; cbn; [done| |apply IH; set_solver..].
    destruct (Hf c). set_solver. }
  rewrite app_nil_r. clear. induction chunks; cbn; congruence.
Qed.

(** A promise of [drain] starts at a chunk boundary of the log; without a reader of the
    application it starts at the beginning, and nothing is read before. *)
Definition starts (evs : list ResponseEvent) (x : Receiving) : Prop :=
  match consumed (rc_response x) with
  | Drains k => holder (rc_response x) = Drain ∧ (k ≤ length (chunks_read (rc_stream x)))%nat
  | _ => True
  end ∧
  (RGetReader ∉ evs →
   holder (rc_response x) ≠ Application ∧
   match consumed (rc_response x) with
   | Unread => holder (rc_response x) = Nobody ∧ controller (rc_stream x) = []
   | BodyLocked => False
   | Drains k => k = 0%nat
   end) ∧
  (RConsume ∈ evs → consumed (rc_response x) ≠ Unread).

Lemma chunks_read_step x e :
  (length (chunks_read (rc_stream x)) ≤ length (chunks_read (rc_stream (receiving_step x e))))%nat.
Proof.
  unfold chunks_read. destruct (step_log x e) as [[-> _]|(_ & _ & _ & c & ->)]; [done|].
  rewrite omap_app, length_app. lia.
Qed.

Ltac starts_case Hin Hco H2 :=
  first
    [ done
    | by intros [?|?]%Hco; [auto|done]
    | intuition (first [congruence | lia])
    | let Hg := fresh in
      intros [Hg ?]%Hin; specialize (H2 Hg); destruct_and?; split_and!; unfold chunks_read;
      repeat match goal with E : controller _ = [] |- _ => rewrite E end; done ].

Lemma starts_step evs x e : starts evs x → starts (evs ++ [e]) (receiving_step x e).
Proof.
  intros (H1 & H2 & H3). pose proof (chunks_read_step x e) as Hlen.
  assert (RGetReader ∉ evs ++ [e] → RGetReader ∉ evs ∧ e ≠ RGetReader) as Hin by set_solver.
  assert (RConsume ∈ evs ++ [e] → RConsume ∈ evs ∨ e = RConsume) as Hco by set_solver.
  pose proof (step_log x e) as Hlog. unfold starts, receiving_step in *.
  destruct x as [s [es st hs rh ho co] rb], e as [op| | |];
    cbn [response_step rc_stream rc_response rc_received] in *.
  - cbn in *. split_and!.
    + destruct co; [done..|]. destruct H1. split; [done|lia].
    + intros [Hg _]%Hin. destruct (H2 Hg) as [Ha Hb]. split; [done|].
      destruct co; [|done..]. destruct Hb as [-> Hb].
      destruct Hlog as [[-> _]|(_ & [] & _)]; done.
    + intros [?|?]%Hco; [auto|done].
  - destruct ho, co; cbn in *; split_and!; starts_case Hin Hco H2.
  - destruct ho, co, (recvNotify s); cbn in *; split_and!; starts_case Hin Hco H2.
  - unfold consume in *. destruct ho, co; cbn in *; split_and!; starts_case Hin Hco H2.
Qed.

Lemma starts_after evs : controller s0 = [] → starts evs (after evs).
Proof.
  intros E. induction evs as [|e evs IH] using rev_ind.
  - unfold starts. cbn. split_and!; [done|done|set_solver].
  - rewrite receiving_snoc. by apply starts_step.
Qed.

Lemma consumed_step x e :
  consumed (rc_response x) ≠ Unread →
  consumed (rc_response (receiving_step x e)) = consumed (rc_response x).
Proof.
  intros Hc. unfold receiving_step. destruct e; cbn; [done|by destruct (holder (rc_response x))| |].
  - destruct (holder (rc_response x)); [done| |done]. by destruct (recvNotify (rc_stream x)).
  - unfold consume. destruct (consumed (rc_response x)) eqn:E; [done|by rewrite E..].
Qed.

(** A settled promise keeps its settlement. *)
Lemma settled_step evs x e :
  starts evs x → (bodyDone (rc_stream x) = false → ∃ chunks, controller (rc_stream x) = map Enqueue chunks) →
  received_bytes x ≠ Waits → received_bytes (receiving_step x e) = received_bytes x.
Proof.
  intros (H1 & _ & _) Hopen Hs. unfold received_bytes, response_bytes in *.
  destruct (consumed (rc_response x)) as [| |k] eqn:Hcons; [done|by rewrite (consumed_step x e); rewrite Hcons|].
  rewrite (consumed_step x e), Hcons by (by rewrite Hcons).
  destruct (step_log x e) as [[-> _]|(_ & _ & Hd & _)]; [done|].
  destruct (Hopen Hd) as [chunks Hc]. destruct Hs.
  by rewrite Hc, skipn_map, <- (app_nil_r (map _ _)), drain_chunks.
Qed.

(** What [Stream.body_inv_run] says of the log after a history. *)
Definition log_ok (evs : list ResponseEvent) (x : Receiving) : Prop :=
  ∃ chunks fin,
    controller (rc_stream x) = map Enqueue chunks ++ fin ∧
    mjoin chunks ++ mjoin (recvQueue (rc_stream x)) = rc_received x ∧
    ((fin = [] ∧ bodyDone (rc_stream x) = false) ∨
     (fin = [CtlClose] ∧ bodyDone (rc_stream x) = true ∧ recvQueue (rc_stream x) = [] ∧
        ∃ evs1 evs2, evs = evs1 ++ evs2 ∧ event_failures evs1 = [] ∧
          recvEnded (rc_stream (after evs1)) = true) ∨
     (∃ e, fin = [CtlError e] ∧ bodyDone (rc_stream x) = true ∧ event_failures evs !! 0%nat = Some e)).

Lemma receiving_log :
  controller s0 = [] → recvQueue s0 = [] → recvBuffered s0 = 0 → recvError s0 = None →
  bodyDone s0 = false → ∀ evs, log_ok evs (after evs).
Proof.
  intros E1 E2 E3 E4 E5 evs. destruct (performed evs) as (ops & [Hrun Hf] & Hpre).
  pose proof (body_inv_run s0 ops E1 E2 E3 E4 E5) as (chunks & fin & Hc & Hq & _ & _ & Hfin).
  rewrite Hrun in *. cbn [fst snd] in *. exists chunks, fin. split_and!; [done..|].
  destruct Hfin as [H|[(-> & Hd & Hr & ops1 & ops2 & -> & Hno & Hend)|(e & -> & Hd & _ & He)]]; [by left| |].
  - right. left. split_and!; [done..|]. destruct (Hpre ops1 ops2 eq_refl) as (evs1 & evs2 & -> & [Hr1 Hf1]).
    exists evs1, evs2. rewrite <- Hf1. rewrite Hr1 in Hend. done.
  - right. right. exists e. by rewrite <- Hf.
Qed.

Lemma log_open evs x :
  log_ok evs x → bodyDone (rc_stream x) = false → ∃ chunks, controller (rc_stream x) = map Enqueue chunks.
Proof.
  intros (chunks & fin & Hc & _ & [[-> _]|[(_ & Hd & _)|(e & _ & Hd & _)]]) Ho; [|congruence..].
  exists chunks. by rewrite Hc, app_nil_r.
Qed.

Lemma promise_spec evs x :
  starts evs x → log_ok evs x →
  match received_bytes x with
  | Gives body =>
      (∃ earlier, earlier ++ body = rc_received x ∧ (RGetReader ∉ evs → earlier = [])) ∧
      ∃ evs1 evs2, evs = evs1 ++ evs2 ∧ event_failures evs1 = [] ∧ recvEnded (rc_stream (after evs1)) = true
  | Fails e => event_failures evs !! 0%nat = Some e
  | LockedError => RGetReader ∈ evs
  | Waits => RConsume ∈ evs → bodyDone (rc_stream x) = false
  end.
Proof.
  intros (H1 & H2 & H3) (chunks & fin & Hc & Hq & Hfin). unfold received_bytes, response_bytes.
  destruct (consumed (rc_response x)) as [| |k].
  { intros Hu. by destruct (H3 Hu). }
  { destruct (decide (RGetReader ∈ evs)) as [|Hg]; [done|]. by destruct (H2 Hg). }
  destruct H1 as [_ Hk].
  assert (chunks_read (rc_stream x) = chunks) as Hr.
  { apply (chunks_read_log _ _ fin Hc). intros c.
    destruct Hfin as [[-> _]|[(-> & _)|(e & -> & _)]]; set_solver. }
  rewrite Hr in Hk. rewrite Hc, skipn_app, length_map, skipn_map.
  replace (k - length chunks)%nat with 0%nat by lia. rewrite drop_0, drain_chunks. cbn [app].
  destruct Hfin as [[-> Hd]|[(-> & Hd & Hqe & Hclean)|(e & -> & Hd & He)]]; cbn; [done| |done].
  split; [|done]. exists (mjoin (take k chunks)). rewrite concatBytes_spec, <- join_app, take_drop.
  rewrite Hqe in Hq. cbn in Hq. rewrite app_nil_r in Hq. split; [done|].
  intros Hg. destruct (H2 Hg) as [_ ->]. done.
Qed.
End Delivery.

(** C19: over every interleaving of arriving headers, data and failures with reads, [bytes()] gives
    exactly the bytes of the body, in order (less what readers of the application took before),
    and only when END_STREAM came before any failure: a reset never looks like a clean end, it
    rejects the promise, and the first failure is the reason.  The promise is refused only when the
    application had taken a reader, waits only as long as the body is not finished, and
    once settled never changes: calling again gives the same.  [text()] of a text sent as UTF-8,
    however it was cut into chunks, is that text. *)
Theorem response_delivers evs sid w rw h :
  let after evs := receiving evs (stream_new sid w open rw) h in
  let x := after evs in
  match received_bytes x with
  | Gives body =>
      (∃ earlier, earlier ++ body = rc_received x ∧ (RGetReader ∉ evs → earlier = [])) ∧
      ∃ evs1 evs2, evs = evs1 ++ evs2 ∧ event_failures evs1 = [] ∧ recvEnded (rc_stream (after evs1)) = true
  | Fails e => event_failures evs !! 0%nat = Some e
  | LockedError => RGetReader ∈ evs
  | Waits => RConsume ∈ evs → bodyDone (rc_stream x) = false
  end ∧
  (∀ more, received_bytes x ≠ Waits → received_bytes (after (evs ++ more)) = received_bytes x) ∧
  (∀ s t, RGetReader ∉ evs → well_formed s = true → list.head s ≠ Some BOM →
     rc_received x = encodeUtf8 s → received_text x = Gives t → t = s).
Proof.
  cbv zeta. set (s0 := stream_new sid w open rw).
  pose proof (receiving_log s0 h eq_refl eq_refl eq_refl eq_refl eq_refl) as Hlog.
  pose proof (λ evs, starts_after s0 h evs eq_refl) as Hst. split_and!.
  - apply (promise_spec s0 h evs _ (Hst evs) (Hlog evs)).
  - intros more. induction more as [|e more IH] using rev_ind; intros Hs; [by rewrite app_nil_r|].
    rewrite app_assoc, receiving_snoc. rewrite <- IH by done.
    apply (settled_step (evs ++ more)); [apply Hst|apply (log_open s0 h (evs ++ more)), Hlog|by rewrite IH].
  - intros s t Hg Hwf Hbom Hr Ht. unfold received_text, text in Ht.
    pose proof (promise_spec s0 h evs _ (Hst evs) (Hlog evs)) as Hp. unfold received_bytes in Hp.
    destruct (response_bytes _ _) as [|body| |]; cbn in Ht; try discriminate. injection Ht as <-.
    destruct Hp as [(earlier & Hb & He) _]. rewrite (He Hg) in Hb. cbn in Hb.
    by rewrite Hb, Hr, decode_encode_utf8.
Qed.

(** A euro sign in two frames, read while they arrive, with [text()] called twice. *)
Definition euro : list ResponseEvent :=
  [ROn (SHeaders [mkHeader (js ":status") (js "200") false] false); RConsume; ROn SPull;
   ROn (SData [0xE2; 0x82] false); ROn SPull; RConsume; ROn (SData [0xAC] true); ROn SPull; ROn SPull].

Lemma response_delivers_witness :
  (∀ t, received_text (receiving euro (stream_new 1 65535 open 100) (collectHeaders [])) = Gives t →
     t = [0x20AC]) ∧
  received_bytes (receiving (euro ++ [ROn (SFail (EForeign 7)); RConsume; ROn SPull])
    (stream_new 1 65535 open 100) (collectHeaders [])) = Gives [0xE2; 0x82; 0xAC].
Proof.
  destruct (response_delivers euro 1 65535 100 (collectHeaders [])) as (_ & Hmore & Htext). split.
  - intros t. apply (Htext [0x20AC]); [by apply (bool_decide_unpack _)|done|done|reflexivity].
  - rewrite Hmore; [reflexivity|]. vm_compute. discriminate.
Defined.
Example euro_text :
  received_text (receiving euro (stream_new 1 65535 open 100) (collectHeaders [])) = Gives [0x20AC].
Proof. reflexivity. Qed.

(** A body that is reset after some data rejects; one that the application reads is refused. *)
Example response_reset :
  received_bytes (receiving [RConsume; ROn (SData [1] false); ROn SPull; ROn (SFail (EForeign 7)); ROn SPull]
    (stream_new 1 65535 open 100) (collectHeaders [])) = Fails (EForeign 7).
Proof. reflexivity. Qed.
Example response_locked :
  received_bytes (receiving [RGetReader; RConsume] (stream_new 1 65535 open 100) (collectHeaders []))
    = LockedError.
Proof. reflexivity. Qed.
Example response_second_half :
  received_bytes (receiving [RGetReader; ROn (SData [1] false); ROn SPull; RRelease; RConsume;
      ROn (SData [2] true); ROn SPull; ROn SPull] (stream_new 1 65535 open 100) (collectHeaders []))
    = Gives [2].
Proof. reflexivity. Qed.
