(* ===== verification/Framing.v ===== *)
(** * Framing: [framing.ts]

    gRPC length-prefixed records over the body of an HTTP/2 stream, and the validation of the
    final status.  The generator [unframe] is modelled by what it yields and how it ends, given
    the chunks its reader delivers before [done]. *)
From S2P Require Import Prelude Errors Text Bytes HpackTables Hpack Flow Stream.
Local Open Scope Z_scope.

(** ** Errors *)

Module Code.
Definition Canceled : Z := 1.
Definition Unknown : Z := 2.
Definition InvalidArgument : Z := 3.
Definition DeadlineExceeded : Z := 4.
Definition ResourceExhausted : Z := 8.
Definition Unimplemented : Z := 12.
Definition Unavailable : Z := 14.
Definition DataLoss : Z := 15.
End Code.

(** [new ConnectError(message, code, metadata)]; absent metadata is empty. *)
Record ConnectError := mkConnectError { ce_message : jsstring; ce_code : Z; ce_metadata : jsobject }.

#[export] Instance ConnectError_eq_dec : EqDecision ConnectError.
Proof. solve_decision. Defined.

Definition connect_error (message : string) (code : Z) : ConnectError :=
  mkConnectError (js message) code [].

(** ** Records *)

Definition MAX_MESSAGE : Z := 1024 * 1024.

Definition too_large : ConnectError := connect_error "Message exceeds 1 MiB" Code.ResourceExhausted.
Definition compressed : ConnectError :=
  connect_error "Compressed messages are unsupported" Code.Unimplemented.
Definition truncated : ConnectError := connect_error "Truncated gRPC record" Code.DataLoss.

(** [target.set(source, offset)] for a source that fits. *)
Definition array_set (target source : bytes) (offset : Z) : bytes :=
  take (Z.to_nat offset) target ++ source ++ drop (Z.to_nat (offset + zlen source)) target.

Definition frame (data : bytes) : result ConnectError bytes :=
  if MAX_MESSAGE <? zlen data then Throw too_large
  else
    let result := replicate (Z.to_nat (5 + zlen data)) 0 in
    let result := array_set result (be32 (zlen data)) 1 in
    Ok (array_set result data 5).

(** The local variables of [unframe]. *)
Record UState := mkU { u_current : bytes; u_offset : Z; u_readingHeader : bool }.

Definition u_init : UState := mkU (replicate 5 0) 0 true.

Definition getUint32 (b : bytes) (i : Z) : Z :=
  default 0 (b !! Z.to_nat i) * 16777216 + default 0 (b !! Z.to_nat (i + 1)) * 65536
  + default 0 (b !! Z.to_nat (i + 2)) * 256 + default 0 (b !! Z.to_nat (i + 3)).

(** What follows once [current] is full: the next state and the message yielded, if any. *)
Definition u_full (st : UState) : result ConnectError (UState * list bytes) :=
  let current := u_current st in
  if u_readingHeader st then
    if negb (default 0 (current !! 0%nat) =? 0) then Throw compressed
    else
      let length := getUint32 current 1 in
      if MAX_MESSAGE <? length then Throw too_large
      else
        let message := replicate (Z.to_nat length) 0 in
        if negb (length =? 0) then Ok (mkU message 0 false, [])
        else Ok (u_init, [message])
  else Ok (u_init, [current]).

(** The inner [while] loop over one chunk.  A full [current] is replaced at once, so every
    round copies at least one byte and the length of the chunk is fuel enough. *)
Fixpoint u_chunk (fuel : nat) (value : bytes) (position : Z) (st : UState) (out : list bytes)
    : list bytes * result ConnectError UState :=
  match fuel with
  | O => (out, Ok st)
  | S fuel' =>
      if position <? zlen value then
        let n := Z.min (zlen (u_current st) - u_offset st) (zlen value - position) in
        let st := mkU (array_set (u_current st) (subarray value position (position + n)) (u_offset st))
                      (u_offset st + n) (u_readingHeader st) in
        let position := position + n in
        if negb (u_offset st =? zlen (u_current st)) then u_chunk fuel' value position st out
        else
          match u_full st with
          | Throw e => (out, Throw e)
          | Ok (st', yielded) => u_chunk fuel' value position st' (out ++ yielded)
          end
      else (out, Ok st)
  end.

Fixpoint u_chunks (chunks : list bytes) (st : UState) (out : list bytes)
    : list bytes * result ConnectError UState :=
  match chunks with
  | [] => (out, Ok st)
  | value :: chunks' =>
      match u_chunk (length value) value 0 st out with
      | (out', Ok st') => u_chunks chunks' st' out'
      | (out', Throw e) => (out', Throw e)
      end
  end.

Definition unframe (chunks : list bytes) : list bytes * result ConnectError unit :=
  match u_chunks chunks u_init [] with
  | (out, Throw e) => (out, Throw e)
  | (out, Ok st) =>
      (out, if negb (u_offset st =? 0) || negb (u_readingHeader st) then Throw truncated else Ok tt)
  end.

(** ** [decodeURIComponent]; [None] is a thrown [URIError] *)

Definition hex_value (u : Z) : option Z :=
  if (0x30 <=? u) && (u <=? 0x39) then Some (u - 0x30)
  else if (0x41 <=? u) && (u <=? 0x46) then Some (u - 0x41 + 10)
  else if (0x61 <=? u) && (u <=? 0x66) then Some (u - 0x61 + 10)
  else None.

(** One escape [%XX]. *)
Definition escape (s : jsstring) : option (Z * jsstring) :=
  match s with
  | 0x25 :: a :: b :: rest =>
      match hex_value a, hex_value b with
      | Some x, Some y => Some (x * 16 + y, rest)
      | _, _ => None
      end
  | _ => None
  end.
Fixpoint escapes (n : nat) (s : jsstring) : option (bytes * jsstring) :=
  match n with
  | O => Some ([], s)
  | S n' =>
      match escape s with
      | None => None
      | Some (b, rest) =>
          match escapes n' rest with
          | None => None
          | Some (bs, rest') => Some (b :: bs, rest')
          end
      end
  end.
(** The length of the UTF-8 sequence that a lead byte starts. *)
Definition sequence_length (b : Z) : option nat :=
  if b <? 0x80 then Some 1%nat
  else if b <? 0xC0 then None
  else if b <? 0xE0 then Some 2%nat
  else if b <? 0xF0 then Some 3%nat
  else if b <? 0xF8 then Some 4%nat
  else None.
Fixpoint decode_uri (fuel : nat) (s : jsstring) : option jsstring :=
  match fuel with
  | O => Some []
  | S fuel' =>
      match s with
      | [] => Some []
      | u :: rest =>
          if negb (u =? 0x25) then (λ t, u :: t) <$> decode_uri fuel' rest
          else
            match escape s with
            | None => None
            | Some (b, _) =>
                match sequence_length b with
                | None => None
                | Some n =>
                    match escapes n s with
                    | None => None
                    | Some (bs, rest') =>
                        match utf8_code_points dinit bs with
                        | [c] => if decide (utf8_bytes c = bs)
                                 then (λ t, utf16_units c ++ t) <$> decode_uri fuel' rest' else None
                        | _ => None
                        end
                    end
                end
            end
      end
  end.
Definition decodeURIComponent (s : jsstring) : option jsstring := decode_uri (length s) s.

(** ** The final status *)

(** [/^(?:[0-9]|1[0-6])$/], with the number it denotes. *)
Definition grpc_status (raw : jsstring) : option Z :=
  match raw with
  | [a] => if is_digit a then Some (a - 0x30) else None
  | [0x31; b] => if (0x30 <=? b) && (b <=? 0x36) then Some (10 + (b - 0x30)) else None
  | _ => None
  end.

(** [trailers?.[key] ?? headers[key]]. *)
Definition status_field (headers : jsobject) (trailers : option jsobject) (key : jsstring)
    : option jsstring :=
  match t ← trailers; obj_get t key with
  | Some v => Some v
  | None => obj_get headers key
  end.

(** [{ ...headers, ...trailers }]. *)
Definition spread (headers : jsobject) (trailers : option jsobject) : jsobject :=
  fold_left (λ o '(k, v), put o k v) (default [] trailers) headers.

Definition validateStatus (headers : jsobject) (trailers : option jsobject)
    : result ConnectError unit :=
  match status_field headers trailers (js "grpc-status") with
  | None => Throw (connect_error "Missing grpc-status" Code.Unknown)
  | Some raw =>
      match grpc_status raw with
      | None => Throw (connect_error "Invalid grpc-status" Code.Unknown)
      | Some code =>
          if negb (bool_decide (raw = js "0")) then
            let encoded := default (js "RPC failed") (status_field headers trailers (js "grpc-message")) in
            let message := default encoded (decodeURIComponent encoded) in
            Throw (mkConnectError message code (spread headers trailers))
          else Ok tt
      end
  end.

Example validateStatus_example :
  validateStatus [(js "content-type", js "application/grpc")]
    (Some [(js "grpc-status", js "5"); (js "grpc-message", js "not%20found %E2%82%AC")]) =
  Throw (mkConnectError (js "not found " ++ [0x20AC]) 5
    [(js "content-type", js "application/grpc"); (js "grpc-status", js "5");
     (js "grpc-message", js "not%20found %E2%82%AC")]).
Proof. vm_compute. reflexivity. Qed.

Example unframe_example :
  unframe [[0; 0; 0]; [0; 3; 7; 8]; [9; 0; 0; 0; 0]; [0; 0; 0; 0; 0; 1]; [5]] =
    ([[7; 8; 9]; []; [5]], Ok tt).
Proof. vm_compute. reflexivity. Qed.
