(* ===== verification/FramingCorrect.v ===== *)
(** * FramingCorrect: records survive any chunking, and round-trip *)
From S2P Require Import Prelude Errors Text Bytes HpackTables Hpack Flow Stream Framing.
Local Open Scope Z_scope.

(** ** Specification: records of a whole byte string *)

Fixpoint records (fuel : nat) (bs : bytes) : list bytes * result ConnectError unit :=
  match fuel with
  | O => ([], Ok tt)
  | S fuel' =>
      if zlen bs =? 0 then ([], Ok tt)
      else if zlen bs <? 5 then ([], Throw truncated)
      else if negb (default 0 (bs !! 0%nat) =? 0) then ([], Throw compressed)
      else
        let length := getUint32 bs 1 in
        if MAX_MESSAGE <? length then ([], Throw too_large)
        else
          let rest := drop 5 bs in
          if zlen rest <? length then ([], Throw truncated)
          else
            let '(out, r) := records fuel' (drop (Z.to_nat length) rest) in
            (take (Z.to_nat length) rest :: out, r)
  end.

(** ** Byte by byte *)

(** A state with [filled] bytes in and [length rest] to come. *)
Definition ust (filled rest : bytes) (rh : bool) : UState := mkU (filled ++ rest) (zlen filled) rh.

Definition u_resume (out : list bytes) (x : result ConnectError (UState * list bytes))
    (k : UState → list bytes → list bytes * result ConnectError UState) :=
  match x with
  | Throw e => (out, Throw e)
  | Ok (st, yielded) => k st (out ++ yielded)
  end.

(** Copying a block: [new] goes where [old] was. *)
Lemma array_set_mid pre old new post :
  length old = length new → array_set (pre ++ old ++ post) new (zlen pre) = pre ++ new ++ post.
Proof.
  intros Hl. unfold array_set. rewrite take_zlen_app. do 2 f_equal.
  rewrite app_assoc. replace (zlen pre + zlen new) with (zlen (pre ++ old))
    by (rewrite zlen_app; unfold zlen; lia).
  apply drop_zlen_app.
Qed.

(** One round of the loop on a state with space left. *)
Lemma u_chunk_round fuel pos pre value filled r1 r2 rh out bs1 bs2 :
  value = pre ++ bs1 ++ bs2 → pos = zlen pre → length r1 = length bs1 → bs1 ≠ [] →
  bs2 = [] ∨ r2 = [] →
  u_chunk (S fuel) value pos (ust filled (r1 ++ r2) rh) out =
    if bool_decide (r2 = [])
    then u_resume out (u_full (ust (filled ++ bs1) [] rh))
           (λ st out, u_chunk fuel value (zlen (pre ++ bs1)) st out)
    else u_chunk fuel value (zlen (pre ++ bs1)) (ust (filled ++ bs1) r2 rh) out.
Proof.
  intros -> -> Hl Hne Hcase. cbn [u_chunk].
  assert (0 < zlen bs1) as Hpos by (destruct bs1; [done|]; rewrite zlen_cons; zl).
  assert (zlen r1 = zlen bs1) as Hz by (unfold zlen; by rewrite Hl).
  rewrite (proj2 (Z.ltb_lt _ _)) by zl. cbv zeta. unfold ust. cbn [u_current u_offset u_readingHeader].
  replace (Z.min _ _) with (zlen bs1) by (destruct Hcase as [-> | ->]; zl).
  rewrite subarray_mid, (array_set_mid filled r1 bs1 r2) by done.
  replace (zlen filled + zlen bs1) with (zlen (filled ++ bs1)) by zl.
  replace (zlen pre + zlen bs1) with (zlen (pre ++ bs1)) by zl.
  rewrite app_assoc. destruct r2 as [|x r2].
  - rewrite bool_decide_eq_true_2, app_nil_r, Z.eqb_refl by done. cbn [negb].
    unfold u_resume. destruct (u_full _) as [[st y]|e]; done.
  - rewrite bool_decide_eq_false_2 by done.
    rewrite (proj2 (Z.eqb_neq _ _)) by zl. done.
Qed.

(** The same machine fed one byte at a time. *)
Fixpoint u_feed (bs : bytes) (st : UState) (out : list bytes)
    : list bytes * result ConnectError UState :=
  match bs with
  | [] => (out, Ok st)
  | b :: bs' =>
      let st1 := mkU (array_set (u_current st) [b] (u_offset st)) (u_offset st + 1)
                     (u_readingHeader st) in
      if u_offset st1 =? zlen (u_current st1) then u_resume out (u_full st1) (u_feed bs')
      else u_feed bs' st1 out
  end.

Lemma u_feed_cons b bs f x r2 rh out :
  u_feed (b :: bs) (ust f (x :: r2) rh) out =
    if bool_decide (r2 = []) then u_resume out (u_full (ust (f ++ [b]) [] rh)) (u_feed bs)
    else u_feed bs (ust (f ++ [b]) r2 rh) out.
Proof.
  cbn [u_feed]. unfold ust. cbn [u_current u_offset u_readingHeader].
  pose proof (array_set_mid f [x] [b] r2 eq_refl) as Ha. cbn [app] in Ha. rewrite Ha.
  replace (zlen f + 1) with (zlen (f ++ [b])) by zl. 
  change (f ++ b :: r2) with (f ++ [b] ++ r2). rewrite app_assoc.
  destruct r2 as [|y r2].
  - by rewrite bool_decide_eq_true_2, app_nil_r, Z.eqb_refl by done.
  - rewrite bool_decide_eq_false_2 by done. rewrite (proj2 (Z.eqb_neq _ _)) by zl. done.
Qed.

Lemma u_feed_bulk bs1 bs2 f r1 r2 rh out :
  length r1 = length bs1 → bs1 ≠ [] →
  u_feed (bs1 ++ bs2) (ust f (r1 ++ r2) rh) out =
    if bool_decide (r2 = []) then u_resume out (u_full (ust (f ++ bs1) [] rh)) (u_feed bs2)
    else u_feed bs2 (ust (f ++ bs1) r2 rh) out.
Proof.
  revert f r1. induction bs1 as [|b bs1 IH]; intros f r1 Hl Hne; [done|].
  destruct r1 as [|x r1]; [done|]. cbn [app]. rewrite u_feed_cons.
  destruct bs1 as [|b' bs1].
  { destruct r1; [|done]. done. }
  destruct r1 as [|x' r1]; [done|]. rewrite bool_decide_eq_false_2 by done.
  rewrite (IH (f ++ [b]) (x' :: r1)) by (done || (cbn in *; lia)). by rewrite <- app_assoc.
Qed.

(** States between rounds: space left, and only bytes in the buffer. *)
Definition u_good (st : UState) : Prop :=
  ∃ f rest rh, st = ust f rest rh ∧ rest ≠ [] ∧ Forall is_byte f.

Lemma getUint32_nonneg bs i : Forall is_byte bs → 0 ≤ getUint32 bs i.
Proof.
  intros Hb. unfold getUint32.
  assert (∀ j, 0 ≤ default 0 (bs !! j)) as H.
  { intros j. destruct (bs !! j) eqn:E; cbn; [|lia]. apply (Forall_lookup_1 _ _ _ _ Hb) in E.
    unfold is_byte in E. lia. }
  pose proof (H (Z.to_nat i)). pose proof (H (Z.to_nat (i + 1))).
  pose proof (H (Z.to_nat (i + 2))). pose proof (H (Z.to_nat (i + 3))). lia.
Qed.

Lemma u_init_ust : u_init = ust [] (replicate 5 0) true.
Proof. done. Qed.

Lemma u_full_good f rh st y :
  Forall is_byte f → u_full (ust f [] rh) = Ok (st, y) → u_good st.
Proof.
  intros Hf. unfold u_full, ust. cbn [u_current u_readingHeader]. rewrite app_nil_r.
  assert (u_good u_init) as Hi by (exists [], (replicate 5 0), true; by repeat split).
  destruct rh; [|by intros [= <- _]]. destruct (negb _); [done|].
  pose proof (getUint32_nonneg f 1 Hf) as Hn. destruct (MAX_MESSAGE <? _); [done|].
  destruct (Z.eqb_spec (getUint32 f 1) 0) as [|Hne]; cbn [negb]; [by intros [= <- _]|].
  intros [= <- _]. exists [], (replicate (Z.to_nat (getUint32 f 1)) 0), false.
  split_and!; [done| |apply Forall_nil_2].
  intros E%(f_equal length). rewrite length_replicate in E. cbn in E. lia.
Qed.

Lemma u_chunk_feed fuel bs pre st out :
  (length bs ≤ fuel)%nat → Forall is_byte bs → u_good st →
  u_chunk fuel (pre ++ bs) (zlen pre) st out = u_feed bs st out.
Proof.
  revert bs pre st out. induction fuel as [|n IH]; intros bs pre st out Hf Hb Hst.
  { destruct bs; [done|cbn in Hf; lia]. }
  destruct bs as [|b bs].
  { cbn [u_chunk]. by rewrite app_nil_r, (proj2 (Z.ltb_ge _ _)) by lia. }
  destruct Hst as (f & rest & rh & -> & Hrest & Hfb).
  set (k := Nat.min (length rest) (length (b :: bs))).
  assert (0 < k)%nat as Hk by (unfold k; destruct rest; [done|cbn; lia]).
  set (bs1 := take k (b :: bs)). set (bs2 := drop k (b :: bs)).
  assert (b :: bs = bs1 ++ bs2) as Ebs by (symmetry; apply take_drop).
  set (r1 := take k rest). set (r2 := drop k rest).
  assert (rest = r1 ++ r2) as Er by (symmetry; apply take_drop).
  assert (length bs1 = k ∧ length r1 = k) as [L1 L2]
    by (unfold bs1, r1; rewrite !length_take; lia).
  assert (bs1 ≠ []) as Hne by (intros E; rewrite E in L1; cbn in L1; lia).
  assert (bs2 = [] ∨ r2 = []) as Hcase.
  { destruct (Nat.le_ge_cases (length rest) (length (b :: bs))).
    - right. apply nil_length_inv. unfold r2. rewrite length_drop. lia.
    - left. apply nil_length_inv. unfold bs2. rewrite length_drop. lia. }
  rewrite Ebs in Hb, Hf |- *. rewrite length_app in Hf.
  apply Forall_app in Hb as [Hb1 Hb2]. rewrite Er. clearbody bs1 bs2 r1 r2.
  rewrite (u_chunk_round n _ pre _ f r1 r2 rh out bs1 bs2) by (done || lia).
  rewrite u_feed_bulk by (done || lia). rewrite app_assoc.
  assert (Forall is_byte (f ++ bs1)) as Hfb1 by (by apply Forall_app_2).
  case_bool_decide as Hr2.
  - unfold u_resume. destruct (u_full (ust (f ++ bs1) [] rh)) as [[st y]|e] eqn:Hu; [|done].
    apply IH; [lia|done|]. by eapply u_full_good.
  - apply IH; [lia|done|]. by exists (f ++ bs1), r2, rh.
Qed.

Lemma u_feed_app a b st out :
  u_feed (a ++ b) st out =
    match u_feed a st out with
    | (out', Ok st') => u_feed b st' out'
    | (out', Throw e) => (out', Throw e)
    end.
Proof.
  revert st out. induction a as [|x a IH]; intros st out; cbn [app u_feed]; [done|].
  destruct (_ =? _); [|apply IH]. unfold u_resume. destruct (u_full _) as [[st' y]|e]; [apply IH|done].
Qed.

Lemma u_feed_good bs st out out' st' :
  Forall is_byte bs → u_good st → u_feed bs st out = (out', Ok st') → u_good st'.
Proof.
  revert st out. induction bs as [|b bs IH]; intros st out Hb Hst H; [by injection H as _ <-|].
  apply Forall_cons_1 in Hb as [Hb Hbs]. destruct Hst as (f & rest & rh & -> & Hne & Hf).
  destruct rest as [|x r2]; [done|]. rewrite u_feed_cons in H.
  assert (Forall is_byte (f ++ [b])) as Hfb by (apply Forall_app_2; [done|by constructor]).
  case_bool_decide.
  - unfold u_resume in H. destruct (u_full _) as [[st y]|e] eqn:Hu; [|done].
    eapply IH; [done| |exact H]. by eapply u_full_good.
  - eapply IH; [done| |exact H]. by exists (f ++ [b]), r2, rh.
Qed.

Lemma u_chunks_feed chunks st out :
  Forall (Forall is_byte) chunks → u_good st → u_chunks chunks st out = u_feed (mjoin chunks) st out.
Proof.
  intros Hc. revert st out. induction Hc as [|c cs Hc Hcs IH]; intros st out Hst; [done|].
  change (mjoin (c :: cs)) with (c ++ mjoin cs : bytes). rewrite u_feed_app. cbn [u_chunks].
  pose proof (u_chunk_feed (length c) c [] st out (Nat.le_refl _) Hc Hst) as H.
  cbn [app] in H. change (zlen (@nil Z)) with 0 in H. rewrite H.
  destruct (u_feed c st out) as [out' [st'|e]] eqn:Hf; [|done]. apply IH. by eapply u_feed_good.
Qed.

(** ** The machine computes the records *)

(** The end of [unframe]. *)
Definition u_finish (x : list bytes * result ConnectError UState)
    : list bytes * result ConnectError unit :=
  match x with
  | (out, Throw e) => (out, Throw e)
  | (out, Ok st) =>
      (out, if negb (u_offset st =? 0) || negb (u_readingHeader st) then Throw truncated else Ok tt)
  end.

(** Input that ends before the buffer is full. *)
Lemma u_feed_short bs rest rh out :
  (length bs < length rest)%nat → bs ≠ [] ∨ rh = false →
  u_finish (u_feed bs (ust [] rest rh) out) = (out, Throw truncated).
Proof.
  intros Hl Hne. destruct bs as [|b bs].
  { destruct Hne as [| ->]; [done|]. cbn. done. }
  rewrite <- (take_drop (length (b :: bs)) rest), <- (app_nil_r (b :: bs)) at 1.
  rewrite u_feed_bulk by (done || rewrite length_take; lia).
  rewrite bool_decide_eq_false_2 by (intros E%(f_equal length); rewrite length_drop in E; cbn in *; lia).
  cbn [u_feed u_finish]. unfold ust. cbn [u_offset app]. rewrite (proj2 (Z.eqb_neq _ 0)) by zl. done.
Qed.

Lemma lookup_take_default (bs : bytes) k i :
  (i < k)%nat → default 0 (take k bs !! i) = default 0 (bs !! i).
Proof. intros H. by rewrite lookup_take_lt. Qed.

Lemma getUint32_take bs : getUint32 (take 5 bs) 1 = getUint32 bs 1.
Proof. unfold getUint32. by rewrite !lookup_take_default by (vm_compute; lia). Qed.

Lemma u_full_header f :
  u_full (ust f [] true) =
    if negb (default 0 (f !! 0%nat) =? 0) then Throw compressed
    else if MAX_MESSAGE <? getUint32 f 1 then Throw too_large
    else if negb (getUint32 f 1 =? 0)
    then Ok (ust [] (replicate (Z.to_nat (getUint32 f 1)) 0) false, [])
    else Ok (u_init, [replicate (Z.to_nat (getUint32 f 1)) 0]).
Proof. unfold u_full, ust. cbn [u_current u_readingHeader]. by rewrite app_nil_r. Qed.

Lemma u_full_message f : u_full (ust f [] false) = Ok (u_init, [f]).
Proof. unfold u_full, ust. cbn [u_current u_readingHeader]. by rewrite app_nil_r. Qed.

Lemma u_feed_records fuel bs out :
  (length bs ≤ fuel)%nat → Forall is_byte bs →
  u_finish (u_feed bs u_init out) = let '(o, r) := records fuel bs in (out ++ o, r).
Proof.
  revert bs out. induction fuel as [|n IH]; intros bs out Hf Hb.
  { destruct bs; [cbn [records]; by rewrite app_nil_r|cbn in Hf; lia]. }
  cbn [records]. destruct bs as [|b bs].
  { by rewrite zlen_nil, Z.eqb_refl, app_nil_r. }
  set (all := b :: bs) in *. assert (all ≠ []) as Hne by done. clearbody all.
  rewrite (proj2 (Z.eqb_neq (zlen all) 0)) by (intros E%zlen_0_inv; done).
  destruct (Z.ltb_spec (zlen all) 5) as [Hshort|Hlong].
  { rewrite app_nil_r, u_init_ust, u_feed_short; [done| |by left].
    rewrite length_replicate. unfold zlen in Hshort. lia. }
  assert (length (take 5 all) = 5%nat) as Hl5 by (rewrite length_take; unfold zlen in Hlong; lia).
  rewrite <- (take_drop 5 all) at 1. rewrite u_init_ust.
  rewrite <- (app_nil_r (replicate 5 0)).
  rewrite u_feed_bulk by ((by rewrite Hl5) || (intros E; by rewrite E in Hl5)).
  rewrite bool_decide_eq_true_2 by done. cbn [app].
  assert (Forall is_byte (drop 5 all)) as Hbr by (by apply Forall_drop).
  assert (length (drop 5 all) ≤ n)%nat as Hfr by (rewrite length_drop; lia).
  pose proof (getUint32_nonneg all 1 Hb) as Hn.
  rewrite u_full_header, lookup_take_default, getUint32_take by lia.
  destruct (negb (default 0 (all !! 0%nat) =? 0)); [by rewrite app_nil_r|].
  destruct (MAX_MESSAGE <? getUint32 all 1); [by rewrite app_nil_r|].
  set (L := getUint32 all 1) in *. set (rest := drop 5 all) in *. clearbody rest L.
  destruct (Z.eqb_spec L 0) as [->|HL]; cbn [negb].
  - cbn [u_resume]. rewrite (proj2 (Z.ltb_ge _ 0)) by zl. rewrite drop_0, IH by done.
    destruct (records n rest) as [o r]. by rewrite <- app_assoc.
  - cbn [u_resume]. rewrite app_nil_r.
    destruct (Z.ltb_spec (zlen rest) L) as [Hlt|Hge].
    + rewrite app_nil_r. apply u_feed_short; [|by right].
      rewrite length_replicate. unfold zlen in Hlt. lia.
    + rewrite <- (take_drop (Z.to_nat L) rest) at 1. rewrite <- (app_nil_r (replicate _ 0)).
      assert (length (take (Z.to_nat L) rest) = Z.to_nat L) as HlL
        by (rewrite length_take; unfold zlen in Hge; lia).
      rewrite u_feed_bulk by ((by rewrite length_replicate, HlL) || (intros E; rewrite E in HlL; cbn in HlL; lia)).
      rewrite bool_decide_eq_true_2 by done. cbn [app].
      rewrite u_full_message. cbn [u_resume].
      rewrite IH; [|rewrite length_drop; lia|by apply Forall_drop].
      destruct (records n _) as [o r]. by rewrite <- app_assoc.
Qed.

Lemma mjoin_bytes (chunks : list bytes) :
  Forall (Forall is_byte) chunks → Forall is_byte (mjoin chunks).
Proof.
  induction 1 as [|c cs Hc _ IH]; [apply Forall_nil_2|].
  change (mjoin (c :: cs)) with (c ++ mjoin cs : bytes). by apply Forall_app_2.
Qed.

Lemma unframe_records chunks :
  Forall (Forall is_byte) chunks →
  unframe chunks = records (length (mjoin chunks)) (mjoin chunks).
Proof.
  intros Hc. change (unframe chunks) with (u_finish (u_chunks chunks u_init [])).
  rewrite u_chunks_feed; [|done|by exists [], (replicate 5 0), true].
  rewrite (u_feed_records (length (mjoin chunks))); [|done|by apply mjoin_bytes].
  by destruct (records _ _).
Qed.

(** How the body is cut into chunks does not matter: [unframe] yields the records of the
    concatenated bytes, in order, and fails exactly where they do: on the first compressed
    record, on the first record over 1 MiB, or with DATA_LOSS when the body ends inside a
    record. *)
Theorem unframe_chunking chunks :
  Forall (Forall is_byte) chunks →
  unframe chunks = records (length (mjoin chunks)) (mjoin chunks).
Proof. apply unframe_records. Qed.

Lemma unframe_chunking_witness :
  unframe [[0; 0; 0]; [0; 3; 7; 8]; [9; 0; 0; 0]] = ([[7; 8; 9]], Throw truncated).
Proof. rewrite unframe_chunking by (repeat constructor; vm_compute; congruence). reflexivity. Defined.

(** ** Round trip *)

Lemma frame_bytes data :
  zlen data ≤ MAX_MESSAGE → frame data = Ok (0 :: be32 (zlen data) ++ data).
Proof.
  intros Hd. unfold frame. rewrite (proj2 (Z.ltb_ge _ _)) by done. f_equal.
  replace (Z.to_nat (5 + zlen data)) with (5 + length data)%nat by (unfold zlen; lia).
  rewrite replicate_add. pose proof (array_set_mid [0] (replicate 4 0) (be32 (zlen data))
    (replicate (length data) 0) eq_refl) as H1.
  change (replicate 5 0) with ([0] ++ replicate 4 0). rewrite <- app_assoc.
  change (zlen [0]) with 1 in H1. rewrite H1.
  pose proof (array_set_mid (0 :: be32 (zlen data)) (replicate (length data) 0) data []) as H2.
  rewrite !app_nil_r in H2. change (zlen (0 :: be32 (zlen data))) with 5 in H2.
  apply H2. by rewrite length_replicate.
Qed.

Lemma getUint32_be32 n rest : 0 ≤ n < 2 ^ 32 → getUint32 (0 :: be32 n ++ rest) 1 = n.
Proof.
  intros Hn. unfold getUint32, be32. cbn [app].
  change (Z.to_nat 1) with 1%nat. change (Z.to_nat (1 + 1)) with 2%nat.
  change (Z.to_nat (1 + 2)) with 3%nat. change (Z.to_nat (1 + 3)) with 4%nat.
  change (n / 16777216 mod 256 * 16777216 + n / 65536 mod 256 * 65536 +
          n / 256 mod 256 * 256 + n mod 256 = n).
  Z.to_euclidean_division_equations; lia.
Qed.

Definition record_bytes (data : bytes) : bytes := 0 :: be32 (zlen data) ++ data.

Lemma record_bytes_bytes m : Forall is_byte m → Forall is_byte (record_bytes m).
Proof.
  intros Hm. unfold record_bytes, be32. cbn [app].
  repeat (apply Forall_cons_2; [unfold is_byte; first [lia | apply Z.mod_pos_bound; lia]|]). done.
Qed.

Lemma mjoin_bytes_inv (chunks : list bytes) :
  Forall is_byte (mjoin chunks) → Forall (Forall is_byte) chunks.
Proof.
  induction chunks as [|c cs IH]; intros H; [apply Forall_nil_2|].
  change (mjoin (c :: cs)) with (c ++ mjoin cs : bytes) in H. apply Forall_app in H as [H1 H2].
  apply Forall_cons_2; [done|by apply IH].
Qed.

Lemma records_frames msgs fuel :
  Forall (λ m : bytes, zlen m ≤ MAX_MESSAGE) msgs →
  (length (mjoin (map record_bytes msgs)) ≤ fuel)%nat →
  records fuel (mjoin (map record_bytes msgs)) = (msgs, Ok tt).
Proof.
  intros Hm. revert fuel. induction Hm as [|m msgs Hm _ IH]; intros fuel Hf.
  { by destruct fuel. }
  cbn [map] in *. change (mjoin (record_bytes m :: map record_bytes msgs))
    with (record_bytes m ++ mjoin (map record_bytes msgs) : bytes) in *.
  set (tail := mjoin (map record_bytes msgs)) in *.
  assert (length (record_bytes m) = 5 + length m)%nat as Hl by (unfold record_bytes; cbn; lia).
  rewrite length_app, Hl in Hf. destruct fuel as [|fuel]; [lia|]. cbn [records].
  pose proof (zlen_nonneg m). pose proof (zlen_nonneg tail).
  assert (zlen (record_bytes m ++ tail) = 5 + zlen m + zlen tail) as Hz
    by (rewrite zlen_app; unfold zlen at 1; rewrite Hl; unfold zlen; lia).
  rewrite Hz, (proj2 (Z.eqb_neq _ 0)), (proj2 (Z.ltb_ge _ 5)) by lia.
  assert (record_bytes m ++ tail = 0 :: be32 (zlen m) ++ m ++ tail) as Er
    by (unfold record_bytes; cbn [app]; by rewrite app_assoc).
  clear Hz. rewrite Er. clear Er.
  change (default 0 ((0 :: be32 (zlen m) ++ m ++ tail) !! 0%nat)) with 0. cbn [Z.eqb negb].
  unfold MAX_MESSAGE in *. rewrite getUint32_be32 by lia.
  rewrite (proj2 (Z.ltb_ge _ (zlen m))) by lia.
  assert (drop 5 (0 :: be32 (zlen m) ++ m ++ tail) = m ++ tail) as -> by done.
  rewrite (proj2 (Z.ltb_ge _ _)) by zl.
  rewrite drop_zlen_app, take_zlen_app. rewrite IH by lia. done.
Qed.

(** C28: messages round-trip: every list of messages of at most 1 MiB can be framed, and
    however the framed bytes are cut into chunks, [unframe] yields exactly the messages, in
    order, and ends cleanly. *)
Theorem frame_unframe msgs :
  Forall (λ m : bytes, zlen m ≤ MAX_MESSAGE ∧ Forall is_byte m) msgs →
  ∃ framed, Forall2 (λ m b, frame m = Ok b) msgs framed ∧
    ∀ chunks, mjoin chunks = mjoin framed → unframe chunks = (msgs, Ok tt).
Proof.
  intros Hm. exists (map record_bytes msgs). split.
  { induction Hm as [|m msgs [Hm _] _ IH]; constructor; [by apply frame_bytes|done]. }
  intros chunks Hj. rewrite unframe_records, Hj.
  - apply records_frames; [|done]. eapply Forall_impl; [|exact Hm]. by intros m [? _].
  - apply mjoin_bytes_inv. rewrite Hj. apply mjoin_bytes, Forall_fmap.
    eapply Forall_impl; [|exact Hm]. intros m [_ Hb]. by apply record_bytes_bytes.
Qed.

Lemma frame_unframe_witness :
  ∃ framed, Forall2 (λ m b, frame m = Ok b) [[7; 8]; []] framed ∧
    ∀ chunks, mjoin chunks = mjoin framed → unframe chunks = ([[7; 8]; []], Ok tt).
Proof.
  apply (frame_unframe [[7; 8]; []]).
  repeat constructor; vm_compute; congruence.
Defined.

Example frame_unframe_example :
  unframe [[0; 0]; [0; 0; 2; 7]; [8; 0; 0; 0; 0; 0]] = ([[7; 8]; []], Ok tt).
Proof. vm_compute. reflexivity. Qed.

(** [validateStatus] accepts exactly the status "0", looked up in the trailers and then in
    the headers; a missing or malformed status is UNKNOWN; every other status from "1" to "16"
    raises an error with that code. *)
Theorem validateStatus_spec headers trailers :
  match validateStatus headers trailers with
  | Ok _ => status_field headers trailers (js "grpc-status") = Some (js "0")
  | Throw e =>
      match status_field headers trailers (js "grpc-status") with
      | None => ce_code e = Code.Unknown
      | Some raw =>
          match grpc_status raw with
          | None => ce_code e = Code.Unknown
          | Some code => ce_code e = code ∧ 1 ≤ code ≤ 16
          end
      end
  end.
Proof.
  unfold validateStatus. destruct (status_field headers trailers (js "grpc-status")) as [raw|]; [|done].
  destruct (grpc_status raw) as [code|] eqn:Hc; [|done]. case_bool_decide as H0; cbn [negb]; [by subst|].
  cbn [ce_code]. split; [done|]. unfold grpc_status, is_digit in Hc.
  assert (∀ a, (0x30 <=? a) && (a <=? 0x39) = true → raw = [a] → 1 ≤ a - 0x30 ≤ 16) as Hdig.
  { intros a Ha ->. apply andb_true_iff in Ha as [H1%Z.leb_le H2%Z.leb_le].
    destruct (decide (a = 0x30)) as [->|]; [by destruct H0|lia]. }
  repeat case_match; simplify_eq; bool_hyps; try (apply Hdig; [apply andb_true_iff; rewrite !Z.leb_le; lia|done]); lia.
Qed.
