(* ===== verification/EndToEnd.v ===== *)
(** * EndToEnd: gRPC messages over the streams of a connection

    The layers composed: [framing.ts] over the bodies of [h2/connection.ts].  A message that one
    side frames is the message the other side gets, through DATA frames of any size, any
    interleaving with other streams, and any chunking of what the reader is given. *)
From S2P Require Import Prelude Errors Text Bytes Frames HpackTables Huffman Hpack Flow Stream.
From S2P Require Import Connection ConnectionInv ConnectionSteps ConnectionCorrect Uploads Downloads.
From S2P Require Import Framing FramingCorrect.
Local Open Scope Z_scope.

#[local] Opaque HUFFMAN_CODES ROOT STATIC_TABLE staticPairToIndex staticNameToIndex hd_decode
  he_encode.

(** ** Messages of a body that is still arriving *)

Definition sendable_message (m : bytes) : Prop := zlen m ≤ MAX_MESSAGE ∧ Forall is_byte m.
Definition records_of (msgs : list bytes) : bytes := mjoin (map record_bytes msgs).

(** What the loop of [unframe] has yielded after these chunks. *)
Definition yielded (chunks : list bytes) : list bytes * result ConnectError UState := u_chunks chunks u_init [].

Lemma u_feed_extends bs st out : out `prefix_of` (u_feed bs st out).1.
Proof.
  revert st out. induction bs as [|b bs IH]; intros st out; cbn [u_feed]; [done|].
  destruct (_ =? _); [|apply IH]. unfold u_resume. destruct (u_full _) as [[st' y]|e]; [|done].
  etransitivity; [|apply IH]. by apply prefix_app_r.
Qed.

Lemma records_of_bytes msgs : Forall sendable_message msgs → Forall is_byte (records_of msgs).
Proof.
  intros H. apply mjoin_bytes. apply Forall_map. eapply Forall_impl; [|exact H].
  intros m [_ Hm]. by apply record_bytes_bytes.
Qed.

Lemma sendable_sizes msgs : Forall sendable_message msgs → Forall (λ m : bytes, zlen m ≤ MAX_MESSAGE) msgs.
Proof. apply Forall_impl. by intros m [? _]. Qed.

Lemma good_init : u_good u_init.
Proof. by exists [], (replicate 5 0), true. Qed.

Lemma u_feed_all msgs :
  Forall sendable_message msgs → ∃ st, u_feed (records_of msgs) u_init [] = (msgs, Ok st).
Proof.
  intros H. pose proof (u_feed_records (length (records_of msgs)) _ [] (Nat.le_refl _) (records_of_bytes _ H)) as Hf.
  rewrite (records_frames msgs) in Hf; [|by apply sendable_sizes|done].
  unfold u_finish in Hf. destruct (u_feed _ _ _) as [out [st|e]]; [|done].
  exists st. by injection Hf as ->.
Qed.

(** A part of the records of some messages gives the first of them, and no error. *)
Lemma yielded_prefix chunks msgs :
  Forall sendable_message msgs → mjoin chunks `prefix_of` records_of msgs →
  ∃ got st, yielded chunks = (got, Ok st) ∧ got `prefix_of` msgs.
Proof.
  intros Hm [rest Hr]. pose proof (records_of_bytes _ Hm) as Hb. rewrite Hr in Hb.
  apply Forall_app in Hb as [Hb _]. unfold yielded.
  rewrite u_chunks_feed; [|by apply mjoin_bytes_inv|apply good_init].
  destruct (u_feed_all msgs Hm) as [st Hall]. rewrite Hr, u_feed_app in Hall.
  destruct (u_feed (mjoin chunks) u_init []) as [got [st1|e]]; [|done]. exists got, st1. split; [done|].
  pose proof (u_feed_extends rest st1 got) as H. by rewrite Hall in H.
Qed.

Lemma unframe_all chunks msgs :
  Forall sendable_message msgs → mjoin chunks = records_of msgs → unframe chunks = (msgs, Ok tt).
Proof.
  intros Hm Hc. rewrite unframe_records, Hc; [|apply mjoin_bytes_inv; rewrite Hc; by apply records_of_bytes].
  apply records_frames; [by apply sendable_sizes|done].
Qed.

(** ** Responses *)

(** A server that sends these messages on the stream, and ends it after the last. *)
Definition serves (sid : Z) (msgs : list bytes) (w : list Wire) : Prop :=
  response_data sid w `prefix_of` records_of msgs ∧
  ∀ earlier later, w = earlier ++ later → ended sid earlier → response_data sid earlier = records_of msgs.

(** C6: responses arrive as the messages that were sent.  Take a request, in any reachable state
    of a connection without push, whose server sends the records of some messages as the DATA of
    the response, cut into frames as it likes and interleaved with whatever else.  The loop of
    [unframe] over the chunks the body has delivered has yielded the first of these messages,
    unchanged and in order, and has not failed; and when the body ends without an error, it has
    yielded all of them and returns. *)
Theorem responses_end_to_end o cfg c r s msgs :
  onPush cfg = None → reachable o cfg c → objs c !! r = Some s →
  Forall sendable_message msgs → serves (id s) msgs (wire c) →
  ∃ chunks fin,
    controller s = map Enqueue chunks ++ fin ∧ (fin = [] ∨ fin = [CtlClose] ∨ ∃ x, fin = [CtlError x]) ∧
    (∃ got st, yielded chunks = (got, Ok st) ∧ got `prefix_of` msgs) ∧
    (fin = [CtlClose] → unframe chunks = (msgs, Ok tt)).
Proof.
  intros Hp Hr Hs Hm [Hpre Hend].
  destruct (body_delivered o cfg c r s Hp Hr Hs) as (chunks & fin & Hc & Hd & _ & Hfin).
  exists chunks, fin. split_and!; [done| | |].
  - destruct Hfin as [?|[[? _]|?]]; auto.
  - apply yielded_prefix; [done|]. etransitivity; [|exact Hpre]. etransitivity; [|exact Hd]. by apply prefix_app_r.
  - intros ->. destruct Hfin as [?|[(_ & earlier & later & Hw & He & Hg)|[x ?]]]; [done| |done].
    apply unframe_all; [done|]. rewrite Hg. by apply (Hend earlier later).
Qed.

(** A response of two messages, in three frames that cut the second record. *)
Module Served.
Definition msgs : list bytes := [[7]; [8; 9]].
Definition events : list Event :=
  [EvRequest 0 (Demo.get "/a" BNone) None; EvPull 0;
   EvBytes (Demo.frame (HeadersFrame 1 Demo.status_200 false true None) ++
            Demo.frame (DataFrame 1 [0; 0; 0; 0; 1; 7; 0; 0] None false)); EvPull 0;
   EvBytes (Demo.frame (DataFrame 1 [0; 0; 2; 8; 9] None true)); EvPull 0; EvPull 0; EvPull 0].
Definition final : Conn := Eval vm_compute in run Demo.cfg events Demo.start.
Definition object : H2Stream := Eval vm_compute in default (stream_new 0 0 idle 0) (objs final !! 0%nat).

(** [serves], checked at every moment of a run. *)
Definition checked (sid : Z) (msgs : list bytes) (w : list Wire) : bool :=
  forallb (λ n, negb (existsb (marks_end sid) (take n w)) ||
                bool_decide (response_data sid (take n w) = records_of msgs)) (seq 0 (S (length w))).
Lemma checked_serves sid ms w :
  response_data sid w = records_of ms → checked sid ms w = true → serves sid ms w.
Proof.
  intros Hd Hc. split; [by rewrite Hd|]. intros earlier later -> (e & He & Hm).
  unfold checked in Hc. rewrite forallb_forall in Hc.
  assert (In (length earlier) (seq 0 (S (length (earlier ++ later))))) as Hin
    by (apply in_seq; rewrite length_app; lia).
  specialize (Hc _ Hin). cbv beta in Hc. rewrite take_app_length in Hc.
  apply orb_true_iff in Hc as [Hc|Hc]; [|by apply bool_decide_eq_true in Hc].
  apply negb_true_iff in Hc. exfalso.
  assert (existsb (marks_end sid) earlier = true) as Ht by (apply existsb_exists; exists e; split; [by apply list_elem_of_In|done]).
  congruence.
Qed.
End Served.

Lemma responses_end_to_end_witness :
  controller Served.object = [Enqueue [0; 0; 0; 0; 1; 7; 0; 0]; Enqueue [0; 0; 2; 8; 9]; CtlClose] ∧
  ∃ chunks fin,
    controller Served.object = map Enqueue chunks ++ fin ∧ (fin = [] ∨ fin = [CtlClose] ∨ ∃ x, fin = [CtlError x]) ∧
    (∃ got st, yielded chunks = (got, Ok st) ∧ got `prefix_of` Served.msgs) ∧
    (fin = [CtlClose] → unframe chunks = (Served.msgs, Ok tt)).
Proof.
  split; [reflexivity|].
  apply (responses_end_to_end Demo.options Demo.cfg Served.final 0 Served.object Served.msgs); [reflexivity| |reflexivity| |].
  - assert (Served.final = run Demo.cfg Served.events Demo.start) as -> by (vm_compute; reflexivity).
    apply reachable_run. constructor. exact Demo.start_eq.
  - repeat constructor; vm_compute; congruence.
  - apply Served.checked_serves; vm_compute; reflexivity.
Defined.

(** ** Requests *)

(** C7: requests arrive as the messages that were sent.  Take a request whose body is, so far, the
    beginning of the records of some messages.  A peer that un-frames the DATA of its stream, in
    any reachable state, gets the first of these messages, unchanged and in order, without an error;
    once it has been given END_STREAM and the application gave all records, it gets all of
    them and a clean end. *)
Theorem requests_end_to_end o cfg c h i p s g msgs :
  uploading o cfg c h → pumps c !! i = Some p → objs c !! p_ref p = Some s → h !! i = Some g →
  Forall sendable_message msgs → g `prefix_of` records_of msgs →
  let u := upload_of (id s) (datas (wire c)) in
  (∃ got st, yielded (map fst u) = (got, Ok st) ∧ got `prefix_of` msgs) ∧
  (existsb snd u = true → g = records_of msgs → unframe (map fst u) = (msgs, Ok tt)).
Proof.
  intros Hu Hp Hs Hg Hm Hpre u.
  destruct (ul_pumps c h (uploading_ok _ _ _ _ Hu) i p Hp) as (sid & g' & Hi & _ & Hg' & Ho).
  rewrite Hg in Hg'. injection Hg' as <-. unfold ids in Hi. rewrite list_lookup_fmap, Hs in Hi. injection Hi as <-.
  fold u in Ho. destruct (upload_shape u p g Ho) as [[rest Hrest] Hf]. split.
  - apply yielded_prefix; [done|]. etransitivity; [|exact Hpre]. exists rest. exact Hrest.
  - intros He Hall. destruct Hf as [Hf|(us & E & _ & Hpay)].
    + exfalso. apply existsb_exists in He as (x & Hx & Ht).
      by rewrite (proj1 (Forall_forall _ _) Hf x Hx) in Ht.
    + apply unframe_all; [done|]. rewrite <- Hall, <- Hpay. change (mjoin (map fst u)) with (payload u).
      rewrite E, payload_snoc. apply app_nil_r.
Qed.

Module Sent.
Definition msgs : list bytes := [[5]; []].
Definition events : list Event :=
  EvRequest 0 (Demo.get "/a" (BBytes (records_of msgs))) None :: repeat (EvPump 0 None) 8.
Definition final : Conn := Eval vm_compute in (handed_all Demo.cfg events Demo.start []).1.
Definition body : bytes := Eval vm_compute in records_of msgs.
Definition pump : Pump := Eval vm_compute in default (mkPump 0 None [] 0 PDone) (pumps final !! 0%nat).
Definition object : H2Stream := Eval vm_compute in default (stream_new 0 0 idle 0) (objs final !! 0%nat).
Lemma sending : uploading Demo.options Demo.cfg final [body].
Proof.
  assert (∃ h, h = [body] ∧ uploading Demo.options Demo.cfg final h) as (h & -> & H); [|done].
  exists (handed_all Demo.cfg events Demo.start []).2. split; [vm_compute; reflexivity|].
  assert (final = (handed_all Demo.cfg events Demo.start []).1) as -> by (vm_compute; reflexivity).
  apply uploading_all, uploading_new, Demo.start_eq.
Qed.
End Sent.

Lemma requests_end_to_end_witness :
  let u := upload_of (id Sent.object) (datas (wire Sent.final)) in
  u = [(Sent.body, false); ([], true)] ∧ unframe (map fst u) = (Sent.msgs, Ok tt).
Proof.
  cbv zeta. split; [vm_compute; reflexivity|].
  apply (requests_end_to_end Demo.options Demo.cfg Sent.final [Sent.body] 0 Sent.pump Sent.object Sent.body Sent.msgs);
    [exact Sent.sending|reflexivity|reflexivity|reflexivity| |reflexivity|vm_compute; reflexivity|reflexivity].
  repeat constructor; vm_compute; congruence.
Defined.
