(* ===== verification/Replay.v ===== *)
(** * Replay: the class [Replay] of [retry.ts] and its shared budget

    One logical RPC reads its input iterator once.  While a retry is still possible every
    message is kept, so that each attempt can iterate over the same input.  Messages are
    represented by their serialization: [toBinary(create(value))] is what is kept, and
    [fromBinary] of exactly these bytes is what an attempt is given.

    The promise [pending] is shared by the attempts that wait for it.  When the source answers,
    its [then] callback runs and next, as the following microtasks, the continuations of all
    waiting [next] calls; [settle] is this burst.  A consumer calls [next] again only after the
    previous call was answered, and not after it was answered with [done]. *)
From S2P Require Import Prelude.
Local Open Scope Z_scope.

(** ** State *)

(** [this.pending]: none, an unanswered read of the source, or a read that threw (it is never
    cleared). *)
Inductive PendingRead := NoRead | InFlight | ReadFailed.

#[export] Instance PendingRead_eq_dec : EqDecision PendingRead.
Proof. solve_decision. Defined.

(** One iterator of [iterable]: [it_waiting] is parked at [await pending]; [it_out] is what it
    has yielded; [it_ended] means it has answered [done] or thrown. *)
Record Iter := mkIter {
  it_index : nat;
  it_stopped : bool;
  it_waiting : bool;
  it_out : list bytes;
  it_ended : bool;
}.

Record Replay := mkReplay {
  source : list bytes;   (* what the input iterator has still to yield *)
  saved : list bytes;
  r_bytes : Z;
  pending : PendingRead;
  ended : bool;
  committed : bool;
  iters : list Iter;
}.

Definition replay_new (input : list bytes) : Replay := mkReplay input [] 0 NoRead false false [].

Definition set_iters (l : list Iter) (r : Replay) : Replay :=
  mkReplay (source r) (saved r) (r_bytes r) (pending r) (ended r) (committed r) l.

(** ** Operations

    Each takes [used], the bytes retained on the whole connection, and returns it updated.  The
    callbacks [reserve] and [release] of the constructor are written out. *)

Record Limits := mkReplayLimits { bufferBytes : Z; perRpcBufferBytes : Z }.

Definition reserve (l : Limits) (n used : Z) : option Z :=
  if bufferBytes l <? used + n then None else Some (used + n).

Definition commit (r : Replay) (used : Z) : Replay * Z :=
  (mkReplay (source r) [] 0 (pending r) (ended r) true (iters r), used - r_bytes r).

Definition close_replay (r : Replay) (used : Z) : Replay * Z :=
  let '(r, used) := commit r used in
  (mkReplay (source r) (saved r) (r_bytes r) (pending r) true (committed r) (iters r), used).

Definition new_iter : Iter := mkIter 0 false false [] false.

Definition finish (it : Iter) : Iter :=
  mkIter (it_index it) (it_stopped it) false (it_out it) true.
Definition park (it : Iter) : Iter :=
  mkIter (it_index it) (it_stopped it) true (it_out it) (it_ended it).
Definition stop (it : Iter) : Iter :=
  mkIter (it_index it) true (it_waiting it) (it_out it) (it_ended it).
Definition yield_saved (m : bytes) (it : Iter) : Iter :=
  mkIter (S (it_index it)) (it_stopped it) false (it_out it ++ [m]) (it_ended it).

(** [next] up to its answer or its [await]. *)
Definition next (i : nat) (r : Replay) : Replay :=
  match iters r !! i with
  | None => r
  | Some it =>
      if it_waiting it || it_ended it then r
      else if it_stopped it then set_iters (<[i := finish it]> (iters r)) r
      else
        match saved r !! it_index it with
        | Some m => set_iters (<[i := yield_saved m it]> (iters r)) r
        | None =>
            if ended r then set_iters (<[i := finish it]> (iters r)) r
            else
              match pending r with
              | ReadFailed => set_iters (<[i := finish it]> (iters r)) r
              | _ => mkReplay (source r) (saved r) (r_bytes r) InFlight (ended r) (committed r)
                       (<[i := park it]> (iters r))
              end
        end
  end.

(** The continuation of [await pending] with a message, and at the end of the source. *)
Definition resume_value (m : bytes) (it : Iter) : Iter :=
  if it_waiting it
  then if it_stopped it then mkIter (S (it_index it)) true false (it_out it) true
       else yield_saved m it
  else it.
Definition resume_end (it : Iter) : Iter := if it_waiting it then finish it else it.

(** The callback of [source.next().then]: keep the message, or give up replaying. *)
Definition keep (l : Limits) (m : bytes) (r : Replay) (used : Z) : Replay * Z :=
  if committed r then (r, used)
  else
    let size := zlen m + 5 in
    if perRpcBufferBytes l <? r_bytes r + size then commit r used
    else
      match reserve l size used with
      | None => commit r used
      | Some used =>
          (mkReplay (source r) (saved r ++ [m]) (r_bytes r + size) (pending r) (ended r)
             (committed r) (iters r), used)
      end.

(** The source answers: with its next message, with [done], or ([throws]) with an error. *)
Definition settle (l : Limits) (throws : bool) (r : Replay) (used : Z) : Replay * Z :=
  match pending r with
  | NoRead | ReadFailed => (r, used)
  | InFlight =>
      if throws then
        (mkReplay (source r) (saved r) (r_bytes r) ReadFailed (ended r) (committed r)
           (map resume_end (iters r)), used)
      else
        match source r with
        | [] => (mkReplay [] (saved r) (r_bytes r) NoRead true (committed r)
                   (map resume_end (iters r)), used)
        | m :: rest =>
            let '(r, used) := keep l m r used in
            (mkReplay rest (saved r) (r_bytes r) NoRead (ended r) (committed r)
               (map (resume_value m) (iters r)), used)
        end
  end.

Inductive ReplayEvent :=
| RIterable            (* a new attempt asks for its iterator *)
| RNext (i : nat)
| RSettle (throws : bool)
| RReturn (i : nat)
| RCommit              (* [attemptContext.commit], or the end of [run] *)
| RClose.

Definition replay_step (l : Limits) (ev : ReplayEvent) (r : Replay) (used : Z) : Replay * Z :=
  match ev with
  | RIterable => (set_iters (iters r ++ [new_iter]) r, used)
  | RNext i => (next i r, used)
  | RSettle throws => settle l throws r used
  | RReturn i => (set_iters (alter stop i (iters r)) r, used)
  | RCommit => commit r used
  | RClose => close_replay r used
  end.

(** ** All calls of one connection *)

Record Pool := mkPool { used : Z; replays : list Replay }.

Inductive PoolEvent := PCall (input : list bytes) | PReplay (n : nat) (ev : ReplayEvent).

Definition pool_step (l : Limits) (ev : PoolEvent) (p : Pool) : Pool :=
  match ev with
  | PCall input => mkPool (used p) (replays p ++ [replay_new input])
  | PReplay n ev =>
      match replays p !! n with
      | None => p
      | Some r => let '(r, u) := replay_step l ev r (used p) in mkPool u (<[n := r]> (replays p))
      end
  end.

Definition pool_run (l : Limits) (evs : list PoolEvent) (p : Pool) : Pool :=
  fold_left (λ p ev, pool_step l ev p) evs p.

(** ** Memory *)

Definition message_size (m : bytes) : Z := zlen m + 5.
Definition sizes (ms : list bytes) : Z := foldr (λ m t, message_size m + t) 0 ms.

Definition replay_ok (l : Limits) (r : Replay) : Prop :=
  r_bytes r = sizes (saved r) ∧ r_bytes r ≤ perRpcBufferBytes l ∧
  (committed r = true → saved r = []).

Definition retained (p : Pool) : Z := foldr (λ r t, r_bytes r + t) 0 (replays p).

Lemma sizes_app a b : sizes (a ++ b) = sizes a + sizes b.
Proof. induction a as [|m a IH]; cbn [app sizes foldr]; [done|]. fold (sizes (a ++ b)) (sizes a). lia. Qed.

Lemma sizes_nonneg ms : 0 ≤ sizes ms.
Proof.
  induction ms as [|m ms IH]; cbn [sizes foldr]; [lia|]. fold (sizes ms).
  unfold message_size. pose proof (zlen_nonneg m). lia.
Qed.

(** What every operation does to the accounting. *)
Definition accounted (l : Limits) (r : Replay) (u : Z) (x : Replay * Z) : Prop :=
  replay_ok l x.1 ∧ x.2 - r_bytes x.1 = u - r_bytes r ∧ (u ≤ bufferBytes l → x.2 ≤ bufferBytes l).

Lemma accounted_same l r u r' :
  replay_ok l r → r_bytes r' = r_bytes r → saved r' = saved r → committed r' = committed r →
  accounted l r u (r', u).
Proof.
  intros Hok E1 E2 E3. unfold accounted, replay_ok in *. cbn [fst snd].
  rewrite E1, E2, E3. auto with lia.
Qed.

Lemma accounted_commit l r u :
  0 ≤ perRpcBufferBytes l → replay_ok l r → accounted l r u (commit r u).
Proof.
  intros Hl (Hb & Hp & _). pose proof (sizes_nonneg (saved r)).
  unfold accounted, replay_ok, commit. cbn. split_and!; try done; lia.
Qed.

Lemma accounted_keep l m r u :
  0 ≤ perRpcBufferBytes l → replay_ok l r → accounted l r u (keep l m r u).
Proof.
  intros Hl Hok. unfold keep. destruct (committed r) eqn:Hc; [by apply accounted_same|].
  destruct (Z.ltb_spec (perRpcBufferBytes l) (r_bytes r + (zlen m + 5))); [by apply accounted_commit|].
  unfold reserve. destruct (Z.ltb_spec (bufferBytes l) (u + (zlen m + 5))); [by apply accounted_commit|].
  destruct Hok as (Hb & Hp & _). unfold accounted, replay_ok.
  cbn [fst snd r_bytes saved committed]. rewrite sizes_app. cbn [sizes foldr].
  unfold message_size. split_and!; [lia|lia|congruence|lia|lia].
Qed.

Lemma accounted_next l i r u : replay_ok l r → accounted l r u (next i r, u).
Proof.
  intros Hok. apply accounted_same; [done|..]; unfold next, set_iters;
    repeat (case_match; try done).
Qed.

Lemma accounted_settle l throws r u :
  0 ≤ perRpcBufferBytes l → replay_ok l r → accounted l r u (settle l throws r u).
Proof.
  intros Hl Hok. unfold settle. destruct (pending r); [by apply accounted_same| |by apply accounted_same].
  destruct throws; [by apply accounted_same|].
  destruct (source r) as [|m rest]; [by apply accounted_same|].
  pose proof (accounted_keep l m r u Hl Hok) as H. by destruct (keep l m r u) as [r' u'].
Qed.

Lemma accounted_step l ev r u :
  0 ≤ perRpcBufferBytes l → replay_ok l r → accounted l r u (replay_step l ev r u).
Proof.
  intros Hl Hok. destruct ev; cbn [replay_step]; try (by apply accounted_same).
  - by apply accounted_next.
  - by apply accounted_settle.
  - by apply accounted_commit.
  - pose proof (accounted_commit l r u Hl Hok) as H. unfold close_replay. by destruct (commit r u).
Qed.

Definition pool_ok (l : Limits) (p : Pool) : Prop :=
  Forall (replay_ok l) (replays p) ∧ used p = retained p ∧ used p ≤ bufferBytes l.

Lemma retained_insert l n r r' :
  l !! n = Some r →
  foldr (λ r t, r_bytes r + t) 0 (<[n := r']> l) = foldr (λ r t, r_bytes r + t) 0 l - r_bytes r + r_bytes r'.
Proof.
  revert n. induction l as [|x l IH]; intros [|n] H; try done.
  - injection H as ->. change (<[0%nat := r']> (r :: l)) with (r' :: l). cbn [foldr]. lia.
  - change (<[S n := r']> (x :: l)) with (x :: <[n := r']> l). cbn [foldr]. rewrite (IH n H). lia.
Qed.

Lemma pool_ok_step l ev p : 0 ≤ perRpcBufferBytes l → pool_ok l p → pool_ok l (pool_step l ev p).
Proof.
  intros Hl (Hr & Hu & Hb). destruct ev as [input|n ev]; cbn [pool_step].
  - unfold pool_ok, retained. cbn [used replays]. split_and!; [|rewrite foldr_app; exact Hu|done].
    apply Forall_app_2; [done|]. apply Forall_cons_2; [|apply Forall_nil_2].
    unfold replay_ok. cbn. split_and!; try done; lia.
  - destruct (replays p !! n) as [r|] eqn:Hn; [|by unfold pool_ok].
    pose proof (Forall_lookup_1 _ _ _ _ Hr Hn) as Hok.
    pose proof (accounted_step l ev r (used p) Hl Hok) as (H1 & H2 & H3).
    destruct (replay_step l ev r (used p)) as [r' u']. cbn [fst snd] in *.
    unfold pool_ok, retained. cbn [used replays]. split_and!; [by apply Forall_insert| |by apply H3].
    rewrite (retained_insert _ _ r) by done. fold (retained p). lia.
Qed.

Lemma pool_ok_run l evs p : 0 ≤ perRpcBufferBytes l → pool_ok l p → pool_ok l (pool_run l evs p).
Proof.
  intros Hl. revert p. induction evs as [|ev evs IH]; intros p Hp; [done|].
  apply IH. by apply pool_ok_step.
Qed.

(** The replay budgets hold over every interleaving of all calls of a connection: the
    counter [used] is exactly the size of the messages retained by all calls, five bytes of
    framing each included, it never exceeds [bufferBytes], no call retains more than
    [perRpcBufferBytes], and a committed call retains nothing. *)
Theorem replay_budget l evs :
  0 ≤ bufferBytes l → 0 ≤ perRpcBufferBytes l →
  let p := pool_run l evs (mkPool 0 []) in
  used p = foldr (λ r t, sizes (saved r) + t) 0 (replays p) ∧ used p ≤ bufferBytes l ∧
  ∀ n r, replays p !! n = Some r →
    sizes (saved r) ≤ perRpcBufferBytes l ∧ (committed r = true → saved r = []).
Proof.
  intros Hb Hl. cbv zeta. assert (pool_ok l (mkPool 0 [])) as H0 by (split_and!; [apply Forall_nil_2|done|done]).
  pose proof (pool_ok_run l evs _ Hl H0) as (Hr & Hu & Hm).
  destruct (pool_run l evs (mkPool 0 [])) as [u rs]. cbn [used replays] in *. split_and!; [|done|].
  - rewrite Hu. unfold retained. cbn [replays]. clear Hu.
    induction Hr as [|r rs (Hr & _) _ IH]; cbn [foldr]; [done|]. by rewrite <- IH, Hr.
  - intros n r Hn. destruct (Forall_lookup_1 _ _ _ _ Hr Hn) as (E & Hp & Hc). by rewrite <- E.
Qed.

Lemma replay_budget_witness :
  let p := pool_run (mkReplayLimits 20 12)
    [PCall [[1; 2]; [3]; [4]]; PReplay 0 RIterable; PReplay 0 (RNext 0); PReplay 0 (RSettle false);
     PCall [[5; 6; 7]]; PReplay 1 RIterable; PReplay 1 (RNext 0); PReplay 1 (RSettle false)]
    (mkPool 0 []) in
  used p = 15 ∧ used p ≤ 20.
Proof.
  pose proof (replay_budget (mkReplayLimits 20 12)
    [PCall [[1; 2]; [3]; [4]]; PReplay 0 RIterable; PReplay 0 (RNext 0); PReplay 0 (RSettle false);
     PCall [[5; 6; 7]]; PReplay 1 RIterable; PReplay 1 (RNext 0); PReplay 1 (RSettle false)]) as H.
  cbv zeta in H |- *. split; [reflexivity|]. apply H; cbn; lia.
Defined.
