(* ===== verification/ReplayCorrect.v ===== *)
(** * ReplayCorrect: what an attempt is given to send

    As long as an attempt starts before the call is committed, only the latest attempt reads on
    once it is, and the call is committed only when the latest attempt has caught up with what
    was read, every attempt is given the input from its beginning, in order and without a gap.
    [retry.ts] does not see to the first and the last of these: a commit that comes while an
    attempt is still replaying loses the messages it has not replayed, and a read that is still
    in flight can commit the call in the pause before an attempt, which then starts at the unread
    part of the input. *)
From S2P Require Import Prelude Replay.
Local Open Scope nat_scope.

(** Messages taken from the source so far. *)
Definition taken (src : list bytes) (r : Replay) : nat := length src - length (source r).

Definition live (it : Iter) : bool := negb (it_stopped it) && negb (it_ended it).

(** The iterator has been given all that was read, and waits for the read in flight. *)
Definition at_front (src : list bytes) (r : Replay) (it : Iter) : Prop :=
  it_index it = taken src r ∧ it_waiting it = bool_decide (pending r = InFlight).
(** The iterator of the latest attempt. *)
Definition latest (r : Replay) (i : nat) : Prop := S i = length (iters r).
Definition caught_up (src : list bytes) (r : Replay) : Prop :=
  ∀ i it, iters r !! i = Some it → latest r i → live it = true → at_front src r it.

(** Earlier iterators need not be stopped: a unary attempt never stops its own, and that of an
    attempt that was not sent is neither read nor stopped. *)
Definition orderly (l : Limits) (src : list bytes) (ev : ReplayEvent) (r : Replay) (u : Z) : Prop :=
  match ev with
  | RIterable => committed r = false
  | RNext i =>
      committed r = true → latest r i ∨ ∀ it, iters r !! i = Some it → it_stopped it = true
  | RCommit => caught_up src r
  | RSettle throws =>
      committed r = false → committed (fst (settle l throws r u)) = true → caught_up src r
  | RReturn _ | RClose => True
  end.

Fixpoint replay_run (l : Limits) (evs : list ReplayEvent) (r : Replay) (u : Z) : Replay * Z :=
  match evs with
  | [] => (r, u)
  | ev :: evs' => let '(r, u) := replay_step l ev r u in replay_run l evs' r u
  end.

Fixpoint orderly_run (l : Limits) (src : list bytes) (evs : list ReplayEvent) (r : Replay) (u : Z)
    : Prop :=
  match evs with
  | [] => True
  | ev :: evs' =>
      orderly l src ev r u ∧ let '(r, u) := replay_step l ev r u in orderly_run l src evs' r u
  end.

(** No event closed the call or was an error of the input. *)
Definition clean_event (ev : ReplayEvent) : bool :=
  match ev with RClose | RSettle true => false | _ => true end.

(** ** The invariant *)

Definition iter_ok (src : list bytes) (clean : bool) (n : nat) (r : Replay) (it : Iter) : Prop :=
  it_out it `prefix_of` src ∧
  (it_stopped it = false →
     it_out it = take (it_index it) src ∧ it_index it ≤ n ∧
     (it_waiting it = true → it_index it = n ∧ pending r = InFlight ∧ it_ended it = false) ∧
     (it_ended it = true → clean = true → it_out it = src)).

(** Once the call is committed, the latest iterator is at the front, or the call is closed. *)
Definition last_ok (clean : bool) (n : nat) (r : Replay) (it : Iter) : Prop :=
  it_stopped it = false → committed r = true → it_ended it = false →
  it_index it = n ∧ it_waiting it = bool_decide (pending r = InFlight) ∨ clean = false ∧ ended r = true.

Record inv (src : list bytes) (clean : bool) (n : nat) (r : Replay) : Prop := mkInv {
  inv_source : source r = drop n src;
  inv_bound : n ≤ length src;
  inv_saved : saved r = if committed r then [] else take n src;
  inv_iters : ∀ i it, iters r !! i = Some it → iter_ok src clean n r it;
  inv_last : ∀ i it, iters r !! i = Some it → latest r i → last_ok clean n r it;
  inv_clean : clean = true → pending r ≠ ReadFailed ∧ (ended r = true → n = length src);
}.

Lemma taken_eq src clean n r : inv src clean n r → taken src r = n.
Proof.
  intros H. unfold taken. rewrite (inv_source _ _ _ _ H), length_drop.
  pose proof (inv_bound _ _ _ _ H). lia.
Qed.

(** Changing one iterator, with the rest of the state as it was - but that a read may begin, of the
    latest iterator or before the call is committed. *)
Lemma inv_update src clean n r i it it' p :
  inv src clean n r → iters r !! i = Some it →
  p = pending r ∨ p = InFlight ∧ (committed r = true → latest r i) →
  (clean = true → p ≠ ReadFailed) →
  let r' := mkReplay (source r) (saved r) (r_bytes r) p (ended r) (committed r)
              (<[i := it']> (iters r)) in
  iter_ok src clean n r' it' → (latest r i → last_ok clean n r' it') → inv src clean n r'.
Proof.
  intros H Hi Hp Hclean r' Hok Hlast. split; try apply H.
  - intros j jt Hj. cbn [iters r'] in Hj. apply list_lookup_insert_Some in Hj as [(<- & <- & _)|[Hne Hj]]; [done|].
    destruct (inv_iters _ _ _ _ H j jt Hj) as [H1 H2]. split; [done|]. intros Hjs.
    destruct (H2 Hjs) as (? & ? & Hw & ?). split_and!; try done. intros Hjw. destruct (Hw Hjw) as (? & ? & ?).
    cbn [pending r']. split_and!; [done| |done]. by destruct Hp as [->|[-> _]].
  - intros j jt Hj Hl. unfold latest in Hl. cbn [iters r'] in Hj, Hl. rewrite length_insert in Hl.
    apply list_lookup_insert_Some in Hj as [(<- & <- & _)|[Hne Hj]]; [by apply Hlast|].
    pose proof (inv_last _ _ _ _ H j jt Hj Hl) as Hjt. destruct Hp as [->|[-> Hp]]; [done|].
    intros Hs Hc He. destruct Hne. specialize (Hp Hc). unfold latest in Hp, Hl. lia.
  - intros Hc. cbn [pending ended r']. split; [by apply Hclean|]. by apply H.
Qed.

Lemma inv_next l src clean n i r u : inv src clean n r → orderly l src (RNext i) r u → inv src clean n (next i r).
Proof.
  intros H Hord. cbn [orderly] in Hord. unfold next. destruct (iters r !! i) as [it|] eqn:Hi; [|done].
  destruct (it_waiting it) eqn:Hw; [done|]. destruct (it_ended it) eqn:He; [done|]. cbn [orb].
  pose proof (inv_iters _ _ _ _ H i it Hi) as [Hpre Hlive].
  pose proof (inv_last _ _ _ _ H i it Hi) as Hlast.
  assert (∀ it', iter_ok src clean n r it' → (latest r i → last_ok clean n r it') →
    inv src clean n (set_iters (<[i := it']> (iters r)) r)) as Hupd.
  { intros it' Hok Hl. apply (inv_update src clean n r i it); try done; [by left|]. by apply H. }
  destruct (it_stopped it) eqn:Hs.
  { apply Hupd; [by split; [done|]; cbn; congruence|]. intros _ Hx. cbn in Hx. congruence. }
  assert (committed r = true → latest r i) as Hlat.
  { intros Hc. destruct (Hord Hc) as [?|Hx]; [done|]. by specialize (Hx it eq_refl); congruence. }
  assert (committed r = true →
    it_index it = n ∧ it_waiting it = bool_decide (pending r = InFlight) ∨ clean = false ∧ ended r = true) as Hcom.
  { intros Hc. by apply Hlast; auto. }
  destruct (Hlive eq_refl) as (Hout & Hle & _ & _). pose proof (inv_saved _ _ _ _ H) as Hsaved.
  assert (saved r !! it_index it = None → committed r = false → it_index it = n) as Hfront.
  { intros Hn Hc. rewrite Hsaved, Hc in Hn. apply lookup_ge_None in Hn. rewrite length_take in Hn.
    pose proof (inv_bound _ _ _ _ H). lia. }
  destruct (saved r !! it_index it) as [m|] eqn:Hm.
  { destruct (committed r) eqn:Hc; [by rewrite Hsaved in Hm|]. rewrite Hsaved in Hm.
    pose proof (lookup_lt_Some _ _ _ Hm) as Hlt. rewrite length_take in Hlt.
    rewrite lookup_take_lt in Hm by lia.
    assert (it_out it ++ [m] = take (S (it_index it)) src) as Ho by (by rewrite Hout, (take_S_r _ _ m)).
    apply Hupd; [|intros _ _ Hx; cbn in Hx; congruence].
    split; cbn; [rewrite Ho; apply prefix_take|]. intros _. split_and!; [done|lia|done|congruence]. }
  destruct (ended r) eqn:Hend.
  { apply Hupd; [|by intros _ _ _]. split; [done|]. cbn. intros _. split_and!; try done.
    intros _ Hcl. rewrite Hout. pose proof (inv_clean _ _ _ _ H Hcl) as [_ Hn]. specialize (Hn Hend).
    assert (it_index it = n) as ->; [|by apply take_ge; lia].
    destruct (committed r); [|by apply Hfront].
    destruct (Hcom eq_refl) as [[? _]|[? _]]; [done|congruence]. }
  assert (it_index it = n) as Hn.
  { destruct (committed r); [|by apply Hfront]. destruct (Hcom eq_refl) as [[? _]|[_ ?]]; congruence. }
  destruct (pending r) eqn:Hp.
  3: { apply Hupd; [|by intros _ _ _]. split; [done|]. cbn. intros _. split_and!; try done.
       intros _ Hcl. by destruct (inv_clean _ _ _ _ H Hcl) as [Hnf _]. }
  all: rewrite <- Hend; apply (inv_update src clean n r i it); [done|done|by right|done| |].
  all: first [by intros _ _ _ _; left | split; [done|]; cbn; intros _; by split_and!; try congruence].
Qed.

(** [keep] leaves the iterators and the source alone, and keeps the message or commits. *)
Lemma keep_fields l m r u :
  let r' := fst (keep l m r u) in
  source r' = source r ∧ ended r' = ended r ∧ iters r' = iters r ∧ pending r' = pending r ∧
  (committed r' = false → committed r = false) ∧
  saved r' = (if committed r' then (if committed r then saved r else []) else saved r ++ [m]).
Proof.
  cbv zeta. unfold keep, commit. destruct (committed r) eqn:Hc; [cbn; rewrite ?Hc; done|].
  destruct (_ <? _)%Z; [done|]. destruct (reserve _ _ _); cbn; rewrite ?Hc; done.
Qed.

Lemma iter_ok_value src clean n r r' it m :
  iter_ok src clean n r it → src !! n = Some m → pending r = InFlight → pending r' = NoRead →
  iter_ok src clean (S n) r' (resume_value m it).
Proof.
  intros [Hpre Hlive] Hm Hp Hp'. unfold resume_value.
  destruct (it_waiting it) eqn:Hw; [destruct (it_stopped it) eqn:Hs|].
  - by split.
  - destruct (Hlive eq_refl) as (Hout & _ & Hwait & _). destruct (Hwait eq_refl) as (Hn & _ & Hend).
    assert (it_out it ++ [m] = take (S n) src) as Ho by (by rewrite Hout, Hn, (take_S_r _ _ m)).
    split; cbn; [rewrite Ho; apply prefix_take|]. rewrite Hn. intros _.
    split_and!; try done; congruence.
  - split; [done|]. intros Hs. destruct (Hlive Hs) as (Hout & Hle & _ & Hend).
    split_and!; try done; [lia|congruence].
Qed.

Lemma last_ok_value src clean n r r' it m :
  iter_ok src clean n r it → last_ok clean n r it → pending r = InFlight → pending r' = NoRead →
  ended r' = ended r →
  (committed r = false → committed r' = true → live it = true → it_waiting it = true) →
  last_ok clean (S n) r' (resume_value m it).
Proof.
  intros [_ Hlive] Hlast Hp Hp' He Hcom. unfold resume_value, last_ok. rewrite Hp', He.
  destruct (it_waiting it) eqn:Hw; [destruct (it_stopped it) eqn:Hs|]; cbn.
  - done.
  - destruct (Hlive eq_refl) as (_ & _ & Hwait & _). destruct (Hwait eq_refl) as (-> & _ & _). by left.
  - intros Hs Hc' He'. right. destruct (committed r) eqn:Hcr.
    + destruct (Hlast Hs Hcr He') as [[_ Hx]|?]; [|done]. rewrite Hp, Hw in Hx. by case_bool_decide.
    + unfold live in Hcom. rewrite Hs, He' in Hcom. by specialize (Hcom eq_refl Hc' eq_refl).
Qed.

Lemma iter_ok_end src clean clean' n r r' it :
  iter_ok src clean n r it → pending r = InFlight → (clean' = true → clean = true ∧ n = length src) →
  iter_ok src clean' n r' (resume_end it).
Proof.
  intros [Hpre Hlive] Hp Hcl. unfold resume_end.
  destruct (it_waiting it) eqn:Hw; (split; [done|]); intros Hs.
  - destruct (Hlive Hs) as (Hout & Hle & Hwait & _). destruct (Hwait eq_refl) as (Hn & _).
    cbn. split_and!; try done. intros _ Hclean. destruct (Hcl Hclean) as [_ Hl].
    rewrite Hout. apply take_ge. lia.
  - destruct (Hlive Hs) as (Hout & Hle & _ & Hend).
    split_and!; try done; [congruence|]. intros Hx Hclean. apply Hend; [done|]. by apply Hcl.
Qed.

Lemma last_ok_end clean clean' n r r' it :
  last_ok clean n r it → pending r = InFlight → committed r' = committed r →
  (ended r = true → ended r' = true) → (clean' = true → clean = true) →
  last_ok clean' n r' (resume_end it).
Proof.
  intros Hlast Hp Hc He Hcl. unfold resume_end, last_ok. rewrite Hc.
  destruct (it_waiting it) eqn:Hw; [done|]. intros Hs Hc' He'. right.
  destruct (Hlast Hs Hc' He') as [[_ Hx]|[Hx Hx']]; [rewrite Hp, Hw in Hx; by case_bool_decide|].
  split; [|auto]. destruct clean'; [|done]. by rewrite Hcl in Hx.
Qed.

(** The latest iterator of a state whose iterators are a map over those of another. *)
Lemma latest_map f (r r' : Replay) i : iters r' = map f (iters r) → latest r' i ↔ latest r i.
Proof. unfold latest. intros ->. by rewrite length_map. Qed.

Lemma inv_settle_value l src clean n r u m rest :
  inv src clean n r → pending r = InFlight → source r = m :: rest →
  (committed r = false → committed (fst (keep l m r u)) = true → caught_up src r) →
  let k := fst (keep l m r u) in
  inv src clean (S n) (mkReplay rest (saved k) (r_bytes k) NoRead (ended k) (committed k)
                         (map (resume_value m) (iters k))).
Proof.
  intros H Hp Hs Hg. cbv zeta.
  pose proof (keep_fields l m r u) as (Es & Ee & Ei & Ep & Hmono & Esv).
  set (k := fst (keep l m r u)) in *. pose proof (inv_source _ _ _ _ H) as Hsrc.
  assert (src !! n = Some m) as Hm.
  { rewrite <- (Nat.add_0_r n), <- lookup_drop, <- Hsrc, Hs. done. }
  pose proof (lookup_lt_Some _ _ _ Hm) as Hlt.
  pose proof (inv_saved _ _ _ _ H) as Hsaved.
  split; cbn [source saved committed iters pending ended].
  - replace (S n) with (n + 1) by lia. rewrite <- drop_drop, <- Hsrc, Hs. done.
  - lia.
  - rewrite Esv. destruct (committed k) eqn:Hck.
    + destruct (committed r); [by rewrite Hsaved|done].
    + rewrite Hmono in Hsaved by done. by rewrite Hsaved, (take_S_r _ _ m).
  - intros i it Hi. rewrite Ei in Hi. apply list_lookup_fmap_Some in Hi as (it0 & -> & Hi0).
    apply (iter_ok_value src clean n r); try done. by apply (inv_iters _ _ _ _ H i).
  - intros i it Hi Hl. rewrite Ei in Hi. apply list_lookup_fmap_Some in Hi as (it0 & -> & Hi0).
    rewrite (latest_map (resume_value m) r) in Hl by (cbn [iters]; by rewrite Ei).
    apply (last_ok_value src clean n r); try done; [by apply (inv_iters _ _ _ _ H i)|by apply (inv_last _ _ _ _ H i)|].
    cbn [committed]. intros Hc Hck Hlive. destruct (Hg Hc Hck i it0 Hi0 Hl Hlive) as [_ ->]. by rewrite Hp.
  - intros Hcl. split; [done|]. rewrite Ee. intros He.
    pose proof (inv_clean _ _ _ _ H Hcl) as [_ Hn]. specialize (Hn He). lia.
Qed.

Lemma inv_settle_end src clean clean' n r p' e' :
  inv src clean n r → pending r = InFlight → p' ≠ InFlight → (ended r = true → e' = true) →
  (clean' = true → clean = true ∧ n = length src ∧ p' ≠ ReadFailed) →
  inv src clean' n (mkReplay (source r) (saved r) (r_bytes r) p' e' (committed r)
                      (map resume_end (iters r))).
Proof.
  intros H Hp Hp' He Hcl. split; cbn [source saved committed iters pending ended]; try apply H.
  - intros i it Hi. apply list_lookup_fmap_Some in Hi as (it0 & -> & Hi0).
    apply (iter_ok_end src clean _ n r); try done; [by apply (inv_iters _ _ _ _ H i)|].
    intros Hc. by destruct (Hcl Hc) as (? & ? & _).
  - intros i it Hi Hl. apply list_lookup_fmap_Some in Hi as (it0 & -> & Hi0).
    rewrite (latest_map resume_end r) in Hl by done.
    apply (last_ok_end clean _ n r); try done; [by apply (inv_last _ _ _ _ H i)|].
    intros Hc. by destruct (Hcl Hc) as (? & _).
  - intros Hc. by destruct (Hcl Hc) as (_ & ? & ?).
Qed.

Lemma inv_unclean src clean n r : inv src clean n r → inv src false n r.
Proof.
  intros H. split; try apply H; [..|done].
  - intros i it Hi. destruct (inv_iters _ _ _ _ H i it Hi) as [Hpre Hlive]. split; [done|]. intros Hs.
    destruct (Hlive Hs) as (? & ? & ? & _). by split_and!.
  - intros i it Hi Hl Hs Hc He. destruct (inv_last _ _ _ _ H i it Hi Hl Hs Hc He) as [?|[_ ?]]; [by left|by right].
Qed.

Lemma inv_settle l src clean throws n r u :
  inv src clean n r → orderly l src (RSettle throws) r u →
  ∃ n', inv src (clean && negb throws) n' (fst (settle l throws r u)).
Proof.
  intros H Hg. cbn [orderly] in Hg. unfold settle in Hg |- *.
  assert (inv src (clean && negb throws) n r) as Hsame.
  { destruct throws; cbn [negb]; [rewrite andb_false_r|rewrite andb_true_r; done].
    by eapply inv_unclean. }
  destruct (pending r) eqn:Hp; [by exists n| |by exists n].
  destruct throws; cbn [negb fst].
  - exists n. apply (inv_settle_end src clean); try done. by rewrite andb_false_r.
  - rewrite andb_true_r. destruct (source r) as [|m rest] eqn:Hs.
    + exists n. cbn [fst]. rewrite <- Hs. apply (inv_settle_end src clean); try done.
      intros Hcl. split_and!; try done. pose proof (inv_source _ _ _ _ H) as Hd.
      rewrite Hs in Hd. symmetry in Hd. apply (f_equal length) in Hd. rewrite length_drop in Hd.
      pose proof (inv_bound _ _ _ _ H). cbn in Hd. lia.
    + exists (S n). pose proof (inv_settle_value l src clean n r u m rest H Hp Hs) as Hv.
      destruct (keep l m r u) as [k u']. cbn [fst committed] in *. by apply Hv.
Qed.

Lemma alter_stop_Some i j (l : list Iter) jt :
  alter stop i l !! j = Some jt → it_stopped jt = false → l !! j = Some jt.
Proof.
  intros Hj Hs. destruct (decide (j = i)) as [->|Hne]; [|by rewrite list_lookup_alter_ne in Hj].
  rewrite list_lookup_alter_eq in Hj. destruct (l !! i); [|done]. by injection Hj as <-.
Qed.

Lemma inv_return src clean n i r :
  inv src clean n r → inv src clean n (set_iters (alter stop i (iters r)) r).
Proof.
  intros H. split; try apply H; cbn [iters set_iters].
  - intros j jt Hj. destruct (decide (j = i)) as [->|Hne].
    + rewrite list_lookup_alter_eq in Hj. destruct (iters r !! i) as [it|] eqn:Hi; [|done].
      injection Hj as <-. split; [|done]. by apply (inv_iters _ _ _ _ H i it Hi).
    + rewrite list_lookup_alter_ne in Hj by done. by apply (inv_iters _ _ _ _ H j).
  - intros j jt Hj Hl Hs. unfold latest in Hl. cbn [iters set_iters] in Hl. rewrite length_alter in Hl.
    apply (inv_last _ _ _ _ H j jt); [by eapply alter_stop_Some|done|done].
Qed.

(** Committing: safe when the latest iterator is at the front, or when the call ends too. *)
Lemma inv_committed src clean clean' n r e' :
  inv src clean n r → (clean' = true → clean = true) →
  (clean' = true → e' = true → n = length src) →
  (caught_up src r ∧ (ended r = true → e' = true)) ∨ (clean' = false ∧ e' = true) →
  inv src clean' n (mkReplay (source r) [] 0 (pending r) e' true (iters r)).
Proof.
  intros H Hcl He Hg. split; cbn [source saved committed iters pending ended]; try apply H; [done|..].
  - intros i it Hi. destruct (inv_iters _ _ _ _ H i it Hi) as [Hpre Hlive]. split; [done|]. intros Hs.
    destruct (Hlive Hs) as (? & ? & ? & Hend). split_and!; try done. auto.
  - intros i it Hi Hl Hs _ Hne. destruct Hg as [[Hg _]|Hg]; [left|by right].
    assert (live it = true) as Hlive by (unfold live; by rewrite Hs, Hne).
    destruct (Hg i it Hi Hl Hlive) as [Hx Hy]. by rewrite Hx, (taken_eq src clean n).
  - intros Hc. split; [|by apply He]. apply (inv_clean _ _ _ _ H). auto.
Qed.

Lemma inv_step l src clean n ev r u :
  inv src clean n r → orderly l src ev r u →
  ∃ n', inv src (clean && clean_event ev) n' (fst (replay_step l ev r u)).
Proof.
  intros H Hg. destruct ev as [|i|throws|i| |]; cbn [replay_step clean_event fst].
  - rewrite andb_true_r. exists n. split; cbn [iters set_iters]; try apply H.
    + intros i it Hi. apply lookup_snoc_Some in Hi as [[_ Hi]|[_ <-]]; [by apply (inv_iters _ _ _ _ H i)|].
      split; [apply prefix_nil|]. cbn. intros _. split_and!; try done; lia.
    + intros i it _ _ _ Hc. cbn in Hc, Hg. congruence.
  - rewrite andb_true_r. exists n. by apply (inv_next l src clean n i r u).
  - replace (match throws with true => false | false => true end) with (negb throws) by by destruct throws.
    by apply (inv_settle l src clean throws n).
  - rewrite andb_true_r. exists n. by apply inv_return.
  - rewrite andb_true_r. exists n.
    apply (inv_committed src clean clean n r (ended r)); [done|done| |by left].
    intros Hc. by apply (inv_clean _ _ _ _ H).
  - rewrite andb_false_r. exists n. apply (inv_committed src clean false n r true); [done|done|done|by right].
Qed.

Lemma inv_run l src clean n evs r u :
  inv src clean n r → orderly_run l src evs r u →
  ∃ n', inv src (clean && forallb clean_event evs) n' (fst (replay_run l evs r u)).
Proof.
  revert clean n r u. induction evs as [|ev evs IH]; intros clean n r u H Hg.
  { exists n. cbn. by rewrite andb_true_r. }
  cbn [orderly_run replay_run forallb] in *. destruct Hg as [Hg1 Hg2].
  destruct (inv_step l src clean n ev r u H Hg1) as [n1 H1].
  destruct (replay_step l ev r u) as [r1 u1]. rewrite andb_assoc. by eapply IH.
Qed.

Lemma inv_new src : inv src true 0 (replay_new src).
Proof. by split; cbn; try done; try lia. Qed.


(** An attempt reads one message and is refused while its next read is in flight - it is not even
    stopped; a second one is not sent; the third replays the message, joins the read, is committed and
    reads to the end. *)
Definition orderly_trace : list ReplayEvent :=
  [RIterable; RNext 0; RSettle false; RNext 0; RIterable; RIterable; RNext 2; RNext 2;
   RSettle false; RNext 2; RCommit; RSettle false; RNext 2; RSettle false].


(** C37: a commit during a replay loses messages.  Take any call with at least three messages,
    whose first two fit the budgets.  The first attempt sends two of them and is refused; the
    second attempt has replayed the first message when the response headers commit the call:
    the next message it is given is the third.  The second one is never sent. *)
Theorem commit_while_replaying_loses l m0 m1 m2 rest :
  (sizes [m0; m1] ≤ perRpcBufferBytes l)%Z → (sizes [m0; m1] ≤ bufferBytes l)%Z →
  let r := fst (replay_run l
    [RIterable; RNext 0; RSettle false; RNext 0; RSettle false; RReturn 0;
     RIterable; RNext 1; RCommit; RNext 1; RSettle false]
    (replay_new (m0 :: m1 :: m2 :: rest)) 0%Z) in
  ∃ it, iters r !! 1 = Some it ∧ live it = true ∧ it_out it = [m0; m2].
Proof.
  intros H1 H2. cbn [sizes foldr] in H1, H2. unfold message_size in H1, H2.
  pose proof (zlen_nonneg m0). pose proof (zlen_nonneg m1).
  cbn -[Z.add Z.ltb zlen]. unfold keep, reserve. cbn [committed r_bytes].
  rewrite (proj2 (Z.ltb_ge _ (0 + (zlen m0 + 5)))), (proj2 (Z.ltb_ge _ (0 + (zlen m0 + 5)))) by lia.
  cbn -[Z.add Z.ltb zlen]. unfold keep, reserve. cbn [committed r_bytes].
  rewrite !(proj2 (Z.ltb_ge _ (_ + (zlen m1 + 5)))) by lia. cbn. eexists. done.
Qed.

Lemma commit_while_replaying_loses_witness :
  ∃ it, it_out it = [[1%Z]; [3%Z]].
Proof.
  destruct (commit_while_replaying_loses (mkReplayLimits 100 100) [1%Z] [2%Z] [3%Z] []) as (it & _ & _ & H).
  - vm_compute. congruence.
  - vm_compute. congruence.
  - by exists it.
Defined.

(** The other way to lose messages.  The first message does not fit the budgets any more when
    its read, begun by the first attempt, is answered in the pause before the second attempt: the
    call is committed then, which [run] does not look at again, and the second attempt starts at
    the second message. *)
Lemma attempt_after_commit_loses l m0 m1 rest :
  (perRpcBufferBytes l < zlen m0 + 5)%Z →
  let r := fst (replay_run l
    [RIterable; RNext 0; RReturn 0; RSettle false; RIterable; RNext 1; RSettle false]
    (replay_new (m0 :: m1 :: rest)) 0%Z) in
  ∃ it, iters r !! 1 = Some it ∧ live it = true ∧ it_out it = [m1].
Proof.
  intros H1. cbn -[Z.add Z.ltb zlen]. unfold keep. cbn [committed r_bytes].
  rewrite (proj2 (Z.ltb_lt _ (0 + (zlen m0 + 5)))) by lia. cbn. eexists. done.
Qed.
