(* ===== verification/Retry.v ===== *)
(** * Retry: [retry.ts] without the class [Replay]

    Policies and their validation, retry throttling, and the loop [RetryingTransport.run] that
    makes the attempts of one call.

    Times, delays, tokens and ratios are rationals in place of doubles; numbers that come from
    the application may also be infinite or NaN ([num]).  What the loop observes of its
    surroundings in one round (the clock, the abort signal, what [select], [invoke] and the
    pause answered, what other calls did to the tokens) is one [Round]; the loop is a function
    of the sequence of rounds. *)
From Stdlib Require Import QArith Qminmax Lqa.
From stdpp Require Import pretty.
From S2P Require Import Prelude Errors Text HpackTables Hpack Stream Framing.
Local Open Scope Z_scope.

(** ** Numbers of the application *)

Inductive num := Fin (q : Q) | Infinite | NaN.

(** [Number.isInteger(n)], with the integer. *)
Definition integer (n : num) : option Z :=
  match n with
  | Fin q => if Pos.eqb (Qden (Qred q)) 1 then Some (Qnum (Qred q)) else None
  | _ => None
  end.
Definition positive (n : num) : option Q :=
  match n with Fin q => if Qle_bool q 0 then None else Some q | _ => None end.

(** ** Options *)

(** A policy as the application writes it, and the validated copy. *)
Record PolicyInit := mkPolicyInit {
  pi_maxAttempts : num;
  pi_initialBackoffMs : num;
  pi_maxBackoffMs : num;
  pi_backoffMultiplier : num;
  pi_retryableStatusCodes : list num;
}.

Record RetryPolicy := mkPolicy {
  maxAttempts : Z;
  initialBackoffMs : Q;
  maxBackoffMs : Q;
  backoffMultiplier : Q;
  retryableStatusCodes : list Z;
}.

Definition status_code (n : num) : option Z :=
  match integer n with
  | Some v => if (v <? 1) || (16 <? v) then None else Some v
  | None => None
  end.

(** [None] is a thrown [TypeError]. *)
Definition policyCopy (p : PolicyInit) : option RetryPolicy :=
  match integer (pi_maxAttempts p) with
  | None => None
  | Some attempts =>
      if (attempts <? 2) || (5 <? attempts) then None
      else
        match positive (pi_initialBackoffMs p), positive (pi_maxBackoffMs p),
              positive (pi_backoffMultiplier p) with
        | Some initial, Some max, Some multiplier =>
            if negb (Qle_bool initial max) then None
            else if bool_decide (pi_retryableStatusCodes p = []) then None
            else mapM status_code (pi_retryableStatusCodes p) ≫= λ codes,
                 Some (mkPolicy attempts initial max multiplier codes)
        | _, _, _ => None
        end
  end.

Record Throttling := mkThrottling { maxTokens : Q; tokenRatio : Q }.

(** [methods]: a policy of its own for a method, or [None] for [false]. *)
Record RetryOptions := mkRetryOptions {
  o_policy : option RetryPolicy;
  o_methods : list (jsstring * option RetryPolicy);
  o_throttling : option Throttling;
}.

(** [options.methods?.[key] ?? options.policy]; [None]: no policy, or [false]. *)
Fixpoint policy_for (methods : list (jsstring * option RetryPolicy)) (key : jsstring)
    (fallback : option RetryPolicy) : option RetryPolicy :=
  match methods with
  | [] => fallback
  | (k, p) :: methods' => if decide (k = key) then p else policy_for methods' key fallback
  end.

Record ThrottlingInit := mkThrottlingInit { ti_maxTokens : num; ti_tokenRatio : num }.

Record OptionsInit := mkOptionsInit {
  oi_policy : option PolicyInit;
  oi_methods : list (jsstring * option PolicyInit);
  oi_perRpcBufferBytes : option num;
  oi_bufferBytes : option num;
  oi_throttling : option ThrottlingInit;
}.

(** [Number.isSafeInteger(n) && n >= 0]. *)
Definition buffer_size (fallback : Z) (n : option num) : option Z :=
  match n with
  | None => Some fallback
  | Some n =>
      match integer n with
      | Some v => if (v <? 0) || (MAX_SAFE_INTEGER <? v) then None else Some v
      | None => None
      end
  end.

Definition throttling_copy (t : ThrottlingInit) : option Throttling :=
  match positive (ti_maxTokens t), positive (ti_tokenRatio t) with
  | Some max, Some ratio => Some (mkThrottling max ratio)
  | _, _ => None
  end.

(** An optional part: absent, valid or rejected. *)
Definition part {A B} (f : A → option B) (x : option A) : option (option B) :=
  match x with None => Some None | Some a => Some <$> f a end.

(** The constructor: the validated options, [bufferBytes], [perRpcBufferBytes] and the first
    [tokens]. *)
Definition retrying_new (o : OptionsInit) : option (RetryOptions * Z * Z * Q) :=
  policy ← part policyCopy (oi_policy o);
  methods ← mapM (λ '(k, p), (λ p, (k, p)) <$> part policyCopy p) (oi_methods o);
  buffer ← buffer_size 4194304 (oi_bufferBytes o);
  perRpc ← buffer_size 262144 (oi_perRpcBufferBytes o);
  throttle ← part throttling_copy (oi_throttling o);
  Some (mkRetryOptions policy methods throttle, buffer, perRpc,
        match throttle with Some t => maxTokens t | None => 0%Q end).

(** ** Errors of attempts *)

(** What [failures] knows of an error object. *)
Record FailureInfo := mkInfo { f_committed : bool; f_evidence : option Evidence }.

(** A thrown value: as a [ConnectError] if it is one, with its entry in [failures]. *)
Record Thrown := mkThrown { t_error : option ConnectError; t_info : option FailureInfo }.

(** What the transport of an attempt catches. *)
Inductive Caught := CaughtConnect (e : ConnectError) | CaughtOther (e : exn).

(** [String(error)] is a parameter: messages of other errors are outside the model. *)
Definition attemptError (text : exn → jsstring) (error : Caught) (committed : bool) : Thrown :=
  match error with
  | CaughtConnect e => mkThrown (Some e) (Some (mkInfo committed None))
  | CaughtOther e => mkThrown (Some (mkConnectError (text e) Code.Unavailable []))
                       (Some (mkInfo committed (exn_retry e)))
  end.

Definition connect_thrown (message : string) (code : Z) : Thrown :=
  mkThrown (Some (connect_error message code)) None.
Definition deadline_exceeded : Thrown := connect_thrown "Deadline exceeded" Code.DeadlineExceeded.

(** ** [Headers] *)

(** The value under a (lower-case) name: all fields of that name joined, surrounding white space
    removed. *)
Definition is_http_space (u : Z) : bool := (u =? 9) || (u =? 10) || (u =? 13) || (u =? 32).
Fixpoint http_trim_start (s : jsstring) : jsstring :=
  match s with u :: s' => if is_http_space u then http_trim_start s' else s | [] => [] end.
Definition http_trim (s : jsstring) : jsstring := rev (http_trim_start (rev (http_trim_start s))).

Definition headers_get (h : jsobject) (name : jsstring) : option jsstring :=
  match filter (λ kv, toLowerCase (fst kv) = name) h with
  | [] => None
  | (_, v) :: rest => Some (fold_left (λ acc kv, acc ++ js ", " ++ http_trim (snd kv)) rest (http_trim v))
  end.
Definition headers_delete (h : jsobject) (name : jsstring) : jsobject :=
  filter (λ kv, toLowerCase (fst kv) ≠ name) h.

Definition ATTEMPTS : jsstring := js "grpc-previous-rpc-attempts".
Definition PUSHBACK : jsstring := js "grpc-retry-pushback-ms".

(** The headers of an attempt. *)
Definition attempt_headers (original : jsobject) (previous : Z) : jsobject :=
  let headers := headers_delete original ATTEMPTS in
  if previous =? 0 then headers else headers ++ [(ATTEMPTS, js (pretty previous))].

(** ** Throttling *)

Definition success (throttle : option Throttling) (tokens : Q) : Q :=
  match throttle with
  | Some t => Qmin (maxTokens t) (tokens + tokenRatio t)
  | None => tokens
  end.

(** [error instanceof ConnectError && policy.retryableStatusCodes.includes(error.code)]. *)
Definition retryable (p : RetryPolicy) (error : Thrown) : bool :=
  match t_error error with
  | Some e => bool_decide (ce_code e ∈ retryableStatusCodes p)
  | None => false
  end.

Definition failure (throttle : option Throttling) (policy : option RetryPolicy) (error : Thrown)
    (tokens : Q) : Q :=
  match throttle, policy with
  | Some _, Some p => if retryable p error then Qmax 0 (tokens - 1) else tokens
  | _, _ => tokens
  end.

(** ** The loop *)

(** The local variables of [run]. *)
Record RunState := mkRun { previous : Z; refused : bool; retry : bool; backoff : Q }.

(** What one round observes; an abort signal is its reason once aborted. *)
Record Round := mkRound {
  w_abort : option Thrown;             (* at the top of the loop *)
  w_now_select : Q;
  w_select : option Thrown;            (* [select] rejected *)
  w_abort_selected : option Thrown;
  w_now_invoke : Q;
  w_invoke : option Thrown;            (* [invoke] rejected *)
  w_abort_caught : option Thrown;
  w_committed : bool;                  (* [replay.committed] in the [catch] *)
  w_tokens : Q;                        (* [tokens] when the [catch] begins *)
  w_random : Q;
  w_now_pause : Q;
  w_pause : option Thrown;             (* [pause] rejected *)
}.

Inductive Outcome := Returned | Threw (e : Thrown).

(** What one round did: the variables it began with, the timeout and headers of [invoke] if it
    was called, the delay of the pause if there was one. *)
Record Entry := mkEntry {
  e_state : RunState;
  e_invoked : option (option Q * jsobject);
  e_delay : option Q;
}.

Definition evidence (error : Thrown) : option Evidence := i ← t_info error; f_evidence i.
Definition info_committed (error : Thrown) : bool :=
  match t_info error with Some i => f_committed i | None => false end.

Definition transparent (st : RunState) (error : Thrown) : bool :=
  match evidence error with
  | Some Unsent => true
  | Some Refused => negb (refused st)
  | None => false
  end.

(** [/^\d+$/] and the safe integer it denotes. *)
Fixpoint decimal (acc : Z) (s : jsstring) : option Z :=
  match s with
  | [] => Some acc
  | u :: s' => if is_digit u then decimal (acc * 10 + (u - 0x30)) s' else None
  end.
Definition pushback_delay (s : jsstring) : option Z :=
  match s with
  | [] => None
  | _ => match decimal 0 s with
         | Some n => if MAX_SAFE_INTEGER <? n then None else Some n
         | None => None
         end
  end.

Section run.
Context (throttle : option Throttling) (policy : option RetryPolicy) (original : jsobject).
(** [deadline]: [None] is [Infinity]. *)
Context (timeout : option Q) (deadline : option Q).

Definition remaining_ms (now : Q) : result Thrown (option Q) :=
  match deadline with
  | None => Ok timeout
  | Some d => if Qle_bool (d - now) 0 then Throw deadline_exceeded else Ok (Some (d - now)%Q)
  end.

(** The body of the [try]: what [invoke] was called with, and the error if there was one. *)
Definition try_attempt (st : RunState) (w : Round) : option (option Q * jsobject) * option Thrown :=
  match remaining_ms (w_now_select w) with
  | Throw e => (None, Some e)
  | Ok _ =>
      match w_select w with
      | Some e => (None, Some e)
      | None =>
          match w_abort_selected w with
          | Some e => (None, Some e)
          | None =>
              match remaining_ms (w_now_invoke w) with
              | Throw e => (None, Some e)
              | Ok t => (Some (t, attempt_headers original (previous st)), w_invoke w)
              end
          end
      end
  end.

Inductive Verdict := Give (e : Thrown) | Again (st : RunState) (delay : Q).

Definition throttled (tokens : Q) : bool :=
  match throttle with Some t => Qle_bool tokens (maxTokens t / 2) | None => false end.

Definition tokens_after (st : RunState) (w : Round) (error : Thrown) : Q :=
  if transparent st error then w_tokens w else failure throttle policy error (w_tokens w).

(** [Math.min(delay, Math.max(0, deadline - performance.now()))]. *)
Definition capped (w : Round) (delay : Q) : Q :=
  match deadline with Some d => Qmin delay (Qmax 0 (d - w_now_pause w)) | None => delay end.

(** A configured retry: the pause and the next [backoff]. *)
Definition configured (p : RetryPolicy) (st : RunState) (w : Round) (error : Thrown) : Verdict :=
  match e ← t_error error; headers_get (ce_metadata e) PUSHBACK with
  | Some s =>
      match pushback_delay s with
      | None => Give error
      | Some ms => Again (mkRun (previous st + 1) (refused st) true (initialBackoffMs p))
                     (capped w (inject_Z ms))
      end
  | None =>
      Again (mkRun (previous st + 1) (refused st) true
               (Qmin (maxBackoffMs p) (backoff st * backoffMultiplier p)))
        (capped w (backoff st * ((8 # 10) + w_random w * (4 # 10))))
  end.

(** The [catch]. *)
Definition caught (st : RunState) (w : Round) (error : Thrown) : Verdict :=
  match w_abort_caught w with
  | Some reason => Give reason
  | None =>
      if w_committed w || info_committed error then Give error
      else if transparent st error then
        Again (mkRun (previous st)
                 (refused st || bool_decide (evidence error = Some Refused)) true (backoff st)) 0
      else
        match policy with
        | None => Give error
        | Some p =>
            if negb (retryable p error) then Give error
            else if (maxAttempts p <=? previous st + 1) || throttled (tokens_after st w error)
            then Give error
            else configured p st w error
        end
  end.

(** [None]: still running when the rounds are used up.  What follows a successful [invoke] (the
    timer and the listeners are removed, at once or when a streamed response ends) is
    [Returned]. *)
Fixpoint run_loop (rounds : list Round) (st : RunState) : list Entry * option Outcome :=
  match rounds with
  | [] => ([], None)
  | w :: rounds' =>
      match w_abort w with
      | Some reason => ([], Some (Threw reason))
      | None =>
          match try_attempt st w with
          | (invoked, None) => ([mkEntry st invoked None], Some Returned)
          | (invoked, Some error) =>
              match caught st w error with
              | Give e => ([mkEntry st invoked None], Some (Threw e))
              | Again st' delay =>
                  let entry := mkEntry st invoked (Some delay) in
                  match w_pause w with
                  | Some reason => ([entry], Some (Threw reason))
                  | None => let '(log, out) := run_loop rounds' st' in (entry :: log, out)
                  end
              end
          end
      end
  end.
End run.

Definition run_start (policy : option RetryPolicy) : RunState :=
  mkRun 0 false false match policy with Some p => initialBackoffMs p | None => 0%Q end.

(** [timeout !== undefined && timeout > 0 ? performance.now() + timeout : Infinity]. *)
Definition deadline_of (timeout : option Q) (now : Q) : option Q :=
  match timeout with
  | Some t => if Qle_bool t 0 then None else Some (now + t)%Q
  | None => None
  end.

Definition run (o : RetryOptions) (key : jsstring) (header : jsobject) (timeout : option Q) (now : Q)
    (rounds : list Round) : list Entry * option Outcome :=
  let policy := policy_for (o_methods o) key (o_policy o) in
  run_loop (o_throttling o) policy header timeout (deadline_of timeout now) rounds (run_start policy).
