(* ===== verification/RetryCorrect.v ===== *)
(** * RetryCorrect: when a call is retried, how often and after which delay *)
From Stdlib Require Import QArith Qminmax Lqa.
From stdpp Require Import pretty.
From S2P Require Import Prelude Errors Text HpackTables Hpack Stream Framing Retry.
Local Open Scope Z_scope.

Section run.
Context (throttle : option Throttling) (policy : option RetryPolicy) (original : jsobject).
Context (timeout : option Q) (deadline : option Q).

Abbreviation loop := (run_loop throttle policy original timeout deadline).
Abbreviation attempt := (try_attempt original timeout deadline).
Abbreviation verdict := (caught throttle policy deadline).

(** ** Why a further round is made *)

(** The reasons of [caught] to go on, in the words of the retry contract. *)
Definition justified (st : RunState) (w : Round) (error : Thrown) (st' : RunState) : Prop :=
  w_abort_caught w = None ∧ w_committed w = false ∧ info_committed error = false ∧
  ((previous st' = previous st ∧
    (evidence error = Some Unsent ∧ refused st' = refused st ∨
     evidence error = Some Refused ∧ refused st = false ∧ refused st' = true)) ∨
   (previous st' = previous st + 1 ∧ refused st' = refused st ∧
    ∃ p, policy = Some p ∧ retryable p error = true ∧ previous st' < maxAttempts p ∧
      ∀ t, throttle = Some t →
        (maxTokens t / 2 < failure throttle policy error (w_tokens w))%Q)).

Lemma configured_next p st w error st' delay :
  configured deadline p st w error = Again st' delay →
  previous st' = previous st + 1 ∧ refused st' = refused st.
Proof.
  unfold configured. destruct (t_error error ≫= _) as [s|]; [destruct (pushback_delay s)|];
    by intros [= <- _].
Qed.

Lemma caught_justified st w error st' delay :
  verdict st w error = Again st' delay → justified st w error st' ∧ retry st' = true.
Proof.
  unfold caught, justified. destruct (w_abort_caught w); [done|].
  destruct (w_committed w); [done|]. destruct (info_committed error); [done|]. cbn [orb].
  destruct (transparent st error) eqn:Ht.
  { intros [= <- _]. cbn [previous refused retry]. split; [|done]. split_and!; try done. left. split; [done|].
    unfold transparent in Ht. destruct (evidence error) as [[|]|]; [| |done].
    - left. split; [done|]. rewrite bool_decide_eq_false_2 by done. by rewrite orb_false_r.
    - right. rewrite bool_decide_eq_true_2, orb_true_r by done. by destruct (refused st). }
  destruct policy as [p|] eqn:Hp; [|done]. destruct (retryable p error) eqn:Hr; [|done]. cbn [negb].
  destruct (Z.leb_spec (maxAttempts p) (previous st + 1)) as [|Hlt]; [done|]. cbn [orb].
  unfold tokens_after. rewrite Ht. destruct (throttled _ _) eqn:Hth; [done|]. intros Hc.
  destruct (configured_next _ _ _ _ _ _ Hc) as [E1 E2].
  assert (retry st' = true) as Hretry.
  { unfold configured in Hc. repeat (case_match; try done); by injection Hc as <- _. }
  split; [|done]. split_and!; try done. right. split_and!; try done. exists p.
  split_and!; try done; [lia|]. intros t ->. unfold throttled in Hth.
  apply Qnot_le_lt. intros Hle. apply Qle_bool_iff in Hle. congruence.
Qed.

Lemma loop_state rounds st e :
  fst (loop rounds st) !! 0%nat = Some e → e_state e = st.
Proof.
  destruct rounds as [|w rounds]; cbn [run_loop]; [done|]. destruct (w_abort w); [done|].
  destruct (attempt st w) as [inv [error|]]; [|by intros [= <-]].
  destruct (verdict st w error) as [|st' d]; [by intros [= <-]|].
  destruct (w_pause w); [by intros [= <-]|]. destruct (loop rounds st') as [log out]. by intros [= <-].
Qed.

Lemma loop_justified rounds st i e e' :
  fst (loop rounds st) !! i = Some e → fst (loop rounds st) !! S i = Some e' →
  ∃ w error, rounds !! i = Some w ∧ snd (attempt (e_state e) w) = Some error ∧
    justified (e_state e) w error (e_state e').
Proof.
  revert st i. induction rounds as [|w rounds IH]; intros st i; cbn [run_loop]; [done|].
  destruct (w_abort w); [done|].
  destruct (attempt st w) as [inv [error|]] eqn:Ha; [|by destruct i].
  destruct (verdict st w error) as [|st' d] eqn:Hv; [by destruct i|].
  destruct (w_pause w); [by destruct i|].
  destruct (loop rounds st') as [log out] eqn:Hl. cbn [fst]. destruct i as [|i].
  - intros [= <-] He'. exists w, error. cbn [e_state]. rewrite Ha. split_and!; try done.
    pose proof (loop_state rounds st' e') as Hs. rewrite Hl in Hs. rewrite (Hs He').
    by eapply caught_justified.
  - intros He He'. specialize (IH st' i). rewrite Hl in IH. by apply IH.
Qed.

(** ** How many rounds *)

(** The error of a round, and the rounds whose request was not sent. *)
Definition round_error (w : Round) : option Thrown := snd (attempt (run_start policy) w).
Definition unsent (w : Round) : bool := bool_decide ((round_error w ≫= evidence) = Some Unsent).
Definition unsent_rounds (rounds : list Round) : Z := zlen (filter (λ w, unsent w = true) rounds).

Lemma attempt_error st w : snd (attempt st w) = round_error w.
Proof. unfold round_error, try_attempt. by repeat case_match. Qed.

Lemma unsent_rounds_cons w rounds :
  unsent_rounds (w :: rounds) = (if unsent w then 1 else 0) + unsent_rounds rounds.
Proof.
  unfold unsent_rounds. rewrite filter_cons. destruct (unsent w); [|by rewrite decide_False].
  rewrite decide_True by done. rewrite zlen_cons. lia.
Qed.

(** Retries that are left, but for those of requests that were not sent. *)
Definition retries_left (st : RunState) : Z :=
  match policy with Some p => Z.max 0 (maxAttempts p - 1 - previous st) | None => 0 end
  + (if refused st then 0 else 1).

Lemma justified_left st w error st' :
  justified st w error st' → round_error w = Some error →
  retries_left st' + 1 ≤ retries_left st + (if unsent w then 1 else 0).
Proof.
  intros (_ & _ & _ & [[E H]|(E & Er & p & Hp & _ & Hlt & _)]) He; unfold retries_left.
  - rewrite E. unfold unsent. rewrite He. cbn [mbind option_bind].
    destruct H as [[-> ->]|(_ & -> & ->)]; [|destruct policy, (bool_decide _); lia].
    rewrite bool_decide_eq_true_2 by done. lia.
  - rewrite Er, Hp in *. destruct (unsent w); lia.
Qed.

Lemma loop_bounded rounds st :
  zlen (fst (loop rounds st)) ≤ 1 + retries_left st + unsent_rounds rounds ∧
  (snd (loop rounds st) = None → zlen (fst (loop rounds st)) = zlen rounds).
Proof.
  assert (∀ st, 0 ≤ retries_left st) as Hpos
    by (intros s; unfold retries_left; destruct policy; destruct (refused s); lia).
  revert st. induction rounds as [|w rounds IH]; intros st; cbn [run_loop].
  { split; [|done]. specialize (Hpos st). pose proof (zlen_nonneg (filter (λ w, unsent w = true) [])).
    unfold unsent_rounds. cbn [fst]. rewrite zlen_nil. lia. }
  assert (0 ≤ unsent_rounds (w :: rounds)) as Hu by apply zlen_nonneg.
  assert (∀ e o, zlen [e : Entry] ≤ 1 + retries_left st + unsent_rounds (w :: rounds) ∧
    (Some o = @None Outcome → zlen [e] = zlen (w :: rounds))) as Hone.
  { intros e o. split; [|done]. specialize (Hpos st). rewrite zlen_cons, zlen_nil. lia. }
  destruct (w_abort w). { split; [|done]. specialize (Hpos st). cbn [fst]. rewrite zlen_nil. lia. }
  pose proof (attempt_error st w) as He.
  destruct (attempt st w) as [inv [error|]]; [|apply Hone].
  destruct (verdict st w error) as [|st' d] eqn:Hv; [apply Hone|].
  destruct (w_pause w); [apply Hone|].
  apply caught_justified in Hv as [Hv _]. pose proof (justified_left _ _ _ _ Hv (eq_sym He)) as Hl.
  specialize (IH st') as [IH1 IH2]. destruct (loop rounds st') as [log out]. cbn [fst snd] in *.
  rewrite unsent_rounds_cons, !zlen_cons. split; [lia|]. intros Ho. by rewrite IH2.
Qed.

(** ** Delays and deadlines *)

Definition policy_ok : Prop :=
  ∀ p, policy = Some p → (0 < initialBackoffMs p)%Q ∧ (initialBackoffMs p <= maxBackoffMs p)%Q ∧
       (0 < backoffMultiplier p)%Q.

Definition backoff_ok (st : RunState) : Prop :=
  ∀ p, policy = Some p → (0 < backoff st)%Q ∧ (backoff st <= maxBackoffMs p)%Q.

Definition pushback (error : Thrown) : option jsstring :=
  e ← t_error error; headers_get (ce_metadata e) PUSHBACK.

(** What a pause of a round is bounded by. *)
Definition delay_ok (st : RunState) (w : Round) (error : Thrown) (q : Q) : Prop :=
  (0 <= q)%Q ∧ (∀ d, deadline = Some d → (q <= Qmax 0 (d - w_now_pause w))%Q) ∧
  (∀ p, policy = Some p → pushback error = None → (q <= (12 # 10) * maxBackoffMs p)%Q).

Lemma capped_ok w q :
  (0 <= q)%Q → (0 <= capped deadline w q)%Q ∧ (capped deadline w q <= q)%Q ∧
  (∀ d, deadline = Some d → (capped deadline w q <= Qmax 0 (d - w_now_pause w))%Q).
Proof.
  intros Hq. unfold capped. destruct deadline as [d|]; [|split_and!; [done|lra|done]].
  split_and!; [|apply Q.le_min_l|intros d' [= <-]; apply Q.le_min_r].
  apply Q.min_glb; [done|apply Q.le_max_l].
Qed.

Lemma decimal_nonneg s acc n : 0 ≤ acc → decimal acc s = Some n → 0 ≤ n.
Proof.
  revert acc. induction s as [|u s IH]; intros acc Ha; cbn [decimal]; [by intros [= <-]|].
  unfold is_digit. destruct (Z.leb_spec 0x30 u); [|done]. destruct (Z.leb_spec u 0x39); [|done].
  cbn [andb]. apply IH. lia.
Qed.

Lemma pushback_delay_nonneg s n : pushback_delay s = Some n → 0 ≤ n ≤ MAX_SAFE_INTEGER.
Proof.
  unfold pushback_delay. destruct s as [|u s]; [done|].
  destruct (decimal 0 (u :: s)) as [m|] eqn:Hd; [|done].
  destruct (Z.ltb_spec MAX_SAFE_INTEGER m); [done|]. intros [= <-].
  pose proof (decimal_nonneg _ 0 _ ltac:(lia) Hd). lia.
Qed.

Lemma caught_delay st w error st' q :
  policy_ok → backoff_ok st → (0 <= w_random w)%Q → (w_random w <= 1)%Q →
  verdict st w error = Again st' q → delay_ok st w error q ∧ backoff_ok st'.
Proof.
  intros Hpol Hback Hr0 Hr1 Hv. unfold caught in Hv. destruct (w_abort_caught w); [done|].
  destruct (w_committed w || info_committed error); [done|].
  destruct (transparent st error).
  { injection Hv as <- <-. split; [|done]. split_and!; [lra|intros; apply Q.le_max_l|].
    intros p Hp _. destruct (Hpol p Hp) as (? & ? & _). lra. }
  destruct policy as [p|] eqn:Hp; [|done]. destruct (negb _); [done|]. destruct (_ || _); [done|].
  destruct (Hpol p Hp) as (Hi & Him & Hmul). destruct (Hback p Hp) as (Hb & Hbm).
  assert (∀ p', policy = Some p' → p = p') as Hsame by (intros p'; rewrite Hp; by intros [= <-]).
  unfold configured in Hv. fold (pushback error) in Hv. destruct (pushback error) as [s|] eqn:Hpb.
  - destruct (pushback_delay s) as [ms|] eqn:Hms; [|done]. injection Hv as <- <-.
    apply pushback_delay_nonneg in Hms as [Hms _].
    destruct (capped_ok w (inject_Z ms)) as (H1 & H2 & H3).
    { change 0%Q with (inject_Z 0). by rewrite <- Zle_Qle. }
    split; [split_and!; [done|done|by rewrite Hpb]|]. intros p' <-%Hsame. done.
  - injection Hv as <- <-.
    destruct (capped_ok w (backoff st * ((8 # 10) + w_random w * (4 # 10)))) as (H1 & H2 & H3); [nra|].
    split.
    + split_and!; [done|done|]. intros p' <-%Hsame _. eapply Qle_trans; [exact H2|]. nra.
    + intros p' <-%Hsame. cbn [backoff]. split; [|apply Q.le_min_l].
      apply Q.min_glb_lt; nra.
Qed.

Definition clock_ok (w : Round) : Prop := (0 <= w_random w)%Q ∧ (w_random w <= 1)%Q.

Lemma attempt_timeout st w t h d :
  fst (attempt st w) = Some (t, h) → deadline = Some d →
  ∃ q, t = Some q ∧ (0 < q)%Q ∧ (q = d - w_now_invoke w)%Q.
Proof.
  intros H Hd. unfold try_attempt, remaining_ms in H. rewrite Hd in H.
  destruct (Qle_bool (d - w_now_select w) 0); [done|]. destruct (w_select w); [done|].
  destruct (w_abort_selected w); [done|].
  destruct (Qle_bool (d - w_now_invoke w) 0) eqn:Hle; [done|]. injection H as <- _.
  eexists. split_and!; [done| |done]. apply Qnot_le_lt. intros Hx. apply Qle_bool_iff in Hx. congruence.
Qed.

Lemma loop_delays rounds st i e w :
  policy_ok → backoff_ok st → Forall clock_ok rounds →
  fst (loop rounds st) !! i = Some e → rounds !! i = Some w →
  (∀ t h d, e_invoked e = Some (t, h) → deadline = Some d →
     ∃ q, t = Some q ∧ (0 < q)%Q ∧ (q = d - w_now_invoke w)%Q) ∧
  (∀ q, e_delay e = Some q → ∃ error, round_error w = Some error ∧ delay_ok (e_state e) w error q).
Proof.
  intros Hpol. revert st i. induction rounds as [|w0 rounds IH]; intros st i Hb Hc; cbn [run_loop]; [done|].
  apply Forall_cons_1 in Hc as [[Hr0 Hr1] Hc]. destruct (w_abort w0); [done|].
  pose proof (attempt_error st w0) as Herr.
  assert (∀ inv, fst (attempt st w0) = inv → ∀ t h d, inv = Some (t, h) → deadline = Some d →
     ∃ q, t = Some q ∧ (0 < q)%Q ∧ (q = d - w_now_invoke w0)%Q) as Hinv.
  { intros inv <- t h d. apply attempt_timeout. }
  destruct (attempt st w0) as [inv [error|]] eqn:Ha; cbn [fst snd] in *.
  2: { destruct i; [|done]. intros [= <-] [= <-]. split; [by apply Hinv|done]. }
  destruct (verdict st w0 error) as [|st' q] eqn:Hv.
  { destruct i; [|done]. intros [= <-] [= <-]. split; [by apply Hinv|done]. }
  destruct (caught_delay _ _ _ _ _ Hpol Hb Hr0 Hr1 Hv) as [Hd Hb'].
  assert (∀ e, mkEntry st inv (Some q) = e →
    (∀ t h d, e_invoked e = Some (t, h) → deadline = Some d →
       ∃ q, t = Some q ∧ (0 < q)%Q ∧ (q = d - w_now_invoke w0)%Q) ∧
    (∀ q, e_delay e = Some q → ∃ error, round_error w0 = Some error ∧ delay_ok (e_state e) w0 error q))
    as Hentry.
  { intros e' <-. split; [by apply Hinv|]. intros q' [= <-]. by exists error. }
  destruct (w_pause w0).
  { destruct i; [|done]. intros [= <-] [= <-]. by apply Hentry. }
  destruct (loop rounds st') as [log out] eqn:Hl. destruct i as [|i]; cbn [fst].
  - intros [= <-] [= <-]. by apply Hentry.
  - intros He Hw. specialize (IH st' i Hb' Hc). rewrite Hl in IH. by apply IH.
Qed.
End run.

(** ** Validated options *)

Definition policy_valid (p : RetryPolicy) : Prop :=
  2 ≤ maxAttempts p ≤ 5 ∧ (0 < initialBackoffMs p)%Q ∧ (initialBackoffMs p <= maxBackoffMs p)%Q ∧
  (0 < backoffMultiplier p)%Q ∧ retryableStatusCodes p ≠ [] ∧
  Forall (λ c, 1 ≤ c ≤ 16) (retryableStatusCodes p).

Lemma positive_Some n q : positive n = Some q → (0 < q)%Q.
Proof.
  destruct n as [x| |]; cbn; try done. destruct (Qle_bool x 0) eqn:H; [done|]. intros [= <-].
  apply Qnot_le_lt. intros Hx. apply Qle_bool_iff in Hx. congruence.
Qed.

Lemma status_code_Some n c : status_code n = Some c → 1 ≤ c ≤ 16.
Proof.
  unfold status_code. destruct (integer n) as [v|]; [|done].
  destruct (Z.ltb_spec v 1); [done|]. destruct (Z.ltb_spec 16 v); [done|]. intros [= <-]. lia.
Qed.

Lemma policyCopy_valid init p : policyCopy init = Some p → policy_valid p.
Proof.
  unfold policyCopy. destruct (integer (pi_maxAttempts init)) as [a|]; [|done].
  destruct (Z.ltb_spec a 2); [done|]. destruct (Z.ltb_spec 5 a); [done|]. cbn [orb].
  destruct (positive (pi_initialBackoffMs init)) as [q1|] eqn:H1; [|done].
  destruct (positive (pi_maxBackoffMs init)) as [q2|] eqn:H2; [|done].
  destruct (positive (pi_backoffMultiplier init)) as [q3|] eqn:H3; [|done].
  destruct (Qle_bool q1 q2) eqn:Hle; [|done]. cbn [negb]. case_bool_decide as Hne; [done|].
  intros (codes & Hm & [= <-])%bind_Some. unfold policy_valid. cbn.
  apply Qle_bool_iff in Hle. split_and!; try lia; try (by eapply positive_Some); [done| |].
  - intros ->. apply mapM_Some_1 in Hm. inversion Hm as [E|]. by rewrite <- E in Hne.
  - apply mapM_Some_1 in Hm. apply Forall_lookup. intros i c Hc.
    destruct (Forall2_lookup_r _ _ _ _ _ Hm Hc) as (n & _ & Hn). by eapply status_code_Some.
Qed.

Lemma part_policy x y p : part policyCopy x = Some y → y = Some p → policy_valid p.
Proof.
  destruct x as [init|]; cbn; [|by intros [= <-]].
  destruct (policyCopy init) as [p'|] eqn:H; cbn; [|done]. intros [= <-] [= <-]. by eapply policyCopy_valid.
Qed.

Lemma policy_for_valid methods key fallback p :
  Forall (λ kv, ∀ p, snd kv = Some p → policy_valid p) methods →
  (∀ p, fallback = Some p → policy_valid p) →
  policy_for methods key fallback = Some p → policy_valid p.
Proof.
  intros Hm Hf. induction Hm as [|[k q] methods Hq _ IH]; cbn [policy_for]; [apply Hf|].
  destruct (decide (k = key)); [apply Hq|apply IH].
Qed.

Lemma retrying_new_valid init o buffer perRpc tokens key p :
  retrying_new init = Some (o, buffer, perRpc, tokens) →
  policy_for (o_methods o) key (o_policy o) = Some p → policy_valid p.
Proof.
  unfold retrying_new. intros (pol & Hpol & H)%bind_Some.
  apply bind_Some in H as (ms & Hms & H). apply bind_Some in H as (b & _ & H).
  apply bind_Some in H as (r & _ & H). apply bind_Some in H as (t & _ & H).
  injection H as <- _ _ _. cbn. apply policy_for_valid; [|intros; by eapply part_policy].
  apply mapM_Some_1 in Hms. apply Forall_lookup. intros i [k q] Hi p' Hq. cbn [snd] in Hq. subst q.
  destruct (Forall2_lookup_r _ _ _ _ _ Hms Hi) as ([k0 x] & _ & Hx).
  destruct (part policyCopy x) as [y|] eqn:Hy; cbn in Hx; [|done]. injection Hx as -> ->.
  by eapply part_policy.
Qed.

(** A policy and rounds for the witnesses: the connection is not ready, the server refuses the
    stream, answers [UNAVAILABLE] twice (the second time with pushback) and then succeeds. *)
Module Demo.
Definition init : OptionsInit :=
  mkOptionsInit
    (Some (mkPolicyInit (Fin 3) (Fin 100) (Fin 1000) (Fin 2) [Fin 14])) [] None None
    (Some (mkThrottlingInit (Fin 10) (Fin (1 # 10)))).
Definition round (error : option Thrown) : Round :=
  mkRound None 0 None None 0 error None false 10 (1 # 2) 0 None.
Definition fails (metadata : jsobject) (ev : option Evidence) : option Thrown :=
  Some (mkThrown (Some (mkConnectError (js "down") 14 metadata)) (Some (mkInfo false ev))).
Definition rounds : list Round :=
  [round (fails [] (Some Unsent)); round (fails [] (Some Refused)); round (fails [] None);
   round (fails [(PUSHBACK, js "250")] None); round None].
Definition options : RetryOptions :=
  mkRetryOptions (Some (mkPolicy 3 100 1000 2 [14])) [] (Some (mkThrottling 10 (1 # 10))).
End Demo.

(** C16: a further attempt is made only when the contract allows it: the call is neither
    aborted nor committed, and either the request was never sent, or this is the first time the
    server refused it (both leave the attempt count as it is), or the status is one the policy
    retries, the attempt count stays below [maxAttempts] and the throttle has more than half of
    its tokens left after the failure was charged. *)
Theorem retry_justified o key header timeout now rounds i e e' :
  let policy := policy_for (o_methods o) key (o_policy o) in
  let log := fst (run o key header timeout now rounds) in
  log !! i = Some e → log !! S i = Some e' →
  ∃ w error, rounds !! i = Some w ∧
    snd (try_attempt header timeout (deadline_of timeout now) (e_state e) w) = Some error ∧
    w_abort_caught w = None ∧ w_committed w = false ∧ info_committed error = false ∧
    ((previous (e_state e') = previous (e_state e) ∧
      (evidence error = Some Unsent ∧ refused (e_state e') = refused (e_state e) ∨
       evidence error = Some Refused ∧ refused (e_state e) = false ∧ refused (e_state e') = true)) ∨
     (previous (e_state e') = previous (e_state e) + 1 ∧ refused (e_state e') = refused (e_state e) ∧
      ∃ p, policy = Some p ∧ retryable p error = true ∧ previous (e_state e') < maxAttempts p ∧
        ∀ t, o_throttling o = Some t →
          (maxTokens t / 2 < failure (o_throttling o) policy error (w_tokens w))%Q)).
Proof. apply loop_justified. Qed.

Lemma retry_justified_witness :
  ∃ w error, Demo.rounds !! 2%nat = Some w ∧
    snd (try_attempt [] None None (mkRun 0 true true 100) w) = Some error ∧
    info_committed error = false.
Proof.
  destruct (retry_justified Demo.options [] [] None 0 Demo.rounds 2
    (mkEntry (mkRun 0 true true 100) (Some (None, [])) (Some (100 * ((8 # 10) + (1 # 2) * (4 # 10)))%Q))
    (mkEntry (mkRun 1 true true (Qmin 1000 (100 * 2)))
       (Some (None, [(ATTEMPTS, js "1")])) (Some (inject_Z 250)))
    eq_refl eq_refl) as (w & error & H1 & H2 & _ & _ & H3 & _).
  by exists w, error.
Defined.

(** C35: attempts are bounded and the loop ends: on validated options, the rounds of a call are
    at most [maxAttempts] (one without a policy), plus one for a refused stream, plus the
    rounds whose request was not sent; and with more rounds than that to come, [run] has
    returned or thrown. *)
Theorem attempts_bounded init o buffer perRpc tokens key header timeout now rounds :
  retrying_new init = Some (o, buffer, perRpc, tokens) →
  let policy := policy_for (o_methods o) key (o_policy o) in
  let bound := match policy with Some p => maxAttempts p | None => 1 end + 1
               + unsent_rounds policy header timeout (deadline_of timeout now) rounds in
  let '(log, out) := run o key header timeout now rounds in
  zlen log ≤ bound ∧ (bound < zlen rounds → is_Some out).
Proof.
  intros Ho. cbv zeta. unfold run.
  set (policy := policy_for (o_methods o) key (o_policy o)).
  pose proof (loop_bounded (o_throttling o) policy header timeout (deadline_of timeout now) rounds
    (run_start policy)) as [H1 H2].
  destruct (run_loop _ _ _ _ _ _ _) as [log out]. cbn [fst snd] in *.
  assert (1 + retries_left policy (run_start policy) =
    match policy with Some p => maxAttempts p | None => 1 end + 1) as Hb.
  { unfold retries_left. destruct policy as [p|] eqn:Hp; cbn [run_start previous refused]; [|lia].
    destruct (retrying_new_valid _ _ _ _ _ _ _ Ho Hp) as [Hmax _]. lia. }
  split; [lia|]. intros Hlt. destruct out; [done|]. specialize (H2 eq_refl). lia.
Qed.

Lemma attempts_bounded_witness :
  5 ≤ 3 + 1 + 1.
Proof.
  pose proof (attempts_bounded Demo.init Demo.options 4194304 262144 10 [] [] None 0 Demo.rounds
    eq_refl) as H.
  cbv zeta in H. vm_compute in H. vm_compute. apply H.
Defined.

(** The deadline covers attempts and pauses: on validated options, an attempt is only
    started with time left, and exactly that time is its timeout; no pause is negative or runs
    past the deadline, and without pushback none exceeds 1.2 times [maxBackoffMs]. *)
Theorem deadline_respected init o buffer perRpc tokens key header timeout now rounds i e w :
  retrying_new init = Some (o, buffer, perRpc, tokens) →
  Forall (λ w, (0 <= w_random w)%Q ∧ (w_random w <= 1)%Q) rounds →
  fst (run o key header timeout now rounds) !! i = Some e → rounds !! i = Some w →
  (∀ t h d, e_invoked e = Some (t, h) → deadline_of timeout now = Some d →
     ∃ q, t = Some q ∧ (0 < q)%Q ∧ (q = d - w_now_invoke w)%Q) ∧
  (∀ q, e_delay e = Some q →
     (0 <= q)%Q ∧
     (∀ d, deadline_of timeout now = Some d → (q <= Qmax 0 (d - w_now_pause w))%Q) ∧
     ∃ error, snd (try_attempt header timeout (deadline_of timeout now) (e_state e) w) = Some error ∧
       ∀ p, policy_for (o_methods o) key (o_policy o) = Some p → pushback error = None →
         (q <= (12 # 10) * maxBackoffMs p)%Q).
Proof.
  intros Ho Hr He Hw. unfold run in He. set (policy := policy_for (o_methods o) key (o_policy o)) in *.
  assert (policy_ok policy) as Hpol.
  { intros p Hp. destruct (retrying_new_valid _ _ _ _ _ _ _ Ho Hp) as (_ & ? & ? & ? & _). done. }
  assert (backoff_ok policy (run_start policy)) as Hb.
  { intros p Hp. destruct (Hpol p Hp) as (? & ? & _). unfold run_start. by rewrite Hp. }
  destruct (loop_delays _ _ _ _ _ _ _ _ _ _ Hpol Hb Hr He Hw) as [H1 H2]. split; [done|].
  intros q Hq. destruct (H2 q Hq) as (error & Herr & H3 & H4 & H5).
  split_and!; [done|done|]. exists error. split; [|done].
  by rewrite (attempt_error policy).
Qed.

Lemma deadline_respected_witness : (0 <= inject_Z 250)%Q.
Proof.
  destruct (deadline_respected Demo.init Demo.options 4194304 262144 10 [] [] (Some 5000%Q) 0 Demo.rounds 3
    (mkEntry (mkRun 1 true true (Qmin 1000 (100 * 2)))
       (Some (Some (0 + 5000 - 0)%Q, [(ATTEMPTS, js "1")]))
       (Some (Qmin (inject_Z 250) (Qmax 0 (0 + 5000 - 0)))))
    (Demo.round (Demo.fails [(PUSHBACK, js "250")] None))) as [_ H].
  - reflexivity.
  - repeat constructor; cbn; lra.
  - reflexivity.
  - reflexivity.
  - destruct (H _ eq_refl) as [H0 _]. vm_compute in H0 |- *. exact H0.
Defined.

(** ** Throttling *)

Inductive TokenOp := Succeeded | Failed (policy : option RetryPolicy) (error : Thrown).

Definition token_op (t : Throttling) (tokens : Q) (op : TokenOp) : Q :=
  match op with
  | Succeeded => success (Some t) tokens
  | Failed policy error => failure (Some t) policy error tokens
  end.

(** Over every sequence of successes and failures of the calls of a connection, the token
    count stays between zero and [maxTokens]; and once [maxTokens / 2] matching failures came in
    a row, configured retries stop. *)
Theorem tokens_bounded t ops tokens :
  (0 < maxTokens t)%Q → (0 < tokenRatio t)%Q → (0 <= tokens <= maxTokens t)%Q →
  let tokens' := fold_left (token_op t) ops tokens in
  (0 <= tokens' <= maxTokens t)%Q ∧
  ∀ p errors, Forall (λ e, retryable p e = true) errors →
    (maxTokens t / 2 <= inject_Z (zlen errors))%Q →
    throttled (Some t) (fold_left (token_op t) (map (Failed (Some p)) errors) tokens') = true.
Proof.
  intros Hmax Hratio Htok. cbv zeta.
  assert (∀ op x, (0 <= x <= maxTokens t)%Q → (0 <= token_op t x op <= maxTokens t)%Q) as Hop.
  { intros [|[p|] error] x Hx; cbn [token_op success failure]; [| |done].
    - split; [apply Q.min_glb; lra|apply Q.le_min_l].
    - destruct (retryable p error); [|done]. split; [apply Q.le_max_l|apply Q.max_lub; lra]. }
  assert ((0 <= fold_left (token_op t) ops tokens <= maxTokens t)%Q) as Hb.
  { revert tokens Htok. induction ops as [|op ops IH]; intros x Hx; [done|]. apply IH. by apply Hop. }
  split; [done|]. intros p errors He Hlen. revert Hb. generalize (fold_left (token_op t) ops tokens).
  assert (∀ es x, Forall (λ e, retryable p e = true) es → (0 <= x <= maxTokens t)%Q →
    (fold_left (token_op t) (map (Failed (Some p)) es) x <= Qmax 0 (x - inject_Z (zlen es)))%Q) as Hdrain.
  { induction es as [|e es IH]; intros x Hes Hx.
    - cbn [map fold_left]. change (inject_Z (zlen (@nil Thrown))) with 0%Q.
      eapply Qle_trans; [|apply Q.le_max_r]. lra.
    - apply Forall_cons_1 in Hes as [Hr Hes]. cbn [map fold_left].
      eapply Qle_trans; [apply IH; [done|by apply Hop]|]. cbn [token_op failure]. rewrite Hr.
      rewrite zlen_cons, inject_Z_plus. change (inject_Z 1) with 1%Q.
      pose proof (Q.le_max_l 0 (x - (1 + inject_Z (zlen es)))).
      pose proof (Q.le_max_r 0 (x - (1 + inject_Z (zlen es)))).
      apply Q.max_lub; [done|]. destruct (Q.max_spec 0 (x - 1)) as [[_ Hm]|[_ Hm]]; rewrite Hm; [lra|].
      assert (0 <= inject_Z (zlen es))%Q; [|lra].
      change 0%Q with (inject_Z 0). rewrite <- Zle_Qle. apply zlen_nonneg. }
  intros x Hx. specialize (Hdrain errors x He Hx). unfold throttled. apply Qle_bool_iff.
  eapply Qle_trans; [exact Hdrain|]. unfold Qdiv in *.
  change (/ 2)%Q with (1 # 2)%Q in *. apply Q.max_lub; lra.
Qed.

Lemma tokens_bounded_witness :
  (0 <= fold_left (token_op (mkThrottling 2 (1 # 10)))
     [Failed (Some (mkPolicy 3 100 1000 2 [14%Z])) (connect_thrown "x" 14); Succeeded] 2 <= 2)%Q.
Proof. apply (tokens_bounded (mkThrottling 2 (1 # 10))); cbn; lra. Defined.

(** The attempt number is the client's: whatever the caller put under
    [grpc-previous-rpc-attempts], the first attempt and transparent retries carry no such
    header, the n-th configured retry carries n, and all other headers are as the caller set
    them. *)
Theorem attempt_number original n :
  0 ≤ n < 5 →
  headers_get (attempt_headers original n) ATTEMPTS =
    (if n =? 0 then None else Some (js (pretty n))) ∧
  ∀ name, name ≠ ATTEMPTS →
    headers_get (attempt_headers original n) name = headers_get original name.
Proof.
  intros Hn. unfold headers_get, attempt_headers, headers_delete.
  assert (∀ name, toLowerCase ATTEMPTS = name → name = ATTEMPTS) as Hlow by (by intros ? <-).
  assert (filter (λ kv : jsstring * jsstring, toLowerCase kv.1 = ATTEMPTS)
            (filter (λ kv, toLowerCase kv.1 ≠ ATTEMPTS) original) = []) as Hnone.
  { induction original as [|kv l IH]; [done|]. rewrite filter_cons.
    destruct (decide (toLowerCase kv.1 ≠ ATTEMPTS)); [|done]. by rewrite filter_cons_False. }
  split.
  - destruct (Z.eqb_spec n 0) as [->|Hne]; [by rewrite Hnone|].
    rewrite list.filter_app, Hnone. cbn [app]. rewrite filter_cons_True by done. cbn [filter].
    assert (n = 1 ∨ n = 2 ∨ n = 3 ∨ n = 4) as [-> | [-> | [-> | ->]]] by lia; reflexivity.
  - intros name Hname.
    assert (filter (λ kv : jsstring * jsstring, toLowerCase kv.1 = name)
      (filter (λ kv, toLowerCase kv.1 ≠ ATTEMPTS) original) =
      filter (λ kv : jsstring * jsstring, toLowerCase kv.1 = name) original) as Hsame.
    { clear Hnone. induction original as [|kv l IH]; [done|]. rewrite !filter_cons.
      destruct (decide (toLowerCase kv.1 ≠ ATTEMPTS)) as [Hd|Hd].
      - rewrite filter_cons. destruct (decide (toLowerCase kv.1 = name)); by rewrite IH.
      - rewrite IH. destruct (decide (toLowerCase kv.1 = name)) as [E|]; [|done].
        destruct Hd. congruence. }
    destruct (n =? 0); [by rewrite Hsame|].
    rewrite list.filter_app, Hsame, filter_cons_False, app_nil_r; [done|].
    intros E. by apply Hname, Hlow.
Qed.

Lemma attempt_number_witness :
  headers_get (attempt_headers [(js "X-Id", js "7"); (js "Grpc-Previous-Rpc-Attempts", js "9")] 2) ATTEMPTS
  = Some (js "2").
Proof. apply (attempt_number _ 2). lia. Defined.
