(* ===== verification/Evidence.v ===== *)
(** * Evidence: what a failed request says about the peer

    A request that the peer has certainly not processed may be sent again without asking anyone:
    the engine marks such failures ([H2Error.retry] in [h2/errors.ts]), and [RetryingTransport]
    repeats them without counting ([retry.ts]).  This file shows, over all interleavings of a
    connection, that the marks are true. *)
From S2P Require Import Prelude Errors Text Bytes Frames HpackTables Huffman Hpack Flow Stream.
From S2P Require Import Connection ConnectionInv ConnectionSteps ConnectionCorrect ConnectionOps Footprint.
From Stdlib Require Import QArith.
From S2P Require Import Framing Retry.
Local Open Scope Z_scope.

#[local] Opaque HUFFMAN_CODES ROOT STATIC_TABLE staticPairToIndex staticNameToIndex he_encode.

(** ** What the peer has said *)

(** It refused stream [sid], or left it behind with GOAWAY. *)
Definition disowned (sid : Z) (w : list Wire) : Prop :=
  (∃ code, Rx (RstStreamFrame sid code) ∈ w ∧ errorCodeName code = Some REFUSED_STREAM) ∨
  (∃ last code dbg, Rx (GoawayFrame last code dbg) ∈ w ∧ last < sid).

Lemma disowned_app sid a b : disowned sid a → disowned sid (a ++ b).
Proof.
  intros [(code & H & E)|(last & code & dbg & H & E)]; [left|right];
    repeat eexists; try done; apply elem_of_app; by left.
Qed.

(** An error that stream [sid] may show. *)
Definition true_error (sid : Z) (w : list Wire) (e : exn) : Prop :=
  match exn_retry e with
  | None => True
  | Some Unsent => False
  | Some Refused => disowned sid w
  end.
Lemma true_unmarked sid w e : exn_retry e = None → true_error sid w e.
Proof. unfold true_error. by intros ->. Qed.
Lemma true_app sid a b e : true_error sid a e → true_error sid (a ++ b) e.
Proof. unfold true_error. destruct (exn_retry e) as [[]|]; [done|apply disowned_app|done]. Qed.

Definition truthful (c : Conn) : Prop :=
  ∀ r s e, objs c !! r = Some s → told s e → true_error (id s) (wire c) e.

(** ** Changes that add no marked error *)

Record calm (c c' : Conn) : Prop := mkCalm {
  ca_wire : ∃ w, wire c' = wire c ++ w;
  ca_objs r s' e : objs c' !! r = Some s' → told s' e →
    exn_retry e = None ∨ ∃ s, objs c !! r = Some s ∧ id s' = id s ∧ told s e;
}.

#[export] Instance calm_preorder : PreOrder calm.
Proof.
  split.
  - intros c. split; [exists []; by rewrite app_nil_r|]. intros r s e Hs He. right. by exists s.
  - intros c1 c2 c3 [[w1 W1] O1] [[w2 W2] O2]. split; [exists (w1 ++ w2); by rewrite W2, W1, app_assoc|].
    intros r s e Hs He. destruct (O2 r s e Hs He) as [?|(s2 & H2 & E2 & T2)]; [by left|].
    destruct (O1 r s2 e H2 T2) as [?|(s1 & H1 & E1 & T1)]; [by left|]. right. exists s1. by rewrite E2.
Qed.

Lemma truthful_calm c c' : calm c c' → truthful c → truthful c'.
Proof.
  intros [[w Hw] Ho] H r s e Hs He. destruct (Ho r s e Hs He) as [?|(s0 & H0 & E & T)]; [by apply true_unmarked|].
  rewrite Hw, E. by apply true_app, (H r).
Qed.

Lemma calm_fields c c' : objs c' = objs c → wire c' = wire c → calm c c'.
Proof.
  intros E1 E2. split; [exists []; by rewrite E2, app_nil_r|]. rewrite E1. intros r s e Hs He. right. by exists s.
Qed.
Lemma calm_obj r f c :
  (∀ s, objs c !! r = Some s → id (f s) = id s ∧ ∀ e, told (f s) e → told s e ∨ exn_retry e = None) →
  calm c (with_obj r f c).
Proof.
  intros Hf. split; [exists []; by rewrite app_nil_r|]. intros r' s' e Hs He. cbn in Hs.
  destruct (decide (r' = r)) as [->|Hne].
  - rewrite list_lookup_alter_eq in Hs. destruct (objs c !! r) as [s|] eqn:E; [|done]. injection Hs as <-.
    destruct (Hf s eq_refl) as [Hi Ht]. destruct (Ht e He); [right; by exists s|by left].
  - rewrite list_lookup_alter_ne in Hs by done. right. by exists s'.
Qed.
Lemma calm_send f c : calm c (send f c).
Proof.
  unfold send. destruct (closedFlag c); [reflexivity|]. split; [by exists [Tx f]|].
  intros r s e Hs He. right. by exists s.
Qed.

Lemma fail_told e s e' : told (fst (fail e s)) e' → told s e' ∨ e' = e.
Proof.
  unfold fail, abort_stopped, told. destruct (stopped s) eqn:Es, (sw_close _) as [w l]; cbn;
    destruct (gotHead s); cbn; destruct (recvError s) eqn:E; cbn; rewrite ?E, ?Es; intuition congruence.
Qed.
Lemma fail_stream_told e r c r' s' e' :
  objs (fail_stream e r c) !! r' = Some s' → told s' e' →
  ∃ s, objs c !! r' = Some s ∧ id s' = id s ∧ (told s e' ∨ r' = r ∧ e' = e).
Proof.
  unfold fail_stream. destruct (objs c !! r) as [s|] eqn:Hs; [|intros H ?; exists s'; auto].
  pose proof (fail_fields e s) as (Hi & _). pose proof (fail_told e s e') as Ht.
  destruct (fail e s) as [s1 l]. cbn [fst] in *. cbn. intros H Te. destruct (decide (r' = r)) as [->|Hne].
  - rewrite list_lookup_alter_eq, Hs in H. injection H as <-. exists s. split_and!; [done..|]. destruct (Ht Te); auto.
  - rewrite list_lookup_alter_ne in H by done. exists s'. auto.
Qed.
Lemma fail_stream_wire e r c : wire (fail_stream e r c) = wire c.
Proof. unfold fail_stream. destruct (objs c !! r); [|done]. by destruct (fail _ _). Qed.

#[export] Instance calm_footprint : Footprint (λ e, exn_retry e = None) calm.
Proof.
  split.
  - apply _.
  - intros c c' Ho _ _ _ Hw _ _. by apply calm_fields.
  - intros f c. split; [by exists [Rx f]|]. intros r s e Hs He. right. by exists s.
  - intros f c _. apply calm_send.
  - intros r f c H. apply calm_obj. intros s Hs. destruct (H s Hs) as [Hi _ Ht]. auto.
  - intros r s n c Hs. transitivity (with_obj r (set_sendWindow (fst (sw_add n (sendWindow s)))) c);
      [|by apply calm_fields]. apply calm_obj. intros s0 H0. split; [done|]. by left.
  - intros n c. by apply calm_fields.
  - by intros h.
  - intros e r c He. split; [exists []; by rewrite fail_stream_wire, app_nil_r|]. intros r' s' e' Hs Te.
    destruct (fail_stream_told e r c r' s' e' Hs Te) as (s & H0 & Hi & [T|[_ ->]]); [right; by exists s|by left].
  - intros e c. by apply calm_fields.
  - intros s c c' _ Hn Ho _ _ _ Hw _ _. split; [exists []; by rewrite Hw, app_nil_r|]. intros r s' e Hs Te.
    rewrite Ho in Hs. apply lookup_app_Some in Hs as [Hs|[_ Hs]]; [right; by exists s'|].
    apply list_lookup_singleton_Some in Hs as [_ <-]. by destruct (Hn e).
Qed.

(** *** Pumps *)

Ltac calm_same := intros ? _; split; [by repeat case_match|]; intros ? Ht; left; by repeat case_match.
Ltac calm_op :=
  match goal with
  | |- calm _ (send _ _) => etransitivity; [|apply calm_send]
  | |- calm _ (with_obj _ _ _) => etransitivity; [|apply calm_obj; calm_same]
  | |- calm _ (?f ?d) => etransitivity; [|by apply (calm_fields d (f d))]
  end.
Ltac calm := cbn [fst snd modify]; repeat first [reflexivity | calm_op].

Lemma calm_top i p s c : calm c (pump_top i p s c).
Proof.
  unfold pump_top, set_pump. destruct (_ <? _); [|calm]. destruct (pump_stopped s c); [calm|].
  destruct (sw_waitPositive _ _). calm.
Qed.
Lemma calm_end i p s c : calm c (pump_end i p s c).
Proof. unfold pump_end, set_pump. destruct (_ || _); calm. Qed.
Lemma calm_pump i d c : calm c (pump_step i d c).
Proof.
  unfold pump_step. destruct (pumps c !! i) as [p|]; [|reflexivity].
  destruct (objs c !! p_ref p) as [s|]; [|reflexivity]. destruct (p_phase p); try reflexivity.
  - unfold pump_next. destruct (p_fixed p) as [[|ch rest]|]; [apply calm_end|apply calm_top|].
    destruct d as [[|b ch]|]; [reflexivity|apply calm_top|apply calm_end].
  - destruct (sw_waitPositive _ _). unfold set_pump. calm.
  - unfold pump_grant, set_pump. destruct (pump_stopped s c); [calm|]. destruct (_ <=? 0); [apply calm_top|calm].
  - apply calm_top.
  - unfold set_pump. calm_op. etransitivity; [|apply touch_retire]. calm.
Qed.

(** ** The frames that mark errors *)

Lemma truthful_fail e r c :
  truthful c → (∀ s, objs c !! r = Some s → true_error (id s) (wire c) e) → truthful (fail_stream e r c).
Proof.
  intros H He r' s' e' Hs Te. destruct (fail_stream_told e r c r' s' e' Hs Te) as (s & H0 & -> & [T|[-> ->]]);
    rewrite fail_stream_wire; [by apply (H r' s)|by apply He].
Qed.

Lemma truthful_rst cfg sid code c :
  inv cfg c → Rx (RstStreamFrame sid code) ∈ wire c → truthful c → truthful (on_rst_stream sid code c).
Proof.
  intros Hinv Hin H. unfold on_rst_stream. destruct (get_stream sid c) as [[r s]|] eqn:Hg; [|done].
  apply get_stream_Some in Hg as [Hg Hs]. pose proof (ref_id _ _ _ _ _ _ (proj1 Hinv) Hg Hs) as Hid.
  eapply truthful_calm; [apply touch_wake_slots|]. unfold delete_stream.
  eapply truthful_calm; [by apply calm_fields|]. pose proof (touch_discard r s c Hs) as Hd.
  apply truthful_fail; [by apply (truthful_calm c)|]. intros s' Hs'.
  destruct (discard_fields r s c) as [_ Ho]. rewrite Ho, list_lookup_alter_eq, Hs in Hs'. injection Hs' as <-.
  destruct Hd as [[w ->] _]. apply true_app. unfold true_error, reset_error. cbn.
  case_decide as E; [|done]. left. exists code. cbn [id set_queue]. rewrite Hid. split; [done|].
  by destruct (errorCodeName code) as [n|]; [rewrite <- E|].
Qed.

Lemma truthful_exclude last code dbg (l : list (Z * nat)) c :
  Rx (GoawayFrame last code dbg) ∈ wire c → (∀ sid r s, (sid, r) ∈ l → objs c !! r = Some s → id s = sid) →
  truthful c →
  truthful (fold_left (λ c '(sid, r), if last <? sid
    then delete_stream sid (fail_stream (excluded code sid) r c) else c) l c).
Proof.
  revert c. induction l as [|[sid r] l IH]; intros c Hin Hl H; cbn [fold_left]; [done|].
  destruct (Z.ltb_spec last sid) as [Hlt|]; [|apply IH; [done| |done]; intros; eapply Hl; [by right|done]].
  apply IH; unfold delete_stream; cbn [wire set_streams objs].
  - by rewrite fail_stream_wire.
  - intros i r' s Hi Hs. destruct (fail_stream_ids _ _ _ _ _ Hs) as (s0 & H0 & ->). eapply Hl; [by right|done].
  - eapply truthful_calm; [by apply calm_fields|]. apply truthful_fail; [done|]. intros s Hs.
    unfold true_error, excluded. cbn. right. exists last, code, dbg. split; [done|].
    rewrite (Hl sid r s); [done|by left|done].
Qed.

Lemma truthful_goaway cfg last code dbg c :
  inv cfg c → Rx (GoawayFrame last code dbg) ∈ wire c → truthful c → truthful (on_goaway last code c).
Proof.
  intros Hinv Hin H. unfold on_goaway. set (c2 := fold_left _ _ _). assert (truthful c2) as H2.
  { apply (truthful_exclude _ _ dbg); [done| |by apply (truthful_calm c); [calm|]]. intros sid r s Hi Hs.
    eapply (ref_id cfg nobody sid r s c); [apply Hinv| |exact Hs]. apply map_elem_get; [apply Hinv|done]. }
  assert (truthful (wakeStreamSlots c2)) as H3 by (by eapply truthful_calm; [apply touch_wake_slots|]).
  destruct (code =? 0); [done|]. eapply truthful_calm; [by apply touch_destroy|done].
Qed.

(** ** Errors thrown by the engine carry no mark *)

Definition plainly {S A} (m : M S exn A) : Prop := ∀ s s' e, m s = (s', Throw e) → exn_retry e = None.
Definition plain_result {A} (x : result exn A) : Prop := ∀ e, x = Throw e → exn_retry e = None.

Lemma plainly_ret {S A} (a : A) : plainly (mret a : M S exn A).
Proof. by intros s s' e [=]. Qed.
Lemma plainly_throw {S A} e : exn_retry e = None → plainly (throw e : M S exn A).
Proof. by intros H s s' e' [= _ <-]. Qed.
Lemma plainly_modify {S} (f : S → S) : plainly (modify f : M S exn unit).
Proof. by intros s s' e [=]. Qed.
Lemma plainly_state {S} : plainly (get_state : M S exn S).
Proof. by intros s s' e [=]. Qed.
Lemma plainly_bind {S A B} (m : M S exn A) (f : A → M S exn B) :
  plainly m → (∀ a, plainly (f a)) → plainly (m ≫= f).
Proof.
  intros Hm Hf s s' e. unfold mbind, M_bind. destruct (m s) as [s1 [a|e1]] eqn:E; [apply Hf|].
  intros [= _ <-]. exact (Hm _ _ _ E).
Qed.
Lemma plainly_lift {S A} (x : result exn A) : plain_result x → plainly (lift_result x : M S exn A).
Proof. intros H. destruct x; [apply plainly_ret|]. by apply plainly_throw, H. Qed.
Lemma plainly_reader {A} (m : Rd A) : plainly m → plainly (on_reader m).
Proof. intros H s s' e. unfold on_reader. destruct (m (dc_r s)) eqn:E. intros [= _ ->]. exact (H _ _ _ E). Qed.
Lemma plainly_decoder {A} (m : M HpackDecoder exn A) : plainly m → plainly (on_decoder m).
Proof. intros H s s' e. unfold on_decoder. destruct (m (dc_d s)) eqn:E. intros [= _ ->]. exact (H _ _ _ E). Qed.
Create HintDb plain.
#[local] Hint Resolve plainly_ret plainly_modify plainly_state plainly_lift plainly_reader plainly_decoder : plain.

(** Case analysis of a monadic body. *)
Ltac plain_op :=
  match goal with
  | |- plainly (_ ≫= _) => apply plainly_bind; [|intros ?]
  | |- plainly (throw _) => by apply plainly_throw
  | |- plainly (if ?b then _ else _) => destruct b
  | |- plainly (let _ := _ in _) => cbv zeta
  | |- plainly (match ?x with _ => _ end) => destruct x
  | |- _ => solve [auto with plain]
  end.
Ltac plain := repeat plain_op.

(** *** Byte and frame readers *)

Lemma plain_getUint8 i : plainly (getUint8 i).
Proof. intros s s' e. unfold getUint8. repeat case_match; by intros [= _ <-]. Qed.
Lemma plain_advance n : plainly (advance n). Proof. apply plainly_modify. Qed.
#[local] Hint Resolve plain_getUint8 plain_advance : plain.
Ltac plain_at op :=
  intros s s' e; unfold op; lazymatch goal with |- ?m _ = _ → _ => refine ((_ : plainly m) s s' e) end; plain.
Lemma plain_peek : plainly rd_peek. Proof. plain_at rd_peek. Qed.
Lemma plain_u8 : plainly rd_u8. Proof. plain_at rd_u8. Qed.
Lemma plain_u16 : plainly rd_u16. Proof. plain_at rd_u16. Qed.
Lemma plain_u32 : plainly rd_u32. Proof. plain_at rd_u32. Qed.
Lemma plain_bytes n : plainly (rd_bytes n). Proof. plain_at rd_bytes. Qed.
#[local] Hint Resolve plain_peek plain_u8 plain_u16 plain_u32 plain_bytes : plain.

Lemma plain_padded n p : plainly (readPadded n p). Proof. unfold readPadded. plain. Qed.
Lemma plain_priority : plainly read_priority. Proof. unfold read_priority. plain. Qed.
Lemma plain_settings n s : plainly (read_settings n s).
Proof. revert s. induction n as [|n IH]; intros s; cbn [read_settings]; plain. Qed.
#[local] Hint Resolve plain_padded plain_priority plain_settings : plain.
Lemma plain_payload t fl sid p : plainly (parsePayload t fl sid p).
Proof. unfold parsePayload. plain. Qed.

Lemma plain_push_loop fuel max buf off fs : plain_result (push_loop fuel max buf off fs).
Proof.
  revert off fs. induction fuel as [|n IH]; intros off fs e; cbn [push_loop]; [done|]. cbv zeta.
  repeat (case_match; [done || by intros [= <-]|]).
  destruct (parsePayload _ _ _ _ _) as [r x] eqn:E. cbn [snd]. destruct x as [f|e']; [apply IH|].
  apply plain_payload in E. destruct e'; (apply IH || by intros [= <-]).
Qed.
Lemma plain_push chunk : plainly (fd_push chunk).
Proof.
  intros s s' e. unfold fd_push. destruct (push_loop _ _ _ _ _) as [[fs off]|e'] eqn:E; [done|].
  intros [= _ <-]. by apply plain_push_loop in E.
Qed.

(** *** Header blocks *)

Lemma plain_huffman_byte b n st : plain_result (decode_byte b n st).
Proof.
  revert st. induction n as [|n IH]; intros st e; cbn [decode_byte]; [done|].
  destruct (decode_bit _ _) as [st'|e'] eqn:E; [apply IH|]. intros [= <-]. unfold decode_bit in E.
  by repeat case_match; simplify_eq.
Qed.
Lemma plain_huffman_bytes b st : plain_result (decode_bytes b st).
Proof.
  revert st. induction b as [|x b IH]; intros st e; cbn [decode_bytes]; [done|].
  destruct (decode_byte _ _ _) as [st'|e'] eqn:E; [apply IH|]. intros [= <-]. by apply plain_huffman_byte in E.
Qed.
Lemma plain_huffman b : plain_result (huffmanDecode b).
Proof.
  intros e. unfold huffmanDecode. destruct (decode_bytes b _) as [st|e'] eqn:E.
  - case_match; by intros [= <-].
  - intros [= <-]. by apply plain_huffman_bytes in E.
Qed.
Lemma plain_rest n v sh : plainly (read_rest n v sh).
Proof. revert v sh. induction n as [|n IH]; intros v sh; cbn [read_rest]; plain. Qed.
#[local] Hint Resolve plain_rest : plain.
Lemma plain_integer n : plainly (readInteger n). Proof. unfold readInteger. plain. Qed.
#[local] Hint Resolve plain_integer : plain.
Lemma plain_string : plainly readString.
Proof. unfold readString. plain; apply plainly_lift; case_match; [apply plain_huffman|done]. Qed.
Lemma plain_index i : plainly (at_index i).
Proof. intros s s' e. unfold at_index, entryAt. repeat case_match; by intros [= _ <-]. Qed.
Lemma plain_resize n : plainly (applyMaxSize n).
Proof. intros s s' e. unfold applyMaxSize. repeat case_match; by intros [= _ <-]. Qed.
Lemma plain_record l n v : plainly (recordHeader l n v). Proof. apply plainly_modify. Qed.
#[local] Hint Resolve plain_string plain_index plain_resize plain_record : plain.
Lemma plain_literal n : plainly (read_literal n). Proof. unfold read_literal. plain. Qed.
#[local] Hint Resolve plain_literal : plain.
Lemma plain_field l : plainly (decode_field l). Proof. unfold decode_field. plain. Qed.
#[local] Hint Resolve plain_field : plain.
Lemma plain_loop n l : plainly (decode_loop n l).
Proof. induction n as [|n IH]; cbn [decode_loop]; plain. Qed.
Lemma plain_decode b l : plainly (hd_decode b l).
Proof.
  intros s s' e. unfold hd_decode. destruct (decode_loop _ _ _) as [c' x] eqn:E. intros [= _ H].
  destruct x as [[]|e']; [case_match; by simplify_eq|]. injection H as <-. exact (plain_loop _ _ _ _ _ E).
Qed.

#[local] Opaque hd_decode.

(** *** Dispatch *)

(** The callback for pushes throws no marked error. *)
Definition plain_push_callback (cfg : Config) : Prop :=
  ∀ f p, onPush cfg = Some f → plain_result (f p).

Lemma plain_complete cfg : plain_push_callback cfg → plainly (completeHeaderBlock cfg).
Proof.
  intros Hcb s s' e. unfold completeHeaderBlock. destruct (pendingHeaderBlock s) as [pb|]; [|done]. cbv zeta.
  destruct (hd_decode _ _ _) as [d x] eqn:E. destruct x as [hs|e'].
  - destruct (pb_kind pb); [done|]. unfold handlePush. destruct (onPush cfg) as [f|] eqn:Hf; [|done].
    intros [= _ H]. by apply (Hcb f _ Hf) in H.
  - intros [= _ <-]. exact (plain_decode _ _ _ _ _ E).
Qed.
Lemma plain_guard : plainly guardHeaderBlockSize.
Proof. intros s s' e. unfold guardHeaderBlockSize. repeat case_match; by intros [= _ <-]. Qed.
Lemma plain_block cfg pb (eh : bool) :
  plain_push_callback cfg →
  plainly (modify (set_pendingHeaderBlock (Some pb));; guardHeaderBlockSize;;
             if eh then completeHeaderBlock cfg else mret tt).
Proof.
  intros H. apply plainly_bind; [plain|]. intros _. apply plainly_bind; [apply plain_guard|].
  intros _. destruct eh; [by apply plain_complete|plain].
Qed.

Lemma plain_dispatch cfg f : plain_push_callback cfg → plainly (dispatch cfg f).
Proof.
  intros Hcb s s' e. unfold dispatch. destruct (_ && _); [by intros [= _ <-]|].
  destruct f as [sid d flow fin|sid fr es eh p|sid p|sid code|ack st|sid pr fr eh|ack op|last code dbg
    |sid n|sid fr eh]; try done.
  - unfold on_data. repeat case_match; by intros [= _ <-].
  - by apply plain_block.
  - unfold on_settings, applyRemoteSettings. destruct ack; [apply plainly_ret|].
    apply plainly_bind; [|intros ?; plain]. apply plainly_bind; [|intros ?; apply plainly_bind; [|intros ?; plain]];
      intros ? ? ?; [unfold apply_initial_window|unfold apply_max_frame_size]; repeat case_match; by intros [= _ <-].
  - by apply plain_block.
  - unfold on_window_update. repeat case_match; by intros [= _ <-].
  - unfold on_continuation. destruct (pendingHeaderBlock _); [|by intros [= _ <-]].
    destruct (negb _); [by intros [= _ <-]|]. by apply plain_block.
Qed.

(** ** Every step *)

Lemma truthful_dispatch cfg f c : rx_ok f → inv cfg c → truthful c → truthful (fst (dispatch cfg f c)).
Proof.
  intros Hf Hinv H. set (c1 := set_wire (wire c ++ [Rx f]) c).
  assert (truthful c1) as H1 by (by eapply truthful_calm; [apply fp_received|]).
  destruct f as [sid d flow fin|sid fr es eh p|sid p|sid code|ack st|sid pr fr eh|ack op|last code dbg
    |sid n|sid fr eh]; try (by eapply truthful_calm; [by apply touch_dispatch|]);
    pose proof (inv_rx cfg _ c Hf Hinv) as Hrx; fold c1 in Hrx;
    unfold dispatch; fold c1; (destruct (_ && _); [done|]).
  - apply (truthful_rst cfg); [exact Hrx|set_solver|done].
  - apply (truthful_goaway cfg _ _ dbg); [exact Hrx|set_solver|done].
Qed.

Lemma truthful_dispatch_all cfg fs c :
  plain_push_callback cfg → Forall rx_ok fs → inv cfg c → truthful c → truthful (dispatch_all cfg fs c).
Proof.
  intros Hcb Hfs. revert c. induction Hfs as [|f fs Hf Hfs IH]; intros c Hc H; cbn [dispatch_all]; [done|].
  destruct (dispatch_inv cfg f c Hf Hc) as [_ Hs]. apply (truthful_dispatch cfg f c Hf Hc) in H.
  destruct (dispatch cfg f c) as [c' x] eqn:E. cbn [fst snd] in *.
  assert (∀ e, exn_retry e = None → truthful (connectionError e c')) as Herr
    by (intros e He; by eapply truthful_calm; [apply touch_error|]).
  destruct x as [u|e]; [by apply IH; [apply Hs|]|].
  apply (plain_dispatch cfg f Hcb) in E as He. destruct e as [[code [sid|] retry]| | |]; try (by apply Herr).
  apply IH; [|by eapply truthful_calm; [apply touch_reset|]].
  eapply (inv_reset _ nobody nodebt); [done|done|]. apply Hs. by eexists.
Qed.

Lemma truthful_bytes cfg chunk c :
  plain_push_callback cfg → inv cfg c → truthful c → truthful (onBytes cfg chunk c).
Proof.
  intros Hcb Hc H. unfold onBytes. destruct (fd_push chunk (frameDecoder c)) as [fd x] eqn:Hp.
  assert (truthful (set_frameDecoder fd c)) as H1 by (by apply (truthful_calm c); [apply calm_fields|]).
  destruct x as [fs|e].
  - apply (truthful_dispatch_all cfg); [done|by eapply fd_push_rx| |done]. by_same.
  - eapply truthful_calm; [apply touch_error|done]. exact (plain_push _ _ _ _ Hp).
Qed.

Lemma truthful_step cfg ev c :
  plain_push_callback cfg → (∀ e, event_error ev = Some e → exn_retry e = None) → inv cfg c →
  truthful c → truthful (step cfg ev c).
Proof.
  intros Hcb He Hc H. destruct (pump_event ev) eqn:Hp.
  - eapply truthful_calm; [|exact H]. destruct ev as [| | |t init ab| | |i d|i e| | | | | |]; try done; cbn [step].
    + unfold request_resume. destruct (request_check ab c); [done|]. destruct (canOpenStream c); [|by apply calm_fields].
      unfold open_stream. cbv zeta. cbn [fst]. destruct (bodyIsEmpty (i_body init)) eqn:Eb; cbn [negb].
      * calm_op. pose proof (touch_open (R := calm) cfg init c) as Ho. cbv zeta in Ho. by rewrite Eb in Ho.
      * calm_op. pose proof (touch_open (R := calm) cfg init c) as Ho. cbv zeta in Ho. by rewrite Eb in Ho.
    + apply calm_pump.
    + unfold pump_throws. destruct (pumps c !! i) as [p|]; [|done].
      destruct (p_phase p); try done; (etransitivity; [|apply touch_pump_failed, He; done]; by apply calm_fields).
  - assert ((∃ chunk, ev = EvBytes chunk) ∨ ∀ chunk, ev ≠ EvBytes chunk) as [[chunk ->]|Hb]
      by (destruct ev; [left; by eexists|right; done..]).
    + cbn [step]. destruct (zlen chunk =? 0); [done|]. by apply (truthful_bytes cfg).
    + eapply truthful_calm; [by apply touch_quiet_step|done].
Qed.

(** ** Transparent retries *)

(** States of a connection where no error made outside the engine (by the transport, the abort
    signal, a body's reader or the callback for pushes) carries a mark of the engine's. *)
Inductive plain_reachable (o : ConnectOptions) (cfg : Config) : Conn → Prop :=
| plain_new c : connection_new o = Ok (cfg, c) → plain_reachable o cfg c
| plain_next c ev : plain_reachable o cfg c → (∀ e, event_error ev = Some e → exn_retry e = None) →
    plain_reachable o cfg (step cfg ev c).

Lemma plain_reachable_reachable o cfg c : plain_reachable o cfg c → reachable o cfg c.
Proof. induction 1; [by constructor|by apply reach_step]. Qed.

Lemma truthful_new o cfg c : connection_new o = Ok (cfg, c) → truthful c.
Proof.
  unfold connection_new. cbv zeta. destruct (_ || _); [done|]. intros [= _ <-].
  intros r s e Hs. exfalso. revert Hs. repeat case_match; by rewrite ?send_objs.
Qed.

Lemma plain_reachable_truthful o cfg c :
  plain_push_callback cfg → plain_reachable o cfg c → truthful c.
Proof.
  intros Hcb. induction 1 as [c Hn|c ev Hr IH He]; [by eapply truthful_new|].
  apply truthful_step; [done..| |done]. by eapply reachable_inv, plain_reachable_reachable.
Qed.

(** C17: a retry that counts for nothing repeats nothing.  Over every interleaving of a connection
    whose surroundings forge no marks: a request that is refused at once has left the connection as it
    was, so nothing of it was written; and whenever the retry loop would repeat an attempt
    transparently because of an error that one of the connection's streams has shown (to the request,
    to the reader of its response or to its upload), no earlier attempt was refused that way, and the
    log holds what the peer said to disown that stream: an RST_STREAM for it with REFUSED_STREAM, or
    a GOAWAY whose last stream comes before it. *)
Theorem transparent_retries_safe o cfg c text committed st :
  plain_push_callback cfg → plain_reachable o cfg c →
  (∀ t init aborted c' e, request_resume cfg t init aborted c = (c', Refuse e) → c' = c) ∧
  (∀ r s e, objs c !! r = Some s → told s e →
     transparent st (attemptError text (CaughtOther e) committed) = true →
     refused st = false ∧ disowned (id s) (wire c)).
Proof.
  intros Hcb Hr. split.
  - intros t init aborted c' e. unfold request_resume. destruct (request_check aborted c); [by intros [= <- _]|].
    by destruct (canOpenStream c).
  - intros r s e Hs Te. pose proof (plain_reachable_truthful o cfg c Hcb Hr r s e Hs Te) as H.
    unfold transparent, evidence, attemptError, true_error in *. cbn.
    destruct (exn_retry e) as [[]|]; [done| |done]. by destruct (refused st).
Qed.

Module Refusals.
Definition events : list Event :=
  [EvRequest 0 (Demo.get "/a" BNone) None; EvRequest 1 (Demo.get "/b" BNone) None;
   EvRequest 2 (Demo.get "/c" BNone) None;
   EvBytes (Demo.frame (RstStreamFrame 1 7)); EvBytes (Demo.frame (GoawayFrame 3 0 []))].
Definition final : Conn := Eval vm_compute in ConnectionCorrect.run Demo.cfg events Demo.start.
Definition object (r : nat) : H2Stream := default (stream_new 0 0 idle 0) (objs final !! r).
Definition text (e : exn) : jsstring := [].
Definition first_run : RunState := mkRun 0 false false 0%Q.
End Refusals.

Lemma transparent_retries_safe_witness :
  head (Refusals.object 1) = Pending ∧
  disowned (id (Refusals.object 0)) (wire Refusals.final) ∧ disowned (id (Refusals.object 2)) (wire Refusals.final).
Proof.
  assert (plain_reachable Demo.options Demo.cfg Refusals.final) as Hr.
  { assert (Refusals.final = ConnectionCorrect.run Demo.cfg Refusals.events Demo.start) as -> by (vm_compute; reflexivity).
    unfold ConnectionCorrect.run, Refusals.events. cbn [fold_left]. repeat (apply plain_next; [|discriminate]).
    apply plain_new, Demo.start_eq. }
  assert (plain_push_callback Demo.cfg) as Hcb by discriminate.
  split; [reflexivity|split].
  - eapply (transparent_retries_safe _ _ _ Refusals.text false Refusals.first_run Hcb Hr) with (r := 0%nat);
      [reflexivity|left; reflexivity|reflexivity].
  - eapply (transparent_retries_safe _ _ _ Refusals.text false Refusals.first_run Hcb Hr) with (r := 2%nat);
      [reflexivity|left; reflexivity|reflexivity].
Defined.
