(* ===== verification/Recovery.v ===== *)
(** * Recovery: [recovery.ts]

    [RecoveringConnection] keeps one session to the bridge: it dials, replaces a session that
    the peer drains or that is lost, waits with exponential backoff after a failure, and parks
    the calls that wait for connectivity.

    A step runs from one [await] (or callback) to the next.  Sessions are numbered in the order
    in which [dial] delivers them, calls of [select] by the caller.  Listeners only observe: a
    listener that calls back into the connection is a step of its own after the present one.
    Delays are rationals in place of doubles. *)
From Stdlib Require Import QArith Qminmax Lqa.
From S2P Require Import Prelude Errors Text HpackTables Hpack Stream Framing.
Local Open Scope Z_scope.

(** ** State *)

Inductive BridgeConnectionState := connecting | sopen | transient_failure | sclosed.

#[export] Instance BridgeConnectionState_eq_dec : EqDecision BridgeConnectionState.
Proof. solve_decision. Defined.

Inductive Reason := RLocal | RRemote | RError.

(** The promise [initial]. *)
Inductive Initial := InitialPending | InitialReady | InitialFailed.

(** A call of [select] that is parked in its promise. *)
Record Selecting := mkSelecting { sel_task : nat; sel_wait : bool }.

Record Recovery := mkRecovery {
  session : option nat;
  draining : list nat;
  stateValue : BridgeConnectionState;
  changes : list Selecting;
  stopped : bool;
  timer : option Q;                 (* the armed timer and its delay *)
  delay : Q;
  initial : Initial;
  finished : bool;                  (* the promise [closed] *)
  started : bool;                   (* the microtask of the constructor has run *)
  dialing : nat;                    (* calls of [dial] under way *)
  opened : nat;                     (* sessions delivered so far *)
  closes : list nat;                (* sessions whose [channel.close()] was called *)
  gone : list nat;                  (* sessions whose [channel.closed] has settled *)
  settled : list (nat * result ConnectError unit);      (* answered [select] promises *)
  emitted : list (BridgeConnectionState * option Reason);
}.

Definition recovery_new : Recovery :=
  mkRecovery None [] connecting [] false None 1000 InitialPending false false 0 0 [] [] [] [].

(** ** Calls that wait for a session *)

Definition channel_closed : ConnectError := connect_error "Channel closed" Code.Unavailable.
Definition channel_unavailable : ConnectError :=
  connect_error "Channel unavailable" Code.Unavailable.
Definition call_canceled : ConnectError := connect_error "Call canceled" Code.Canceled.
Definition call_deadline : ConnectError := connect_error "Deadline exceeded" Code.DeadlineExceeded.

(** [check] for a signal that is not aborted; [None]: keep waiting. *)
Definition check (st : BridgeConnectionState) (s : option nat) (wait : bool)
    : option (result ConnectError unit) :=
  if decide (st = sclosed) then Some (Throw channel_closed)
  else match s with
       | Some _ => Some (Ok tt)
       | None => if negb wait && bool_decide (st = transient_failure)
                 then Some (Throw channel_unavailable) else None
       end.

Definition set_changes (l : list Selecting) (a : list (nat * result ConnectError unit)) (c : Recovery)
    : Recovery :=
  mkRecovery (session c) (draining c) (stateValue c) l (stopped c) (timer c) (delay c) (initial c)
    (finished c) (started c) (dialing c) (opened c) (closes c) (gone c) a (emitted c).

(** Every parked call checks again. *)
Definition notify (c : Recovery) : Recovery :=
  let verdict w := check (stateValue c) (session c) (sel_wait w) in
  set_changes (filter (λ w, verdict w = None) (changes c))
    (settled c ++ omap (λ w, (λ r, (sel_task w, r)) <$> verdict w) (changes c)) c.

(** [select] up to its promise: park, or answer at once. *)
Definition select_begin (t : nat) (aborted wait : bool) (c : Recovery) : Recovery :=
  if aborted then set_changes (changes c) (settled c ++ [(t, Throw call_canceled)]) c
  else match check (stateValue c) (session c) wait with
       | Some r => set_changes (changes c) (settled c ++ [(t, r)]) c
       | None => set_changes (changes c ++ [mkSelecting t wait]) (settled c) c
       end.

(** The abort listener and the timer of a parked call. *)
Definition select_stop (t : nat) (e : ConnectError) (c : Recovery) : Recovery :=
  if decide (t ∈ map sel_task (changes c))
  then set_changes (filter (λ w, sel_task w ≠ t) (changes c)) (settled c ++ [(t, Throw e)]) c
  else c.

(** [select] after its promise resolved: the session to use and the time left. *)
Definition select_end (aborted : bool) (timeoutMs : option Q) (elapsed : Q) (c : Recovery)
    : result ConnectError (nat * option Q) :=
  if aborted then Throw call_canceled
  else
    let limited := match timeoutMs with Some t => negb (Qle_bool t 0) | None => false end in
    let remaining := if limited then (λ t, (t - elapsed)%Q) <$> timeoutMs else timeoutMs in
    if limited && match remaining with Some r => Qle_bool r 0 | None => false end
    then Throw call_deadline
    else match session c with
         | Some s => Ok (s, remaining)
         | None => Throw channel_unavailable
         end.

(** ** Transitions *)

Definition emit (st : BridgeConnectionState) (reason : option Reason) (c : Recovery) : Recovery :=
  let c := notify (mkRecovery (session c) (draining c) st (changes c) (stopped c) (timer c) (delay c)
             (initial c) (finished c) (started c) (dialing c) (opened c) (closes c) (gone c)
             (settled c) (emitted c)) in
  mkRecovery (session c) (draining c) (stateValue c) (changes c) (stopped c) (timer c) (delay c)
    (initial c) (finished c) (started c) (dialing c) (opened c) (closes c) (gone c) (settled c)
    (emitted c ++ [(st, reason)]).

Definition set_session (s : option nat) (d : list nat) (c : Recovery) : Recovery :=
  mkRecovery s d (stateValue c) (changes c) (stopped c) (timer c) (delay c) (initial c) (finished c)
    (started c) (dialing c) (opened c) (closes c) (gone c) (settled c) (emitted c).
Definition set_timer (t : option Q) (d : Q) (c : Recovery) : Recovery :=
  mkRecovery (session c) (draining c) (stateValue c) (changes c) (stopped c) t d (initial c)
    (finished c) (started c) (dialing c) (opened c) (closes c) (gone c) (settled c) (emitted c).
Definition set_dialing (n : nat) (c : Recovery) : Recovery :=
  mkRecovery (session c) (draining c) (stateValue c) (changes c) (stopped c) (timer c) (delay c)
    (initial c) (finished c) (started c) n (opened c) (closes c) (gone c) (settled c) (emitted c).
Definition set_channels (o : nat) (cl g : list nat) (c : Recovery) : Recovery :=
  mkRecovery (session c) (draining c) (stateValue c) (changes c) (stopped c) (timer c) (delay c)
    (initial c) (finished c) (started c) (dialing c) o cl g (settled c) (emitted c).
Definition set_life (stop fin start : bool) (c : Recovery) : Recovery :=
  mkRecovery (session c) (draining c) (stateValue c) (changes c) stop (timer c) (delay c) (initial c)
    fin start (dialing c) (opened c) (closes c) (gone c) (settled c) (emitted c).

(** [firstReady] and [firstFailure]: only the first call counts. *)
Definition settle_initial (i : Initial) (c : Recovery) : Recovery :=
  mkRecovery (session c) (draining c) (stateValue c) (changes c) (stopped c) (timer c) (delay c)
    match initial c with InitialPending => i | x => x end
    (finished c) (started c) (dialing c) (opened c) (closes c) (gone c) (settled c) (emitted c).

Definition retry_later (reason : Reason) (random : Q) (c : Recovery) : Recovery :=
  let c := emit transient_failure (Some reason) c in
  if stopped c then c
  else set_timer (Some (delay c * ((8 # 10) + random * (4 # 10)))%Q)
         (Qmin (delay c * (16 # 10)) 30000) c.

(** [connect] up to the [await] of [dial]. *)
Definition connect_begin (c : Recovery) : Recovery :=
  let c := emit connecting None c in
  if stopped c then settle_initial InitialFailed c else set_dialing (S (dialing c)) c.

(** ... and after it. *)
Definition connect_dialed (c : Recovery) : Recovery :=
  let s := opened c in
  let c := set_channels (S s) (closes c) (gone c) (set_dialing (pred (dialing c)) c) in
  if stopped c then set_channels (opened c) (closes c ++ [s]) (gone c) c
  else
    let c := set_timer (timer c) 1000 (set_session (Some s) (draining c) c) in
    settle_initial InitialReady (emit sopen None c).

Definition connect_failed (random : Q) (c : Recovery) : Recovery :=
  let c := settle_initial InitialFailed (set_dialing (pred (dialing c)) c) in
  if stopped c then c else retry_later RError random c.

Definition lost (s : nat) (reason : Reason) (random : Q) (c : Recovery) : Recovery :=
  if stopped c || negb (bool_decide (session c = Some s)) then c
  else retry_later reason random (set_session None (draining c) c).

(** [channel.closed] settles: [lost], and the session is no longer draining. *)
Definition channel_gone (s : nat) (reason : Reason) (random : Q) (c : Recovery) : Recovery :=
  let c := set_channels (opened c) (closes c) (gone c ++ [s]) c in
  let c := lost s reason random c in
  set_session (session c) (filter (λ x, x ≠ s) (draining c)) c.

Definition channel_draining (s : nat) (c : Recovery) : Recovery :=
  if stopped c || negb (bool_decide (session c = Some s)) then c
  else connect_begin (set_session None (draining c ++ [s]) c).

(** [close] up to the [await] of the channels, and after it. *)
Definition close_begin (c : Recovery) : Recovery :=
  if stopped c then c
  else
    let s := session c in
    let c := set_life true (finished c) (started c) c in
    let c := set_timer None (delay c) c in
    let c := settle_initial InitialFailed (set_session None (draining c) c) in
    let c := emit sclosed (Some RLocal) c in
    set_channels (opened c) (closes c ++ option_list s ++ draining c) (gone c) c.

Definition close_end (c : Recovery) : Recovery :=
  set_life (stopped c) true (started c) (set_session (session c) [] c).

(** ** Steps *)

Inductive RecoveryEvent :=
| VMicrotask
| VDialed
| VDialFailed (random : Q)
| VGone (s : nat) (reason : Reason) (random : Q)
| VDraining (s : nat)
| VTimer
| VSelect (t : nat) (aborted wait : bool)
| VSelectAborted (t : nat)
| VSelectTimeout (t : nat)
| VClose
| VCloseEnd.

(** Which events can happen: the microtask once, an answer to a dial under way, the end of a
    session that exists and has not ended, a timer that is armed, the end of a [close]. *)
Definition enabled (ev : RecoveryEvent) (c : Recovery) : bool :=
  match ev with
  | VMicrotask => negb (started c)
  | VDialed | VDialFailed _ => negb (Nat.eqb (dialing c) 0)
  | VGone s _ _ => Nat.ltb s (opened c) && negb (bool_decide (s ∈ gone c))
  | VDraining s => Nat.ltb s (opened c) && negb (bool_decide (s ∈ gone c))
  | VTimer => bool_decide (is_Some (timer c))
  | VCloseEnd => stopped c && negb (finished c)
  | _ => true
  end.

Definition recovery_step (ev : RecoveryEvent) (c : Recovery) : Recovery :=
  match ev with
  | VMicrotask =>
      let c := set_life (stopped c) (finished c) true c in
      if stopped c then c else connect_begin c
  | VDialed => connect_dialed c
  | VDialFailed random => connect_failed random c
  | VGone s reason random => channel_gone s reason random c
  | VDraining s => channel_draining s c
  | VTimer => connect_begin (set_timer None (delay c) c)
  | VSelect t aborted wait => select_begin t aborted wait c
  | VSelectAborted t => select_stop t call_canceled c
  | VSelectTimeout t => select_stop t call_deadline c
  | VClose => close_begin c
  | VCloseEnd => close_end c
  end.

Inductive recovery_reachable : Recovery → Prop :=
| rec_new : recovery_reachable recovery_new
| rec_step c ev :
    recovery_reachable c → enabled ev c = true → recovery_reachable (recovery_step ev c).
