(* ===== verification/RecoveryCorrect.v ===== *)
(** * RecoveryCorrect: the connection always works towards a session, and leaks none *)
From Stdlib Require Import QArith Qminmax Lqa.
From S2P Require Import Prelude Errors Text HpackTables Hpack Stream Framing Recovery.
Local Open Scope Z_scope.

(** ** The invariant *)

(** What the connection is doing: exactly one thing while it is not closed. *)
Definition phase (c : Recovery) : Prop :=
  if stopped c then stateValue c = sclosed ∧ session c = None ∧ timer c = None
  else if started c then
    (stateValue c = connecting ∧ dialing c = 1%nat ∧ session c = None ∧ timer c = None) ∨
    (stateValue c = sopen ∧ dialing c = 0%nat ∧ is_Some (session c) ∧ timer c = None) ∨
    (stateValue c = transient_failure ∧ dialing c = 0%nat ∧ session c = None ∧
       ∃ q, timer c = Some q)
  else stateValue c = connecting ∧ dialing c = 0%nat ∧ session c = None ∧ timer c = None.

Definition parked_ok (c : Recovery) : Prop :=
  Forall (λ w, check (stateValue c) (session c) (sel_wait w) = None) (changes c).

(** Where a session is: in use, draining, told to close, or ended by itself. *)
Definition held (c : Recovery) (s : nat) : Prop :=
  (stopped c = false ∧ (session c = Some s ∨ s ∈ draining c)) ∨ s ∈ closes c ∨ s ∈ gone c.

Record ok (c : Recovery) : Prop := mkOk {
  ok_phase : phase c;
  ok_parked : parked_ok c;
  ok_delay : (1000 <= delay c <= 30000)%Q;
  ok_initial : stopped c = true → initial c ≠ InitialPending;
  ok_held : ∀ s, (s < opened c)%nat → held c s;
}.

(** Emitting leaves only calls that are still blocked, and changes nothing else. *)
Lemma emit_parked st reason c : parked_ok (emit st reason c).
Proof.
  unfold parked_ok, emit, notify. cbn. apply list.Forall_forall. intros w Hw.
  by apply list_elem_of_filter in Hw as [? _].
Qed.

Lemma emit_settled i st reason c : parked_ok (settle_initial i (emit st reason c)).
Proof. exact (emit_parked st reason c). Qed.
Lemma emit_channels o cl g st reason c : parked_ok (set_channels o cl g (emit st reason c)).
Proof. exact (emit_parked st reason c). Qed.

Lemma selects_same c c' :
  parked_ok c → stateValue c' = stateValue c → session c' = session c → changes c' = changes c →
  parked_ok c'.
Proof. unfold parked_ok. by intros H -> -> ->. Qed.

Lemma delay_grows d : (1000 <= d <= 30000)%Q → (1000 <= Qmin (d * (16 # 10)) 30000 <= 30000)%Q.
Proof. intros H. split; [apply Q.min_glb; lra|apply Q.le_min_r]. Qed.

(** A failure of the running connection: the session (if any) is gone. *)
Lemma ok_retry reason random c :
  stopped c = false → started c = true → dialing c = 0%nat → session c = None → timer c = None →
  (1000 <= delay c <= 30000)%Q → (∀ s, (s < opened c)%nat → held c s) →
  ok (retry_later reason random c).
Proof.
  intros Hs Hst Hd Hn Ht Hdel Hheld. unfold retry_later. change (stopped (emit _ _ c)) with (stopped c).
  rewrite Hs. split.
  - unfold phase. cbn. rewrite Hs, Hst. right. right. by eauto.
  - by apply (selects_same (emit transient_failure (Some reason) c)); [apply emit_parked|..].
  - cbn. by apply delay_grows.
  - cbn. congruence.
  - exact Hheld.
Qed.

Lemma ok_connect c :
  stopped c = false → started c = true → dialing c = 0%nat → session c = None → timer c = None →
  (1000 <= delay c <= 30000)%Q → (∀ s, (s < opened c)%nat → held c s) → ok (connect_begin c).
Proof.
  intros Hs Hst Hd Hn Ht Hdel Hheld. unfold connect_begin. change (stopped (emit _ _ c)) with (stopped c).
  rewrite Hs. split.
  - unfold phase. cbn. rewrite Hs, Hst, Hd. by left.
  - by apply (selects_same (emit connecting None c)); [apply emit_parked|..].
  - done.
  - cbn. congruence.
  - exact Hheld.
Qed.

Lemma phase_session c s :
  phase c → stopped c = false → session c = Some s →
  started c = true ∧ dialing c = 0%nat ∧ timer c = None.
Proof.
  unfold phase. intros H Hs Hn. rewrite Hs, Hn in H. destruct (started c); [|by destruct H as (_ & _ & ? & _)].
  destruct H as [(_ & _ & ? & _)|[(_ & ? & _ & ?)|(_ & _ & ? & _)]]; done.
Qed.

Lemma phase_dialing c :
  phase c → stopped c = false → dialing c ≠ 0%nat →
  started c = true ∧ dialing c = 1%nat ∧ session c = None ∧ timer c = None.
Proof.
  unfold phase. intros H Hs Hd. rewrite Hs in H. destruct (started c); [|by destruct H as (_ & ? & _)].
  destruct H as [(_ & ? & ? & ?)|[(_ & ? & _)|(_ & ? & _)]]; done.
Qed.

Lemma ok_dialed c : ok c → dialing c ≠ 0%nat → ok (connect_dialed c).
Proof.
  intros H Hd. unfold connect_dialed. cbn [set_channels set_dialing stopped].
  destruct (stopped c) eqn:Hs; split.
  - pose proof (ok_phase c H) as Hp. unfold phase in Hp |- *. cbn. by rewrite Hs in Hp |- *.
  - by apply (selects_same c); [apply H|..].
  - apply H.
  - intros _. by apply H.
  - intros s Hlt. cbn in Hlt. unfold held. cbn.
    destruct (decide (s = opened c)) as [->|Hne]; [right; left; set_solver|].
    destruct (ok_held c H s) as [[? _]|[?|?]]; [lia|congruence|right; left; set_solver|by right; right].
  - destruct (phase_dialing c (ok_phase c H) Hs Hd) as (Hst & Hd1 & Hn & Ht).
    unfold phase. cbn. rewrite Hs, Hst, Hd1, Ht. right. left. by eauto.
  - apply emit_settled.
  - cbn. lra.
  - cbn. congruence.
  - intros s Hlt. cbn in Hlt. unfold held. cbn.
    destruct (decide (s = opened c)) as [->|Hne]; [left; by auto|].
    destruct (ok_held c H s) as [[_ [Hx|?]]|[?|?]]; [lia| |left; by auto|by right; left|by right; right].
    destruct (phase_dialing c (ok_phase c H) Hs Hd) as (_ & _ & ? & _). congruence.
Qed.

(** Fields that [ok] does not mention, and sessions that move to where they are still held. *)
Lemma ok_same c c' :
  ok c → stateValue c' = stateValue c → session c' = session c → timer c' = timer c →
  delay c' = delay c → stopped c' = stopped c → changes c' = changes c →
  (stopped c = false → started c' = started c ∧ dialing c' = dialing c) → opened c' = opened c →
  (initial c' = InitialPending → initial c = InitialPending) →
  (∀ s, held c s → held c' s) → ok c'.
Proof.
  intros [H1 H2 H3 H4 H5] E1 E2 E3 E4 E5 E7 Hd E8 Hi Hh. split.
  - unfold phase in *. rewrite E1, E2, E3, E5. destruct (stopped c); [done|].
    by destruct (Hd eq_refl) as [-> ->].
  - by apply (selects_same c).
  - by rewrite E4.
  - rewrite E5. intros Hx Hy. by apply (H4 Hx), Hi.
  - intros s. rewrite E8. auto.
Qed.

Lemma ok_dial_failed random c : ok c → dialing c ≠ 0%nat → ok (connect_failed random c).
Proof.
  intros H Hd. unfold connect_failed. cbn [settle_initial set_dialing stopped].
  destruct (stopped c) eqn:Hs.
  - apply (ok_same c); try done; cbn; [congruence|]. by destruct (initial c).
  - destruct (phase_dialing c (ok_phase c H) Hs Hd) as (Hst & Hd1 & Hn & Ht).
    apply ok_retry; try done; [cbn; by rewrite Hd1|apply H|apply H].
Qed.

Lemma ok_gone s reason random c : ok c → ok (channel_gone s reason random c).
Proof.
  intros H. unfold channel_gone.
  set (c1 := set_channels (opened c) (closes c) (gone c ++ [s]) c).
  assert (∀ x, held c x → held c1 x) as Hmono.
  { intros x [?|[?|?]]; [by left|by right; left|right; right; cbn; set_solver]. }
  assert (s ∈ gone c1) as Hsg by (cbn; set_solver).
  assert (ok c1) as H1 by (by apply (ok_same c)).
  assert (ok (lost s reason random c1)) as H2.
  { unfold lost. destruct (stopped c1) eqn:Hs; [done|]. cbn [orb]. case_bool_decide as Hsess; [|done].
    cbn [negb]. destruct (phase_session c1 s (ok_phase c1 H1) Hs Hsess) as (Hst & Hd & Ht).
    apply ok_retry; try done; [apply H1|]. intros x Hx.
    destruct (ok_held c1 H1 x Hx) as [[_ [Hq|Hq]]|[Hq|Hq]]; [|by left; auto|by right; left|by right; right].
    right. right. cbn. set_solver. }
  assert (s ∈ gone (lost s reason random c1)) as Hsl.
  { unfold lost. destruct (stopped c1 || _); [done|]. unfold retry_later.
    destruct (stopped _); exact Hsg. }
  generalize dependent (lost s reason random c1). intros c2 H2 Hsl.
  apply (ok_same c2); try done. intros x [[Hst [?|Hx]]|[?|?]].
  - left. by auto.
  - destruct (decide (x = s)) as [->|Hne]; [by right; right|]. left. split; [done|]. right.
    cbn. by apply list_elem_of_filter.
  - by right; left.
  - by right; right.
Qed.

Lemma ok_draining s c : ok c → ok (channel_draining s c).
Proof.
  intros H. unfold channel_draining. destruct (stopped c) eqn:Hs; [done|]. cbn [orb].
  case_bool_decide as Hsess; [|done]. cbn [negb].
  destruct (phase_session c s (ok_phase c H) Hs Hsess) as (Hst & Hd & Ht).
  apply ok_connect; try done; [apply H|]. intros x Hx.
  destruct (ok_held c H x Hx) as [[_ [Hq|Hq]]|[Hq|Hq]];
    [left; cbn; split; [done|]; right; set_solver..|by right; left|by right; right].
Qed.

(** The end of [close]: everything that was held is told to close. *)
Lemma ok_closed (c1 : Recovery) l :
  stopped c1 = true → session c1 = None → timer c1 = None → (1000 <= delay c1 <= 30000)%Q →
  initial c1 ≠ InitialPending →
  (∀ s, (s < opened c1)%nat → s ∈ closes c1 ++ l ∨ s ∈ gone c1) →
  let c := emit sclosed (Some RLocal) c1 in
  ok (set_channels (opened c) (closes c ++ l) (gone c) c).
Proof.
  intros Hs Hn Ht Hd Hi Hh. split.
  - unfold phase. cbn. by rewrite Hs.
  - apply emit_channels.
  - exact Hd.
  - intros _. exact Hi.
  - intros x Hx. right. by apply Hh.
Qed.

Lemma ok_close c : ok c → ok (close_begin c).
Proof.
  intros H. unfold close_begin. destruct (stopped c) eqn:Hs; [done|].
  set (c1 := settle_initial _ _).
  assert (stopped c1 = true ∧ session c1 = None ∧ timer c1 = None ∧ delay c1 = delay c ∧
    opened c1 = opened c ∧ closes c1 = closes c ∧ gone c1 = gone c ∧ draining c1 = draining c)
    as (E1 & E2 & E3 & E4 & E5 & E6 & E7 & E8) by done.
  assert (initial c1 ≠ InitialPending) as Hi by (cbn; by destruct (initial c)).
  clearbody c1. change (draining (emit _ _ c1)) with (draining c1).
  apply ok_closed; [done..|rewrite E4; apply H|done|]. rewrite E5, E6, E7, E8. intros x Hx.
  destruct (ok_held c H x Hx) as [[_ [Hq|Hq]]|[Hq|Hq]]; [left; rewrite Hq; cbn; set_solver|
    left; set_solver..|by right].
Qed.

Lemma ok_select_stop t e c : ok c → ok (select_stop t e c).
Proof.
  intros H. unfold select_stop. destruct (decide _); [|done].
  destruct H as [H1 H2 H3 H4 H5]. split; try done.
  unfold parked_ok in *. cbn. rewrite list.Forall_forall in H2 |- *. intros w Hw.
  apply list_elem_of_filter in Hw as [_ Hw]. by apply H2.
Qed.

Lemma ok_step ev c : ok c → enabled ev c = true → ok (recovery_step ev c).
Proof.
  intros H He. destruct ev as [| |random|s reason random|s| |t aborted wait|t|t| |]; cbn [recovery_step].
  - cbn [enabled] in He. cbn [stopped set_life]. destruct (stopped c) eqn:Hs.
    + apply (ok_same c); try done; [intros; congruence|].
      intros x [[? _]|?]; [congruence|by right].
    + pose proof (ok_phase c H) as Hp. unfold phase in Hp. rewrite Hs in Hp.
      destruct (started c); [done|]. destruct Hp as (? & ? & ? & ?).
      apply ok_connect; try done; [apply H|]. intros x Hx.
      destruct (ok_held c H x Hx) as [[_ ?]|?]; [by left|by right].
  - cbn [enabled] in He. apply ok_dialed; [done|]. by destruct (dialing c).
  - cbn [enabled] in He. apply ok_dial_failed; [done|]. by destruct (dialing c).
  - by apply ok_gone.
  - by apply ok_draining.
  - cbn [enabled] in He. apply bool_decide_eq_true in He as [q Hq].
    pose proof (ok_phase c H) as Hp. unfold phase in Hp.
    destruct (stopped c) eqn:Hs; [by destruct Hp as (_ & _ & ?); congruence|].
    destruct (started c) eqn:Hst; [|by destruct Hp as (_ & _ & _ & ?); congruence].
    destruct Hp as [(_ & _ & _ & ?)|[(_ & _ & _ & ?)|(_ & ? & ? & _)]]; [congruence..|].
    apply ok_connect; try done; apply H.
  - unfold select_begin. destruct aborted; [by apply (ok_same c)|].
    destruct (check _ _ _) eqn:Hc; [by apply (ok_same c)|].
    destruct H as [H1 H2 H3 H4 H5]. split; try done.
    unfold parked_ok in *. cbn. apply Forall_app_2; [done|]. by apply Forall_cons_2; [|apply Forall_nil_2].
  - by apply ok_select_stop.
  - by apply ok_select_stop.
  - by apply ok_close.
  - cbn [enabled] in He. apply andb_true_iff in He as [Hs _]. apply (ok_same c); try done.
    intros x [[Hx _]|[?|?]]; [congruence|by right; left|by right; right].
Qed.

Lemma reachable_ok c : recovery_reachable c → ok c.
Proof.
  induction 1 as [|c ev _ IH He]; [|by apply ok_step].
  split; [done|apply Forall_nil_2|cbn; lra|done|cbn; lia].
Qed.

Definition recovery_run (evs : list RecoveryEvent) : Recovery :=
  fold_left (λ c ev, recovery_step ev c) evs recovery_new.

(** Every event of a list is enabled when its turn comes. *)
Fixpoint all_enabled (evs : list RecoveryEvent) (c : Recovery) : bool :=
  match evs with
  | [] => true
  | ev :: evs' => enabled ev c && all_enabled evs' (recovery_step ev c)
  end.

Lemma run_reachable evs : all_enabled evs recovery_new = true → recovery_reachable (recovery_run evs).
Proof.
  unfold recovery_run. generalize rec_new. generalize recovery_new. induction evs as [|ev evs IH];
    intros c Hc He; [done|]. cbn [all_enabled fold_left] in *. apply andb_true_iff in He as [He Hevs].
  apply IH; [by constructor|done].
Qed.

(** A dial fails, the next one succeeds, the peer drains the session while a call waits for the
    replacement; the replacement arrives, and the connection is closed during a reconnect. *)
Module Demo.
Definition before : list RecoveryEvent :=
  [VMicrotask; VSelect 0 false false; VDialFailed (1 # 2); VSelect 1 false true; VTimer; VDialed;
   VDraining 0; VSelect 2 false false].
Definition after : list RecoveryEvent := before ++ [VDialed; VGone 1 RRemote 0; VTimer; VClose; VDialed].
End Demo.

(** While it is not closed, the connection is doing exactly one thing that leads to a
    session: it dials once (connecting), has a session (open), or has one timer armed
    (transient failure); the reported state says which.  The backoff stays between one and
    thirty seconds. *)
Theorem recovery_progress c :
  recovery_reachable c → stopped c = false → started c = true →
  ((stateValue c = connecting ∧ dialing c = 1%nat ∧ session c = None ∧ timer c = None) ∨
   (stateValue c = sopen ∧ dialing c = 0%nat ∧ is_Some (session c) ∧ timer c = None) ∨
   (stateValue c = transient_failure ∧ dialing c = 0%nat ∧ session c = None ∧
      ∃ q, timer c = Some q)) ∧
  (1000 <= delay c <= 30000)%Q.
Proof.
  intros [Hp _ Hd _ _]%reachable_ok Hs Hst. split; [|done]. unfold phase in Hp. by rewrite Hs, Hst in Hp.
Qed.

Lemma recovery_progress_witness : (1000 <= delay (recovery_run Demo.before) <= 30000)%Q.
Proof. apply recovery_progress; [apply run_reachable|..]; vm_compute; reflexivity. Defined.

(** What a call that keeps waiting has seen. *)
Lemma check_waits st s wait :
  check st s wait = None → st ≠ sclosed ∧ s = None ∧ (wait = false → st ≠ transient_failure).
Proof.
  unfold check. destruct (decide _); [done|]. destruct s; [done|]. intros H. split_and!; try done.
  intros -> ->. done.
Qed.

(** No call waits in vain: a call parked in [select] is waiting on a connection that is not
    closed and has no session, and unless it asked to wait for readiness the connection is
    being set up, not in backoff.  Every change that could serve or refuse it has woken it. *)
Theorem parked_calls_blocked c w :
  recovery_reachable c → w ∈ changes c →
  stateValue c ≠ sclosed ∧ session c = None ∧
  (sel_wait w = false → stateValue c ≠ transient_failure).
Proof.
  intros [_ Hp _ _ _]%reachable_ok Hw. unfold parked_ok in Hp. rewrite list.Forall_forall in Hp.
  by apply check_waits, Hp.
Qed.

Lemma parked_calls_blocked_witness : session (recovery_run Demo.before) = None.
Proof.
  apply (parked_calls_blocked _ (mkSelecting 2 false)); [apply run_reachable; vm_compute; reflexivity|].
  vm_compute. left.
Defined.

Lemma closed_no_parked c : parked_ok c → stateValue c = sclosed → changes c = [].
Proof.
  unfold parked_ok. intros Hp E. destruct (changes c) as [|w l]; [done|].
  apply Forall_cons_1 in Hp as [Hw _]. unfold check in Hw. by rewrite E in Hw.
Qed.

(** What is left of a connection that was told to close. *)
Lemma closed_ok c :
  ok c → stopped c = true →
  stateValue c = sclosed ∧ session c = None ∧ timer c = None ∧ changes c = [] ∧
  initial c ≠ InitialPending ∧
  ∀ s, (s < opened c)%nat → s ∈ closes c ∨ s ∈ gone c.
Proof.
  intros [Hp Hpk _ Hi Hh] Hs. unfold phase in Hp. rewrite Hs in Hp.
  destruct Hp as (E1 & E2 & E3). split_and!; try done; [by apply closed_no_parked|by apply Hi|].
  - intros s Hlt. destruct (Hh s Hlt) as [[? _]|?]; [congruence|done].
Qed.

(** Closing leaks nothing: once the connection is closed, also when the answer of a dial
    still arrives later, it has no session and no timer, no call is parked, the initial promise
    is settled, and every session it was ever given has been told to close or had ended by
    itself. *)
Theorem close_releases c :
  recovery_reachable c → stopped c = true →
  stateValue c = sclosed ∧ session c = None ∧ timer c = None ∧ changes c = [] ∧
  initial c ≠ InitialPending ∧
  ∀ s, (s < opened c)%nat → s ∈ closes c ∨ s ∈ gone c.
Proof. intros Hr. by apply closed_ok, reachable_ok. Qed.

Lemma close_releases_witness : session (recovery_run Demo.after) = None ∧ opened (recovery_run Demo.after) = 3%nat.
Proof.
  split; [|vm_compute; reflexivity].
  apply close_releases; [apply run_reachable|]; vm_compute; reflexivity.
Defined.
