(* ===== verification/Listeners.v ===== *)
(** * Listeners: the observers of [recovery.ts]

    [Recovery] treats an emission as one step.  Here it is what the code does: [emit] sets the
    state, lets the parked calls check again, and then calls the listeners one by one, and a
    listener is application code that may close the connection, subscribe, unsubscribe, start or
    abort calls before it returns.  The stack of running emissions is explicit: a frame holds
    the event, the listeners of its snapshot still to be called, and what the emitting method
    does afterwards.  Callbacks of the platform (a settled dial, the end of a channel, a timer)
    run only when no listener is running.  A listener that throws is caught, so it just returns. *)
From Stdlib Require Import QArith Qminmax Lqa.
From S2P Require Import Prelude Errors Text HpackTables Hpack Stream Framing Recovery.
Local Open Scope Z_scope.

(** ** State *)

(** [BridgeConnectionEvent]; the error of a failure is left out. *)
Definition BridgeConnectionEvent : Type := BridgeConnectionState * option Reason.

(** What follows an emission: [connect] before and after [dial], [retry], [close], and
    [subscribe], which calls its listener in the same way. *)
Inductive Cont :=
| KConnect
| KOpen
| KRetry (random : Q)
| KClose (s : option nat)
| KSubscribe.

Record Emission := mkEmission {
  em_event : BridgeConnectionEvent;
  em_rest : list nat;
  em_cont : Cont;
}.

(** Listeners are functions compared by identity, here numbers. *)
Record Observed := mkObserved {
  core : Recovery;
  listeners : list nat;                          (* the [Set], in insertion order *)
  stack : list Emission;                         (* innermost first *)
  told : list (nat * BridgeConnectionEvent);     (* calls of listeners, in order *)
}.

Definition observed_new (listener : option nat) : Observed :=
  mkObserved recovery_new (option_list listener) [] [].

Definition with_core (f : Recovery → Recovery) (x : Observed) : Observed :=
  mkObserved (f (core x)) (listeners x) (stack x) (told x).
Definition push (e : Emission) (x : Observed) : Observed :=
  mkObserved (core x) (listeners x) (e :: stack x) (told x).

(** ** Emitting *)

(** [emit] up to its first listener, over a snapshot of the set. *)
Definition emitting (st : BridgeConnectionState) (reason : option Reason) (k : Cont) (x : Observed)
    : Observed :=
  push (mkEmission (st, reason) (listeners x) k) (with_core (emit st reason) x).

(** What the emitting method does when its listeners have returned. *)
Definition resume (k : Cont) (c : Recovery) : Recovery :=
  match k with
  | KConnect => if stopped c then settle_initial InitialFailed c else set_dialing (S (dialing c)) c
  | KOpen => settle_initial InitialReady c
  | KRetry random =>
      if stopped c then c
      else set_timer (Some (delay c * ((8 # 10) + random * (4 # 10)))%Q)
             (Qmin (delay c * (16 # 10)) 30000) c
  | KClose s => set_channels (opened c) (closes c ++ option_list s ++ draining c) (gone c) c
  | KSubscribe => c
  end.

(** The running listener returns: the next one is called, or the emission ends. *)
Definition next (x : Observed) : Observed :=
  match stack x with
  | [] => x
  | e :: rest =>
      match em_rest e with
      | l :: ls =>
          mkObserved (core x) (listeners x) (mkEmission (em_event e) ls (em_cont e) :: rest)
            (told x ++ [(l, em_event e)])
      | [] => mkObserved (resume (em_cont e) (core x)) (listeners x) rest (told x)
      end
  end.

(** ** The methods, up to their emissions *)

Definition subscribe (l : nat) (x : Observed) : Observed :=
  push (mkEmission (stateValue (core x), None) [l] KSubscribe)
    (mkObserved (core x) (if decide (l ∈ listeners x) then listeners x else listeners x ++ [l])
       (stack x) (told x)).

(** The function that [subscribe] returns. *)
Definition unsubscribe (l : nat) (x : Observed) : Observed :=
  mkObserved (core x) (filter (λ l', l' ≠ l) (listeners x)) (stack x) (told x).

Definition dialed (x : Observed) : Observed :=
  let c := core x in
  let s := opened c in
  let c := set_channels (S s) (closes c) (gone c) (set_dialing (pred (dialing c)) c) in
  if stopped c then with_core (λ _, set_channels (opened c) (closes c ++ [s]) (gone c) c) x
  else emitting sopen None KOpen
         (with_core (λ _, set_timer (timer c) 1000 (set_session (Some s) (draining c) c)) x).

Definition dial_failed (random : Q) (x : Observed) : Observed :=
  let c := core x in
  let c := settle_initial InitialFailed (set_dialing (pred (dialing c)) c) in
  let x := with_core (λ _, c) x in
  if stopped c then x else emitting transient_failure (Some RError) (KRetry random) x.

(** [channel.closed] settles.  A session that is draining is not the current one, so only one of
    the two reactions does something. *)
Definition gone_by_itself (s : nat) (reason : Reason) (random : Q) (x : Observed) : Observed :=
  let c := core x in
  let c := set_channels (opened c) (closes c) (gone c ++ [s]) c in
  let rest := filter (λ s', s' ≠ s) (draining c) in
  if stopped c || negb (bool_decide (session c = Some s))
  then with_core (λ _, set_session (session c) rest c) x
  else emitting transient_failure (Some reason) (KRetry random)
         (with_core (λ _, set_session None rest c) x).

Definition told_to_drain (s : nat) (x : Observed) : Observed :=
  let c := core x in
  if stopped c || negb (bool_decide (session c = Some s)) then x
  else emitting connecting None KConnect (with_core (set_session None (draining c ++ [s])) x).

Definition closing (x : Observed) : Observed :=
  let c := core x in
  if stopped c then x
  else
    let s := session c in
    let c := set_timer None (delay c) (set_life true (finished c) (started c) c) in
    emitting sclosed (Some RLocal) (KClose s)
      (with_core (λ _, settle_initial InitialFailed (set_session None (draining c) c)) x).

(** ** Steps *)

Inductive ObservedEvent :=
| XEvent (ev : RecoveryEvent)
| XSubscribe (l : nat)
| XUnsubscribe (l : nat)
| XNext.

(** What application code does: any time, also inside a listener.  The rest waits for the
    stack to be empty. *)
Definition by_application (ev : RecoveryEvent) : bool :=
  match ev with VSelect _ _ _ | VSelectAborted _ | VClose => true | _ => false end.

Definition observed_enabled (ev : ObservedEvent) (x : Observed) : bool :=
  match ev with
  | XEvent ev => enabled ev (core x) && (by_application ev || bool_decide (stack x = []))
  | XSubscribe _ | XUnsubscribe _ => true
  | XNext => bool_decide (stack x ≠ [])
  end.

Definition observed_step (ev : ObservedEvent) (x : Observed) : Observed :=
  match ev with
  | XEvent VMicrotask =>
      let c := core x in
      let x := with_core (λ _, set_life (stopped c) (finished c) true c) x in
      if stopped c then x else emitting connecting None KConnect x
  | XEvent VDialed => dialed x
  | XEvent (VDialFailed random) => dial_failed random x
  | XEvent (VGone s reason random) => gone_by_itself s reason random x
  | XEvent (VDraining s) => told_to_drain s x
  | XEvent VTimer =>
      emitting connecting None KConnect (with_core (λ c, set_timer None (delay c) c) x)
  | XEvent VClose => closing x
  | XEvent ev => with_core (recovery_step ev) x
  | XSubscribe l => subscribe l x
  | XUnsubscribe l => unsubscribe l x
  | XNext => next x
  end.

Inductive observed_reachable : Observed → Prop :=
| obs_new listener : observed_reachable (observed_new listener)
| obs_step x ev :
    observed_reachable x → observed_enabled ev x = true → observed_reachable (observed_step ev x).
