(* ===== verification/ListenersCorrect.v ===== *)
(** * ListenersCorrect: the guarantees of [RecoveryCorrect] under reentrant listeners *)
From Stdlib Require Import QArith Qminmax Lqa.
From S2P Require Import Prelude Errors Text HpackTables Hpack Stream Framing Recovery RecoveryCorrect.
From S2P Require Import Listeners.
Local Open Scope Z_scope.

(** ** Refinement: listeners that only observe make an emission one step of [Recovery] *)

Fixpoint nexts (n : nat) (x : Observed) : Observed :=
  match n with O => x | S n => nexts n (next x) end.

(** The listeners of an emission are told its event one after the other; then it resumes. *)
Lemma nexts_emission c ls st t e ks k n :
  n = S (length ks) →
  nexts n (mkObserved c ls (mkEmission e ks k :: st) t) =
    mkObserved (resume k c) ls st (t ++ map (λ l, (l, e)) ks).
Proof.
  intros ->. revert t. induction ks as [|l ks IH]; intros t.
  - cbn. by rewrite app_nil_r.
  - cbn [map]. change ((l, e) :: ?m) with ([(l, e)] ++ m). rewrite app_assoc. apply IH.
Qed.

(** The event an asynchronous step emits, if it does. *)
Definition emits (ev : RecoveryEvent) (c : Recovery) : option BridgeConnectionEvent :=
  match ev with
  | VMicrotask => if stopped c then None else Some (connecting, None)
  | VDialed => if stopped c then None else Some (sopen, None)
  | VDialFailed _ => if stopped c then None else Some (transient_failure, Some RError)
  | VGone s reason _ =>
      if stopped c || negb (bool_decide (session c = Some s)) then None
      else Some (transient_failure, Some reason)
  | VDraining s =>
      if stopped c || negb (bool_decide (session c = Some s)) then None else Some (connecting, None)
  | VTimer => Some (connecting, None)
  | VClose => if stopped c then None else Some (sclosed, Some RLocal)
  | _ => None
  end.

Lemma resume_connect c : connect_begin c = resume KConnect (emit connecting None c).
Proof. done. Qed.
Lemma resume_retry reason random c :
  retry_later reason random c = resume (KRetry random) (emit transient_failure (Some reason) c).
Proof. done. Qed.

(** Draining sessions do not matter to [retry]. *)
Lemma retry_draining reason random d c :
  set_session (session (retry_later reason random c)) d (retry_later reason random c) =
    retry_later reason random (set_session (session c) d c).
Proof.
  unfold retry_later. change (stopped (emit _ _ c)) with (stopped c).
  change (stopped (emit _ _ (set_session (session c) d c))) with (stopped c).
  by destruct (stopped c).
Qed.

Lemma draining_retry reason random c : draining (retry_later reason random c) = draining c.
Proof. unfold retry_later. change (stopped (emit _ _ c)) with (stopped c). by destruct (stopped c). Qed.

(** The core after the emission [e] of a method, resumed with [k]. *)
Definition emission_of (x : Observed) (e : BridgeConnectionEvent) (c : Recovery) (k : Cont) : Observed :=
  mkObserved (emit e.1 e.2 c) (listeners x) (mkEmission e (listeners x) k :: stack x) (told x).

(** Every step is an emission followed by what remains of the method, or no emission. *)
Lemma observed_step_spec ev x :
  match emits ev (core x) with
  | Some e =>
      ∃ c k, observed_step (XEvent ev) x = emission_of x e c k ∧
             resume k (emit e.1 e.2 c) = recovery_step ev (core x)
  | None => observed_step (XEvent ev) x = with_core (λ _, recovery_step ev (core x)) x
  end.
Proof.
  destruct ev as [| |random|s reason random|s| |tk aborted wait|tk|tk| |]; try reflexivity; cbn [emits].
  - cbn [observed_step recovery_step]. change (stopped (core (with_core _ x))) with (stopped (core x)).
    change (stopped (set_life _ _ true (core x))) with (stopped (core x)).
    destruct (stopped (core x)); [done|]. do 2 eexists. split; [reflexivity|]. by rewrite resume_connect.
  - cbn [observed_step recovery_step]. unfold dialed, connect_dialed.
    change (stopped (set_channels _ _ _ _)) with (stopped (core x)).
    destruct (stopped (core x)); [done|]. do 2 eexists. split; reflexivity.
  - cbn [observed_step recovery_step]. unfold dial_failed, connect_failed.
    change (stopped (settle_initial _ _)) with (stopped (core x)).
    destruct (stopped (core x)); [done|]. do 2 eexists. split; [reflexivity|]. by rewrite resume_retry.
  - cbn [observed_step recovery_step]. unfold gone_by_itself, channel_gone, lost.
    change (stopped (set_channels _ _ _ _)) with (stopped (core x)).
    change (session (set_channels _ _ _ _)) with (session (core x)).
    destruct (stopped (core x) || _); [done|]. do 2 eexists. split; [reflexivity|].
    by rewrite draining_retry, retry_draining, resume_retry.
  - cbn [observed_step recovery_step]. unfold told_to_drain, channel_draining.
    destruct (stopped (core x) || _); [by destruct x|]. do 2 eexists. split; [reflexivity|].
    by rewrite resume_connect.
  - do 2 eexists. split; [reflexivity|]. by cbn [recovery_step]; rewrite resume_connect.
  - cbn [observed_step recovery_step]. unfold closing, close_begin.
    destruct (stopped (core x)); [by destruct x|]. do 2 eexists. split; reflexivity.
Qed.

(** C32: when no listener acts before it returns, every callback and every [close] is one step of
    the model of [Recovery], in which emissions are atomic: after the listeners have been called,
    the core state is that step's, and each listener subscribed at the time has been told the
    emitted event once, in the order of subscription. *)
Theorem observers_refine_recovery ev x :
  stack x = [] →
  ∃ n, core (nexts n (observed_step (XEvent ev) x)) = recovery_step ev (core x) ∧
    stack (nexts n (observed_step (XEvent ev) x)) = [] ∧
    listeners (nexts n (observed_step (XEvent ev) x)) = listeners x ∧
    told (nexts n (observed_step (XEvent ev) x)) =
      told x ++ match emits ev (core x) with
                | Some e => map (λ l, (l, e)) (listeners x)
                | None => []
                end.
Proof.
  intros Hx. pose proof (observed_step_spec ev x) as H.
  destruct (emits ev (core x)) as [e|].
  - destruct H as (c & k & -> & Hk). exists (S (length (listeners x))).
    unfold emission_of. rewrite nexts_emission, Hk, Hx by done. done.
  - rewrite H. exists 0%nat. cbn. by rewrite app_nil_r, Hx.
Qed.

(** ** The invariant, with emissions under way *)

(** Only the outermost emission can belong to [connect] or [retry]: they run as callbacks. *)
Definition active (k : Cont) : bool :=
  match k with KConnect | KOpen | KRetry _ => true | KClose _ | KSubscribe => false end.
Fixpoint stack_ok (st : list Emission) : Prop :=
  match st with [] => True | e :: st => (active (em_cont e) = true → st = []) ∧ stack_ok st end.
(** The method that is under way. *)
Fixpoint work (st : list Emission) : option Cont :=
  match st with
  | [] => None
  | e :: st => if active (em_cont e) then Some (em_cont e) else work st
  end.

(** What the connection is doing, as [phase], when [k] is under way. *)
Definition phase_with (k : option Cont) (c : Recovery) : Prop :=
  if stopped c then phase c
  else match k with
       | Some KConnect =>
           started c = true ∧ stateValue c = connecting ∧ dialing c = 0%nat ∧ session c = None ∧
           timer c = None
       | Some (KRetry _) =>
           started c = true ∧ stateValue c = transient_failure ∧ dialing c = 0%nat ∧
           session c = None ∧ timer c = None
       | Some KOpen => stateValue c = sopen ∧ phase c
       | _ => phase c
       end.

(** A session is also accounted for while the [close] that will tell it is calling listeners. *)
Definition held_with (st : list Emission) (c : Recovery) (s : nat) : Prop :=
  held c s ∨ ∃ e so, e ∈ st ∧ em_cont e = KClose so ∧ (so = Some s ∨ s ∈ draining c).

Record observed_ok (x : Observed) : Prop := mkObservedOk {
  oo_stack : stack_ok (stack x);
  oo_phase : phase_with (work (stack x)) (core x);
  oo_parked : parked_ok (core x);
  oo_delay : (1000 <= delay (core x) <= 30000)%Q;
  oo_initial : stopped (core x) = true → initial (core x) ≠ InitialPending;
  oo_held : ∀ s, (s < opened (core x))%nat → held_with (stack x) (core x) s;
  oo_close : ∀ e s, e ∈ stack x → em_cont e = KClose s → stopped (core x) = true;
}.

(** Between two callbacks the invariant is that of [Recovery]. *)
Lemma observed_idle c ls t : observed_ok (mkObserved c ls [] t) ↔ ok c.
Proof.
  split; intros [].
  - split; cbn in *; try done.
    + unfold phase_with in *. cbn in *. by destruct (stopped c).
    + intros s Hs. destruct (oo_held0 s Hs) as [|(e & so & He & _)]; [done|by apply not_elem_of_nil in He].
  - split; cbn; try done.
    + unfold phase_with. by destruct (stopped c).
    + intros s Hs. left. auto.
    + intros e s He. by apply not_elem_of_nil in He.
Qed.

(** A callback of the platform that emits. *)
Lemma observed_emission st reason k c ls t :
  active k = true → stopped c = false →
  phase_with (Some k) (emit st reason c) → (1000 <= delay c <= 30000)%Q →
  (∀ s, (s < opened c)%nat → held c s) →
  observed_ok (mkObserved (emit st reason c) ls [mkEmission (st, reason) ls k] t).
Proof.
  intros Hk Hs Hp Hd Hh. split; cbn [core stack]; try done.
  - cbn. by rewrite Hk.
  - apply emit_parked.
  - change (stopped (emit st reason c)) with (stopped c). congruence.
  - intros s Hlt. left. apply (Hh s Hlt).
  - intros e s He%list_elem_of_singleton. rewrite He. cbn. by intros ->.
Qed.

(** Changes of fields that the invariant does not mention. *)
Lemma observed_same f x :
  observed_ok x →
  (stateValue (f (core x)) = stateValue (core x) ∧ session (f (core x)) = session (core x) ∧
   draining (f (core x)) = draining (core x) ∧ stopped (f (core x)) = stopped (core x) ∧
   timer (f (core x)) = timer (core x) ∧ delay (f (core x)) = delay (core x) ∧
   initial (f (core x)) = initial (core x) ∧ started (f (core x)) = started (core x) ∧
   dialing (f (core x)) = dialing (core x) ∧ opened (f (core x)) = opened (core x) ∧
   closes (f (core x)) = closes (core x) ∧ gone (f (core x)) = gone (core x)) →
  (parked_ok (core x) → parked_ok (f (core x))) →
  observed_ok (with_core f x).
Proof.
  intros [H1 H2 H3 H4 H5 H6 H7] (E1 & E2 & E3 & E4 & E5 & E6 & E7 & E8 & E9 & E10 & E11 & E12) Hp.
  split; cbn [core stack with_core]; auto.
  - unfold phase_with, phase in *. by rewrite E1, E2, E4, E5, E8, E9.
  - by rewrite E6.
  - by rewrite E4, E7.
  - intros s. rewrite E10. unfold held_with, held. rewrite E2, E3, E4, E11, E12. apply H6.
  - rewrite E4. exact H7.
Qed.

Lemma parked_changes l a c : 
  Forall (λ w, check (stateValue c) (session c) (sel_wait w) = None) l → parked_ok (set_changes l a c).
Proof. done. Qed.

Lemma observed_select t aborted wait x : observed_ok x → observed_ok (with_core (select_begin t aborted wait) x).
Proof.
  intros H. apply observed_same; [done|..]; unfold select_begin; destruct aborted; try done;
    destruct (check _ _ _) eqn:Hc; try (by repeat split).
  intros Hp. apply parked_changes, Forall_app_2; [done|]. by apply Forall_cons_2; [|apply Forall_nil_2].
Qed.

Lemma observed_select_stop t e x : observed_ok x → observed_ok (with_core (select_stop t e) x).
Proof.
  intros H. apply observed_same; [done|..]; unfold select_stop; destruct (decide _); try done.
  intros Hp. apply parked_changes. unfold parked_ok in Hp. rewrite list.Forall_forall in Hp |- *.
  intros w Hw. apply list_elem_of_filter in Hw as [_ Hw]. auto.
Qed.

(** *** Listeners coming, going and returning *)

(** A passive emission on top changes nothing below. *)
Lemma observed_push e c ls ls' st t t' :
  active (em_cont e) = false → (∀ s, em_cont e = KClose s → stopped c = true) →
  observed_ok (mkObserved c ls st t) →
  observed_ok (mkObserved c ls' (e :: st) t').
Proof.
  intros He Hcl [H1 H2 H3 H4 H5 H6 H7]. cbn in *. split; cbn; try done.
  - by rewrite He.
  - by rewrite He.
  - intros s Hs. destruct (H6 s Hs) as [|(e' & so & Hin & H)]; [by left|right].
    exists e', so. split; [by right|done].
  - intros e' s [->|Hin]%elem_of_cons Hk; [by eapply Hcl|by eapply H7].
Qed.

Lemma observed_next x : observed_ok x → observed_ok (next x).
Proof.
  destruct x as [c ls [|[e ks k] st] t]; [done|]. unfold next. cbn [stack em_rest em_event em_cont core told listeners].
  intros [H1 H2 H3 H4 H5 H6 H7]. cbn in *. destruct ks as [|l ks].
  2:{ split; cbn; try done.
      - intros s Hs. destruct (H6 s Hs) as [|(e' & so & Hin & Hk & H)]; [by left|right].
        apply elem_of_cons in Hin as [->|Hin].
        + eexists _, so. split; [left|]. by cbn in *.
        + exists e', so. by split; [right|].
      - intros e' so [->|Hin]%elem_of_cons Hk; [|by apply (H7 e' so); [right|]].
        by apply (H7 (mkEmission e (l :: ks) k) so); [left|]. }
  assert (∀ e' s, e' ∈ st → em_cont e' = KClose s → stopped c = true) as Hcl
    by (intros e' s Hin; by apply H7; right).
  destruct H1 as [Hrest Hst].
  destruct (active k) eqn:Hk.
  - rewrite (Hrest eq_refl) in *. apply observed_idle. unfold phase_with in H2.
    assert (∀ s, (s < opened c)%nat → held c s) as Hheld.
    { intros s Hs. destruct (H6 s Hs) as [|(e' & so & Hin & Hk' & _)]; [done|].
      apply list_elem_of_singleton in Hin as ->. cbn in Hk'. by rewrite Hk' in Hk. }
    destruct k as [| |random| |]; try discriminate; cbn [resume].
    + destruct (stopped c) eqn:Hs; split; try done; cbn; try (rewrite Hs; auto); try (by destruct (initial c)).
      unfold phase. cbn. rewrite Hs. destruct H2 as (-> & -> & -> & -> & ->). by left.
    + split; try done; cbn.
      * destruct (stopped c) eqn:Hs; unfold phase in *; cbn; rewrite Hs in *; [done|by destruct H2].
      * by destruct (initial c).
    + destruct (stopped c) eqn:Hs; [by split; auto; rewrite Hs|].
      split; try done; cbn.
      * unfold phase. cbn. rewrite Hs. destruct H2 as (-> & -> & -> & -> & _). right. right. eauto.
      * by apply delay_grows.
      * by rewrite Hs.
  - destruct k as [| | |so|]; try discriminate; cbn [resume].
    + split; cbn; try done. intros s Hs. destruct (H6 s Hs) as [[?|[?|?]]|(e' & so' & Hin & Hk' & H)].
      * by left; left.
      * left. right. left. cbn. set_solver.
      * left. by right; right.
      * apply elem_of_cons in Hin as [->|Hin]; [|right; exists e', so'; done].
        cbn in Hk'. injection Hk' as ->. left. right. left. cbn.
        destruct H as [->|H]; cbn; set_solver.
    + split; try done. intros s Hs. destruct (H6 s Hs) as [|(e' & so' & Hin & Hk' & H)]; [by left|].
      apply elem_of_cons in Hin as [->|Hin]; [by cbn in Hk'|]. right. by exists e', so'.
Qed.

(** *** Closing, at any time *)

Lemma observed_closing x : observed_ok x → observed_ok (closing x).
Proof.
  destruct x as [c ls st t]. unfold closing. cbn [core]. destruct (stopped c) eqn:Hs; [done|].
  intros [H1 H2 H3 H4 H5 H6 H7]. cbn in *. split; cbn; try done.
  - apply (emit_parked sclosed (Some RLocal)).
  - intros _. by destruct (initial c).
  - intros s Hlt. destruct (H6 s Hlt) as [[[_ Hq]|[Hq|Hq]]|(e & so & Hin & Hk & _)].
    + right. eexists _, (session c). split; [left|]. cbn. done.
    + by left; right; left.
    + by left; right; right.
    + apply (H7 _ _ Hin) in Hk. congruence.
Qed.

(** *** Callbacks of the platform *)

(** The core's invariant between callbacks, for the step of an event that does not emit. *)
Lemma observed_quiet ev x :
  stack x = [] → enabled ev (core x) = true → emits ev (core x) = None → observed_ok x →
  observed_ok (observed_step (XEvent ev) x).
Proof.
  intros Hx He Hem H. pose proof (observed_step_spec ev x) as Hs. rewrite Hem in Hs. rewrite Hs.
  destruct x as [c ls st t]. cbn in *. subst st. apply observed_idle. apply observed_idle in H.
  by apply ok_step.
Qed.

(** An event that emits keeps the invariant, whatever the listeners do. *)
Definition heard (ev : RecoveryEvent) : Prop := ∀ x e,
  stack x = [] → enabled ev (core x) = true → emits ev (core x) = Some e → observed_ok x →
  observed_ok (observed_step (XEvent ev) x).
Ltac hear c H He Hem :=
  intros [c ls st t] e Hx He Hem H; cbn in Hx, He, Hem; subst st; apply observed_idle in H;
  cbn [observed_step enabled] in *.

Lemma heard_start : heard VMicrotask.
Proof.
  hear c H He Hem.
  destruct (stopped c) eqn:Hs; [discriminate|]. cbn [core]. rewrite Hs.
  pose proof (ok_phase c H) as Hp. unfold phase in Hp. rewrite Hs in Hp.
  destruct (started c); [discriminate|]. destruct Hp as (P1 & P2 & P3 & P4).
  apply observed_emission; try done; [exact (ok_delay c H)|].
  intros s Hlt. by destruct (ok_held c H s Hlt) as [[_ ?]|?]; [left|right].
Qed.
Lemma dialed_emits c ls t :
  stopped c = false →
  dialed (mkObserved c ls [] t) =
  mkObserved (emit sopen None (set_timer (timer c) 1000 (set_session (Some (opened c)) (draining c)
     (set_channels (S (opened c)) (closes c) (gone c) (set_dialing (pred (dialing c)) c))))) ls
    [mkEmission (sopen, None) ls KOpen] t.
Proof. intros Hs. unfold dialed. cbn [core]. change (stopped (set_channels _ _ _ _)) with (stopped c). by rewrite Hs. Qed.
Lemma heard_dialed : heard VDialed.
Proof.
  intros [c ls st t] e Hx He Hem H. cbn in Hx, He, Hem; subst st. apply observed_idle in H.
  destruct (stopped c) eqn:Hs; [discriminate|]. change (observed_ok (dialed (mkObserved c ls [] t))).
  rewrite dialed_emits by done.
  assert (dialing c ≠ 0%nat) as Hd by (by destruct (dialing c)).
  destruct (phase_dialing c (ok_phase c H) Hs Hd) as (Hst & Hd1 & Hn & Ht).
  apply observed_emission; try done.
  - unfold phase_with, phase. cbn. rewrite Hs, Hst, Hd1, Ht. split; [done|]. right. left. eauto.
  - intros s Hlt. cbn in Hlt. unfold held. cbn.
    destruct (decide (s = opened c)) as [->|Hne]; [left; by auto|].
    destruct (ok_held c H s) as [[_ [Hx|?]]|[?|?]]; [lia| |left; by auto|by right; left|by right; right].
    congruence.
Qed.
Lemma heard_dial_failed random : heard (VDialFailed random).
Proof.
  hear c H He Hem.
  destruct (stopped c) eqn:Hs; [discriminate|]. unfold dial_failed. cbn [core].
  change (stopped (settle_initial _ _)) with (stopped c). rewrite Hs.
  assert (dialing c ≠ 0%nat) as Hd by (by destruct (dialing c)).
  destruct (phase_dialing c (ok_phase c H) Hs Hd) as (Hst & Hd1 & Hn & Ht).
  apply observed_emission; try done; [unfold phase_with; cbn; by rewrite Hs, Hd1|exact (ok_delay c H)|apply H].
Qed.
Lemma heard_gone s reason random : heard (VGone s reason random).
Proof.
  hear c H He Hem.
  destruct (stopped c) eqn:Hs; [discriminate|]. cbn [orb] in Hem. unfold gone_by_itself. cbn [core].
  change (stopped (set_channels _ _ _ _)) with (stopped c). rewrite Hs. cbn [orb].
  change (session (set_channels _ _ _ _)) with (session c).
  case_bool_decide as Hsess; [|discriminate]. cbn [negb].
  destruct (phase_session c s (ok_phase c H) Hs Hsess) as (Hst & Hd & Ht).
  apply observed_emission; try done; [unfold phase_with; cbn; by rewrite Hs|exact (ok_delay c H)|].
  intros x Hx. destruct (decide (x = s)) as [->|Hne]; [right; right; cbn; set_solver|].
  destruct (ok_held c H x Hx) as [[_ [Hq|Hq]]|[Hq|Hq]];
    [congruence| |by right; left|right; right; cbn; set_solver].
  left. split; [done|]. right. cbn. by apply list_elem_of_filter.
Qed.
Lemma heard_draining s : heard (VDraining s).
Proof.
  hear c H He Hem.
  destruct (stopped c) eqn:Hs; [discriminate|]. cbn [orb] in Hem. unfold told_to_drain. cbn [core].
  rewrite Hs. cbn [orb]. case_bool_decide as Hsess; [|discriminate]. cbn [negb].
  destruct (phase_session c s (ok_phase c H) Hs Hsess) as (Hst & Hd & Ht).
  apply observed_emission; try done; [unfold phase_with; cbn; by rewrite Hs|exact (ok_delay c H)|].
  intros x Hx. destruct (ok_held c H x Hx) as [[_ [Hq|Hq]]|[Hq|Hq]];
    [left; cbn; split; [done|]; right; set_solver..|by right; left|by right; right].
Qed.
Lemma heard_timer : heard VTimer.
Proof.
  hear c H He Hem.
  apply bool_decide_eq_true in He as [q Hq].
  pose proof (ok_phase c H) as Hp. unfold phase in Hp.
  destruct (stopped c) eqn:Hs; [by destruct Hp as (_ & _ & ?); congruence|].
  destruct (started c) eqn:Hst; [|by destruct Hp as (_ & _ & _ & ?); congruence].
  destruct Hp as [(_ & _ & _ & ?)|[(_ & _ & _ & ?)|(_ & ? & ? & _)]]; [congruence..|].
  apply observed_emission; try done; [unfold phase_with; cbn; by rewrite Hs|exact (ok_delay c H)|apply H].
Qed.

Lemma observed_callback ev x :
  stack x = [] → enabled ev (core x) = true → by_application ev = false → observed_ok x →
  observed_ok (observed_step (XEvent ev) x).
Proof.
  intros Hx He Ha H. destruct (emits ev (core x)) as [e|] eqn:Hem; [|by apply observed_quiet].
  revert Hem. destruct ev as [| |random|s reason random|s| |tk aborted wait|tk|tk| |]; try discriminate; intros Hem;
    [eapply heard_start|eapply heard_dialed|eapply heard_dial_failed|eapply heard_gone|eapply heard_draining|
     eapply heard_timer]; done.
Qed.

Lemma observed_ok_step ev x : observed_ok x → observed_enabled ev x = true → observed_ok (observed_step ev x).
Proof.
  intros H He. destruct ev as [ev|l|l|].
  - cbn [observed_enabled] in He. apply andb_true_iff in He as [He Ha].
    destruct (by_application ev) eqn:Happ.
    + destruct ev; try discriminate; [by apply observed_select|by apply observed_select_stop|by apply observed_closing].
    + cbn [orb] in Ha. apply bool_decide_eq_true in Ha. by apply observed_callback.
  - unfold observed_step, subscribe. destruct x as [c ls st t]. by eapply observed_push.
  - destruct x as [c ls st t], H. by split.
  - by apply observed_next.
Qed.

Lemma observed_reachable_ok x : observed_reachable x → observed_ok x.
Proof.
  induction 1 as [listener|x ev _ IH He]; [|by apply observed_ok_step].
  apply observed_idle, reachable_ok, rec_new.
Qed.

(** ** Theorems *)

Definition observed_run (evs : list ObservedEvent) (x : Observed) : Observed :=
  fold_left (λ x ev, observed_step ev x) evs x.

Fixpoint all_observed_enabled (evs : list ObservedEvent) (x : Observed) : bool :=
  match evs with
  | [] => true
  | ev :: evs' => observed_enabled ev x && all_observed_enabled evs' (observed_step ev x)
  end.

Lemma observed_run_reachable evs x :
  observed_reachable x → all_observed_enabled evs x = true → observed_reachable (observed_run evs x).
Proof.
  revert x. induction evs as [|ev evs IH]; intros x Hx He; [done|].
  cbn [all_observed_enabled] in He. apply andb_true_iff in He as [He Hevs].
  apply IH; [by constructor|done].
Qed.

(** A listener subscribes a second one when the first dial fails, and closes the connection when
    the second dial has succeeded; a call waits all the time. *)
Module Reentrant.
Definition before : list ObservedEvent :=
  [XEvent VMicrotask; XNext; XNext; XEvent (VSelect 0 false true); XEvent (VDialFailed 0); XNext;
   XSubscribe 2; XNext; XNext; XNext; XEvent VTimer; XNext; XNext; XNext].
Definition after : list ObservedEvent :=
  before ++ [XEvent VDialed; XNext; XEvent VClose; XNext; XNext; XNext; XNext; XNext].
End Reentrant.

(** C31: progress under any listeners: between callbacks, while it is not closed, the connection
    is doing exactly one thing that leads to a session, whatever its listeners did when they
    were called (close, subscribe, start calls, throw): it dials once (connecting), has a session
    (open), or has one timer armed (transient failure); the reported state says which, and the
    backoff stays between one and thirty seconds.  At any time, also while listeners run, a
    parked call is one that can neither be served nor refused: the connection is not closed and
    has no session, and unless the call asked to wait for readiness it is not in backoff. *)
Theorem observed_progress x :
  observed_reachable x →
  (stack x = [] → stopped (core x) = false → started (core x) = true →
   (let c := core x in
    (stateValue c = connecting ∧ dialing c = 1%nat ∧ session c = None ∧ timer c = None) ∨
    (stateValue c = sopen ∧ dialing c = 0%nat ∧ is_Some (session c) ∧ timer c = None) ∨
    (stateValue c = transient_failure ∧ dialing c = 0%nat ∧ session c = None ∧
       ∃ q, timer c = Some q))) ∧
  (1000 <= delay (core x) <= 30000)%Q ∧
  (∀ w, w ∈ changes (core x) →
     stateValue (core x) ≠ sclosed ∧ session (core x) = None ∧
     (sel_wait w = false → stateValue (core x) ≠ transient_failure)).
Proof.
  intros Hr. pose proof (observed_reachable_ok x Hr) as H. split_and!.
  - intros Hx Hs Hst. destruct x as [c ls st t]. cbn in *. subst st. apply observed_idle in H.
    pose proof (ok_phase c H) as Hp. unfold phase in Hp. by rewrite Hs, Hst in Hp.
  - apply H.
  - apply H.
  - intros w Hw. pose proof (oo_parked x H) as Hp. unfold parked_ok in Hp.
    rewrite list.Forall_forall in Hp. by apply check_waits, Hp.
Qed.

Lemma observed_progress_witness :
  stateValue (core (observed_run Reentrant.before (observed_new (Some 1%nat)))) ≠ sclosed.
Proof.
  destruct (observed_progress (observed_run Reentrant.before (observed_new (Some 1%nat)))) as (_ & _ & H).
  - apply observed_run_reachable; [apply obs_new|vm_compute; reflexivity].
  - apply (H (mkSelecting 0 true)). vm_compute. left.
Defined.

(** Closing leaks nothing, whenever it happens, also inside a listener that is being told
    of another change: from then on the state is closed for good, with no session, no timer, no
    parked call and a settled initial promise; and when the listeners have returned, every
    session the connection was ever given, also one that a dial delivers later, has been told to
    close or had ended by itself. *)
Theorem observed_close_releases x :
  observed_reachable x → stopped (core x) = true →
  stateValue (core x) = sclosed ∧ session (core x) = None ∧ timer (core x) = None ∧
  changes (core x) = [] ∧ initial (core x) ≠ InitialPending ∧
  (stack x = [] → ∀ s, (s < opened (core x))%nat → s ∈ closes (core x) ∨ s ∈ gone (core x)).
Proof.
  intros Hr Hs. pose proof (observed_reachable_ok x Hr) as H.
  pose proof (oo_phase x H) as Hp. unfold phase_with in Hp. rewrite Hs in Hp.
  unfold phase in Hp. rewrite Hs in Hp. destruct Hp as (E1 & E2 & E3).
  split_and!; [done..| |by apply H|].
  - apply closed_no_parked; [apply H|done].
  - intros Hx. destruct x as [c ls st t]. cbn in *. subst st. apply observed_idle in H.
    by apply closed_ok.
Qed.

Lemma observed_close_releases_witness :
  closes (core (observed_run Reentrant.after (observed_new (Some 1%nat)))) = [0%nat] ∧
  changes (core (observed_run Reentrant.after (observed_new (Some 1%nat)))) = [].
Proof.
  split; [vm_compute; reflexivity|].
  apply (observed_close_releases (observed_run Reentrant.after (observed_new (Some 1%nat)))).
  - apply observed_run_reachable; [apply obs_new|vm_compute; reflexivity].
  - vm_compute. reflexivity.
Defined.

(** *** What listeners are told *)

(** The last event a listener was told. *)
Definition last_told (l : nat) (t : list (nat * BridgeConnectionEvent)) : option BridgeConnectionEvent :=
  list.last (map snd (filter (λ p, p.1 = l) t)).

Lemma last_told_all l e ls t :
  l ∈ ls → last_told l (t ++ map (λ l, (l, e)) ls) = Some e.
Proof.
  intros Hl. unfold last_told. induction ls as [|a ls IH] using rev_ind; [by apply not_elem_of_nil in Hl|].
  rewrite map_app, app_assoc, list.filter_app, map_app. cbn [map].
  destruct (decide (a = l)) as [->|Hne].
  - rewrite list.filter_cons_True by done. cbn [filter map]. apply list.last_snoc.
  - rewrite list.filter_cons_False by done. cbn [filter map]. rewrite app_nil_r. apply IH. set_solver.
Qed.

(** An emission runs to its end: all its listeners are called, and the method resumes. *)
Lemma run_emission c ls e ks k st t :
  observed_reachable (mkObserved c ls (mkEmission e ks k :: st) t) →
  let y := mkObserved (resume k c) ls st (t ++ map (λ l, (l, e)) ks) in
  observed_reachable y ∧
  observed_run (repeat XNext (S (length ks))) (mkObserved c ls (mkEmission e ks k :: st) t) = y.
Proof.
  revert t. induction ks as [|l ks IH]; intros t Hr.
  - cbv zeta. cbn [map]. rewrite app_nil_r. split; [|done]. by apply (obs_step _ XNext Hr).
  - assert (observed_reachable (mkObserved c ls (mkEmission e ks k :: st) (t ++ [(l, e)]))) as Hr'
      by (by apply (obs_step _ XNext Hr)).
    specialize (IH _ Hr'). cbv zeta in *. cbn [map]. change ((l, e) :: ?m) with ([(l, e)] ++ m).
    by rewrite app_assoc.
Qed.

(** An emission is told in order, but not atomically: a listener that closes the connection
    when it is told that it opened makes every listener after it hear of the opening last.
    The nested emission of [close] tells all of them "closed" first; the outer one then
    goes on with "open".  The connection is closed, but for those listeners it is open. *)
Theorem closing_listener_misleads_others x l ls :
  observed_reachable x → stack x = [] → stopped (core x) = false → dialing (core x) ≠ 0%nat →
  listeners x = l :: ls →
  ∃ n, let y := observed_run ([XEvent VDialed; XNext; XEvent VClose] ++ repeat XNext n) x in
    observed_reachable y ∧ stack y = [] ∧ stateValue (core y) = sclosed ∧
    ∀ l', l' ∈ ls → last_told l' (told y) = Some (sopen, None).
Proof.
  intros Hr Hst Hs Hd Hl. exists (S (length (l :: ls)) + S (length ls))%nat. cbv zeta.
  set (x3 := observed_run [XEvent VDialed; XNext; XEvent VClose] x).
  assert (observed_reachable x3) as Hr3.
  { apply (observed_run_reachable [XEvent VDialed; XNext; XEvent VClose]); [done|].
    destruct x as [c ? ? t]. cbn in Hst, Hs, Hd, Hl. subst. cbn. unfold dialed. cbn.
    rewrite Hs. destruct (dialing c); [done|]. done. }
  unfold observed_run. rewrite fold_left_app. fold (observed_run [XEvent VDialed; XNext; XEvent VClose] x) x3.
  rewrite repeat_app, fold_left_app.
  assert (∃ c t, x3 = mkObserved c (l :: ls) [mkEmission (sclosed, Some RLocal) (l :: ls) (KClose (Some (opened (core x))));
    mkEmission (sopen, None) ls KOpen] t ∧ stopped c = true ∧ stateValue c = sclosed) as (c & t & E & Ec & Ev).
  { destruct x as [c ? ? t]. cbn in Hst, Hs, Hd, Hl. subst. unfold x3. cbn. unfold dialed. cbn. rewrite Hs.
    cbn. unfold closing. cbn. rewrite Hs. do 2 eexists. split; [reflexivity|done]. }
  rewrite E in Hr3 |- *.
  destruct (run_emission _ _ _ _ _ _ _ Hr3) as [Hr4 E4]. unfold observed_run in E4. rewrite E4.
  destruct (run_emission _ _ _ _ _ _ _ Hr4) as [Hr5 E5]. unfold observed_run in E5. rewrite E5.
  split_and!; [done|done|exact Ev|]. intros l' Hl'. cbn [told]. by apply last_told_all.
Qed.

Module Misled.
Definition start : list ObservedEvent :=
  [XSubscribe 2; XNext; XNext; XEvent VMicrotask; XNext; XNext; XNext].
Definition dialing : Observed := observed_run start (observed_new (Some 1%nat)).
Lemma dialing_reachable : observed_reachable dialing.
Proof. apply observed_run_reachable; [apply obs_new|vm_compute; reflexivity]. Qed.
End Misled.

Lemma closing_listener_misleads_others_witness :
  ∃ n, let y := observed_run ([XEvent VDialed; XNext; XEvent VClose] ++ repeat XNext n) Misled.dialing in
    stateValue (core y) = sclosed ∧ last_told 2 (told y) = Some (sopen, None).
Proof.
  destruct (closing_listener_misleads_others Misled.dialing 1%nat [2%nat] Misled.dialing_reachable)
    as (n & _ & _ & H1 & H2); [vm_compute; reflexivity|vm_compute; reflexivity|vm_compute; discriminate|vm_compute; reflexivity|].
  exists n. split; [exact H1|]. apply H2. left.
Defined.

Lemma observers_refine_recovery_witness :
  ∃ n, core (nexts n (observed_step (XEvent VDialed) Misled.dialing)) =
    recovery_step VDialed (core Misled.dialing).
Proof.
  destruct (observers_refine_recovery VDialed Misled.dialing) as (n & H & _); [vm_compute; reflexivity|].
  exists n. exact H.
Defined.
