(* ===== verification/Regex.v ===== *)
(** * Regex: the regular expressions of the client

    The patterns of [channel.ts], [contracts.ts], [transport.ts] and [interceptors.ts] as a
    backtracking matcher in continuation-passing style, the way ECMAScript defines [exec]: a
    greedy quantifier tries the longest match first, an alternative its left branch first, and
    groups are numbered by their opening parenthesis.  Every modelled pattern starts with [^],
    so a match starts at index 0.  [parses] is the declarative reading, [match_sound] and
    [match_complete] relate the two. *)
From S2P Require Import Prelude.
Local Open Scope Z_scope.

(** Patterns over UTF-16 code units; [End_] is [$] without the [m] flag, which is also what
    the look-ahead [(?![\s\S])] says. *)
Inductive re :=
| Class (p : Z → bool)
| Many (p : Z → bool) (lo : nat) (hi : option nat)
| Seq (a b : re)
| Alt (a b : re)
| Group (a : re)
| End_.

(** [p{lo,hi}] in front of the continuation [k]. *)
Fixpoint many {A} (p : Z → bool) (lo : nat) (hi : option nat) (s : jsstring)
    (k : jsstring → option A) : option A :=
  let stop := if Nat.eqb lo 0 then k s else None in
  match s with
  | c :: s' =>
      if p c && negb (bool_decide (hi = Some 0%nat))
      then match many p (pred lo) (pred <$> hi) s' k with
           | Some x => Some x
           | None => stop
           end
      else stop
  | [] => stop
  end.

(** The text between two positions, the second given by what remains after it. *)
Definition consumed (s rest : jsstring) : jsstring := take (length s - length rest) s.

Fixpoint matches {A} (r : re) (s : jsstring) (g : list jsstring)
    (k : jsstring → list jsstring → option A) : option A :=
  match r with
  | Class p => match s with c :: s' => if p c then k s' g else None | [] => None end
  | Many p lo hi => many p lo hi s (λ s', k s' g)
  | Seq a b => matches a s g (λ s' g', matches b s' g' k)
  | Alt a b => match matches a s g k with Some x => Some x | None => matches b s g k end
  | Group a => matches a s g (λ s' g', k s' (g' ++ [consumed s s']))
  | End_ => match s with [] => k [] g | _ => None end
  end.

(** [pattern.exec(s)]: [match[0]] and the groups; and [pattern.test(s)]. *)
Definition exec (r : re) (s : jsstring) : option (jsstring * list jsstring) :=
  matches r s [] (λ rest g, Some (consumed s rest, g)).
Definition test (r : re) (s : jsstring) : bool := bool_decide (is_Some (exec r s)).

(** Character classes, and a literal. *)
Definition between (a b u : Z) : bool := (a <=? u) && (u <=? b).
Definition lower (u : Z) : bool := between 0x61 0x7a u.
Definition upper (u : Z) : bool := between 0x41 0x5a u.
Definition digit (u : Z) : bool := between 0x30 0x39 u.
Definition chr (c : Z) (u : Z) : bool := u =? c.
Definition one_of (s : string) (u : Z) : bool := bool_decide (u ∈ js s).

(** [/.../i] compares ASCII letters without their case; no other code unit folds to one. *)
Definition to_lower (u : Z) : Z := if upper u then u + 32 else u.
Definition same_letter (c u : Z) : bool := to_lower u =? to_lower c.

Fixpoint literal (eq : Z → Z → bool) (s : jsstring) (r : re) : re :=
  match s with
  | [] => r
  | c :: s' => Seq (Class (eq c)) (literal eq s' r)
  end.

(** ** What a pattern means *)

(** [parses r a rest g]: [r] can take exactly [a] when [rest] follows, capturing [g]. *)
Fixpoint parses (r : re) (a rest : jsstring) (g : list jsstring) : Prop :=
  match r with
  | Class p => ∃ c, a = [c] ∧ p c = true ∧ g = []
  | Many p lo hi =>
      Forall (λ c, p c = true) a ∧ (lo ≤ length a)%nat ∧
      match hi with Some h => (length a ≤ h)%nat | None => True end ∧ g = []
  | Seq r1 r2 =>
      ∃ a1 a2 g1 g2, a = a1 ++ a2 ∧ g = g1 ++ g2 ∧ parses r1 a1 (a2 ++ rest) g1 ∧ parses r2 a2 rest g2
  | Alt r1 r2 => parses r1 a rest g ∨ parses r2 a rest g
  | Group r' => ∃ g', g = g' ++ [a] ∧ parses r' a rest g'
  | End_ => a = [] ∧ rest = [] ∧ g = []
  end.

Lemma consumed_app a rest : consumed (a ++ rest) rest = a.
Proof.
  unfold consumed. rewrite length_app, Nat.add_sub. apply take_app_length.
Qed.

Lemma many_stop {A} p lo hi s (k : jsstring → option A) x :
  (if Nat.eqb lo 0 then k s else None) = Some x →
  ∃ a b, s = a ++ b ∧ parses (Many p lo hi) a b [] ∧ k b = Some x.
Proof.
  destruct (Nat.eqb_spec lo 0) as [->|]; [|done]. intros H. exists [], s.
  repeat split; [by constructor|simpl; lia|destruct hi; simpl; lia|done].
Qed.

Lemma many_sound {A} p lo hi s (k : jsstring → option A) x :
  many p lo hi s k = Some x →
  ∃ a b, s = a ++ b ∧ parses (Many p lo hi) a b [] ∧ k b = Some x.
Proof.
  revert lo hi. induction s as [|c s IH]; intros lo hi; simpl; [apply many_stop|].
  destruct (p c && _) eqn:E; [|apply many_stop].
  apply andb_true_iff in E as [Hp Hh]. apply negb_true_iff, bool_decide_eq_false in Hh.
  destruct (many p (pred lo) (pred <$> hi) s k) as [y|] eqn:Hm; [|apply many_stop].
  intros [= ->]. destruct (IH _ _ Hm) as (a & b & -> & (Hf & Hlo & Hhi & _) & Hk).
  exists (c :: a), b. repeat split; [by constructor|simpl; lia| |done].
  destruct hi as [[|h]|]; simpl in *; [congruence|lia|done].
Qed.

Lemma many_complete {A} p a lo hi b (k : jsstring → option A) :
  parses (Many p lo hi) a b [] → is_Some (k b) → is_Some (many p lo hi (a ++ b) k).
Proof.
  revert lo hi. induction a as [|c a IH]; intros lo hi (Hf & Hlo & Hhi & _) Hk.
  - simpl in *. assert (lo = 0%nat) as -> by lia.
    destruct b as [|c b]; simpl; [done|].
    destruct (p c && _); [|done]. by destruct (many _ _ _ _ _).
  - apply Forall_cons_1 in Hf as [Hp Hf]. simpl in *. rewrite Hp.
    destruct (bool_decide_reflect (hi = Some 0%nat)) as [->|Hh]; [lia|]. simpl.
    destruct (IH (pred lo) (pred <$> hi)) as [y ->]; [|done|done].
    repeat split; [done|lia|]. destruct hi as [h|]; simpl; [lia|done].
Qed.

(** The matcher finds only what the pattern allows ... *)
Lemma match_sound {A} r s g (k : jsstring → list jsstring → option A) x :
  matches r s g k = Some x →
  ∃ a b h, s = a ++ b ∧ parses r a b h ∧ k b (g ++ h) = Some x.
Proof.
  revert A s g k x. induction r; intros A s g k x; simpl; intros H.
  - destruct s as [|c s]; [done|]. destruct (p c) eqn:Hp; [|done].
    exists [c], s, []. rewrite app_nil_r. by eauto 6.
  - apply many_sound in H as (a & b & -> & H & Hk).
    exists a, b, []. rewrite app_nil_r. done.
  - apply IHr1 in H as (a & b & h & -> & H1 & H).
    apply IHr2 in H as (a' & b' & h' & -> & H2 & H).
    exists (a ++ a'), b', (h ++ h'). rewrite <- app_assoc in H.
    split_and!; [by rewrite app_assoc| |done]. by exists a, a', h, h'.
  - destruct (matches r1 s g k) eqn:E; simplify_eq.
    + apply IHr1 in E as (a & b & h & -> & H1 & Hk). eauto 10.
    + apply IHr2 in H as (a & b & h & -> & H1 & Hk). eauto 10.
  - apply IHr in H as (a & b & h & -> & H & Hk). rewrite consumed_app, <- app_assoc in Hk.
    exists a, b, (h ++ [a]). eauto 6.
  - destruct s; [|done]. exists [], [], []. by rewrite (app_nil_r g).
Qed.

(** ... and finds something whenever there is a way to match. *)
Lemma match_complete {A} r a b g h (k : jsstring → list jsstring → option A) :
  parses r a b h → is_Some (k b (g ++ h)) → is_Some (matches r (a ++ b) g k).
Proof.
  revert A a b g h k. induction r; intros A a b g h k; simpl.
  - intros (c & -> & Hp & ->) Hk. simpl. by rewrite Hp, app_nil_r in *.
  - intros (Hf & Hlo & Hhi & ->) Hk. rewrite app_nil_r in Hk. by apply many_complete.
  - intros (a1 & a2 & g1 & g2 & -> & -> & H1 & H2) Hk. rewrite <- app_assoc.
    eapply IHr1; [done|]. eapply IHr2; [done|]. by rewrite <- app_assoc.
  - intros [H|H] Hk.
    + destruct (IHr1 _ _ _ _ _ _ H Hk) as [y ->]. done.
    + destruct (matches r1 _ _ _); [done|]. eauto.
  - intros (g' & -> & H) Hk. eapply IHr; [done|]. by rewrite consumed_app, <- app_assoc.
  - intros (-> & -> & ->) Hk. simpl. by rewrite app_nil_r in Hk.
Qed.

Lemma exec_sound r s m g : exec r s = Some (m, g) → ∃ rest, s = m ++ rest ∧ parses r m rest g.
Proof.
  intros H. apply match_sound in H as (a & b & h & -> & H & [= <- <-]).
  rewrite consumed_app. by exists b.
Qed.

Lemma test_spec r s : test r s = true ↔ ∃ a rest g, s = a ++ rest ∧ parses r a rest g.
Proof.
  unfold test. rewrite bool_decide_eq_true. split.
  - intros [[m g] H]. apply exec_sound in H as (rest & -> & H). eauto.
  - intros (a & rest & g & -> & H). by apply (match_complete _ _ _ _ g).
Qed.

Lemma parses_literal eq s r a rest g :
  parses (literal eq s r) a rest g ↔
  ∃ a1 a2, a = a1 ++ a2 ∧ Forall2 (λ c u, eq c u = true) s a1 ∧ parses r a2 rest g.
Proof.
  revert a. induction s as [|c s IH]; intros a; simpl.
  - split; [intros H; by exists [], a|]. intros (a1 & a2 & -> & ->%Forall2_nil_inv_l & H). done.
  - split.
    + intros (a1 & a2 & g1 & g2 & -> & -> & (u & -> & Hu & ->) & H).
      apply IH in H as (b1 & b2 & -> & Hf & H). exists (u :: b1), b2. by repeat constructor.
    + intros (a1 & a2 & -> & (u & b1 & Hu & Hf & ->)%Forall2_cons_inv_l & H).
      exists [u], (b1 ++ a2), [], g. split_and!; [done|done|by eauto|].
      apply IH. eauto.
Qed.
