(* ===== verification/Sort.v ===== *)
(** * Sort: ordering of strings and stable sorting

    JavaScript compares strings by their UTF-16 code units; [Array.prototype.sort] is stable.
    [sort_by] is the stable insertion sort: for a comparator that is a total preorder the result
    of a stable sort is determined, so the algorithm does not matter. *)
From stdpp Require Import sorting.
From S2P Require Import Prelude.
Local Open Scope Z_scope.

(** [a < b] on strings. *)
Fixpoint string_lt (a b : jsstring) : bool :=
  match a, b with
  | _, [] => false
  | [], _ :: _ => true
  | x :: a', y :: b' => if x <? y then true else if y <? x then false else string_lt a' b'
  end.

(** [compare] of [contracts.ts]: [a < b ? -1 : a > b ? 1 : 0]. *)
Definition compare (a b : jsstring) : Z :=
  if string_lt a b then -1 else if string_lt b a then 1 else 0.

(** [(a, b) => a - b]. *)
Definition compare_numbers (a b : Z) : Z := a - b.

Section sort.
Context {A : Type} (cmp : A → A → Z).

(** After the elements that are not greater. *)
Fixpoint insert_by (x : A) (l : list A) : list A :=
  match l with
  | [] => [x]
  | y :: l' => if cmp x y <? 0 then x :: l else y :: insert_by x l'
  end.

Definition sort_by (l : list A) : list A := fold_left (λ acc x, insert_by x acc) l [].

Lemma insert_by_perm x l : insert_by x l ≡ₚ x :: l.
Proof.
  induction l as [|y l IH]; cbn; [done|]. destruct (_ <? _); [done|]. rewrite IH. constructor.
Qed.

Lemma sort_by_acc l acc : fold_left (λ acc x, insert_by x acc) l acc ≡ₚ acc ++ l.
Proof.
  revert acc. induction l as [|x l IH]; intros acc; cbn; [by rewrite app_nil_r|].
  rewrite IH, insert_by_perm. cbn. apply Permutation_middle.
Qed.

Lemma sort_by_perm l : sort_by l ≡ₚ l.
Proof. apply (sort_by_acc l []). Qed.

Definition below (x y : A) : Prop := cmp x y ≤ 0.

(** The comparator of a total preorder. *)
Class Comparator : Prop := {
  cmp_flip x y : cmp x y < 0 ↔ 0 < cmp y x;
  cmp_trans x y z : cmp x y ≤ 0 → cmp y z ≤ 0 → cmp x z ≤ 0;
}.

Context `{!Comparator}.

Lemma below_total x y : ¬ cmp x y < 0 → below y x.
Proof. unfold below. pose proof (cmp_flip x y). pose proof (cmp_flip y x). lia. Qed.

Lemma insert_by_sorted x l : StronglySorted below l → StronglySorted below (insert_by x l).
Proof.
  induction 1 as [|y l Hs IH Hy]; cbn; [by repeat constructor|].
  destruct (Z.ltb_spec (cmp x y) 0) as [Hlt|Hge].
  - constructor; [by constructor|]. constructor; [unfold below; lia|].
    eapply list.Forall_impl; [exact Hy|]. intros z Hz. apply (cmp_trans x y z); [lia|done].
  - constructor; [done|]. rewrite insert_by_perm. constructor; [apply below_total; lia|done].
Qed.

Lemma sort_by_sorted l : StronglySorted below (sort_by l).
Proof.
  assert (∀ l acc, StronglySorted below acc →
    StronglySorted below (fold_left (λ acc x, insert_by x acc) l acc)) as Hg; [|apply Hg; constructor].
  clear l. induction l as [|x l IH]; intros acc Hacc; [done|]. by apply IH, insert_by_sorted.
Qed.

(** When elements that compare equal are equal, the order of the input does not matter. *)
Lemma sorted_unique l k :
  (∀ x y, x ∈ l → y ∈ l → cmp x y = 0 → x = y) → l ≡ₚ k →
  StronglySorted below l → StronglySorted below k → l = k.
Proof.
  revert k. induction l as [|x l IH]; intros k Hinj Hp Hl Hk; [by apply Permutation_nil_l in Hp|].
  destruct k as [|y k]; [by symmetry in Hp; apply Permutation_nil_l in Hp|].
  inversion Hl as [|? ? Hl' Hx]; inversion Hk as [|? ? Hk' Hy]; subst.
  assert (x = y) as ->.
  { assert (y ∈ x :: l) as Hin by (rewrite Hp; left).
    assert (x ∈ y :: k) as Hin' by (rewrite <- Hp; left).
    apply elem_of_cons in Hin as [->|Hin]; [done|]. apply elem_of_cons in Hin' as [->|Hin']; [done|].
    pose proof (proj1 (list.Forall_forall _ _) Hx y Hin) as Hxy.
    pose proof (proj1 (list.Forall_forall _ _) Hy x Hin') as Hyx. cbn in Hxy, Hyx.
    apply Hinj; [left|by right|]. unfold below in *. pose proof (cmp_flip x y).
    pose proof (cmp_flip y x). lia. }
  f_equal. apply IH; [|by apply Permutation_cons_inv in Hp|done|done].
  intros a b Ha Hb. apply Hinj; by right.
Qed.

Lemma sort_by_unique l k :
  (∀ x y, x ∈ l → y ∈ l → cmp x y = 0 → x = y) → l ≡ₚ k → sort_by l = sort_by k.
Proof.
  intros Hinj Hp. apply sorted_unique; [|by rewrite !sort_by_perm|apply sort_by_sorted..].
  intros x y. rewrite !sort_by_perm. apply Hinj.
Qed.

Lemma insert_by_last x l : Forall (λ y, below y x) l → insert_by x l = l ++ [x].
Proof.
  induction 1 as [|y l Hy Hf IH]; cbn; [done|]. unfold below in Hy.
  destruct (Z.ltb_spec (cmp x y) 0); [pose proof (cmp_flip x y); lia|]. by rewrite IH.
Qed.

Lemma sort_by_id l : StronglySorted below l → sort_by l = l.
Proof.
  intros Hs. enough (∀ k acc, StronglySorted below (acc ++ k) →
    fold_left (λ acc x, insert_by x acc) k acc = acc ++ k) as Hg by by apply (Hg l []).
  clear l Hs. induction k as [|x k IH]; intros acc Hs; cbn; [by rewrite app_nil_r|].
  rewrite insert_by_last.
  - rewrite IH; by rewrite <- app_assoc.
  - apply list.Forall_forall. intros y Hy.
    apply (StronglySorted_app_1_elem_of _ _ _ y x Hs Hy). left.
Qed.
End sort.

(** ** Strings *)

Lemma string_lt_irrefl a : string_lt a a = false.
Proof. induction a as [|x a IH]; cbn; [done|]. by rewrite Z.ltb_irrefl. Qed.

Lemma string_lt_asym a b : string_lt a b = true → string_lt b a = false.
Proof.
  revert b. induction a as [|x a IH]; intros [|y b]; cbn; try done.
  destruct (Z.ltb_spec x y), (Z.ltb_spec y x); try done; try lia. apply IH.
Qed.

Lemma string_lt_trans a b c : string_lt a b = true → string_lt b c = true → string_lt a c = true.
Proof.
  revert b c. induction a as [|x a IH]; intros [|y b] [|z c]; cbn; try done.
  destruct (Z.ltb_spec x y), (Z.ltb_spec y x), (Z.ltb_spec y z), (Z.ltb_spec z y), (Z.ltb_spec x z),
    (Z.ltb_spec z x); try done; try lia. apply IH.
Qed.

Lemma string_lt_total a b : string_lt a b = false → string_lt b a = false → a = b.
Proof.
  revert b. induction a as [|x a IH]; intros [|y b]; cbn; try done.
  destruct (Z.ltb_spec x y), (Z.ltb_spec y x); try done; try lia.
  intros H1 H2. f_equal; [lia|by apply IH].
Qed.

Lemma compare_0 a b : compare a b = 0 ↔ a = b.
Proof.
  unfold compare. split; [|intros ->; by rewrite string_lt_irrefl].
  destruct (string_lt a b) eqn:E1; [done|]. destruct (string_lt b a) eqn:E2; [done|].
  intros _. by apply string_lt_total.
Qed.

Lemma compare_neg a b : compare a b < 0 ↔ string_lt a b = true.
Proof. unfold compare. destruct (string_lt a b), (string_lt b a); split; (done || lia). Qed.
Lemma compare_pos a b : 0 < compare a b ↔ string_lt b a = true.
Proof.
  unfold compare. destruct (string_lt a b) eqn:E; [rewrite string_lt_asym by done|];
    destruct (string_lt b a); split; (done || lia).
Qed.

#[export] Instance compare_comparator {A} (key : A → jsstring) :
  Comparator (λ a b, compare (key a) (key b)).
Proof.
  split.
  - intros x y. by rewrite compare_neg, compare_pos.
  - intros x y z. rewrite <- !Z.nlt_ge, !compare_pos.
    intros H1 H2 H. destruct (string_lt (key x) (key y)) eqn:E.
    + by apply H2, (string_lt_trans _ (key x)).
    + apply not_true_iff_false in H1. by rewrite (string_lt_total _ _ E H1) in H.
Qed.

#[export] Instance compare_numbers_comparator {A} (key : A → Z) :
  Comparator (λ a b, compare_numbers (key a) (key b)).
Proof. unfold compare_numbers. split; intros; lia. Qed.
