(* ===== verification/Decimal.v ===== *)
(** * Decimal: numbers in decimal notation

    [String(n)] of a natural number is stdpp's [pretty]; these are its properties: only digits,
    no leading zero, and it is the one such string with that value. *)
From stdpp Require Import pretty.
From S2P Require Import Prelude Regex.
Local Open Scope Z_scope.

Definition digits_value (s : jsstring) : Z := fold_left (λ acc u, acc * 10 + (u - 0x30)) s 0.

Definition all_digits (s : jsstring) : Prop := Forall (λ u, digit u = true) s.

(** The canonical notation: ["0"], or digits that start with another digit. *)
Definition canonical (s : jsstring) : Prop :=
  s = js "0" ∨ ∃ u s', s = u :: s' ∧ between 0x31 0x39 u = true ∧ all_digits s'.

Lemma digits_value_snoc s u : digits_value (s ++ [u]) = digits_value s * 10 + (u - 0x30).
Proof. unfold digits_value. by rewrite fold_left_app. Qed.

Lemma js_string c s : js (String c s) = Z.of_N (Ascii.N_of_ascii c) :: js s.
Proof. done. Qed.

Lemma pretty_char_digit x :
  (x < 10)%N → Z.of_N (Ascii.N_of_ascii (pretty_N_char x)) = 0x30 + Z.of_N x.
Proof.
  intros Hx. destruct x as [|p]; [done|].
  do 4 (try destruct p as [p|p|]); try reflexivity; lia.
Qed.

(** The digits that [pretty_N_go] puts in front. *)
Fixpoint digits_of (fuel : nat) (x : N) : jsstring :=
  match fuel with
  | O => []
  | S f => if decide (x = 0)%N then [] else digits_of f (x / 10) ++ [0x30 + Z.of_N (x mod 10)]
  end.

Lemma pretty_go fuel x s : (N.to_nat x < fuel)%nat → js (pretty_N_go x s) = digits_of fuel x ++ js s.
Proof.
  revert x s. induction fuel as [|fuel IH]; intros x s Hf; [lia|]. cbn [digits_of].
  destruct (decide (x = 0)%N) as [->|Hx]; [by rewrite pretty_N_go_0|].
  assert (x / 10 < x)%N by (apply N.div_lt; lia).
  rewrite pretty_N_go_step, IH by lia. rewrite js_string, pretty_char_digit by (apply N.mod_lt; lia).
  by rewrite <- app_assoc.
Qed.

Lemma digits_of_spec fuel x :
  (N.to_nat x < fuel)%nat →
  all_digits (digits_of fuel x) ∧ digits_value (digits_of fuel x) = Z.of_N x ∧
  ((0 < x)%N → ∃ u s, digits_of fuel x = u :: s ∧ between 0x31 0x39 u = true ∧ all_digits s).
Proof.
  revert x. induction fuel as [|fuel IH]; intros x Hf; [lia|]. cbn [digits_of].
  destruct (decide (x = 0)%N) as [->|Hx]; [split_and!; [constructor|done|lia]|].
  assert (x / 10 < x)%N by (apply N.div_lt; lia).
  destruct (IH (x / 10)%N) as (Hd & Hv & Hh); [lia|].
  pose proof (N.mod_lt x 10 ltac:(lia)) as Hm. pose proof (N.div_mod x 10 ltac:(lia)) as Hdm.
  set (m := (x mod 10)%N) in *. clearbody m.
  assert (digit (0x30 + Z.of_N m) = true) as Hdig.
  { unfold digit, between. apply andb_true_iff; split; apply Z.leb_le; lia. }
  split_and!.
  - apply Forall_app_2; [done|]. by constructor.
  - rewrite digits_value_snoc, Hv. lia.
  - intros _. destruct (decide (x / 10 = 0)%N) as [H0|H0].
    + rewrite H0. replace (digits_of fuel 0) with (@nil Z) by (destruct fuel; [|cbn; by destruct (decide _)]; done).
      exists (0x30 + Z.of_N m), []. split_and!; [done| |constructor].
      unfold between. apply andb_true_iff; split; apply Z.leb_le; lia.
    + destruct Hh as (u & s & -> & Hu & Hs); [lia|]. exists u, (s ++ [0x30 + Z.of_N m]).
      split_and!; [done|done|]. apply Forall_app_2; [done|]. by constructor.
Qed.

Lemma pretty_pos (x : N) : (0 < x)%N → js (pretty x) = digits_of (S (N.to_nat x)) x.
Proof.
  intros Hx. unfold pretty, pretty_N. destruct (decide (x = 0)%N); [lia|].
  rewrite (pretty_go (S (N.to_nat x))) by lia. apply app_nil_r.
Qed.

(** [String(n)] is canonical and denotes [n]. *)
Lemma pretty_canonical (x : N) : canonical (js (pretty x)) ∧ digits_value (js (pretty x)) = Z.of_N x.
Proof.
  destruct (decide (x = 0)%N) as [->|Hx]; [by split; [left|]|].
  rewrite pretty_pos by lia. destruct (digits_of_spec (S (N.to_nat x)) x) as (Hd & Hv & Hh); [lia|].
  split; [|done]. right. apply Hh. lia.
Qed.

Lemma canonical_digits s : canonical s → all_digits s ∧ s ≠ [].
Proof.
  intros [->|(u & s' & -> & Hu & Hs)]; [by split; [by constructor|]|]. split; [|done].
  constructor; [|done]. unfold digit, between in *. apply andb_true_iff in Hu as [Hu1 Hu2].
  apply Z.leb_le in Hu1, Hu2. apply andb_true_iff; split; apply Z.leb_le; lia.
Qed.

Lemma digits_nonneg s : all_digits s → 0 ≤ digits_value s.
Proof.
  induction s as [|u s IH] using rev_ind; [done|]. intros [Hs Hu]%Forall_app. rewrite digits_value_snoc.
  apply Forall_cons_1 in Hu as [Hu _]. unfold digit, between in Hu. apply andb_true_iff in Hu as [Hu _].
  apply Z.leb_le in Hu. specialize (IH Hs). lia.
Qed.

Lemma digits_value_app a b :
  all_digits b → digits_value (a ++ b) = digits_value a * 10 ^ zlen b + digits_value b.
Proof.
  induction b as [|u b IH] using rev_ind; intros Hb.
  - rewrite app_nil_r. change (digits_value []) with 0. change (zlen (@nil Z)) with 0. lia.
  - apply Forall_app in Hb as [Hb _]. rewrite app_assoc, !digits_value_snoc, IH by done.
    rewrite zlen_app. change (zlen [u]) with 1. rewrite Z.pow_add_r by (try apply zlen_nonneg; lia). ring.
Qed.

Lemma digits_bound s : all_digits s → digits_value s < 10 ^ zlen s.
Proof.
  induction s as [|u s IH] using rev_ind; [done|]. intros [Hs Hu]%Forall_app. rewrite digits_value_snoc, zlen_app.
  apply Forall_cons_1 in Hu as [Hu _]. unfold digit, between in Hu. apply andb_true_iff in Hu as [_ Hu].
  apply Z.leb_le in Hu. specialize (IH Hs). change (zlen [u]) with 1.
  rewrite Z.pow_add_r by (try apply zlen_nonneg; lia). lia.
Qed.

Lemma canonical_lower u s : between 0x31 0x39 u = true → all_digits s → 10 ^ zlen s ≤ digits_value (u :: s).
Proof.
  intros Hu Hs. change (u :: s) with ([u] ++ s). rewrite digits_value_app by done.
  pose proof (digits_nonneg s Hs). apply andb_true_iff in Hu as [Hu _]. apply Z.leb_le in Hu.
  change (digits_value [u]) with (0 * 10 + (u - 0x30)).
  pose proof (Z.pow_pos_nonneg 10 (zlen s) ltac:(lia) (zlen_nonneg s)). nia.
Qed.

Lemma digits_inj s t :
  all_digits s → all_digits t → zlen s = zlen t → digits_value s = digits_value t → s = t.
Proof.
  revert t. induction s as [|u s IH] using rev_ind; intros t Hs Ht Hl Hv.
  - symmetry. apply zlen_0_inv. by rewrite <- Hl.
  - destruct t as [|v t _] using rev_ind; [rewrite zlen_app in Hl; change (zlen [u]) with 1 in Hl; zl|].
    rewrite !zlen_app in Hl. rewrite !digits_value_snoc in Hv.
    change (zlen [u]) with 1 in Hl. change (zlen [v]) with 1 in Hl.
    apply Forall_app in Hs as [Hs Hu]. apply Forall_app in Ht as [Ht Hw].
    apply Forall_cons_1 in Hu as [Hu _]. apply Forall_cons_1 in Hw as [Hw _].
    unfold digit, between in Hu, Hw. rewrite andb_true_iff, !Z.leb_le in Hu, Hw.
    rewrite (IH t); [f_equal; f_equal; lia|done|done|lia|lia].
Qed.

(** Canonical strings with one value are one string. *)
Lemma canonical_inj s t : canonical s → canonical t → digits_value s = digits_value t → s = t.
Proof.
  intros Hs Ht Hv. pose proof (canonical_digits s Hs) as [Hds _]. pose proof (canonical_digits t Ht) as [Hdt _].
  apply digits_inj; [done..| |done].
  assert (∀ a b, canonical a → canonical b → digits_value a = digits_value b → ¬ zlen a < zlen b) as Hno;
    [|pose proof (Hno s t Hs Ht Hv); pose proof (Hno t s Ht Hs (eq_sym Hv)); lia].
  clear. intros a b Ha Hb Hv Hl. pose proof (canonical_digits a Ha) as [Hda Hna].
  destruct Hb as [->|(u & b' & -> & Hu & Hb')].
  - change (zlen (js "0")) with 1 in Hl. destruct a; [done|]. zl.
  - pose proof (canonical_lower u b' Hu Hb') as Hlow. pose proof (digits_bound a Hda) as Hup.
    rewrite zlen_cons in Hl. pose proof (Z.pow_le_mono_r 10 (zlen a) (zlen b') ltac:(lia) ltac:(lia)). lia.
Qed.

Lemma canonical_pretty s : canonical s → s = js (pretty (Z.to_N (digits_value s))).
Proof.
  intros Hs. pose proof (digits_nonneg s (proj1 (canonical_digits s Hs))).
  destruct (pretty_canonical (Z.to_N (digits_value s))) as [Hc Hv].
  apply canonical_inj; [done..|]. rewrite Hv. lia.
Qed.
