(* ===== verification/Channel.v ===== *)
(** * Channel: [channel.ts]

    A WebSocket to the bridge as the byte transport of an HTTP/2 connection: the target label
    in the URL, the handshake, the bounded receive queue and the paced writes.

    A parsed URL is its list of query parameters, in order.  The WebSocket, the clock and the
    reader are the events and observations of the definitions. *)
From S2P Require Import Prelude Errors Text Bytes HpackTables Hpack Frames Flow Stream Connection Framing Regex.
Local Open Scope Z_scope.

Definition PROFILE : jsstring := js "grpc-tunnel.v1".
Definition MAX_QUEUE : Z := 1024 * 1024.

(** ** Target labels *)

Definition label_char (u : Z) : bool := lower u || digit u || one_of "_-" u.

(** [/^[a-z][a-z0-9_-]{0,62}(?![\s\S])/]. *)
Definition TARGET_LABEL : re := Seq (Class lower) (Seq (Many label_char 0 (Some 62%nat)) End_).

(** The query parameters of a URL, [searchParams.getAll] and [searchParams.set]. *)
Abbreviation params := (list (jsstring * jsstring)).

Definition getAll (q : params) (name : jsstring) : list jsstring :=
  map snd (filter (λ p, p.1 = name) q).

Fixpoint params_set (q : params) (name value : jsstring) : params :=
  match q with
  | [] => [(name, value)]
  | (n, v) :: q' =>
      if decide (n = name) then (n, value) :: filter (λ p, p.1 ≠ name) q'
      else (n, v) :: params_set q' name value
  end.

(** The [TypeError]s of this file and of [contracts.ts]; [new URL] throws one as well. *)
Inductive TypeError := TypeErr (message : jsstring).

Definition invalid_label : TypeError := TypeErr (js "Target must be a valid logical label").
Definition repeated_target : TypeError := TypeErr (js "Target query parameter must occur only once").
Definition invalid_url : TypeError := TypeErr (js "Invalid URL").

(** [url] is what [new URL(url)] gives, [None] if it throws. *)
Definition targetLabel (url : option params) (override : option jsstring)
    : result TypeError (option jsstring) :=
  match url with
  | None => Throw invalid_url
  | Some endpoint =>
      match override with
      | Some o => if negb (test TARGET_LABEL o) then Throw invalid_label else Ok (Some o)
      | None =>
          let values := getAll endpoint (js "target") in
          if 1 <? zlen values then Throw repeated_target
          else
            let label := values !! 0%nat in
            match label with
            | Some l => if negb (test TARGET_LABEL l) then Throw invalid_label else Ok (Some l)
            | None => Ok None
            end
      end
  end.

(** What [openChannel] gives to [new WebSocket]: the endpoint and the subprotocols. *)
Definition dial_request (url : option params) (token : jsstring) (target : option jsstring)
    : result TypeError (params * list jsstring) :=
  match targetLabel url target, url with
  | Throw e, _ => Throw e
  | Ok _, None => Throw invalid_url
  | Ok _, Some endpoint =>
      Ok (match target with Some t => params_set endpoint (js "target") t | None => endpoint end,
          if negb (bool_decide (token = [])) then [PROFILE; js "auth." ++ token] else [PROFILE])
  end.

(** ** The handshake *)

Inductive HandshakeEvent :=
| HAbort                       (* the caller's signal *)
| HTimer                       (* five seconds *)
| HOpen (protocol : jsstring)
| HFailed.                     (* [onerror] or [onclose] *)

Record Handshake := mkHandshake {
  hs_promise : option (result ConnectError unit);
  hs_listening : bool;         (* the abort listener is installed *)
  hs_timer : bool;             (* the timer is armed *)
  hs_closed : bool;            (* [ws.close()] was called *)
}.

Definition handshake_new (signal : bool) : Handshake := mkHandshake None signal true false.

(** [resolve] and [reject]: the first one counts. *)
Definition settle_once (p : option (result ConnectError unit)) (r : result ConnectError unit)
    : option (result ConnectError unit) :=
  match p with Some x => Some x | None => Some r end.

Definition opening_canceled : ConnectError := connect_error "Tunnel opening canceled" Code.Canceled.
Definition handshake_timeout : ConnectError :=
  connect_error "Tunnel handshake timed out" Code.Unavailable.
Definition unsupported_profile : ConnectError :=
  connect_error "Unsupported tunnel profile" Code.Unavailable.
Definition handshake_failed : ConnectError :=
  connect_error "Tunnel handshake failed" Code.Unavailable.

(** A listener with [once] is gone after it ran, so is a timer. *)
Definition handshake_step (ev : HandshakeEvent) (h : Handshake) : Handshake :=
  let settle := settle_once (hs_promise h) in
  match ev with
  | HAbort => mkHandshake (settle (Throw opening_canceled)) false false true
  | HTimer => mkHandshake (settle (Throw handshake_timeout)) false false true
  | HOpen protocol =>
      if negb (bool_decide (protocol = PROFILE))
      then mkHandshake (settle (Throw unsupported_profile)) false false true
      else mkHandshake (settle (Ok tt)) false false (hs_closed h)
  | HFailed => mkHandshake (settle (Throw handshake_failed)) false false (hs_closed h)
  end.

(** A listener or a timer runs only while it is installed; a socket that was told to close
    does not open. *)
Definition handshake_enabled (ev : HandshakeEvent) (h : Handshake) : bool :=
  match ev with
  | HAbort => hs_listening h
  | HTimer => hs_timer h
  | HOpen _ => negb (hs_closed h)
  | HFailed => true
  end.

Fixpoint handshake_run (evs : list HandshakeEvent) (h : Handshake) : Handshake :=
  match evs with
  | [] => h
  | ev :: evs' => handshake_run evs' (if handshake_enabled ev h then handshake_step ev h else h)
  end.

(** ** Receiving *)

Inductive SocketData := Binary (data : bytes) | NotBinary.

(** The readable side.  [rx_queue] is the queue of the stream's controller, [rx_reading] whether
    a read is waiting, [rx_read] what reads were given; an error of the controller drops the
    queue. *)
Record Receiver := mkReceiver {
  rx_ended : bool;
  rx_error : option ConnectError;
  rx_queue : list bytes;
  rx_reading : bool;
  rx_read : list bytes;
  rx_closed : bool;            (* [ws.close()] was called *)
}.

Definition receiver_new : Receiver := mkReceiver false None [] false [] false.

Definition queued (q : list bytes) : Z := foldr (λ b n, zlen b + n) 0 q.

(** [controller.desiredSize]: [null] once the stream is errored. *)
Definition desiredSize (r : Receiver) : option Z :=
  match rx_error r with Some _ => None | None => Some (MAX_QUEUE - queued (rx_queue r)) end.

(** [controller.enqueue]: a waiting read is answered at once. *)
Definition rx_enqueue (data : bytes) (r : Receiver) : Receiver :=
  if rx_reading r
  then mkReceiver (rx_ended r) (rx_error r) (rx_queue r) false (rx_read r ++ [data]) (rx_closed r)
  else mkReceiver (rx_ended r) (rx_error r) (rx_queue r ++ [data]) false (rx_read r) (rx_closed r).

Definition rx_fail (message : string) (r : Receiver) : Receiver :=
  if rx_ended r then r
  else mkReceiver true (Some (connect_error message Code.Unavailable)) [] false (rx_read r) true.

Definition onmessage (data : SocketData) (r : Receiver) : Receiver :=
  if rx_ended r then r
  else match data with
       | NotBinary => rx_fail "Non-binary tunnel data" r
       | Binary data =>
           if default 0 (desiredSize r) <? zlen data then rx_fail "Tunnel receive queue exceeded" r
           else rx_enqueue data r
       end.

Inductive ReceiveEvent :=
| RMessage (data : SocketData)
| RClose
| RError
| RRead                        (* the connection reads the next chunk *)
| RCancel.

(** The connection reads one chunk at a time: a read while one is waiting does not occur. *)
Definition receive_step (ev : ReceiveEvent) (r : Receiver) : Receiver :=
  match ev with
  | RMessage data => onmessage data r
  | RClose => rx_fail "Tunnel closed; in-flight calls were not replayed" r
  | RError => rx_fail "Tunnel transport failed" r
  | RRead =>
      if rx_ended r then r
      else match rx_queue r with
           | data :: q => mkReceiver false (rx_error r) q false (rx_read r ++ [data]) (rx_closed r)
           | [] => mkReceiver false (rx_error r) [] true (rx_read r) (rx_closed r)
           end
  | RCancel =>
      mkReceiver true (rx_error r) [] false (rx_read r) true
  end.

Definition receive_run (evs : list ReceiveEvent) : Receiver :=
  fold_left (λ r ev, receive_step ev r) evs receiver_new.

(** ** Sending *)

Definition send_stalled : ConnectError := connect_error "Tunnel send stalled" Code.Unavailable.
Definition tunnel_closed : ConnectError := connect_error "Tunnel closed" Code.Unavailable.

(** What [write] sees when it runs: [Date.now()], [ws.bufferedAmount] and whether
    [ws.readyState] is [OPEN]. *)
Record Poll := mkPoll { p_now : Z; p_buffered : Z; p_open : bool }.

(** What was sent, each chunk with the observation it was sent at, whether the socket was
    closed, and the outcome; no outcome while [write] is asleep. *)
Record Written := mkWritten {
  w_sent : list (bytes * Poll);
  w_closed : bool;
  w_outcome : option (result ConnectError unit);
}.

(** The loop of [write] from [offset]; [until] is the deadline of the chunk it is waiting to
    send, [None] before the chunk's first look. *)
Fixpoint write (data : bytes) (polls : list Poll) (offset : Z) (until : option Z)
    (sent : list (bytes * Poll)) : Written :=
  if zlen data <=? offset then mkWritten sent false (Some (Ok tt))
  else
    match polls with
    | [] => mkWritten sent false None
    | p :: polls' =>
        let until := default (p_now p + 30000) until in
        if (65536 <? p_buffered p) && p_open p then
          if until <? p_now p then mkWritten sent true (Some (Throw send_stalled))
          else write data polls' offset (Some until) sent
        else if negb (p_open p) then mkWritten sent false (Some (Throw tunnel_closed))
        else write data polls' (offset + 16384) None
               (sent ++ [(subarray data offset (offset + 16384), p)])
    end.

(** ** The connection that is opened *)

Definition channel_options : ConnectOptions :=
  mkOptions None (Some false) (Some 65535) None (Some 262144) None.
