(* ===== verification/ChannelCorrect.v ===== *)
(** * ChannelCorrect: labels, the handshake, the receive queue and paced writes *)
From S2P Require Import Prelude Errors Text Bytes HpackTables Hpack Frames Flow Stream Connection Framing Regex Channel.
Local Open Scope Z_scope.

(** ** Labels *)

Lemma target_label_spec s :
  test TARGET_LABEL s = true ↔
  ∃ c r, s = c :: r ∧ lower c = true ∧ Forall (λ u, label_char u = true) r ∧ zlen r ≤ 62.
Proof.
  rewrite test_spec. unfold TARGET_LABEL. cbn [parses]. split.
  - intros (a & rest & g & -> & a1 & a2 & g1 & g2 & -> & -> & (c & -> & Hc & ->) &
            a3 & a4 & g3 & g4 & -> & -> & (Hf & _ & Hh & ->) & -> & -> & ->).
    exists c, a3. rewrite !app_nil_r. unfold zlen. split_and!; [done..|lia].
  - intros (c & r & -> & Hc & Hf & Hl). unfold zlen in Hl.
    exists (c :: r), [], []. rewrite app_nil_r. split; [done|].
    exists [c], r, [], []. split_and!; [done|done|by eauto|].
    exists r, [], [], []. rewrite app_nil_r. split_and!; try done; lia.
Qed.

Lemma getAll_cons n v q name :
  getAll ((n, v) :: q) name = (if decide (n = name) then [v] else []) ++ getAll q name.
Proof. unfold getAll. cbn. by destruct (decide (n = name)). Qed.

Lemma getAll_filtered q name : getAll (filter (λ p, p.1 ≠ name) q) name = [].
Proof.
  induction q as [|[n v] q IH]; [done|]. rewrite filter_cons.
  destruct (decide _) as [H|H]; [|done]. rewrite getAll_cons. cbn in H.
  by destruct (decide (n = name)).
Qed.

Lemma getAll_set q name value : getAll (params_set q name value) name = [value].
Proof.
  induction q as [|[n v] q IH]; cbn [params_set].
  - rewrite getAll_cons. by destruct (decide _).
  - destruct (decide (n = name)) as [->|H]; rewrite getAll_cons.
    + destruct (decide _); [|done]. by rewrite getAll_filtered.
    + by destruct (decide (n = name)).
Qed.

Lemma targetLabel_ok q target label :
  targetLabel (Some q) target = Ok label →
  match target with Some t => label = Some t
  | None => getAll q (js "target") = option_list label end ∧
  ∀ l, label = Some l → test TARGET_LABEL l = true.
Proof.
  unfold targetLabel. destruct target as [t|].
  - destruct (test TARGET_LABEL t) eqn:E; intros [= <-]. split; [done|]. by intros l [= <-].
  - destruct (getAll q (js "target")) as [|l [|l' ls]]; cbv beta zeta.
    + cbn. by intros [= <-].
    + change (1 <? zlen [l]) with false. cbn. destruct (test TARGET_LABEL l) eqn:E; intros [= <-]. split; [done|]. by intros ? [= <-].
    + replace (1 <? zlen (l :: l' :: ls)) with true by (symmetry; apply Z.ltb_lt; zl). done.
Qed.

Lemma getAll_set_other q name value other :
  other ≠ name → getAll (params_set q name value) other = getAll q other.
Proof.
  intros Ho. assert (∀ q, getAll (filter (λ p, p.1 ≠ name) q) other = getAll q other) as Hf.
  { clear q. induction q as [|[n v] q IH]; [done|]. rewrite filter_cons, getAll_cons.
    destruct (decide _) as [H|H]; cbn in H; [by rewrite getAll_cons, IH|].
    rewrite decide_False; [done|]. destruct (decide (n = name)); naive_solver. }
  induction q as [|[n v] q IH]; cbn [params_set].
  - rewrite getAll_cons. by rewrite decide_False.
  - destruct (decide (n = name)) as [->|H]; rewrite !getAll_cons; [|by rewrite IH].
    by rewrite Hf, !decide_False.
Qed.

(** The socket is opened with at most one [target] parameter, which is the label that
    [targetLabel] selected, and that label is a lower-case letter followed by at most 62
    letters, digits, [_] or [-]; every other parameter of the URL is left in place. *)
Theorem dialed_label url token target endpoint protocols :
  dial_request url token target = Ok (endpoint, protocols) →
  ∃ label, targetLabel url target = Ok label ∧
    getAll endpoint (js "target") = option_list label ∧
    (∀ name, name ≠ js "target" → getAll endpoint name = getAll (default [] url) name) ∧
    ∀ l, label = Some l → ∃ c r, l = c :: r ∧ lower c = true ∧
      Forall (λ u, label_char u = true) r ∧ zlen r ≤ 62.
Proof.
  unfold dial_request. destruct url as [q|]; [|by destruct (targetLabel _ _)].
  destruct (targetLabel (Some q) target) as [label|] eqn:E; [|done]. intros [= <- <-].
  exists label. apply targetLabel_ok in E as [Hl Hok]. split_and!; [done|..].
  - destruct target as [t|]; [|done]. rewrite getAll_set. by rewrite Hl.
  - intros name Hn. destruct target as [t|]; [|done]. by apply getAll_set_other.
  - intros l Hll. by apply target_label_spec, Hok.
Qed.

Lemma dialed_label_witness :
  ∃ label, targetLabel (Some [(js "a", js "1"); (js "target", js "Bad")]) (Some (js "orders-v2")) = Ok label ∧
    getAll [(js "a", js "1"); (js "target", js "orders-v2")] (js "target") = option_list label.
Proof.
  destruct (dialed_label (Some [(js "a", js "1"); (js "target", js "Bad")]) [] (Some (js "orders-v2"))
    [(js "a", js "1"); (js "target", js "orders-v2")] [PROFILE]) as (l & H & Hg & _);
    [vm_compute; reflexivity|eauto].
Defined.

(** ** The handshake *)

Definition handshake_ok (h : Handshake) : Prop :=
  match hs_promise h with
  | None => hs_timer h = true ∧ hs_closed h = false
  | Some _ => hs_listening h = false ∧ hs_timer h = false
  end.

Lemma handshake_ok_step ev h :
  handshake_ok h → handshake_enabled ev h = true → handshake_ok (handshake_step ev h).
Proof.
  unfold handshake_ok, handshake_step. destruct ev; try (by destruct (hs_promise h)).
  destruct (negb _); by destruct (hs_promise h).
Qed.

Lemma handshake_ok_run evs h : handshake_ok h → handshake_ok (handshake_run evs h).
Proof.
  revert h. induction evs as [|ev evs IH]; intros h H; [done|]. cbn. apply IH.
  destruct (handshake_enabled ev h) eqn:E; [|done]. by apply handshake_ok_step.
Qed.

(** A settled handshake only waits for the socket to close. *)
Lemma handshake_settled evs h r :
  hs_promise h = Some r → hs_promise (handshake_run evs h) = Some r.
Proof.
  revert h. induction evs as [|ev evs IH]; intros h H; [done|]. cbn. apply IH.
  destruct (handshake_enabled ev h); [|done]. unfold handshake_step.
  destruct ev; cbn; rewrite ?H; try done. by destruct (negb _).
Qed.

Definition event_outcome (ev : HandshakeEvent) : result ConnectError unit :=
  match ev with
  | HAbort => Throw opening_canceled
  | HTimer => Throw handshake_timeout
  | HOpen protocol =>
      if bool_decide (protocol = PROFILE) then Ok tt else Throw unsupported_profile
  | HFailed => Throw handshake_failed
  end.

(** The first event that is listened to settles the handshake for good: it succeeds only
    when the server chose the tunnel's profile, and otherwise the socket failed by itself or was
    told to close; afterwards neither the timer nor the abort listener is left behind. *)
Theorem handshake_outcome signal ev evs :
  handshake_enabled ev (handshake_new signal) = true →
  let h := handshake_run (ev :: evs) (handshake_new signal) in
  hs_promise h = Some (event_outcome ev) ∧ hs_listening h = false ∧ hs_timer h = false ∧
  (event_outcome ev ≠ Ok tt → ev = HFailed ∨ hs_closed h = true).
Proof.
  intros He h. subst h. cbn [handshake_run]. rewrite He.
  set (h1 := handshake_step ev (handshake_new signal)).
  assert (hs_promise h1 = Some (event_outcome ev)) as Hp.
  { subst h1. destruct ev; cbn; try done. by destruct (bool_decide _). }
  pose proof (handshake_ok_run evs h1) as Hok. unfold handshake_ok in Hok.
  rewrite (handshake_settled evs h1 _ Hp), Hp in Hok.
  destruct Hok as [Hl Ht].
  { subst h1. destruct ev; cbn; try done. by destruct (negb _). }
  split_and!; [by apply handshake_settled|done|done|]. intros Hne.
  assert (ev = HFailed ∨ hs_closed h1 = true) as [|Hc]; [|by left|right].
  { subst h1. destruct ev; cbn in *; auto. by destruct (bool_decide _); auto. }
  clearbody h1. clear -Hc. revert h1 Hc. induction evs as [|e evs IH]; intros h Hc; [done|].
  cbn. apply IH. destruct (handshake_enabled e h) eqn:E; [|done].
  destruct e; cbn in *; try done. by rewrite Hc in E.
Qed.

Lemma handshake_outcome_witness :
  hs_promise (handshake_run [HOpen (js "other"); HAbort; HFailed] (handshake_new true))
  = Some (Throw unsupported_profile).
Proof.
  apply (handshake_outcome true (HOpen (js "other")) [HAbort; HFailed]). reflexivity.
Defined.

(** ** Receiving *)

(** The binary messages among the events. *)
Definition messages_of (evs : list ReceiveEvent) : list bytes :=
  omap (λ ev, match ev with RMessage (Binary b) => Some b | _ => None end) evs.

Lemma queued_app q b : queued (q ++ [b]) = queued q + zlen b.
Proof. induction q as [|x q IH]; cbn [queued foldr app]; [lia|]. fold (queued q) (queued (q ++ [b])). lia. Qed.
Lemma queued_cons b q : queued (b :: q) = zlen b + queued q.
Proof. done. Qed.
Lemma queued_nonneg q : 0 ≤ queued q.
Proof. induction q as [|b q IH]; [done|]. rewrite queued_cons. zl. Qed.

(** The state of the receiver after some events, in terms of the messages [l] they brought. *)
Record receiver_ok (l : list bytes) (r : Receiver) : Prop := mkReceiverOk {
  rok_bound : queued (rx_queue r) ≤ MAX_QUEUE;
  rok_prefix : rx_read r ++ rx_queue r `prefix_of` l;
  rok_whole : rx_ended r = false → l = rx_read r ++ rx_queue r;
  rok_reading : rx_reading r = true → rx_queue r = [];
  rok_ended : rx_ended r = true → rx_queue r = [] ∧ rx_closed r = true;
  rok_error : is_Some (rx_error r) → rx_ended r = true;
}.

Lemma prefix_read {A} (a b l : list A) : a ++ b `prefix_of` l → a ++ [] `prefix_of` l.
Proof. rewrite app_nil_r. by apply prefix_app_l. Qed.

Lemma receiver_ended l r e :
  receiver_ok l r → receiver_ok l (mkReceiver true e [] false (rx_read r) true).
Proof.
  intros [? Hp ? ? ? ?]. split; cbn; try done. by eapply prefix_read.
Qed.

Lemma receiver_fail l r m : receiver_ok l r → receiver_ok l (rx_fail m r).
Proof. intros H. unfold rx_fail. destruct (rx_ended r); [done|by apply receiver_ended]. Qed.

Lemma receiver_extend l r b :
  receiver_ok l r → rx_ended r = true → receiver_ok (l ++ b) r.
Proof.
  intros [? Hp ? ? ? ?] He. split; try done; [by apply prefix_app_r|congruence].
Qed.

Lemma receiver_more l r b :
  receiver_ok l r → rx_ended r = false → queued (rx_queue r) + zlen b ≤ MAX_QUEUE →
  receiver_ok (l ++ [b]) (rx_enqueue b r).
Proof.
  intros [? Hp Hw Hr ? He] Hn Hq. rewrite (Hw Hn) in *. unfold rx_enqueue.
  destruct (rx_reading r); split; cbn; try done; try (rewrite Hn; done).
  - by rewrite (Hr eq_refl), !app_nil_r.
  - by rewrite (Hr eq_refl), !app_nil_r.
  - by rewrite queued_app.
  - by rewrite app_assoc.
  - by rewrite app_assoc.
Qed.

Lemma receiver_step l r ev :
  receiver_ok l r → receiver_ok (l ++ messages_of [ev]) (receive_step ev r).
Proof.
  intros H. destruct ev as [data| | | |]; unfold messages_of; cbn [omap list_omap]; rewrite ?app_nil_r.
  - unfold receive_step, onmessage. destruct (rx_ended r) eqn:E; [by apply receiver_extend|].
    destruct data as [b|]; [|cbn; rewrite app_nil_r; by apply receiver_fail]. cbn [list_omap].
    assert (desiredSize r = Some (MAX_QUEUE - queued (rx_queue r))) as ->.
    { unfold desiredSize. destruct (rx_error r) eqn:Er; [|done].
      rewrite (rok_error _ _ H) in E by by rewrite Er. done. }
    unfold default, Datatypes.id. destruct (Z.ltb_spec (MAX_QUEUE - queued (rx_queue r)) (zlen b)).
    + apply receiver_extend; [by apply receiver_fail|]. unfold rx_fail. by rewrite E.
    + apply receiver_more; [done..|lia].
  - by apply receiver_fail.
  - by apply receiver_fail.
  - unfold receive_step. destruct (rx_ended r) eqn:E; [done|].
    destruct H as [Hb Hp Hw Hr _ He]. rewrite (Hw E) in *. destruct (rx_queue r) as [|b q] eqn:Hq.
    + split; cbn; try done. intros Hs. by rewrite He in E.
    + rewrite queued_cons in Hb. pose proof (zlen_nonneg b).
      split; cbn [rx_queue rx_read rx_ended rx_reading rx_closed rx_error]; try done;
        [lia|by rewrite <- app_assoc|by rewrite <- app_assoc|].
      intros Hs. by rewrite He in E.
  - by apply receiver_ended.
Qed.

Lemma receiver_run evs : receiver_ok (messages_of evs) (receive_run evs).
Proof.
  unfold receive_run. induction evs as [|ev evs IH] using rev_ind.
  - by split; cbn; try done; try intros [? [=]].
  - rewrite fold_left_app. cbn [fold_left]. unfold messages_of in *. rewrite omap_app.
    by apply receiver_step.
Qed.

(** C30: whatever the socket and the reader do, the receive queue never holds more than 1 MiB;
    while the channel is open, what was read followed by what is queued is exactly the sequence
    of messages that arrived; once it has ended, what was read is a prefix of it, nothing stays
    queued and the socket has been told to close. *)
Theorem receive_in_order evs :
  let r := receive_run evs in
  queued (rx_queue r) ≤ MAX_QUEUE ∧
  (rx_ended r = false → rx_read r ++ rx_queue r = messages_of evs) ∧
  (rx_ended r = true →
     rx_read r `prefix_of` messages_of evs ∧ rx_queue r = [] ∧ rx_closed r = true).
Proof.
  intros r. destruct (receiver_run evs) as [Hb Hp Hw _ He _]. fold r in Hb, Hp, Hw, He.
  split_and!; [done|by intros ?%Hw|]. intros E. destruct (He E) as [Hq ?].
  rewrite Hq, app_nil_r in Hp. done.
Qed.

(** ** Sending *)

Definition sent_bytes (l : list (bytes * Poll)) : bytes := concat (map fst l).

(** A chunk that may be sent at [p]. *)
Definition paced (x : bytes * Poll) : Prop :=
  0 < zlen x.1 ≤ 16384 ∧ p_open x.2 = true ∧ p_buffered x.2 ≤ 65536.

(** What holds of [write] whenever it returns or sleeps; [P] are all the observations. *)
Record written_ok (data : bytes) (P : list Poll) (w : Written) : Prop := mkWrittenOk {
  wok_prefix : sent_bytes (w_sent w) `prefix_of` data;
  wok_paced : Forall paced (w_sent w);
  wok_done : w_outcome w = Some (Ok tt) → sent_bytes (w_sent w) = data ∧ w_closed w = false;
  wok_error : ∀ e, w_outcome w = Some (Throw e) →
    (e = send_stalled ∧ w_closed w = true ∧ ∃ p q, p ∈ P ∧ q ∈ P ∧ p_now p + 30000 < p_now q) ∨
    (e = tunnel_closed ∧ ∃ p, p ∈ P ∧ p_open p = false);
}.

Lemma sent_snoc l b p : sent_bytes (l ++ [(b, p)]) = sent_bytes l ++ b.
Proof. unfold sent_bytes. rewrite map_app, concat_app. cbn. by rewrite app_nil_r. Qed.

Lemma chunk_step data offset :
  0 ≤ offset < zlen data →
  take (Z.to_nat offset) data ++ subarray data offset (offset + 16384)
  = take (Z.to_nat (offset + 16384)) data ∧
  0 < zlen (subarray data offset (offset + 16384)) ≤ 16384.
Proof.
  intros H. rewrite subarray_in by lia. replace (offset + 16384 - offset) with 16384 by lia.
  split; [|zl]. replace (Z.to_nat (offset + 16384)) with (Z.to_nat offset + Z.to_nat 16384)%nat by lia.
  apply take_take_drop.
Qed.

Lemma channel_write_ok data P polls offset until sent :
  (∀ p, p ∈ polls → p ∈ P) →
  (∀ u, until = Some u → ∃ p, p ∈ P ∧ u = p_now p + 30000) →
  0 ≤ offset → sent_bytes sent = take (Z.to_nat offset) data → Forall paced sent →
  written_ok data P (write data polls offset until sent).
Proof.
  revert offset until sent. induction polls as [|p polls IH]; intros offset until sent HP Hu Ho Hs Hf;
    cbn [write]; destruct (Z.leb_spec (zlen data) offset).
  1,3: rewrite take_ge in Hs by (unfold zlen in *; lia);
    split; cbn [w_sent w_outcome w_closed]; try done; by rewrite Hs.
  { split; cbn [w_sent w_outcome w_closed]; try done. rewrite Hs. apply prefix_take. }
  assert (p ∈ P) as Hp by (apply HP; left).
  assert (∃ q, q ∈ P ∧ default (p_now p + 30000) until = p_now q + 30000) as (q & Hq & Hdef).
  { destruct until as [u|]; cbn; [by apply Hu|]. by exists p. }
  rewrite Hdef. destruct (Z.ltb_spec 65536 (p_buffered p)); cbn [andb];
    destruct (p_open p) eqn:Hopen; cbn [negb].
  - destruct (Z.ltb_spec (p_now q + 30000) (p_now p)).
    + split; cbn [w_sent w_outcome w_closed]; try done; [rewrite Hs; apply prefix_take|].
      intros e [= <-]. left. split_and!; [done..|]. by exists q, p.
    + apply IH; try done; [set_solver|]. intros u [= <-]. by exists q.
  - split; cbn [w_sent w_outcome w_closed]; try done; [rewrite Hs; apply prefix_take|].
    intros e [= <-]. right. split; [done|]. by exists p.
  - pose proof (chunk_step data offset ltac:(lia)) as [Hc Hl].
    apply IH; [set_solver|done|lia|by rewrite sent_snoc, Hs|].
    apply Forall_app_2; [done|]. apply Forall_singleton. by split.
  - split; cbn [w_sent w_outcome w_closed]; try done; [rewrite Hs; apply prefix_take|].
    intros e [= <-]. right. split; [done|]. by exists p.
Qed.

(** [write] hands the socket the bytes it was given, in order, in chunks of at most 16384,
    and only while the socket is open and has at most 65536 bytes buffered.  It returns
    normally only after all of them, and otherwise because the socket is not open, or because
    it stayed full for more than 30 s, in which case it is closed. *)
Theorem write_paced data polls :
  let w := write data polls 0 None [] in
  sent_bytes (w_sent w) `prefix_of` data ∧
  Forall (λ x, 0 < zlen x.1 ≤ 16384 ∧ p_open x.2 = true ∧ p_buffered x.2 ≤ 65536) (w_sent w) ∧
  (w_outcome w = Some (Ok tt) → sent_bytes (w_sent w) = data ∧ w_closed w = false) ∧
  (∀ e, w_outcome w = Some (Throw e) →
    (e = send_stalled ∧ w_closed w = true ∧
       ∃ p q, p ∈ polls ∧ q ∈ polls ∧ p_now p + 30000 < p_now q) ∨
    (e = tunnel_closed ∧ ∃ p, p ∈ polls ∧ p_open p = false)).
Proof. by destruct (channel_write_ok data polls polls 0 None []). Qed.

(** A socket that keeps up gets everything: one look per chunk is enough. *)
Lemma write_completes data polls offset sent :
  Forall (λ p, p_open p = true ∧ p_buffered p ≤ 65536) polls →
  zlen data - offset ≤ 16384 * zlen polls →
  w_outcome (write data polls offset None sent) = Some (Ok tt).
Proof.
  revert offset sent. induction polls as [|p polls IH]; intros offset sent Hf Hl; cbn [write];
    destruct (Z.leb_spec (zlen data) offset); try done; [change (zlen (@nil Poll)) with 0 in Hl; lia|].
  apply Forall_cons_1 in Hf as [[Ho Hb] Hf]. rewrite zlen_cons in Hl.
  destruct (Z.ltb_spec 65536 (p_buffered p)); [lia|]. cbn [andb]. rewrite Ho. cbn [negb].
  apply IH; [done|lia].
Qed.

(** The options that [openChannel] gives to [H2Connection] are valid. *)
Lemma channel_connection : ∃ cfg c, connection_new channel_options = Ok (cfg, c).
Proof. do 2 eexists. reflexivity. Qed.
