(* ===== verification/Client.v ===== *)
(** * Client: [client.ts]

    What [createBridgeConnection] configures, one dial of a session, and
    [SharedBridgeConnection], the connection that several users lease together.

    The entries that [this.entry] pointed to live in a store, because acquisitions and leases
    keep referring to an entry after [this.entry] has moved on; each entry holds the state of its
    [RecoveringConnection] ([Recovery]).  An acquisition is named by a number that is also the
    name of its lease.  A step runs from one [await] to the next; the steps of the connections
    are steps of the whole.  [channel.close()] is taken not to reject, so a [close] ends without
    an error of its own. *)
From S2P Require Import Prelude Errors Text HpackTables Hpack Flow Stream Framing Regex Channel Recovery.
Local Open Scope Z_scope.

(** ** Configuration and dialing *)

Record BridgeConnectionOptions := mkBridgeOptions {
  opt_url : option params;                  (* the parsed URL, [None] if it does not parse *)
  opt_target : option jsstring;
  opt_authority : option jsstring;
  opt_scheme : option jsstring;
}.

Record BridgeConfig := mkBridgeConfig {
  bc_label : option jsstring;
  bc_authority : jsstring;
  bc_baseUrl : jsstring;
}.

(** [createBridgeConnection] up to the constructor of the connection. *)
Definition createBridgeConnection (o : BridgeConnectionOptions) : result TypeError BridgeConfig :=
  match targetLabel (opt_url o) (opt_target o) with
  | Throw e => Throw e
  | Ok selectedLabel =>
      let authority :=
        match opt_authority o with
        | Some a => a
        | None => default (js "backend") selectedLabel
        end in
      Ok (mkBridgeConfig selectedLabel authority
            (default (js "http") (opt_scheme o) ++ js "://" ++ authority))
  end.

(** [resolveToken]: a provider is called and awaited. *)
Inductive TokenSource :=
| TokenString (t : jsstring)
| TokenProvider (answer : result exn (option jsstring)).

Definition resolveToken (source : option TokenSource) : result exn (option jsstring) :=
  match source with
  | Some (TokenProvider answer) => answer
  | Some (TokenString t) => Ok (Some t)
  | None => Ok None
  end.

Section dial.
Context {channel transport : Type}.
(** [openChannel] with the token and the label; [createTunnelTransport]; the abort reason that
    [signal.throwIfAborted()] finds; which of two rejections [Promise.all] saw first. *)
Context (openChannel : jsstring → option jsstring → result exn channel).
Context (createTunnelTransport : channel → option jsstring → result exn transport).
Context (aborted : option exn) (backend_first : bool).

(** The callback [dial]: the session or the error, and the channel that was closed again. *)
Definition dial_session (label : option jsstring) (tunnelToken backendBearerToken : option TokenSource)
    : option channel * result exn (channel * transport) :=
  match resolveToken tunnelToken, resolveToken backendBearerToken with
  | Throw e1, Throw e2 => (None, Throw (if backend_first then e2 else e1))
  | Throw e, Ok _ | Ok _, Throw e => (None, Throw e)
  | Ok tunnel, Ok bearer =>
      match aborted with
      | Some e => (None, Throw e)
      | None =>
          match openChannel (default [] tunnel) label with
          | Throw e => (None, Throw e)
          | Ok c =>
              match createTunnelTransport c bearer with
              | Ok t => (None, Ok (c, t))
              | Throw e => (Some c, Throw e)
              end
          end
      end
  end.
End dial.

(** ** The shared connection: state *)

Record SharedEntry := mkEntry { references : Z; connection : Recovery }.

(** Why [acquire] fails: the shared connection is disposed, [createBridgeConnection] threw, or
    [initial] was rejected. *)
Inductive SharedError := EDisposed | ECreate | EInitial.

(** What became of an acquisition: parked at [current.ready]; closing after a failure (with
    the promise it awaits); rejected; a lease that is held; a lease that was released, with the
    promise that [release] returned ([None]: [Promise.resolve()]). *)
Inductive Handle :=
| Waiting (i : nat)
| Failing (i : nat) (p : nat) (e : SharedError)
| Rejected (e : SharedError)
| Leased (i : nat)
| Released (i : nat) (p : option nat).

Record Shared := mkShared {
  store : list SharedEntry;
  entry : option nat;
  disposed : bool;
  disposal : option (list nat);      (* the promises that the promise of [dispose] awaits *)
  closing : list nat;
  promises : list nat;               (* the entry of each promise that [closeEntry] made *)
  handles : gmap nat Handle;
}.

Definition shared_new : Shared := mkShared [] None false None [] [] ∅.

Definition set_handle (t : nat) (h : Handle) (s : Shared) : Shared :=
  mkShared (store s) (entry s) (disposed s) (disposal s) (closing s) (promises s) (<[t := h]> (handles s)).
Definition set_entry (e : option nat) (s : Shared) : Shared :=
  mkShared (store s) e (disposed s) (disposal s) (closing s) (promises s) (handles s).
Definition set_store (l : list SharedEntry) (s : Shared) : Shared :=
  mkShared l (entry s) (disposed s) (disposal s) (closing s) (promises s) (handles s).

Definition add_references (n : Z) (i : nat) (s : Shared) : Shared :=
  set_store (alter (λ e, mkEntry (references e + n) (connection e)) i (store s)) s.
Definition on_connection (f : Recovery → Recovery) (i : nat) (s : Shared) : Shared :=
  set_store (alter (λ e, mkEntry (references e) (f (connection e))) i (store s)) s.

(** The promise of a [close]: settled when the connection has finished closing. *)
Definition finished_at (s : Shared) (i : nat) : bool :=
  match store s !! i with Some e => finished (connection e) | None => false end.
Definition promise_settled (s : Shared) (p : nat) : bool :=
  match promises s !! p with Some i => finished_at s i | None => false end.
Definition disposal_settled (s : Shared) : bool :=
  match disposal s with Some ps => forallb (promise_settled s) ps | None => false end.

(** ** Operations *)

(** [closeEntry]: the new promise is number [length (promises s)]. *)
Definition closeEntry (i : nat) (s : Shared) : Shared :=
  let s := on_connection close_begin i s in
  mkShared (store s) (entry s) (disposed s) (disposal s) (closing s ++ [length (promises s)])
    (promises s ++ [i]) (handles s).

(** [if (this.entry === current) this.entry = undefined]. *)
Definition forget (i : nat) (s : Shared) : Shared :=
  if bool_decide (entry s = Some i) then set_entry None s else s.

(** [acquire] up to [await current.ready].  [created] tells whether [createBridgeConnection]
    returns: it throws for options that it refuses (a retry policy, say), before anything of the
    shared connection has changed. *)
Definition acquire_begin (t : nat) (created : bool) (s : Shared) : Shared :=
  if disposed s then set_handle t (Rejected EDisposed) s
  else if bool_decide (entry s = None) && negb created then set_handle t (Rejected ECreate) s
  else
    let s := match entry s with
             | Some _ => s
             | None => set_entry (Some (length (store s))) (set_store (store s ++ [mkEntry 0 recovery_new]) s)
             end in
    match entry s with
    | Some current => set_handle t (Waiting current) (add_references 1 current s)
    | None => s
    end.

(** The [catch] of [acquire]. *)
Definition acquire_fail (t current : nat) (e : SharedError) (s : Shared) : Shared :=
  let s := forget current (add_references (-1) current s) in
  set_handle t (Failing current (length (promises s)) e) (closeEntry current s).

(** ... and after it, once [ready] has settled. *)
Definition acquire_resume (t : nat) (s : Shared) : Shared :=
  match handles s !! t with
  | Some (Waiting current) =>
      match initial ∘ connection <$> store s !! current with
      | Some InitialReady =>
          if disposed s then acquire_fail t current EDisposed s
          else set_handle t (Leased current) s
      | Some InitialFailed => acquire_fail t current EInitial s
      | _ => s
      end
  | _ => s
  end.

(** The rejection, after [await this.closeEntry(current)]. *)
Definition acquire_reject (t : nat) (s : Shared) : Shared :=
  match handles s !! t with
  | Some (Failing _ _ e) => set_handle t (Rejected e) s
  | _ => s
  end.

Definition references_at (s : Shared) (i : nat) : Z :=
  match store s !! i with Some e => references e | None => 0 end.

(** [lease.release]. *)
Definition release (t : nat) (s : Shared) : Shared :=
  match handles s !! t with
  | Some (Leased current) =>
      let s := add_references (-1) current s in
      if references_at s current =? 0 then
        let s := forget current s in
        set_handle t (Released current (Some (length (promises s)))) (closeEntry current s)
      else set_handle t (Released current None) s
  | _ => s
  end.

Definition dispose (s : Shared) : Shared :=
  match disposal s with
  | Some _ => s
  | None =>
      let e := entry s in
      let s := mkShared (store s) None true (disposal s) (closing s) (promises s) (handles s) in
      let s := match e with Some i => closeEntry i s | None => s end in
      mkShared (store s) (entry s) (disposed s) (Some (closing s)) (closing s) (promises s) (handles s)
  end.

(** [this.closing.delete(closing)], when the promise has settled. *)
Definition forget_promise (p : nat) (s : Shared) : Shared :=
  mkShared (store s) (entry s) (disposed s) (disposal s) (filter (λ q, q ≠ p) (closing s)) (promises s)
    (handles s).

(** ** Steps *)

Inductive SharedEvent :=
| SAcquire (t : nat) (created : bool)
| SResume (t : nat)
| SReject (t : nat)
| SRelease (t : nat)
| SDispose
| SClosed (p : nat)
| SConnection (i : nat) (ev : RecoveryEvent).

(** A handle of the connection is never given out, so only [closeEntry] closes it. *)
Definition not_close (ev : RecoveryEvent) : bool := match ev with VClose => false | _ => true end.

Definition shared_enabled (ev : SharedEvent) (s : Shared) : bool :=
  match ev with
  | SAcquire t _ => bool_decide (handles s !! t = None)
  | SResume t =>
      match handles s !! t with
      | Some (Waiting i) =>
          match initial ∘ connection <$> store s !! i with
          | Some InitialPending | None => false
          | _ => true
          end
      | _ => false
      end
  | SReject t => match handles s !! t with Some (Failing _ p _) => promise_settled s p | _ => false end
  | SRelease t => match handles s !! t with Some (Leased _) | Some (Released _ _) => true | _ => false end
  | SDispose => true
  | SClosed p => promise_settled s p
  | SConnection i ev =>
      not_close ev &&
      match store s !! i with Some e => enabled ev (connection e) | None => false end
  end.

Definition shared_step (ev : SharedEvent) (s : Shared) : Shared :=
  match ev with
  | SAcquire t created => acquire_begin t created s
  | SResume t => acquire_resume t s
  | SReject t => acquire_reject t s
  | SRelease t => release t s
  | SDispose => dispose s
  | SClosed p => forget_promise p s
  | SConnection i ev => on_connection (recovery_step ev) i s
  end.

Inductive shared_reachable : Shared → Prop :=
| shared_start : shared_reachable shared_new
| shared_next s ev :
    shared_reachable s → shared_enabled ev s = true → shared_reachable (shared_step ev s).

(** ** The contract: a pool of users

    Users join the live connection or open one; a user whose opening failed is turned away;
    the connection is closed when its last user leaves, when an opening fails or on disposal.
    There are no counters: "last" is a statement about the other users. *)

Inductive User := Joining (i : nat) | Using (i : nat).

Definition user_group (u : User) : nat := match u with Joining i | Using i => i end.

Record Pool := mkPool {
  users : gmap nat User;
  live : gset nat;                   (* the connections that are not closed *)
  opened_groups : nat;
  over : bool;
}.

Definition pool_new : Pool := mkPool ∅ ∅ 0 false.

(** Nobody but [t] uses connection [i]; and somebody else does. *)
Definition alone (t i : nat) (p : Pool) : Prop :=
  ∀ t' u, users p !! t' = Some u → user_group u = i → t' = t.
Definition accompanied (t i : nat) (p : Pool) : Prop :=
  ∃ t' u, users p !! t' = Some u ∧ user_group u = i ∧ t' ≠ t.

Inductive pool_moves (p : Pool) : Pool → Prop :=
| pool_open t :
    over p = false → live p = ∅ → users p !! t = None →
    pool_moves p (mkPool (<[t := Joining (opened_groups p)]> (users p)) {[opened_groups p]}
                    (S (opened_groups p)) false)
| pool_join t i :
    over p = false → live p = {[i]} → users p !! t = None →
    pool_moves p (mkPool (<[t := Joining i]> (users p)) (live p) (opened_groups p) false)
| pool_admit t i :
    over p = false → i ∈ live p → users p !! t = Some (Joining i) →
    pool_moves p (mkPool (<[t := Using i]> (users p)) (live p) (opened_groups p) false)
| pool_refuse t i :
    users p !! t = Some (Joining i) → (over p = true ∨ ∀ t', users p !! t' ≠ Some (Using i)) →
    pool_moves p (mkPool (delete t (users p)) (live p ∖ {[i]}) (opened_groups p) (over p))
| pool_leave t i :
    users p !! t = Some (Using i) → accompanied t i p →
    pool_moves p (mkPool (delete t (users p)) (live p) (opened_groups p) (over p))
| pool_leave_last t i :
    users p !! t = Some (Using i) → alone t i p →
    pool_moves p (mkPool (delete t (users p)) (live p ∖ {[i]}) (opened_groups p) (over p))
| pool_end :
    pool_moves p (mkPool (users p) ∅ (opened_groups p) true).

Inductive pool_reachable : Pool → Prop :=
| pool_start : pool_reachable pool_new
| pool_next p p' : pool_reachable p → pool_moves p p' → pool_reachable p'.

(** What the shared connection looks like from outside. *)
Definition user_of (h : Handle) : option User :=
  match h with Waiting i => Some (Joining i) | Leased i => Some (Using i) | _ => None end.

Definition closed_at (s : Shared) (i : nat) : bool :=
  match store s !! i with Some e => stopped (connection e) | None => true end.

Definition pool_of (s : Shared) : Pool :=
  mkPool (omap user_of (handles s))
    (list_to_set (filter (λ i, closed_at s i = false) (seq 0 (length (store s)))))
    (length (store s)) (disposed s).
