(* ===== verification/ClientCorrect.v ===== *)
(** * ClientCorrect: the reference count of a shared connection implements a pool of users *)
From Stdlib Require Import QArith.
From S2P Require Import Prelude Errors Text HpackTables Hpack Flow Stream Framing Regex Channel Recovery.
From S2P Require Import RecoveryCorrect Client.
Local Open Scope Z_scope.

(** ** Counting the users of a connection *)

Definition holds (i : nat) (h : Handle) : bool :=
  match user_of h with Some u => bool_decide (user_group u = i) | None => false end.

Definition count (i : nat) (hs : gmap nat Handle) : Z :=
  Z.of_nat (base.size (filter (λ p, holds i p.2 = true) hs)).

Definition held_by (i : nat) (h : option Handle) : Z :=
  match h with Some h => Z.b2z (holds i h) | None => 0 end.

Lemma count_delete i t hs : count i hs = count i (delete t hs) + held_by i (hs !! t).
Proof.
  unfold count, held_by. destruct (hs !! t) as [h|] eqn:E; [|rewrite delete_id by done; lia].
  rewrite map_filter_delete. destruct (holds i h) eqn:Hh; cbn [Z.b2z].
  - assert (filter (λ p, holds i p.2 = true) hs !! t = Some h) as Ht
      by (by apply map_lookup_filter_Some_2).
    rewrite map_size_delete_Some by by rewrite Ht.
    assert (base.size (filter (λ p, holds i p.2 = true) hs) ≠ 0%nat); [|lia].
    intros H0%map_size_empty_iff. by rewrite H0 in Ht.
  - rewrite delete_id; [lia|]. apply map_lookup_filter_None_2. right. intros x. rewrite E.
    intros [= <-]. cbn. congruence.
Qed.

Lemma count_insert i t h hs : count i (<[t := h]> hs) = count i hs - held_by i (hs !! t) + Z.b2z (holds i h).
Proof.
  rewrite (count_delete i t (<[t := h]> hs)), lookup_insert_eq, delete_insert_eq.
  rewrite (count_delete i t hs). cbn [held_by]. lia.
Qed.

Lemma count_0 i hs : count i hs = 0 ↔ ∀ t h, hs !! t = Some h → holds i h = false.
Proof.
  unfold count. split.
  - intros H t h Ht. destruct (holds i h) eqn:E; [|done].
    assert (filter (λ p, holds i p.2 = true) hs = ∅) as H0 by (apply map_size_empty_iff; lia).
    assert (filter (λ p, holds i p.2 = true) hs !! t = Some h) as Hx
      by (by apply map_lookup_filter_Some_2). by rewrite H0 in Hx.
  - intros H. rewrite (proj2 (map_size_empty_iff _)); [done|].
    apply map_empty. intros t. apply map_lookup_filter_None_2. right. intros h Ht. cbn.
    by rewrite (H t h).
Qed.

Lemma count_pos i hs : 0 < count i hs → ∃ t h, hs !! t = Some h ∧ holds i h = true.
Proof.
  intros H. unfold count in H. destruct (map_choose (filter (λ p, holds i p.2 = true) hs)) as (t & h & Ht).
  - intros E. apply map_size_empty_iff in E. lia.
  - apply map_lookup_filter_Some in Ht. eauto.
Qed.

Lemma count_nonneg i hs : 0 ≤ count i hs.
Proof. unfold count. lia. Qed.

Lemma holds_pos i t h hs : hs !! t = Some h → holds i h = true → 0 < count i hs.
Proof.
  intros Ht Hh. pose proof (count_nonneg i hs). destruct (decide (count i hs = 0)) as [H0|]; [|lia].
  rewrite count_0 in H0. by rewrite (H0 t h) in Hh.
Qed.

Lemma holds_refl i h u : user_of h = Some u → user_group u = i → holds i h = true.
Proof. intros E <-. unfold holds. rewrite E. by apply bool_decide_eq_true. Qed.

(** ** What the steps of a connection leave alone *)

Lemma recovery_quiet ev c :
  not_close ev = true →
  stopped (recovery_step ev c) = stopped c ∧
  (initial c ≠ InitialPending → initial (recovery_step ev c) = initial c).
Proof.
  intros H. unfold recovery_step.
  destruct ev; try discriminate H; unfold connect_dialed, connect_failed, channel_gone, lost,
    channel_draining, retry_later, connect_begin, select_begin, select_stop, close_end;
    cbn; repeat case_match; cbn; try (split; congruence); by destruct (initial c).
Qed.

Lemma close_stops c :
  stopped (close_begin c) = true ∧
  initial (close_begin c) = (if stopped c then initial c
     else match initial c with InitialPending => InitialFailed | x => x end).
Proof. unfold close_begin. by destruct (stopped c) eqn:E. Qed.

(** ** The invariant *)

Definition initial_at (s : Shared) (i : nat) : option Initial := initial ∘ connection <$> store s !! i.

Record shared_ok (s : Shared) : Prop := mkSharedOk {
  so_conn : ∀ i e, store s !! i = Some e → recovery_reachable (connection e);
  so_refs : ∀ i e, store s !! i = Some e → references e = count i (handles s);
  so_range : ∀ t h i, handles s !! t = Some h → holds i h = true → (i < length (store s))%nat;
  so_live : ∀ i, closed_at s i = false ↔ entry s = Some i;
  so_leased : ∀ t i, handles s !! t = Some (Leased i) → initial_at s i = Some InitialReady;
  so_open : ∀ t h i, handles s !! t = Some h → holds i h = true → disposed s = false →
    closed_at s i = true → initial_at s i = Some InitialFailed;
  so_disposed : disposed s = true → entry s = None;
}.

(** The current entry has a user. *)
Definition used (s : Shared) : Prop := ∀ i, entry s = Some i → 0 < count i (handles s).

Lemma shared_ok_new : shared_ok shared_new.
Proof. by split. Qed.

(** Changing one entry's connection or count. *)
Lemma store_alter f i s j e :
  alter f i (store s) !! j = Some e →
  ∃ e0, store s !! j = Some e0 ∧ e = if decide (j = i) then f e0 else e0.
Proof.
  rewrite list_lookup_alter. destruct (decide (i = j)) as [->|Hn].
  - intros (e0 & -> & ->)%fmap_Some. exists e0. by rewrite decide_True.
  - intros H. exists e. by rewrite decide_False by congruence.
Qed.

Lemma closed_alter f i s j :
  closed_at (set_store (alter f i (store s)) s) j =
  if decide (j = i) then match store s !! i with Some e => stopped (connection (f e)) | None => true end
  else closed_at s j.
Proof.
  unfold closed_at. cbn. rewrite list_lookup_alter.
  destruct (decide (i = j)) as [->|]; [rewrite decide_True by done; by destruct (store s !! j)|].
  by rewrite decide_False by congruence.
Qed.

Lemma initial_alter f i s j :
  initial_at (set_store (alter f i (store s)) s) j =
  if decide (j = i) then initial ∘ connection ∘ f <$> store s !! i else initial_at s j.
Proof.
  unfold initial_at. cbn. rewrite list_lookup_alter.
  destruct (decide (i = j)) as [->|]; [rewrite decide_True by done; by destruct (store s !! j)|].
  by rewrite decide_False by congruence.
Qed.

(** Closing entry [i], after [n] is added to its count. *)
Definition shut (n : Z) (i : nat) (s : Shared) : Shared :=
  closeEntry i (forget i (add_references n i s)).

Lemma forget_store i s : store (forget i s) = store s.
Proof. unfold forget. by case_match. Qed.
Lemma forget_handles i s : handles (forget i s) = handles s.
Proof. unfold forget. by case_match. Qed.
Lemma forget_disposed i s : disposed (forget i s) = disposed s.
Proof. unfold forget. by case_match. Qed.
Lemma forget_promises i s : promises (forget i s) = promises s.
Proof. unfold forget. by case_match. Qed.
Lemma forget_entry i s j : entry (forget i s) = Some j ↔ entry s = Some j ∧ j ≠ i.
Proof.
  unfold forget. destruct (bool_decide_reflect (entry s = Some i)); cbn; intuition congruence.
Qed.

Definition shut_entry (n : Z) (e : SharedEntry) : SharedEntry :=
  mkEntry (references e + n) (close_begin (connection e)).

Lemma shut_store n i s : store (shut n i s) = alter (shut_entry n) i (store s).
Proof.
  unfold shut, closeEntry. cbn. rewrite forget_store. cbn. apply list_eq. intros j.
  rewrite !list_lookup_alter. destruct (decide (i = j)); [|done].
  rewrite decide_True by done. by destruct (store s !! i).
Qed.

Lemma shut_closed n i s j : closed_at (shut n i s) j = if decide (j = i) then true else closed_at s j.
Proof.
  transitivity (closed_at (set_store (alter (shut_entry n) i (store s)) s) j).
  - unfold closed_at. by rewrite shut_store.
  - rewrite closed_alter. case_decide; [|done]. destruct (store s !! i) as [e|]; [|done].
    apply close_stops.
Qed.

Lemma shut_initial n i s j x :
  initial_at s j = Some x → x ≠ InitialPending → initial_at (shut n i s) j = Some x.
Proof.
  intros Hx Hn. transitivity (initial_at (set_store (alter (shut_entry n) i (store s)) s) j).
  - unfold initial_at. by rewrite shut_store.
  - rewrite initial_alter. case_decide as Hj; [subst j|done]. unfold initial_at in Hx.
    destruct (store s !! i) as [e|]; [|done]. cbn in *. f_equal.
    destruct (close_stops (connection e)) as [_ ->]. simplify_eq/=. by destruct (stopped _), (initial _).
Qed.

Lemma shut_reachable n i s :
  shared_ok s → ∀ j e, store (shut n i s) !! j = Some e → recovery_reachable (connection e).
Proof.
  intros Hs j e He. rewrite shut_store in He. apply store_alter in He as (e0 & H0 & ->).
  pose proof (so_conn s Hs j e0 H0). case_decide; [|done]. by apply (rec_step _ VClose).
Qed.

Lemma shut_handles n i s : handles (shut n i s) = handles s.
Proof. unfold shut, closeEntry. cbn. by rewrite forget_handles. Qed.
Lemma shut_disposed n i s : disposed (shut n i s) = disposed s.
Proof. unfold shut, closeEntry. cbn. by rewrite forget_disposed. Qed.
Lemma shut_current n i s j : entry (shut n i s) = Some j ↔ entry s = Some j ∧ j ≠ i.
Proof. unfold shut, closeEntry. cbn. by rewrite forget_entry. Qed.

(** ** Every step preserves the invariant *)

Lemma holds_user i h h' : user_of h = user_of h' → holds i h = holds i h'.
Proof. unfold holds. by intros ->. Qed.

Lemma holds_inv i j h : holds i h = true → holds j h = true → i = j.
Proof. unfold holds. destruct (user_of h); [|done]. intros <-%bool_decide_eq_true <-%bool_decide_eq_true. done. Qed.

(** A user [t] of [i] goes and the connection is closed: the last one, or one whose opening
    failed, or one that is too late. *)
Lemma ok_shut t h h' i s :
  shared_ok s → handles s !! t = Some h → holds i h = true → user_of h' = None →
  (∀ t1 h1, t1 ≠ t → handles s !! t1 = Some h1 → holds i h1 = true → disposed s = false →
     initial_at s i = Some InitialFailed) →
  shared_ok (set_handle t h' (shut (-1) i s)).
Proof.
  intros Hok Ht Hi Hh' Hothers. assert (∀ j, holds j h' = false) as Hno.
  { intros j. unfold holds. by rewrite Hh'. }
  assert (∀ j, count j (<[t := h']> (handles s)) = count j (handles s) - Z.b2z (holds j h)) as Hc.
  { intros j. rewrite count_insert, Ht, Hno. cbn. lia. }
  assert (∀ j, j ≠ i → holds j h = false) as Hj.
  { intros j Hj. apply not_true_iff_false. intros E. by apply Hj, (holds_inv j i h). }
  pose proof (shut_reachable (-1) i s Hok) as Hre. pose proof (shut_store (-1) i s) as Hst.
  pose proof (shut_initial (-1) i s) as Hini. pose proof (shut_closed (-1) i s) as Hcl.
  pose proof (shut_current (-1) i s) as Hcu. pose proof (shut_handles (-1) i s) as Hha.
  pose proof (shut_disposed (-1) i s) as Hdi. set (X := shut (-1) i s) in *. clearbody X.
  split; unfold set_handle; cbn [store handles entry disposed]; rewrite ?Hha, ?Hdi.
  - done.
  - intros j e. rewrite Hst, Hc. intros (e0 & H0 & ->)%store_alter. pose proof (so_refs s Hok j e0 H0).
    case_decide; cbn; [subst j; rewrite Hi; cbn; lia|rewrite Hj by done; cbn; lia].
  - intros t1 h1 j. rewrite Hst, length_alter.
    intros [[<- <-]|[Hn Hl]]%lookup_insert_Some; [by rewrite Hno|]. by apply (so_range s Hok t1 h1).
  - intros j. change (closed_at X j = false ↔ entry X = Some j).
    rewrite Hcl, Hcu, <- (so_live s Hok j). case_decide; intuition congruence.
  - intros t1 j [[<- ->]|[Hn Hl]]%lookup_insert_Some; [done|].
    apply Hini; [by apply (so_leased s Hok t1)|done].
  - intros t1 h1 j [[<- <-]|[Hn Hl]]%lookup_insert_Some; [by rewrite Hno|].
    intros Hh1 Hd Hx. apply Hini; [|done]. change (closed_at X j = true) in Hx. rewrite Hcl in Hx.
    case_decide; [subst j; by apply (Hothers t1 h1)|by apply (so_open s Hok t1 h1)].
  - intros Hd%(so_disposed s Hok). apply eq_None_ne_Some_2. intros j [E _]%Hcu. congruence.
Qed.

Lemma used_shut t h h' i s :
  used s → handles s !! t = Some h → holds i h = true → user_of h' = None →
  used (set_handle t h' (shut (-1) i s)).
Proof.
  intros Hu Ht Hi Hh' j [He Hn]%shut_current. cbn [set_handle handles].
  rewrite shut_handles, count_insert, Ht. pose proof (Hu j He). cbn [held_by].
  destruct (holds j h) eqn:E; [by destruct Hn; apply (holds_inv j i h)|].
  unfold holds. rewrite Hh'. cbn. lia.
Qed.

(** A handle changes and no connection does. *)
Lemma ok_handle t h' s s' :
  shared_ok s → handles s' = <[t := h']> (handles s) → entry s' = entry s → disposed s' = disposed s →
  length (store s') = length (store s) →
  (∀ j e, store s' !! j = Some e → ∃ e0, store s !! j = Some e0 ∧ connection e = connection e0 ∧
     references e = references e0 + count j (handles s') - count j (handles s)) →
  (∀ j, closed_at s' j = closed_at s j) → (∀ j, initial_at s' j = initial_at s j) →
  (∀ j, h' = Leased j → initial_at s j = Some InitialReady) →
  (∀ j, holds j h' = true → (j < length (store s))%nat ∧
     (disposed s = false → closed_at s j = true → initial_at s j = Some InitialFailed)) →
  shared_ok s'.
Proof.
  intros Hok Hh He Hd Hlen Hst Hcl Hin Hle Hho. split.
  - intros j e (e0 & H0 & -> & _)%Hst. by apply (so_conn s Hok j).
  - intros j e (e0 & H0 & _ & ->)%Hst. rewrite (so_refs s Hok j e0 H0). lia.
  - intros t1 h1 j. rewrite Hh, Hlen. intros [[<- <-]|[Hn Hl]]%lookup_insert_Some H1; [by apply Hho|].
    by apply (so_range s Hok t1 h1).
  - intros j. rewrite Hcl, He. apply (so_live s Hok).
  - intros t1 j. rewrite Hh, Hin. intros [[<- ->]|[Hn Hl]]%lookup_insert_Some; [by apply Hle|].
    by apply (so_leased s Hok t1).
  - intros t1 h1 j. rewrite Hh, Hin, Hd, Hcl. intros [[<- <-]|[Hn Hl]]%lookup_insert_Some H1; [by apply Hho|].
    by apply (so_open s Hok t1 h1).
  - rewrite He, Hd. apply (so_disposed s Hok).
Qed.

Lemma set_handle_ok t h' s :
  shared_ok s → (∀ j, holds j h' = true → holds j (default (Rejected EInitial) (handles s !! t)) = true) →
  (∀ j, count j (<[t := h']> (handles s)) = count j (handles s)) →
  (∀ j, h' = Leased j → initial_at s j = Some InitialReady) → shared_ok (set_handle t h' s).
Proof.
  intros Hok Hold Hc Hle. apply (ok_handle t h' s); try done.
  - intros j e He. exists e. cbn [handles set_handle]. rewrite Hc. split_and!; [done|done|lia].
  - intros j Hj. apply Hold in Hj. destruct (handles s !! t) as [h|] eqn:Ht; [|done]. cbn in Hj.
    split; [by apply (so_range s Hok t h)|]. by apply (so_open s Hok t h).
Qed.

Lemma refs_ok t h' i n s :
  shared_ok s → (i < length (store s))%nat →
  (∀ j, count j (<[t := h']> (handles s)) = count j (handles s) + if decide (j = i) then n else 0) →
  (∀ j, h' = Leased j → initial_at s j = Some InitialReady) →
  (∀ j, holds j h' = true → j = i ∧ closed_at s j = false) →
  shared_ok (set_handle t h' (add_references n i s)).
Proof.
  intros Hok Hi Hc Hle Hho. unfold add_references. apply (ok_handle t h' s); try done.
  - cbn. by rewrite length_alter.
  - intros j e (e0 & H0 & ->)%store_alter. exists e0. cbn [handles set_handle set_store].
    rewrite Hc. case_decide; cbn; split_and!; try done; lia.
  - intros j. change (closed_at (set_store (alter (λ e, mkEntry (references e + n) (connection e)) i (store s)) s) j
      = closed_at s j). rewrite closed_alter. by case_decide; [subst|].
  - intros j. change (initial_at (set_store (alter (λ e, mkEntry (references e + n) (connection e)) i (store s)) s) j
      = initial_at s j). rewrite initial_alter. by case_decide; [subst|].
  - intros j [-> Hcl]%Hho. split; [done|]. congruence.
Qed.

Lemma holds_waiting i j : holds j (Waiting i) = bool_decide (i = j).
Proof. done. Qed.
Lemma holds_leased i j : holds j (Leased i) = bool_decide (i = j).
Proof. done. Qed.

(** An entry that nobody uses yet. *)
Definition with_entry (s : Shared) : Shared :=
  match entry s with
  | Some _ => s
  | None => set_entry (Some (length (store s))) (set_store (store s ++ [mkEntry 0 recovery_new]) s)
  end.

Lemma lookup_new s j e :
  (store s ++ [mkEntry 0 recovery_new]) !! j = Some e →
  store s !! j = Some e ∨ j = length (store s) ∧ e = mkEntry 0 recovery_new.
Proof.
  intros [?|[Hj H]]%lookup_app_Some; [by left|right]. apply list_lookup_singleton_Some in H as [? <-].
  split; [lia|done].
Qed.

Lemma with_entry_ok s : shared_ok s → disposed s = false → shared_ok (with_entry s).
Proof.
  intros Hok Hd. unfold with_entry. destruct (entry s) as [i|] eqn:He; [done|].
  assert (∀ j, (j < length (store s))%nat → (store s ++ [mkEntry 0 recovery_new]) !! j = store s !! j) as Hold.
  { intros j. apply lookup_app_l. }
  split; cbn [store entry handles disposed set_entry set_store].
  - intros j e [H|[_ ->]]%lookup_new; [by apply (so_conn s Hok j)|constructor].
  - intros j e [H|[-> ->]]%lookup_new; [by apply (so_refs s Hok j)|]. cbn. symmetry. apply count_0.
    intros t h Ht. apply not_true_iff_false. intros H. pose proof (so_range s Hok t h _ Ht H). lia.
  - intros t h j Ht Hj. rewrite length_app. pose proof (so_range s Hok t h j Ht Hj). lia.
  - intros j. unfold closed_at. cbn. pose proof (so_live s Hok j) as Hl. rewrite He in Hl. unfold closed_at in Hl.
    destruct (decide (j < length (store s))%nat) as [Hj|Hj].
    + rewrite Hold by done. split; [intros H; by apply Hl in H|]. intros [= <-]. lia.
    + destruct (decide (j = length (store s))) as [->|].
      * rewrite lookup_app_r, Nat.sub_diag by done. done.
      * rewrite lookup_ge_None_2 by (rewrite length_app; cbn; lia). split; [done|congruence].
  - intros t j Ht. unfold initial_at. cbn. rewrite Hold; [by apply (so_leased s Hok t)|].
    apply (so_range s Hok t (Leased j)); [done|]. by rewrite holds_leased, bool_decide_eq_true.
  - intros t h j Ht Hj _. pose proof (so_range s Hok t h j Ht Hj).
    unfold closed_at, initial_at. cbn. rewrite Hold by done. by apply (so_open s Hok t h).
  - congruence.
Qed.

Lemma with_entry_current s : shared_ok s → ∃ i, entry (with_entry s) = Some i ∧ (i < length (store (with_entry s)))%nat.
Proof.
  intros Hok. unfold with_entry. destruct (entry s) as [i|] eqn:He.
  - exists i. split; [done|]. apply (so_live s Hok) in He. unfold closed_at in He.
    destruct (store s !! i) eqn:E; [|done]. by apply lookup_lt_Some in E.
  - eexists. split; [done|]. cbn. rewrite length_app. cbn. lia.
Qed.

(** An acquisition is rejected on the spot, or it parks at the current connection. *)
Lemma acquire_cases t created s :
  (disposed s = true ∨ entry s = None ∧ created = false) ∧
    (∃ e, acquire_begin t created s = set_handle t (Rejected e) s) ∨
  disposed s = false ∧ (entry s ≠ None ∨ created = true) ∧
    ∀ i, entry (with_entry s) = Some i →
      acquire_begin t created s = set_handle t (Waiting i) (add_references 1 i (with_entry s)).
Proof.
  unfold acquire_begin. destruct (disposed s); [left; split; eauto|].
  destruct (bool_decide (entry s = None) && negb created) eqn:E.
  - apply andb_true_iff in E as [He%bool_decide_eq_true Hc%negb_true_iff]. left. split; eauto.
  - right. split_and!; [done| |].
    + apply andb_false_iff in E as [E%bool_decide_eq_false|E%negb_false_iff]; auto.
    + intros i He. fold (with_entry s). by rewrite He.
Qed.

Lemma ok_acquire t created s :
  shared_ok s → handles s !! t = None → shared_ok (acquire_begin t created s).
Proof.
  intros Hok Ht. destruct (acquire_cases t created s) as [[_ [e ->]]|(Hd & _ & Hacq)].
  - apply set_handle_ok; try done. intros j. rewrite count_insert, Ht. cbn. lia.
  - pose proof (with_entry_ok s Hok Hd) as Hw. destruct (with_entry_current s Hok) as (i & He & Hi).
    assert (handles (with_entry s) = handles s) as Hh by (unfold with_entry; by case_match).
    rewrite (Hacq i) by done. apply refs_ok; try done.
    + intros j. rewrite count_insert, Hh, Ht, holds_waiting. cbn [held_by].
      case_decide; case_bool_decide; cbn; (congruence || lia).
    + intros j. rewrite holds_waiting, bool_decide_eq_true. intros <-. split; [done|].
      by apply (so_live _ Hw).
Qed.

Lemma used_acquire t created s :
  shared_ok s → used s → handles s !! t = None → used (acquire_begin t created s).
Proof.
  intros Hok Hu Ht j. destruct (acquire_cases t created s) as [[Hwhy [e ->]]|(Hd & _ & Hacq)].
  - cbn. destruct Hwhy as [Hd|[-> _]]; [by rewrite (so_disposed s Hok Hd)|done].
  - destruct (with_entry_current s Hok) as (i & He & Hi). rewrite (Hacq i) by done.
    cbn [set_handle add_references set_store entry handles]. rewrite He. intros [= <-].
    assert (handles (with_entry s) = handles s) as -> by (unfold with_entry; by case_match).
    rewrite count_insert, Ht, holds_waiting, bool_decide_true by done. cbn.
    pose proof (count_nonneg i (handles s)). lia.
Qed.

Lemma used_same s s' :
  used s → entry s' = entry s → (∀ j, entry s = Some j → count j (handles s') = count j (handles s)) → used s'.
Proof. intros Hu He Hc j. rewrite He. intros Hj. rewrite Hc by done. by apply Hu. Qed.

Lemma used_set_handle t h' s :
  used s → (∀ j, count j (<[t := h']> (handles s)) = count j (handles s)) → used (set_handle t h' s).
Proof. intros Hu Hc. by apply (used_same s). Qed.

Lemma resume_count t i j s :
  handles s !! t = Some (Waiting i) → count j (<[t := Leased i]> (handles s)) = count j (handles s).
Proof. intros Ht. rewrite count_insert, Ht, holds_leased. cbn [held_by]. rewrite holds_waiting. lia. Qed.

Lemma ok_resume t s : shared_ok s ∧ used s → shared_ok (acquire_resume t s) ∧ used (acquire_resume t s).
Proof.
  intros [Hok Hu]. unfold acquire_resume. destruct (handles s !! t) as [[i| | | |]|] eqn:Ht; try done.
  assert (holds i (Waiting i) = true) as Hi by (by apply bool_decide_eq_true).
  fold (initial_at s i). destruct (initial_at s i) as [[| |]|] eqn:Hin; try done.
  - destruct (disposed s) eqn:Hd.
    + split; [apply (ok_shut t (Waiting i) _ i s); try done; congruence|by apply (used_shut t (Waiting i))].
    + split; [|apply used_set_handle; [done|intros j; by apply resume_count]].
      apply set_handle_ok; [done| |intros j; by apply resume_count|].
      * intros j. by rewrite Ht.
      * by intros j [= ->].
  - split; [by apply (ok_shut t (Waiting i) _ i s)|by apply (used_shut t (Waiting i))].
Qed.

Lemma released_references t i s :
  shared_ok s → handles s !! t = Some (Leased i) →
  references_at (add_references (-1) i s) i = count i (handles s) - 1.
Proof.
  intros Hok Ht. unfold references_at. cbn. rewrite list_lookup_alter_eq.
  pose proof (so_leased s Hok t i Ht) as Hin. unfold initial_at in Hin.
  destruct (store s !! i) as [e|] eqn:E; [|done]. cbn. rewrite (so_refs s Hok i e E). lia.
Qed.

Lemma release_alone t i s :
  count i (handles s) - 1 = 0 → handles s !! t = Some (Leased i) →
  ∀ t1 h1, t1 ≠ t → handles s !! t1 = Some h1 → holds i h1 = false.
Proof.
  intros Hc Ht t1 h1 Hn H1. pose proof (count_delete i t (handles s)) as Hd. rewrite Ht in Hd.
  cbn [held_by] in Hd. rewrite holds_leased, bool_decide_true in Hd by done. cbn in Hd.
  apply (proj1 (count_0 i (delete t (handles s)))) with t1; [lia|]. by rewrite lookup_delete_ne.
Qed.

Lemma ok_release t s : shared_ok s ∧ used s → shared_ok (release t s) ∧ used (release t s).
Proof.
  intros [Hok Hu]. unfold release. destruct (handles s !! t) as [[|? ? ?| |i|]|] eqn:Ht; try done.
  assert (holds i (Leased i) = true) as Hi by (by apply bool_decide_eq_true).
  rewrite (released_references t) by done. destruct (Z.eqb_spec (count i (handles s) - 1) 0) as [Hc|Hc].
  - rewrite forget_promises. split; [|by apply (used_shut t (Leased i))].
    apply (ok_shut t (Leased i) _ i s); try done. intros t1 h1 Hn H1 Hh1.
    by rewrite (release_alone t i s Hc Ht t1 h1 Hn H1) in Hh1.
  - assert (∀ j, count j (<[t := Released i None]> (handles s))
      = count j (handles s) + if decide (j = i) then -1 else 0) as Hcount.
    { intros j. rewrite count_insert, Ht. cbn [held_by]. rewrite holds_leased.
      case_decide; case_bool_decide; cbn; (congruence || lia). }
    split.
    + apply refs_ok; try done. by apply (so_range s Hok t (Leased i)).
    + intros j. cbn [set_handle handles entry add_references set_store]. rewrite Hcount. intros He.
      pose proof (Hu j He). pose proof (count_nonneg i (handles s)). case_decide; [subst|]; lia.
Qed.

Lemma ok_reject t s : shared_ok s ∧ used s → shared_ok (acquire_reject t s) ∧ used (acquire_reject t s).
Proof.
  intros [Hok Hu]. unfold acquire_reject. destruct (handles s !! t) as [[| ? ? e| | |]|] eqn:Ht; try done.
  assert (∀ j, count j (<[t := Rejected e]> (handles s)) = count j (handles s)) as Hc.
  { intros j. rewrite count_insert, Ht. cbn. lia. }
  split; [by apply set_handle_ok|by apply used_set_handle].
Qed.

(** [dispose] closes the connection although its users are still there. *)
Lemma dispose_store i s s1 : store s1 = store s → store (closeEntry i s1) = store (shut 0 i s).
Proof.
  intros Hs. rewrite shut_store. cbn. rewrite Hs. apply list_eq. intros j. rewrite !list_lookup_alter.
  case_decide; [|done]. destruct (store s !! i) as [e|]; [|done]. cbn. unfold shut_entry. by rewrite Z.add_0_r.
Qed.

Lemma dispose_fields s :
  disposal s = None →
  entry (dispose s) = None ∧ disposed (dispose s) = true ∧ handles (dispose s) = handles s ∧
  store (dispose s) = match entry s with Some i => store (shut 0 i s) | None => store s end.
Proof.
  intros Hd. unfold dispose. rewrite Hd. destruct (entry s) as [i|] eqn:E; [|done].
  split_and!; [done..|]. by apply (dispose_store i s).
Qed.

Lemma dispose_closed s i : shared_ok s → disposal s = None → closed_at (dispose s) i = true.
Proof.
  intros Hok Hd. destruct (dispose_fields s Hd) as (_ & _ & _ & Hst).
  pose proof (so_live s Hok i) as Hl. destruct (entry s) as [k|] eqn:E.
  - transitivity (closed_at (shut 0 k s) i); [unfold closed_at; by rewrite Hst|].
    rewrite shut_closed. case_decide; [done|]. apply not_false_iff_true. intros [= ?]%Hl. congruence.
  - transitivity (closed_at s i); [unfold closed_at; by rewrite Hst|].
    apply not_false_iff_true. by intros ?%Hl.
Qed.

Lemma dispose_initial s i x :
  disposal s = None → initial_at s i = Some x → x ≠ InitialPending → initial_at (dispose s) i = Some x.
Proof.
  intros Hd Hx Hn. destruct (dispose_fields s Hd) as (_ & _ & _ & Hst). unfold initial_at. rewrite Hst.
  destruct (entry s) as [k|]; [|done]. by apply (shut_initial 0 k s).
Qed.

Lemma ok_dispose s : shared_ok s ∧ used s → shared_ok (dispose s) ∧ used (dispose s).
Proof.
  intros [Hok Hu]. destruct (disposal s) as [ps|] eqn:Hd; [by unfold dispose; rewrite Hd|].
  destruct (dispose_fields s Hd) as (He & Hdi & Hh & Hst).
  assert (∀ j e, store (dispose s) !! j = Some e → ∃ e0, store s !! j = Some e0 ∧
    references e = references e0 ∧ recovery_reachable (connection e)) as Hlook.
  { intros j e. rewrite Hst. destruct (entry s) as [i|].
    - intros H. pose proof (shut_reachable 0 i s Hok j e H) as Hr. rewrite shut_store in H.
      apply store_alter in H as (e0 & H0 & ->). exists e0. case_decide; [cbn; by rewrite Z.add_0_r|done].
    - intros H. exists e. pose proof (so_conn s Hok j e H). done. }
  assert (length (store (dispose s)) = length (store s)) as Hlen.
  { rewrite Hst. destruct (entry s); [|done]. by rewrite shut_store, length_alter. }
  split; [|intros j; by rewrite He]. split; rewrite ?Hh, ?Hlen.
  - intros j e (e0 & _ & _ & H)%Hlook. done.
  - intros j e (e0 & H0 & -> & _)%Hlook. by apply (so_refs s Hok).
  - apply (so_range s Hok).
  - intros j. rewrite dispose_closed, He by done. done.
  - intros t j Ht. apply dispose_initial; [done| |done]. by apply (so_leased s Hok t).
  - congruence.
  - done.
Qed.

Lemma connection_closed i ev s j :
  not_close ev = true → closed_at (on_connection (recovery_step ev) i s) j = closed_at s j.
Proof.
  intros Hev. unfold on_connection. rewrite closed_alter. case_decide; [subst j|done].
  unfold closed_at. destruct (store s !! i) as [e|]; [|done]. by apply recovery_quiet.
Qed.

Lemma connection_initial i ev s j x :
  not_close ev = true → initial_at s j = Some x → x ≠ InitialPending →
  initial_at (on_connection (recovery_step ev) i s) j = Some x.
Proof.
  intros Hev Hx Hn. unfold on_connection. rewrite initial_alter. case_decide; [subst j|done].
  unfold initial_at in Hx. destruct (store s !! i) as [e|]; [|done]. cbn in *. simplify_eq/=.
  f_equal. by apply recovery_quiet.
Qed.

Lemma ok_connection i ev s :
  shared_ok s ∧ used s → shared_enabled (SConnection i ev) s = true →
  shared_ok (on_connection (recovery_step ev) i s) ∧ used (on_connection (recovery_step ev) i s).
Proof.
  intros [Hok Hu] [Hev Hen]%andb_true_iff. split; [|done]. split.
  - intros j e (e0 & H0 & ->)%store_alter. pose proof (so_conn s Hok j e0 H0).
    case_decide; [subst j|done]. cbn. rewrite H0 in Hen. by apply rec_step.
  - intros j e (e0 & H0 & ->)%store_alter. cbn. rewrite <- (so_refs s Hok j e0 H0). by case_decide.
  - intros t h j Ht Hj. cbn. rewrite length_alter. by apply (so_range s Hok t h).
  - intros j. rewrite connection_closed by done. apply (so_live s Hok).
  - intros t j Ht. apply connection_initial; [done| |done]. by apply (so_leased s Hok t).
  - intros t h j Ht Hj Hd. rewrite connection_closed by done. intros Hc.
    apply connection_initial; [done| |done]. by apply (so_open s Hok t h).
  - apply (so_disposed s Hok).
Qed.

Lemma ok_shared_step ev s :
  shared_ok s ∧ used s → shared_enabled ev s = true →
  shared_ok (shared_step ev s) ∧ used (shared_step ev s).
Proof.
  intros H He. destruct ev; cbn [shared_step].
  - apply bool_decide_eq_true in He. destruct H. split; [by apply ok_acquire|by apply used_acquire].
  - by apply ok_resume.
  - by apply ok_reject.
  - by apply ok_release.
  - by apply ok_dispose.
  - by destruct H as [[] ?].
  - by apply ok_connection.
Qed.

Lemma shared_reachable_ok s : shared_reachable s → shared_ok s ∧ used s.
Proof.
  induction 1 as [|s ev _ IH He]; [by split; [apply shared_ok_new|]|by apply ok_shared_step].
Qed.

(** ** The shared connection implements the pool *)

Definition entry_set (e : option nat) : gset nat := match e with Some i => {[i]} | None => ∅ end.

Definition pool_view (s : Shared) : Pool :=
  mkPool (omap user_of (handles s)) (entry_set (entry s)) (length (store s)) (disposed s).

Lemma live_closed s i : i ∈ live (pool_of s) ↔ closed_at s i = false.
Proof.
  cbn. rewrite elem_of_list_to_set, list_elem_of_filter, elem_of_seq.
  split; [by intros [? _]|]. intros H. split; [done|]. unfold closed_at in H. destruct (store s !! i) eqn:E; [|done].
  apply lookup_lt_Some in E. lia.
Qed.

Lemma pool_of_view s : shared_ok s → pool_of s = pool_view s.
Proof.
  intros Hok. unfold pool_of, pool_view. f_equal. apply set_eq. intros i.
  rewrite (live_closed s i), (so_live s Hok i). unfold entry_set. destruct (entry s); set_solver.
Qed.

Lemma entry_set_shut n i s : entry_set (entry (shut n i s)) = entry_set (entry s) ∖ {[i]}.
Proof.
  apply set_eq. intros j. assert (∀ e, j ∈ entry_set e ↔ e = Some j) as H.
  { intros [k|]; cbn; [|set_solver]. rewrite elem_of_singleton. naive_solver. }
  rewrite elem_of_difference, elem_of_singleton, !H. apply shut_current.
Qed.

Lemma pool_shut t h i s :
  user_of h = None →
  pool_view (set_handle t h (shut (-1) i s)) =
  mkPool (delete t (users (pool_view s))) (live (pool_view s) ∖ {[i]}) (length (store s)) (disposed s).
Proof.
  intros Hh. unfold pool_view. cbn [users live set_handle handles entry store disposed].
  rewrite shut_handles, omap_insert, Hh, entry_set_shut, shut_store, length_alter, shut_disposed. done.
Qed.

Lemma view_user s t h u : handles s !! t = Some h → user_of h = Some u → users (pool_view s) !! t = Some u.
Proof. intros Ht Hu. cbn. rewrite lookup_omap, Ht. done. Qed.

Lemma view_inv s t u :
  users (pool_view s) !! t = Some u → ∃ h, handles s !! t = Some h ∧ user_of h = Some u.
Proof. cbn. rewrite lookup_omap. intros (h & ? & ?)%bind_Some. eauto. Qed.

Lemma user_using h i : user_of h = Some (Using i) → h = Leased i.
Proof. destruct h; cbn; congruence. Qed.

(** A change between handles that are not users. *)
Lemma pool_idle t h s :
  user_of h = None → (handles s !! t ≫= user_of) = None → pool_view (set_handle t h s) = pool_view s.
Proof.
  intros Hh Ht. unfold pool_view. cbn. f_equal. rewrite omap_insert, Hh. apply delete_id.
  by rewrite lookup_omap.
Qed.

Definition follows (s s' : Shared) : Prop :=
  pool_view s' = pool_view s ∨ pool_moves (pool_view s) (pool_view s').

Lemma follow_acquire t created s :
  shared_ok s → handles s !! t = None → follows s (acquire_begin t created s).
Proof.
  intros Hok Ht. assert (users (pool_view s) !! t = None) as Hu by (cbn; by rewrite lookup_omap, Ht).
  destruct (acquire_cases t created s) as [[_ [e ->]]|(Hd & _ & Hacq)].
  - left. apply pool_idle; [done|by rewrite Ht].
  - right. destruct (with_entry_current s Hok) as (i & He & Hi).
    rewrite (Hacq i) by done.
    assert (pool_view (set_handle t (Waiting i) (add_references 1 i (with_entry s))) =
      mkPool (<[t := Joining i]> (users (pool_view s))) {[i]} (length (store (with_entry s))) false) as ->.
    { unfold pool_view, add_references. cbn [users set_handle handles entry store disposed set_store].
      rewrite omap_insert, length_alter, He. cbn [user_of entry_set]. rewrite <- Hd.
      unfold with_entry. by destruct (entry s). }
    unfold with_entry in *. destruct (entry s) as [k|] eqn:E.
    + pose proof (pool_join (pool_view s) t k) as H. cbn in H. rewrite E in *. injection He as ->. by apply H.
    + cbn in He. injection He as <-. cbn [store set_entry set_store]. rewrite length_app, Nat.add_1_r.
      apply (pool_open (pool_view s) t); [done| |done]. cbn. by rewrite E.
Qed.

Lemma follow_resume t s : shared_ok s → follows s (acquire_resume t s).
Proof.
  intros Hok. unfold acquire_resume. destruct (handles s !! t) as [[i| | | |]|] eqn:Ht; try by left.
  fold (initial_at s i). pose proof (view_user s t _ _ Ht eq_refl) as Hu.
  assert (holds i (Waiting i) = true) as Hi by (by apply bool_decide_eq_true).
  assert (∀ e, disposed s = true ∨ initial_at s i = Some InitialFailed → follows s (acquire_fail t i e s)) as Hfail.
  { intros e Hwhy. right. unfold acquire_fail. fold (shut (-1) i s). rewrite pool_shut by done.
    apply (pool_refuse (pool_view s)); [done|]. destruct Hwhy as [Hd|Hin]; [by left|right].
    intros t1 H1. apply view_inv in H1 as (h & H1 & ->%user_using).
    rewrite (so_leased s Hok t1 i H1) in Hin. done. }
  destruct (initial_at s i) as [[| |]|] eqn:Hin; try (by left); [|by auto].
  destruct (disposed s) eqn:Hd; [by auto|]. right.
  assert (closed_at s i = false) as Hc.
  { apply not_true_iff_false. intros Hc. pose proof (so_open s Hok t _ i Ht Hi Hd Hc). congruence. }
  apply (so_live s Hok) in Hc.
  assert (pool_view (set_handle t (Leased i) s) = mkPool (<[t := Using i]> (users (pool_view s)))
    (live (pool_view s)) (opened_groups (pool_view s)) false) as ->.
  { unfold pool_view. cbn. by rewrite omap_insert, Hd. }
  apply pool_admit; [done| |done]. cbn. rewrite Hc. set_solver.
Qed.

Lemma alone_count t i s :
  handles s !! t = Some (Leased i) →
  if decide (count i (handles s) - 1 = 0) then alone t i (pool_view s) else accompanied t i (pool_view s).
Proof.
  intros Ht. assert (count i (handles s) = count i (delete t (handles s)) + 1) as Hc.
  { rewrite (count_delete i t), Ht. cbn [held_by]. rewrite holds_leased, bool_decide_true by done. done. }
  case_decide as H0.
  - intros t1 u (h & H1 & Hu)%view_inv Hg. destruct (decide (t1 = t)) as [|Hn]; [done|].
    pose proof (release_alone t i s H0 Ht t1 h Hn H1) as Hf. by rewrite (holds_refl i h u) in Hf.
  - pose proof (count_nonneg i (delete t (handles s))).
    destruct (count_pos i (delete t (handles s))) as (t1 & h & [Hn H1]%lookup_delete_Some & Hh); [lia|].
    unfold holds in Hh. destruct (user_of h) as [u|] eqn:Eu; [|done]. apply bool_decide_eq_true in Hh.
    exists t1, u. split_and!; [by apply (view_user s t1 h)|done|done].
Qed.

Lemma follow_release t s : shared_ok s → follows s (release t s).
Proof.
  intros Hok. unfold release. destruct (handles s !! t) as [[|? ? ?| |i|]|] eqn:Ht; try by left.
  right. rewrite (released_references t) by done. pose proof (alone_count t i s Ht) as Ha.
  pose proof (view_user s t _ _ Ht eq_refl) as Hu.
  destruct (Z.eqb_spec (count i (handles s) - 1) 0) as [Hc|Hc];
    [rewrite decide_True in Ha by done|rewrite decide_False in Ha by done].
  - fold (shut (-1) i s). rewrite pool_shut by done. by apply (pool_leave_last (pool_view s)).
  - assert (pool_view (set_handle t (Released i None) (add_references (-1) i s)) =
      mkPool (delete t (users (pool_view s))) (live (pool_view s)) (opened_groups (pool_view s)) (disposed s)) as ->.
    { unfold pool_view, add_references. cbn. by rewrite omap_insert, length_alter. }
    by apply (pool_leave (pool_view s) t i).
Qed.

Lemma follow_dispose s : shared_ok s → follows s (dispose s).
Proof.
  intros Hok. destruct (disposal s) as [ps|] eqn:Hd; [left; unfold dispose; by rewrite Hd|right].
  destruct (dispose_fields s Hd) as (He & Hdi & Hh & Hst).
  assert (pool_view (dispose s) = mkPool (users (pool_view s)) ∅ (opened_groups (pool_view s)) true) as ->.
  { unfold pool_view. rewrite He, Hdi, Hh, Hst.
    destruct (entry s); [by rewrite shut_store, length_alter|done]. }
  apply pool_end.
Qed.

Lemma shared_follows ev s :
  shared_ok s ∧ used s → shared_enabled ev s = true → follows s (shared_step ev s).
Proof.
  intros [Hok Hu] He. destruct ev; cbn [shared_step].
  - apply bool_decide_eq_true in He. by apply follow_acquire.
  - by apply follow_resume.
  - left. unfold acquire_reject. destruct (handles s !! t) as [[]|] eqn:Ht; try done.
    apply pool_idle; [done|by rewrite Ht].
  - by apply follow_release.
  - by apply follow_dispose.
  - by left.
  - left. unfold pool_view, on_connection. cbn. by rewrite length_alter.
Qed.

(** ** What the pool promises *)

Record pool_ok (p : Pool) : Prop := mkPoolOk {
  po_live : live p = ∅ ∨ ∃ i t u, live p = {[i]} ∧ users p !! t = Some u ∧ user_group u = i;
  po_using : ∀ t i, users p !! t = Some (Using i) → over p = false → i ∈ live p;
  po_over : over p = true → live p = ∅;
  po_fresh : ∀ t u, users p !! t = Some u → (user_group u < opened_groups p)%nat;
  po_range : ∀ i, i ∈ live p → (i < opened_groups p)%nat;
}.

Lemma live_without i (l : gset nat) (t : nat) (us : gmap nat User) :
  (l = ∅ ∨ ∃ j t1 u, l = {[j]} ∧ us !! t1 = Some u ∧ user_group u = j) →
  us !! t = Some (Joining i) ∨ us !! t = Some (Using i) →
  l ∖ {[i]} = ∅ ∨ ∃ j t1 u, l ∖ {[i]} = {[j]} ∧ delete t us !! t1 = Some u ∧ user_group u = j.
Proof.
  intros [->|(j & t1 & u & -> & Hu & Hg)] Ht; [left; set_solver|].
  destruct (decide (j = i)) as [->|Hn]; [left; set_solver|right]. exists j, t1, u.
  split; [set_solver|]. rewrite lookup_delete_ne; [done|]. intros ->.
  destruct Ht as [Ht|Ht]; rewrite Ht in Hu; injection Hu as <-; by apply Hn.
Qed.

(** A user that joins or is admitted. *)
Lemma live_with t u (l : gset nat) (us : gmap nat User) :
  l = {[user_group u]} →
  l = ∅ ∨ ∃ j t1 u1, l = {[j]} ∧ <[t := u]> us !! t1 = Some u1 ∧ user_group u1 = j.
Proof. intros ->. right. exists (user_group u), t, u. by rewrite lookup_insert_eq. Qed.

Lemma pool_moves_live p p' : pool_ok p → pool_moves p p' →
  live p' = ∅ ∨ ∃ i t u, live p' = {[i]} ∧ users p' !! t = Some u ∧ user_group u = i.
Proof.
  intros [Hl _ _ _ _] H. destruct H as [t Ho Hlive Ht|t i Ho Hlive Ht|t i Ho Hi Ht|t i Ht Hwhy
    |t i Ht (t1 & u1 & H1 & Hg1 & Hn1)|t i Ht Hal|]; cbn [live users].
  - by apply live_with.
  - by apply live_with.
  - apply live_with. destruct Hl as [Hl|(j & _ & _ & Hl & _)]; [set_solver|]. rewrite Hl in *. set_solver.
  - apply live_without; auto.
  - destruct Hl as [Hl|(j & t2 & u & Hl & Hu & Hg)]; [by left|right].
    destruct (decide (t2 = t)) as [->|Hn].
    + exists j, t1, u1. rewrite lookup_delete_ne by done. split_and!; [done|done|].
      rewrite Ht in Hu. injection Hu as <-. by rewrite <- Hg.
    + exists j, t2, u. by rewrite lookup_delete_ne by done.
  - apply live_without; auto.
  - by left.
Qed.

Lemma pool_moves_using p p' t1 j : pool_ok p → pool_moves p p' →
  users p' !! t1 = Some (Using j) → over p' = false → j ∈ live p'.
Proof.
  intros [_ Hus _ _ _] H. destruct H as [t Ho Hlive Ht|t i Ho Hlive Ht|t i Ho Hi Ht|t i Ht Hwhy
    |t i Ht _|t i Ht Hal|]; cbn.
  - intros [[_ ?]|[_ H1]]%lookup_insert_Some _; [done|]. specialize (Hus t1 j H1 Ho). set_solver.
  - intros [[_ ?]|[_ H1]]%lookup_insert_Some _; [done|]. by apply (Hus t1).
  - intros [[_ [= ->]]|[_ H1]]%lookup_insert_Some _; [done|]. by apply (Hus t1).
  - intros [_ H1]%lookup_delete_Some Ho. destruct Hwhy as [|Hno]; [congruence|].
    apply elem_of_difference. split; [by apply (Hus t1)|]. intros ->%elem_of_singleton. by apply (Hno t1).
  - intros [_ H1]%lookup_delete_Some. by apply (Hus t1).
  - intros [Hn H1]%lookup_delete_Some Ho. apply elem_of_difference. split; [by apply (Hus t1)|].
    intros ->%elem_of_singleton. by rewrite (Hal t1 (Using i)) in Hn.
  - done.
Qed.

Lemma pool_moves_ok p p' : pool_ok p → pool_moves p p' → pool_ok p'.
Proof.
  intros Hok H. pose proof Hok as [Hl Hus Hov Hfr Hra].
  split; [by apply (pool_moves_live p)|intros t j; by apply (pool_moves_using p)|..];
    destruct H as [t Ho Hlive Ht|t i Ho Hlive Ht|t i Ho Hi Ht|t i Ht Hwhy
    |t i Ht _|t i Ht Hal|]; cbn; try done; try congruence.
  - intros Ho. rewrite (Hov Ho). set_solver.
  - intros Ho. rewrite (Hov Ho). set_solver.
  - intros t1 u [[_ <-]|[_ H1]]%lookup_insert_Some; [cbn; lia|]. specialize (Hfr t1 u H1). lia.
  - intros t1 u [[_ <-]|[_ H1]]%lookup_insert_Some; [cbn; apply Hra; set_solver|by apply (Hfr t1)].
  - intros t1 u [[_ <-]|[_ H1]]%lookup_insert_Some; [cbn; by apply Hra|by apply (Hfr t1)].
  - intros t1 u [_ H1]%lookup_delete_Some. by apply (Hfr t1).
  - intros t1 u [_ H1]%lookup_delete_Some. by apply (Hfr t1).
  - intros t1 u [_ H1]%lookup_delete_Some. by apply (Hfr t1).
  - set_solver by lia.
  - set_solver.
  - set_solver.
Qed.

Lemma pool_reachable_ok p : pool_reachable p → pool_ok p.
Proof.
  induction 1 as [|p p' _ IH H]; [|by apply (pool_moves_ok p)].
  split; cbn; try done; by left.
Qed.

(** ** Theorems *)

Lemma shared_pool s : shared_reachable s → pool_reachable (pool_view s).
Proof.
  induction 1 as [|s ev Hs IH He]; [constructor|].
  destruct (shared_follows ev s (shared_reachable_ok s Hs) He) as [->|H]; [done|].
  by apply (pool_next (pool_view s)).
Qed.

(** C2: [SharedBridgeConnection], with its counters, promises and asynchronous failures,
    implements the pool of users: the pool it shows starts as the empty one, and every step of
    it, of its users or of its connections either does not show or is one of the pool's moves -
    so a connection is opened only for the first user and closed exactly when the last one
    leaves, when its opening failed, or on disposal. *)
Theorem shared_refines_pool :
  pool_of shared_new = pool_new ∧
  ∀ s ev, shared_reachable s → shared_enabled ev s = true →
    (pool_of (shared_step ev s) = pool_of s ∨ pool_moves (pool_of s) (pool_of (shared_step ev s))) ∧
    pool_reachable (pool_of (shared_step ev s)).
Proof.
  split; [done|]. intros s ev Hs He. pose proof (shared_next s ev Hs He) as Hs'.
  rewrite !pool_of_view by (by apply shared_reachable_ok).
  split; [by apply shared_follows; [apply shared_reachable_ok|]|by apply shared_pool].
Qed.

(** C24: the count of an entry is the number of acquisitions and leases that use it.  A
    connection that is not closed is the current one and somebody uses it, so there is at most
    one and none is leaked; and as long as the shared connection is not disposed, a lease that
    was not released has a connection that opened and is not closed, whatever the other users
    did. *)
Theorem shared_lifetime s :
  shared_reachable s →
  (∀ i e, store s !! i = Some e → references e = count i (handles s)) ∧
  (∀ i, closed_at s i = false →
     entry s = Some i ∧ ∃ t, handles s !! t = Some (Waiting i) ∨ handles s !! t = Some (Leased i)) ∧
  (∀ t i, handles s !! t = Some (Leased i) → disposed s = false →
     closed_at s i = false ∧ initial_at s i = Some InitialReady).
Proof.
  intros Hs. destruct (shared_reachable_ok s Hs) as [Hok Hu]. split_and!; [by apply so_refs|..].
  - intros i Hc. assert (entry s = Some i) as He by (by apply (so_live s Hok)). split; [done|].
    destruct (count_pos i (handles s) (Hu i He)) as (t & h & Ht & Hh). exists t.
    unfold holds in Hh. destruct h; cbn in Hh; try done; apply bool_decide_eq_true in Hh as ->; auto.
  - intros t i Ht Hd. pose proof (so_leased s Hok t i Ht) as Hin. split; [|done].
    apply not_true_iff_false. intros Hc.
    rewrite (so_open s Hok t (Leased i) i) in Hin; [done|done| |done|done].
    by apply bool_decide_eq_true.
Qed.

(** Once [dispose] was called, every connection is closed, an acquisition that is parked can
    go on at once (its opening has been cancelled) and ends in a rejection, and a new one is
    rejected on the spot. *)
Theorem dispose_releases s :
  shared_reachable s → disposed s = true →
  (∀ i, closed_at s i = true) ∧
  (∀ t i, handles s !! t = Some (Waiting i) →
     shared_enabled (SResume t) s = true ∧
     ∃ p e, handles (shared_step (SResume t) s) !! t = Some (Failing i p e)) ∧
  ∀ t created, handles (shared_step (SAcquire t created) s) !! t = Some (Rejected EDisposed).
Proof.
  intros Hs Hd. destruct (shared_reachable_ok s Hs) as [Hok Hu].
  assert (∀ i, closed_at s i = true) as Hall.
  { intros i. apply not_false_iff_true. intros H%(so_live s Hok). by rewrite (so_disposed s Hok Hd) in H. }
  split_and!; [done|..].
  - intros t i Ht. pose proof (so_range s Hok t (Waiting i) i Ht) as Hr.
    rewrite holds_waiting, bool_decide_eq_true in Hr. specialize (Hr eq_refl).
    destruct (lookup_lt_is_Some_2 _ _ Hr) as [e He]. pose proof (Hall i) as Hst. unfold closed_at in Hst.
    rewrite He in Hst. pose proof (ok_initial _ (reachable_ok _ (so_conn s Hok i e He)) Hst) as Hin.
    cbn [shared_enabled shared_step]. unfold acquire_resume, acquire_fail. rewrite Ht, He, Hd.
    cbn [fmap option_fmap option_map compose].
    destruct (initial (connection e)); [done|..]; cbn [set_handle handles]; rewrite lookup_insert_eq; eauto.
  - intros t created. cbn [shared_step]. unfold acquire_begin. rewrite Hd. apply lookup_insert_eq.
Qed.

(** ** Witnesses *)

Module Demo.

Definition run (evs : list SharedEvent) : Shared := fold_left (λ s ev, shared_step ev s) evs shared_new.

Fixpoint all_enabled (evs : list SharedEvent) (s : Shared) : bool :=
  match evs with
  | [] => true
  | ev :: evs' => shared_enabled ev s && all_enabled evs' (shared_step ev s)
  end.

Lemma shared_run_from evs s :
  shared_reachable s → all_enabled evs s = true →
  shared_reachable (fold_left (λ s ev, shared_step ev s) evs s).
Proof.
  revert s. induction evs as [|ev evs IH]; intros s Hs H; [done|].
  apply andb_true_iff in H as [He H]. apply IH; [by apply shared_next|done].
Qed.

Lemma shared_run_reachable evs : all_enabled evs shared_new = true → shared_reachable (run evs).
Proof. apply shared_run_from. constructor. Qed.

(** Two users share a connection, and one leaves. *)
Definition sharing : list SharedEvent :=
  [SAcquire 0 true; SConnection 0 VMicrotask; SAcquire 1 true; SConnection 0 VDialed; SResume 0; SResume 1; SRelease 0].
(** ... a third asks while the first connection is closing, and is caught by [dispose]. *)
Definition disposing : list SharedEvent := sharing ++ [SRelease 1; SAcquire 2 true; SDispose].

End Demo.

Lemma shared_lifetime_witness :
  closed_at (Demo.run Demo.sharing) 0 = false ∧ initial_at (Demo.run Demo.sharing) 0 = Some InitialReady.
Proof.
  apply (shared_lifetime (Demo.run Demo.sharing)) with (t := 1%nat);
    [apply Demo.shared_run_reachable; vm_compute; reflexivity|vm_compute; reflexivity|vm_compute; reflexivity].
Defined.

Lemma dispose_releases_witness :
  shared_enabled (SResume 2) (Demo.run Demo.disposing) = true.
Proof.
  apply (dispose_releases (Demo.run Demo.disposing)) with (i := 1%nat);
    [apply Demo.shared_run_reachable; vm_compute; reflexivity|vm_compute; reflexivity|vm_compute; reflexivity].
Defined.

Lemma shared_refines_pool_witness :
  pool_moves (pool_of (Demo.run Demo.sharing)) (pool_of (shared_step (SRelease 1) (Demo.run Demo.sharing))).
Proof.
  destruct (proj2 shared_refines_pool (Demo.run Demo.sharing) (SRelease 1)) as [[H|H] _];
    [apply Demo.shared_run_reachable; vm_compute; reflexivity|vm_compute; reflexivity| |exact H].
  apply (f_equal (λ p, bool_decide (0%nat ∈ live p))) in H. vm_compute in H. discriminate H.
Defined.
