(* ===== verification/Transport.v ===== *)
(** * Transport: [transport.ts]

    One gRPC call over an HTTP/2 connection: the request it sends, how its input becomes the
    upload, when it counts as committed, what it makes of the response, and when its timer and
    listener are removed.

    [Call] is the state of one [start]; [call_step] the pieces of code that run when the caller
    aborts, the deadline passes, the body is pulled or cancelled, the request is answered, and
    the consumer of the messages advances.  Encoding, decoding and [ConnectError.from] belong to
    other libraries and are parameters. *)
From Stdlib Require Import QArith Qround.
From stdpp Require Import pretty.
From S2P Require Import Prelude Errors Text Bytes HpackTables Hpack Frames Flow Stream Connection Framing Retry Regex Sort.
Local Open Scope Z_scope.

(** ** Request headers *)

(** [Headers.set]: the first field of that name gets the value, the others go. *)
Fixpoint headers_set (h : jsobject) (name value : jsstring) : jsobject :=
  match h with
  | [] => [(name, value)]
  | (n, v) :: h' =>
      if decide (toLowerCase n = name) then (n, value) :: headers_delete h' name
      else (n, v) :: headers_set h' name value
  end.

Definition headers_has (h : jsobject) (name : jsstring) : bool := bool_decide (is_Some (headers_get h name)).

(** [Object.fromEntries(headers)]: lower-case names in sorted order, fields of one name
    combined - except [set-cookie], whose entries stay apart, so that the last one is kept. *)
Definition last_value (h : jsobject) (name : jsstring) : option jsstring :=
  match rev (filter (λ kv, toLowerCase (fst kv) = name) h) with
  | kv :: _ => Some (http_trim (snd kv))
  | [] => None
  end.
Definition entry_value (h : jsobject) (name : jsstring) : option jsstring :=
  if decide (name = js "set-cookie") then last_value h name else headers_get h name.

Definition header_names (h : jsobject) : list jsstring :=
  sort_by compare (remove_dups (map (λ kv, toLowerCase kv.1) h)).
Definition fromEntries (h : jsobject) : jsobject :=
  map (λ name, (name, default [] (entry_value h name))) (header_names h).

Definition AUTHORIZATION : jsstring := js "authorization".
Definition CONTENT_TYPE_NAME : jsstring := js "content-type".
Definition GRPC_TIMEOUT : jsstring := js "grpc-timeout".

(** What [new Headers] accepts: a token as the name; no NUL, CR or LF and no character above
    255 in the trimmed value.  [None]: it throws. *)
Definition token_char (u : Z) : bool := lower u || upper u || digit u || one_of "!#$%&'*+-.^_`|~" u.
Definition header_ok (kv : jsstring * jsstring) : bool :=
  negb (bool_decide (kv.1 = [])) && forallb token_char kv.1 &&
  forallb (λ u, (0 <? u) && (u <=? 255) && negb (u =? 10) && negb (u =? 13)) (http_trim kv.2).
Definition headers_new (header : jsobject) : option jsobject :=
  if forallb header_ok header then Some header else None.

(** [new Headers({ authorization: `Bearer ...` }).get("authorization")], in [createTunnelTransport]:
    [None] if it throws. *)
Definition authorization_of (bearerToken : option jsstring) : option (option jsstring) :=
  match bearerToken with
  | None => Some None
  | Some t =>
      if bool_decide (t = []) then Some None
      else match headers_new [(AUTHORIZATION, js "Bearer " ++ t)] with
           | Some headers => Some (headers_get headers AUTHORIZATION)
           | None => None
           end
  end.

(** [timeoutMs !== undefined && timeoutMs > 0]. *)
Definition limited (timeoutMs : option Q) : option Q :=
  match timeoutMs with Some t => if Qle_bool t 0 then None else Some t | None => None end.

Definition timeout_value (t : Q) : Z := Z.min (Qceiling t) 99999999.

(** What follows [new Headers(header)] ([set] does not throw on these names and values). *)
Definition call_headers (authorization : option jsstring) (timeoutMs : option Q) (headers : jsobject) : jsobject :=
  let headers :=
    match authorization with
    | Some a => if headers_has headers AUTHORIZATION then headers else headers_set headers AUTHORIZATION a
    | None => headers
    end in
  let headers := headers_set headers CONTENT_TYPE_NAME (js "application/grpc") in
  let headers := headers_set headers (js "te") (js "trailers") in
  let headers := headers_set headers (js "grpc-accept-encoding") (js "identity") in
  match limited timeoutMs with
  | Some t => headers_set headers GRPC_TIMEOUT (js (pretty (timeout_value t)) ++ js "m")
  | None => headers
  end.

Definition request_headers (authorization : option jsstring) (timeoutMs : option Q) (header : jsobject)
    : option jsobject :=
  match headers_new header with
  | Some headers => Some (call_headers authorization timeoutMs headers)
  | None => None
  end.

(** The options of [createTunnelTransport], and the names of a method. *)
Record TunnelOptions := mkTunnelOptions {
  t_bearerToken : option jsstring;
  t_authority : option jsstring;
  t_scheme : option jsstring;
}.

Definition method_path (typeName name : jsstring) : jsstring := js "/" ++ typeName ++ js "/" ++ name.

(** What [connection.request] is given, if the headers can be made. *)
Definition request_init (o : TunnelOptions) (authorization : option jsstring) (typeName name : jsstring)
    (timeoutMs : option Q) (header : jsobject) : option H2RequestInit :=
  match request_headers authorization timeoutMs header with
  | Some headers =>
      Some (mkInit (Some (js "POST")) (Some (method_path typeName name))
        (Some (default (js "backend") (t_authority o))) (Some (default (js "http") (t_scheme o)))
        (fromEntries headers) BStream)
  | None => None
  end.

(** ** Response headers *)

(** [/^application\/grpc(?:[+;]|$)/i]. *)
Definition GRPC_CONTENT_TYPE : re :=
  literal same_letter (js "application/grpc") (Alt (Class (one_of "+;")) End_).

(** ** Timers *)

(** [setTimeout] converts its delay to a signed 32-bit integer, and takes a negative one as 0. *)
Definition timer_delay (ms : Q) : Z := Z.max 0 (to_int32 (Qfloor ms)).

(** ** A call *)

Definition canceled_error : ConnectError := connect_error "Call canceled" Code.Canceled.
Definition deadline_error : ConnectError := connect_error "Deadline exceeded" Code.DeadlineExceeded.
Definition invalid_content_type : ConnectError := connect_error "Invalid gRPC content type" Code.Unknown.
Definition http_status (status : option Z) : ConnectError :=
  mkConnectError (js "HTTP " ++ match status with Some n => js (pretty n) | None => js "NaN" end)
    Code.Unavailable [].

(** The upload's controller. *)
Inductive Upload := Uploading | UploadClosed | UploadErrored (e : Caught).

(** Where [start] and its generator [messages] are: [start] threw before its [try]; the request is
    pending; [messages] was handed out but not started; it was abandoned then; it is running; the
    [finally] of [messages] or the [catch] of [start] has run. *)
Inductive Phase := NotSent | Requesting | Answered | Dropped | Reading | Over.

#[export] Instance Phase_eq_dec : EqDecision Phase.
Proof. solve_decision. Defined.

Section call.
Context {Message : Type}.
(** [fromBinary(method.output, bytes)]; [ConnectError.from]; [String(error)]; the [reason] of
    [abort()]; the [TypeError] of [Headers]. *)
Context (fromBinary : bytes → result Caught Message).
Context (from : Caught → ConnectError) (text : exn → jsstring) (AbortError HeadersError : exn).

Record Call := mkCall {
  c_abort : option Caught;           (* the reason of [abort.signal] *)
  c_listening : bool;                (* [onAbort] is installed *)
  c_timer : option Z;                (* the deadline timer and its delay *)
  c_committed : bool;
  c_commits : nat;                   (* calls of [commit] of the attempt's context *)
  c_pulling : bool;                  (* [iterator.next()] is awaited *)
  c_inputCanceled : bool;
  c_upload : list bytes;             (* what was enqueued *)
  c_controller : Upload;
  c_phase : Phase;
  c_messages : list Message;         (* what [messages] yielded *)
  c_trailers : jsobject;
  c_outcome : option (result Thrown unit);   (* [start] threw, or [messages] ended *)
}.

Definition abort_reason (reason : Caught) : Caught :=
  match reason with
  | CaughtConnect e => CaughtConnect e
  | CaughtOther _ => CaughtConnect canceled_error
  end.

(** [start] up to [connection.request].  [aborted]: the caller's signal, already aborted;
    [iterator]: what [input[Symbol.asyncIterator]()] throws, if it does; [new Headers(header)] throws
    a [TypeError].  Both come after the listener and the timer were installed, and outside the
    [try], so nothing removes them. *)
Definition headers_thrown : Thrown := mkThrown None None.
Definition not_sent (iterator : result Thrown unit) (header : jsobject) : option Thrown :=
  match iterator with
  | Throw e => Some e
  | Ok _ => match headers_new header with None => Some headers_thrown | Some _ => None end
  end.
Definition listens (signal : bool) (aborted : option Caught) : bool :=
  signal && negb (bool_decide (is_Some aborted)).
Definition call_new (signal : bool) (aborted : option Caught) (timeoutMs : option Q)
    (iterator : result Thrown unit) (header : jsobject) : Call :=
  mkCall (abort_reason <$> aborted) (listens signal aborted) (timer_delay <$> limited timeoutMs)
    false 0 false false [] Uploading
    match not_sent iterator header with Some _ => NotSent | None => Requesting end
    [] [] (Throw <$> not_sent iterator header).

Definition set_abort (r : Caught) (c : Call) : Call :=
  mkCall match c_abort c with Some x => Some x | None => Some r end
    (c_listening c) (c_timer c) (c_committed c) (c_commits c) (c_pulling c) (c_inputCanceled c)
    (c_upload c) (c_controller c) (c_phase c) (c_messages c) (c_trailers c) (c_outcome c).
Definition set_guards (listening : bool) (timer : option Z) (c : Call) : Call :=
  mkCall (c_abort c) listening timer (c_committed c) (c_commits c) (c_pulling c) (c_inputCanceled c)
    (c_upload c) (c_controller c) (c_phase c) (c_messages c) (c_trailers c) (c_outcome c).
Definition set_input (pulling canceled : bool) (upload : list bytes) (u : Upload) (c : Call) : Call :=
  mkCall (c_abort c) (c_listening c) (c_timer c) (c_committed c) (c_commits c) pulling canceled
    upload u (c_phase c) (c_messages c) (c_trailers c) (c_outcome c).
Definition set_phase (p : Phase) (out : option (result Thrown unit)) (c : Call) : Call :=
  mkCall (c_abort c) (c_listening c) (c_timer c) (c_committed c) (c_commits c) (c_pulling c)
    (c_inputCanceled c) (c_upload c) (c_controller c) p (c_messages c) (c_trailers c) out.
Definition set_output (messages : list Message) (trailers : jsobject) (c : Call) : Call :=
  mkCall (c_abort c) (c_listening c) (c_timer c) (c_committed c) (c_commits c) (c_pulling c)
    (c_inputCanceled c) (c_upload c) (c_controller c) (c_phase c) messages trailers (c_outcome c).

(** [committed = true; context?.get(attemptContext)?.commit()]. *)
Definition commit (c : Call) : Call :=
  mkCall (c_abort c) (c_listening c) (c_timer c) true (S (c_commits c)) (c_pulling c)
    (c_inputCanceled c) (c_upload c) (c_controller c) (c_phase c) (c_messages c) (c_trailers c) (c_outcome c).

(** [cleanup(); abort.abort()]. *)
Definition cleanup (c : Call) : Call := set_abort (CaughtOther AbortError) (set_guards false None c).

Definition translate (error : Caught) (c : Call) : Thrown :=
  match c_abort c with
  | Some (CaughtConnect e) => mkThrown (Some e) None
  | Some reason => mkThrown (Some (from reason)) None
  | None => attemptError text error (c_committed c)
  end.

(** The [catch] of [start] and of [messages]. *)
Definition call_fail (error : Caught) (c : Call) : Call :=
  let translated := translate error c in
  set_phase Over (Some (Throw translated)) (cleanup c).

(** *** The upload *)

(** What the [await] of [iterator.next()] gave: a message (encoded, if that succeeded), the end,
    or an exception. *)
Inductive Produced := PValue (encoded : result Caught bytes) | PDone | PRaised (e : Caught).

Definition late (c : Call) : bool := c_inputCanceled c || bool_decide (is_Some (c_abort c)).

Definition pull_failed (error : Caught) (c : Call) : Call :=
  set_abort error (set_input false (c_inputCanceled c) (c_upload c) (UploadErrored error) c).

Definition produced (p : Produced) (c : Call) : Call :=
  if late c then set_input false (c_inputCanceled c) (c_upload c) (c_controller c) c
  else
    match p with
    | PDone => set_input false (c_inputCanceled c) (c_upload c) UploadClosed c
    | PRaised e => pull_failed e c
    | PValue (Throw e) => pull_failed e c
    | PValue (Ok data) =>
        match frame data with
        | Throw e => pull_failed (CaughtConnect e) c
        | Ok record => set_input false (c_inputCanceled c) (c_upload c ++ [record]) (c_controller c) c
        end
    end.

(** *** The response *)

(** What follows the [await] of [connection.request]: the checks of the head, and whether the
    attempt counts as committed before and after them. *)
Definition trailers_only (h : HeadHead) : bool :=
  hh_endStream h && bool_decide (is_Some (obj_get (hh_headers h) (js "grpc-status"))).

Definition head_error (h : HeadHead) : option ConnectError :=
  if negb (bool_decide (status h = Some 200)) then Some (http_status (status h))
  else if negb (test GRPC_CONTENT_TYPE (default [] (obj_get (hh_headers h) CONTENT_TYPE_NAME)))
  then Some invalid_content_type
  else if trailers_only h
  then match validateStatus (hh_headers h) None with Throw e => Some e | Ok _ => None end
  else None.

Definition respond (h : HeadHead) (c : Call) : Call :=
  let c := if negb (trailers_only h) then commit c else c in
  match head_error h with
  | Some e => call_fail (CaughtConnect e) c
  | None =>
      let c := if trailers_only h then commit c else c in
      if forallb header_ok (hh_headers h) then set_phase Answered None c
      else call_fail (CaughtOther HeadersError) c
  end.

(** A record of the body, and its end with the trailers. *)
Definition on_record (data : bytes) (c : Call) : Call :=
  match fromBinary data with
  | Ok m => set_output (c_messages c ++ [m]) (c_trailers c) c
  | Throw e => call_fail e c
  end.

Fixpoint set_trailers (values : jsobject) (trailers : jsobject) : jsobject * bool :=
  match values with
  | [] => (trailers, true)
  | kv :: values' =>
      if header_ok kv then set_trailers values' (headers_set trailers kv.1 (http_trim kv.2))
      else (trailers, false)
  end.

Definition on_body_end (h : HeadHead) (values : option jsobject) (c : Call) : Call :=
  let '(trailers, valid) := set_trailers (default [] values) (c_trailers c) in
  let c := set_output (c_messages c) trailers c in
  if negb valid then call_fail (CaughtOther HeadersError) c
  else match validateStatus (hh_headers h) values with
       | Throw e => call_fail (CaughtConnect e) c
       | Ok _ => set_phase Over (Some (Ok tt)) (cleanup c)
       end.

(** *** Steps *)

Inductive CallEvent :=
| CAbort (reason : Caught)             (* the caller's signal *)
| CDeadline
| CPull                                (* the connection pulls the upload *)
| CProduced (p : Produced)
| CCancelInput                         (* the connection cancels the upload *)
| CResponse (h : HeadHead)
| CRefused (e : Caught)                (* [connection.request] rejected *)
| CNext                                (* the consumer starts [messages] *)
| CRecord (data : bytes)
| CBodyEnd (h : HeadHead) (values : option jsobject)
| CBodyError (e : Caught)
| CReturn.                             (* the consumer stops early *)

Definition call_enabled (ev : CallEvent) (c : Call) : bool :=
  match ev with
  | CAbort _ => c_listening c
  | CDeadline => bool_decide (is_Some (c_timer c))
  | CPull => negb (bool_decide (c_phase c = NotSent)) && negb (c_pulling c) && negb (c_inputCanceled c) &&
             match c_controller c with Uploading => true | _ => false end
  | CProduced _ => c_pulling c
  | CCancelInput => negb (bool_decide (c_phase c = NotSent)) &&
                    match c_controller c with Uploading => negb (c_inputCanceled c) | _ => false end
  | CResponse _ | CRefused _ => bool_decide (c_phase c = Requesting)
  | CNext => bool_decide (c_phase c = Answered)
  | CRecord _ | CBodyEnd _ _ | CBodyError _ => bool_decide (c_phase c = Reading)
  | CReturn => bool_decide (c_phase c = Answered) || bool_decide (c_phase c = Reading)
  end.

(** A generator that was never started runs no [finally]: the guards of a dropped call stay. *)
Definition call_step (ev : CallEvent) (c : Call) : Call :=
  match ev with
  | CAbort reason => set_abort (abort_reason reason) (set_guards false (c_timer c) c)
  | CDeadline => set_abort (CaughtConnect deadline_error) (set_guards (c_listening c) None c)
  | CPull => set_input true (c_inputCanceled c) (c_upload c) (c_controller c) c
  | CProduced p => produced p c
  | CCancelInput => set_input (c_pulling c) true (c_upload c) (c_controller c) c
  | CResponse h => respond h c
  | CRefused e => call_fail e c
  | CNext => set_phase Reading None c
  | CRecord data => on_record data c
  | CBodyEnd h values => on_body_end h values c
  | CBodyError e => call_fail e c
  | CReturn =>
      if decide (c_phase c = Answered) then set_phase Dropped None c
      else set_phase Over None (cleanup c)
  end.

Inductive call_reachable (c0 : Call) : Call → Prop :=
| call_start : call_reachable c0 c0
| call_next c ev : call_reachable c0 c → call_enabled ev c = true → call_reachable c0 (call_step ev c).

(** *** [unary] *)

Definition multiple_messages : ConnectError := connect_error "Unary returned multiple messages" Code.Unknown.
Definition no_message : ConnectError := connect_error "Unary returned no message" Code.Unknown.

(** The loop over [result.message], given what it yields and how it ends; the second component
    says whether the loop stopped it early. *)
Fixpoint unary_loop (items : list Message) (ending : result Thrown unit) (message : option Message)
    (count : Z) : result Thrown Message * bool :=
  match items with
  | item :: items' =>
      if 1 <? count + 1 then (Throw (mkThrown (Some multiple_messages) None), true)
      else unary_loop items' ending (Some item) (count + 1)
  | [] =>
      match ending with
      | Throw e => (Throw e, false)
      | Ok _ =>
          match message with
          | Some m => if negb (count =? 1) then (Throw (mkThrown (Some no_message) None), false) else (Ok m, false)
          | None => (Throw (mkThrown (Some no_message) None), false)
          end
      end
  end.

Definition unary (items : list Message) (ending : result Thrown unit) : result Thrown Message * bool :=
  unary_loop items ending None 0.
End call.
