(* ===== verification/TransportCorrect.v ===== *)
(** * TransportCorrect: the behaviour of a call *)
From Stdlib Require Import QArith Qround Lqa.
From stdpp Require Import pretty sorting.
From S2P Require Import Prelude Errors Text Bytes HpackTables Hpack Frames Flow Stream Connection Framing Retry Regex Sort.
From S2P Require Import FramingCorrect Decimal Transport.
Local Open Scope Z_scope.

(** ** A call is committed before its first message *)

Section call.
Context {Message : Type} (fromBinary : bytes → result Caught Message).
Context (from : Caught → ConnectError) (text : exn → jsstring) (AbortError HeadersError : exn).

Abbreviation step := (call_step fromBinary from text AbortError HeadersError).
Abbreviation reaches := (call_reachable fromBinary from text AbortError HeadersError).
Abbreviation fail := (call_fail from text AbortError).

(** What links the committed flag with what the application has seen, and the guards with the end. *)
Record commit_ok (c0 c : Call (Message := Message)) : Prop := mkCommitOk {
  co_flag : c_committed c = bool_decide (c_commits c ≠ 0%nat);
  co_sent : c_phase c ≠ NotSent;
  co_phase : c_phase c = Answered ∨ c_phase c = Dropped ∨ c_phase c = Reading → c_committed c = true;
  co_messages : c_messages c ≠ [] → c_committed c = true;
  co_outcome : ∀ t i, c_outcome c = Some (Throw t) → t_info t = Some i → f_committed i = c_committed c;
  co_over : c_outcome c ≠ None → c_phase c = Over;
  co_guards : c_phase c = Over → c_listening c = false ∧ c_timer c = None ∧ is_Some (c_abort c);
  co_held : c_abort c = None → c_listening c = c_listening c0 ∧ c_timer c = c_timer c0;
}.

Lemma translate_info error (c : Call (Message := Message)) i :
  t_info (translate from text error c) = Some i → f_committed i = c_committed c.
Proof. unfold translate, attemptError. repeat case_match; cbn; intros [= <-]; done. Qed.

Lemma cleanup_aborts (c : Call (Message := Message)) r : c_abort (set_abort r c) ≠ None.
Proof. cbn. by destruct (c_abort c). Qed.

Lemma fail_ok c0 error (c : Call (Message := Message)) :
  c_committed c = bool_decide (c_commits c ≠ 0%nat) → (c_messages c ≠ [] → c_committed c = true) →
  commit_ok c0 (fail error c).
Proof.
  intros Hf Hm. split; cbn; try done.
  - by intros [[=]|[[=]|[=]]].
  - intros t i [= <-]. apply translate_info.
  - intros _. split_and!; [done..|]. by destruct (c_abort c).
  - by destruct (c_abort c).
Qed.

(** The response head: committed at once unless the answer is only trailers. *)
Lemma respond_ok c0 h (c : Call (Message := Message)) :
  commit_ok c0 c → c_phase c = Requesting → c_outcome c = None →
  commit_ok c0 (respond from text AbortError HeadersError h c).
Proof.
  intros [Hf Hs Hp Hm Ho Hov Hg Hh] Hph Hout. unfold respond.
  set (c1 := if negb (trailers_only h) then commit c else c).
  assert (c_committed c1 = bool_decide (c_commits c1 ≠ 0%nat) ∧ (c_messages c1 ≠ [] → c_committed c1 = true)) as [Hf1 Hm1].
  { subst c1. by destruct (trailers_only h); cbn. }
  destruct (head_error h) as [e|]; [by apply fail_ok|].
  set (c2 := if trailers_only h then commit c1 else c1).
  assert (c_committed c2 = bool_decide (c_commits c2 ≠ 0%nat) ∧ c_committed c2 = true) as [Hf2 Hc2].
  { subst c2 c1. by destruct (trailers_only h); cbn. }
  destruct (forallb header_ok (hh_headers h)); [|by apply fail_ok].
  split; cbn; try done; rewrite ?Hf2; try done. subst c2 c1. by destruct (trailers_only h).
Qed.

Lemma commit_ok_same c0 (c c' : Call (Message := Message)) :
  commit_ok c0 c → c_committed c' = c_committed c → c_commits c' = c_commits c → c_phase c' = c_phase c →
  c_messages c' = c_messages c → c_outcome c' = c_outcome c →
  (c_phase c = Over → c_listening c' = false ∧ c_timer c' = None ∧ is_Some (c_abort c')) →
  (c_abort c' = None → c_abort c = None ∧ c_listening c' = c_listening c ∧ c_timer c' = c_timer c) →
  commit_ok c0 c'.
Proof.
  intros [Hf Hs Hp Hm Ho Hov Hg Hh] Ec En Ep Em Eo Hg' Hh'.
  split; rewrite ?Ec, ?En, ?Ep, ?Em, ?Eo; try done.
  intros Ha. destruct (Hh' Ha) as (Ha' & -> & ->). by apply Hh.
Qed.

Lemma guards_after c0 (c c' : Call (Message := Message)) :
  commit_ok c0 c → c_listening c' = c_listening c → c_timer c' = c_timer c →
  (is_Some (c_abort c) → is_Some (c_abort c')) →
  c_phase c = Over → c_listening c' = false ∧ c_timer c' = None ∧ is_Some (c_abort c').
Proof. intros Hok -> -> Ha Ho. destruct (co_guards c0 c Hok Ho) as (?&?&?). auto. Qed.

Lemma produced_ok c0 p (c : Call (Message := Message)) : commit_ok c0 c → commit_ok c0 (produced p c).
Proof.
  intros Hok. unfold produced, pull_failed. repeat case_match;
    (apply (commit_ok_same c0 c); [done..| |];
     [apply (guards_after c0); try done; cbn; by destruct (c_abort c)|by cbn; destruct (c_abort c)]).
Qed.

(** A call that is not over has no outcome yet. *)
Lemma running_outcome c0 (c : Call (Message := Message)) : commit_ok c0 c → c_phase c ≠ Over → c_outcome c = None.
Proof. intros Hok Hp. destruct (c_outcome c) eqn:E; [|done]. destruct Hp. by apply (co_over c0 c Hok); rewrite E. Qed.

(** The clean-up of the [finally]. *)
Lemma finally_ok c0 out (c : Call (Message := Message)) :
  commit_ok c0 c → (∀ t, out ≠ Some (Throw t)) → commit_ok c0 (set_phase Over out (cleanup AbortError c)).
Proof.
  intros [Hf Hs Hp Hm Ho Hov Hg Hh] Hout. split; cbn; try done.
  - by intros [[=]|[[=]|[=]]].
  - intros t i E. by destruct (Hout t).
  - intros _. split_and!; [done..|]. by destruct (c_abort c).
  - by destruct (c_abort c).
Qed.

Lemma commit_ok_step c0 ev c : commit_ok c0 c → call_enabled ev c = true → commit_ok c0 (step ev c).
Proof.
  intros Hok He. pose proof (co_flag c0 c Hok) as Hf. pose proof (co_messages c0 c Hok) as Hm.
  pose proof (co_held c0 c Hok) as Hh.
  destruct ev; cbn [call_step call_enabled] in *.
  - apply (commit_ok_same c0 c); [done..| |by intros H%cleanup_aborts].
    intros Ho. destruct (co_guards c0 c Hok Ho) as (Hl & _). congruence.
  - apply (commit_ok_same c0 c); [done..| |by intros H%cleanup_aborts].
    intros Ho. destruct (co_guards c0 c Hok Ho) as (_ & Ht & _). by rewrite Ht in He.
  - apply (commit_ok_same c0 c); [done..| |done]. by apply (guards_after c0).
  - by apply produced_ok.
  - apply (commit_ok_same c0 c); [done..| |done]. by apply (guards_after c0).
  - apply bool_decide_eq_true in He. apply respond_ok; [done..|]. apply (running_outcome c0); [done|congruence].
  - by apply fail_ok.
  - apply bool_decide_eq_true in He. assert (c_committed c = true) as Hc by (apply (co_phase c0 c Hok); auto).
    split; cbn; try done; by rewrite <- ?Hf.
  - apply bool_decide_eq_true in He. assert (c_committed c = true) as Hc by (apply (co_phase c0 c Hok); auto).
    assert (c_outcome c = None) as Ho by (apply (running_outcome c0); [done|congruence]).
    unfold on_record. destruct (fromBinary data); [|by apply fail_ok].
    split; cbn; rewrite ?Ho, ?He; try done; by rewrite <- ?Hf.
  - unfold on_body_end. destruct (set_trailers _ _) as [tr valid].
    assert (commit_ok c0 (set_output (c_messages c) tr c)) as Hok' by (by destruct Hok).
    destruct (negb valid); [by apply fail_ok|]. destruct (validateStatus _ _); [|by apply fail_ok].
    by apply finally_ok.
  - by apply fail_ok.
  - destruct (decide (c_phase c = Answered)) as [Ea|]; [|by apply finally_ok].
    assert (c_committed c = true) as Hc by (apply (co_phase c0 c Hok); auto).
    split; cbn; try done; by rewrite <- ?Hf.
Qed.

(** A call that could not be sent: nothing happens any more but that its guards fire. *)
Record unsent_ok (c0 c : Call (Message := Message)) : Prop := mkUnsentOk {
  un_phase : c_phase c = NotSent;
  un_outcome : c_outcome c = c_outcome c0;
  un_commits : c_committed c = false ∧ c_commits c = 0%nat;
  un_input : c_upload c = [] ∧ c_pulling c = false;
  un_messages : c_messages c = [];
  un_held : c_abort c = None → c_listening c = c_listening c0 ∧ c_timer c = c_timer c0;
}.

Lemma unsent_ok_step c0 ev c : unsent_ok c0 c → call_enabled ev c = true → unsent_ok c0 (step ev c).
Proof.
  intros [Hp Ho Hc [Hu Hpull] Hm Hh] He.
  destruct ev; cbn [call_enabled] in He; rewrite ?Hp, ?Hpull in He; try discriminate He;
    (split; try done; by intros H%cleanup_aborts).
Qed.

Lemma reachable_call signal aborted timeoutMs iterator header c :
  let c0 := call_new signal aborted timeoutMs iterator header in
  reaches c0 c →
  match not_sent iterator header with Some _ => unsent_ok c0 c | None => commit_ok c0 c end.
Proof.
  intros c0. induction 1 as [|c ev _ IH He].
  - subst c0. unfold call_new. destruct (not_sent iterator header); split; cbn; try done. by intros [[=]|[[=]|[=]]].
  - destruct (not_sent iterator header); [by apply unsent_ok_step|by apply commit_ok_step].
Qed.

(** C14: a call tells its attempt's context that it is committed before it hands out the response
    or a message, and an error that the call makes says whether it did: so a call whose error says
    "not committed" - the only kind that is retried - has shown the application nothing.  Once the
    [catch] of the call or the [finally] of its messages has run, the deadline timer and the abort
    listener are gone and the request's signal is aborted.  There are two ways around that, and
    then the guards stay as they were installed until they fire by themselves: the input or the
    header makes [start] throw before its [try] - the error is the raw one, and nothing was asked
    for, sent or committed - and a response whose messages the application never starts to read. *)
Theorem commitment signal aborted timeoutMs iterator header c :
  reaches (call_new signal aborted timeoutMs iterator header) c →
  (c_committed c = true ↔ c_commits c ≠ 0%nat) ∧
  (c_phase c = Answered ∨ c_phase c = Dropped ∨ c_phase c = Reading ∨ c_messages c ≠ [] → c_committed c = true) ∧
  (∀ t i, c_outcome c = Some (Throw t) → t_info t = Some i →
     (c_phase c ≠ NotSent → f_committed i = c_committed c) ∧
     (f_committed i = false → c_commits c = 0%nat ∧ c_messages c = [])) ∧
  (is_Some (c_outcome c) → c_phase c = Over ∨ c_phase c = NotSent) ∧
  (c_phase c = Over → c_listening c = false ∧ c_timer c = None ∧ is_Some (c_abort c)) ∧
  (c_abort c = None → c_listening c = listens signal aborted ∧ c_timer c = timer_delay <$> limited timeoutMs) ∧
  (c_phase c = NotSent ↔ is_Some (not_sent iterator header)) ∧
  (c_phase c = NotSent →
     c_outcome c = Throw <$> not_sent iterator header ∧
     c_commits c = 0%nat ∧ c_messages c = [] ∧ c_upload c = [] ∧ c_pulling c = false).
Proof.
  intros Hr. pose proof (reachable_call _ _ _ _ _ c Hr) as Hok.
  destruct (not_sent iterator header) as [thrown|] eqn:En.
  - destruct Hok as [Hp Ho [Hc Hn] [Hu Hpull] Hm Hh]. unfold call_new in Ho, Hh. rewrite En in Ho, Hh. cbn in Ho, Hh.
    rewrite Hp, Hc, Hn, Hm, Ho. split_and!; try done; [..|by right]. by intros [?|[?|[?|?]]].
  - pose proof (co_flag _ c Hok) as Hf.
    assert (c_committed c = true ↔ c_commits c ≠ 0%nat) as Hflag by (rewrite Hf; apply bool_decide_eq_true).
    pose proof (co_sent _ c Hok) as Hsent.
    split_and!; try done.
    + intros [?|[?|[?|?]]]; [apply (co_phase _ c Hok); auto..|by apply (co_messages _ c Hok)].
    + intros t i Ho Hi. pose proof (co_outcome _ c Hok t i Ho Hi) as Hc. split; [done|]. intros H0.
      rewrite H0 in Hc. split; [apply dec_stable; by rewrite <- Hflag, <- Hc|].
      apply dec_stable. intros Hn%(co_messages _ c Hok). congruence.
    + intros [o Ho]. left. apply (co_over _ c Hok). by rewrite Ho.
    + apply (co_guards _ c Hok).
    + apply (co_held _ c Hok).
Qed.

(** ** The reason of an abort wins *)

Definition reason_error (r : Caught) : ConnectError := match r with CaughtConnect e => e | _ => from r end.

Record reason_ok (r : Caught) (c : Call (Message := Message)) : Prop := mkReasonOk {
  ro_abort : c_abort c = Some r;
  ro_outcome : ∀ t, c_outcome c = Some (Throw t) → t = mkThrown (Some (reason_error r)) None;
}.

Lemma reason_fail r error (c : Call (Message := Message)) : c_abort c = Some r → reason_ok r (fail error c).
Proof.
  intros Ha. split; cbn; [by rewrite Ha|]. intros t [= <-]. unfold translate. rewrite Ha.
  by destruct r.
Qed.

Lemma reason_same r (c c' : Call (Message := Message)) :
  reason_ok r c → c_abort c' = Some r → c_outcome c' = c_outcome c ∨ (∀ t, c_outcome c' ≠ Some (Throw t)) →
  reason_ok r c'.
Proof. intros [_ Ho] Ha [Hc|Hc]; split; try done; [by rewrite Hc|]. intros t Ht. by destruct (Hc t). Qed.

Lemma reason_step r ev c : reason_ok r c → reason_ok r (step ev c).
Proof.
  intros Hok. pose proof (ro_abort r c Hok) as Ha.
  assert (late c = true) as Hlate by (unfold late; rewrite Ha; apply orb_true_r).
  destruct ev; cbn [call_step]; try (apply (reason_same r c); [done|cbn; by rewrite ?Ha|by left]).
  - unfold produced. rewrite Hlate. apply (reason_same r c); [done|done|by left].
  - unfold respond. destruct (head_error h); [by apply reason_fail; destruct (trailers_only h)|].
    destruct (forallb _ _); [|by apply reason_fail; destruct (trailers_only h)].
    apply (reason_same r c); [done|by destruct (trailers_only h)|by right].
  - by apply reason_fail.
  - apply (reason_same r c); [done|done|by right].
  - unfold on_record. destruct (fromBinary data); [|by apply reason_fail].
    apply (reason_same r c); [done|done|by left].
  - unfold on_body_end. destruct (set_trailers _ _) as [tr valid].
    destruct (negb valid); [by apply reason_fail|]. destruct (validateStatus _ _); [|by apply reason_fail].
    apply (reason_same r c); [done|cbn; by rewrite Ha|by right].
  - by apply reason_fail.
  - destruct (decide _); (apply (reason_same r c); [done|cbn; by rewrite Ha|by right]).
Qed.

(** Once the caller aborted or the deadline passed, that is what the call reports, whatever
    arrives afterwards: the error is the abort's reason, and it carries no claim that the
    request was not sent. *)
Theorem abort_reason_wins r c evs t :
  c_abort c = Some r → c_outcome c = None →
  c_outcome (fold_left (λ c ev, step ev c) evs c) = Some (Throw t) →
  t_error t = Some (reason_error r) ∧ t_info t = None.
Proof.
  intros Ha Ho Hend. assert (reason_ok r c) as Hok by (split; [done|congruence]).
  assert (reason_ok r (fold_left (λ c ev, step ev c) evs c)) as Hfin.
  { clear Hend Ha Ho. revert c Hok. induction evs as [|ev evs IH]; intros c Hok; [done|].
    by apply IH, reason_step. }
  by rewrite (ro_outcome r _ Hfin t Hend).
Qed.

(** ** The upload *)

(** The upload is, in order, the records of the messages that the input produced, so that
    [unframe] on the other side reads exactly those messages; and a result that the input
    delivers after the upload was cancelled or the call aborted changes nothing. *)
Theorem upload_records signal aborted timeoutMs iterator header c :
  reaches (call_new signal aborted timeoutMs iterator header) c →
  (∃ datas, Forall2 (λ d r, frame d = Ok r) datas (c_upload c) ∧
     (Forall (Forall is_byte) datas → unframe (c_upload c) = (datas, Ok tt))) ∧
  ∀ p, c_inputCanceled c = true ∨ is_Some (c_abort c) →
     let c' := step (CProduced p) c in
     c_upload c' = c_upload c ∧ c_controller c' = c_controller c ∧ c_abort c' = c_abort c.
Proof.
  intros Hr. split.
  - assert (∃ datas, Forall2 (λ d r, frame d = Ok r) datas (c_upload c)) as [datas Hf].
    { induction Hr as [|c ev _ [datas IH] _]; [by exists []|].
      destruct ev; cbn [call_step]; try (by exists datas).
      - unfold produced, pull_failed. repeat case_match; try (by exists datas).
        cbn. eexists (datas ++ [_]). apply Forall2_app; [done|]. by repeat constructor.
      - unfold respond, call_fail. exists datas. by destruct (head_error h), (forallb header_ok (hh_headers h)), (trailers_only h).
      - unfold on_record, call_fail. exists datas. by destruct (fromBinary data).
      - unfold on_body_end, call_fail. destruct (set_trailers _ _) as [tr []]; cbn; [|by exists datas].
        destruct (validateStatus _ _); by exists datas.
      - destruct (decide _); by exists datas. }
    exists datas. split; [done|]. intros Hb.
    assert (c_upload c = map record_bytes datas ∧ Forall (λ m : bytes, zlen m ≤ MAX_MESSAGE) datas) as [Hu Hm].
    { clear -Hf. induction Hf as [|d r ds rs H _ [-> Hm]]; [done|].
      destruct (decide (zlen d ≤ MAX_MESSAGE)) as [Hl|Hl].
      - rewrite frame_bytes in H by done. injection H as <-. by repeat constructor.
      - unfold frame in H. by rewrite (proj2 (Z.ltb_lt _ _)) in H by lia. }
    rewrite Hu, unframe_records; [by apply records_frames|]. apply mjoin_bytes_inv, mjoin_bytes, Forall_fmap.
    eapply list.Forall_impl; [exact Hb|]. intros m Hmb. by apply record_bytes_bytes.
  - intros p Hl. cbn. unfold produced.
    assert (late c = true) as ->; [|done]. unfold late.
    destruct Hl as [->|Hl]; [done|]. rewrite bool_decide_true by done. apply orb_true_r.
Qed.

(** ** [unary] *)

(** A unary call returns a message exactly when the response carries one message and ends
    without an error; it reports "no message" or "multiple messages" otherwise, the latter
    without reading on, and an error of the stream as it is. *)
Theorem unary_spec (items : list Message) ending :
  unary items ending =
  match items, ending with
  | [], Throw e => (Throw e, false)
  | [], Ok _ => (Throw (mkThrown (Some no_message) None), false)
  | [m], Throw e => (Throw e, false)
  | [m], Ok _ => (Ok m, false)
  | _, _ => (Throw (mkThrown (Some multiple_messages) None), true)
  end.
Proof. unfold unary. destruct items as [|m [|m' items]], ending; reflexivity. Qed.
End call.

(** ** Request headers *)

Abbreviation named n := (filter (λ kv : jsstring * jsstring, toLowerCase kv.1 = n)).

Lemma delete_same h n : named n (headers_delete h n) = [].
Proof.
  unfold headers_delete. induction h as [|kv h IH]; [done|]. rewrite filter_cons.
  destruct (decide (toLowerCase kv.1 ≠ n)); [|done]. rewrite filter_cons_False by done. exact IH.
Qed.

Lemma delete_other h n m : m ≠ n → named m (headers_delete h n) = named m h.
Proof.
  intros Hn. unfold headers_delete. induction h as [|kv h IH]; [done|]. rewrite !filter_cons.
  destruct (decide (toLowerCase kv.1 ≠ n)) as [H|H]; [by rewrite filter_cons, IH|].
  rewrite (decide_False (P := toLowerCase kv.1 = m)); [done|]. intros E. apply H. congruence.
Qed.

Lemma set_same h n v : toLowerCase n = n → ∃ n', named n (headers_set h n v) = [(n', v)].
Proof.
  intros Hl. induction h as [|[k w] h [n' IH]]; cbn [headers_set].
  - exists n. by rewrite filter_cons_True by done.
  - destruct (decide (toLowerCase k = n)); [|exists n'; by rewrite filter_cons_False by done].
    exists k. rewrite filter_cons_True by done. by rewrite delete_same.
Qed.

Lemma set_other h n v m : toLowerCase n = n → m ≠ n → named m (headers_set h n v) = named m h.
Proof.
  intros Hl Hn. induction h as [|[k w] h IH]; cbn [headers_set].
  - by rewrite filter_cons_False by (cbn [fst]; congruence).
  - destruct (decide (toLowerCase k = n)); [|by rewrite !filter_cons, IH].
    rewrite !filter_cons_False by (cbn [fst]; congruence). by apply delete_other.
Qed.

Lemma entry_named h k m : named m h = named m k → entry_value h m = entry_value k m.
Proof. unfold entry_value, last_value, headers_get. by intros ->. Qed.

(** [Headers.get] after [Headers.set]. *)
Lemma entry_set h n v m :
  toLowerCase n = n → n ≠ js "set-cookie" →
  entry_value (headers_set h n v) m = if decide (m = n) then Some (http_trim v) else entry_value h m.
Proof.
  intros Hl Hc. case_decide as Hm; [subst m|by apply entry_named, set_other].
  unfold entry_value. rewrite decide_False by done. unfold headers_get.
  by destruct (set_same h n v Hl) as [n' ->].
Qed.

Lemma has_entry h n : n ≠ js "set-cookie" → headers_has h n = bool_decide (is_Some (entry_value h n)).
Proof. intros Hc. unfold headers_has, entry_value. by rewrite decide_False. Qed.

(** The entries of the object are those of the headers, sorted by name. *)
Lemma own_map {A} (f : jsstring → A) (names : list jsstring) k :
  own (map (λ n, (n, f n)) names) k = if decide (k ∈ names) then Some (f k) else None.
Proof.
  induction names as [|n names IH]; cbn [map own]; [by rewrite decide_False by set_solver|].
  rewrite IH. destruct (decide (n = k)) as [->|Hn]; [by rewrite decide_True by left|].
  destruct (decide (k ∈ names)); [by rewrite decide_True by (by right)|].
  rewrite decide_False; [done|]. by intros [->|]%elem_of_cons.
Qed.

Lemma in_header_names h k : k ∈ header_names h ↔ is_Some (entry_value h k).
Proof.
  assert (k ∈ header_names h ↔ named k h ≠ []) as ->.
  { unfold header_names. rewrite (sort_by_perm compare), elem_of_remove_dups, list_elem_of_fmap. split.
    - intros (kv & -> & Hkv) Hf. assert (kv ∈ named (toLowerCase kv.1) h) as Hin
        by (by apply list_elem_of_filter). rewrite Hf in Hin. by apply not_elem_of_nil in Hin.
    - intros Hf. destruct (named k h) as [|kv l] eqn:E; [done|]. exists kv.
      assert (kv ∈ named k h) as Hin by (rewrite E; left). apply list_elem_of_filter in Hin. naive_solver. }
  unfold entry_value, last_value, headers_get. destruct (named k h) as [|[n v] l] eqn:E.
  - split; [done|]. by case_decide; intros [? [=]].
  - split; [intros _|done]. case_decide; [|eauto].
    destruct (rev ((n, v) :: l)) as [|kv r] eqn:Er; [|eauto].
    apply (f_equal (@length _)) in Er. by rewrite length_rev in Er.
Qed.

Lemma own_fromEntries h k : own (fromEntries h) k = entry_value h k.
Proof.
  unfold fromEntries. rewrite own_map. pose proof (in_header_names h k) as Hin.
  destruct (decide _) as [H|H].
  - apply Hin in H as [v ->]. done.
  - destruct (entry_value h k); [|done]. destruct H. apply Hin. eauto.
Qed.

(** *** Trimming *)

Lemma http_trim_id a s b :
  is_http_space a = false → is_http_space b = false → http_trim (a :: s ++ [b]) = a :: s ++ [b].
Proof.
  intros Ha Hb. unfold http_trim. cbn [http_trim_start]. rewrite Ha.
  change (a :: s ++ [b]) with ((a :: s) ++ [b]). rewrite rev_app_distr. cbn [rev app http_trim_start].
  rewrite Hb. change (b :: rev s ++ [a]) with ([b] ++ (rev s ++ [a])).
  by rewrite rev_app_distr, rev_app_distr, rev_involutive.
Qed.

Lemma trim_start_head s : http_trim_start s = [] ∨ ∃ a r, http_trim_start s = a :: r ∧ is_http_space a = false.
Proof.
  induction s as [|a s IH]; cbn; [by left|]. destruct (is_http_space a) eqn:E; [done|]. right. eauto.
Qed.

Lemma trim_start_suffix s : ∃ p, s = p ++ http_trim_start s ∧ Forall (λ u, is_http_space u = true) p.
Proof.
  induction s as [|a s (p & Hp & Hf)]; cbn; [by exists []|]. destruct (is_http_space a) eqn:E.
  - exists (a :: p). split; [cbn; congruence|by constructor].
  - by exists [].
Qed.

Lemma http_trim_idem s : http_trim (http_trim s) = http_trim s.
Proof.
  unfold http_trim at 2 3. set (t := http_trim_start s).
  destruct (trim_start_head (rev t)) as [->|(b & r & Hr & Hb)]; [done|]. rewrite Hr. cbn [rev].
  destruct r as [|a' r'] using rev_ind; [cbn; unfold http_trim; cbn; by rewrite Hb; cbn; rewrite Hb|].
  rewrite rev_app_distr. cbn [rev app]. apply (http_trim_id a' (rev r') b); [|done].
  destruct (trim_start_suffix (rev t)) as (p & Hp & _). rewrite Hr in Hp.
  apply (f_equal (@rev Z)) in Hp. rewrite rev_involutive in Hp.
  rewrite rev_app_distr in Hp. cbn [rev] in Hp. rewrite rev_app_distr in Hp. cbn in Hp.
  destruct (trim_start_head s) as [H|(a & q & H & Ha)]; fold t in H; rewrite H in Hp; [done|].
  by injection Hp as ->.
Qed.

Lemma digit_no_space u : digit u = true → is_http_space u = false.
Proof.
  unfold digit, between, is_http_space. rewrite andb_true_iff, !Z.leb_le. intros [H1 H2].
  rewrite !(proj2 (Z.eqb_neq _ _)) by lia. done.
Qed.

Lemma timeout_trim n : 0 < n → http_trim (js (pretty n) ++ js "m") = js (pretty n) ++ js "m".
Proof.
  intros Hn. replace (pretty n) with (pretty (Z.to_N n)) by (destruct n; done).
  destruct (pretty_canonical (Z.to_N n)) as [Hc _]. apply canonical_digits in Hc as [Hd Hne].
  destruct (js (pretty (Z.to_N n))) as [|u s]; [done|]. apply Forall_cons_1 in Hd as [Hu _].
  cbn [app]. apply http_trim_id; [by apply digit_no_space|done].
Qed.

Lemma toLowerCase_idem s : toLowerCase (toLowerCase s) = toLowerCase s.
Proof.
  unfold toLowerCase. rewrite map_map. apply map_ext. intros u.
  destruct ((0x41 <=? u) && (u <=? 0x5a)) eqn:E; [|by rewrite E].
  apply andb_true_iff in E as [E1 E2]. apply Z.leb_le in E1, E2.
  rewrite (proj2 (Z.leb_gt (u + 32) 0x5a)) by lia. by rewrite andb_false_r.
Qed.

Lemma limited_pos o t : limited o = Some t → (0 < t)%Q.
Proof.
  unfold limited. destruct o as [q|]; [|done]. destruct (Qle_bool q 0) eqn:E; [done|]. intros [= <-].
  apply Qnot_le_lt. intros H%Qle_bool_iff. congruence.
Qed.

Lemma timeout_bounds t : (0 < t)%Q → 1 ≤ timeout_value t ≤ 99999999.
Proof.
  intros Ht. unfold timeout_value. assert (0 < Qceiling t); [|lia].
  apply Z.nle_gt. intros H. pose proof (Qle_ceiling t) as Hc.
  rewrite Zle_Qle in H. change (inject_Z 0) with 0%Q in H. lra.
Qed.

(** Rounded up, unless it is capped. *)
Lemma timeout_covers t : (t <= 99999999)%Q → (t <= inject_Z (timeout_value t))%Q.
Proof.
  intros Hle. unfold timeout_value. rewrite Z.min_l; [apply Qle_ceiling|].
  change 99999999%Q with (inject_Z 99999999) in Hle. apply Qceiling_resp_le in Hle.
  by rewrite Qceiling_Z in Hle.
Qed.

Lemma timeout_capped t : (99999999 < t)%Q → timeout_value t = 99999999.
Proof.
  intros Ht. unfold timeout_value. apply Z.min_r, Z.lt_le_incl. rewrite Zlt_Qlt.
  eapply Qlt_le_trans; [exact Ht|apply Qle_ceiling].
Qed.

(** One bad element. *)
Lemma forallb_false {A} (f : A → bool) l : forallb f l = false ↔ Exists (λ x, f x = false) l.
Proof.
  induction l as [|x l IH]; cbn; [split; [done|by intros H%Exists_nil]|].
  rewrite andb_false_iff, Exists_cons. by rewrite IH.
Qed.

(** The header with the configured token. *)
Definition authorized (auth : option jsstring) (header : jsobject) : jsobject :=
  match auth with
  | Some a => if headers_has header AUTHORIZATION then header else headers_set header AUTHORIZATION a
  | None => header
  end.

Lemma authorization_trimmed token a : authorization_of token = Some (Some a) → http_trim a = a.
Proof.
  unfold authorization_of. destruct token as [t|]; [|done]. case_bool_decide; [done|].
  unfold headers_new. destruct (forallb _ _); [|done]. unfold headers_get. rewrite filter_cons_True by done.
  intros [= <-]. apply http_trim_idem.
Qed.

Lemma entry_authorized token auth header k :
  authorization_of token = Some auth →
  entry_value (authorized auth header) k =
  if decide (k = AUTHORIZATION)
  then match entry_value header AUTHORIZATION with Some v => Some v | None => auth end
  else entry_value header k.
Proof.
  intros Hauth. unfold authorized.
  destruct auth as [a|]; [|case_decide; [subst k; by destruct (entry_value _ _)|done]].
  rewrite has_entry by done. destruct (entry_value header AUTHORIZATION) as [v|] eqn:Ev; cbn.
  - case_decide; [by subst k|done].
  - rewrite entry_set by done. by case_decide; [rewrite (authorization_trimmed token)|].
Qed.

Lemma entry_request auth timeoutMs header k :
  entry_value (call_headers auth timeoutMs header) k =
  if decide (k = GRPC_TIMEOUT) then
    match limited timeoutMs with
    | Some t => Some (js (pretty (timeout_value t)) ++ js "m")
    | None => entry_value (authorized auth header) k
    end
  else if decide (k = js "grpc-accept-encoding") then Some (js "identity")
  else if decide (k = js "te") then Some (js "trailers")
  else if decide (k = CONTENT_TYPE_NAME) then Some (js "application/grpc")
  else entry_value (authorized auth header) k.
Proof.
  unfold call_headers. fold (authorized auth header). destruct (limited timeoutMs) as [t|] eqn:Et.
  - rewrite !entry_set by done. case_decide; [|done].
    rewrite timeout_trim; [done|]. pose proof (timeout_bounds t (limited_pos _ _ Et)). lia.
  - rewrite !entry_set by done. by destruct (decide (k = GRPC_TIMEOUT)) as [->|].
Qed.

(** A request can be made exactly if every field of the caller's header is well-formed.  Its
    header fields are these: content type, [te] and accepted encodings are fixed; an
    [authorization] of the caller takes precedence over the configured token; with a time
    limit, [grpc-timeout] is the number of milliseconds rounded up, between 1 and 99999999, so
    at most eight digits and never less than the limit when that fits; every other field is the
    caller's; and the fields are in order, one per name. *)
Theorem request_fields o authorization typeName name timeoutMs header :
  authorization_of (t_bearerToken o) = Some authorization →
  (request_init o authorization typeName name timeoutMs header = None ↔ Exists (λ kv, header_ok kv = false) header) ∧
  ∀ init, request_init o authorization typeName name timeoutMs header = Some init →
  let fields := i_headers init in
  own fields CONTENT_TYPE_NAME = Some (js "application/grpc") ∧
  own fields (js "te") = Some (js "trailers") ∧
  own fields (js "grpc-accept-encoding") = Some (js "identity") ∧
  own fields AUTHORIZATION =
    match entry_value header AUTHORIZATION with
    | Some v => Some v
    | None => authorization
    end ∧
  own fields GRPC_TIMEOUT =
    match limited timeoutMs with
    | Some t => Some (js (pretty (timeout_value t)) ++ js "m")
    | None => entry_value header GRPC_TIMEOUT
    end ∧
  (∀ t, limited timeoutMs = Some t → 1 ≤ timeout_value t ≤ 99999999 ∧
     ((t <= 99999999)%Q → (t <= inject_Z (timeout_value t))%Q)) ∧
  (∀ k, k ∉ [CONTENT_TYPE_NAME; js "te"; js "grpc-accept-encoding"; AUTHORIZATION; GRPC_TIMEOUT] →
     own fields k = entry_value header k) ∧
  StronglySorted (λ a b, compare a b ≤ 0) (map fst fields) ∧ NoDup (map fst fields).
Proof.
  intros Hauth. unfold request_init, request_headers, headers_new. split.
  { rewrite <- forallb_false. by destruct (forallb header_ok header). }
  destruct (forallb header_ok header); [|done]. intros init Hinit. injection Hinit as <-. cbn [i_headers]. set (fields := fromEntries _).
  assert (∀ k, own fields k = entry_value (call_headers authorization timeoutMs header) k) as Hown
    by (intros k; apply own_fromEntries).
  split_and!; try (by rewrite Hown, entry_request, ?(entry_authorized _ _ _ _ Hauth)).
  - intros t Ht. pose proof (timeout_bounds t (limited_pos _ _ Ht)). split; [done|]. apply timeout_covers.
  - intros k Hk. rewrite Hown, entry_request, (entry_authorized _ _ _ _ Hauth).
    by rewrite !decide_False by set_solver.
  - subst fields. cbn [i_headers]. unfold fromEntries. rewrite map_map, map_id.
    apply (sort_by_sorted compare (H := compare_comparator (λ s, s))).
  - subst fields. cbn [i_headers]. unfold fromEntries. rewrite map_map, map_id.
    unfold header_names. rewrite (sort_by_perm compare). apply NoDup_remove_dups.
Qed.

(** The timer of a deadline takes its delay as a 32-bit integer: up to 2147483647 ms the call
    gets its time (to the millisecond below), but with a limit from there up to 2^32 ms the
    timer's delay is 0 and the call is over at once, although the peer was given more than a
    day. *)
Theorem long_deadline_expires signal iterator header t :
  (0 < t)%Q →
  c_timer (call_new (Message := bytes) signal None (Some t) iterator header) = Some (timer_delay t) ∧
  ((t < 2147483648)%Q → timer_delay t = Qfloor t) ∧
  ((2147483648 <= t < 4294967296)%Q → timer_delay t = 0 ∧ timeout_value t = 99999999).
Proof.
  intros Ht. assert (Qle_bool t 0 = false) as Hl.
  { apply not_true_iff_false. intros H%Qle_bool_iff. lra. }
  unfold call_new, limited. cbn [c_timer]. rewrite Hl. split; [done|].
  pose proof (Qfloor_le t) as Hf. pose proof (Qlt_floor t) as Hc. split.
  - intros Hm. unfold timer_delay.
    assert (0 ≤ Qfloor t) by (change 0 with (Qfloor 0); apply Qfloor_resp_le; lra).
    assert (Qfloor t < 2147483648) by (rewrite Zlt_Qlt; change (inject_Z 2147483648) with 2147483648%Q; lra).
    rewrite to_int32_id; lia.
  - intros [H1 H2]. apply Qfloor_resp_le in H1 as H1'. change (Qfloor 2147483648) with 2147483648 in H1'.
    assert (Qfloor t < 4294967296) by (rewrite Zlt_Qlt; change (inject_Z 4294967296) with 4294967296%Q; lra).
    split.
    + unfold timer_delay, to_int32.
      replace (Qfloor t + 2 ^ 31) with ((Qfloor t - 2 ^ 31) + 1 * 2 ^ 32) by lia.
      rewrite Z_mod_plus_full, Z.mod_small by lia. lia.
    + apply timeout_capped. lra.
Qed.

(** ** Witnesses *)

Module Demo.

Definition from (r : Caught) : ConnectError :=
  match r with CaughtConnect e => e | CaughtOther _ => connect_error "unknown" Code.Unknown end.
Definition step : CallEvent → Call (Message := bytes) → Call (Message := bytes) :=
  call_step (Message := bytes) (λ b, Ok b) from (λ _, js "error") (EForeign 0) (EForeign 1).
Definition start : Call (Message := bytes) := call_new true None (Some 1000%Q) (Ok tt) [].
Definition run (evs : list CallEvent) : Call (Message := bytes) := fold_left (λ c ev, step ev c) evs start.

Fixpoint all_enabled (evs : list CallEvent) (c : Call (Message := bytes)) : bool :=
  match evs with
  | [] => true
  | ev :: evs' => call_enabled ev c && all_enabled evs' (step ev c)
  end.

Abbreviation reaches :=
  (call_reachable (Message := bytes) (λ b, Ok b) from (λ _, js "error") (EForeign 0) (EForeign 1) start).

Lemma call_run_from evs c :
  reaches c → all_enabled evs c = true → reaches (fold_left (λ c ev, step ev c) evs c).
Proof.
  revert c. induction evs as [|ev evs IH]; intros c Hc H; [done|].
  apply andb_true_iff in H as [He H]. apply IH; [by apply call_next|done].
Qed.

Lemma run_reaches evs : all_enabled evs start = true → reaches (run evs).
Proof. apply call_run_from. constructor. Qed.

Definition head : HeadHead :=
  mkHead false (Some 200) [(js "content-type", js "application/grpc+proto")] [].

(** One message each way. *)
Definition exchange : list CallEvent :=
  [CPull; CProduced (PValue (Ok [7; 8])); CPull; CProduced PDone; CResponse head; CNext; CRecord [9];
   CBodyEnd head (Some [(js "grpc-status", js "0")])].
(** The connection refuses the request before anything was sent. *)
Definition refused : list CallEvent :=
  [CRefused (CaughtOther (EH2 (mkH2Error REFUSED_STREAM None (Some Refused))))].

End Demo.

Lemma commitment_witness :
  c_messages (Demo.run Demo.refused) = [] ∧ c_commits (Demo.run Demo.refused) = 0%nat.
Proof.
  destruct (commitment _ _ _ _ _ true None (Some 1000%Q) (Ok tt) [] _ (Demo.run_reaches Demo.refused eq_refl)) as (_ & _ & H & _).
  destruct (H (mkThrown (Some (connect_error "error" Code.Unavailable)) (Some (mkInfo false (Some Refused))))
    (mkInfo false (Some Refused)) eq_refl eq_refl) as [_ H'].
  destruct (H' eq_refl). split; assumption.
Defined.

Lemma abort_reason_wins_witness :
  t_error (mkThrown (Some deadline_error) None) = Some deadline_error.
Proof.
  apply (abort_reason_wins (Message := bytes) (λ b, Ok b) Demo.from (λ _, js "error") (EForeign 0) (EForeign 1)
    (CaughtConnect deadline_error) (Demo.run [CDeadline]) [CRefused (CaughtOther (EForeign 5))]);
    reflexivity.
Defined.

(** A header that [Headers] refuses leaves the timer armed. *)
Lemma bad_header_leaks :
  let c := call_new (Message := bytes) true None (Some 1000%Q) (Ok tt) [(js "bad name", js "x")] in
  c_phase c = NotSent ∧ c_outcome c = Some (Throw headers_thrown) ∧ c_listening c = true ∧ c_timer c = Some 1000.
Proof. vm_compute. split_and!; reflexivity. Qed.

Lemma upload_records_witness :
  ∃ datas, Forall2 (λ d r, frame d = Ok r) datas (c_upload (Demo.run Demo.exchange)).
Proof.
  destruct (upload_records _ _ _ _ _ true None (Some 1000%Q) (Ok tt) [] _ (Demo.run_reaches Demo.exchange eq_refl)) as [(datas & H & _) _].
  exists datas. exact H.
Defined.

Lemma request_fields_witness :
  ∃ init, request_init (mkTunnelOptions (Some (js "t")) None None) (Some (js "Bearer t")) (js "a.B") (js "C")
    (Some 5%Q) [] = Some init ∧ own (i_headers init) AUTHORIZATION = Some (js "Bearer t").
Proof.
  eexists. split; [reflexivity|].
  apply (request_fields (mkTunnelOptions (Some (js "t")) None None) (Some (js "Bearer t")) (js "a.B") (js "C")
    (Some 5%Q) []); reflexivity.
Defined.

Lemma long_deadline_expires_witness :
  timer_delay 2592000000 = 0.
Proof.
  destruct (long_deadline_expires true (Ok tt) [] 2592000000) as (_ & _ & H); [reflexivity|].
  apply H. split; [apply Qle_bool_iff; reflexivity|reflexivity].
Defined.
