(* ===== verification/Json.v ===== *)
(** * Json: canonical JSON, from [contracts.ts]

    JSON data as the contract code meets it, [sortJson], [JSON.stringify] and [canonicalJson].

    A finite double is an integer or, if it is not one that prints in plain digits, the text that
    [String(n)] gives it, which determines it; [-0] is apart.  An object is its own properties
    in the order they were made; enumeration puts array indices first. *)
From stdpp Require Import pretty sorting.
From S2P Require Import Prelude Regex Sort Decimal Channel.
Local Open Scope Z_scope.

Inductive number :=
| Integer (z : Z)
| Frac (text : jsstring)
| NegZero
| NotFinite (text : jsstring).

(** [Undefined] and [Opaque] (functions, symbols, big integers) are not JSON data. *)
Inductive json :=
| Null
| Bool (b : bool)
| Num (n : number)
| Str (s : jsstring)
| Arr (l : list json)
| Obj (o : list (jsstring * json))
| Undefined
| Opaque.

Section json_ind.
Context (P : json → Prop) (Hnull : P Null) (Hbool : ∀ b, P (Bool b)) (Hnum : ∀ n, P (Num n))
  (Hstr : ∀ s, P (Str s)) (Harr : ∀ l, Forall P l → P (Arr l))
  (Hobj : ∀ o, Forall (λ kv, P kv.2) o → P (Obj o)) (Hund : P Undefined) (Hop : P Opaque).

Fixpoint json_induction (v : json) : P v :=
  match v with
  | Null => Hnull
  | Bool b => Hbool b
  | Num n => Hnum n
  | Str s => Hstr s
  | Arr l => Harr l ((fix go l : Forall P l :=
      match l with [] => Forall_nil_2 _ | x :: l' => Forall_cons_2 _ _ _ (json_induction x) (go l') end) l)
  | Obj o => Hobj o ((fix go (o : list (jsstring * json)) : Forall (λ kv, P kv.2) o :=
      match o with
      | [] => Forall_nil_2 _
      | kv :: o' => Forall_cons_2 _ kv o' (json_induction kv.2) (go o')
      end) o)
  | Undefined => Hund
  | Opaque => Hop
  end.
End json_ind.

(** ** [sortJson] *)

Definition non_finite : TypeError := TypeErr (js "Runtime graph contains a non-finite number").
Definition not_json : TypeError := TypeErr (js "Runtime graph is not JSON data").
Definition has_undefined : TypeError := TypeErr (js "Runtime graph contains undefined").

(** The results of a loop that stops at the first exception. *)
Fixpoint sequence {E A} (l : list (result E A)) : result E (list A) :=
  match l with
  | [] => Ok []
  | Throw e :: _ => Throw e
  | Ok a :: l' => match sequence l' with Ok r => Ok (a :: r) | Throw e => Throw e end
  end.

Definition with_key {E A} (k : jsstring) (r : result E A) : result E (jsstring * A) :=
  match r with Ok a => Ok (k, a) | Throw e => Throw e end.

(** Assigning to [out.__proto__] makes no property. *)
Definition own_key {A} (kv : jsstring * A) : bool := negb (bool_decide (kv.1 = js "__proto__")).

Definition by_key {A} (x y : jsstring * A) : Z := compare x.1 y.1.

Definition is_undefined (v : json) : bool := match v with Undefined => true | _ => false end.

Fixpoint sortJson (v : json) : result TypeError json :=
  match v with
  | Null => Ok Null
  | Str s => Ok (Str s)
  | Bool b => Ok (Bool b)
  | Num (NotFinite _) => Throw non_finite
  | Num NegZero => Ok (Str (js "-0"))
  | Num n => Ok (Num n)
  | Arr l =>
      match sequence (map sortJson l) with Ok l' => Ok (Arr l') | Throw e => Throw e end
  | Obj o =>
      let items := map (λ kv, (kv.1, if is_undefined kv.2 then Throw has_undefined else sortJson kv.2)) o in
      match sequence (map (λ kv, with_key kv.1 kv.2) (sort_by by_key items)) with
      | Ok out => Ok (Obj (filter (λ kv, own_key kv = true) out))
      | Throw e => Throw e
      end
  | Undefined | Opaque => Throw not_json
  end.

(** ** [JSON.stringify] *)

(** The enumeration order of properties: array indices by value, then the others. *)
Definition canonicalb (s : jsstring) : bool :=
  match s with
  | [] => false
  | u :: s' => forallb digit s && (negb (u =? 0x30) || bool_decide (s' = []))
  end.
Definition array_index (s : jsstring) : bool := canonicalb s && (digits_value s <? 2 ^ 32 - 1).

Definition by_index {A} (x y : jsstring * A) : Z := compare_numbers (digits_value x.1) (digits_value y.1).
Definition property_order {A} (o : list (jsstring * A)) : list (jsstring * A) :=
  sort_by by_index (filter (λ kv, array_index kv.1 = true) o) ++ filter (λ kv, array_index kv.1 ≠ true) o.

Fixpoint arrange (v : json) : json :=
  match v with
  | Arr l => Arr (map arrange l)
  | Obj o => Obj (property_order (map (λ kv, (kv.1, arrange kv.2)) o))
  | v => v
  end.

Definition is_high (u : Z) : bool := between 0xD800 0xDBFF u.
Definition is_low (u : Z) : bool := between 0xDC00 0xDFFF u.

Definition hex_digit (d : Z) : Z := if d <? 10 then 0x30 + d else 0x61 + (d - 10).
(** [\uXXXX]. *)
Definition unicode_escape (u : Z) : jsstring :=
  js "\u" ++ [hex_digit (u / 4096 mod 16); hex_digit (u / 256 mod 16); hex_digit (u / 16 mod 16); hex_digit (u mod 16)].

Definition escape (u : Z) : jsstring :=
  if u =? 8 then js "\b"
  else if u =? 9 then js "\t"
  else if u =? 10 then js "\n"
  else if u =? 12 then js "\f"
  else if u =? 13 then js "\r"
  else if u =? 0x22 then [0x5C; 0x22]
  else if u =? 0x5C then [0x5C; 0x5C]
  else if (u <? 0x20) || is_high u || is_low u then unicode_escape u
  else [u].

(** A surrogate pair stays as it is, a lone surrogate is escaped. *)
Fixpoint quote_units (s : jsstring) : jsstring :=
  match s with
  | [] => []
  | u :: s' =>
      match s' with
      | v :: s'' => if is_high u && is_low v then u :: v :: quote_units s'' else escape u ++ quote_units s'
      | [] => escape u
      end
  end.
Definition quote (s : jsstring) : jsstring := 0x22 :: quote_units s ++ [0x22].

Definition number_text (n : number) : jsstring :=
  match n with
  | Integer z => js (pretty z)
  | Frac text => text
  | NegZero => js "0"
  | NotFinite _ => js "null"
  end.

Fixpoint join (l : list jsstring) : jsstring :=
  match l with
  | [] => []
  | [x] => x
  | x :: l' => x ++ 0x2C :: join l'
  end.

(** Values that are not JSON data do not occur in what [sortJson] returns. *)
Fixpoint print (v : json) : jsstring :=
  match v with
  | Null | Undefined | Opaque => js "null"
  | Bool b => if b then js "true" else js "false"
  | Num n => number_text n
  | Str s => quote s
  | Arr l => 0x5B :: join (map print l) ++ [0x5D]
  | Obj o => 0x7B :: join (map (λ kv, quote kv.1 ++ 0x3A :: print kv.2) o) ++ [0x7D]
  end.

Definition stringify (v : json) : jsstring := print (arrange v).

Definition canonicalJson (v : json) : result TypeError jsstring :=
  match sortJson v with Ok w => Ok (stringify w) | Throw e => Throw e end.

Example canonicalJson_example :
  canonicalJson (Obj [(js "b", Arr [Num (Integer 12); Num NegZero; Null]); (js "10", Bool true);
    (js "9", Str [0x61; 0x22; 0xD800]); (js "a", Obj [])]) =
  Ok ([0x7B] ++ quote (js "9") ++ js ":" ++ [0x22; 0x61; 0x5C; 0x22] ++ js "\ud800" ++ [0x22; 0x2C] ++
    quote (js "10") ++ js ":true," ++ quote (js "a") ++ js ":{}," ++
    quote (js "b") ++ js ":[12," ++ quote (js "-0") ++ js ",null]}").
Proof. vm_compute. reflexivity. Qed.
