(* ===== verification/JsonCorrect.v ===== *)
(** * JsonCorrect: canonical JSON identifies exactly the values that carry the same data *)
From stdpp Require Import pretty sorting.
From S2P Require Import Prelude Regex Sort Decimal Channel Json.
Local Open Scope Z_scope.

(** ** Quoted strings can be read back *)

Definition unit16 (u : Z) : bool := between 0 0xFFFF u.

Lemma between_spec a b u : between a b u = true ↔ a ≤ u ≤ b.
Proof. unfold between. by rewrite andb_true_iff, !Z.leb_le. Qed.
Lemma between_false a b u : between a b u = false ↔ ¬ (a ≤ u ≤ b).
Proof. by rewrite <- not_true_iff_false, between_spec. Qed.

Definition unhex (c : Z) : Z := if c <? 0x40 then c - 0x30 else c - 0x61 + 10.

(** The first unit (or surrogate pair) of the inside of a string literal. *)
Definition read_unit (s : jsstring) : option (jsstring * jsstring) :=
  match s with
  | [] => None
  | c :: s' =>
      if c =? 0x22 then None
      else if c =? 0x5C then
        match s' with
        | 0x75 :: a :: b :: d :: e :: r => Some ([unhex a * 4096 + unhex b * 256 + unhex d * 16 + unhex e], r)
        | x :: r =>
            Some ([if x =? 0x62 then 8 else if x =? 0x74 then 9 else if x =? 0x6E then 10
                   else if x =? 0x66 then 12 else if x =? 0x72 then 13 else x], r)
        | [] => None
        end
      else if is_high c then match s' with v :: r => Some ([c; v], r) | [] => None end
      else Some ([c], s')
  end.

Lemma unhex_digit d : 0 ≤ d < 16 → unhex (hex_digit d) = d.
Proof.
  intros H. unfold unhex, hex_digit. destruct (Z.ltb_spec d 10).
  - rewrite (proj2 (Z.ltb_lt _ _)) by lia. lia.
  - rewrite (proj2 (Z.ltb_ge _ _)) by lia. lia.
Qed.

Lemma read_unicode u r : 0 ≤ u ≤ 0xFFFF → read_unit (unicode_escape u ++ r) = Some ([u], r).
Proof.
  intros H. unfold unicode_escape.
  set (a := hex_digit _). set (b := hex_digit _). set (d := hex_digit _). set (e := hex_digit _).
  change (read_unit ((js "\u" ++ [a; b; d; e]) ++ r))
    with (Some ([unhex a * 4096 + unhex b * 256 + unhex d * 16 + unhex e], r)).
  subst a b d e. rewrite !unhex_digit by (apply Z.mod_pos_bound; lia). do 3 f_equal.
  replace (u / 4096 mod 16) with (u / 4096)
    by (rewrite Z.mod_small; [done|]; split; [apply Z.div_pos; lia|apply Z.div_lt_upper_bound; lia]).
  pose proof (Z.div_mod u 16 ltac:(lia)). pose proof (Z.div_mod (u / 16) 16 ltac:(lia)).
  pose proof (Z.div_mod (u / 256) 16 ltac:(lia)).
  rewrite !Z.div_div in * by lia. change (16 * 16) with 256 in *. change (256 * 16) with 4096 in *. lia.
Qed.

Lemma read_escape u r : 0 ≤ u ≤ 0xFFFF → read_unit (escape u ++ r) = Some ([u], r).
Proof.
  intros H. unfold escape.
  repeat match goal with |- context [if ?x =? ?n then _ else _] =>
    destruct (Z.eqb_spec x n) as [->|?]; [reflexivity|] end.
  destruct ((u <? 0x20) || is_high u || is_low u) eqn:E; [by apply read_unicode|].
  apply orb_false_iff in E as [[E1 E2]%orb_false_iff E3]. cbn.
  rewrite !(proj2 (Z.eqb_neq _ _)) by done. by rewrite E2.
Qed.

(** The first token of a string and the rest. *)
Lemma quote_step u s :
  Forall (λ u, unit16 u = true) (u :: s) →
  ∃ tok s' out, u :: s = tok ++ s' ∧ tok ≠ [] ∧ quote_units (u :: s) = out ++ quote_units s' ∧
    ∀ r, read_unit (out ++ r) = Some (tok, r).
Proof.
  intros [Hu Hs]%Forall_cons_1. apply between_spec in Hu. cbn [quote_units]. destruct s as [|v s].
  - exists [u], [], (escape u). cbn [quote_units]. rewrite (app_nil_r (escape u)).
    split_and!; try done. intros r. by apply read_escape.
  - destruct (is_high u && is_low v) eqn:E.
    + exists [u; v], s, [u; v]. split_and!; try done. intros r.
      apply andb_true_iff in E as [Eu _]. cbn. pose proof Eu as Hr. apply between_spec in Hr.
      rewrite !(proj2 (Z.eqb_neq _ _)) by lia. by rewrite Eu.
    + exists [u], (v :: s), (escape u). split_and!; try done. intros r. by apply read_escape.
Qed.

Abbreviation units := (Forall (λ u, unit16 u = true)).

Lemma read_end r : read_unit (0x22 :: r) = None.
Proof. done. Qed.

Lemma quote_units_inj n s t r r' :
  (length s < n)%nat → units s → units t →
  quote_units s ++ 0x22 :: r = quote_units t ++ 0x22 :: r' → s = t ∧ r = r'.
Proof.
  revert s t. induction n as [|n IH]; intros s t Hn Hs Ht H; [lia|].
  destruct s as [|u s], t as [|v t].
  - by injection H.
  - destruct (quote_step v t Ht) as (tok & t' & out & _ & _ & E & Hr). rewrite E, <- app_assoc in H.
    apply (f_equal read_unit) in H. by rewrite Hr in H.
  - destruct (quote_step u s Hs) as (tok & s' & out & _ & _ & E & Hr). rewrite E, <- app_assoc in H.
    apply (f_equal read_unit) in H. by rewrite Hr in H.
  - destruct (quote_step u s Hs) as (tok & s' & out & Es & Hne & E & Hr).
    destruct (quote_step v t Ht) as (tok2 & t' & out2 & Et & Hne2 & E2 & Hr2).
    rewrite E, E2, <- !app_assoc in H. apply (f_equal read_unit) in H. rewrite Hr, Hr2 in H.
    injection H as <- H. rewrite Es, Et in *.
    apply Forall_app in Hs as [_ Hs]. apply Forall_app in Ht as [_ Ht].
    destruct (IH s' t') as [-> ->]; try done. destruct tok; [done|]. cbn in Hn. rewrite length_app in Hn. lia.
Qed.

Lemma quote_inj s t r r' : units s → units t → quote s ++ r = quote t ++ r' → s = t ∧ r = r'.
Proof.
  intros Hs Ht H. unfold quote in H. cbn in H. injection H as H. rewrite <- !app_assoc in H. cbn in H.
  by apply (quote_units_inj (S (length s))) in H; [|lia|..].
Qed.

(** ** Printed values can be told apart *)

Definition number_char (u : Z) : bool := digit u || one_of "+-.e" u.
Definition number_start (u : Z) : bool := digit u || (u =? 0x2D).

(** Finite numbers other than [-0]; the text of one that is not an integer in plain digits has a
    point or an exponent. *)
Definition wf_number (n : number) : bool :=
  match n with
  | Integer _ => true
  | Frac t => forallb number_char t && existsb (one_of ".e") t &&
              match t with c :: _ => number_start c | [] => false end
  | _ => false
  end.

(** Values that can be printed: strings of 16-bit units, proper numbers, nothing but data. *)
Fixpoint printable (v : json) : bool :=
  match v with
  | Null | Bool _ => true
  | Num n => wf_number n
  | Str s => forallb unit16 s
  | Arr l => forallb printable l
  | Obj o => forallb (λ kv, forallb unit16 kv.1 && printable kv.2) o
  | Undefined | Opaque => false
  end.

(** What can follow a value. *)
Definition delimited (r : jsstring) : Prop :=
  match r with [] => True | c :: _ => c = 0x2C ∨ c = 0x5D ∨ c = 0x7D end.

Lemma units_of s : forallb unit16 s = true → units s.
Proof. rewrite forallb_forall. intros H. apply list.Forall_forall. intros x Hx. apply H. by apply list_elem_of_In. Qed.

Lemma js_inj a b : js a = js b → a = b.
Proof.
  revert b. induction a as [|x a IH]; intros [|y b]; try done. rewrite !js_string. intros [= Hx Ha].
  f_equal; [|by apply IH]. apply N2Z.inj in Hx.
  by rewrite <- (Ascii.ascii_N_embedding x), <- (Ascii.ascii_N_embedding y), Hx.
Qed.

(** The text of an integer. *)
Lemma integer_text (z : Z) :
  ∃ c t, js (pretty z) = c :: t ∧ number_start c = true ∧ all_digits t ∧ (c = 0x2D ∨ digit c = true).
Proof.
  assert (∀ n : N, ∃ c t, js (pretty n) = c :: t ∧ digit c = true ∧ all_digits t) as Hn.
  { intros n. destruct (pretty_canonical n) as [[Hd Hne]%canonical_digits _].
    destruct (js (pretty n)) as [|c t]; [done|]. apply Forall_cons_1 in Hd as [??]. eauto. }
  destruct z as [|p|p].
  - exists 0x30, []. split_and!; [done|done|constructor|by right].
  - destruct (Hn (N.pos p)) as (c & t & Hp & Hc & Ht). exists c, t. unfold number_start. rewrite Hc.
    split_and!; [exact Hp|done|done|by right].
  - destruct (Hn (N.pos p)) as (c & t & Hp & Hc & Ht). exists 0x2D, (c :: t).
    split_and!; [|done|by constructor|by left].
    change (js (pretty (Z.neg p))) with (0x2D :: js (pretty (N.pos p))). by rewrite Hp.
Qed.

Lemma digit_number u : digit u = true → number_char u = true.
Proof. intros H. unfold number_char. by rewrite H. Qed.

Lemma digit_plain u : digit u = true → one_of ".e" u = false.
Proof.
  intros H. apply bool_decide_eq_false. intros Hin. apply between_spec in H.
  change (js ".e") with [0x2E; 0x65] in Hin. set_unfold. lia.
Qed.

Lemma number_chars n : wf_number n = true →
  Forall (λ u, number_char u = true) (number_text n) ∧ ∃ c t, number_text n = c :: t ∧ number_start c = true.
Proof.
  destruct n as [z|t| |]; intros H; try done.
  - destruct (integer_text z) as (c & t & Hz & Hc & Ht & Hd). cbn [number_text]. rewrite Hz. split; [|eauto].
    constructor; [destruct Hd as [->|Hd]; [done|by apply digit_number]|].
    eapply list.Forall_impl; [exact Ht|]. apply digit_number.
  - cbn [wf_number number_text] in *. apply andb_true_iff in H as [[H1 _]%andb_true_iff H2]. split.
    + rewrite forallb_forall in H1. apply list.Forall_forall. intros x Hx. apply H1. by apply list_elem_of_In.
    + destruct t; [done|]. eauto.
Qed.

Lemma number_text_inj m n : wf_number m = true → wf_number n = true → number_text m = number_text n → m = n.
Proof.
  assert (∀ (z : Z) t, wf_number (Frac t) = true → js (pretty z) ≠ t) as Hno.
  { intros z t H E. cbn in H. apply andb_true_iff in H as [[_ H]%andb_true_iff _].
    apply existsb_exists in H as (u & Hu%list_elem_of_In & Hdot). rewrite <- E in Hu.
    destruct (integer_text z) as (c & t' & Hz & _ & Ht & Hc). rewrite Hz in Hu.
    apply elem_of_cons in Hu as [->|Hu].
    - destruct Hc as [->|Hc]; [done|]. by rewrite digit_plain in Hdot.
    - rewrite (digit_plain u) in Hdot; [done|]. by apply (proj1 (list.Forall_forall _ _) Ht). }
  destruct m as [z|t| |], n as [z'|t'| |]; cbn [number_text]; intros Hm Hn E; try done.
  - f_equal. by apply (inj pretty), js_inj.
  - by destruct (Hno z t').
  - by destruct (Hno z' t).
  - by f_equal.
Qed.

Lemma delimiter_not_number c : c = 0x2C ∨ c = 0x5D ∨ c = 0x7D → number_char c = false.
Proof. by intros [->|[->| ->]]. Qed.

(** A run of number characters ends at the delimiter. *)
Lemma chars_inj a b r r' :
  Forall (λ u, number_char u = true) a → Forall (λ u, number_char u = true) b →
  delimited r → delimited r' → a ++ r = b ++ r' → a = b ∧ r = r'.
Proof.
  revert b. induction a as [|x a IH]; intros [|y b] Ha Hb Hr Hr' H; cbn in H.
  - done.
  - subst r. apply Forall_cons_1 in Hb as [Hy _]. by rewrite (delimiter_not_number y Hr) in Hy.
  - subst r'. apply Forall_cons_1 in Ha as [Hx _]. by rewrite (delimiter_not_number x Hr') in Hx.
  - injection H as -> H. apply Forall_cons_1 in Ha as [_ Ha]. apply Forall_cons_1 in Hb as [_ Hb].
    destruct (IH b) as [-> ->]; done.
Qed.

(** What the first character says about a value. *)
Definition first_char (v : json) (c : Z) : Prop :=
  match v with
  | Null | Undefined | Opaque => c = 0x6E
  | Bool true => c = 0x74
  | Bool false => c = 0x66
  | Num _ => number_start c = true
  | Str _ => c = 0x22
  | Arr _ => c = 0x5B
  | Obj _ => c = 0x7B
  end.

Lemma print_first v : printable v = true → ∃ c t, print v = c :: t ∧ first_char v c.
Proof.
  destruct v as [|[]|n|s|l|o| |]; intros H; cbn; try (by eauto).
  destruct (number_chars n H) as (_ & c & t & E & Hc). eauto.
Qed.

Lemma number_start_spec c : number_start c = true → c = 0x2D ∨ 0x30 ≤ c ≤ 0x39.
Proof. unfold number_start. rewrite orb_true_iff, Z.eqb_eq. intros [?%between_spec|?]; auto. Qed.

(** Lists of items between a bracket and a closing bracket. *)
Section joined.
Context {X : Type} (pr : X → jsstring) (good : X → Prop) (close : Z).
Context (Hclose : close = 0x5D ∨ close = 0x7D).
Context (Hfirst : ∀ x, good x → ∃ c t, pr x = c :: t ∧ c ≠ close).

Definition readable (x : X) : Prop :=
  ∀ y r r', good x → good y → delimited r → delimited r' → pr x ++ r = pr y ++ r' → x = y ∧ r = r'.

Definition more (l : list X) : jsstring := match l with [] => [] | _ => 0x2C :: join (map pr l) end.

Lemma join_cons x l : join (map pr (x :: l)) = pr x ++ more l.
Proof. destruct l; cbn; [by rewrite app_nil_r|done]. Qed.

Lemma more_delimited l r : delimited (more l ++ close :: r).
Proof. destruct l; cbn; [by destruct Hclose as [->| ->]; auto|by left]. Qed.

Lemma join_inj l k r r' :
  Forall readable l → Forall good l → Forall good k →
  join (map pr l) ++ close :: r = join (map pr k) ++ close :: r' → l = k ∧ r = r'.
Proof.
  intros Hrd. revert k. induction Hrd as [|x l Hx Hl IH]; intros k Hg Hk H.
  - destruct k as [|y k]; [by injection H|]. apply Forall_cons_1 in Hk as [Hy _].
    rewrite join_cons in H. destruct (Hfirst y Hy) as (c & t & E & Hc). rewrite E in H. by injection H.
  - apply Forall_cons_1 in Hg as [Hgx Hg]. rewrite join_cons in H. destruct k as [|y k].
    + destruct (Hfirst x Hgx) as (c & t & E & Hc). rewrite E in H. by injection H.
    + apply Forall_cons_1 in Hk as [Hgy Hgk]. rewrite join_cons, <- !app_assoc in H.
      destruct (Hx y _ _ Hgx Hgy (more_delimited l r) (more_delimited k r') H) as [-> H'].
      destruct l as [|x' l], k as [|y' k]; cbn [more app] in H'.
      * by injection H'.
      * destruct Hclose as [->| ->]; discriminate H'.
      * destruct Hclose as [->| ->]; discriminate H'.
      * injection H' as H'. destruct (IH (y' :: k)) as [-> ->]; done.
Qed.
End joined.

Definition entry_text (kv : jsstring * json) : jsstring := quote kv.1 ++ 0x3A :: print kv.2.
Definition printable_entry (kv : jsstring * json) : Prop := units kv.1 ∧ printable kv.2 = true.

Lemma forallb_Forall {A} (f : A → bool) l : forallb f l = true → Forall (λ x, f x = true) l.
Proof. rewrite forallb_forall. intros H. apply list.Forall_forall. intros x Hx. apply H. by apply list_elem_of_In. Qed.

Lemma printable_entries o : printable (Obj o) = true → Forall printable_entry o.
Proof.
  intros H. apply forallb_Forall in H. eapply list.Forall_impl; [exact H|].
  intros kv [H1 H2]%andb_true_iff. split; [by apply units_of|done].
Qed.

Lemma value_not_close v close :
  close = 0x5D ∨ close = 0x7D → printable v = true → ∃ c t, print v = c :: t ∧ c ≠ close.
Proof.
  intros Hc H. destruct (print_first v H) as (c & t & E & Hf). exists c, t. split; [done|]. intros ->.
  destruct v as [|[]|n| | | | |]; cbn in Hf; try (destruct Hc; lia).
  apply number_start_spec in Hf. destruct Hc; lia.
Qed.

(** Values of different kinds start differently. *)
Lemma same_kind v w c : first_char v c → first_char w c → printable v = true → printable w = true →
  match v, w with
  | Null, Null | Num _, Num _ | Str _, Str _ | Arr _, Arr _ | Obj _, Obj _ => True
  | Bool a, Bool b => a = b
  | _, _ => False
  end.
Proof.
  intros Hv Hw Pv Pw. destruct v as [|[]|n| | | | |], w as [|[]|n'| | | | |]; cbn in *; try done;
    repeat match goal with H : number_start _ = true |- _ => apply number_start_spec in H end; lia.
Qed.

Lemma print_inj v : readable print (λ v, printable v = true) v.
Proof.
  induction v as [|b|n|s|l IH|o IH| |] using json_induction; intros w r r' Pv Pw Hr Hr' H;
    destruct (print_first _ Pv) as (c & t & Ev & Hc); destruct (print_first w Pw) as (d & u & Ew & Hd);
    (assert (c = d) as <- by (rewrite Ev, Ew in H; by injection H));
    pose proof (same_kind _ w c Hc Hd Pv Pw) as Hk; destruct w as [|b'|n'|s'|l'|o'| |]; try done.
  - split; [done|]. by injection H.
  - subst b'. split; [done|]. destruct b; by injection H.
  - destruct (number_chars n Pv) as [Hn _]. destruct (number_chars n' Pw) as [Hn' _]. cbn [print] in H.
    destruct (chars_inj _ _ _ _ Hn Hn' Hr Hr' H) as [E ->]. by rewrite (number_text_inj n n').
  - cbn [print] in H. apply units_of in Pv, Pw. by destruct (quote_inj _ _ _ _ Pv Pw H) as [-> ->].
  - cbn [print app] in H. injection H as H. rewrite <- !app_assoc in H. cbn [app] in H.
    destruct (join_inj print (λ v, printable v = true) 0x5D ltac:(auto)
      (λ x, value_not_close x 0x5D ltac:(auto)) l l' r r' IH
      (forallb_Forall _ _ Pv) (forallb_Forall _ _ Pw) H) as [-> ->]. done.
  - cbn [print app] in H. injection H as H. rewrite <- !app_assoc in H. cbn [app] in H.
    destruct (join_inj entry_text printable_entry 0x7D ltac:(auto)) with (l := o) (k := o') (r := r) (r' := r')
      as [-> ->]; [| |by apply printable_entries|by apply printable_entries|exact H|done].
    + intros [k x] _. eexists 0x22, _. by split.
    + eapply list.Forall_impl; [exact IH|]. intros [k x] Hx [k' y] r1 r2 [Hk1 Hx1] [Hk2 Hx2] Hd1 Hd2 E.
      unfold entry_text in E. cbn [fst snd] in *. rewrite <- !app_assoc in E.
      destruct (quote_inj k k' _ _ Hk1 Hk2 E) as [-> E']. injection E' as E'.
      by destruct (Hx y r1 r2 Hx1 Hx2 Hd1 Hd2 E') as [-> ->].
Qed.

(** ** Enumeration order does not lose anything of a sorted object *)

Definition below_key : relation (jsstring * json) := λ x y, by_key x y ≤ 0.

Fixpoint sorted (v : json) : Prop :=
  match v with
  | Arr l => (fix go l := match l with [] => True | x :: l' => sorted x ∧ go l' end) l
  | Obj o =>
      StronglySorted below_key o ∧ NoDup (map fst o) ∧
      (fix go (o : list (jsstring * json)) := match o with [] => True | kv :: o' => sorted kv.2 ∧ go o' end) o
  | _ => True
  end.

Lemma sorted_arr l : sorted (Arr l) ↔ Forall sorted l.
Proof.
  cbn. induction l as [|x l IH]; [cbn; split; intros; [constructor|exact I]|]. rewrite list.Forall_cons, <- IH. done.
Qed.
Lemma sorted_obj o :
  sorted (Obj o) ↔ StronglySorted below_key o ∧ NoDup (map fst o) ∧ Forall (λ kv, sorted kv.2) o.
Proof.
  assert (∀ o : list (jsstring * json),
    (fix go (o : list (jsstring * json)) := match o with [] => True | kv :: o' => sorted kv.2 ∧ go o' end) o
    ↔ Forall (λ kv, sorted kv.2) o) as H.
  { clear o. induction o as [|x o IH]; [cbn; split; intros; [constructor|exact I]|].
    rewrite list.Forall_cons, <- IH. done. }
  cbn. by rewrite H.
Qed.

Lemma property_order_perm {A} (o : list (jsstring * A)) : property_order o ≡ₚ o.
Proof.
  unfold property_order. rewrite sort_by_perm. apply (filter_app_complement (λ kv, array_index kv.1 = true)).
Qed.

Abbreviation mapv f := (map (λ kv : jsstring * json, (kv.1, f kv.2))).

Lemma mapv_keys (f : json → json) o : map fst (mapv f o) = map fst o.
Proof. rewrite map_map. by apply map_ext. Qed.

Lemma keys_unique (o : list (jsstring * json)) x y :
  NoDup (map fst o) → x ∈ o → y ∈ o → by_key x y = 0 → x = y.
Proof.
  intros Hn Hx Hy E%compare_0. induction o as [|z o IH]; [by apply not_elem_of_nil in Hx|].
  apply list.NoDup_cons in Hn as [Hz Hn].
  apply elem_of_cons in Hx as [->|Hx], Hy as [->|Hy]; [done|..|by apply IH].
  - destruct Hz. rewrite E. by apply list_elem_of_fmap_2.
  - destruct Hz. rewrite <- E. by apply list_elem_of_fmap_2.
Qed.

Lemma mapv_sorted (f : json → json) o : StronglySorted below_key o → StronglySorted below_key (mapv f o).
Proof.
  induction 1 as [|x o Ho IH Hx]; cbn; constructor; [done|]. apply Forall_fmap.
  eapply list.Forall_impl; [exact Hx|]. done.
Qed.

Lemma arrange_inj v w : sorted v → sorted w → arrange v = arrange w → v = w.
Proof.
  revert w. induction v as [|b|n|s|l IH|o IH| |] using json_induction; intros w Hv Hw H;
    destruct w as [|b'|n'|s'|l'|o'| |]; cbn [arrange] in H; try discriminate H; try done.
  - injection H as H. apply sorted_arr in Hv, Hw. f_equal. revert l' Hw H.
    induction IH as [|x l Hx _ IHl]; intros [|y l'] Hw H; try done. injection H as H1 H2.
    apply Forall_cons_1 in Hv as [??], Hw as [??]. f_equal; auto.
  - injection H as H. apply sorted_obj in Hv as (S1 & N1 & F1), Hw as (S2 & N2 & F2). f_equal.
    assert (mapv arrange o = mapv arrange o') as E.
    { apply (sorted_unique by_key); [|by rewrite <- (property_order_perm (mapv arrange o)), H, property_order_perm
        |by apply mapv_sorted..].
      intros x y. apply keys_unique. by rewrite mapv_keys. }
    clear H S1 S2 N1 N2. revert o' F2 E. induction IH as [|[k x] o Hx _ IHo]; intros [|[k' y] o'] F2 E; try done.
    injection E as -> E1 E2. apply Forall_cons_1 in F1 as [??], F2 as [??]. cbn [snd] in *.
    f_equal; [f_equal; auto|auto].
Qed.

Lemma arrange_printable v : printable v = true → printable (arrange v) = true.
Proof.
  induction v as [|b|n|s|l IH|o IH| |] using json_induction; intros H; cbn [arrange printable] in *; try done.
  - apply forallb_Forall in H. apply forallb_forall. intros y (x & -> & Hx)%list_elem_of_In%list_elem_of_fmap.
    rewrite list.Forall_forall in IH, H. by apply IH, H.
  - apply forallb_Forall in H. apply forallb_forall. intros y Hy%list_elem_of_In.
    rewrite property_order_perm in Hy. apply list_elem_of_fmap in Hy as (x & -> & Hx). cbn.
    rewrite list.Forall_forall in IH, H. specialize (H x Hx). apply andb_true_iff in H as [-> H]. by apply IH.
Qed.

Lemma stringify_inj v w :
  sorted v → sorted w → printable v = true → printable w = true → stringify v = stringify w → v = w.
Proof.
  intros Sv Sw Pv Pw H. apply arrange_inj; [done..|]. unfold stringify in H.
  destruct (print_inj (arrange v) (arrange w) [] []) as [E _]; try done; try (by apply arrange_printable).
  by rewrite !app_nil_r.
Qed.

(** ** Values with the same data *)

(** Plain data: proper numbers and strings, keys that are properties and occur once. *)
Fixpoint plain (v : json) : bool :=
  match v with
  | Null | Bool _ => true
  | Num n => wf_number n
  | Str s => forallb unit16 s
  | Arr l => forallb plain l
  | Obj o => forallb (λ kv, forallb unit16 kv.1 && own_key kv && plain kv.2) o && bool_decide (NoDup (map fst o))
  | Undefined | Opaque => false
  end.

(** The same data: equal but for the order of the keys of objects. *)
Inductive same : json → json → Prop :=
| same_null : same Null Null
| same_bool b : same (Bool b) (Bool b)
| same_num n : same (Num n) (Num n)
| same_str s : same (Str s) (Str s)
| same_arr l l' : Forall2 same l l' → same (Arr l) (Arr l')
| same_obj o o1 o' :
    o ≡ₚ o1 → Forall2 (λ x y, x.1 = y.1 ∧ same x.2 y.2) o1 o' → same (Obj o) (Obj o').

(** [sortJson] on plain data. *)
Fixpoint norm (v : json) : json :=
  match v with
  | Arr l => Arr (map norm l)
  | Obj o => Obj (sort_by by_key (map (λ kv, (kv.1, norm kv.2)) o))
  | v => v
  end.

Lemma plain_obj o : plain (Obj o) = true →
  Forall (λ kv, units kv.1 ∧ own_key kv = true ∧ plain kv.2 = true) o ∧ NoDup (map fst o).
Proof.
  cbn. intros [H1 H2]%andb_true_iff. apply bool_decide_eq_true in H2. split; [|done].
  apply forallb_Forall in H1. eapply list.Forall_impl; [exact H1|].
  intros kv [[Ha Hb]%andb_true_iff Hc]%andb_true_iff. split_and!; [by apply units_of|done|done].
Qed.

Lemma insert_by_map {A B} (f : A → B) c1 c2 x l :
  (∀ a b, c2 (f a) (f b) = c1 a b) → insert_by c2 (f x) (map f l) = map f (insert_by c1 x l).
Proof. intros H. induction l as [|y l IH]; cbn; [done|]. rewrite H. destruct (_ <? _); cbn; by rewrite ?IH. Qed.

Lemma sort_by_map {A B} (f : A → B) c1 c2 l :
  (∀ a b, c2 (f a) (f b) = c1 a b) → sort_by c2 (map f l) = map f (sort_by c1 l).
Proof.
  intros H. unfold sort_by. change (@nil B) with (map f []) at 1. generalize (@nil A).
  induction l as [|x l IH]; intros acc; cbn; [done|]. by rewrite (insert_by_map f c1 c2), IH.
Qed.

Lemma sequence_ok {A E B} (f : B → A) (l : list B) : sequence (map (λ x, @Ok E A (f x)) l) = Ok (map f l).
Proof. induction l as [|x l IH]; cbn; [done|]. by rewrite IH. Qed.

Lemma sequence_map_ok {A E B} (g : B → result E A) (f : B → A) (l : list B) :
  (∀ x, x ∈ l → g x = Ok (f x)) → sequence (map g l) = Ok (map f l).
Proof.
  intros H. rewrite <- sequence_ok. f_equal. apply map_ext_in. intros x Hx. apply H. by apply list_elem_of_In.
Qed.

Lemma filter_true {A} (P : A → Prop) `{∀ x, Decision (P x)} l : Forall P l → filter P l = l.
Proof. induction 1 as [|x l Hx _ IH]; [done|]. by rewrite filter_cons_True, IH. Qed.

Lemma sortJson_plain v : plain v = true → sortJson v = Ok (norm v).
Proof.
  induction v as [|b|n|s|l IH|o IH| |] using json_induction; intros H; try done.
  - destruct n; done.
  - cbn [sortJson norm]. apply forallb_Forall in H. rewrite list.Forall_forall in IH, H.
    rewrite (sequence_map_ok sortJson norm); [done|]. intros x Hx. by apply IH, H.
  - apply plain_obj in H as [H _]. cbn [sortJson norm].
    set (f := λ kv : jsstring * json, (kv.1, if is_undefined kv.2 then Throw has_undefined else sortJson kv.2)).
    rewrite (sort_by_map f by_key by_key) by done. rewrite map_map.
    rewrite (sequence_map_ok _ (λ kv, (kv.1, norm kv.2))).
    + do 2 f_equal. rewrite <- (sort_by_map (λ kv, (kv.1, norm kv.2)) by_key by_key) by done.
      apply filter_true, list.Forall_forall. intros kv. rewrite sort_by_perm. intros (x & -> & Hx)%list_elem_of_fmap.
      rewrite list.Forall_forall in H. by apply H in Hx as (_ & ? & _).
    + intros x Hx. rewrite sort_by_perm in Hx. rewrite list.Forall_forall in IH, H.
      destruct (H x Hx) as (_ & _ & Hp). subst f. cbn [fst snd].
      destruct (is_undefined x.2) eqn:E; [by destruct x.2|]. by rewrite (IH x Hx Hp).
Qed.

Lemma norm_sorted v : plain v = true → sorted (norm v).
Proof.
  induction v as [|b|n|s|l IH|o IH| |] using json_induction; intros H; try done.
  - apply forallb_Forall in H. cbn [norm]. apply sorted_arr, Forall_fmap. rewrite list.Forall_forall in *.
    intros x Hx. by apply IH, H.
  - apply plain_obj in H as [H Hn]. cbn [norm]. apply sorted_obj. split_and!.
    + apply (sort_by_sorted by_key (H := compare_comparator fst)).
    + rewrite sort_by_perm. by rewrite mapv_keys.
    + rewrite sort_by_perm. apply Forall_fmap. rewrite list.Forall_forall in *. intros x Hx.
      by apply (IH x Hx), H.
Qed.

Lemma norm_printable v : plain v = true → printable (norm v) = true.
Proof.
  induction v as [|b|n|s|l IH|o IH| |] using json_induction; intros H; try done.
  - apply forallb_Forall in H. cbn [norm printable]. rewrite list.Forall_forall in *. apply forallb_forall.
    intros y (x & -> & Hx)%list_elem_of_In%list_elem_of_fmap. by apply IH, H.
  - apply plain_obj in H as [H _]. cbn [norm printable]. rewrite list.Forall_forall in *. apply forallb_forall.
    intros y Hy%list_elem_of_In. rewrite sort_by_perm in Hy. apply list_elem_of_fmap in Hy as (x & -> & Hx).
    destruct (H x Hx) as (Hu & _ & Hp). cbn [fst snd]. rewrite (IH x Hx Hp), andb_true_r.
    apply forallb_forall. intros u Hu'. apply (proj1 (list.Forall_forall _ _) Hu). by apply list_elem_of_In.
Qed.

Lemma norm_same v w : plain v = true → plain w = true → norm v = norm w → same v w.
Proof.
  revert w. induction v as [|b|n|s|l IH|o IH| |] using json_induction; intros w Hv Hw H;
    destruct w as [|b'|n'|s'|l'|o'| |]; cbn [norm] in H; try discriminate H; try done;
    try (by simplify_eq; constructor).
  - apply forallb_Forall in Hv, Hw. constructor. injection H as H. revert l' Hw H.
    induction IH as [|x l Hx _ IHl]; intros [|y l'] Hw H; try done.
    injection H as H1 H2. apply Forall_cons_1 in Hv as [??], Hw as [??]. constructor; auto.
  - apply plain_obj in Hv as [Hv _], Hw as [Hw _]. injection H as H.
    assert (mapv norm o' ≡ₚ mapv norm o) as Hp.
    { by rewrite <- (sort_by_perm by_key (mapv norm o)), H, sort_by_perm. }
    apply Permutation_map_inv in Hp as (o1 & E & Hp). apply (same_obj o o1); [done|].
    assert (Forall (λ kv, ∀ w, plain kv.2 = true → plain w = true → norm kv.2 = norm w → same kv.2 w) o1) as IH1.
    { rewrite list.Forall_forall in *. intros x Hx. apply IH. by rewrite Hp. }
    assert (Forall (λ kv, plain kv.2 = true) o1) as Hv1.
    { rewrite list.Forall_forall in *. intros x Hx. apply Hv. by rewrite Hp. }
    clear -IH1 Hv1 Hw E. revert o' Hw E. induction IH1 as [|[k x] o1 Hx _ IH]; intros [|[k' y] o'] Hw E; try done.
    injection E as -> E1 E2. apply Forall_cons_1 in Hv1 as [??]. apply Forall_cons_1 in Hw as [(_ & _ & ?) ?].
    cbn [snd] in *. constructor; [split; auto|auto].
Qed.

Lemma same_norm v w : plain v = true → same v w → norm v = norm w.
Proof.
  revert w. induction v as [|b|n|s|l IH|o IH| |] using json_induction; intros w Hv H;
    inversion H as [|b'|n'|s'|l0 l' Hs|o0 o1 o' Hp Hs]; subst; try done.
  - cbn [norm]. f_equal. apply forallb_Forall in Hv. clear H. revert l' Hs. induction IH as [|x l Hx _ IHl]; intros l' Hs.
    + apply Forall2_nil_inv_l in Hs as ->. done.
    + apply Forall2_cons_inv_l in Hs as (y & k & Hy & Hk & ->). apply Forall_cons_1 in Hv as [??]. cbn.
      f_equal; [auto|]. by apply IHl.
  - cbn [norm]. f_equal. apply plain_obj in Hv as [Hv Hn].
    assert (mapv norm o1 = mapv norm o') as <-.
    { assert (Forall (λ kv, ∀ w, plain kv.2 = true → same kv.2 w → norm kv.2 = norm w) o1) as IH1.
      { rewrite list.Forall_forall in *. intros x Hx. apply IH. by rewrite Hp. }
      assert (Forall (λ kv, plain kv.2 = true) o1) as Hv1.
      { rewrite list.Forall_forall in *. intros x Hx. apply Hv. by rewrite Hp. }
      clear -IH1 Hv1 Hs. revert o' Hs. induction IH1 as [|[k x] o1 Hx _ IH]; intros o' Hs.
      - apply Forall2_nil_inv_l in Hs as ->. done.
      - apply Forall2_cons_inv_l in Hs as ([k' y] & q & [Hk Hy] & Hq & ->). apply Forall_cons_1 in Hv1 as [??].
        cbn in *. subst k'. f_equal; [f_equal; auto|auto]. }
    apply (sort_by_unique by_key (H := compare_comparator fst)); [|by rewrite Hp].
    intros x y. apply keys_unique. by rewrite mapv_keys.
Qed.

(** The texts of sorted values. *)
Lemma stringify_norm_iff v w :
  plain v = true → plain w = true → (stringify (norm v) = stringify (norm w) ↔ same v w).
Proof.
  intros Hv Hw. split.
  - intros H. apply norm_same; [done..|].
    by apply stringify_inj; [apply norm_sorted|apply norm_sorted|apply norm_printable|apply norm_printable|].
  - intros H. by rewrite (same_norm v w).
Qed.

(** C26: [canonicalJson] decides equality of data: for plain JSON values it always succeeds, and two
    of them have the same canonical text exactly when they are equal but for the order of the
    keys of their objects - however deep, and although enumeration moves numeric keys to the
    front. *)
Theorem canonical_text_iff_same v w :
  plain v = true → plain w = true →
  ∃ a b, canonicalJson v = Ok a ∧ canonicalJson w = Ok b ∧ (a = b ↔ same v w).
Proof.
  intros Hv Hw. unfold canonicalJson. rewrite !sortJson_plain by done.
  eexists _, _. split_and!; [done|done|]. by apply stringify_norm_iff.
Qed.

Lemma canonical_text_iff_same_witness :
  same (Obj [(js "b", Num (Integer 1)); (js "10", Null)]) (Obj [(js "10", Null); (js "b", Num (Integer 1))]).
Proof.
  destruct (canonical_text_iff_same (Obj [(js "b", Num (Integer 1)); (js "10", Null)])
    (Obj [(js "10", Null); (js "b", Num (Integer 1))])) as (a & b & Ha & Hb & H);
    [vm_compute; reflexivity..|].
  apply H. vm_compute in Ha, Hb. congruence.
Defined.
