(* ===== verification/Contracts.v ===== *)
(** * Contracts: [contracts.ts]

    The runtime graph of a service, and contracts bound to it.

    Descriptors are made by Protobuf-ES and refer to each other in cycles, so they live in a
    [Registry] and are named by their position in it; TypeScript's types are taken for granted
    (what is declared a string is one), except that [isService] is checked as written.
    [ScalarType] is an enumeration of Protobuf-ES and a parameter, as is what
    [getDefaultValue] returns ([f_default]).  [Json] holds the canonical JSON of this file. *)
From stdpp Require Import pretty.
From S2P Require Import Prelude Errors Text HpackTables Hpack Flow Stream Regex Sort Decimal Channel Json.
Local Open Scope Z_scope.

(** ** Descriptors *)

Inductive ListKind := LScalar (scalar : Z) (longAsString : bool) | LMessage (m : nat) (delimited : bool) | LEnum (e : nat).
Inductive MapKind := MScalar (scalar : Z) | MMessage (m : nat) | MEnum (e : nat).

Inductive FieldKind :=
| KScalar (scalar : Z) (longAsString : bool)
| KMessage (m : nat) (delimited : bool)
| KEnum (e : nat)
| KList (k : ListKind) (packed : bool)
| KMap (mapKey : Z) (k : MapKind).

(** A JavaScript value that is not an object, or a [Uint8Array]. *)
Inductive jsvalue :=
| VBool (b : bool)
| VString (s : jsstring)
| VBytes (b : bytes)
| VBigInt (z : Z)
| VNumber (n : number).

Record DescField := mkField {
  f_number : Z;
  f_name : jsstring;
  f_localName : jsstring;
  f_jsonName : jsstring;
  f_utf8Validation : bool;
  f_presence : Z;
  f_oneof : option jsstring;
  f_default : option jsvalue;          (* [getDefaultValue()] *)
  f_kind : FieldKind;
}.

Record DescOneof := mkOneof { oo_name : jsstring; oo_localName : jsstring; oo_fields : list Z }.
Record DescMessage := mkMessage { m_typeName : jsstring; m_fields : list DescField; m_oneofs : list DescOneof }.
Record DescEnumValue := mkEnumValue { ev_name : jsstring; ev_localName : jsstring; ev_number : Z }.
Record DescEnum := mkEnum { en_typeName : jsstring; en_open : bool; en_values : list DescEnumValue }.
Record DescMethod := mkMethod {
  me_name : jsstring;
  me_localName : jsstring;
  me_kind : jsstring;
  me_input : nat;
  me_output : nat;
  me_idempotency : Z;
}.
Record DescService := mkService { sv_kind : jsstring; sv_typeName : jsstring; sv_methods : list DescMethod }.

Record Registry := mkRegistry { r_messages : list DescMessage; r_enums : list DescEnum }.

Definition isService (s : DescService) : bool := bool_decide (sv_kind s = js "service").

(** ** Reachable types *)

Inductive TypeRef := RefMessage (m : nat) | RefEnum (e : nat).

Definition referencedTypes (field : DescField) : list TypeRef :=
  match f_kind field with
  | KMessage m _ => [RefMessage m]
  | KEnum e => [RefEnum e]
  | KList (LMessage m _) _ => [RefMessage m]
  | KList (LEnum e) _ => [RefEnum e]
  | KMap _ (MMessage m) => [RefMessage m]
  | KMap _ (MEnum e) => [RefEnum e]
  | _ => []
  end.

Definition message_refs (reg : Registry) (m : nat) : list TypeRef :=
  match r_messages reg !! m with Some d => flat_map referencedTypes (m_fields d) | None => [] end.

(** The two walks of this file: [runtimeGraph] remembers types by name, [freezeReachableDescriptors]
    by identity ([same_message], [same_enum]).  A message is remembered before its fields are
    looked at, so the nesting of calls is at most the number of messages: one more is fuel
    enough. *)
Record Visited := mkVisited { v_messages : list nat; v_enums : list nat }.

Section walk.
Context (reg : Registry) (same_message same_enum : nat → nat → bool).

(** [enums.set(type.typeName, type)], [enums.add(type)]. *)
Fixpoint put_enum (e : nat) (l : list nat) : list nat :=
  match l with
  | [] => [e]
  | x :: l' => if same_enum x e then e :: l' else x :: put_enum e l'
  end.

Fixpoint visitMessage (fuel : nat) (m : nat) (v : Visited) : Visited :=
  match fuel with
  | O => v
  | S fuel' =>
      if existsb (same_message m) (v_messages v) then v
      else
        fold_left
          (λ v t, match t with
                  | RefMessage m' => visitMessage fuel' m' v
                  | RefEnum e => mkVisited (v_messages v) (put_enum e (v_enums v))
                  end)
          (message_refs reg m) (mkVisited (v_messages v ++ [m]) (v_enums v))
  end.

Definition visit_methods (methods : list DescMethod) : Visited :=
  let fuel := S (length (r_messages reg)) in
  fold_left (λ v method, visitMessage fuel (me_output method) (visitMessage fuel (me_input method) v))
    methods (mkVisited [] []).
End walk.

Definition message_name (reg : Registry) (m : nat) : jsstring :=
  match r_messages reg !! m with Some d => m_typeName d | None => [] end.
Definition enum_name (reg : Registry) (e : nat) : jsstring :=
  match r_enums reg !! e with Some d => en_typeName d | None => [] end.

Definition visit_by_name (reg : Registry) (s : DescService) : Visited :=
  visit_methods reg (λ m n, bool_decide (message_name reg m = message_name reg n))
    (λ x e, bool_decide (enum_name reg x = enum_name reg e)) (sv_methods s).
Definition visit_by_identity (reg : Registry) (s : DescService) : Visited :=
  visit_methods reg Nat.eqb Nat.eqb (sv_methods s).

(** ** Shapes, defaults and presence *)

(** [btoa] on the bytes. *)
Definition base64_char (n : Z) : Z :=
  if n <? 26 then 0x41 + n
  else if n <? 52 then 0x61 + (n - 26)
  else if n <? 62 then 0x30 + (n - 52)
  else if n =? 62 then 0x2B else 0x2F.

Fixpoint btoa (b : bytes) : jsstring :=
  match b with
  | x :: y :: z :: b' =>
      [base64_char (x / 4); base64_char (x mod 4 * 16 + y / 16); base64_char (y mod 16 * 4 + z / 64);
       base64_char (z mod 64)] ++ btoa b'
  | [x; y] => [base64_char (x / 4); base64_char (x mod 4 * 16 + y / 16); base64_char (y mod 16 * 4); 0x3D]
  | [x] => [base64_char (x / 4); base64_char (x mod 4 * 16); 0x3D; 0x3D]
  | [] => []
  end.

(** The loop that builds [binary] in pieces; a piece is not empty, so the length is fuel. *)
Fixpoint binary_loop (fuel : nat) (b : bytes) (i : Z) (binary : jsstring) : jsstring :=
  match fuel with
  | O => binary
  | S fuel' =>
      if i <? zlen b then binary_loop fuel' b (i + 0x8000) (binary ++ subarray b i (i + 0x8000)) else binary
  end.
Definition bytesToBase64 (b : bytes) : jsstring := btoa (binary_loop (length b) b 0 []).

(** [String(value)]; [TypedArray.prototype.toString] joins with commas. *)
Definition number_string (n : number) : jsstring :=
  match n with NotFinite text => text | n => number_text n end.
Definition value_string (v : jsvalue) : jsstring :=
  match v with
  | VBool b => if b then js "true" else js "false"
  | VString s => s
  | VBytes b => join (map (λ x, js (pretty x)) b)
  | VBigInt z => js (pretty z)
  | VNumber n => number_string n
  end.

(** The value itself as a property. *)
Definition raw_value (v : jsvalue) : json :=
  match v with
  | VBool b => Bool b
  | VString s => Str s
  | VNumber n => Num n
  | VBytes _ | VBigInt _ => Opaque
  end.

Definition float_value (v : jsvalue) : json :=
  match v with
  | VNumber (NotFinite text) => Str text
  | VNumber NegZero => Str (js "-0")
  | v => raw_value v
  end.

Definition tagged (type : string) (value : json) : json := Obj [(js "type", Str (js type)); (js "value", value)].

Definition unsupported_scalar (scalar : Z) : TypeError := TypeErr (js "Unsupported Protobuf scalar: " ++ js (pretty scalar)).
Definition unsupported_presence (presence : Z) : TypeError := TypeErr (js "Unsupported field presence: " ++ js (pretty presence)).

Definition presenceName (presence : Z) : result TypeError jsstring :=
  if presence =? 0 then Ok (js "FIELD_PRESENCE_UNKNOWN")
  else if presence =? 1 then Ok (js "EXPLICIT")
  else if presence =? 2 then Ok (js "IMPLICIT")
  else if presence =? 3 then Ok (js "LEGACY_REQUIRED")
  else Throw (unsupported_presence presence).

Definition messageShape (typeName : jsstring) (delimitedEncoding : bool) : json :=
  Obj [(js "kind", Str (js "message")); (js "typeName", Str typeName); (js "delimitedEncoding", Bool delimitedEncoding)].
Definition enumShape (typeName : jsstring) : json :=
  Obj [(js "kind", Str (js "enum")); (js "typeName", Str typeName)].

Definition nullable (s : option jsstring) : json := match s with Some s => Str s | None => Null end.

Section graph.
(** The numeric members of the enumeration [ScalarType]. *)
Context (ScalarType : list (jsstring * Z)) (reg : Registry).

(** [ScalarType.NAME], and [scalarNames]: of two names the later one stays. *)
Definition scalar_value (name : string) : option Z :=
  snd <$> List.find (λ kv, bool_decide (kv.1 = js name)) ScalarType.
Definition is_scalar (scalar : Z) (name : string) : bool := bool_decide (scalar_value name = Some scalar).

Definition scalarName (scalar : Z) : result TypeError jsstring :=
  match fold_left (λ found kv, if snd kv =? scalar then Some (fst kv) else found) ScalarType None with
  | Some name => if bool_decide (name = []) then Throw (unsupported_scalar scalar) else Ok name
  | None => Throw (unsupported_scalar scalar)
  end.

Definition scalarShape (scalar : Z) (longAsString : bool) : result TypeError json :=
  match scalarName scalar with
  | Ok name => Ok (Obj [(js "kind", Str (js "scalar")); (js "scalar", Str name); (js "longAsString", Bool longAsString)])
  | Throw e => Throw e
  end.

Definition listElementShape (k : ListKind) : result TypeError json :=
  match k with
  | LScalar scalar longAsString => scalarShape scalar longAsString
  | LMessage m delimited => Ok (messageShape (message_name reg m) delimited)
  | LEnum e => Ok (enumShape (enum_name reg e))
  end.

Definition mapValueShape (k : MapKind) : result TypeError json :=
  match k with
  | MScalar scalar => scalarShape scalar false
  | MMessage m => Ok (messageShape (message_name reg m) false)
  | MEnum e => Ok (enumShape (enum_name reg e))
  end.

(** The [switch] at the head of [fieldGraph]. *)
Definition field_shape (k : FieldKind) : result TypeError json :=
  match k with
  | KScalar scalar longAsString => scalarShape scalar longAsString
  | KMessage m delimited => Ok (messageShape (message_name reg m) delimited)
  | KEnum e => Ok (enumShape (enum_name reg e))
  | KList k packed =>
      match listElementShape k with
      | Ok element => Ok (Obj [(js "kind", Str (js "list")); (js "element", element); (js "packed", Bool packed)])
      | Throw e => Throw e
      end
  | KMap mapKey k =>
      match scalarName mapKey with
      | Throw e => Throw e
      | Ok keyScalar =>
          match mapValueShape k with
          | Ok value => Ok (Obj [(js "kind", Str (js "map")); (js "keyScalar", Str keyScalar); (js "value", value);
                                 (js "delimitedEncoding", Bool false)])
          | Throw e => Throw e
          end
      end
  end.

Definition scalar_default (scalar : Z) (value : jsvalue) : json :=
  if is_scalar scalar "BOOL" then tagged "bool" (raw_value value)
  else if is_scalar scalar "STRING" then tagged "string" (raw_value value)
  else if is_scalar scalar "BYTES" then
    tagged "bytes" (Str (bytesToBase64 match value with VBytes b => b | _ => [] end))
  else if is_scalar scalar "INT64" || is_scalar scalar "UINT64" || is_scalar scalar "SINT64" ||
          is_scalar scalar "FIXED64" || is_scalar scalar "SFIXED64"
  then tagged "integer" (Str (value_string value))
  else if is_scalar scalar "FLOAT" || is_scalar scalar "DOUBLE" then tagged "number" (float_value value)
  else tagged "integer" (Str (value_string value)).

Definition fieldDefault (field : DescField) : json :=
  match f_kind field, f_default field with
  | KEnum _, Some value => tagged "enum" (raw_value value)
  | KScalar scalar _, Some value => scalar_default scalar value
  | _, _ => Null
  end.

Definition fieldGraph (field : DescField) : result TypeError json :=
  match field_shape (f_kind field) with
  | Throw e => Throw e
  | Ok shape =>
      match presenceName (f_presence field) with
      | Throw e => Throw e
      | Ok presence =>
          Ok (Obj [(js "number", Num (Integer (f_number field)));
                   (js "name", Str (f_name field));
                   (js "localName", Str (f_localName field));
                   (js "jsonName", Str (f_jsonName field));
                   (js "utf8Validation", Bool (f_utf8Validation field));
                   (js "presence", Str presence);
                   (js "oneof", nullable (f_oneof field));
                   (js "default", fieldDefault field);
                   (js "shape", shape)])
      end
  end.

(** ** The graph *)

Definition method_graph (method : DescMethod) : json :=
  Obj [(js "name", Str (me_name method));
       (js "localName", Str (me_localName method));
       (js "kind", Str (me_kind method));
       (js "input", Str (message_name reg (me_input method)));
       (js "output", Str (message_name reg (me_output method)));
       (js "idempotency", Num (Integer (me_idempotency method)))].

Definition oneof_graph (oneof : DescOneof) : json :=
  Obj [(js "name", Str (oo_name oneof));
       (js "localName", Str (oo_localName oneof));
       (js "fields", Arr (map (λ n, Num (Integer n)) (sort_by compare_numbers (oo_fields oneof))))].

Definition by_number (a b : DescField) : Z := compare_numbers (f_number a) (f_number b).
Definition by_oneof_name (a b : DescOneof) : Z := compare (oo_name a) (oo_name b).
Definition by_method_name (a b : DescMethod) : Z := compare (me_name a) (me_name b).

Definition message_graph (message : DescMessage) : result TypeError json :=
  match sequence (map fieldGraph (sort_by by_number (m_fields message))) with
  | Throw e => Throw e
  | Ok fields =>
      Ok (Obj [(js "typeName", Str (m_typeName message));
               (js "fields", Arr fields);
               (js "oneofs", Arr (map oneof_graph (sort_by by_oneof_name (m_oneofs message))))])
  end.

(** The [Map] of values by number, in the order of first occurrence. *)
Fixpoint group_value (grouped : list (Z * list DescEnumValue)) (value : DescEnumValue)
    : list (Z * list DescEnumValue) :=
  match grouped with
  | [] => [(ev_number value, [value])]
  | (n, aliases) :: grouped' =>
      if n =? ev_number value then (n, aliases ++ [value]) :: grouped'
      else (n, aliases) :: group_value grouped' value
  end.

Definition alias_graph (value : DescEnumValue) : json :=
  Obj [(js "name", Str (ev_name value)); (js "localName", Str (ev_localName value))].

Definition by_group (a b : Z * list DescEnumValue) : Z := compare_numbers a.1 b.1.

Definition group_values (values : list DescEnumValue) : list (Z * list DescEnumValue) :=
  sort_by by_group (fold_left group_value values []).

Definition enum_graph (desc : DescEnum) : json :=
  Obj [(js "typeName", Str (en_typeName desc));
       (js "open", Bool (en_open desc));
       (js "defaultName", Str match en_values desc with v :: _ => ev_name v | [] => [] end);
       (js "defaultNumber", Num (Integer match en_values desc with v :: _ => ev_number v | [] => 0 end));
       (js "values", Arr (map (λ g, Obj [(js "number", Num (Integer g.1));
                                         (js "aliases", Arr (map alias_graph g.2))]) (group_values (en_values desc))))].

Definition by_message_name (a b : DescMessage) : Z := compare (m_typeName a) (m_typeName b).
Definition by_enum_name (a b : DescEnum) : Z := compare (en_typeName a) (en_typeName b).

Definition GRAPH_FORMAT : jsstring := js "protobuf-es.runtime-graph.v1".
Definition invalid_service : TypeError := TypeErr (js "Invalid service descriptor").

Definition sorted_messages (v : Visited) : list DescMessage :=
  sort_by by_message_name (omap (λ m, r_messages reg !! m) (v_messages v)).
Definition sorted_enums (v : Visited) : list DescEnum :=
  sort_by by_enum_name (omap (λ e, r_enums reg !! e) (v_enums v)).

Definition runtimeGraph (service : DescService) : result TypeError json :=
  if negb (isService service) then Throw invalid_service
  else
    let v := visit_by_name reg service in
    match sequence (map message_graph (sorted_messages v)) with
    | Throw e => Throw e
    | Ok messages =>
        Ok (Obj [(js "format", Str GRAPH_FORMAT);
                 (js "service", Obj [(js "typeName", Str (sv_typeName service));
                                     (js "methods", Arr (map method_graph (sort_by by_method_name (sv_methods service))))]);
                 (js "messages", Arr messages);
                 (js "enums", Arr (map enum_graph (sorted_enums v)))])
    end.
End graph.

(** ** The types of the graph

    The interfaces that describe it, as checkers: an object type asks for its properties. *)
Inductive ty :=
| TString | TNumber | TInteger | TBool | TNull
| TFalse                               (* the literal [false] *)
| TLiteral (s : jsstring)
| TArray (t : ty)
| TObject (fields : list (jsstring * ty))
| TUnion (ts : list ty).

Definition property (o : list (jsstring * json)) (k : jsstring) : json :=
  match List.find (λ kv, bool_decide (kv.1 = k)) o with Some kv => kv.2 | None => Undefined end.

Fixpoint has_type (t : ty) (v : json) : bool :=
  match t, v with
  | TString, Str _ => true
  | TNumber, Num n => match n with NegZero | NotFinite _ => false | _ => true end
  | TInteger, Num (Integer _) => true
  | TBool, Bool _ => true
  | TNull, Null => true
  | TFalse, Bool b => negb b
  | TLiteral s, Str s' => bool_decide (s = s')
  | TArray t, Arr l => forallb (has_type t) l
  | TObject fields, Obj o =>
      Nat.eqb (length o) (length fields) && forallb (λ f, has_type f.2 (property o f.1)) fields
  | TUnion ts, v => existsb (λ t, has_type t v) ts
  | _, _ => false
  end.

Definition prop (name : string) (t : ty) : jsstring * ty := (js name, t).
Definition literal_type (s : string) : ty := TLiteral (js s).

Definition RuntimeMethod : ty :=
  TObject [prop "name" TString; prop "localName" TString;
           prop "kind" (TUnion [literal_type "unary"; literal_type "server_streaming";
                                literal_type "client_streaming"; literal_type "bidi_streaming"]);
           prop "input" TString; prop "output" TString; prop "idempotency" TInteger].

Definition RuntimeDefault : ty :=
  TUnion [TObject [prop "type" (literal_type "bool"); prop "value" TBool];
          TObject [prop "type" (literal_type "string"); prop "value" TString];
          TObject [prop "type" (literal_type "bytes"); prop "value" TString];
          TObject [prop "type" (literal_type "integer"); prop "value" TString];
          TObject [prop "type" (literal_type "number");
                   prop "value" (TUnion [TNumber; literal_type "NaN"; literal_type "Infinity";
                                         literal_type "-Infinity"; literal_type "-0"])];
          TObject [prop "type" (literal_type "enum"); prop "value" TInteger]].

Definition RuntimeScalarShape : ty :=
  TObject [prop "kind" (literal_type "scalar"); prop "scalar" TString; prop "longAsString" TBool].
Definition RuntimeMessageShape : ty :=
  TObject [prop "kind" (literal_type "message"); prop "typeName" TString; prop "delimitedEncoding" TBool].
Definition RuntimeEnumShape : ty := TObject [prop "kind" (literal_type "enum"); prop "typeName" TString].
Definition element_type : ty := TUnion [RuntimeScalarShape; RuntimeMessageShape; RuntimeEnumShape].
Definition RuntimeFieldShape : ty :=
  TUnion [RuntimeScalarShape; RuntimeMessageShape; RuntimeEnumShape;
          TObject [prop "kind" (literal_type "list"); prop "element" element_type; prop "packed" TBool];
          TObject [prop "kind" (literal_type "map"); prop "keyScalar" TString; prop "value" element_type;
                   prop "delimitedEncoding" TFalse]].

Definition RuntimeField : ty :=
  TObject [prop "number" TInteger; prop "name" TString; prop "localName" TString; prop "jsonName" TString;
           prop "utf8Validation" TBool; prop "presence" TString; prop "oneof" (TUnion [TString; TNull]);
           prop "default" (TUnion [RuntimeDefault; TNull]); prop "shape" RuntimeFieldShape].

Definition RuntimeMessage : ty :=
  TObject [prop "typeName" TString; prop "fields" (TArray RuntimeField);
           prop "oneofs" (TArray (TObject [prop "name" TString; prop "localName" TString;
                                           prop "fields" (TArray TInteger)]))].

Definition RuntimeEnum : ty :=
  TObject [prop "typeName" TString; prop "open" TBool; prop "defaultName" TString; prop "defaultNumber" TInteger;
           prop "values" (TArray (TObject [prop "number" TInteger;
             prop "aliases" (TArray (TObject [prop "name" TString; prop "localName" TString]))]))].

Definition RuntimeGraph : ty :=
  TObject [prop "format" (TLiteral GRAPH_FORMAT);
           prop "service" (TObject [prop "typeName" TString; prop "methods" (TArray RuntimeMethod)]);
           prop "messages" (TArray RuntimeMessage); prop "enums" (TArray RuntimeEnum)].

(** ** Patterns *)

Definition api_char (u : Z) : bool := upper u || lower u || digit u || one_of "._:/-" u.
(** [/^[A-Za-z0-9._:/-]{1,64}$/] and [/^[a-f0-9]{64}$/i]. *)
Definition API_PATTERN : re := Seq (Many api_char 1 (Some 64%nat)) End_.
Definition hex_char (u : Z) : bool := between 0x61 0x66 (to_lower u) || digit u.
Definition FINGERPRINT_PATTERN : re := Seq (Many hex_char 64 (Some 64%nat)) End_.

(** [0|[1-9][0-9]*], and three of them with points between. *)
Definition VERSION_PART : re :=
  Group (Alt (Class (chr 0x30)) (Seq (Class (between 0x31 0x39)) (Many digit 0 None))).
Definition VERSION_PATTERN : re :=
  Seq VERSION_PART (Seq (Class (chr 0x2E)) (Seq VERSION_PART (Seq (Class (chr 0x2E)) (Seq VERSION_PART End_)))).

Definition matchesEntire (value : jsstring) (pattern : re) : bool :=
  match exec pattern value with Some (m, _) => bool_decide (m = value) | None => false end.

(** [Number] of a long string of digits is rounded, but stays above the bound. *)
Definition isCanonicalVersion (value : jsstring) : bool :=
  match exec VERSION_PATTERN value with
  | Some (m, parts) => bool_decide (m = value) && forallb (λ part, digits_value part <=? 2147483647) parts
  | None => false
  end.

(** ** Contracts *)

(** The objects that [freezeReachableDescriptors] freezes. *)
Inductive Frozen :=
| FProto (m i : nat) | FField (m i : nat)
| FOneofFields (m i : nat) | FOneof (m i : nat)
| FFields (m : nat) | FFieldRecord (m : nat) | FOneofs (m : nat) | FMembers (m : nat)
| FNestedMessages (m : nat) | FNestedEnums (m : nat) | FNestedExtensions (m : nat) | FMessage (m : nat)
| FEnumValue (e i : nat) | FEnumValues (e : nat) | FEnumRecord (e : nat) | FEnum (e : nat)
| FMethod (i : nat) | FMethods | FMethodRecord | FService.

Definition freeze_message (reg : Registry) (m : nat) : list Frozen :=
  match r_messages reg !! m with
  | None => []
  | Some d =>
      flat_map (λ i, [FProto m i; FField m i]) (seq 0 (length (m_fields d))) ++
      flat_map (λ i, [FOneofFields m i; FOneof m i]) (seq 0 (length (m_oneofs d))) ++
      [FFields m; FFieldRecord m; FOneofs m; FMembers m; FNestedMessages m; FNestedEnums m; FNestedExtensions m;
       FMessage m]
  end.
Definition freeze_enum (reg : Registry) (e : nat) : list Frozen :=
  match r_enums reg !! e with
  | None => []
  | Some d => map (FEnumValue e) (seq 0 (length (en_values d))) ++ [FEnumValues e; FEnumRecord e; FEnum e]
  end.

(** The set of objects that are frozen; freezing is idempotent, so their order is left out. *)
Definition freezeReachableDescriptors (reg : Registry) (service : DescService) : list Frozen :=
  let v := visit_by_identity reg service in
  flat_map (freeze_message reg) (v_messages v) ++ flat_map (freeze_enum reg) (v_enums v) ++
  map FMethod (seq 0 (length (sv_methods service))) ++ [FMethods; FMethodRecord; FService].

Record ContractInput := mkInput {
  ci_service : DescService;
  ci_api : jsstring;
  ci_version : jsstring;
  ci_fingerprint : jsstring;
  ci_graph : json;
}.

Record ContractRecord := mkContract {
  cr_service : DescService;
  cr_api : jsstring;
  cr_version : jsstring;
  cr_fingerprint : jsstring;
  cr_graph : jsstring;
}.

(** [value.trim() === ""]. *)
Definition blank (value : jsstring) : bool := forallb is_space value.

Definition contract_error (m : string) : TypeError := TypeErr (js m).
Definition graph_mismatch (service : DescService) : TypeError :=
  TypeErr (js "Contract runtime graph does not match " ++ sv_typeName service).

(** The registered definitions; an artifact is named by its position. *)
Abbreviation definitions := (list ContractRecord).

Section contract.
Context (ScalarType : list (jsstring * Z)) (reg : Registry).

(** The checks of [defineContract] and the record it registers. *)
Definition check_contract (input : ContractInput) : result TypeError ContractRecord :=
  if negb (isService (ci_service input)) then Throw (contract_error "Invalid contract service descriptor")
  else if blank (ci_api input) then Throw (contract_error "Invalid contract api")
  else if blank (ci_version input) then Throw (contract_error "Invalid contract version")
  else if blank (ci_fingerprint input) then Throw (contract_error "Invalid contract fingerprint")
  else if negb (matchesEntire (ci_api input) API_PATTERN)
  then Throw (contract_error "Contract API must contain 1-64 ASCII letters, digits, or ._:/-")
  else if negb (isCanonicalVersion (ci_version input))
  then Throw (contract_error "Contract version must be canonical MAJOR.MINOR.PATCH")
  else if negb (matchesEntire (ci_fingerprint input) FINGERPRINT_PATTERN)
  then Throw (contract_error "Contract fingerprint must be a 64-character SHA-256 hex digest")
  else
    match canonicalJson (ci_graph input) with
    | Throw e => Throw e
    | Ok expected =>
        match runtimeGraph ScalarType reg (ci_service input) with
        | Throw e => Throw e
        | Ok graph =>
            match canonicalJson graph with
            | Throw e => Throw e
            | Ok actual =>
                if negb (bool_decide (expected = actual)) then Throw (graph_mismatch (ci_service input))
                else Ok (mkContract (ci_service input) (ci_api input) (ci_version input)
                           (toLowerCase (ci_fingerprint input)) actual)
            end
        end
    end.

(** The artifact, and the state after: the definitions and the frozen objects. *)
Definition defineContract (input : ContractInput) (st : definitions * list Frozen)
    : (definitions * list Frozen) * result TypeError nat :=
  match check_contract input with
  | Throw e => (st, Throw e)
  | Ok record =>
      ((st.1 ++ [record], st.2 ++ freezeReachableDescriptors reg (ci_service input)), Ok (length st.1))
  end.

End contract.

(** What plain JavaScript can pass for a definition: an artifact of [defineContract], another
    object or function, or neither. *)
Inductive Reference := Artifact (i : nat) | OtherObject | NotAnObject.

Definition contractRecord (definition : Reference) (st : definitions * list Frozen)
    : result TypeError ContractRecord :=
  match definition with
  | NotAnObject => Throw (contract_error "A generated contract definition is required")
  | OtherObject => Throw (contract_error "Unregistered contract definition")
  | Artifact i =>
      match st.1 !! i with
      | Some record => Ok record
      | None => Throw (contract_error "Unregistered contract definition")
      end
  end.
