(* ===== verification/Walk.v ===== *)
(** * Walk: the walks of [contracts.ts] visit exactly the reachable types *)
From S2P Require Import Prelude Errors Text HpackTables Hpack Flow Stream Regex Sort Decimal Channel Json Contracts.
Local Open Scope Z_scope.

Section walk.
Context (reg : Registry) (same_message same_enum : nat → nat → bool).

Definition known_message (m : nat) : Prop := (m < length (r_messages reg))%nat.
Definition known_enum (e : nat) : Prop := (e < length (r_enums reg))%nat.
Definition known (t : TypeRef) : Prop :=
  match t with RefMessage m => known_message m | RefEnum e => known_enum e end.

(** Descriptors refer to descriptors of the registry, and [same] tells them apart. *)
Context (Hrefs : ∀ m, Forall known (message_refs reg m)).
Context (Hmessage : ∀ m n, known_message m → known_message n → same_message m n = true ↔ m = n).
Context (Henum : ∀ e f, known_enum e → known_enum f → same_enum e f = true ↔ e = f).

(** The messages that [m] refers to, directly or not. *)
Inductive reaches (m : nat) : nat → Prop :=
| reaches_refl : reaches m m
| reaches_step x y : reaches m x → RefMessage y ∈ message_refs reg x → reaches m y.

Lemma reaches_first m x y : RefMessage x ∈ message_refs reg m → reaches x y → reaches m y.
Proof.
  intros Hx H. induction H as [|y z _ IH Hz]; [by apply (reaches_step m m); [constructor|]|].
  by apply (reaches_step m y).
Qed.

Record visited_ok (v : Visited) : Prop := mkVisitedOk {
  vo_messages : Forall known_message (v_messages v);
  vo_nodup : NoDup (v_messages v);
  vo_enums : Forall known_enum (v_enums v);
  vo_enums_nodup : NoDup (v_enums v);
}.

(** [w] is [v] after the types [ts] were visited: everything new is reachable from them, and
    what the new messages refer to has been visited too. *)
Record grows (ts : list TypeRef) (v w : Visited) (new : list nat) : Prop := mkGrows {
  gr_messages : v_messages w = v_messages v ++ new;
  gr_ok : visited_ok w;
  gr_all : ∀ m, RefMessage m ∈ ts → m ∈ v_messages w;
  gr_reach : ∀ x, x ∈ new → ∃ m, RefMessage m ∈ ts ∧ reaches m x;
  gr_closed : ∀ x y, x ∈ new → RefMessage y ∈ message_refs reg x → y ∈ v_messages w;
  gr_enums : ∀ e, e ∈ v_enums w ↔
    e ∈ v_enums v ∨ RefEnum e ∈ ts ∨ ∃ x, x ∈ new ∧ RefEnum e ∈ message_refs reg x;
}.

Lemma grows_nil v : visited_ok v → grows [] v v [].
Proof.
  intros Hv. split; [by rewrite app_nil_r|done|..]; try (intros ? H; by apply not_elem_of_nil in H).
  - intros x y H. by apply not_elem_of_nil in H.
  - intros e. split; [auto|]. intros [?|[H|(x & H & _)]]; [done|by apply not_elem_of_nil in H..].
Qed.

Lemma grows_app ts ts' v w z new new' :
  grows ts v w new → grows ts' w z new' → grows (ts ++ ts') v z (new ++ new').
Proof.
  intros [M1 O1 A1 R1 C1 E1] [M2 O2 A2 R2 C2 E2]. split; [by rewrite M2, M1, app_assoc|done|..].
  - intros m [H|H]%elem_of_app; [|by apply A2]. rewrite M2. apply elem_of_app. left. by apply A1.
  - intros x [H|H]%elem_of_app; [destruct (R1 x H) as (m & ? & ?)|destruct (R2 x H) as (m & ? & ?)];
      exists m; (split; [apply elem_of_app; auto|done]).
  - intros x y [H|H]%elem_of_app Hy; [|by apply (C2 x)]. rewrite M2. apply elem_of_app. left. by apply (C1 x).
  - intros e. rewrite E2, E1. split.
    + intros [[?|[?|(x & ? & ?)]]|[?|(x & ? & ?)]]; [by left|right; left; apply elem_of_app; by left| |
        right; left; apply elem_of_app; by right|]; right; right; exists x; (split; [apply elem_of_app; auto|done]).
    + intros [?|[[?|?]%elem_of_app|(x & [?|?]%elem_of_app & ?)]]; eauto 8.
Qed.

Lemma seen_spec m v :
  visited_ok v → known_message m → existsb (same_message m) (v_messages v) = true ↔ m ∈ v_messages v.
Proof.
  intros Hv Hm. rewrite existsb_exists. split.
  - intros (x & Hx%list_elem_of_In & E). apply Hmessage in E; [by subst|done|].
    by apply (proj1 (list.Forall_forall _ _) (vo_messages v Hv)).
  - intros H. exists m. split; [by apply list_elem_of_In|]. by apply Hmessage.
Qed.

Lemma put_enum_spec e l :
  known_enum e → Forall known_enum l → NoDup l →
  Forall known_enum (put_enum same_enum e l) ∧ NoDup (put_enum same_enum e l) ∧
  ∀ x, x ∈ put_enum same_enum e l ↔ x ∈ l ∨ x = e.
Proof.
  intros He. induction l as [|y l IH]; intros Hl Hn; cbn [put_enum].
  - split_and!; [by constructor|apply NoDup_singleton|]. intros x. rewrite list_elem_of_singleton. set_solver.
  - apply Forall_cons_1 in Hl as [Hy Hl]. apply list.NoDup_cons in Hn as [Hny Hn].
    destruct (same_enum y e) eqn:E.
    + apply Henum in E as ->; [|done..]. split_and!; [by constructor|by apply list.NoDup_cons|].
      intros x. rewrite elem_of_cons. naive_solver.
    + destruct (IH Hl Hn) as (H1 & H2 & H3). split_and!; [by constructor| |].
      * apply list.NoDup_cons. split; [|done]. rewrite H3. intros [?|<-]; [done|].
        assert (same_enum y y = true) by by apply Henum. congruence.
      * intros x. rewrite !elem_of_cons, H3. tauto.
Qed.

Lemma grows_enum e v :
  visited_ok v → known_enum e →
  grows [RefEnum e] v (mkVisited (v_messages v) (put_enum same_enum e (v_enums v))) [].
Proof.
  intros [V1 V2 V3 V4] He. destruct (put_enum_spec e (v_enums v) He V3 V4) as (H1 & H2 & H3).
  split; cbn; [by rewrite app_nil_r|done|..].
  - intros m H%list_elem_of_singleton. done.
  - intros x H. by apply not_elem_of_nil in H.
  - intros x y H. by apply not_elem_of_nil in H.
  - intros x. rewrite H3, list_elem_of_singleton. split.
    + intros [?| ->]; auto.
    + intros [?|[[= ->]|(y & H & _)]]; [by left|by right|by apply not_elem_of_nil in H].
Qed.

Lemma grows_message m v w new :
  m ∉ v_messages v →
  grows (message_refs reg m) (mkVisited (v_messages v ++ [m]) (v_enums v)) w new →
  grows [RefMessage m] v w (m :: new).
Proof.
  intros Hm [M O A R C E]. cbn in M, E. split; [by rewrite M, <- app_assoc|done|..].
  - intros x [= ->]%list_elem_of_singleton. rewrite M. set_solver.
  - intros x [->|H]%elem_of_cons; exists m; (split; [by apply list_elem_of_singleton|]); [constructor|].
    destruct (R x H) as (y & Hy & Hr). by apply (reaches_first m y).
  - intros x y [->|H]%elem_of_cons Hy; [by apply A|by apply (C x)].
  - intros e. rewrite E. split.
    + intros [?|[?|(x & ? & ?)]]; [by left|right; right; exists m; by split; [left|]|].
      right. right. exists x. by split; [right|].
    + intros [?|[H%list_elem_of_singleton|(x & [->|H]%elem_of_cons & Hx)]]; [by left|done|auto|].
      right. right. by exists x.
Qed.

(** How many messages are still to be visited. *)
Definition unseen (v : Visited) : nat := length (r_messages reg) - length (v_messages v).

Lemma visited_length v : visited_ok v → (length (v_messages v) ≤ length (r_messages reg))%nat.
Proof.
  intros Hv. rewrite <- (length_seq (length (r_messages reg)) 0).
  apply submseteq_length, NoDup_submseteq; [by apply vo_nodup|].
  intros x Hx. apply elem_of_seq. pose proof (proj1 (list.Forall_forall _ _) (vo_messages v Hv) x Hx) as Hk.
  unfold known_message in Hk. lia.
Qed.

Lemma grows_length ts v w new : grows ts v w new → (unseen w ≤ unseen v)%nat.
Proof. intros H. unfold unseen. rewrite (gr_messages _ _ _ _ H), length_app. lia. Qed.

Abbreviation visit := (visitMessage reg same_message same_enum).
Abbreviation visit_type fuel := (λ v t,
  match t with
  | RefMessage m => visit fuel m v
  | RefEnum e => mkVisited (v_messages v) (put_enum same_enum e (v_enums v))
  end).

Lemma fold_grows fuel ts v :
  (∀ m v, visited_ok v → known_message m → (unseen v < fuel)%nat → ∃ new, grows [RefMessage m] v (visit fuel m v) new) →
  visited_ok v → Forall known ts → (unseen v < fuel)%nat →
  ∃ new, grows ts v (fold_left (visit_type fuel) ts v) new.
Proof.
  intros Hvisit. revert v. induction ts as [|t ts IH]; intros v Hv Hts Hf.
  - exists []. by apply grows_nil.
  - apply Forall_cons_1 in Hts as [Ht Hts]. cbn [fold_left].
    assert (∃ new, grows [t] v (visit_type fuel v t) new) as [new Hg].
    { destruct t as [m|e]; [by apply Hvisit|]. exists []. by apply grows_enum. }
    destruct (IH (visit_type fuel v t)) as [new' Hg']; [by apply (gr_ok _ _ _ _ Hg)|done| |].
    + pose proof (grows_length _ _ _ _ Hg). lia.
    + exists (new ++ new'). by apply (grows_app [t] ts _ (visit_type fuel v t)).
Qed.

(** The nesting of calls is bounded by the messages not seen yet. *)
Lemma visit_grows fuel m v :
  visited_ok v → known_message m → (unseen v < fuel)%nat → ∃ new, grows [RefMessage m] v (visit fuel m v) new.
Proof.
  revert m v. induction fuel as [|fuel IH]; intros m v Hv Hm Hf; [lia|]. cbn [visitMessage].
  destruct (existsb (same_message m) (v_messages v)) eqn:E.
  - apply seen_spec in E; [|done..]. exists []. destruct (grows_nil v Hv) as [M O A R C En].
    split; [done|done|..]; try (intros ? H; by apply not_elem_of_nil in H).
    + by intros x [= ->]%list_elem_of_singleton.
    + intros x y H. by apply not_elem_of_nil in H.
    + intros e. split; [auto|]. intros [?|[?%list_elem_of_singleton|(x & H & _)]]; [done|done|].
      by apply not_elem_of_nil in H.
  - assert (m ∉ v_messages v) as Hnew by (intros H%seen_spec; [congruence|done..]).
    set (v1 := mkVisited (v_messages v ++ [m]) (v_enums v)).
    assert (visited_ok v1) as Hv1.
    { destruct Hv as [V1 V2 V3 V4]. split; cbn; [by apply Forall_app_2; [|constructor]| |done|done].
      apply list.NoDup_app. split_and!; [done|set_solver|apply NoDup_singleton]. }
    destruct (fold_grows fuel (message_refs reg m) v1) as [new Hg]; [exact IH|done|done| |].
    + pose proof (visited_length v1 Hv1) as Hl. unfold unseen in *. subst v1. cbn in *.
      rewrite length_app in *. cbn in *. lia.
    + exists (m :: new). by apply grows_message.
Qed.

Definition roots (methods : list DescMethod) : list TypeRef :=
  flat_map (λ method, [RefMessage (me_input method); RefMessage (me_output method)]) methods.

Lemma methods_grow methods v fuel :
  visited_ok v → Forall known (roots methods) → (unseen v < fuel)%nat →
  ∃ new, grows (roots methods) v
    (fold_left (λ v method, visit fuel (me_output method) (visit fuel (me_input method) v)) methods v) new.
Proof.
  intros Hv Hr Hf.
  assert (fold_left (λ v method, visit fuel (me_output method) (visit fuel (me_input method) v)) methods v
    = fold_left (visit_type fuel) (roots methods) v) as ->.
  { clear. revert v. induction methods as [|method methods IH]; intros v; cbn; [done|]. by rewrite IH. }
  apply fold_grows; [|done..]. intros m w Hw Hm Hfw. by apply visit_grows.
Qed.

(** What a service can reach. *)
Definition needed_message (methods : list DescMethod) (m : nat) : Prop :=
  ∃ r, RefMessage r ∈ roots methods ∧ reaches r m.
Definition needed_enum (methods : list DescMethod) (e : nat) : Prop :=
  ∃ m, needed_message methods m ∧ RefEnum e ∈ message_refs reg m.

Lemma not_root_enum methods e : RefEnum e ∉ roots methods.
Proof.
  intros H. apply list_elem_of_In, in_flat_map in H as (x & _ & H). destruct H as [H|[H|[]]]; discriminate H.
Qed.

Lemma visit_methods_spec methods :
  Forall known (roots methods) →
  let v := visit_methods reg same_message same_enum methods in
  NoDup (v_messages v) ∧ (∀ m, m ∈ v_messages v ↔ needed_message methods m) ∧
  NoDup (v_enums v) ∧ (∀ e, e ∈ v_enums v ↔ needed_enum methods e) ∧
  Forall known_message (v_messages v) ∧ Forall known_enum (v_enums v).
Proof.
  intros Hr v. destruct (methods_grow methods (mkVisited [] []) (S (length (r_messages reg)))) as [new H].
  { split; cbn; try constructor. }
  { done. }
  { unfold unseen. cbn. lia. }
  fold (visit_methods reg same_message same_enum methods) in H. fold v in H.
  destruct H as [M [O1 O2 O3 O4] A R C E]. cbn in M, E.
  assert (∀ m, m ∈ v_messages v ↔ needed_message methods m) as Hm.
  { intros m. split.
    - rewrite M. intros (r & ? & ?)%R. by exists r.
    - intros (r & Hroot & Hreach). induction Hreach as [|x y _ IH Hy]; [by apply A|].
      apply (C x); [|done]. by rewrite <- M. }
  split_and!; try done. intros e. rewrite E. split.
  - intros [H|[H|(x & Hx & He)]]; [by apply not_elem_of_nil in H|by apply not_root_enum in H|].
    exists x. split; [|done]. apply Hm. by rewrite M.
  - intros (m & Hn & He). right. right. exists m. split; [|done]. apply Hm in Hn. by rewrite M in Hn.
Qed.
End walk.
