(* ===== verification/ContractsCorrect.v ===== *)
(** * ContractsCorrect: graphs and contracts *)
From stdpp Require Import pretty sorting.
From S2P Require Import Prelude Errors Text HpackTables Hpack Flow Stream Regex Sort Decimal Channel Json Contracts.
From S2P Require Import JsonCorrect Walk.
Local Open Scope Z_scope.

(** ** Versions *)

Lemma parses_version_part a rest g : parses VERSION_PART a rest g ↔ g = [a] ∧ canonical a.
Proof.
  unfold VERSION_PART. cbn [parses]. split.
  - intros (g' & -> & [(c & -> & Hc & ->)|(a1 & a2 & g1 & g2 & -> & -> & (c & -> & Hc & ->) & (Hf & _ & _ & ->))]).
    + split; [done|]. left. apply Z.eqb_eq in Hc as ->. done.
    + split; [done|]. right. by exists c, a2.
  - intros [-> [->|(u & s & -> & Hu & Hs)]]; exists []; (split; [done|]).
    + left. by exists 0x30.
    + right. exists [u], s, [], []. split_and!; try done; [by exists u|lia].
Qed.

Lemma parses_version v g :
  parses VERSION_PATTERN v [] g ↔
  ∃ a b c, v = a ++ 0x2E :: b ++ 0x2E :: c ∧ g = [a; b; c] ∧ canonical a ∧ canonical b ∧ canonical c.
Proof.
  unfold VERSION_PATTERN. cbn [parses]. setoid_rewrite parses_version_part. split.
  - intros (a & r1 & g1 & g2 & -> & -> & [-> Ha] & d1 & r2 & g3 & g4 & -> & -> & (u1 & -> & Hd1%Z.eqb_eq & ->) &
      b & r3 & g5 & g6 & -> & -> & [-> Hb] & d2 & r4 & g7 & g8 & -> & -> & (u2 & -> & Hd2%Z.eqb_eq & ->) &
      c & r5 & g9 & g10 & -> & -> & [-> Hc] & -> & _ & ->).
    subst. exists a, b, c. by rewrite app_nil_r.
  - intros (a & b & c & -> & -> & Ha & Hb & Hc).
    exists a, ([0x2E] ++ b ++ 0x2E :: c), [a], [b; c]. split_and!; try done.
    exists [0x2E], (b ++ 0x2E :: c), [], [b; c]. split_and!; try done; [by exists 0x2E|].
    exists b, ([0x2E] ++ c), [b], [c]. split_and!; try done.
    exists [0x2E], c, [], [c]. split_and!; try done; [by exists 0x2E|].
    exists c, [], [c], []. by rewrite app_nil_r.
Qed.

Lemma version_rest v rest g : parses VERSION_PATTERN v rest g → rest = [].
Proof.
  unfold VERSION_PATTERN. cbn [parses].
  intros (? & ? & ? & ? & _ & _ & _ & ? & ? & ? & ? & _ & _ & _ & ? & ? & ? & ? & _ & _ & _ & ? & ? & ? & ? & _ & _ & _ &
    ? & ? & ? & ? & _ & _ & _ & _ & -> & _). done.
Qed.

Lemma digit_run_inj a b r r' :
  all_digits a → all_digits b → a ++ 0x2E :: r = b ++ 0x2E :: r' → a = b ∧ r = r'.
Proof.
  revert b. induction a as [|x a IH]; intros [|y b] Ha Hb H; cbn in H.
  - by injection H.
  - injection H as <- _. by apply Forall_cons_1 in Hb as [? _].
  - injection H as -> _. by apply Forall_cons_1 in Ha as [? _].
  - injection H as -> H. apply Forall_cons_1 in Ha as [_ Ha], Hb as [_ Hb]. by destruct (IH b) as [-> ->].
Qed.

Lemma version_parts a b c a' b' c' :
  canonical a → canonical b → canonical a' → canonical b' →
  a ++ 0x2E :: b ++ 0x2E :: c = a' ++ 0x2E :: b' ++ 0x2E :: c' → a = a' ∧ b = b' ∧ c = c'.
Proof.
  intros Ha%canonical_digits Hb%canonical_digits Ha'%canonical_digits Hb'%canonical_digits H.
  destruct Ha, Hb, Ha', Hb'. apply digit_run_inj in H as [-> H]; [|done..]. by apply digit_run_inj in H as [-> ->].
Qed.

Lemma canonical_version_spec v :
  isCanonicalVersion v = true ↔
  ∃ a b c, v = a ++ 0x2E :: b ++ 0x2E :: c ∧ Forall (λ p, canonical p ∧ digits_value p ≤ 2147483647) [a; b; c].
Proof.
  unfold isCanonicalVersion. split.
  - destruct (exec VERSION_PATTERN v) as [[m g]|] eqn:E; [|done]. intros [->%bool_decide_eq_true H]%andb_true_iff.
    apply exec_sound in E as (rest & Ev & Hp). pose proof (version_rest _ _ _ Hp) as ->.
    apply parses_version in Hp as (a & b & c & -> & -> & Ha & Hb & Hc).
    exists a, b, c. split; [done|]. cbn in H. rewrite !andb_true_iff, !Z.leb_le in H.
    destruct H as (H1 & H2 & H3 & _). do 3 (apply Forall_cons_2; [by split|]). apply Forall_nil_2.
  - intros (a & b & c & -> & H). apply Forall_cons_1 in H as [[Ha Ha'] H].
    apply Forall_cons_1 in H as [[Hb Hb'] H]. apply Forall_cons_1 in H as [[Hc Hc'] _].
    set (v := a ++ 0x2E :: b ++ 0x2E :: c).
    assert (is_Some (exec VERSION_PATTERN (v ++ []))) as [[m g] E].
    { apply (match_complete _ _ _ [] [a; b; c]); [|done]. apply parses_version. by exists a, b, c. }
    rewrite app_nil_r in E. rewrite E. apply exec_sound in E as (rest & Ev & Hp).
    pose proof (version_rest _ _ _ Hp) as ->. rewrite app_nil_r in Ev. subst m.
    apply parses_version in Hp as (a' & b' & c' & Ev & -> & Ha2 & Hb2 & Hc2).
    apply version_parts in Ev as (<- & <- & <-); [|done..].
    rewrite bool_decide_true by done. cbn. by rewrite !(proj2 (Z.leb_le _ _)) by lia.
Qed.

(** A version is accepted exactly when it is what prints for three numbers between 0 and
    2147483647: [MAJOR.MINOR.PATCH] without signs, spaces or leading zeros. *)
Theorem version_iff_printed v :
  isCanonicalVersion v = true ↔
  ∃ a b c : N, (a ≤ 2147483647)%N ∧ (b ≤ 2147483647)%N ∧ (c ≤ 2147483647)%N ∧
    v = js (pretty a) ++ js "." ++ js (pretty b) ++ js "." ++ js (pretty c).
Proof.
  rewrite canonical_version_spec. split.
  - intros (a & b & c & -> & H). apply Forall_cons_1 in H as [[Ha Ha'] H].
    apply Forall_cons_1 in H as [[Hb Hb'] H]. apply Forall_cons_1 in H as [[Hc Hc'] _].
    exists (Z.to_N (digits_value a)), (Z.to_N (digits_value b)), (Z.to_N (digits_value c)).
    split_and!; [lia..|]. by rewrite <- !canonical_pretty.
  - intros (a & b & c & Ha & Hb & Hc & ->).
    exists (js (pretty a)), (js (pretty b)), (js (pretty c)). split; [done|].
    destruct (pretty_canonical a), (pretty_canonical b), (pretty_canonical c).
    do 3 (apply Forall_cons_2; [split; [done|lia]|]). apply Forall_nil_2.
Qed.

Lemma matches_run v p lo hi :
  matchesEntire v (Seq (Many p lo (Some hi)) End_) = true ↔
  Forall (λ u, p u = true) v ∧ (lo ≤ length v ≤ hi)%nat.
Proof.
  unfold matchesEntire. split.
  - destruct (exec _ v) as [[m g]|] eqn:E; [|done]. intros ->%bool_decide_eq_true.
    apply exec_sound in E as (rest & Ev & Hp). cbn [parses] in Hp.
    destruct Hp as (a & b & g1 & g2 & -> & -> & (Hf & Hlo & Hhi & ->) & -> & _ & ->).
    rewrite app_nil_r. done.
  - intros (Hf & Hlo & Hhi).
    assert (∀ a rest g, parses (Seq (Many p lo (Some hi)) End_) a rest g → rest = []) as Hend.
    { cbn [parses]. by intros a rest g (? & ? & ? & ? & _ & _ & _ & _ & -> & _). }
    assert (is_Some (exec (Seq (Many p lo (Some hi)) End_) (v ++ []))) as [[m g] E].
    { apply (match_complete _ _ _ [] []); [|done]. cbn [parses].
      exists v, [], [], []. rewrite app_nil_r. by split_and!. }
    rewrite app_nil_r in E. rewrite E. apply exec_sound in E as (rest & Ev & Hp).
    apply Hend in Hp as ->. rewrite app_nil_r in Ev. by apply bool_decide_eq_true.
Qed.

(** ** Which types a graph describes *)

(** What Protobuf-ES guarantees of a registry: descriptors refer to descriptors, and one name is
    one type. *)
Record registry_ok (reg : Registry) : Prop := mkRegistryOk {
  rg_refs : ∀ m, Forall (known reg) (message_refs reg m);
  rg_messages : ∀ m n, known_message reg m → known_message reg n → message_name reg m = message_name reg n → m = n;
  rg_enums : ∀ e f, known_enum reg e → known_enum reg f → enum_name reg e = enum_name reg f → e = f;
}.

Definition service_ok (reg : Registry) (s : DescService) : Prop :=
  Forall (known reg) (roots (sv_methods s)).

Lemma visit_by_name_spec reg s :
  registry_ok reg → service_ok reg s →
  let v := visit_by_name reg s in
  NoDup (v_messages v) ∧ (∀ m, m ∈ v_messages v ↔ needed_message reg (sv_methods s) m) ∧
  NoDup (v_enums v) ∧ (∀ e, e ∈ v_enums v ↔ needed_enum reg (sv_methods s) e) ∧
  Forall (known_message reg) (v_messages v) ∧ Forall (known_enum reg) (v_enums v).
Proof.
  intros [Hr Hm He] Hs. apply visit_methods_spec; [done|..|done].
  - intros m n Km Kn. rewrite bool_decide_eq_true. split; [by apply Hm|by intros ->].
  - intros e f Ke Kf. rewrite bool_decide_eq_true. split; [by apply He|by intros ->].
Qed.

Lemma visit_by_identity_spec reg s :
  registry_ok reg → service_ok reg s →
  let v := visit_by_identity reg s in
  (∀ m, m ∈ v_messages v ↔ needed_message reg (sv_methods s) m) ∧
  (∀ e, e ∈ v_enums v ↔ needed_enum reg (sv_methods s) e) ∧
  Forall (known_message reg) (v_messages v) ∧ Forall (known_enum reg) (v_enums v).
Proof.
  intros [Hr Hm He] Hs.
  destruct (visit_methods_spec reg Nat.eqb Nat.eqb Hr) with (methods := sv_methods s) as (_&?&_&?&?&?);
    [intros; apply Nat.eqb_eq..|done|done].
Qed.

(** Membership in a list that is written out. *)
Ltac in_list := apply list_elem_of_In; cbn; tauto.

(** Starting from the inputs and outputs of a service's methods, both walks of the
    descriptor graph end - cycles included - and visit each message and enum that the service
    can reach, through fields, lists and maps, exactly once and nothing else; so
    every object that the contract's graph describes is among the frozen ones. *)
Theorem walks_visit_reachable reg s :
  registry_ok reg → service_ok reg s →
  let v := visit_by_name reg s in
  (NoDup (v_messages v) ∧ ∀ m, m ∈ v_messages v ↔ needed_message reg (sv_methods s) m) ∧
  (NoDup (v_enums v) ∧ ∀ e, e ∈ v_enums v ↔ needed_enum reg (sv_methods s) e) ∧
  (∀ m, m ∈ v_messages v → ∀ i, (i < length (default [] (m_fields <$> r_messages reg !! m)))%nat →
     FMessage m ∈ freezeReachableDescriptors reg s ∧ FFields m ∈ freezeReachableDescriptors reg s ∧
     FField m i ∈ freezeReachableDescriptors reg s ∧ FProto m i ∈ freezeReachableDescriptors reg s) ∧
  (∀ e, e ∈ v_enums v →
     FEnum e ∈ freezeReachableDescriptors reg s ∧ FEnumValues e ∈ freezeReachableDescriptors reg s).
Proof.
  intros Hr Hs v. destruct (visit_by_name_spec reg s Hr Hs) as (N1 & M & N2 & E & _).
  destruct (visit_by_identity_spec reg s Hr Hs) as (M' & E' & Km & Ke). fold v in N1, M, N2, E.
  split_and!; [done..| |].
  - intros m Hm i Hi. apply M, M' in Hm. pose proof (proj1 (list.Forall_forall _ _) Km m Hm) as Hk.
    destruct (lookup_lt_is_Some_2 _ _ Hk) as [d Hd]. rewrite Hd in Hi. cbn in Hi.
    assert (∀ x, x ∈ freeze_message reg m → x ∈ freezeReachableDescriptors reg s) as Hin.
    { intros x Hx. unfold freezeReachableDescriptors. apply elem_of_app. left.
      apply list_elem_of_In, in_flat_map. exists m. by rewrite <- !list_elem_of_In. }
    assert (∀ x, x ∈ [FProto m i; FField m i] → x ∈ freeze_message reg m) as Hf.
    { intros x Hx. unfold freeze_message. rewrite Hd. apply elem_of_app. left.
      apply list_elem_of_In, in_flat_map. exists i. rewrite <- !list_elem_of_In, elem_of_seq. split; [lia|done]. }
    assert (∀ x, x ∈ [FFields m; FMessage m] → x ∈ freeze_message reg m) as Ht.
    { intros x Hx. unfold freeze_message. rewrite Hd. apply elem_of_app. right. apply elem_of_app. right.
      apply elem_of_cons in Hx as [->|Hx%list_elem_of_singleton]; [|subst x]; in_list. }
    split_and!; apply Hin; first [apply Ht; in_list|apply Hf; in_list].
  - intros e He. apply E, E' in He. pose proof (proj1 (list.Forall_forall _ _) Ke e He) as Hk.
    destruct (lookup_lt_is_Some_2 _ _ Hk) as [d Hd].
    assert (∀ x, x ∈ [FEnumValues e; FEnum e] → x ∈ freezeReachableDescriptors reg s) as Hin.
    { intros x Hx. unfold freezeReachableDescriptors. apply elem_of_app. right. apply elem_of_app. left.
      apply list_elem_of_In, in_flat_map. exists e. rewrite <- !list_elem_of_In. split; [done|].
      unfold freeze_enum. rewrite Hd. apply elem_of_app. right.
      apply elem_of_cons in Hx as [->|Hx%list_elem_of_singleton]; [|subst x]; in_list. }
    split; apply Hin; in_list.
Qed.

(** ** Declaration order does not matter *)

(** The same message, its fields and oneofs declared in another order. *)
Record message_reordered (d d' : DescMessage) : Prop := mkMessageReordered {
  mr_name : m_typeName d = m_typeName d';
  mr_fields : m_fields d ≡ₚ m_fields d';
  mr_oneofs : m_oneofs d ≡ₚ m_oneofs d';
  mr_numbers : NoDup (map f_number (m_fields d));
  mr_oneof_names : NoDup (map oo_name (m_oneofs d));
}.

Record reordered (reg reg' : Registry) (s s' : DescService) : Prop := mkReordered {
  re_messages : Forall2 message_reordered (r_messages reg) (r_messages reg');
  re_enums : r_enums reg = r_enums reg';
  re_kind : sv_kind s = sv_kind s';
  re_name : sv_typeName s = sv_typeName s';
  re_methods : sv_methods s ≡ₚ sv_methods s';
  re_method_names : NoDup (map me_name (sv_methods s));
}.

(** Sorting by a key that is unique. *)
Lemma key_unique {A K} (key : A → K) (l : list A) x y :
  NoDup (map key l) → x ∈ l → y ∈ l → key x = key y → x = y.
Proof.
  intros Hn Hx Hy E. induction l as [|z l IH]; [by apply not_elem_of_nil in Hx|].
  cbn in Hn. apply list.NoDup_cons in Hn as [Hz Hn].
  apply elem_of_cons in Hx as [->|Hx], Hy as [->|Hy]; [done|..|by apply IH].
  - destruct Hz. rewrite E. by apply list_elem_of_fmap_2.
  - destruct Hz. rewrite <- E. by apply list_elem_of_fmap_2.
Qed.

Lemma sort_strings {A} (key : A → jsstring) (l l' : list A) :
  NoDup (map key l) → l ≡ₚ l' →
  sort_by (λ a b, compare (key a) (key b)) l = sort_by (λ a b, compare (key a) (key b)) l'.
Proof.
  intros Hn Hp. apply (sort_by_unique _ (H := compare_comparator key)); [|done].
  intros x y Hx Hy E%compare_0. by apply (key_unique key l).
Qed.

Lemma sort_numbers {A} (key : A → Z) (l l' : list A) :
  NoDup (map key l) → l ≡ₚ l' →
  sort_by (λ a b, compare_numbers (key a) (key b)) l = sort_by (λ a b, compare_numbers (key a) (key b)) l'.
Proof.
  intros Hn Hp. apply (sort_by_unique _ (H := compare_numbers_comparator key)); [|done].
  intros x y Hx Hy E. apply (key_unique key l); [done..|]. unfold compare_numbers in E. lia.
Qed.

Section reorder.
Context (ScalarType : list (jsstring * Z)) (reg reg' : Registry) (s s' : DescService).
Context (Hre : reordered reg reg' s s').

Lemma reordered_message m :
  match r_messages reg !! m, r_messages reg' !! m with
  | Some d, Some d' => message_reordered d d'
  | None, None => True
  | _, _ => False
  end.
Proof.
  destruct (r_messages reg !! m) as [d|] eqn:E.
  - by destruct (Forall2_lookup_l _ _ _ _ _ (re_messages _ _ _ _ Hre) E) as (d' & -> & ?).
  - destruct (r_messages reg' !! m) as [d'|] eqn:E'; [|done].
    destruct (Forall2_lookup_r _ _ _ _ _ (re_messages _ _ _ _ Hre) E') as (d & E2 & _). congruence.
Qed.

Lemma reordered_name m : message_name reg' m = message_name reg m.
Proof.
  pose proof (reordered_message m) as H. unfold message_name.
  destruct (r_messages reg !! m), (r_messages reg' !! m); try done. symmetry. apply H.
Qed.

Lemma reordered_enum e : enum_name reg' e = enum_name reg e.
Proof. unfold enum_name. by rewrite (re_enums _ _ _ _ Hre). Qed.

Lemma reordered_refs m : message_refs reg m ≡ₚ message_refs reg' m.
Proof.
  pose proof (reordered_message m) as H. unfold message_refs.
  destruct (r_messages reg !! m), (r_messages reg' !! m); try done.
  apply Permutation_flat_map, H.
Qed.

Lemma reordered_field f : fieldGraph ScalarType reg' f = fieldGraph ScalarType reg f.
Proof.
  unfold fieldGraph.
  assert (field_shape ScalarType reg' (f_kind f) = field_shape ScalarType reg (f_kind f)) as ->; [|done].
  unfold field_shape, listElementShape, mapValueShape.
  destruct (f_kind f) as [| | |[]|? []]; by rewrite ?reordered_name, ?reordered_enum.
Qed.

Lemma reordered_needed m : needed_message reg (sv_methods s) m ↔ needed_message reg' (sv_methods s') m.
Proof.
  assert (∀ r, RefMessage r ∈ roots (sv_methods s) ↔ RefMessage r ∈ roots (sv_methods s')) as Hroots.
  { intros r. unfold roots. by rewrite (Permutation_flat_map _ (re_methods _ _ _ _ Hre)). }
  assert (∀ r x, reaches reg r x ↔ reaches reg' r x) as Hreach.
  { intros r x. split; induction 1 as [|x y _ IH Hy]; try constructor.
    - apply (reaches_step reg' r x); [done|]. by rewrite <- reordered_refs.
    - apply (reaches_step reg r x); [done|]. by rewrite reordered_refs. }
  unfold needed_message. split; intros (r & H1 & H2); exists r;
    (split; [by apply Hroots|by apply Hreach]).
Qed.

Lemma reordered_needed_enum e : needed_enum reg (sv_methods s) e ↔ needed_enum reg' (sv_methods s') e.
Proof.
  unfold needed_enum. split; intros (m & H1 & H2); exists m; (split; [by apply reordered_needed|]).
  - by rewrite <- reordered_refs.
  - by rewrite reordered_refs.
Qed.

Lemma reordered_message_graph d d' :
  message_reordered d d' → message_graph ScalarType reg d = message_graph ScalarType reg' d'.
Proof.
  intros [Hn Hf Ho Hnum Hon]. unfold message_graph, by_number, by_oneof_name.
  rewrite (sort_numbers f_number _ _ Hnum Hf), (sort_strings oo_name _ _ Hon Ho), Hn.
  by rewrite (map_ext (fieldGraph ScalarType reg') (fieldGraph ScalarType reg) reordered_field).
Qed.
End reorder.

Lemma insert_by_Forall2 {A} (R : A → A → Prop) cmp x y l k :
  (∀ a a' b b', R a a' → R b b' → cmp a b = cmp a' b') →
  R x y → Forall2 R l k → Forall2 R (insert_by cmp x l) (insert_by cmp y k).
Proof.
  intros Hc Hxy. induction 1 as [|a b l k Hab Hf IH]; cbn; [by repeat constructor|].
  rewrite (Hc x y a b Hxy Hab). destruct (_ <? _); by repeat constructor.
Qed.

Lemma sort_by_Forall2 {A} (R : A → A → Prop) cmp l k :
  (∀ a a' b b', R a a' → R b b' → cmp a b = cmp a' b') →
  Forall2 R l k → Forall2 R (sort_by cmp l) (sort_by cmp k).
Proof.
  intros Hc H. unfold sort_by. assert (Forall2 R (@nil A) []) as Hacc by constructor. revert Hacc.
  generalize (@nil A) at 2 4. generalize (@nil A). induction H as [|x y l k Hxy _ IH]; intros acc acc' Hacc; [done|].
  apply IH. by apply insert_by_Forall2.
Qed.

Lemma Forall2_map_eq {A B} (R : A → A → Prop) (f g : A → B) l k :
  (∀ a b, R a b → f a = g b) → Forall2 R l k → map f l = map g k.
Proof. intros H. induction 1; cbn; [done|]. f_equal; auto. Qed.

(** The descriptors of distinct ids have distinct names. *)
Lemma names_nodup {D} (name : D → jsstring) (store : list D) ids :
  (∀ i j d e, store !! i = Some d → store !! j = Some e → name d = name e → i = j) →
  NoDup ids → NoDup (map name (omap (λ i, store !! i) ids)).
Proof.
  intros Hinj. induction 1 as [|i ids Hi _ IH]; cbn; [constructor|].
  destruct (store !! i) as [d|] eqn:E; [|done]. cbn. apply list.NoDup_cons. split; [|done].
  intros (e & Hn & (j & Hj & He)%list_elem_of_omap)%list_elem_of_fmap. by rewrite (Hinj i j d e) in Hi.
Qed.

Lemma message_names_nodup reg ids :
  registry_ok reg → NoDup ids → NoDup (map m_typeName (omap (λ i, r_messages reg !! i) ids)).
Proof.
  intros Hr. apply names_nodup. intros i j d e Hd He Hn. apply (rg_messages reg Hr).
  - by apply lookup_lt_Some in Hd.
  - by apply lookup_lt_Some in He.
  - unfold message_name. by rewrite Hd, He.
Qed.

Lemma enum_names_nodup reg ids :
  registry_ok reg → NoDup ids → NoDup (map en_typeName (omap (λ i, r_enums reg !! i) ids)).
Proof.
  intros Hr. apply names_nodup. intros i j d e Hd He Hn. apply (rg_enums reg Hr).
  - by apply lookup_lt_Some in Hd.
  - by apply lookup_lt_Some in He.
  - unfold enum_name. by rewrite Hd, He.
Qed.

(** C29: the graph does not depend on the order of declarations: two descriptor sets that differ only
    in the order of methods, of fields and of oneofs - and therefore in the order in which the
    walk meets the types - give the same graph. *)
Theorem graph_order_independent ScalarType reg reg' s s' :
  registry_ok reg → registry_ok reg' → service_ok reg s → service_ok reg' s' → reordered reg reg' s s' →
  runtimeGraph ScalarType reg s = runtimeGraph ScalarType reg' s'.
Proof.
  intros Hr Hr' Hs Hs' Hre.
  destruct (visit_by_name_spec reg s Hr Hs) as (N1 & M & N2 & E & _).
  destruct (visit_by_name_spec reg' s' Hr' Hs') as (N1' & M' & N2' & E' & _).
  unfold runtimeGraph, isService. rewrite (re_kind _ _ _ _ Hre). destruct (negb _); [done|].
  set (v := visit_by_name reg s) in *. set (v' := visit_by_name reg' s') in *.
  assert (v_messages v ≡ₚ v_messages v') as Pm.
  { apply NoDup_Permutation; [done..|]. intros m. rewrite M, M'. by apply reordered_needed. }
  assert (v_enums v ≡ₚ v_enums v') as Pe.
  { apply NoDup_Permutation; [done..|]. intros e. rewrite E, E'. by apply reordered_needed_enum. }
  assert (map (message_graph ScalarType reg) (sorted_messages reg v)
    = map (message_graph ScalarType reg') (sorted_messages reg' v')) as ->.
  { unfold sorted_messages, by_message_name.
    rewrite (sort_strings m_typeName _ (omap (λ m, r_messages reg !! m) (v_messages v')));
      [|by apply message_names_nodup|by rewrite Pm].
    apply (Forall2_map_eq message_reordered);
      [intros d d'; by apply reordered_message_graph with s s'|].
    apply sort_by_Forall2.
    - by intros a a' b b' [-> _ _ _ _] [-> _ _ _ _].
    - clear -Hre. induction (v_messages v') as [|m l IH]; cbn; [constructor|].
      pose proof (reordered_message _ _ _ _ Hre m) as Hm.
      destruct (r_messages reg !! m), (r_messages reg' !! m); try done. by constructor. }
  assert (sorted_enums reg v = sorted_enums reg' v') as ->.
  { unfold sorted_enums, by_enum_name. rewrite <- (re_enums _ _ _ _ Hre).
    apply sort_strings; [by apply enum_names_nodup|by rewrite Pe]. }
  rewrite (re_name _ _ _ _ Hre). unfold by_method_name.
  rewrite (sort_strings me_name _ _ (re_method_names _ _ _ _ Hre) (re_methods _ _ _ _ Hre)).
  rewrite (map_ext (method_graph reg) (method_graph reg')); [done|].
  intros method. unfold method_graph. by rewrite !(reordered_name _ _ _ _ Hre).
Qed.

(** ** A small service

    A message that refers to itself, lists, maps, an enumeration with an alias, two methods; and
    the same declared in another order. *)
Module Sample.

Definition ScalarType : list (jsstring * Z) := [(js "DOUBLE", 1); (js "INT32", 5); (js "STRING", 9)].

Definition field (n : Z) (name : string) (oneof : option jsstring) (d : option jsvalue) (k : FieldKind) : DescField :=
  mkField n (js name) (js name) (js name) true 1 oneof d k.

Definition node_fields : list DescField :=
  [field 1 "id" (Some (js "choice")) (Some (VString (js "none"))) (KScalar 9 false);
   field 2 "next" (Some (js "choice")) None (KMessage 0 false);
   field 3 "colors" None None (KList (LEnum 0) true);
   field 4 "leaves" None None (KMap 9 (MMessage 1))].
Definition choice : DescOneof := mkOneof (js "choice") (js "choice") [2; 1].
Definition leaf : DescMessage :=
  mkMessage (js "t.Leaf") [field 1 "weight" None (Some (VNumber NegZero)) (KScalar 1 false)] [].
Definition color : DescEnum :=
  mkEnum (js "t.Color") true [mkEnumValue (js "RED") (js "RED") 0; mkEnumValue (js "ROUGE") (js "ROUGE") 0;
                              mkEnumValue (js "BLUE") (js "BLUE") 1].

Definition reg : Registry := mkRegistry [mkMessage (js "t.Node") node_fields [choice]; leaf] [color].
Definition reg' : Registry := mkRegistry [mkMessage (js "t.Node") (rev node_fields) [choice]; leaf] [color].

Definition get : DescMethod := mkMethod (js "Get") (js "get") (js "unary") 1 0 0.
Definition watch : DescMethod := mkMethod (js "Watch") (js "watch") (js "server_streaming") 0 0 0.
Definition service (methods : list DescMethod) : DescService := mkService (js "service") (js "t.Trees") methods.

Lemma names_apart {A} (P : nat → Prop) (name : nat → A) :
  (∀ n, P n → (n < 2)%nat) → name 0%nat ≠ name 1%nat → ∀ m n, P m → P n → name m = name n → m = n.
Proof.
  intros HP Hn m n Hm%HP Hn'%HP E. destruct m as [|[|]], n as [|[|]]; try done; try lia; congruence.
Qed.

Lemma refs_known (r : Registry) :
  Forall (λ m, Forall (λ t, match t with RefMessage m => m < length (r_messages r) | RefEnum e => e < length (r_enums r) end)%nat
    (message_refs r m)) (seq 0 (length (r_messages r))) → ∀ m, Forall (known r) (message_refs r m).
Proof.
  intros H m. destruct (decide (m < length (r_messages r))%nat) as [Hm|Hm].
  - rewrite list.Forall_forall in H. specialize (H m). rewrite elem_of_seq in H. specialize (H ltac:(lia)).
    eapply list.Forall_impl; [exact H|]. by intros [].
  - unfold message_refs. rewrite lookup_ge_None_2 by lia. constructor.
Qed.

Lemma sample_registry (fields : list DescField) :
  Forall (known reg) (flat_map referencedTypes fields) →
  registry_ok (mkRegistry [mkMessage (js "t.Node") fields [choice]; leaf] [color]).
Proof.
  intros Hf. split.
  - apply refs_known. repeat (apply Forall_cons_2; [|]); [|constructor..].
    eapply list.Forall_impl; [exact Hf|]. by intros [].
  - by apply (names_apart _ (message_name _)).
  - intros [|] [|]; unfold known_enum; cbn; try done; lia.
Qed.

Lemma reg_ok : registry_ok reg.
Proof. apply sample_registry. vm_compute. repeat constructor. Qed.
Lemma reg'_ok : registry_ok reg'.
Proof. apply sample_registry. vm_compute. repeat constructor. Qed.

Lemma sample_service methods r :
  Forall (λ m, me_input m < 2 ∧ me_output m < 2)%nat methods → length (r_messages r) = 2%nat →
  service_ok r (service methods).
Proof.
  intros H Hr. unfold service_ok. cbn. induction H as [|m l [? ?] _ IH]; [constructor|]. cbn.
  repeat (apply Forall_cons_2; [cbn; unfold known_message; lia|]). exact IH.
Qed.
Lemma both_ok r : length (r_messages r) = 2%nat → service_ok r (service [watch; get]) ∧ service_ok r (service [get; watch]).
Proof. intros Hr. split; apply sample_service; try done; repeat constructor. Qed.

Lemma same_message_otherwise name fields fields' oneofs :
  fields ≡ₚ fields' → NoDup (map f_number fields) → NoDup (map oo_name oneofs) →
  message_reordered (mkMessage name fields oneofs) (mkMessage name fields' oneofs).
Proof. by split. Qed.

Lemma declared_otherwise : reordered reg reg' (service [watch; get]) (service [get; watch]).
Proof.
  split; [|done|done|done|apply Permutation_swap|].
  - apply Forall2_cons_2; [|apply Forall2_cons_2; [|constructor]].
    + apply same_message_otherwise; [apply Permutation_rev|apply (bool_decide_unpack _); vm_compute; exact I..].
    + apply same_message_otherwise; [done|apply (bool_decide_unpack _); vm_compute; exact I..].
  - apply (bool_decide_unpack _). vm_compute. exact I.
Qed.
End Sample.

Lemma walks_visit_reachable_witness :
  v_messages (visit_by_name Sample.reg (Sample.service [Sample.get])) = [1; 0]%nat ∧
  FMessage 1 ∈ freezeReachableDescriptors Sample.reg (Sample.service [Sample.get]).
Proof.
  split; [reflexivity|].
  destruct (walks_visit_reachable Sample.reg (Sample.service [Sample.get]) Sample.reg_ok
    (Sample.sample_service [Sample.get] Sample.reg ltac:(repeat constructor) eq_refl)) as (_ & _ & H & _).
  apply (H 1%nat) with (i := 0%nat); [left|cbn; lia].
Defined.

Lemma graph_order_independent_witness :
  runtimeGraph Sample.ScalarType Sample.reg (Sample.service [Sample.watch; Sample.get]) =
  runtimeGraph Sample.ScalarType Sample.reg' (Sample.service [Sample.get; Sample.watch]).
Proof.
  apply graph_order_independent;
    [apply Sample.reg_ok|apply Sample.reg'_ok|by apply Sample.both_ok|by apply Sample.both_ok|
     apply Sample.declared_otherwise].
Defined.
