(* ===== verification/ContractTypes.v ===== *)
(** * ContractTypes: graphs have the declared type, and contracts are accepted as declared *)
From stdpp Require Import pretty sorting.
From S2P Require Import Prelude Errors Text HpackTables Hpack Flow Stream Regex Sort Decimal Channel Json Contracts.
From S2P Require Import JsonCorrect Walk ContractsCorrect.
Local Open Scope Z_scope.

(** ** Typed and plain values *)

(** Of type [t], and data that has a canonical text. *)
Definition good (t : ty) (v : json) : Prop := has_type t v = true ∧ plain v = true.

Definition keys_ok (ks : list jsstring) : bool :=
  forallb (λ k, forallb unit16 k && negb (bool_decide (k = js "__proto__"))) ks && bool_decide (NoDup ks).

Lemma plain_object o : keys_ok (map fst o) = true → Forall (λ kv, plain kv.2 = true) o → plain (Obj o) = true.
Proof.
  unfold keys_ok. intros [Hk Hn]%andb_true_iff Hp.
  change (plain (Obj o)) with (forallb (λ kv, forallb unit16 kv.1 && own_key kv && plain kv.2) o
    && bool_decide (NoDup (map fst o))).
  rewrite Hn, andb_true_r. clear Hn. induction Hp as [|kv o Hkv _ IH]; [done|]. cbn [map forallb] in *.
  apply andb_true_iff in Hk as [Hk1 Hk2]. rewrite IH by done. unfold own_key.
  by rewrite Hk1, Hkv.
Qed.

Lemma property_here o k v : NoDup (map fst o) → (k, v) ∈ o → property o k = v.
Proof.
  unfold property. induction o as [|[k' v'] o IH]; intros Hn H; [by apply not_elem_of_nil in H|].
  cbn [map fst] in Hn. apply list.NoDup_cons in Hn as [Hk Hn]. cbn.
  apply elem_of_cons in H as [[= -> ->]|H]; [by rewrite bool_decide_true|].
  rewrite bool_decide_false; [by apply IH|]. intros ->. apply Hk. by apply (list_elem_of_fmap_2 fst _ (k, v)).
Qed.

Lemma typed_object fields o :
  NoDup (map fst o) → Forall2 (λ f kv, f.1 = kv.1 ∧ has_type f.2 kv.2 = true) fields o →
  has_type (TObject fields) (Obj o) = true.
Proof.
  intros Hn Hf. cbn [has_type]. apply andb_true_iff. split.
  { apply Nat.eqb_eq. symmetry. by apply Forall2_length in Hf. }
  apply forallb_forall. intros f Hin%list_elem_of_In. apply list_elem_of_lookup in Hin as [i Hi].
  destruct (Forall2_lookup_l _ _ _ _ _ Hf Hi) as ([k v] & Ho & Hk & Ht). cbn in *.
  rewrite Hk, (property_here o k v); [done|done|]. by apply list_elem_of_lookup_2 in Ho.
Qed.

Lemma good_object fields o :
  keys_ok (map fst o) = true → map fst fields = map fst o → Forall2 (λ f kv, good f.2 kv.2) fields o →
  good (TObject fields) (Obj o).
Proof.
  intros Hk Hkeys Hf. split.
  - apply typed_object.
    + unfold keys_ok in Hk. apply andb_true_iff in Hk as [_ Hk]. by apply bool_decide_eq_true in Hk.
    + clear Hk. induction Hf as [|f kv fields o [Ht _] _ IH]; [constructor|].
      injection Hkeys as H1 H2. constructor; [by split|by apply IH].
  - apply plain_object; [done|]. clear -Hf. induction Hf as [|f kv fields o [_ Hp] _ IH]; by constructor.
Qed.

Lemma good_array t l : Forall (good t) l → good (TArray t) (Arr l).
Proof.
  intros H. split; cbn; apply forallb_forall; intros v Hv%list_elem_of_In;
    by apply (proj1 (list.Forall_forall _ _) H v Hv).
Qed.

Lemma good_string s : units s → good TString (Str s).
Proof.
  intros H. split; [done|]. cbn. apply forallb_forall. intros u Hu%list_elem_of_In.
  by apply (proj1 (list.Forall_forall _ _) H).
Qed.
Lemma good_integer z : good TInteger (Num (Integer z)).
Proof. done. Qed.
Lemma good_bool b : good TBool (Bool b).
Proof. done. Qed.
Lemma good_false : good TFalse (Bool false).
Proof. done. Qed.

(** One alternative of a union is enough. *)
Lemma good_union t ts v : t ∈ ts → good t v → good (TUnion ts) v.
Proof.
  intros Ht [H Hp]. split; [|done]. cbn [has_type].
  assert (has_type (TUnion ts) v = existsb (λ t, has_type t v) ts) as E by (by destruct v).
  change (has_type (TUnion ts) v = true). rewrite E. apply existsb_exists. exists t.
  by rewrite <- list_elem_of_In.
Qed.

Create HintDb graph.
#[export] Hint Resolve good_array good_string good_integer good_bool good_false : graph.

(** Objects that are written out: compare the keys, then look at the values. *)
Ltac object := apply good_object; [vm_compute; reflexivity|vm_compute; reflexivity|
  repeat (apply Forall2_cons_2; [cbn [fst snd prop]|]); try apply Forall2_nil_2; eauto with graph; try done].

(** ** What Protobuf-ES guarantees of descriptors *)

Definition unitsb (s : jsstring) : bool := forallb unit16 s.

Definition float_ok (v : jsvalue) : bool :=
  match v with
  | VNumber (NotFinite t) => bool_decide (t ∈ [js "NaN"; js "Infinity"; js "-Infinity"])
  | VNumber NegZero => true
  | VNumber n => wf_number n
  | _ => false
  end.

Section typed.
Context (ScalarType : list (jsstring * Z)).

(** A default value has the JavaScript type of its field. *)
Definition default_ok (f : DescField) : bool :=
  match f_kind f, f_default f with
  | KEnum _, Some v => match v with VNumber (Integer _) => true | _ => false end
  | KScalar scalar _, Some v =>
      if is_scalar ScalarType scalar "BOOL" then match v with VBool _ => true | _ => false end
      else if is_scalar ScalarType scalar "STRING" then match v with VString s => unitsb s | _ => false end
      else if is_scalar ScalarType scalar "BYTES" then match v with VBytes b => forallb (between 0 255) b | _ => false end
      else if is_scalar ScalarType scalar "INT64" || is_scalar ScalarType scalar "UINT64" ||
              is_scalar ScalarType scalar "SINT64" || is_scalar ScalarType scalar "FIXED64" ||
              is_scalar ScalarType scalar "SFIXED64" then unitsb (value_string v)
      else if is_scalar ScalarType scalar "FLOAT" || is_scalar ScalarType scalar "DOUBLE" then float_ok v
      else unitsb (value_string v)
  | _, _ => true
  end.

Definition field_ok (f : DescField) : bool :=
  unitsb (f_name f) && unitsb (f_localName f) && unitsb (f_jsonName f) &&
  match f_oneof f with Some s => unitsb s | None => true end && default_ok f.

Definition oneof_ok (o : DescOneof) : bool := unitsb (oo_name o) && unitsb (oo_localName o).
Definition message_ok (d : DescMessage) : bool :=
  unitsb (m_typeName d) && forallb field_ok (m_fields d) && forallb oneof_ok (m_oneofs d).
Definition value_ok (v : DescEnumValue) : bool := unitsb (ev_name v) && unitsb (ev_localName v).
Definition enum_ok (d : DescEnum) : bool := unitsb (en_typeName d) && forallb value_ok (en_values d).
Definition method_ok (m : DescMethod) : bool :=
  unitsb (me_name m) && unitsb (me_localName m) &&
  bool_decide (me_kind m ∈ [js "unary"; js "server_streaming"; js "client_streaming"; js "bidi_streaming"]).

Record described (reg : Registry) (s : DescService) : Prop := mkDescribed {
  ds_scalars : Forall (λ kv, units kv.1) ScalarType;
  ds_messages : Forall (λ d, message_ok d = true) (r_messages reg);
  ds_enums : Forall (λ d, enum_ok d = true) (r_enums reg);
  ds_methods : Forall (λ m, method_ok m = true) (sv_methods s);
  ds_name : units (sv_typeName s);
}.

(** ** The parts of a graph *)

Lemma units_b s : unitsb s = true → units s.
Proof. apply units_of. Qed.
Lemma units_js s : forallb unit16 (js s) = true → units (js s).
Proof. apply units_of. Qed.
#[local] Hint Resolve units_b : graph.

Lemma good_literal s : units s → good (TLiteral s) (Str s).
Proof. intros H. split; [by apply bool_decide_eq_true|by apply (good_string s)]. Qed.

Lemma ascii_units s : units (js s).
Proof.
  unfold js. apply Forall_fmap, Forall_forall. intros c _. cbn. apply between_spec.
  pose proof (Ascii.N_ascii_bounded c). lia.
Qed.
#[local] Hint Resolve good_literal ascii_units : graph.

Lemma good_named s : good (literal_type s) (Str (js s)).
Proof. apply good_literal, ascii_units. Qed.
#[local] Hint Resolve good_named : graph.

Lemma scalarName_units scalar name :
  Forall (λ kv, units kv.1) ScalarType → scalarName ScalarType scalar = Ok name → units name.
Proof.
  intros Hs. unfold scalarName. enough (∀ found : option jsstring, (∀ n, found = Some n → units n) →
    ∀ n, fold_left (λ found kv, if snd kv =? scalar then Some (fst kv) else found) ScalarType found = Some n → units n)
    as H.
  { specialize (H None ltac:(done)). destruct (fold_left _ _ _) as [n|]; [|done].
    case_bool_decide; [done|]. intros [= <-]. by apply H. }
  induction Hs as [|kv l Hkv _ IH]; intros found Hf n; cbn; [apply Hf|].
  apply IH. intros m. destruct (_ =? _); [by intros [= <-]|apply Hf].
Qed.

Lemma presence_units p name : presenceName p = Ok name → units name.
Proof. unfold presenceName. repeat case_match; intros [= <-]; apply ascii_units. Qed.

Lemma base64_unit n : 0 ≤ n → unit16 (base64_char n) = true.
Proof. intros H. apply between_spec. unfold base64_char. repeat case_match; lia. Qed.

Lemma part_nonneg x y m k d : 0 ≤ y → 0 < m → 0 ≤ k → 0 < d → 0 ≤ x mod m * k + y / d.
Proof. intros. pose proof (Z.mod_pos_bound x m ltac:(lia)). pose proof (Z.div_pos y d ltac:(lia) ltac:(lia)). nia. Qed.

Lemma btoa_units b : Forall (λ x, between 0 255 x = true) b → units (btoa b).
Proof.
  assert (∀ x, between 0 255 x = true → 0 ≤ x) as Hb by (intros x Hx%between_spec; lia).
  assert (∀ x d, 0 ≤ x → 0 < d → unit16 (base64_char (x / d)) = true) as H1
    by (intros; apply base64_unit, Z.div_pos; lia).
  assert (∀ x y m k d, 0 ≤ y → 0 < m → 0 ≤ k → 0 < d →
    unit16 (base64_char (x mod m * k + y / d)) = true) as H2 by (intros; by apply base64_unit, part_nonneg).
  assert (∀ x m k, 0 < m → 0 ≤ k → unit16 (base64_char (x mod m * k)) = true) as H3.
  { intros. apply base64_unit. pose proof (Z.mod_pos_bound x m ltac:(lia)). nia. }
  assert (∀ x m, 0 < m → unit16 (base64_char (x mod m)) = true) as H4.
  { intros. apply base64_unit. apply Z.mod_pos_bound. lia. }
  revert b. fix IH 1. intros [|x [|y [|z b]]] H; cbn [btoa];
    repeat match goal with H : Forall _ (_ :: _) |- _ => apply Forall_cons_1 in H as [?%Hb H] end;
    [constructor|repeat (apply Forall_cons_2; [auto with lia|]); constructor..|].
  apply Forall_app_2; [|by apply IH]. repeat (apply Forall_cons_2; [auto with lia|]). constructor.
Qed.

(** The pieces are the whole. *)
Lemma binary_loop_all fuel b i :
  0 ≤ i → zlen b - i ≤ Z.of_nat fuel → binary_loop fuel b i (take (Z.to_nat i) b) = b.
Proof.
  revert i. induction fuel as [|fuel IH]; intros i Hi Hf; cbn [binary_loop].
  - apply take_ge. unfold zlen in Hf. lia.
  - destruct (Z.ltb_spec i (zlen b)); [|apply take_ge; unfold zlen in *; lia].
    transitivity (binary_loop fuel b (i + 0x8000) (take (Z.to_nat (i + 0x8000)) b)); [f_equal|apply IH; lia]. rewrite subarray_in by lia.
    replace (i + 0x8000 - i) with 0x8000 by lia.
    replace (Z.to_nat (i + 0x8000)) with (Z.to_nat i + Z.to_nat 0x8000)%nat by lia.
    apply take_take_drop.
Qed.

Lemma bytesToBase64_btoa b : bytesToBase64 b = btoa b.
Proof.
  unfold bytesToBase64. f_equal. apply (binary_loop_all (length b) b 0); [lia|]. unfold zlen. lia.
Qed.

Lemma float_good v :
  float_ok v = true →
  good (TUnion [TNumber; literal_type "NaN"; literal_type "Infinity"; literal_type "-Infinity"; literal_type "-0"])
    (float_value v).
Proof.
  destruct v as [|s| | |n]; intros H; try done. destruct n as [z|t| |t]; cbn [float_value raw_value].
  - apply (good_union TNumber); [in_list|done].
  - apply (good_union TNumber); [in_list|]. by split.
  - apply (good_union (literal_type "-0")); [in_list|apply good_named].
  - apply bool_decide_eq_true in H. apply elem_of_cons in H as [->|H]; [|apply elem_of_cons in H as [->|H];
      [|apply list_elem_of_singleton in H as ->]].
    + apply (good_union (literal_type "NaN")); [in_list|apply good_named].
    + apply (good_union (literal_type "Infinity")); [in_list|apply good_named].
    + apply (good_union (literal_type "-Infinity")); [in_list|apply good_named].
Qed.

(** A tagged default is one of the alternatives of [RuntimeDefault]. *)
Lemma tagged_good type t value :
  TObject [prop "type" (literal_type type); prop "value" t] ∈
    match RuntimeDefault with TUnion ts => ts | _ => [] end →
  good t value → good RuntimeDefault (tagged type value).
Proof.
  intros Hin Hv. eapply good_union; [exact Hin|]. apply good_object; [vm_compute; reflexivity..|].
  apply Forall2_cons_2; [apply good_named|]. apply Forall2_cons_2; [exact Hv|]. constructor.
Qed.

Lemma scalar_default_good f scalar l v :
  f_kind f = KScalar scalar l → f_default f = Some v → default_ok f = true →
  good RuntimeDefault (scalar_default ScalarType scalar v).
Proof.
  intros Hk Hd. unfold default_ok, scalar_default. rewrite Hk, Hd.
  destruct (is_scalar ScalarType scalar "BOOL").
  { by destruct v. }
  destruct (is_scalar ScalarType scalar "STRING").
  { destruct v; try done. intros H. apply (tagged_good _ TString); [in_list|by apply good_string, units_b]. }
  destruct (is_scalar ScalarType scalar "BYTES").
  { destruct v; try done. intros H. apply (tagged_good _ TString); [in_list|].
    apply good_string. rewrite bytesToBase64_btoa. by apply btoa_units, forallb_Forall. }
  destruct (_ || is_scalar ScalarType scalar "SFIXED64").
  { intros H. apply (tagged_good _ TString); [in_list|by apply good_string, units_b]. }
  destruct (_ || is_scalar ScalarType scalar "DOUBLE").
  - intros H. eapply tagged_good; [|by apply float_good]. in_list.
  - intros H. apply (tagged_good _ TString); [in_list|by apply good_string, units_b].
Qed.

Lemma fieldDefault_good f : default_ok f = true → good (TUnion [RuntimeDefault; TNull]) (fieldDefault ScalarType f).
Proof.
  intros H. unfold fieldDefault. destruct (f_kind f) as [scalar l| |e| |] eqn:Hk;
    try (apply (good_union TNull); [in_list|by split]);
    destruct (f_default f) as [v|] eqn:Hd; try (apply (good_union TNull); [in_list|by split]);
    (apply (good_union RuntimeDefault); [in_list|]); [by apply (scalar_default_good f scalar l)|].
  unfold default_ok in H. rewrite Hk, Hd in H. by destruct v as [| | | |[z| | |]].
Qed.

Context (reg : Registry) (s : DescService) (Hds : described reg s).

Lemma message_name_units m : units (message_name reg m).
Proof.
  unfold message_name. destruct (r_messages reg !! m) as [d|] eqn:E; [|constructor].
  pose proof (Forall_lookup_1 _ _ _ _ (ds_messages _ _ Hds) E) as H. cbn in H. unfold message_ok in H.
  rewrite !andb_true_iff in H. apply units_b; tauto.
Qed.
Lemma enum_name_units e : units (enum_name reg e).
Proof.
  unfold enum_name. destruct (r_enums reg !! e) as [d|] eqn:E; [|constructor].
  pose proof (Forall_lookup_1 _ _ _ _ (ds_enums _ _ Hds) E) as H. cbn in H. unfold enum_ok in H.
  rewrite !andb_true_iff in H. apply units_b; tauto.
Qed.
#[local] Hint Resolve message_name_units enum_name_units good_named : graph.

Lemma messageShape_good m d : good RuntimeMessageShape (messageShape (message_name reg m) d).
Proof. object. Qed.
Lemma enumShape_good e : good RuntimeEnumShape (enumShape (enum_name reg e)).
Proof. object. Qed.
Lemma scalarShape_good scalar l v : scalarShape ScalarType scalar l = Ok v → good RuntimeScalarShape v.
Proof.
  unfold scalarShape. destruct (scalarName ScalarType scalar) as [name|] eqn:E; [|done]. intros [= <-].
  apply scalarName_units in E; [|apply (ds_scalars _ _ Hds)]. object.
Qed.

Lemma element_good t v :
  t ∈ [RuntimeScalarShape; RuntimeMessageShape; RuntimeEnumShape] → good t v →
  good element_type v ∧ good RuntimeFieldShape v.
Proof.
  intros Ht Hv. split; apply (good_union t); try done.
  apply elem_of_cons in Ht as [->|Ht]; [in_list|]. apply elem_of_cons in Ht as [->|Ht]; [in_list|].
  apply list_elem_of_singleton in Ht as ->. in_list.
Qed.

Lemma listElement_good k v : listElementShape ScalarType reg k = Ok v → good element_type v.
Proof.
  destruct k; cbn [listElementShape].
  - intros H%scalarShape_good. by apply (element_good RuntimeScalarShape); [in_list|].
  - intros [= <-]. by apply (element_good RuntimeMessageShape); [in_list|apply messageShape_good].
  - intros [= <-]. by apply (element_good RuntimeEnumShape); [in_list|apply enumShape_good].
Qed.
Lemma mapValue_good k v : mapValueShape ScalarType reg k = Ok v → good element_type v.
Proof.
  destruct k; cbn [mapValueShape].
  - intros H%scalarShape_good. by apply (element_good RuntimeScalarShape); [in_list|].
  - intros [= <-]. by apply (element_good RuntimeMessageShape); [in_list|apply messageShape_good].
  - intros [= <-]. by apply (element_good RuntimeEnumShape); [in_list|apply enumShape_good].
Qed.

Lemma shape_good k v : field_shape ScalarType reg k = Ok v → good RuntimeFieldShape v.
Proof.
  destruct k as [scalar l|m d|e|k packed|key k]; cbn [field_shape].
  - intros H%scalarShape_good. by apply (element_good RuntimeScalarShape); [in_list|].
  - intros [= <-]. by apply (element_good RuntimeMessageShape); [in_list|apply messageShape_good].
  - intros [= <-]. by apply (element_good RuntimeEnumShape); [in_list|apply enumShape_good].
  - destruct (listElementShape ScalarType reg k) as [el|] eqn:E; [|done]. intros [= <-].
    apply listElement_good in E.
    apply (good_union (TObject [prop "kind" (literal_type "list"); prop "element" element_type; prop "packed" TBool]));
      [in_list|object].
  - destruct (scalarName ScalarType key) as [name|] eqn:Ek; [|done].
    destruct (mapValueShape ScalarType reg k) as [el|] eqn:E; [|done]. intros [= <-].
    apply scalarName_units in Ek; [|apply (ds_scalars _ _ Hds)]. apply mapValue_good in E.
    apply (good_union (TObject [prop "kind" (literal_type "map"); prop "keyScalar" TString;
      prop "value" element_type; prop "delimitedEncoding" TFalse])); [in_list|object].
Qed.

(** ** Fields, messages, enumerations, methods *)

Lemma sequence_good {E} t (l : list (result E json)) vs :
  sequence l = Ok vs → (∀ r v, r ∈ l → r = Ok v → good t v) → Forall (good t) vs.
Proof.
  revert vs. induction l as [|r l IH]; intros vs; cbn [sequence]; [by intros [= <-]|].
  intros H Hl. destruct r as [v|e]; [|done]. destruct (sequence l) as [vs'|]; [|done]. injection H as <-.
  constructor; [by apply (Hl (Ok v)); [left|]|]. apply IH; [done|]. intros r w Hr. apply Hl. by right.
Qed.

Lemma good_map {A} t (f : A → json) l : (∀ a, a ∈ l → good t (f a)) → good (TArray t) (Arr (map f l)).
Proof. intros H. apply good_array, Forall_fmap, list.Forall_forall. exact H. Qed.

Lemma sorted_in {A} (cmp : A → A → Z) l x : x ∈ sort_by cmp l → x ∈ l.
Proof. by rewrite sort_by_perm. Qed.

Lemma forallb_in {A} (f : A → bool) l x : forallb f l = true → x ∈ l → f x = true.
Proof. rewrite forallb_forall. intros H Hx%list_elem_of_In. by apply H. Qed.

Lemma fieldGraph_good f v : field_ok f = true → fieldGraph ScalarType reg f = Ok v → good RuntimeField v.
Proof.
  unfold field_ok, fieldGraph. rewrite !andb_true_iff. intros [[[[H1 H2] H3] H4] H5].
  destruct (field_shape _ _ _) as [sh|] eqn:Es; [|done]. apply shape_good in Es.
  destruct (presenceName _) as [pr|] eqn:Ep; [|done]. apply presence_units in Ep. intros [= <-].
  pose proof (fieldDefault_good f H5).
  assert (good (TUnion [TString; TNull]) (nullable (f_oneof f))) as Ho.
  { destruct (f_oneof f) as [o|]; cbn [nullable].
    - apply (good_union TString); [in_list|]. by apply good_string, units_b.
    - apply (good_union TNull); [in_list|by split]. }
  object.
Qed.

Lemma oneof_graph_good o : oneof_ok o = true →
  good (TObject [prop "name" TString; prop "localName" TString; prop "fields" (TArray TInteger)]) (oneof_graph o).
Proof.
  unfold oneof_ok. rewrite andb_true_iff. intros [H1 H2].
  assert (good (TArray TInteger) (Arr (map (λ n, Num (Integer n)) (sort_by compare_numbers (oo_fields o))))) as H
    by (by apply good_map). object.
Qed.

Lemma message_graph_good d v : message_ok d = true → message_graph ScalarType reg d = Ok v → good RuntimeMessage v.
Proof.
  unfold message_ok, message_graph. rewrite !andb_true_iff. intros [[H1 H2] H3].
  destruct (sequence _) as [fs|] eqn:E; [|done]. intros [= <-].
  assert (good (TArray RuntimeField) (Arr fs)) as Hf.
  { apply good_array, (sequence_good _ _ _ E). intros r v (f & -> & Hin)%list_elem_of_fmap.
    apply sorted_in in Hin. by apply fieldGraph_good, (forallb_in _ _ _ H2). }
  assert (good (TArray (TObject [prop "name" TString; prop "localName" TString; prop "fields" (TArray TInteger)]))
    (Arr (map oneof_graph (sort_by by_oneof_name (m_oneofs d))))) as Ho.
  { apply good_map. intros o Hin. apply oneof_graph_good, (forallb_in _ _ _ H3). by apply sorted_in in Hin. }
  object.
Qed.

Lemma method_graph_good m : method_ok m = true → good RuntimeMethod (method_graph reg m).
Proof.
  unfold method_ok. rewrite !andb_true_iff. intros [[H1 H2] H3%bool_decide_eq_true].
  assert (good (TUnion [literal_type "unary"; literal_type "server_streaming";
    literal_type "client_streaming"; literal_type "bidi_streaming"]) (Str (me_kind m))) as Hk.
  { repeat (apply elem_of_cons in H3 as [->|H3]; [eapply good_union; [|apply good_named]; in_list|]).
    by apply not_elem_of_nil in H3. }
  object.
Qed.

(** Every value of a group is a value of the enumeration. *)
Lemma group_value_in g v n vs x : (n, vs) ∈ group_value g v → x ∈ vs → x = v ∨ ∃ m ws, (m, ws) ∈ g ∧ x ∈ ws.
Proof.
  induction g as [|[k aliases] g IH]; cbn [group_value].
  - intros [= -> ->]%list_elem_of_singleton Hx. left. by apply list_elem_of_singleton.
  - destruct (_ =? _).
    + intros [[= -> ->]|H]%elem_of_cons Hx; [|right; exists n, vs; split; [by right|done]].
      apply elem_of_app in Hx as [Hx|Hx%list_elem_of_singleton]; [|by left].
      right. exists k, aliases. split; [by left|done].
    + intros [[= -> ->]|H]%elem_of_cons Hx; [right; exists k, aliases; split; [by left|done]|].
      destruct (IH H Hx) as [|(m & ws & ? & ?)]; [by left|]. right. exists m, ws. split; [by right|done].
Qed.

Lemma group_values_in values n vs x : (n, vs) ∈ group_values values → x ∈ vs → x ∈ values.
Proof.
  unfold group_values. intros H%sorted_in. revert H.
  assert (∀ g, (∀ m ws, (m, ws) ∈ g → x ∈ ws → x ∈ values) → (∀ y, y ∈ values → y ∈ values) →
    (n, vs) ∈ fold_left group_value values g → x ∈ vs → x ∈ values) as H; [|].
  { enough (∀ l g, (∀ y, y ∈ l → y ∈ values) → (∀ m ws, (m, ws) ∈ g → x ∈ ws → x ∈ values) →
      (n, vs) ∈ fold_left group_value l g → x ∈ vs → x ∈ values) as H by (intros g Hg Hv; by apply (H values g)).
    induction l as [|v l IH]; intros g Hl Hg; cbn [fold_left]; [by apply Hg|].
    apply IH; [intros y Hy; apply Hl; by right|]. intros m ws Hin Hx.
    destruct (group_value_in _ _ _ _ _ Hin Hx) as [->|(m' & ws' & ? & ?)]; [apply Hl; by left|by apply (Hg m' ws')]. }
  apply H; [|done]. intros m ws []%not_elem_of_nil.
Qed.

Lemma enum_graph_good d : enum_ok d = true → good RuntimeEnum (enum_graph d).
Proof.
  unfold enum_ok. rewrite andb_true_iff. intros [H1 H2].
  assert (∀ v, v ∈ en_values d → units (ev_name v) ∧ units (ev_localName v)) as Hv.
  { intros v Hin. apply (forallb_in _ _ _ H2) in Hin. unfold value_ok in Hin.
    apply andb_true_iff in Hin as [??]. by split; apply units_b. }
  assert (units match en_values d with v :: _ => ev_name v | [] => [] end) as Hd.
  { destruct (en_values d) as [|v vs]; [constructor|]. apply Hv. by left. }
  pose (alias := TObject [prop "name" TString; prop "localName" TString]).
  assert (good (TArray (TObject [prop "number" TInteger; prop "aliases" (TArray alias)]))
    (Arr (map (λ g, Obj [(js "number", Num (Integer g.1)); (js "aliases", Arr (map alias_graph g.2))])
      (group_values (en_values d))))) as Hg.
  { apply good_map. intros [n vs] Hin.
    assert (good (TArray alias) (Arr (map alias_graph vs))) as Ha.
    { apply good_map. intros v Hvs. apply (group_values_in _ _ _ _ Hin) in Hvs as [??]%Hv. object. }
    object. }
  object.
Qed.

(** A graph that is made is good. *)
Lemma graph_good g : runtimeGraph ScalarType reg s = Ok g → good RuntimeGraph g.
Proof.
  unfold runtimeGraph. destruct (negb _); [done|].
  set (v := visit_by_name reg s). destruct (sequence _) as [ms|] eqn:E; [|done]. intros [= <-].
  assert (good (TArray RuntimeMessage) (Arr ms)) as Hm.
  { apply good_array, (sequence_good _ _ _ E). intros r w (d & -> & Hin)%list_elem_of_fmap.
    unfold sorted_messages in Hin. apply sorted_in, list_elem_of_omap in Hin as (i & _ & Hd).
    by apply message_graph_good, (Forall_lookup_1 _ _ _ _ (ds_messages _ _ Hds) Hd). }
  assert (good (TArray RuntimeEnum) (Arr (map enum_graph (sorted_enums reg v)))) as He.
  { apply good_map. intros d Hin. unfold sorted_enums in Hin.
    apply sorted_in, list_elem_of_omap in Hin as (i & _ & Hd).
    by apply enum_graph_good, (Forall_lookup_1 _ _ _ _ (ds_enums _ _ Hds) Hd). }
  assert (good (TArray RuntimeMethod) (Arr (map (method_graph reg) (sort_by by_method_name (sv_methods s))))) as Hs.
  { apply good_map. intros m Hin%sorted_in. apply method_graph_good.
    by apply (proj1 (list.Forall_forall _ _) (ds_methods _ _ Hds)). }
  pose proof (ds_name _ _ Hds).
  assert (good (TObject [prop "typeName" TString; prop "methods" (TArray RuntimeMethod)])
    (Obj [(js "typeName", Str (sv_typeName s));
          (js "methods", Arr (map (method_graph reg) (sort_by by_method_name (sv_methods s))))])) as Hv by object.
  assert (good (TLiteral GRAPH_FORMAT) (Str GRAPH_FORMAT)) by apply good_named.
  apply good_object; [vm_compute; reflexivity|vm_compute; reflexivity|].
  repeat (apply Forall2_cons_2; [done|]). constructor.
Qed.

(** *** Graphs that can be made *)

Definition named (scalar : Z) : bool :=
  match scalarName ScalarType scalar with Ok _ => true | Throw _ => false end.
Definition kind_supported (k : FieldKind) : bool :=
  match k with
  | KScalar scalar _ => named scalar
  | KList (LScalar scalar _) _ => named scalar
  | KMap key (MScalar scalar) => named key && named scalar
  | KMap key _ => named key
  | _ => true
  end.
Definition field_supported (f : DescField) : bool := kind_supported (f_kind f) && between 0 3 (f_presence f).
Definition supported (d : DescMessage) : bool := forallb field_supported (m_fields d).

Lemma named_ok scalar : named scalar = true → ∃ name, scalarName ScalarType scalar = Ok name.
Proof. unfold named. destruct (scalarName _ _) as [name|]; [by exists name|done]. Qed.

Lemma shape_made k : kind_supported k = true → ∃ v, field_shape ScalarType reg k = Ok v.
Proof.
  destruct k as [scalar l|m d|e|[scalar l|m d|e] packed|key [scalar|m|e]];
    cbn [kind_supported field_shape listElementShape mapValueShape]; unfold scalarShape;
    rewrite ?andb_true_iff; intros H; destruct_and?;
    repeat match goal with H : named _ = true |- _ => apply named_ok in H as [? ->] end; by eexists.
Qed.

Lemma field_made f : field_supported f = true → ∃ v, fieldGraph ScalarType reg f = Ok v.
Proof.
  unfold field_supported, fieldGraph. intros [[sh ->]%shape_made Hp%between_spec]%andb_true_iff.
  assert (∃ p, presenceName (f_presence f) = Ok p) as [p ->]; [|by eexists].
  assert (f_presence f = 0 ∨ f_presence f = 1 ∨ f_presence f = 2 ∨ f_presence f = 3) as [-> | [-> | [-> | ->]]]
    by lia; by eexists.
Qed.

Lemma sequence_made {E A} (l : list (result E A)) :
  (∀ r, r ∈ l → ∃ v, r = Ok v) → ∃ vs, sequence l = Ok vs.
Proof.
  induction l as [|r l IH]; intros H; cbn [sequence]; [by eexists|].
  destruct (H r) as [v ->]; [by left|]. destruct IH as [vs ->]; [|by eexists].
  intros r Hr. apply H. by right.
Qed.

Lemma message_made d : supported d = true → ∃ v, message_graph ScalarType reg d = Ok v.
Proof.
  intros H. unfold message_graph. destruct (sequence_made (map (fieldGraph ScalarType reg) (sort_by by_number (m_fields d))))
    as [fs ->]; [|by eexists].
  intros r (f & -> & Hin)%list_elem_of_fmap. apply sorted_in in Hin. by apply field_made, (forallb_in _ _ _ H).
Qed.

(** C25: [runtimeGraph] gives data of the declared type [RuntimeGraph]: for a service whose types
    use scalars and field presences that this version knows it returns, and what it returns has
    every property of the interfaces with its type - each literal (the [false] of a map shape's
    [delimitedEncoding] too) and each alternative of a union included - and has a canonical text:
    no cycles, no [undefined], no [-0] or infinity as a number. *)
Theorem graph_typed :
  isService s = true → Forall (λ d, supported d = true) (r_messages reg) →
  ∃ g, runtimeGraph ScalarType reg s = Ok g ∧ has_type RuntimeGraph g = true ∧ plain g = true.
Proof.
  intros Hk Hs. assert (∃ g, runtimeGraph ScalarType reg s = Ok g) as [g Hg].
  { unfold runtimeGraph. rewrite Hk. cbn [negb].
    destruct (sequence_made (map (message_graph ScalarType reg) (sorted_messages reg (visit_by_name reg s))))
      as [ms ->]; [|by eexists].
    intros r (d & -> & Hin)%list_elem_of_fmap. unfold sorted_messages in Hin.
    apply sorted_in, list_elem_of_omap in Hin as (i & _ & Hd).
    apply message_made, (Forall_lookup_1 _ _ _ _ Hs Hd). }
  exists g. destruct (graph_good g Hg) as [Ht Hp]. done.
Qed.
End typed.

(** ** Acceptance of contracts *)

Definition api_ok (api : jsstring) : Prop := Forall (λ u, api_char u = true) api ∧ (1 ≤ length api ≤ 64)%nat.
Definition fingerprint_ok (f : jsstring) : Prop := Forall (λ u, hex_char u = true) f ∧ length f = 64%nat.

Lemma not_blank value u : u ∈ value → is_space u = false → blank value = false.
Proof.
  intros Hu Hs. apply not_true_iff_false. unfold blank. intros H. apply (forallb_in _ _ _ H) in Hu. congruence.
Qed.

Lemma run_not_blank (p : Z → bool) v :
  (∀ u, p u = true → is_space u = false) → Forall (λ u, p u = true) v → v ≠ [] → blank v = false.
Proof.
  intros Hp Hv Hn. destruct v as [|u v]; [done|]. apply (not_blank _ u); [by left|].
  apply Forall_cons_1 in Hv as [Hu _]. by apply Hp.
Qed.

(** The checks on the three strings; that they are not blank follows from the patterns. *)
Definition strings_ok (input : ContractInput) : Prop :=
  api_ok (ci_api input) ∧ isCanonicalVersion (ci_version input) = true ∧ fingerprint_ok (ci_fingerprint input).

Lemma not_space u : 0x21 ≤ u ≤ 0x7E → is_space u = false.
Proof. intros Hu. unfold is_space. repeat (apply orb_false_iff; split); lia. Qed.

Lemma api_char_range u : api_char u = true → 0x21 ≤ u ≤ 0x7E.
Proof.
  unfold api_char, upper, lower, digit, one_of. rewrite !orb_true_iff, !between_spec.
  intros [[[H|H]|H]|H%bool_decide_eq_true]; [lia..|].
  change (js "._:/-") with [0x2E; 0x5F; 0x3A; 0x2F; 0x2D] in H. set_unfold. lia.
Qed.
Lemma hex_char_range u : hex_char u = true → 0x21 ≤ u ≤ 0x7E.
Proof.
  unfold hex_char, to_lower, upper, digit. rewrite orb_true_iff, !between_spec.
  destruct (between 0x41 0x5a u) eqn:E; [apply between_spec in E|]; lia.
Qed.

Lemma accepted_not_blank input :
  strings_ok input →
  blank (ci_api input) = false ∧ blank (ci_version input) = false ∧ blank (ci_fingerprint input) = false.
Proof.
  intros ((Ha & Hla & _) & Hv & (Hf & Hlf)). split_and!.
  - apply (run_not_blank api_char); [intros u Hu; by apply not_space, api_char_range|done|].
    intros E. rewrite E in Hla. cbn in Hla. lia.
  - apply canonical_version_spec in Hv as (a & b & c & -> & _). apply (not_blank _ 0x2E); [|done].
    apply elem_of_app. right. by left.
  - apply (run_not_blank hex_char); [intros u Hu; by apply not_space, hex_char_range|done|].
    intros E. by rewrite E in Hlf.
Qed.

Lemma api_matches v : matchesEntire v API_PATTERN = true ↔ api_ok v.
Proof. apply matches_run. Qed.
Lemma fingerprint_matches v : matchesEntire v FINGERPRINT_PATTERN = true ↔ fingerprint_ok v.
Proof. unfold FINGERPRINT_PATTERN. rewrite matches_run. unfold fingerprint_ok. split; intros [? ?]; split; try done; lia. Qed.

(** The checks of the strings come to [strings_ok]; what is left is the comparison of texts. *)
Lemma check_strings ScalarType reg input record :
  check_contract ScalarType reg input = Ok record →
  isService (ci_service input) = true ∧ strings_ok input.
Proof.
  unfold check_contract, strings_ok. rewrite <- api_matches, <- fingerprint_matches.
  destruct (isService _); [|done]. do 3 (destruct (blank _); [done|]).
  destruct (matchesEntire _ API_PATTERN); [|done]. destruct (isCanonicalVersion _); [|done].
  by destruct (matchesEntire _ FINGERPRINT_PATTERN).
Qed.

Lemma check_graphs ScalarType reg input g :
  isService (ci_service input) = true → strings_ok input → plain (ci_graph input) = true → plain g = true →
  runtimeGraph ScalarType reg (ci_service input) = Ok g →
  check_contract ScalarType reg input =
    if bool_decide (stringify (norm (ci_graph input)) = stringify (norm g))
    then Ok (mkContract (ci_service input) (ci_api input) (ci_version input) (toLowerCase (ci_fingerprint input))
               (stringify (norm g)))
    else Throw (graph_mismatch (ci_service input)).
Proof.
  intros Hk Hs Hi Hp Hg. pose proof (accepted_not_blank _ Hs) as (B1 & B2 & B3).
  destruct Hs as (Ha%api_matches & Hv & Hf%fingerprint_matches).
  unfold check_contract. rewrite Hk, B1, B2, B3, Ha, Hv, Hf, Hg. unfold canonicalJson.
  rewrite !sortJson_plain by done. cbn [negb]. by case_bool_decide.
Qed.

(** C12: [defineContract] accepts exactly the contracts that describe the service: of a described
    service with types this version knows, a definition is made if and only if the API name has 1
    to 64 of the allowed characters, the version is canonical, the fingerprint has 64
    hexadecimal digits and the generated graph has the same data as the graph of the service.
    An accepted definition can be looked up and carries the service, the strings (the fingerprint
    in lower case) and the graph's canonical text; a rejected one leaves nothing behind - no
    definition, nothing frozen - and no definition changes an earlier one. *)
Theorem contract_accepted_iff ScalarType reg input st :
  described ScalarType reg (ci_service input) →
  Forall (λ d, supported ScalarType d = true) (r_messages reg) →
  plain (ci_graph input) = true →
  let out := defineContract ScalarType reg input st in
  ((∃ i, out.2 = Ok i) ↔
     isService (ci_service input) = true ∧ strings_ok input ∧
     ∃ g, runtimeGraph ScalarType reg (ci_service input) = Ok g ∧ same (ci_graph input) g) ∧
  (∀ i, out.2 = Ok i → ∃ g text,
     runtimeGraph ScalarType reg (ci_service input) = Ok g ∧ canonicalJson g = Ok text ∧
     contractRecord (Artifact i) out.1 =
       Ok (mkContract (ci_service input) (ci_api input) (ci_version input) (toLowerCase (ci_fingerprint input)) text)) ∧
  (∀ e, out.2 = Throw e → out.1 = st) ∧
  (∀ i, (i < length st.1)%nat → contractRecord (Artifact i) out.1 = contractRecord (Artifact i) st).
Proof.
  intros Hd Hs Hi out.
  assert (∀ g, runtimeGraph ScalarType reg (ci_service input) = Ok g → plain g = true) as Hplain
    by (intros g Hg; by apply (graph_good ScalarType reg _ Hd)).
  assert (∀ record, check_contract ScalarType reg input = Ok record →
    ∃ g, runtimeGraph ScalarType reg (ci_service input) = Ok g ∧ same (ci_graph input) g ∧
      record = mkContract (ci_service input) (ci_api input) (ci_version input)
        (toLowerCase (ci_fingerprint input)) (stringify (norm g))) as Hok.
  { intros record H. pose proof (check_strings _ _ _ _ H) as [Hk Hstr].
    destruct (runtimeGraph ScalarType reg (ci_service input)) as [g|e] eqn:Hg.
    - rewrite (check_graphs _ _ _ g) in H by auto. case_bool_decide as E; [|done]. injection H as <-.
      exists g. split_and!; [done| |done]. by apply stringify_norm_iff; [|apply Hplain|].
    - exfalso. unfold check_contract in H. rewrite Hg in H. repeat case_match; done. }
  unfold out, defineContract. destruct (check_contract ScalarType reg input) as [record|e] eqn:Hc; cbn.
  - destruct (Hok record eq_refl) as (g & Hg & Hsame & ->). pose proof (check_strings _ _ _ _ Hc) as [Hk Hstr].
    split_and!; [| |done|].
    + split; [intros _; split_and!; eauto|by eexists].
    + intros i [= <-]. exists g, (stringify (norm g)). split_and!; [done| |].
      * unfold canonicalJson. by rewrite sortJson_plain by auto.
      * cbn. by rewrite lookup_app_r, Nat.sub_diag by lia.
    + intros i Hlt. by rewrite lookup_app_l by done.
  - split_and!; [|done|done|done]. split; [by intros [? ?]|]. intros (Hk & Hstr & g & Hg & Hsame).
    rewrite (check_graphs _ _ _ g) in Hc by auto. rewrite bool_decide_true in Hc; [done|].
    apply stringify_norm_iff; auto.
Qed.

(** ** The small service again *)

Lemma sample_described methods :
  Forall (λ m, method_ok m = true) methods → described Sample.ScalarType Sample.reg (Sample.service methods).
Proof.
  intros Hm. split; [..|exact Hm|apply ascii_units].
  - repeat (apply Forall_cons_2; [apply ascii_units|]). constructor.
  - by repeat (apply Forall_cons_2; [vm_compute; reflexivity|]).
  - by repeat (apply Forall_cons_2; [vm_compute; reflexivity|]).
Qed.

Lemma sample_supported : Forall (λ d, supported Sample.ScalarType d = true) (r_messages Sample.reg).
Proof. by repeat (apply Forall_cons_2; [vm_compute; reflexivity|]). Qed.

Lemma graph_typed_witness :
  ∃ g, runtimeGraph Sample.ScalarType Sample.reg (Sample.service [Sample.watch]) = Ok g ∧
    has_type RuntimeGraph g = true ∧ plain g = true.
Proof.
  apply graph_typed; [|reflexivity|apply sample_supported].
  apply sample_described. apply Forall_cons_2; [vm_compute; reflexivity|apply Forall_nil_2].
Defined.

(** A contract with the graph of the service; [input_of] changes its version. *)
Definition sample_graph : json :=
  match runtimeGraph Sample.ScalarType Sample.reg (Sample.service [Sample.watch]) with Ok g => g | Throw _ => Null end.
Definition input_of (version : string) : ContractInput :=
  mkInput (Sample.service [Sample.watch]) (js "trees") (js version) (replicate 64 0x41) sample_graph.

Lemma contract_accepted_iff_witness :
  (∃ i, (defineContract Sample.ScalarType Sample.reg (input_of "1.0.2") ([], [])).2 = Ok i) ∧
  ¬ ∃ i, (defineContract Sample.ScalarType Sample.reg (input_of "1.0.02") ([], [])).2 = Ok i.
Proof.
  assert (∀ v, described Sample.ScalarType Sample.reg (ci_service (input_of v))) as Hd.
  { intros v. apply sample_described. apply Forall_cons_2; [vm_compute; reflexivity|apply Forall_nil_2]. }
  assert (plain sample_graph = true) as Hp by (vm_compute; reflexivity).
  split; [exists 0%nat; vm_compute; reflexivity|].
  intros Hi.
  destruct (contract_accepted_iff Sample.ScalarType Sample.reg (input_of "1.0.02") ([], []) (Hd _) sample_supported Hp)
    as ((H & _) & _).
  destruct (H Hi) as (_ & (_ & Hv & _) & _). vm_compute in Hv. discriminate.
Defined.
