(* ===== verification/Interceptors.v ===== *)
(** * Interceptors: [interceptors.ts]

    [interceptTransport] wraps a transport in the application's interceptors and a final check of
    the request.

    A transport takes the time at which it is called and the arguments of a call, and changes
    a state [S] (whatever lies below it).  Interceptors and the functions [runUnaryCall] and
    [runStreamingCall] belong to the Connect library: they are the parameter [run_call] (the
    flag [q_stream] tells the two apart), and the class [Runner] states what is documented of it -
    whatever the interceptors do, they reach the transport only through [next], and not before
    the call began.  Objects that are compared by identity (services, methods) have a number. *)
From Stdlib Require Import QArith Qminmax.
From S2P Require Import Prelude Errors Text HpackTables Hpack Flow Stream Framing Retry Regex Transport.
Local Open Scope Z_scope.

(** A method descriptor: its identity, that of its service, and the names of both. *)
Record MethodRef := mkMethodRef { mr_id : nat; mr_parent : nat; mr_typeName : jsstring; mr_name : jsstring }.

Section interceptors.
Context {Message Signal Values Interceptor E R S : Type}.

(** The arguments of [unary] and [stream]. *)
Record CallArgs := mkCallArgs {
  ca_stream : bool;
  ca_method : MethodRef;
  ca_signal : option Signal;
  ca_timeoutMs : option Q;
  ca_header : jsobject;
  ca_message : Message;
  ca_contextValues : option Values;
}.

(** A request as interceptors see it. *)
Record InterceptorRequest := mkIRequest {
  q_stream : bool;
  q_method : MethodRef;
  q_service : nat;
  q_requestMethod : jsstring;
  q_url : jsstring;
  q_header : jsobject;
  q_message : Message;
  q_contextValues : Values;
  q_signal : option Signal;      (* set by the runner *)
}.

Definition CallResult : Type := S * result E R.
Definition CallTransport : Type := Q → CallArgs → S → CallResult.
(** [next], with the time at which it is called. *)
Definition Next : Type := Q → InterceptorRequest → S → CallResult.

Record InterceptorOptions := mkIOptions {
  io_interceptors : option (list Interceptor);
  io_baseUrl : jsstring;
  io_finalizeRequest : option (nat → MethodRef → jsobject → result E jsobject);
}.

(** ** The URL *)

(** [baseUrl.replace(/\/+$/, "")]: the first match is taken out. *)
Fixpoint replace_first (r : re) (s : jsstring) : jsstring :=
  match exec r s with
  | Some (m, _) => drop (length m) s
  | None => match s with [] => [] | u :: s' => u :: replace_first r s' end
  end.
Definition TRAILING_SLASHES : re := Seq (Many (chr 0x2F) 1 None) End_.
Definition base_url (o : InterceptorOptions) : jsstring := replace_first TRAILING_SLASHES (io_baseUrl o).

Definition request_url (o : InterceptorOptions) (m : MethodRef) : jsstring :=
  base_url o ++ js "/" ++ mr_typeName m ++ js "/" ++ mr_name m.

(** ** The wrapper *)

(** [run_call ints signal timeoutMs req next], from a time on. *)
Context (run_call : list Interceptor → option Signal → option Q → InterceptorRequest → Next → Q → S → CallResult).
Context (createContextValues : Values).

(** What calls of [next] from time [start] on make of a state. *)
Inductive calls (start : Q) (next : Next) : S → S → Prop :=
| calls_none s : calls start next s s
| calls_more now req s s' :
    calls start next s s' → (start <= now)%Q → calls start next s (next now req s').1.

Class Runner := through_next :
  ∀ ints signal timeoutMs req next start s,
    calls start next s (run_call ints signal timeoutMs req next start s).1.

Definition call_deadline (timeoutMs : option Q) (now : Q) : option Q :=
  match timeoutMs with
  | Some t => if Qle_bool t 0 then None else Some (now + t)%Q
  | None => None
  end.

(** The innermost [next] of [unary] or [stream]: [deadline] is that of the call, [timeoutMs] its
    argument.  [finalizeRequest] is called after the time was read, before the transport. *)
Definition inner_next (transport : CallTransport) (o : InterceptorOptions) (stream : bool)
    (timeoutMs deadline : option Q) : Next :=
  λ now req s,
    match
      match io_finalizeRequest o with
      | Some finalizeRequest => finalizeRequest (q_service req) (q_method req) (q_header req)
      | None => Ok (q_header req)
      end
    with
    | Throw e => (s, Throw e)
    | Ok header =>
        transport now
          (mkCallArgs stream (q_method req) (q_signal req)
             match deadline with Some d => Some (Qmax 1 (d - now)) | None => timeoutMs end
             header (q_message req) (Some (q_contextValues req))) s
    end.

Definition intercepted (transport : CallTransport) (o : InterceptorOptions) : CallTransport :=
  λ now args,
    run_call (default [] (io_interceptors o)) (ca_signal args) (ca_timeoutMs args)
      (mkIRequest (ca_stream args) (ca_method args) (mr_parent (ca_method args)) (js "POST")
         (request_url o (ca_method args)) (ca_header args) (ca_message args)
         (default createContextValues (ca_contextValues args)) None)
      (inner_next transport o (ca_stream args) (ca_timeoutMs args) (call_deadline (ca_timeoutMs args) now)) now.

(** [!options.interceptors?.length && !options.finalizeRequest]. *)
Definition interceptTransport (transport : CallTransport) (o : InterceptorOptions) : CallTransport :=
  match io_interceptors o, io_finalizeRequest o with
  | (None | Some []), None => transport
  | _, _ => intercepted transport o
  end.

(** ** What reaches the transport *)

(** A property of states that every call of the inner transport keeps - for the calls the wrapper
    lets through - is kept by the wrapped call, whatever the interceptors do. *)
Definition lets_through (o : InterceptorOptions) (args inner : CallArgs) (start now : Q) : Prop :=
  (start <= now)%Q ∧ ca_stream inner = ca_stream args ∧
  ca_timeoutMs inner =
    match call_deadline (ca_timeoutMs args) start with
    | Some d => Some (Qmax 1 (d - now))
    | None => ca_timeoutMs args
    end ∧
  match io_finalizeRequest o with
  | Some f => ∃ service header, f service (ca_method inner) header = Ok (ca_header inner)
  | None => True
  end.

Lemma intercepted_keeps `{Runner} (P : S → Prop) transport o start args s :
  (∀ inner now s, lets_through o args inner start now → P s → P (transport now inner s).1) →
  P s → P (intercepted transport o start args s).1.
Proof.
  intros Hstep Hs. unfold intercepted.
  set (next := inner_next transport o _ _ _).
  match goal with |- P (run_call ?i ?g ?t ?q next start s).1 =>
    pose proof (through_next i g t q next start s) as Hc; revert Hc; generalize (run_call i g t q next start s).1 end.
  intros s'. induction 1 as [s|now req s s1 _ IH Hnow]; [done|]. specialize (IH Hs).
  unfold next, inner_next. destruct (io_finalizeRequest o) as [f|] eqn:Ef.
  - destruct (f _ _ _) as [header|e] eqn:Eh; [|done]. apply Hstep; [|done]. split_and!; [done|done|done|].
    rewrite Ef. cbn. by eexists _, _.
  - apply Hstep; [|done]. split_and!; [done|done|done|]. by rewrite Ef.
Qed.
End interceptors.

Arguments CallArgs : clear implicits.
Arguments InterceptorRequest : clear implicits.
Arguments InterceptorOptions : clear implicits.
