(* ===== verification/StrictClient.v ===== *)
(** * StrictClient: [strict-client.ts]

    Clients that are bound to a generated contract: the guard that stamps and checks each request,
    the composition of transports behind a bound client, and the opening of a connection that
    must come up.

    Contracts are those of [Contracts]; the service object of a contract and its methods are
    compared by identity, which the parameters [service_id] and [method_ids] give. *)
From Stdlib Require Import QArith Qminmax.
From S2P Require Import Prelude Errors Text HpackTables Hpack Flow Stream Framing Retry Regex Channel Json Contracts.
From S2P Require Import Transport Recovery Interceptors.
Local Open Scope Z_scope.

(** ** The guard *)

(** What the calls of this file throw. *)
Inductive StrictError := StrictType (e : TypeError) | StrictConnect (e : ConnectError) | StrictOther (e : exn).

Definition outside_contract : ConnectError :=
  connect_error "RPC method is outside the generated contract" Code.InvalidArgument.
Definition CONTRACT_HEADER : jsstring := js "x-proto-contract".

Definition stamp (contract : ContractRecord) : jsstring := cr_api contract ++ js "@" ++ cr_version contract.

Section guard.
Context (service_id : DescService → nat) (method_ids : DescService → list nat).

Definition outside (contract : ContractRecord) (service : nat) (method : MethodRef) : bool :=
  negb (Nat.eqb service (service_id (cr_service contract))) ||
  negb (Nat.eqb (mr_parent method) (service_id (cr_service contract))) ||
  negb (bool_decide (mr_id method ∈ method_ids (cr_service contract))).

Definition stamped (contract : ContractRecord) (header : jsobject) : jsobject :=
  headers_set (headers_delete header CONTRACT_HEADER) CONTRACT_HEADER (stamp contract).

(** The guard of a definition, or the error of looking it up; [definitions] only grows, so the
    state at the time of the call stands for both lookups. *)
Definition contractFinalizer (definition : Reference) (st : definitions * list Frozen)
    : result StrictError (nat → MethodRef → jsobject → result StrictError jsobject) :=
  match contractRecord definition st with
  | Throw e => Throw (StrictType e)
  | Ok contract =>
      Ok (λ service method header,
            if outside contract service method then Throw (StrictConnect outside_contract)
            else
              match contractRecord definition st with
              | Throw e => Throw (StrictType e)
              | Ok _ => Ok (stamped contract header)
              end)
  end.

(** ** Bound clients *)

Context {Message Signal Values Interceptor R S : Type}.

Abbreviation transport_of := (@CallTransport Message Signal Values StrictError R S).
Abbreviation request_of := (InterceptorRequest Message Signal Values).
Abbreviation next_of := (@Next Message Signal Values StrictError R S).

Context (run_call : list Interceptor → option Signal → option Q → request_of → next_of → Q → S →
  S * result StrictError R).
Context (createContextValues : Values).

(** The part of a [RecoveringConnection] that calls go through: [retryTransport] and
    [interceptorOptions] (of a connection: without a guard). *)
Record CallPath := mkCallPath {
  cp_retryTransport : transport_of;
  cp_options : option (InterceptorOptions Interceptor StrictError);
}.

(** The constructor copies the options. *)
Definition callpath_new (retryTransport : transport_of)
    (o : option (InterceptorOptions Interceptor StrictError)) : CallPath :=
  mkCallPath retryTransport
    ((λ o, mkIOptions (Some (default [] (io_interceptors o))) (io_baseUrl o) (io_finalizeRequest o)) <$> o).

(** [connection.transport]. *)
Definition connection_transport (retryTransport : transport_of)
    (o : option (InterceptorOptions Interceptor StrictError)) : transport_of :=
  match o with
  | Some o => interceptTransport run_call createContextValues retryTransport o
  | None => retryTransport
  end.

Definition clientTransport (c : CallPath) (clientInterceptors : option (list Interceptor))
    (finalizeRequest : nat → MethodRef → jsobject → result StrictError jsobject) : transport_of :=
  let connectionInterceptors :=
    match cp_options c with Some o => default [] (io_interceptors o) | None => [] end in
  interceptTransport run_call createContextValues (cp_retryTransport c)
    (mkIOptions (Some (default [] clientInterceptors ++ connectionInterceptors))
       match cp_options c with Some o => io_baseUrl o | None => js "http://backend" end
       (Some finalizeRequest)).

Definition not_managed : TypeError := TypeErr (js "Connection is not a managed bridge handle").

(** [managedConnections]: the handles and leases by identity. *)
Definition managedClientTransport (managed : gmap nat CallPath) (owner : nat)
    (clientInterceptors : option (list Interceptor))
    (finalizeRequest : nat → MethodRef → jsobject → result StrictError jsobject) : result StrictError transport_of :=
  match managed !! owner with
  | None => Throw (StrictType not_managed)
  | Some connection => Ok (clientTransport connection clientInterceptors finalizeRequest)
  end.

(** The service and the transport that [createClient] is given. *)
Definition createBoundClient (managed : gmap nat CallPath) (owner : nat) (definition : Reference)
    (interceptors : option (list Interceptor)) (st : definitions * list Frozen)
    : result StrictError (DescService * transport_of) :=
  match contractRecord definition st with
  | Throw e => Throw (StrictType e)
  | Ok contract =>
      match contractFinalizer definition st with
      | Throw e => Throw e
      | Ok finalizeRequest =>
          match managedClientTransport managed owner interceptors finalizeRequest with
          | Throw e => Throw e
          | Ok transport => Ok (cr_service contract, transport)
          end
      end
  end.
End guard.

(** ** Opening a connection that must come up *)

(** [openBridgeConnection]: parked at [initial], parked at [close()], or settled. *)
Inductive Opening := AwaitInitial | AwaitClose | Opened | OpenFailed.

#[export] Instance Opening_eq_dec : EqDecision Opening.
Proof. solve_decision. Defined.

Definition opening_resume (o : Opening) (c : Recovery) : Opening * Recovery :=
  match o with
  | AwaitInitial =>
      match initial c with
      | InitialPending => (AwaitInitial, c)
      | InitialReady => (Opened, c)
      | InitialFailed => (AwaitClose, close_begin c)
      end
  | AwaitClose => if finished c then (OpenFailed, c) else (AwaitClose, c)
  | o => (o, c)
  end.

(** Nobody else has the handle before it is given out. *)
Inductive OpeningEvent := OConnection (ev : RecoveryEvent) | OResume.

Definition opening_enabled (ev : OpeningEvent) (s : Opening * Recovery) : bool :=
  match ev with
  | OConnection ev =>
      enabled ev s.2 &&
      match ev with VClose | VSelect _ _ _ => bool_decide (s.1 = Opened) | _ => true end
  | OResume => true
  end.

Definition opening_step (ev : OpeningEvent) (s : Opening * Recovery) : Opening * Recovery :=
  match ev with
  | OConnection ev => (s.1, recovery_step ev s.2)
  | OResume => opening_resume s.1 s.2
  end.

Inductive opening_reachable : Opening * Recovery → Prop :=
| opening_new : opening_reachable (AwaitInitial, recovery_new)
| opening_more s ev :
    opening_reachable s → opening_enabled ev s = true → opening_reachable (opening_step ev s).
