(* ===== verification/StrictCorrect.v ===== *)
(** * StrictCorrect: interceptors and bound clients *)
From Stdlib Require Import QArith Qminmax Lqa.
From S2P Require Import Prelude Errors Text HpackTables Hpack Flow Stream Framing Retry Regex Channel Json Contracts.
From S2P Require Import Transport Recovery Interceptors StrictClient.
From S2P Require Import JsonCorrect Decimal TransportCorrect RecoveryCorrect ContractsCorrect ContractTypes.
Local Open Scope Z_scope.

(** ** The base URL *)

Definition slashes (s : jsstring) : Prop := Forall (λ u, u = 0x2F) s.

Lemma exec_slashes s : (∃ g, exec TRAILING_SLASHES s = Some (s, g)) ↔ s ≠ [] ∧ slashes s.
Proof.
  split.
  - intros [g H]. apply exec_sound in H as (rest & _ & Hp). cbn [parses TRAILING_SLASHES] in Hp.
    destruct Hp as (a & b & g1 & g2 & -> & _ & (Hf & Hlo & _) & -> & _). rewrite app_nil_r.
    split; [by intros ->; cbn in Hlo; lia|]. eapply list.Forall_impl; [exact Hf|]. by intros u Hu%Z.eqb_eq.
  - intros [Hn Hs]. assert (is_Some (exec TRAILING_SLASHES (s ++ []))) as [[m g] E].
    { apply (match_complete _ _ _ [] []); [|done]. cbn [parses TRAILING_SLASHES]. exists s, [], [], [].
      rewrite app_nil_r. split_and!; try done; [|by destruct s; [|cbn; lia]].
      eapply list.Forall_impl; [exact Hs|]. by intros u ->. }
    rewrite app_nil_r in E. exists g. rewrite E. apply exec_sound in E as (rest & Ev & Hp).
    cbn [parses TRAILING_SLASHES] in Hp. destruct Hp as (? & ? & ? & ? & _ & _ & _ & -> & -> & _).
    by rewrite app_nil_r in Ev; subst.
Qed.

Lemma exec_all s m g : exec TRAILING_SLASHES s = Some (m, g) → m = s.
Proof.
  intros H. apply exec_sound in H as (rest & -> & Hp). cbn [parses TRAILING_SLASHES] in Hp.
  destruct Hp as (? & ? & ? & ? & _ & _ & _ & -> & -> & _). by rewrite app_nil_r.
Qed.

Lemma replace_slashes s :
  ∃ tail, s = replace_first TRAILING_SLASHES s ++ tail ∧ slashes tail ∧
    ∀ p, replace_first TRAILING_SLASHES s ≠ p ++ [0x2F].
Proof.
  induction s as [|u s IH].
  - exists []. split_and!; [done|constructor|]. intros p E. by destruct p.
  - cbn [replace_first]. destruct (exec TRAILING_SLASHES (u :: s)) as [[m g]|] eqn:E.
    + pose proof (exec_all _ _ _ E) as ->. exists (u :: s). rewrite drop_all. split_and!; [done| |].
      * by apply exec_slashes; exists g.
      * intros p E'. by destruct p.
    + destruct IH as (tail & Hs & Ht & Hno). exists tail. split_and!; [by rewrite Hs at 1|done|].
      intros p Hp. destruct p as [|v p]; [|injection Hp as _ Hp; by apply (Hno p)].
      injection Hp as -> Hnil. rewrite Hnil in Hs. cbn in Hs. subst tail.
      assert (slashes (0x2F :: s)) as Hall by by constructor.
      destruct (proj2 (exec_slashes (0x2F :: s))) as [g Hg]; [by split|]. congruence.
Qed.

(** ** Time limits *)

Section limits.
Context {Message Signal Values Interceptor E R : Type}.

(** A transport that keeps what it is called with, and answers [answer]. *)
Abbreviation args_of := (CallArgs Message Signal Values).
Abbreviation log_of := (list (Q * args_of)).
Context (answer : log_of → args_of → result E R).

Definition recorder : @CallTransport Message Signal Values E R log_of :=
  λ now args log, (log ++ [(now, args)], answer log args).

Context (run_call : list Interceptor → option Signal → option Q → InterceptorRequest Message Signal Values →
  @Next Message Signal Values E R log_of → Q → log_of → log_of * result E R).
Context (createContextValues : Values).
Context {Hrunner : Runner run_call}.

(** What an intercepted call sends to the transport below. *)
Lemma intercepted_log o start args :
  Forall (λ e, lets_through o args e.2 start e.1) (intercepted run_call createContextValues recorder o start args []).1.
Proof.
  apply (intercepted_keeps (S := log_of) run_call createContextValues
    (λ log, Forall (λ e, lets_through o args e.2 start e.1) log)); [|constructor].
  intros inner now log Hl Hlog. cbn. apply Forall_app_2; [done|]. by constructor.
Qed.

(** Interceptors cannot extend a call: each time they let it through, the transport below gets
    what is left of the caller's limit - never more than the limit itself when that is at least
    the 1 ms that is always granted, and nothing that ends later than 1 ms after the deadline or
    now - and without a limit there is none below.  Without interceptors and guard
    the transport is not wrapped at all, and the base URL of a request loses exactly its trailing
    slashes. *)
Theorem interceptors_keep_limit o start args now inner :
  (now, inner) ∈ (intercepted run_call createContextValues recorder o start args []).1 →
  (match limited (ca_timeoutMs args) with
   | None => ca_timeoutMs inner = ca_timeoutMs args
   | Some t => ∃ left, ca_timeoutMs inner = Some left ∧ (1 <= left)%Q ∧ (left <= Qmax 1 t)%Q ∧
                 (now + left <= Qmax (start + t) (now + 1))%Q
   end) ∧
  (∀ T : @CallTransport Message Signal Values E R log_of, io_interceptors o = None → io_finalizeRequest o = None →
     interceptTransport run_call createContextValues T o = T) ∧
  (∃ tail, io_baseUrl o = base_url o ++ tail ∧ slashes tail ∧ ∀ p, base_url o ≠ p ++ js "/").
Proof.
  intros Hin. pose proof (proj1 (list.Forall_forall _ _) (intercepted_log o start args) _ Hin) as (Hnow & _ & Ht & _).
  cbn in Hnow, Ht. split_and!.
  - rewrite Ht. unfold call_deadline, limited. destruct (ca_timeoutMs args) as [t|]; [|done].
    destruct (Qle_bool t 0) eqn:E0; [done|]. assert (~ (t <= 0)%Q) as Hpos by (by rewrite <- Qle_bool_iff, E0).
    eexists. split; [done|]. split_and!.
    + apply Q.le_max_l.
    + apply Q.max_lub; [apply Q.le_max_l|]. eapply Qle_trans; [|apply Q.le_max_r]. lra.
    + destruct (Q.max_spec 1 (start + t - now)) as [[_ ->]|[_ ->]].
      * eapply Qle_trans; [|apply Q.le_max_l]. lra.
      * apply Q.le_max_r.
  - intros T Hi Hf. unfold interceptTransport. by rewrite Hi, Hf.
  - apply replace_slashes.
Qed.
End limits.

(** ** Definitions that were accepted *)

Inductive defined (ScalarType : list (jsstring * Z)) (reg : Registry) : definitions * list Frozen → Prop :=
| defined_none : defined ScalarType reg ([], [])
| defined_more st input :
    defined ScalarType reg st → defined ScalarType reg (defineContract ScalarType reg input st).1.

Definition record_ok (r : ContractRecord) : Prop :=
  api_ok (cr_api r) ∧ isCanonicalVersion (cr_version r) = true.

Lemma defined_ok ScalarType reg st : defined ScalarType reg st → Forall record_ok st.1.
Proof.
  induction 1 as [|st input _ IH]; [constructor|]. unfold defineContract.
  destruct (check_contract ScalarType reg input) as [r|e] eqn:E; [|done]. cbn. apply Forall_app_2; [done|].
  constructor; [|done]. pose proof (check_strings _ _ _ _ E) as (_ & Ha & Hv & _).
  unfold check_contract in E. repeat case_match; try discriminate. injection E as <-. by split.
Qed.

Lemma record_in definition st r : contractRecord definition st = Ok r → r ∈ st.1.
Proof.
  destruct definition as [i| |]; cbn; [|done..]. destruct (st.1 !! i) as [r'|] eqn:E; [|done].
  intros [= <-]. by apply list_elem_of_lookup_2 in E.
Qed.

(** *** The stamp *)

Lemma no_space_trim s : Forall (λ u, is_http_space u = false) s → http_trim s = s.
Proof.
  assert (∀ s, Forall (λ u, is_http_space u = false) s → http_trim_start s = s) as H.
  { intros s' [|u s'' Hu _]; [done|]. cbn. by rewrite Hu. }
  intros Hs. unfold http_trim. rewrite (H s) by done. rewrite H by (by apply Forall_rev).
  apply rev_involutive.
Qed.

Lemma visible u : 0x21 ≤ u ≤ 0x7E → is_http_space u = false.
Proof. intros H. unfold is_http_space. repeat (apply orb_false_iff; split); lia. Qed.

Lemma stamp_chars r : record_ok r → Forall (λ u, is_http_space u = false) (stamp r).
Proof.
  intros [[Ha _] (a & b & c & Hv & Hc)%canonical_version_spec]. unfold stamp. rewrite Hv.
  assert (∀ p, canonical p ∧ digits_value p ≤ 2147483647 → Forall (λ u, is_http_space u = false) p) as Hd.
  { intros p [[Hp _]%canonical_digits _]. eapply list.Forall_impl; [exact Hp|].
    intros u Hu. unfold digit in Hu. apply between_spec in Hu. apply visible. lia. }
  apply Forall_cons_1 in Hc as [H1 Hc]. apply Forall_cons_1 in Hc as [H2 Hc]. apply Forall_cons_1 in Hc as [H3 _].
  apply Forall_app_2.
  { eapply list.Forall_impl; [exact Ha|]. intros u Hu. by apply visible, api_char_range. }
  repeat first [apply Forall_app_2; [by repeat constructor|] | apply Forall_app_2; [by apply Hd|]
               | apply Forall_cons_2; [done|] | by apply Hd].
Qed.

Lemma stamp_inj r r' :
  record_ok r → record_ok r' → stamp r = stamp r' → cr_api r = cr_api r' ∧ cr_version r = cr_version r'.
Proof.
  assert (∀ a b v w : jsstring, 0x40 ∉ a → 0x40 ∉ b → a ++ 0x40 :: v = b ++ 0x40 :: w → a = b ∧ v = w) as H.
  { induction a as [|x a IH]; intros [|y b] v w Ha Hb E; cbn in E.
    - by injection E.
    - injection E as <- _. destruct Hb. by left.
    - injection E as -> _. destruct Ha. by left.
    - injection E as -> E. destruct (IH b v w) as [-> ->]; [set_solver..|done|done]. }
  assert (∀ a, api_ok a → 0x40 ∉ a) as Hno.
  { intros a [Ha _] Hin. by apply (proj1 (list.Forall_forall _ _) Ha) in Hin. }
  intros [Ha _] [Ha' _] E. apply (H _ _ _ _ (Hno _ Ha) (Hno _ Ha') E).
Qed.

(** The stamp of a header is its only contract field. *)
Lemma stamped_get r header : record_ok r → headers_get (stamped r header) CONTRACT_HEADER = Some (stamp r).
Proof.
  intros Hr. unfold stamped, headers_get.
  destruct (set_same (headers_delete header CONTRACT_HEADER) CONTRACT_HEADER (stamp r) eq_refl) as [n ->].
  cbn. by rewrite no_space_trim by (by apply stamp_chars).
Qed.
Lemma stamped_once r header : ∃ n, filter (λ kv, toLowerCase kv.1 = CONTRACT_HEADER) (stamped r header) = [(n, stamp r)].
Proof. by apply set_same. Qed.
Lemma stamped_other r header k : k ≠ CONTRACT_HEADER → headers_get (stamped r header) k = headers_get header k.
Proof. intros Hk. unfold headers_get, stamped. by rewrite set_other, delete_other. Qed.

(** ** The guard *)

Section guard.
Context (service_id : DescService → nat) (method_ids : DescService → list nat).

Lemma guard_ok definition st f service method header header' :
  contractFinalizer service_id method_ids definition st = Ok f → f service method header = Ok header' →
  ∃ r, contractRecord definition st = Ok r ∧ header' = stamped r header ∧
    service = service_id (cr_service r) ∧ mr_parent method = service_id (cr_service r) ∧
    mr_id method ∈ method_ids (cr_service r).
Proof.
  unfold contractFinalizer. destruct (contractRecord definition st) as [r|] eqn:E; [|done]. intros [= <-].
  destruct (outside _ _ _ _ _) eqn:Ho; [done|]. intros [= <-]. exists r. unfold outside in Ho.
  rewrite !orb_false_iff, !negb_false_iff in Ho. destruct Ho as [[H1 H2] H3].
  apply Nat.eqb_eq in H1, H2. by apply bool_decide_eq_true in H3.
Qed.

Context {Message Signal Values Interceptor R : Type}.
Abbreviation logged := (list (Q * CallArgs Message Signal Values)).
Context (answer : logged → CallArgs Message Signal Values → result StrictError R).
Context (run_call : list Interceptor → option Signal → option Q → InterceptorRequest Message Signal Values →
  @Next Message Signal Values StrictError R logged → Q → logged → logged * result StrictError R).
Context (createContextValues : Values).
Context {Hrunner : Runner run_call}.

Abbreviation bound_client := (createBoundClient service_id method_ids run_call createContextValues).

(** A client is made exactly for a registered definition and a managed handle. *)
Lemma bound_client_made managed owner definition ints st :
  (∃ c, bound_client managed owner definition ints st = Ok c) ↔
  (∃ r, contractRecord definition st = Ok r) ∧ is_Some (managed !! owner).
Proof.
  unfold createBoundClient, contractFinalizer, managedClientTransport.
  destruct (contractRecord definition st) as [r|e].
  - destruct (managed !! owner) as [p|]; split.
    + intros _. split; [by exists r|by exists p].
    + intros _. by eexists.
    + by intros [c [=]].
    + by intros [_ [? [=]]].
  - split; [by intros [c [=]]|by intros [[r [=]] _]].
Qed.

(** What the guarded [next] does with a request: it refuses one outside the contract, and hands on
    any other with a stamped header, all else as it is. *)
Lemma guarded_next definition st f r (T : @CallTransport Message Signal Values StrictError R logged) base o
    stream limit deadline now req (log : logged) :
  contractFinalizer service_id method_ids definition st = Ok f → contractRecord definition st = Ok r →
  inner_next T (mkIOptions (Interceptor := Interceptor) o base (Some f)) stream limit deadline now req log =
    if outside service_id method_ids r (q_service req) (q_method req)
    then (log, Throw (E := StrictError) (A := R) (StrictConnect outside_contract))
    else T now (mkCallArgs stream (q_method req) (q_signal req)
           match deadline with Some d => Some (Qmax 1 (d - now)) | None => limit end
           (stamped r (q_header req)) (q_message req) (Some (q_contextValues req))) log.
Proof.
  unfold contractFinalizer, inner_next. intros H E. rewrite E in H. injection H as <-.
  cbn. by destruct (outside _ _ _ _ _).
Qed.

(** With a final check of the request, there is always a wrapper. *)
Lemma checked_wrapped T ints base f :
  interceptTransport (R := R) (S := logged) run_call createContextValues T (mkIOptions ints base (Some f)) =
  intercepted run_call createContextValues T (mkIOptions ints base (Some f)).
Proof. by destruct ints as [[|]|]. Qed.

End guard.

(** ** Opening *)

(** The promise [initial] settles once. *)
Lemma initial_stable ev c : initial c ≠ InitialPending → initial (recovery_step ev c) = initial c.
Proof.
  intros H. destruct ev; cbn [recovery_step]; unfold connect_begin, connect_dialed, connect_failed, channel_gone, lost,
    channel_draining, retry_later, close_begin, connect_begin, select_begin, select_stop;
    repeat case_match; cbn [initial set_life set_dialing set_channels set_session set_timer set_changes
      settle_initial emit notify close_end] in *; try done; destruct (initial c); congruence.
Qed.

Lemma stopped_stays ev c : stopped c = true → stopped (recovery_step ev c) = true.
Proof.
  intros H. destruct ev; cbn [recovery_step]; unfold connect_begin, connect_dialed, connect_failed, channel_gone, lost,
    channel_draining, retry_later, close_begin, connect_begin, select_begin, select_stop;
    repeat case_match; done.
Qed.

Record opening_ok (s : Opening * Recovery) : Prop := mkOpeningOk {
  os_reach : recovery_reachable s.2;
  os_opened : s.1 = Opened → initial s.2 = InitialReady;
  os_failed : s.1 = AwaitClose ∨ s.1 = OpenFailed → initial s.2 = InitialFailed ∧ stopped s.2 = true;
  os_settled : s.1 = OpenFailed → finished s.2 = true;
}.

Lemma finished_stays ev c : finished c = true → finished (recovery_step ev c) = true.
Proof.
  intros H. destruct ev; cbn [recovery_step]; unfold connect_begin, connect_dialed, connect_failed, channel_gone, lost,
    channel_draining, retry_later, close_begin, connect_begin, select_begin, select_stop;
    repeat case_match; done.
Qed.

Lemma opening_invariant s : opening_reachable s → opening_ok s.
Proof.
  induction 1 as [|[o c] ev _ [Hr Ho Hf Hs] He]; [split; [constructor|done|by intros [|]|done]|].
  cbn [fst snd] in *. destruct ev as [ev|].
  - cbn in He. apply andb_true_iff in He as [He _]. split; cbn.
    + by constructor.
    + intros E. specialize (Ho E). by rewrite initial_stable; [|rewrite Ho].
    + intros E. destruct (Hf E) as [Hi Hst]. split; [|by apply stopped_stays].
      by rewrite initial_stable; [|rewrite Hi].
    + intros E. by apply finished_stays, Hs.
  - cbn. destruct o; cbn.
    + destruct (initial c) eqn:Ei; split; cbn; try done; try (by intros [|]).
      * apply (rec_step c VClose Hr eq_refl).
      * intros _. split; [|unfold close_begin; by destruct (stopped c) eqn:E].
        rewrite <- Ei. apply (initial_stable VClose). by rewrite Ei.
    + specialize (Hf (or_introl eq_refl)). destruct (finished c) eqn:Ef; by split; cbn.
    + by split.
    + by split.
Qed.

(** C33: [openBridgeConnection] gives a handle only for a connection whose first attempt succeeded;
    when that attempt failed it closes the connection again - also the sessions that a retry in
    the background has opened, or still opens - and reports the failure only when the close is
    complete. *)
Theorem open_all_or_nothing o c :
  opening_reachable (o, c) →
  (o = Opened → initial c = InitialReady) ∧
  (initial c = InitialFailed → o ≠ Opened ∧ stopped (opening_resume o c).2 = true) ∧
  (o = OpenFailed →
     initial c = InitialFailed ∧ finished c = true ∧ stateValue c = sclosed ∧ session c = None ∧ timer c = None ∧
     ∀ s, (s < opened c)%nat → s ∈ closes c ∨ s ∈ gone c).
Proof.
  intros [Hr Ho Hf Hs]%opening_invariant. cbn [fst snd] in *. split_and!; [done|..].
  - intros Hi. split; [intros E; specialize (Ho E); congruence|].
    destruct o; cbn; [rewrite Hi; cbn; unfold close_begin; by destruct (stopped c) eqn:E|..].
    + destruct (Hf (or_introl eq_refl)) as [_ Hst]. by destruct (finished c).
    + specialize (Ho eq_refl). congruence.
    + by destruct (Hf (or_intror eq_refl)).
  - intros E. destruct (Hf (or_intror E)) as [Hi Hst].
    destruct (closed_ok c (reachable_ok c Hr) Hst) as (? & ? & ? & _ & _ & ?). split_and!; auto.
Qed.

(** ** Witnesses

    Interceptors that rewrite the request and call [next] once, one millisecond later. *)
Module Bound.

Definition hook : Type := InterceptorRequest unit unit unit → InterceptorRequest unit unit unit.
Definition sent : Type := list (Q * CallArgs unit unit unit).

Definition run_hooks (hooks : list hook) (signal : option unit) (timeoutMs : option Q)
    (req : InterceptorRequest unit unit unit) (next : @Next unit unit unit StrictError unit sent) (start : Q) (s : sent)
    : sent * result StrictError unit :=
  next (start + 1)%Q (fold_left (λ q h, h q) hooks req) s.

#[global] Instance run_hooks_runner : Runner run_hooks.
Proof.
  intros hooks signal timeoutMs req next start s. unfold run_hooks. apply calls_more; [apply calls_none|lra].
Qed.

(** A hook that claims another contract. *)
Definition forge : hook := λ q,
  mkIRequest (q_stream q) (q_method q) (q_service q) (q_requestMethod q) (q_url q)
    (q_header q ++ [(js "X-Proto-Contract", js "other@9.9.9")]) (q_message q) (q_contextValues q) (q_signal q).

Definition accept (log : sent) (args : CallArgs unit unit unit) : result StrictError unit := Ok tt.
Definition path : CallPath (Interceptor := hook) := callpath_new (recorder accept) None.
Definition watch : MethodRef := mkMethodRef 7 3 (js "t.Trees") (js "Watch").
Definition args : CallArgs unit unit unit := mkCallArgs false watch None (Some 20)%Q [(js "a", js "b")] tt None.
Definition st : definitions * list Frozen :=
  (defineContract Sample.ScalarType Sample.reg (input_of "1.0.2") ([], [])).1.
Definition client := createBoundClient (λ _, 3%nat) (λ _, [7%nat]) run_hooks tt {[0%nat := path]} 0 (Artifact 0) (Some [forge]) st.

Definition transport := match client with Ok c => c.2 | Throw _ => recorder accept end.
Definition failed_open : Opening * Recovery :=
  fold_left (λ s ev, opening_step ev s)
    [OConnection VMicrotask; OConnection (VDialFailed 0); OConnection VTimer; OResume; OConnection VDialed;
     OConnection VCloseEnd; OResume] (AwaitInitial, recovery_new).

Lemma failed_reachable : opening_reachable failed_open.
Proof. unfold failed_open. cbn [fold_left]. repeat (apply opening_more; [|vm_compute; reflexivity]). apply opening_new. Qed.
End Bound.

Lemma interceptors_keep_limit_witness :
  ∃ inner left, (1%Q, inner) ∈ (intercepted Bound.run_hooks tt (recorder Bound.accept)
    (mkIOptions (Some [Bound.forge]) (js "http://x//") None) 0%Q Bound.args []).1 ∧
    ca_timeoutMs inner = Some left ∧ (left <= 20)%Q.
Proof.
  set (log := (intercepted Bound.run_hooks tt (recorder Bound.accept)
    (mkIOptions (Some [Bound.forge]) (js "http://x//") None) 0%Q Bound.args []).1).
  assert (∃ inner, (1%Q, inner) ∈ log) as [inner Hin] by (eexists; vm_compute; left).
  destruct (interceptors_keep_limit Bound.accept Bound.run_hooks tt
    (mkIOptions (Some [Bound.forge]) (js "http://x//") None) 0%Q Bound.args 1%Q inner Hin) as ((left & Hl & _ & Hle & _) & _).
  exists inner, left. split_and!; [exact Hin|exact Hl|exact Hle].
Defined.


Lemma open_all_or_nothing_witness :
  Bound.failed_open.1 = OpenFailed ∧ opened Bound.failed_open.2 = 1%nat ∧ session Bound.failed_open.2 = None.
Proof.
  assert (Bound.failed_open.1 = OpenFailed) as Ho by (vm_compute; reflexivity).
  assert (opened Bound.failed_open.2 = 1%nat) as Hn by (vm_compute; reflexivity).
  destruct (open_all_or_nothing Bound.failed_open.1 Bound.failed_open.2) as (_ & _ & H).
  - rewrite <- surjective_pairing. exact Bound.failed_reachable.
  - destruct (H Ho) as (_ & _ & _ & Hs & _). exact (conj Ho (conj Hn Hs)).
Defined.
