(* ===== verification/RetryCalls.v ===== *)
(** * RetryCalls: the calls of [retry.ts] around its loop

    The pause between two attempts, the abort signal that a call's attempts share, and what
    [unary] and [stream] do when the loop [run] has ended.  The loop itself is [Retry.run], the
    input buffer [Replay]. *)
From Stdlib Require Import QArith Qminmax Qround Lqa.
From S2P Require Import Prelude Errors Text HpackTables Hpack Flow Stream Framing Replay Retry Regex Transport.
Local Open Scope Z_scope.

(** ** [pause] *)

(** The largest delay a timer can take. *)
Definition MAX_TIMEOUT : Q := 2147483647.

(** [p_timer]: the delay of the armed timer and when it was armed; [p_result]: how the promise
    was settled; [p_aborted]: the signal's reason. *)
Record Pause := mkPause {
  p_end : Q;
  p_timer : option (Q * Q);
  p_listening : bool;
  p_aborted : option Thrown;
  p_result : option (result Thrown unit);
}.

Definition p_settle (r : result Thrown unit) (p : Pause) : Pause :=
  mkPause (p_end p) None false (p_aborted p) match p_result p with None => Some r | x => x end.

(** [cancel], when the signal's reason is [reason]. *)
Definition pause_cancel (reason : Thrown) (p : Pause) : Pause := p_settle (Throw reason) p.

(** The promise's executor at time [now]. *)
Definition pause_new (ms now : Q) (aborted : option Thrown) : Pause :=
  let p := mkPause (now + ms) (Some (Qmin ms MAX_TIMEOUT, now)) true aborted None in
  match aborted with Some reason => pause_cancel reason p | None => p end.

(** [tick], at time [now]; a timer that fired is gone. *)
Definition pause_tick (now : Q) (p : Pause) : Pause :=
  match p_aborted p with
  | Some reason => pause_cancel reason p
  | None =>
      let remaining := (p_end p - now)%Q in
      if Qle_bool remaining 0 then p_settle (Ok tt) p
      else mkPause (p_end p) (Some (Qmin remaining MAX_TIMEOUT, now)) (p_listening p) None (p_result p)
  end.

(** The signal's event: its listener runs while it is installed. *)
Definition pause_abort (reason : Thrown) (p : Pause) : Pause :=
  match p_aborted p with
  | Some _ => p
  | None =>
      let p := mkPause (p_end p) (p_timer p) (p_listening p) (Some reason) (p_result p) in
      if p_listening p then pause_cancel reason p else p
  end.

Inductive PauseEvent := PauseTick (now : Q) | PauseAbort (reason : Thrown).

(** An armed timer fires when its delay has passed; [setTimeout] takes the delay as a 32-bit integer
    ([timer_delay]). *)
Definition pause_enabled (ev : PauseEvent) (p : Pause) : Prop :=
  match ev with
  | PauseTick now =>
      match p_timer p with Some (d, set) => (set + inject_Z (timer_delay d) <= now)%Q | None => False end
  | PauseAbort _ => True
  end.

Definition pause_step (ev : PauseEvent) (p : Pause) : Pause :=
  match ev with PauseTick now => pause_tick now p | PauseAbort reason => pause_abort reason p end.

(** The pauses that events lead to, with the number of ticks so far. *)
Inductive pause_reachable (ms now : Q) (aborted : option Thrown) : nat → Pause → Prop :=
| pause_start : pause_reachable ms now aborted 0 (pause_new ms now aborted)
| pause_more n p ev :
    pause_reachable ms now aborted n p → pause_enabled ev p →
    pause_reachable ms now aborted match ev with PauseTick _ => S n | _ => n end (pause_step ev p).

(** ** The abort signal of a call *)

Record CallSignal := mkCallSignal {
  cs_reason : option ConnectError;
  cs_onCancel : bool;            (* the listener on the caller's signal *)
  cs_onStopped : bool;           (* the listener on the connection's *)
  cs_timer : option Q;           (* the armed deadline timer's delay *)
}.

Definition call_canceled : ConnectError := connect_error "Call canceled" Code.Canceled.
Definition channel_closed : ConnectError := connect_error "Channel closed" Code.Unavailable.
Definition deadline_passed : ConnectError := connect_error "Deadline exceeded" Code.DeadlineExceeded.

Definition cs_abort (e : ConnectError) (s : CallSignal) : CallSignal :=
  mkCallSignal match cs_reason s with None => Some e | r => r end (cs_onCancel s) (cs_onStopped s) (cs_timer s).

(** The head of [run]: [signal] says whether the caller gave one; a deadline is finite exactly when
    there is a limit, and is taken at [now], the timer armed at [later]. *)
Definition signal_new (signal aborted stopped : bool) (timeout : option Q) (now later : Q) : CallSignal :=
  let s := mkCallSignal None signal true None in
  let s := if signal && aborted then cs_abort call_canceled s else s in
  let s := if stopped then cs_abort channel_closed s else s in
  mkCallSignal (cs_reason s) (cs_onCancel s) (cs_onStopped s)
    ((λ d, Qmax 0 (d - later)) <$> deadline_of timeout now).

Definition signal_cleanup (s : CallSignal) : CallSignal := mkCallSignal (cs_reason s) false false None.

Inductive SignalEvent := SCancel | SShutdown | SDeadline.

Definition signal_enabled (ev : SignalEvent) (s : CallSignal) : bool :=
  match ev with
  | SCancel => cs_onCancel s
  | SShutdown => cs_onStopped s
  | SDeadline => bool_decide (is_Some (cs_timer s))
  end.

(** A listener with [once] and a timer are gone after they ran. *)
Definition signal_step (ev : SignalEvent) (s : CallSignal) : CallSignal :=
  match ev with
  | SCancel => cs_abort call_canceled (mkCallSignal (cs_reason s) false (cs_onStopped s) (cs_timer s))
  | SShutdown => cs_abort channel_closed (mkCallSignal (cs_reason s) (cs_onCancel s) false (cs_timer s))
  | SDeadline => cs_abort deadline_passed (mkCallSignal (cs_reason s) (cs_onCancel s) (cs_onStopped s) None)
  end.

(** ** A call *)

(** [run] is under way; a stream was returned; it was dropped before its generator [message] was
    started; that has started; over. *)
Inductive CallPhase := CRunning | CReturned | CDropped | CIterating | COver.

#[export] Instance CallPhase_eq_dec : EqDecision CallPhase.
Proof. solve_decision. Defined.

(** The call's signal and buffer, and what it shares with the other calls of the connection: the
    retained bytes [used] and the [tokens].  [rc_attempts]: how often [run] entered its inner [try],
    [rc_trying]: it is in there now; [rc_counts]: what was reported to the throttle, by [run] and by
    the wrapper ([true]: a success). *)
Record RetryCall := mkRetryCall {
  rc_stream : bool;
  rc_signal : CallSignal;
  rc_replay : Replay;
  rc_used : Z;
  rc_tokens : Q;
  rc_phase : CallPhase;
  rc_attempts : nat;
  rc_trying : bool;
  rc_counts : list bool;
}.

Section call.
Context (limits : Limits) (throttle : option Throttling) (policy : option RetryPolicy).

Definition with_signal (s : CallSignal) (c : RetryCall) : RetryCall :=
  mkRetryCall (rc_stream c) s (rc_replay c) (rc_used c) (rc_tokens c) (rc_phase c)
    (rc_attempts c) (rc_trying c) (rc_counts c).
Definition with_replay (r : Replay * Z) (c : RetryCall) : RetryCall :=
  mkRetryCall (rc_stream c) (rc_signal c) r.1 r.2 (rc_tokens c) (rc_phase c)
    (rc_attempts c) (rc_trying c) (rc_counts c).
Definition with_phase (p : CallPhase) (c : RetryCall) : RetryCall :=
  mkRetryCall (rc_stream c) (rc_signal c) (rc_replay c) (rc_used c) (rc_tokens c) p
    (rc_attempts c) (rc_trying c) (rc_counts c).
Definition with_try (n : nat) (trying : bool) (c : RetryCall) : RetryCall :=
  mkRetryCall (rc_stream c) (rc_signal c) (rc_replay c) (rc_used c) (rc_tokens c) (rc_phase c)
    n trying (rc_counts c).
Definition counted (ok : bool) (tokens : Q) (c : RetryCall) : RetryCall :=
  mkRetryCall (rc_stream c) (rc_signal c) (rc_replay c) (rc_used c) tokens (rc_phase c)
    (rc_attempts c) (rc_trying c) (rc_counts c ++ [ok]).

Definition rc_close (c : RetryCall) : RetryCall := with_replay (close_replay (rc_replay c) (rc_used c)) c.
Definition rc_cleanup (c : RetryCall) : RetryCall := with_signal (signal_cleanup (rc_signal c)) c.
Definition rc_success (c : RetryCall) : RetryCall := counted true (success throttle (rc_tokens c)) c.
Definition rc_failure (e : Thrown) (c : RetryCall) : RetryCall :=
  counted false (failure throttle policy e (rc_tokens c)) c.

(** The [catch] in the loop of [run], of an error that is not the call's abort: a refusal that is
    retried transparently is no failure. *)
Definition attempt_failed (transparent : bool) (e : Thrown) (c : RetryCall) : RetryCall :=
  with_try (rc_attempts c) false (if transparent then c else rc_failure e c).

(** [run] has ended. *)
Definition run_ended (out : Outcome) (c : RetryCall) : RetryCall :=
  match out with
  | Threw _ => with_phase COver (rc_close (rc_cleanup c))
  | Returned =>
      if rc_stream c then with_phase CReturned (with_replay (Replay.commit (rc_replay c) (rc_used c)) c)
      else with_phase COver (rc_close (rc_success (rc_cleanup c)))
  end.

(** The end of the response's messages: done, an error, or the consumer returned early.  The inner
    generator's [cleanup] comes first. *)
Inductive Ending := EndDone | EndError (e : Thrown) | EndEarly.

Definition messages_ended (e : Ending) (c : RetryCall) : RetryCall :=
  let c := rc_cleanup c in
  let c := match e with
           | EndDone => rc_success c
           | EndError e => rc_failure e c
           | EndEarly => c
           end in
  with_phase COver (rc_close c).

Inductive RetryCallEvent :=
| CSignal (ev : SignalEvent)
| CReplay (ev : ReplayEvent)         (* the attempts read the input, a transport commits *)
| CShared (dused : Z) (tokens : Q)   (* other calls *)
| CTry                               (* the next attempt *)
| CFailed (transparent : bool) (e : Thrown)
| CRun (out : Outcome)
| CIterate
| CDrop                              (* the application drops the stream, or returns it unstarted *)
| CEnd (e : Ending).

(** [close] of the buffer is only called by the wrapper.  What ends an attempt, other than its result
    or a failure, is the abort of the call. *)
Definition retry_call_enabled (ev : RetryCallEvent) (c : RetryCall) : bool :=
  match ev with
  | CSignal ev => signal_enabled ev (rc_signal c)
  | CReplay ev => match ev with RClose => false | _ => true end
  | CShared _ _ => true
  | CTry => bool_decide (rc_phase c = CRunning) && negb (rc_trying c)
  | CFailed _ _ => bool_decide (rc_phase c = CRunning) && rc_trying c
  | CRun Returned => bool_decide (rc_phase c = CRunning) && rc_trying c
  | CRun (Threw _) =>
      bool_decide (rc_phase c = CRunning) && (negb (rc_trying c) || bool_decide (is_Some (cs_reason (rc_signal c))))
  | CIterate | CDrop => bool_decide (rc_phase c = CReturned)
  | CEnd _ => bool_decide (rc_phase c = CIterating)
  end.

Definition retry_call_step (ev : RetryCallEvent) (c : RetryCall) : RetryCall :=
  match ev with
  | CSignal ev => with_signal (signal_step ev (rc_signal c)) c
  | CReplay ev => with_replay (replay_step limits ev (rc_replay c) (rc_used c)) c
  | CShared dused tokens =>
      mkRetryCall (rc_stream c) (rc_signal c) (rc_replay c) (rc_used c + dused) tokens (rc_phase c)
        (rc_attempts c) (rc_trying c) (rc_counts c)
  | CTry => with_try (S (rc_attempts c)) true c
  | CFailed transparent e => attempt_failed transparent e c
  | CRun out => run_ended out c
  | CIterate => with_phase CIterating c
  | CDrop => with_phase CDropped c
  | CEnd e => messages_ended e c
  end.

(** A call from its beginning; [others]: what the other calls retain, kept up to date. *)
Inductive call_from (c0 : RetryCall) : Z → RetryCall → Prop :=
| from_start : call_from c0 (rc_used c0) c0
| from_more others c ev :
    call_from c0 others c → retry_call_enabled ev c = true →
    call_from c0 match ev with CShared dused _ => others + dused | _ => others end (retry_call_step ev c).

Definition call_start (stream : bool) (signal : CallSignal) (input : list bytes) (used : Z) (tokens : Q) : RetryCall :=
  mkRetryCall stream signal (replay_new input) used tokens CRunning 0 false [].
End call.

(** ** Pauses *)

Lemma qmin_cases a b : ((a <= b)%Q ∧ Qmin a b = a) ∨ ((b <= a)%Q ∧ Qmin a b = b).
Proof.
  unfold Qmin, GenericMinMax.gmin. destruct (a ?= b)%Q eqn:E; [left|left|right]; split; try done.
  - apply Qeq_alt in E. rewrite E. apply Qle_refl.
  - apply Qlt_alt in E. by apply Qlt_le_weak.
  - apply Qgt_alt in E. by apply Qlt_le_weak.
Qed.

Lemma chunk_delay d : (0 <= d <= MAX_TIMEOUT)%Q → timer_delay d = Qfloor d.
Proof.
  intros [H0 H1]. unfold timer_delay.
  assert (0 ≤ Qfloor d) by (change 0 with (Qfloor 0); by apply Qfloor_resp_le).
  assert (Qfloor d ≤ 2147483647) by (change 2147483647 with (Qfloor MAX_TIMEOUT); by apply Qfloor_resp_le).
  rewrite to_int32_id; lia.
Qed.

(** An unsettled pause after [n] ticks. *)
Record pause_ok (ms : Q) (n : nat) (p : Pause) : Prop := mkPauseOk {
  po_waiting : p_result p = None →
    ∃ d set, p_timer p = Some (d, set) ∧ p_listening p = true ∧ p_aborted p = None ∧
      (d == Qmin (p_end p - set) MAX_TIMEOUT)%Q ∧ (0 <= d)%Q ∧
      ((p_end p - set <= ms - inject_Z (Z.of_nat n) * MAX_TIMEOUT)%Q ∨ (p_end p - set < 1)%Q);
  po_settled : p_result p ≠ None → p_timer p = None ∧ p_listening p = false;
}.

Lemma chunk_bounds d x : (d == Qmin x MAX_TIMEOUT)%Q → (0 <= d)%Q → (0 <= d <= MAX_TIMEOUT)%Q.
Proof. intros E H. split; [done|]. rewrite E. apply Q.le_min_r. Qed.

Lemma settled_ok ms n r p : p_result p = None → pause_ok ms n (p_settle r p).
Proof. intros Hp. split; cbn; [by rewrite Hp|done]. Qed.

Lemma pause_ok_new ms now aborted : (0 <= ms)%Q → pause_ok ms 0 (pause_new ms now aborted).
Proof.
  intros Hm. unfold pause_new. destruct aborted as [reason|]; [by apply settled_ok|]. split; cbn; [|done].
  intros _. exists (Qmin ms MAX_TIMEOUT), now. split_and!; try done.
  - assert (now + ms - now == ms)%Q as -> by ring. reflexivity.
  - apply Q.min_glb; [done|]. unfold MAX_TIMEOUT. lra.
  - left. change (inject_Z (Z.of_nat 0)) with 0%Q. lra.
Qed.

(** After a tick, a chunk less is missing, or less than a millisecond. *)
Lemma tick_progress e d set now ms n :
  (d == Qmin (e - set) MAX_TIMEOUT)%Q → (0 <= d)%Q → (set + inject_Z (timer_delay d) <= now)%Q →
  ((e - set <= ms - inject_Z (Z.of_nat n) * MAX_TIMEOUT)%Q ∨ (e - set < 1)%Q) →
  ((e - now <= ms - inject_Z (Z.of_nat (S n)) * MAX_TIMEOUT)%Q ∨ (e - now < 1)%Q).
Proof.
  intros Ed H0 Hnow Hp. rewrite chunk_delay in Hnow by (by apply (chunk_bounds d (e - set))).
  pose proof (Qlt_floor d) as Hf. rewrite inject_Z_plus in Hf. change (inject_Z 1) with 1%Q in Hf.
  rewrite Nat2Z.inj_succ. unfold Z.succ. rewrite inject_Z_plus. change (inject_Z 1) with 1%Q.
  destruct (qmin_cases (e - set) MAX_TIMEOUT) as [[Hle Em]|[Hle Em]]; rewrite Em in Ed.
  - right. lra.
  - rewrite Ed in Hnow. change (Qfloor MAX_TIMEOUT) with 2147483647 in Hnow.
    change (inject_Z 2147483647) with MAX_TIMEOUT in Hnow.
    assert (0 <= inject_Z (Qfloor d))%Q as Hz.
    { change 0%Q with (inject_Z 0). rewrite <- Zle_Qle. change 0 with (Qfloor 0). by apply Qfloor_resp_le. }
    destruct Hp as [Hp|Hp]; [left|right]; unfold MAX_TIMEOUT in *; lra.
Qed.

Lemma pause_ok_step ms n p ev :
  pause_ok ms n p → pause_enabled ev p →
  pause_ok ms match ev with PauseTick _ => S n | _ => n end (pause_step ev p).
Proof.
  intros [Hw Hs] He. destruct (p_result p) as [r|] eqn:Er.
  - destruct (Hs ltac:(done)) as [Ht Hl]. destruct ev as [now|reason]; cbn in He; [by rewrite Ht in He|].
    cbn. unfold pause_abort. destruct (p_aborted p); [by split; rewrite Er|]. rewrite Hl. split; cbn; by rewrite ?Er.
  - destruct (Hw eq_refl) as (d & set & Ht & Hl & Ha & Ed & H0 & Hp).
    destruct ev as [now|reason]; cbn in He |- *.
    + rewrite Ht in He. unfold pause_tick. rewrite Ha.
      destruct (Qle_bool (p_end p - now) 0) eqn:Eq; [by apply settled_ok|].
      assert (0 < p_end p - now)%Q as Hpos.
      { apply Qnot_le_lt. intros H. apply Qle_bool_iff in H. congruence. }
      split; cbn; [|by rewrite Er]. intros _. exists (Qmin (p_end p - now) MAX_TIMEOUT), now.
      split_and!; [done|done|done|reflexivity| |].
      * apply Q.min_glb; [lra|]. unfold MAX_TIMEOUT. lra.
      * by apply (tick_progress _ d set).
    + unfold pause_abort. rewrite Ha, Hl. by apply settled_ok.
Qed.

Lemma pause_reachable_ok ms now aborted n p :
  (0 <= ms)%Q → pause_reachable ms now aborted n p → pause_ok ms n p.
Proof. intros Hm. induction 1 as [|n p ev _ IH He]; [by apply pause_ok_new|by apply pause_ok_step]. Qed.

(** The pause between two attempts neither ends early nor hangs, however long it is.  While
    it is not settled, it listens to the abort signal and a timer is armed whose delay fits in 32
    bits, so that it is not cut short; each time the timer fires, a whole chunk of 2147483647 ms
    has passed or less than a millisecond is missing, so that a pause of [ms] needs at most
    [ms / 2147483647] firings before its last millisecond; and a firing resolves it exactly if its
    end has come.  An abort rejects it with the signal's reason at once.  A settled pause has no
    timer and no listener left. *)
Theorem pause_sound ms now aborted n p :
  (0 <= ms)%Q → pause_reachable ms now aborted n p →
  (p_result p = None →
     ∃ d set, p_timer p = Some (d, set) ∧ p_listening p = true ∧
       (0 <= d <= MAX_TIMEOUT)%Q ∧ timer_delay d = Qfloor d ∧ (d <= p_end p - set)%Q ∧
       ((p_end p - set <= ms - inject_Z (Z.of_nat n) * MAX_TIMEOUT)%Q ∨ (p_end p - set < 1)%Q)) ∧
  (p_result p = None → ∀ t,
     p_result (pause_tick t p) = (if Qle_bool (p_end p - t) 0 then Some (Ok tt) else None) ∧
     ∀ reason, p_result (pause_abort reason p) = Some (Throw reason)) ∧
  (p_result p ≠ None → p_timer p = None ∧ p_listening p = false).
Proof.
  intros Hm Hr. destruct (pause_reachable_ok _ _ _ _ _ Hm Hr) as [Hw Hs]. split_and!; [| |done].
  - intros E. destruct (Hw E) as (d & set & Ht & Hl & Ha & Ed & H0 & Hp). exists d, set.
    pose proof (chunk_bounds _ _ Ed H0) as Hb. split_and!; [done|done|apply Hb|apply Hb| | |done].
    + by apply chunk_delay.
    + rewrite Ed. apply Q.le_min_l.
  - intros E t. destruct (Hw E) as (d & set & Ht & Hl & Ha & _). unfold pause_tick, pause_abort. rewrite Ha, Hl. split.
    + destruct (Qle_bool _ 0); cbn; by rewrite E.
    + intros reason. cbn. by rewrite E.
Qed.

(** ** Calls *)

Lemma committed_stays l ev r u : committed r = true → committed (replay_step l ev r u).1 = true.
Proof.
  intros H. destruct ev; cbn; try done.
  - unfold next, set_iters. repeat case_match; done.
  - unfold settle, keep. rewrite H. repeat case_match; simplify_eq; done.
Qed.

Section calls.
Context (limits : Limits) (throttle : option Throttling) (policy : option RetryPolicy).
Context (Hlimits : 0 ≤ perRpcBufferBytes limits).

Abbreviation step := (retry_call_step limits throttle policy).

(** No listener and no timer. *)
Definition quiet (s : CallSignal) : Prop := cs_onCancel s = false ∧ cs_onStopped s = false ∧ cs_timer s = None.

(** The reports: failures of attempts, at most one for each, and then the end of the call. *)
Definition attempts_reported (c : RetryCall) : Prop :=
  ∃ k, rc_counts c = replicate k false ∧ (k + (if rc_trying c then 1 else 0) ≤ rc_attempts c)%nat.
Definition end_reported (stream : bool) (c : RetryCall) : Prop :=
  ∃ k tail, rc_counts c = replicate k false ++ tail ∧ (k ≤ rc_attempts c)%nat ∧
    (tail = [] ∨ tail = [true] ∨ tail = [false] ∧ stream = true).

Record call_ok (stream : bool) (signal : CallSignal) (others : Z) (c : RetryCall) : Prop := mkCallOk {
  cl_stream : rc_stream c = stream;
  cl_replay : replay_ok limits (rc_replay c);
  cl_used : rc_used c = others + r_bytes (rc_replay c);
  cl_committed : rc_phase c ≠ CRunning → committed (rc_replay c) = true;
  cl_over : rc_phase c = COver → quiet (rc_signal c);
  cl_held : rc_phase c ≠ COver → cs_reason (rc_signal c) = None → rc_signal c = signal;
  cl_counts : rc_phase c ≠ COver → attempts_reported c;
  cl_once : rc_phase c = COver → end_reported stream c;
  cl_unary : stream = false → rc_phase c = CRunning ∨ rc_phase c = COver;
}.

Lemma replay_accounted ev r u others :
  replay_ok limits r → u = others + r_bytes r →
  let x := replay_step limits ev r u in
  replay_ok limits x.1 ∧ x.2 = others + r_bytes x.1.
Proof. intros Hr Hu. destruct (accounted_step limits ev r u Hlimits Hr) as (H1 & H2 & _). split; [done|lia]. Qed.

(** Closing the buffer at the end of a call. *)
Lemma over_ok stream signal others c :
  rc_stream c = stream → replay_ok limits (rc_replay c) → rc_used c = others + r_bytes (rc_replay c) →
  quiet (rc_signal c) → end_reported stream c → call_ok stream signal others (with_phase COver (rc_close c)).
Proof.
  intros Hs Hr Hu Hq Hc. pose proof (replay_accounted RClose (rc_replay c) (rc_used c) others Hr Hu) as [H1 H2].
  cbn [replay_step] in H1, H2. unfold rc_close. split; cbn; try done. intros _. by right.
Qed.

Lemma attempts_end stream c tail tokens :
  attempts_reported c → tail = [] ∨ tail = [true] ∨ tail = [false] ∧ stream = true →
  end_reported stream (mkRetryCall (rc_stream c) (rc_signal c) (rc_replay c) (rc_used c) tokens (rc_phase c)
    (rc_attempts c) (rc_trying c) (rc_counts c ++ tail)).
Proof. intros (k & E & Hk) Ht. exists k, tail. cbn. rewrite E. split_and!; [done|lia|done]. Qed.

(** The firing of a listener or a timer gives a reason. *)
Lemma fired_reason ev s : cs_reason (signal_step ev s) ≠ None.
Proof. destruct ev; cbn; by destruct (cs_reason s). Qed.

Lemma call_ok_signal stream signal others c ev :
  call_ok stream signal others c → retry_call_enabled (CSignal ev) c = true →
  call_ok stream signal others (step (CSignal ev) c).
Proof.
  intros [Hst Hr Hu Hc Ho Hh Hn H1 Hs] He. split; cbn; try done.
  - intros Hp. destruct (Ho Hp) as (E1 & E2 & E3). cbn in He.
    destruct ev; cbn in He; rewrite ?E1, ?E2, ?E3 in He; done.
  - intros _ E. by destruct (fired_reason ev (rc_signal c)).
Qed.

Lemma call_ok_failed stream signal others c transparent e :
  call_ok stream signal others c → rc_phase c = CRunning → rc_trying c = true →
  call_ok stream signal others (attempt_failed throttle policy transparent e c).
Proof.
  intros [Hst Hr Hu Hc Ho Hh Hn H1 Hs] Hp Ht. destruct (Hn ltac:(by rewrite Hp)) as (k & E & Hk). rewrite Ht in Hk.
  unfold attempt_failed. destruct transparent; split; cbn; rewrite ?Hp; try done.
  - intros _. by apply Hh; rewrite Hp.
  - intros _. exists k. cbn. split; [done|lia].
  - intros _. by left.
  - intros _. by apply Hh; rewrite Hp.
  - intros _. exists (S k). cbn. rewrite E. split; [|lia]. by rewrite <- replicate_cons_app.
  - intros _. by left.
Qed.

Lemma call_ok_run stream signal others c out :
  call_ok stream signal others c → rc_phase c = CRunning → call_ok stream signal others (run_ended throttle out c).
Proof.
  intros [Hst Hr Hu Hc Ho Hh Hn H1 Hs] Hp. pose proof (Hn ltac:(by rewrite Hp)) as H0.
  destruct out as [|e]; cbn.
  - destruct (rc_stream c) eqn:Es.
    + pose proof (replay_accounted RCommit _ _ _ Hr Hu) as [H2 H3]. split; cbn; try done; try lia; try congruence.
      intros _. apply Hh. by rewrite Hp.
    + apply over_ok; cbn; try done; [congruence|]. apply (attempts_end stream (rc_cleanup c) [true]); [done|by right; left].
  - apply over_ok; cbn; try done. destruct H0 as (k & E & Hk). exists k, []. cbn. rewrite E, app_nil_r.
    split_and!; [done|lia|by left].
Qed.

Lemma call_ok_end stream signal others c e :
  call_ok stream signal others c → rc_phase c = CIterating →
  call_ok stream signal others (messages_ended throttle policy e c).
Proof.
  intros [Hst Hr Hu Hc Ho Hh Hn H1 Hs] Hp. pose proof (Hn ltac:(by rewrite Hp)) as H0.
  assert (stream = true) as E by (destruct stream; [done|]; by destruct (Hs eq_refl); congruence).
  unfold messages_ended. destruct e; apply over_ok; cbn; try done.
  - apply (attempts_end stream (rc_cleanup c) [true]); [done|by right; left].
  - apply (attempts_end stream (rc_cleanup c) [false]); [done|by right; right].
  - destruct H0 as (k & Ek & Hk). exists k, []. cbn. rewrite Ek, app_nil_r. split_and!; [done|lia|by left].
Qed.

Lemma call_ok_step stream signal others c ev :
  call_ok stream signal others c → retry_call_enabled ev c = true →
  call_ok stream signal match ev with CShared dused _ => others + dused | _ => others end (step ev c).
Proof.
  intros Hok He. destruct ev as [ev|ev|dused tokens| |transparent e|out| | |e].
  - by apply call_ok_signal.
  - destruct Hok as [Hst Hr Hu Hc Ho Hh Hn H1 Hs].
    pose proof (replay_accounted ev _ _ _ Hr Hu) as [H2 H3]. split; cbn; try done.
    intros Hp. by apply committed_stays, Hc.
  - destruct Hok as [Hst Hr Hu Hc Ho Hh Hn H1 Hs]. split; cbn; try done. lia.
  - cbn in He. apply andb_true_iff in He as [Hp%bool_decide_eq_true Ht%negb_true_iff].
    destruct Hok as [Hst Hr Hu Hc Ho Hh Hn H1 Hs]. split; cbn; try done; rewrite ?Hp; try done.
    intros _. destruct (Hn ltac:(by rewrite Hp)) as (k & E & Hk). rewrite Ht in Hk. exists k. cbn. split; [done|lia].
  - cbn in He. apply andb_true_iff in He as [Hp%bool_decide_eq_true Ht]. by apply call_ok_failed.
  - assert (rc_phase c = CRunning).
    { cbn in He. destruct out; by apply andb_true_iff in He as [Hp%bool_decide_eq_true _]. }
    by apply call_ok_run.
  - apply bool_decide_eq_true in He. destruct Hok as [Hst Hr Hu Hc Ho Hh Hn H1 Hs]. rewrite He in *.
    split; cbn; try done; auto. intros E. by destruct (Hs E).
  - apply bool_decide_eq_true in He. destruct Hok as [Hst Hr Hu Hc Ho Hh Hn H1 Hs]. rewrite He in *.
    split; cbn; try done; auto. intros E. by destruct (Hs E).
  - apply bool_decide_eq_true in He. by apply call_ok_end.
Qed.

(** C34: a call gives back what it took.  In every interleaving with other calls, with reads of
    the input, commits, aborts and deadlines, [used] is what the other calls retain plus what this
    one does.  Once [run] has ended the call is committed and retains nothing.  Once the call is
    over - a unary call when its attempts are, a stream when its messages ended, failed or were
    left half-read, and either when its attempts failed - it has no deadline timer and no listener
    on a signal; until then, unless it was aborted, it has those it began with, and that is where a
    stream stays that the application drops before it starts to read it.  What a call reports to
    the throttle is at most one failure for each of its attempts, and after these, when it is
    over, at most one success or, of a stream, one failure; nothing is reported after that.  An
    abort reason never changes. *)
Theorem calls_give_back stream signal input used tokens others c :
  call_from limits throttle policy (call_start stream signal input used tokens) others c →
  rc_used c = others + r_bytes (rc_replay c) ∧
  (rc_phase c ≠ CRunning → committed (rc_replay c) = true ∧ r_bytes (rc_replay c) = 0) ∧
  (rc_phase c = COver → cs_onCancel (rc_signal c) = false ∧ cs_onStopped (rc_signal c) = false ∧
     cs_timer (rc_signal c) = None) ∧
  (rc_phase c ≠ COver → cs_reason (rc_signal c) = None → rc_signal c = signal) ∧
  (∃ k tail, rc_counts c = replicate k false ++ tail ∧ (k ≤ rc_attempts c)%nat ∧
     (tail = [] ∨ rc_phase c = COver ∧ (tail = [true] ∨ tail = [false] ∧ stream = true))) ∧
  (rc_phase c = COver → ∀ ev, retry_call_enabled ev c = true →
     rc_phase (step ev c) = COver ∧ rc_counts (step ev c) = rc_counts c) ∧
  (∀ e ev, cs_reason (rc_signal c) = Some e → cs_reason (rc_signal (step ev c)) = Some e).
Proof.
  intros H. assert (call_ok stream signal others c) as [Hst Hr Hu Hc Ho Hh Hn H1 Hs].
  { induction H as [|others c ev _ IH He]; [|by apply call_ok_step].
    split; cbn; try done; try lia; [intros _; by exists 0%nat|by left]. }
  split_and!; [done| |done|done|..].
  - intros Hp. specialize (Hc Hp). split; [done|]. destruct Hr as (E & _ & Hsaved). by rewrite E, Hsaved.
  - destruct (decide (rc_phase c = COver)) as [Hp|Hp].
    + destruct (H1 Hp) as (k & tail & E & Hk & Ht). exists k, tail. split_and!; [done|done|]. tauto.
    + destruct (Hn Hp) as (k & E & Hk). exists k, []. rewrite E, app_nil_r. split_and!; [done|lia|by left].
  - intros Hp ev He. destruct ev as [ev|ev|dused tk| |tr e|out| | |en]; try done; cbn in He; rewrite Hp in He; try done.
    by destruct out.
  - intros e ev E. destruct ev as [ev|ev|dused tk| |tr en|out| | |en]; try done.
    + destruct ev; cbn; by rewrite E.
    + by destruct tr.
    + destruct out; cbn; [|done]. by destruct (rc_stream c).
    + by destruct en.
Qed.
End calls.

(** ** Witnesses *)
Module PauseDemo.

(** A pause of 35 days, after its first timer. *)
Definition long : Pause := pause_tick 2147483650 (pause_new 3000000000 0 None).

Lemma long_reachable : pause_reachable 3000000000 0 None 1 long.
Proof.
  apply (pause_more _ _ _ 0 _ (PauseTick 2147483650)); [apply pause_start|]. cbn.
  apply Qle_bool_iff. vm_compute. reflexivity.
Qed.

Definition signal : CallSignal := signal_new true false false (Some 50)%Q 0 1.
Definition limits : Limits := mkReplayLimits 100 100.
Definition events : list RetryCallEvent :=
  [CTry; CReplay RIterable; CReplay (RNext 0); CReplay (RSettle false); CShared 7 5;
   CFailed false (mkThrown None None); CTry; CRun Returned; CIterate; CSignal SCancel; CEnd (EndError (mkThrown None None))].
Definition after (evs : list RetryCallEvent) : RetryCall :=
  fold_left (λ c ev, retry_call_step limits None None ev c) evs (call_start true signal [[1; 2; 3]] 0 10).

Lemma after_reachable : call_from limits None None (call_start true signal [[1; 2; 3]] 0 10) 7 (after events).
Proof.
  unfold after, events. cbn [fold_left].
  apply (from_more _ _ _ _ 7 _ (CEnd (EndError (mkThrown None None)))); [|vm_compute; reflexivity].
  apply (from_more _ _ _ _ 7 _ (CSignal SCancel)); [|vm_compute; reflexivity].
  apply (from_more _ _ _ _ 7 _ CIterate); [|vm_compute; reflexivity].
  apply (from_more _ _ _ _ 7 _ (CRun Returned)); [|vm_compute; reflexivity].
  apply (from_more _ _ _ _ 7 _ CTry); [|vm_compute; reflexivity].
  apply (from_more _ _ _ _ 7 _ (CFailed false (mkThrown None None))); [|vm_compute; reflexivity].
  apply (from_more _ _ _ _ 0 _ (CShared 7 5)); [|vm_compute; reflexivity].
  apply (from_more _ _ _ _ 0 _ (CReplay (RSettle false))); [|vm_compute; reflexivity].
  apply (from_more _ _ _ _ 0 _ (CReplay (RNext 0))); [|vm_compute; reflexivity].
  apply (from_more _ _ _ _ 0 _ (CReplay RIterable)); [|vm_compute; reflexivity].
  apply (from_more _ _ _ _ 0 _ CTry); [|vm_compute; reflexivity].
  apply from_start.
Qed.
End PauseDemo.

Lemma pause_sound_witness :
  ∃ d set, p_timer PauseDemo.long = Some (d, set) ∧ (d <= MAX_TIMEOUT)%Q ∧ timer_delay d = 852516350.
Proof.
  assert (p_result PauseDemo.long = None) as Hr by (vm_compute; reflexivity).
  assert (0 <= 3000000000)%Q as H0 by (apply Qle_bool_iff; vm_compute; reflexivity).
  destruct (pause_sound 3000000000 0 None 1 PauseDemo.long H0 PauseDemo.long_reachable) as (H & _).
  destruct (H Hr) as (d & set & Ht & _ & [_ Hd] & Hfloor & _). exists d, set. split; [exact Ht|]. split; [exact Hd|].
  rewrite Hfloor. assert (Some (d, set) = p_timer PauseDemo.long) as E by (rewrite Ht; reflexivity).
  vm_compute in E. injection E as -> _. vm_compute. reflexivity.
Defined.

Lemma calls_give_back_witness :
  rc_used (PauseDemo.after PauseDemo.events) = 7 ∧ cs_timer (rc_signal (PauseDemo.after PauseDemo.events)) = None.
Proof.
  assert (0 ≤ perRpcBufferBytes PauseDemo.limits) as Hl by (vm_compute; discriminate).
  destruct (calls_give_back PauseDemo.limits None None Hl true PauseDemo.signal [[1; 2; 3]] 0 10 7
    (PauseDemo.after PauseDemo.events) PauseDemo.after_reachable) as (Hu & Hc & Ho & _).
  assert (rc_phase (PauseDemo.after PauseDemo.events) = COver) as Hp by (vm_compute; reflexivity).
  destruct (Hc ltac:(rewrite Hp; discriminate)) as [_ Hb]. rewrite Hb in Hu.
  split; [exact Hu|]. apply Ho. exact Hp.
Defined.
