(* ===== verification/Statistics.v ===== *)
(** * Statistics: what the load benchmark reports

    [scripts/load-benchmark-lib.ts] and [scripts/soak-analysis-lib.ts]: distributions of latencies,
    exact and from a histogram of bounded size, the verdict on recovery, and the trend of a
    resource.  Times and values are rationals; the product of a count and a fraction is rounded
    to a double, because the rank it gives depends on the last bit.  What reads an environment
    variable or a metrics page is in [Metrics]. *)
From Stdlib Require Import QArith Qround Qminmax Lqa.
From stdpp Require Import sorting.
From S2P Require Import Prelude Sort Retry.
Local Open Scope Z_scope.

(** ** Ranks *)

(** [p] rounded to a multiple of [2^k], ties to even. *)
Definition nearest (k p : Z) : Z :=
  if k <=? 0 then p
  else
    let q := p / 2 ^ k in
    let r := p mod 2 ^ k in
    let half := 2 ^ (k - 1) in
    (if (half <? r) || ((r =? half) && Z.odd q) then q + 1 else q) * 2 ^ k.

(** The fractions of the benchmark as doubles, in units of [2^-53]. *)
Definition UNIT : Z := 2 ^ 53.
Definition F50 : Z := 4503599627370496.
Definition F95 : Z := 8556839292003942.
Definition F99 : Z := 8917127262193582.

(** [Math.ceil(count * fraction)]: the product has 53 significant bits. *)
Definition target (count fraction : Z) : Z :=
  let product := nearest (Z.log2 (count * fraction) - 52) (count * fraction) in
  - (- product / UNIT).

Example target_rounds : map (λ f, target 20 f) [F50; F95; F99] = [10; 19; 20].
Proof. reflexivity. Qed.

(** ** Exact distributions *)

Record Distribution := mkDistribution {
  d_count : Z;
  minMs : Q;
  p50Ms : Q;
  p95Ms : Q;
  p99Ms : Q;
  maxMs : Q;
  meanMs : Q;
}.

Definition percentile (sorted : list Q) (fraction : Z) : Q :=
  match sorted with
  | [] => 0%Q
  | _ =>
      let index := Z.min (zlen sorted - 1) (Z.max 0 (target (zlen sorted) fraction - 1)) in
      default 0%Q (sorted !! Z.to_nat index)
  end.

(** The sign of [a - b]. *)
Definition by_value (a b : Q) : Z :=
  match Qcompare a b with Lt => -1 | Eq => 0 | Gt => 1 end.

Definition sum (values : list Q) : Q := fold_left Qplus values 0%Q.

Definition distribution (values : list Q) : Distribution :=
  match values with
  | [] => mkDistribution 0 0 0 0 0 0 0
  | _ =>
      let sorted := sort_by by_value values in
      mkDistribution (zlen sorted) (default 0%Q (list.head sorted)) (percentile sorted F50)
        (percentile sorted F95) (percentile sorted F99) (default 0%Q (list.last sorted))
        (sum values / inject_Z (zlen values))%Q
  end.

(** ** The histogram *)

Record LatencyHistogram := mkHistogram {
  buckets : list Z;
  h_count : Z;
  h_sum : Q;
  minimum : option Q;          (* [None]: [Infinity] *)
  maximum : Q;
}.
Definition LAST : Z := 60000.
Definition histogram_new : LatencyHistogram := mkHistogram (replicate (Z.to_nat 60001) 0) 0 0 None 0.

Definition bucket (milliseconds : Q) : Z := Z.min LAST (Qceiling milliseconds).

(** [None]: the value is refused. *)
Definition observe (milliseconds : num) (h : LatencyHistogram) : option LatencyHistogram :=
  match milliseconds with
  | Fin ms =>
      if Qle_bool 0 ms then
        Some (mkHistogram (alter Z.succ (Z.to_nat (bucket ms)) (buckets h)) (h_count h + 1)
                (h_sum h + ms)%Q (Some (match minimum h with Some m => Qmin m ms | None => ms end))
                (Qmax (maximum h) ms))
      else None
  | _ => None
  end.

Fixpoint rank_loop (rest : list Z) (index accumulated wanted : Z) (max : Q) : Q :=
  match rest with
  | [] => max
  | n :: rest =>
      if wanted <=? accumulated + n
      then if index =? LAST then max else Qmin (inject_Z index) max
      else rank_loop rest (index + 1) (accumulated + n) wanted max
  end.
Definition rank (h : LatencyHistogram) (fraction : Z) : Q :=
  rank_loop (buckets h) 0 0 (target (h_count h) fraction) (maximum h).

Definition histogram_distribution (h : LatencyHistogram) : Distribution :=
  if h_count h =? 0 then distribution []
  else mkDistribution (h_count h) (default 0%Q (minimum h)) (rank h F50) (rank h F95) (rank h F99)
         (maximum h) (h_sum h / inject_Z (h_count h))%Q.

(** ** Recovery *)

Record RecoverySnapshot := mkSnapshot {
  activeTunnels : Z;
  establishedTunnels : Z;
  goroutines : Z;
  heapAllocBytes : Z;
  rssBytes : option Z;
}.
Record SmokeThresholds := mkThresholds {
  maxErrors : Z;
  maxP99Ms : Q;
  maxGoroutineGrowth : Z;
  maxHeapGrowthBytes : Z;
  maxRSSGrowthBytes : Z;
}.
(** The lines of the report, by what they say. *)
Inductive Failure :=
| OperationErrors (errors limit : Z)
| SlowOperations (p99 limit : Q)
| TunnelsLeft (active established : Z)
| GoroutineGrowth (growth limit : Z)
| HeapGrowth (growth limit : Z)
| RSSGrowth (growth limit : Z).

Definition recoveryFailures (baseline recovered : RecoverySnapshot) (errors : Z) (p99Ms : Q)
    (thresholds : SmokeThresholds) : list Failure :=
  (if maxErrors thresholds <? errors then [OperationErrors errors (maxErrors thresholds)] else []) ++
  (if Qle_bool p99Ms (maxP99Ms thresholds) then [] else [SlowOperations p99Ms (maxP99Ms thresholds)]) ++
  (if negb (activeTunnels recovered =? 0) || negb (establishedTunnels recovered =? 0)
   then [TunnelsLeft (activeTunnels recovered) (establishedTunnels recovered)] else []) ++
  (let goroutineGrowth := goroutines recovered - goroutines baseline in
   if maxGoroutineGrowth thresholds <? goroutineGrowth
   then [GoroutineGrowth goroutineGrowth (maxGoroutineGrowth thresholds)] else []) ++
  (let heapGrowth := heapAllocBytes recovered - heapAllocBytes baseline in
   if maxHeapGrowthBytes thresholds <? heapGrowth
   then [HeapGrowth heapGrowth (maxHeapGrowthBytes thresholds)] else []) ++
  (match rssBytes baseline, rssBytes recovered with
   | Some before, Some after =>
       let rssGrowth := after - before in
       if maxRSSGrowthBytes thresholds <? rssGrowth
       then [RSSGrowth rssGrowth (maxRSSGrowthBytes thresholds)] else []
   | _, _ => []
   end).

(** ** Trends *)

Record Trend := mkTrend {
  t_count : Z;
  spanSeconds : Q;
  slopePerHour : Q;
  firstQuarterMean : Q;
  lastQuarterMean : Q;
  t_min : Q;
  t_max : Q;
}.

Definition mean (values : list Q) : Q := (sum values / inject_Z (zlen values))%Q.
Definition finite_point (p : num * num) : option (Q * Q) :=
  match p with (Fin seconds, Fin value) => Some (seconds, value) | _ => None end.
Definition fold_values (f : Q → Q → Q) (values : list Q) : Q :=
  match values with [] => 0%Q | v :: values => fold_left f values v end.
Definition square (x : Q) : Q := (x * x)%Q.

(** [None]: an error is thrown. *)
Definition resourceTrend (samples : list (num * num)) : option Trend :=
  if zlen samples <? 2 then None
  else
    points ← mapM finite_point samples;
    let x := mean (map fst points) in
    let y := mean (map snd points) in
    let variance := fold_left (λ sum p, sum + square (fst p - x))%Q points 0%Q in
    if Qeq_bool variance 0 then None
    else
      let covariance := fold_left (λ sum p, sum + (fst p - x) * (snd p - y))%Q points 0%Q in
      let quarter := Z.max 1 (zlen points / 4) in
      Some (mkTrend (zlen points)
        (default 0%Q (fst <$> list.last points) - default 0%Q (fst <$> list.head points))%Q
        (covariance / variance * 3600)%Q
        (mean (map snd (take (Z.to_nat quarter) points)))
        (mean (map snd (drop (Z.to_nat (zlen points - quarter)) points)))
        (fold_values Qmin (map snd points)) (fold_values Qmax (map snd points))).

(** ** Ranks lie within the sample *)

Lemma nearest_le k p m : (0 < k → m mod 2 ^ k = 0) → p ≤ m → nearest k p ≤ m.
Proof.
  unfold nearest. intros Hm Hp. destruct (Z.leb_spec k 0); [done|]. specialize (Hm ltac:(lia)).
  assert (0 < 2 ^ k) as Hk by (apply Z.pow_pos_nonneg; lia).
  assert (2 ^ k = 2 * 2 ^ (k - 1)) as Hh by (rewrite <- Z.pow_succ_r by lia; f_equal; lia).
  assert (0 ≤ 2 ^ (k - 1)) as Hh0 by (apply Z.pow_nonneg; lia).
  pose proof (Z.div_mod p (2 ^ k) ltac:(lia)) as Hd. pose proof (Z.mod_pos_bound p (2 ^ k) Hk) as Hr.
  pose proof (Z.div_mod m (2 ^ k) ltac:(lia)) as Hd'. rewrite Hm in Hd'.
  set (q := p / 2 ^ k) in *. set (r := p mod 2 ^ k) in *. set (n := m / 2 ^ k) in *.
  assert (q ≤ n) as Hq by nia.
  destruct ((_ <? r) || _) eqn:E; [|nia].
  assert (0 < r) as Hpos.
  { apply orb_true_iff in E as [E|E]; [|apply andb_true_iff in E as [E _]]; lia. }
  assert (q < n) by nia. nia.
Qed.

Lemma nearest_pos k p : k ≤ Z.log2 p → 0 < p → 0 < nearest k p.
Proof.
  unfold nearest. intros Hk Hp. destruct (Z.leb_spec k 0); [done|].
  assert (2 ^ k ≤ p) as H2.
  { transitivity (2 ^ Z.log2 p); [apply Z.pow_le_mono_r; lia|apply Z.log2_spec, Hp]. }
  assert (0 < 2 ^ k) as H0 by (apply Z.pow_pos_nonneg; lia).
  assert (1 ≤ p / 2 ^ k) by (apply Z.div_le_lower_bound; lia).
  destruct ((_ <? _) || _); nia.
Qed.

Lemma target_range count fraction :
  0 < count < UNIT → 0 < fraction ≤ UNIT → 1 ≤ target count fraction ≤ count.
Proof.
  intros Hc Hf. unfold target. set (k := Z.log2 (count * fraction) - 52).
  assert (0 < count * fraction) as Hp by nia.
  assert (0 < nearest k (count * fraction)) as H1 by (apply nearest_pos; [unfold k; lia|done]).
  assert (nearest k (count * fraction) ≤ count * UNIT) as H2.
  { apply nearest_le; [|nia]. intros Hk.
    assert (k ≤ 53) as Hk53.
    { unfold k. assert (Z.log2 (count * fraction) < 106); [|lia]. apply Z.log2_lt_pow2; [done|].
      change (2 ^ 106) with (UNIT * UNIT). nia. }
    apply Z.mod_divide; [apply Z.pow_nonzero; lia|]. apply Z.divide_mul_r. exists (2 ^ (53 - k)).
    rewrite <- Z.pow_add_r by lia. unfold UNIT. f_equal. lia. }
  assert (0 < UNIT) as HU by done. set (p := nearest k (count * fraction)) in *.
  split.
  - assert (- p / UNIT < 0); [|lia]. apply Z.div_lt_upper_bound; lia.
  - assert (- count ≤ - p / UNIT); [|lia]. apply Z.div_le_lower_bound; lia.
Qed.

(** ** Sorted samples *)

#[local] Instance by_value_comparator : Comparator by_value.
Proof.
  assert (∀ x y, by_value x y ≤ 0 ↔ (x <= y)%Q) as Hle.
  { intros x y. unfold by_value. rewrite Qle_alt. destruct (x ?= y)%Q; split; (lia || done). }
  split; [|intros x y z; rewrite !Hle; apply Qle_trans].
  intros x y. unfold by_value. rewrite <- (Qcompare_antisym x y). destruct (x ?= y)%Q; cbn; lia.
Qed.
Lemma below_le x y : below by_value x y ↔ (x <= y)%Q.
Proof. unfold below, by_value. rewrite Qle_alt. destruct (x ?= y)%Q; split; (lia || done). Qed.

(** The value of a rank, with the smaller ones before it and the greater ones behind. *)
Lemma percentile_split values fraction :
  values ≠ [] → zlen values < UNIT → 0 < fraction ≤ UNIT →
  ∃ before x after,
    sort_by by_value values = before ++ x :: after ∧
    zlen before = target (zlen values) fraction - 1 ∧
    percentile (sort_by by_value values) fraction = x ∧
    Forall (λ y, y <= x)%Q before ∧ Forall (λ y, x <= y)%Q after.
Proof.
  intros Hne Hlen Hf. set (sorted := sort_by by_value values).
  assert (zlen sorted = zlen values) as El.
  { unfold zlen, sorted. by rewrite (Permutation_length (sort_by_perm by_value values)). }
  assert (0 < zlen values) as Hpos by (destruct values; [done|]; zl).
  pose proof (target_range (zlen values) fraction ltac:(done) Hf) as Ht.
  set (i := Z.to_nat (target (zlen values) fraction - 1)).
  destruct (lookup_lt_is_Some_2 sorted i) as [x Hx]; [unfold i, zlen in *; lia|].
  exists (take i sorted), x, (drop (S i) sorted). pose proof (take_drop_middle _ _ _ Hx) as Hsplit.
  assert (percentile sorted fraction = x) as Hper.
  { unfold percentile. destruct sorted as [|y l] eqn:E; [done|]. rewrite <- E in *. rewrite El.
    rewrite Z.max_r, Z.min_r by lia. fold i. by rewrite Hx. }
  pose proof (sort_by_sorted by_value values) as Hs. fold sorted in Hs. rewrite <- Hsplit in Hs.
  apply StronglySorted_app in Hs as (Hab & _ & Hs). apply StronglySorted_inv in Hs as [_ Hs].
  split_and!; [done| |done|..].
  - rewrite zlen_take. unfold i, zlen in *. lia.
  - apply list.Forall_forall. intros y Hy. apply below_le, Hab; set_solver.
  - eapply list.Forall_impl; [exact Hs|]. intros y. apply below_le.
Qed.

(** ** The histogram *)

(** The state after a list of values. *)
Fixpoint total (f : Q → bool) (values : list Q) : Z :=
  match values with [] => 0 | v :: values => (if f v then 1 else 0) + total f values end.
Record holds (values : list Q) (h : LatencyHistogram) : Prop := mkHolds {
  ho_length : zlen (buckets h) = 60001;
  ho_bucket (i : nat) : Z.of_nat i ≤ LAST →
    buckets h !! i = Some (total (λ v, bucket v =? Z.of_nat i) values);
  ho_count : h_count h = zlen values;
  ho_sum : h_sum h = sum values;
  ho_min : match minimum h with
           | Some m => m ∈ values ∧ Forall (λ v, m <= v)%Q values
           | None => values = []
           end;
  ho_max : maximum h ∈ 0%Q :: values ∧ Forall (λ v, v <= maximum h)%Q values;
}.

Lemma holds_new : holds [] histogram_new.
Proof.
  split; cbn [histogram_new buckets h_count h_sum minimum maximum]; [..|done|done|done|].
  - unfold zlen. rewrite length_replicate. lia.
  - intros i Hi. apply lookup_replicate_2. unfold LAST in Hi. lia.
  - split; [set_solver|done].
Qed.

Lemma bucket_range v : (0 <= v)%Q → 0 ≤ bucket v ≤ LAST.
Proof.
  intros Hv. unfold bucket. pose proof (Qceiling_resp_le _ _ Hv) as H. change (Qceiling 0) with 0 in H.
  unfold LAST. lia.
Qed.
Lemma bucket_mono v w : (v <= w)%Q → bucket v ≤ bucket w.
Proof. intros H%Qceiling_resp_le. unfold bucket. lia. Qed.

Lemma Qmin_elem a b l : a ∈ l → Qmin a b ∈ l ++ [b].
Proof. intros H. unfold Qmin, GenericMinMax.gmin. destruct (_ ?= _)%Q; set_solver. Qed.
Lemma Qmax_elem a b l : a ∈ l → Qmax a b ∈ l ++ [b].
Proof. intros H. unfold Qmax, GenericMinMax.gmax. destruct (_ ?= _)%Q; set_solver. Qed.

Lemma total_concat f a b : total f (a ++ b) = total f a + total f b.
Proof. induction a as [|v a IH]; cbn [app total]; lia. Qed.
Lemma total_perm f a b : a ≡ₚ b → total f a = total f b.
Proof. induction 1; cbn [total]; lia. Qed.
Lemma total_bounds f a : 0 ≤ total f a ≤ zlen a.
Proof. induction a as [|v a IH]; [done|]. cbn [total]. rewrite zlen_cons. destruct (f v); lia. Qed.
Lemma total_all f a : Forall (λ v, f v = true) a → total f a = zlen a.
Proof. induction 1 as [|v a Hv _ IH]; [done|]. cbn [total]. rewrite Hv, zlen_cons. lia. Qed.
Lemma total_none f a : Forall (λ v, f v = false) a → total f a = 0.
Proof. induction 1 as [|v a Hv _ IH]; [done|]. cbn [total]. rewrite Hv. lia. Qed.
Lemma total_split f g h a :
  (∀ v, v ∈ a → f v = g v || h v ∧ g v && h v = false) → total f a = total g a + total h a.
Proof.
  induction a as [|v a IH]; intros H; [done|]. cbn [total]. rewrite IH by (intros w Hw; apply H; set_solver).
  destruct (H v) as [-> Hgh]; [set_solver|]. destruct (g v), (h v); cbn in *; (lia || done).
Qed.

Lemma holds_observe values h v :
  holds values h → (0 <= v)%Q → ∃ h', observe (Fin v) h = Some h' ∧ holds (values ++ [v]) h'.
Proof.
  intros [Hl Hb Hc Hs Hmin [Hmax HM]] Hv. unfold observe. rewrite (proj2 (Qle_bool_iff _ _) Hv).
  eexists. split; [done|]. pose proof (bucket_range v Hv) as Hr. unfold LAST in Hr.
  split; cbn [buckets h_count h_sum minimum maximum].
  - unfold zlen. by rewrite length_alter.
  - intros i Hi. rewrite total_concat. cbn [total]. destruct (decide (i = Z.to_nat (bucket v))) as [->|Hne].
    + rewrite list_lookup_alter_eq, Hb by lia. cbn. rewrite Z2Nat.id, Z.eqb_refl by lia. f_equal; lia.
    + rewrite list_lookup_alter_ne, Hb by lia. rewrite (proj2 (Z.eqb_neq _ _)) by lia. f_equal; lia.
  - rewrite Hc. by zl.
  - rewrite Hs. unfold sum. by rewrite fold_left_app.
  - destruct (minimum h) as [m|].
    + destruct Hmin as [Hm Hall]. split; [by apply Qmin_elem|]. apply list.Forall_app. split.
      * eapply list.Forall_impl; [exact Hall|]. intros w Hw. eapply Qle_trans; [apply Q.le_min_l|exact Hw].
      * apply list.Forall_singleton, Q.le_min_r.
    + subst values. split; [set_solver|]. apply list.Forall_singleton, Qle_refl.
  - split; [apply (Qmax_elem _ _ (_ :: _)), Hmax|]. apply list.Forall_app. split.
    + eapply list.Forall_impl; [exact HM|]. intros w Hw. eapply Qle_trans; [exact Hw|apply Q.le_max_l].
    + apply list.Forall_singleton, Q.le_max_r.
Qed.

Fixpoint observe_all (values : list num) (h : LatencyHistogram) : option LatencyHistogram :=
  match values with
  | [] => Some h
  | v :: values => observe v h ≫= observe_all values
  end.

Lemma holds_all values : Forall (λ v, 0 <= v)%Q values →
  ∃ h, observe_all (map Fin values) histogram_new = Some h ∧ holds values h.
Proof.
  assert (∀ values before h, holds before h → Forall (λ v, 0 <= v)%Q values →
    ∃ h', observe_all (map Fin values) h = Some h' ∧ holds (before ++ values) h') as H.
  { clear values. induction values as [|v values IH]; intros before h Hh Hv; cbn [map observe_all].
    - exists h. by rewrite app_nil_r.
    - apply Forall_cons_1 in Hv as [Hv Hvs]. destruct (holds_observe before h v Hh Hv) as (h1 & -> & H1).
      destruct (IH _ _ H1 Hvs) as (h2 & E & H2). exists h2. by rewrite <- (app_assoc before [v] values) in H2. }
  intros Hv. by apply (H values [] histogram_new holds_new).
Qed.

(** The loop stops at the bucket that completes the rank. *)
Definition upto (i : Z) (values : list Q) : Z := total (λ v, bucket v <=? i) values.

Lemma upto_step i values : upto i values = upto (i - 1) values + total (λ v, bucket v =? i) values.
Proof. apply total_split. intros v _.
  destruct (Z.leb_spec (bucket v) i), (Z.leb_spec (bucket v) (i - 1)), (Z.eqb_spec (bucket v) i); cbn; (lia || done).
Qed.
Lemma upto_mono i j values : i ≤ j → upto i values ≤ upto j values.
Proof.
  intros Hij. unfold upto. induction values as [|v values IH]; [done|]. cbn [total].
  destruct (Z.leb_spec (bucket v) i), (Z.leb_spec (bucket v) j); lia.
Qed.

Lemma rank_loop_spec values rest from wanted max stop :
  (∀ i, Z.of_nat i < zlen rest → rest !! i = Some (total (λ v, bucket v =? from + Z.of_nat i) values)) →
  from ≤ stop < from + zlen rest → upto (stop - 1) values < wanted ≤ upto stop values →
  rank_loop rest from (upto (from - 1) values) wanted max =
    if stop =? LAST then max else Qmin (inject_Z stop) max.
Proof.
  revert from. induction rest as [|n rest IH]; intros from Hr Hs Hw; [change (@zlen Z []) with 0 in Hs; lia|].
  pose proof (Hr 0%nat ltac:(zl)) as H0. cbn in H0. rewrite Z.add_0_r in H0. injection H0 as ->.
  cbn [rank_loop]. rewrite <- upto_step. destruct (Z.eq_dec from stop) as [->|Hne].
  { by rewrite (proj2 (Z.leb_le _ _)) by lia. }
  pose proof (upto_mono from (stop - 1) values ltac:(lia)).
  rewrite (proj2 (Z.leb_gt _ _)) by lia. rewrite zlen_cons in *.
  rewrite <- (Z.add_simpl_r from 1) at 2. apply IH; [|lia|done].
  intros i Hi. rewrite <- Z.add_assoc, Z.add_1_l, <- Nat2Z.inj_succ. apply (Hr (S i)). lia.
Qed.

(** The bucket of the exact percentile is the one that completes its rank. *)
Lemma percentile_bucket values fraction :
  values ≠ [] → zlen values < UNIT → 0 < fraction ≤ UNIT →
  let x := percentile (sort_by by_value values) fraction in
  let wanted := target (zlen values) fraction in
  upto (bucket x - 1) values < wanted ≤ upto (bucket x) values.
Proof.
  intros Hne Hlen Hf x wanted.
  destruct (percentile_split values fraction Hne Hlen Hf) as (before & y & after & Es & Hb & Hy & Hbe & Haf).
  fold x in Hy. subst y. unfold upto.
  rewrite <- !(total_perm _ _ _ (sort_by_perm by_value values)), Es, !total_concat. cbn [total].
  rewrite (proj2 (Z.leb_gt (bucket x) _)), (proj2 (Z.leb_le (bucket x) _)) by lia. split.
  - rewrite (total_none _ after).
    + pose proof (total_bounds (λ v, bucket v <=? bucket x - 1) before). unfold wanted. lia.
    + eapply list.Forall_impl; [exact Haf|]. intros v Hv%bucket_mono. cbn. lia.
  - rewrite (total_all _ before).
    + pose proof (total_bounds (λ v, bucket v <=? bucket x) after). unfold wanted. lia.
    + eapply list.Forall_impl; [exact Hbe|]. intros v Hv%bucket_mono. cbn. lia.
Qed.

(** The ends of the sorted sample. *)
Lemma sorted_elem values v : v ∈ sort_by by_value values ↔ v ∈ values.
Proof. by rewrite sort_by_perm. Qed.
Lemma sorted_head values : values ≠ [] →
  ∃ v, list.head (sort_by by_value values) = Some v ∧ v ∈ values ∧ Forall (λ w, v <= w)%Q values.
Proof.
  intros Hne. pose proof (sort_by_sorted by_value values) as Hs. destruct (sort_by by_value values) as [|v l] eqn:E.
  { by apply (f_equal length) in E; rewrite (Permutation_length (sort_by_perm by_value values)) in E; destruct values. }
  apply StronglySorted_inv in Hs as [_ Hs]. rewrite list.Forall_forall in Hs.
  exists v. split; [done|]. split; [apply sorted_elem; rewrite E; set_solver|].
  apply list.Forall_forall. intros w Hw. apply sorted_elem in Hw. rewrite E in Hw.
  apply elem_of_cons in Hw as [->|Hw]; [apply Qle_refl|by apply below_le, Hs].
Qed.
Lemma sorted_last values : values ≠ [] →
  ∃ v, list.last (sort_by by_value values) = Some v ∧ v ∈ values ∧ Forall (λ w, w <= v)%Q values.
Proof.
  intros Hne. pose proof (sort_by_sorted by_value values) as Hs.
  destruct (list.last (sort_by by_value values)) as [v|] eqn:E.
  2:{ apply last_None in E. apply (f_equal length) in E.
      by rewrite (Permutation_length (sort_by_perm by_value values)) in E; destruct values. }
  exists v. split; [done|]. apply last_Some in E as [l E]. rewrite E in Hs. apply StronglySorted_app in Hs as [Hs _].
  split; [apply sorted_elem; rewrite E; set_solver|]. apply list.Forall_forall. intros w Hw.
  apply sorted_elem in Hw. rewrite E in Hw. apply elem_of_app in Hw as [Hw|Hw%list_elem_of_singleton].
  - apply below_le, Hs; [done|set_solver].
  - subst. apply Qle_refl.
Qed.

(** [p] stands for the exact [x]: never below it, less than a millisecond above it up to 59999 ms, and
    from there on the maximum. *)
Definition within (max x p : Q) : Prop :=
  (x <= p)%Q ∧ (p <= max)%Q ∧ ((x <= 59999)%Q → (p < x + 1)%Q) ∧ ((59999 < x)%Q → p = max).

Lemma rank_within values h fraction :
  values ≠ [] → zlen values < UNIT → 0 < fraction ≤ UNIT → Forall (λ v, 0 <= v)%Q values → holds values h →
  within (maximum h) (percentile (sort_by by_value values) fraction) (rank h fraction).
Proof.
  intros Hne Hlen Hf Hpos [Hl Hb Hc _ _ [_ HM]]. pose proof (percentile_bucket values fraction Hne Hlen Hf) as Hx.
  destruct (percentile_split values fraction Hne Hlen Hf) as (before & x & after & Es & _ & Ex & _).
  cbv zeta in Hx. rewrite Ex in *.
  assert (x ∈ values) as Hin by (apply sorted_elem; rewrite Es; set_solver).
  rewrite list.Forall_forall in HM, Hpos. pose proof (HM x Hin) as Hmax. pose proof (bucket_range x (Hpos x Hin)) as Hr.
  assert (rank h fraction = if bucket x =? LAST then maximum h else Qmin (inject_Z (bucket x)) (maximum h)) as ->.
  { unfold rank. rewrite Hc. replace 0 with (upto (0 - 1) values) at 2.
    - apply rank_loop_spec; [|rewrite Hl; unfold LAST in *; lia|done].
      intros i Hi. apply Hb. unfold LAST. lia.
    - apply total_none, list.Forall_forall. intros v Hv. pose proof (bucket_range v (Hpos v Hv)). lia. }
  unfold within. destruct (Z.eqb_spec (bucket x) LAST) as [E|E].
  - split_and!; [done|apply Qle_refl| |done]. intros H%Qceiling_resp_le. change (Qceiling 59999) with 59999 in H.
    unfold bucket, LAST in E. lia.
  - assert (bucket x = Qceiling x) as -> by (unfold bucket in *; lia). split_and!.
    + apply Q.min_glb; [apply Qle_ceiling|done].
    + apply Q.le_min_r.
    + intros _. eapply Qle_lt_trans; [apply Q.le_min_l|]. pose proof (Qceiling_lt x) as H.
      unfold Z.sub in H. rewrite inject_Z_plus in H. change (inject_Z (- (1))) with (-(1))%Q in H. lra.
    + intros H. destruct E. assert (59999 < Qceiling x).
      { rewrite Zlt_Qlt. eapply Qlt_le_trans; [exact H|apply Qle_ceiling]. }
      unfold bucket, LAST. lia.
Qed.

(** What the histogram reports beside the exact distribution. *)
Definition agrees (d e : Distribution) : Prop :=
  d_count d = d_count e ∧ meanMs d = meanMs e ∧ (minMs d == minMs e)%Q ∧ (maxMs d == maxMs e)%Q ∧
  within (maxMs d) (p50Ms e) (p50Ms d) ∧ within (maxMs d) (p95Ms e) (p95Ms d) ∧
  within (maxMs d) (p99Ms e) (p99Ms d).

Lemma holds_agrees values h :
  Forall (λ v, 0 <= v)%Q values → zlen values < UNIT → holds values h →
  agrees (histogram_distribution h) (distribution values).
Proof.
  intros Hpos Hlen Hh. unfold agrees, histogram_distribution. rewrite (ho_count _ _ Hh).
  destruct values as [|v0 l] eqn:Ev; [by split_and!|]. rewrite <- Ev in *.
  assert (values ≠ []) as Hne by congruence. assert (0 < zlen values) as Hl by (rewrite Ev; zl).
  rewrite (proj2 (Z.eqb_neq _ _)) by lia.
  assert (∀ A (x y : A), match values with [] => x | _ => y end = y) as Hm by (intros; by rewrite Ev).
  unfold distribution. rewrite !Hm. clear Hm.
  destruct (sorted_head values Hne) as (a & -> & Ha & HA). destruct (sorted_last values Hne) as (b & -> & Hb & HB).
  rewrite list.Forall_forall in HA, HB. cbn [d_count minMs p50Ms p95Ms p99Ms maxMs meanMs default].
  split_and!; try (by apply rank_within).
  - unfold zlen. by rewrite (Permutation_length (sort_by_perm by_value values)).
  - by rewrite (ho_sum _ _ Hh).
  - pose proof (ho_min _ _ Hh) as Hm. destruct (minimum h) as [m|]; [|done]. destruct Hm as [Hm HM].
    rewrite list.Forall_forall in HM. apply Qle_antisym; [by apply HM|by apply HA].
  - destruct (ho_max _ _ Hh) as [Hm HM]. rewrite list.Forall_forall in HM, Hpos.
    apply Qle_antisym; [|by apply HM]. apply elem_of_cons in Hm as [->|Hm]; [by apply Hpos|by apply HB].
Qed.

(** The histogram of bounded size reports what sorting every sample would: whatever was observed
    (fewer than [2^53] samples), count, mean and both ends are those of the exact distribution, and
    each percentile is at least the exact one, less than one millisecond too high when it is within
    the minute that the buckets cover, and the maximum when it is beyond. *)
Theorem histogram_agrees values :
  Forall (λ v, 0 <= v)%Q values → zlen values < UNIT →
  ∃ h, observe_all (map Fin values) histogram_new = Some h ∧
    let d := histogram_distribution h in
    let e := distribution values in
    d_count d = d_count e ∧ meanMs d = meanMs e ∧ (minMs d == minMs e)%Q ∧ (maxMs d == maxMs e)%Q ∧
    within (maxMs d) (p50Ms e) (p50Ms d) ∧ within (maxMs d) (p95Ms e) (p95Ms d) ∧
    within (maxMs d) (p99Ms e) (p99Ms d).
Proof.
  intros Hpos Hlen. destruct (holds_all values Hpos) as (h & Eh & Hh). exists h. split; [done|].
  by apply holds_agrees.
Qed.

Lemma histogram_agrees_witness :
  ∃ h, observe_all (map Fin [7#2; 1#1; 12#1; 70000#1])%Q histogram_new = Some h ∧
    let d := histogram_distribution h in
    let e := distribution [7#2; 1#1; 12#1; 70000#1]%Q in
    d_count d = d_count e ∧ meanMs d = meanMs e ∧ (minMs d == minMs e)%Q ∧ (maxMs d == maxMs e)%Q ∧
    within (maxMs d) (p50Ms e) (p50Ms d) ∧ within (maxMs d) (p95Ms e) (p95Ms d) ∧
    within (maxMs d) (p99Ms e) (p99Ms d).
Proof. apply histogram_agrees; [|reflexivity]. by repeat constructor. Defined.

(** What is refused leaves nothing behind: the value is not finite or it is negative. *)
Theorem observe_refuses v h : observe v h = None ↔ ∀ q, v = Fin q → (q < 0)%Q.
Proof.
  unfold observe. destruct v as [q| |]; [|by split..]. destruct (Qle_bool 0 q) eqn:E.
  - split; [done|]. intros H. apply Qle_bool_iff in E. specialize (H q eq_refl). lra.
  - split; [|done]. intros _ q' [= <-]. apply Qnot_le_lt. by intros H%Qle_bool_iff; congruence.
Qed.

(** ** The verdict *)

(** A run passes exactly when every limit holds; memory of the process counts only when it was
    measured before and after. *)
Theorem recovery_passes baseline recovered errors p99Ms t :
  recoveryFailures baseline recovered errors p99Ms t = [] ↔
  errors ≤ maxErrors t ∧ (p99Ms <= maxP99Ms t)%Q ∧
  activeTunnels recovered = 0 ∧ establishedTunnels recovered = 0 ∧
  goroutines recovered - goroutines baseline ≤ maxGoroutineGrowth t ∧
  heapAllocBytes recovered - heapAllocBytes baseline ≤ maxHeapGrowthBytes t ∧
  (∀ before after, rssBytes baseline = Some before → rssBytes recovered = Some after →
     after - before ≤ maxRSSGrowthBytes t).
Proof.
  unfold recoveryFailures. rewrite !app_nil, <- Qle_bool_iff.
  assert (∀ (b : bool) (x : Failure), (if b then [x] else []) = [] ↔ b = false) as Hif by (by intros []).
  assert (∀ (b : bool) (x : Failure), (if b then [] else [x]) = [] ↔ b = true) as Hif' by (by intros []).
  cbv zeta. rewrite !Hif, Hif', orb_false_iff, !negb_false_iff, !Z.ltb_ge, !Z.eqb_eq.
  assert ((match rssBytes baseline, rssBytes recovered with
           | Some before, Some after =>
               if maxRSSGrowthBytes t <? after - before
               then [RSSGrowth (after - before) (maxRSSGrowthBytes t)] else []
           | _, _ => []
           end) = [] ↔
          ∀ before after, rssBytes baseline = Some before → rssBytes recovered = Some after →
            after - before ≤ maxRSSGrowthBytes t) as ->; [|tauto].
  destruct (rssBytes baseline) as [x|], (rssBytes recovered) as [y|]; [|by split..].
  rewrite Hif, Z.ltb_ge. split; [by intros H ? ? [= <-] [= <-]|]. intros H. by apply H.
Qed.

(** ** Trends are least squares *)

(** The squared error of the line [a + b * t]. *)
Definition error_of (a b : Q) (points : list (Q * Q)) : Q :=
  sum (map (λ p, square (snd p - (a + b * fst p)))%Q points).

Lemma sum_acc values acc : (fold_left Qplus values acc == acc + sum values)%Q.
Proof.
  unfold sum. revert acc. induction values as [|v values IH]; intros acc; cbn [fold_left]; [ring|].
  rewrite (IH (acc + v)%Q), (IH (0 + v)%Q). ring.
Qed.
Lemma sum_cons v values : (sum (v :: values) == v + sum values)%Q.
Proof. unfold sum at 1. cbn [fold_left]. rewrite sum_acc. ring. Qed.
Lemma fold_sum {A} (f : A → Q) (l : list A) acc :
  fold_left (λ s p, s + f p)%Q l acc = fold_left Qplus (map f l) acc.
Proof. revert acc. induction l as [|p l IH]; intros acc; [done|]. apply IH. Qed.

(** The error in terms of the sums of the centred points. *)
Lemma error_expand x y a b points :
  (error_of a b points ==
   sum (map (λ p, square (snd p - y)) points)
   - (2 * b) * sum (map (λ p, (fst p - x) * (snd p - y)) points)
   + square b * sum (map (λ p, square (fst p - x)) points)
   + inject_Z (zlen points) * square (y - a - b * x)
   + 2 * (y - a - b * x) * (sum (map snd points) - inject_Z (zlen points) * y
       - b * (sum (map fst points) - inject_Z (zlen points) * x)))%Q.
Proof.
  unfold error_of. induction points as [|[t v] points IH].
  { cbn [map]. change (sum []) with 0%Q. change (inject_Z (zlen [])) with 0%Q. unfold square. ring. }
  cbn [map fst snd]. rewrite !sum_cons, IH, zlen_cons, inject_Z_plus. unfold square. ring.
Qed.

Lemma mean_sum values : values ≠ [] → (sum values == inject_Z (zlen values) * mean values)%Q.
Proof.
  intros Hne. unfold mean. field. intros H. destruct values as [|v l]; [done|].
  rewrite zlen_cons in H. pose proof (zlen_nonneg l). apply (proj1 (inject_Z_injective _ 0)) in H. lia.
Qed.

Lemma mean_const {A} (f : A → Q) c l : l ≠ [] → Forall (λ p, f p == c)%Q l → (mean (map f l) == c)%Q.
Proof.
  intros Hne H. assert (sum (map f l) == inject_Z (zlen l) * c)%Q as Hs.
  { clear Hne. induction H as [|p l Hp _ IH]; [by rewrite Qmult_0_l|]. cbn [map].
    rewrite sum_cons, IH, Hp, zlen_cons, inject_Z_plus. ring. }
  unfold mean. replace (zlen (map f l)) with (zlen l) by (unfold zlen; by rewrite length_map).
  rewrite Hs. field. intros H0. apply (proj1 (inject_Z_injective _ 0)) in H0. destruct l; [done|zl].
Qed.
Lemma square_nonneg x : (0 <= square x)%Q.
Proof. unfold square. nra. Qed.
Lemma sum_squares {A} (f : A → Q) l :
  (0 <= sum (map (λ p, square (f p)) l))%Q ∧
  ((sum (map (λ p, square (f p)) l) == 0)%Q ↔ Forall (λ p, f p == 0)%Q l).
Proof.
  induction l as [|p l [IH0 IH]]; [by split; [|split]|]. cbn [map]. rewrite sum_cons, list.Forall_cons, <- IH.
  pose proof (square_nonneg (f p)) as Hp. split; [lra|]. split.
  - intros H. split; [|lra]. unfold square in *. destruct (Qmult_integral (f p) (f p)); [lra|done..].
  - intros [H1 H2]. unfold square. rewrite H1, H2. ring.
Qed.

(** The line with the smallest error goes through the means. *)
Lemma least_squares x y b points :
  points ≠ [] → x = mean (map fst points) → y = mean (map snd points) →
  (b * sum (map (λ p, square (fst p - x)) points) ==
   sum (map (λ p, (fst p - x) * (snd p - y)) points))%Q →
  ∀ a' b', (error_of (y - b * x) b points <= error_of a' b' points)%Q.
Proof.
  intros Hne Hx Hy Hb a' b'. rewrite (error_expand x y (y - b * x)), (error_expand x y a').
  assert (sum (map fst points) == inject_Z (zlen points) * x)%Q as Ex.
  { rewrite mean_sum, <- Hx by (by destruct points). unfold zlen. by rewrite length_map. }
  assert (sum (map snd points) == inject_Z (zlen points) * y)%Q as Ey.
  { rewrite mean_sum, <- Hy by (by destruct points). unfold zlen. by rewrite length_map. }
  rewrite Ex, Ey, <- Hb. destruct (sum_squares (λ p, fst p - x)%Q points) as [HV _].
  set (V := sum (map (λ p, square (fst p - x)) points)) in *.
  assert (0 <= inject_Z (zlen points))%Q as Hn by (change 0%Q with (inject_Z 0); rewrite <- Zle_Qle; zl).
  set (n := inject_Z (zlen points)) in *. generalize (sum (map (λ p, square (snd p - y))%Q points)). intros S.
  assert (0 <= V * square (b' - b))%Q as H1 by (apply Qmult_le_0_compat; [done|apply square_nonneg]).
  assert (0 <= n * square (y - a' - b' * x))%Q as H2 by (apply Qmult_le_0_compat; [done|apply square_nonneg]).
  unfold square in *. lra.
Qed.

Definition sample (p : Q * Q) : num * num := (Fin (fst p), Fin (snd p)).
Lemma finite_points samples points : mapM finite_point samples = Some points ↔ samples = map sample points.
Proof.
  rewrite mapM_Some. split.
  - induction 1 as [|[t v] [t' v'] l k H _ IH]; [done|]. cbn [map]. rewrite IH. f_equal.
    destruct t, v; cbn in H; by inversion H.
  - intros ->. induction points as [|[t v] l IH]; [done|]. by constructor.
Qed.

(** A trend is fitted by least squares: with [slopePerHour] per hour and through the means, the
    squared error over the samples is smaller than for any other line. *)
Theorem trend_least_squares points t :
  resourceTrend (map sample points) = Some t →
  let slope := (slopePerHour t / 3600)%Q in
  ∀ a b, (error_of (mean (map snd points) - slope * mean (map fst points)) slope points <= error_of a b points)%Q.
Proof.
  unfold resourceTrend. destruct (_ <? 2) eqn:Hlen; [done|].
  rewrite (proj2 (finite_points _ points) eq_refl). cbn [mbind option_bind].
  set (x := mean (map fst points)). set (y := mean (map snd points)).
  rewrite (fold_sum (λ p, square (fst p - x))%Q), (fold_sum (λ p, (fst p - x) * (snd p - y))%Q).
  destruct (Qeq_bool _ 0) eqn:HV; [done|]. intros [= <-]. cbn [slopePerHour].
  apply least_squares; [by intros ->|done..|].
  apply Qeq_bool_neq in HV. unfold sum. field. exact HV.
Qed.

Lemma trend_least_squares_witness :
  (∃ t, resourceTrend (map sample [(0, 1); (1, 3); (2, 4)]%Q) = Some t) ∧
  ∀ t, resourceTrend (map sample [(0, 1); (1, 3); (2, 4)]%Q) = Some t →
  (error_of (mean [1; 3; 4] - slopePerHour t / 3600 * mean [0; 1; 2]) (slopePerHour t / 3600)
     [(0, 1); (1, 3); (2, 4)] <= error_of 1 2 [(0, 1); (1, 3); (2, 4)])%Q.
Proof. split; [by eexists|]. intros t H. exact (trend_least_squares _ t H 1 2). Defined.

(** There is none exactly for fewer than two samples, a sample that is not finite, or samples that
    were all taken at one time. *)
Theorem trend_refuses samples :
  resourceTrend samples = None ↔
  zlen samples < 2 ∨ (∀ points, samples ≠ map sample points) ∨
  ∃ points time, samples = map sample points ∧ Forall (λ p, fst p == time)%Q points.
Proof.
  unfold resourceTrend. destruct (Z.ltb_spec (zlen samples) 2) as [Hl|Hl]; [split; auto|].
  destruct (mapM finite_point samples) as [points|] eqn:E; cbn [mbind option_bind].
  2:{ split; [|done]. intros _. right. left. intros points H%finite_points. congruence. }
  apply finite_points in E as ->. set (x := mean (map fst points)). rewrite (fold_sum (λ p, square (fst p - x))%Q).
  destruct (sum_squares (λ p, fst p - x)%Q points) as [_ HV]. fold (sum (map (λ p, square (fst p - x)) points)).
  destruct (Qeq_bool _ 0) eqn:Hb.
  - split; [|done]. intros _. right. right. exists points, x. split; [done|].
    apply Qeq_bool_iff, HV in Hb. eapply list.Forall_impl; [exact Hb|]. intros p H. cbn in H |- *. lra.
  - split; [done|]. apply Qeq_bool_neq in Hb. intros [?|[H|(points' & time & E & H)]]; [lia|by destruct (H points)|].
    apply finite_points in E. rewrite (proj2 (finite_points _ points) eq_refl) in E. injection E as <-.
    exfalso. apply Hb, HV.
    assert (x == time)%Q as Ex by (apply mean_const; [by intros ->|done]). 
    eapply list.Forall_impl; [exact H|]. intros p Hp. cbn in *. rewrite Hp, Ex. ring.
Qed.
