(* ===== verification/JsText.v ===== *)
(** * JsText: strings and numerals of JavaScript

    The methods of [String.prototype] and the conversion [Number(text)] that the scripts use.  A
    number is a rational that a double can hold, an infinity or NaN; [-0] is [0]. *)
From Stdlib Require Import QArith Qcanon.
From S2P Require Import Prelude Regex Decimal.
Local Open Scope Z_scope.

(** ** Parts of strings *)

Definition starts_with (p s : jsstring) : bool := bool_decide (take (length p) s = p).
Definition ends_with (p s : jsstring) : bool := bool_decide (drop (length s - length p) s = p).
Definition includes (c : Z) (s : jsstring) : bool := bool_decide (c ∈ s).

(** [s.split(c)] for one code unit. *)
Fixpoint split_on (c : Z) (s : jsstring) : list jsstring :=
  match s with
  | [] => [[]]
  | u :: s' =>
      match split_on c s' with
      | part :: parts => if u =? c then [] :: part :: parts else (u :: part) :: parts
      | [] => []
      end
  end.

(** [s.split(/\r?\n/)]. *)
Definition strip_cr (s : jsstring) : jsstring :=
  match list.last s with
  | Some u => if u =? 13 then take (length s - 1) s else s
  | None => s
  end.
Fixpoint but_last (parts : list jsstring) : list jsstring :=
  match parts with
  | [] => []
  | [part] => [part]
  | part :: parts => strip_cr part :: but_last parts
  end.
Definition split_lines (s : jsstring) : list jsstring := but_last (split_on 10 s).

(** [s.lastIndexOf(c)]: the parts before and after the last [c]. *)
Fixpoint split_last (c : Z) (s : jsstring) : option (jsstring * jsstring) :=
  match s with
  | [] => None
  | u :: s' =>
      match split_last c s' with
      | Some (before, after) => Some (u :: before, after)
      | None => if u =? c then Some ([], s') else None
      end
  end.

Definition trim (s : jsstring) : jsstring := rev (trim_start (rev (trim_start s))).

(** A pattern without [^] is tried at every position. *)
Fixpoint search (r : re) (s : jsstring) : option (jsstring * list jsstring) :=
  match exec r s with
  | Some m => Some m
  | None => match s with [] => None | _ :: s' => search r s' end
  end.
Definition finds (r : re) (s : jsstring) : bool := bool_decide (is_Some (search r s)).

(** ** [Number(text)] *)

Inductive double := DNaN | DInf (negative : bool) | DFin (q : Q).

(** [n / d] rounded to an integer, ties to even. *)
Definition half_even (n d : Z) : Z :=
  let q := n / d in
  let r := 2 * (n mod d) in
  if (d <? r) || ((r =? d) && Z.odd q) then q + 1 else q.

(** A positive rational rounded to a double: 53 significant bits, no finer than [2 ^ -1074]. *)
Definition round_double (n d : Z) : double :=
  let e := Z.log2 n - Z.log2 d in
  let below := if 0 <=? e then n <? d * 2 ^ e else n * 2 ^ (- e) <? d in
  let k := Z.max (-1074) ((if below then e - 1 else e) - 52) in
  let m := if 0 <=? k then half_even n (d * 2 ^ k) else half_even (n * 2 ^ (- k)) d in
  let q := if 0 <=? k then inject_Z (m * 2 ^ k) else (m # Z.to_pos (2 ^ (- k)))%Q in
  if Qle_bool (inject_Z (2 ^ 1024)) q then DInf false else DFin (Qred q).

Definition negate (v : double) : double :=
  match v with DNaN => DNaN | DInf b => DInf (negb b) | DFin q => DFin (- q)%Q end.

(** The double nearest to [mantissa * 10 ^ exponent]. *)
Definition decimal_value (mantissa exponent : Z) : double :=
  if mantissa =? 0 then DFin 0%Q
  else if 0 <=? exponent then round_double (mantissa * 10 ^ exponent) 1
  else round_double mantissa (10 ^ (- exponent)).

(** Digits with at most one point, then an exponent: the groups are the integer part, the
    fraction and the exponent with its sign. *)
Definition empty : re := Many (λ _, false) 0 (Some 0%nat).
Definition optional (r : re) : re := Alt r empty.
Definition EXPONENT : re :=
  Alt (Seq (Class (one_of "eE")) (Seq (Group (Seq (optional (Class (one_of "+-"))) (Many digit 1 None))) End_))
      (Seq (Group empty) End_).
Definition DECIMAL : re :=
  Alt (Seq (Group (Many digit 1 None)) (Seq (Alt (Seq (Class (chr 0x2E)) (Group (Many digit 0 None))) (Group empty)) EXPONENT))
      (Seq (Group empty) (Seq (Class (chr 0x2E)) (Seq (Group (Many digit 1 None)) EXPONENT))).

Definition signed_value (s : jsstring) : Z :=
  match s with
  | u :: s' => if u =? 0x2D then - digits_value s' else if u =? 0x2B then digits_value s' else digits_value s
  | [] => 0
  end.

Definition unsigned_number (s : jsstring) : double :=
  if bool_decide (s = js "Infinity") then DInf false
  else match exec DECIMAL s with
       | Some (_, [whole; fraction; exponent]) =>
           decimal_value (digits_value (whole ++ fraction)) (signed_value exponent - zlen fraction)
       | _ => DNaN
       end.

(** [0x], [0o] and [0b] literals. *)
Definition digit_value (u : Z) : Z :=
  if digit u then u - 0x30 else if lower u then u - 0x61 + 10 else if upper u then u - 0x41 + 10 else 99.
Definition radix_value (radix : Z) (s : jsstring) : double :=
  if bool_decide (s = []) || negb (forallb (λ u, digit_value u <? radix) s) then DNaN
  else decimal_value (fold_left (λ acc u, acc * radix + digit_value u) s 0) 0.

Definition Number (text : jsstring) : double :=
  match trim text with
  | [] => DFin 0%Q
  | 0x30 :: u :: s =>
      if one_of "xX" u then radix_value 16 s
      else if one_of "oO" u then radix_value 8 s
      else if one_of "bB" u then radix_value 2 s
      else unsigned_number (0x30 :: u :: s)
  | u :: s =>
      if u =? 0x2D then negate (unsigned_number s)
      else if u =? 0x2B then unsigned_number s
      else unsigned_number (u :: s)
  end.

Example number_examples :
  Number (js " 42 ") = DFin (42 # 1) ∧ Number (js "1e3") = DFin (1000 # 1) ∧ Number (js "0x1F") = DFin (31 # 1) ∧
  Number (js "") = DFin 0 ∧ Number (js "1_0") = DNaN ∧ Number (js "-.5") = negate (Number (js "0.5")) ∧
  Number (js "9007199254740993") = DFin (9007199254740992 # 1) ∧ Number (js "1e400") = DInf false ∧
  Number (js "12px") = DNaN ∧ Number (js ".") = DNaN ∧ Number (js "5.") = DFin (5 # 1) ∧ Number (js "1e-400") = DFin 0.
Proof. vm_compute. repeat split. Qed.

(** ** Lemmas on strings *)

Lemma split_on_ne c s : split_on c s ≠ [].
Proof. induction s as [|u s IH]; [done|]. cbn. destruct (split_on c s); [done|]. by destruct (u =? c). Qed.
Lemma split_on_none c s : c ∉ s → split_on c s = [s].
Proof.
  induction s as [|u s IH]; [done|]. intros H. cbn. rewrite IH by set_solver.
  destruct (Z.eqb_spec u c); [set_solver|done].
Qed.
Lemma split_on_app c s t : c ∉ s → split_on c (s ++ c :: t) = s :: split_on c t.
Proof.
  intros H. induction s as [|u s IH]; cbn.
  - destruct (split_on c t) eqn:E; [by apply split_on_ne in E|]. by rewrite Z.eqb_refl.
  - rewrite IH by set_solver. destruct (Z.eqb_spec u c); [set_solver|done].
Qed.
Lemma split_last_app c s t : c ∉ t → split_last c (s ++ c :: t) = Some (s, t).
Proof.
  intros Ht. assert (split_last c t = None) as Hn.
  { clear s. induction t as [|u t IH]; [done|]. cbn. rewrite IH by set_solver.
    destruct (Z.eqb_spec u c); [set_solver|done]. }
  induction s as [|u s IH]; cbn; [by rewrite Hn, Z.eqb_refl|]. by rewrite IH.
Qed.

Lemma strip_cr_id s : 13 ∉ s → strip_cr s = s.
Proof.
  intros H. unfold strip_cr. destruct (list.last s) as [u|] eqn:E; [|done].
  apply last_Some in E as [s' ->]. destruct (Z.eqb_spec u 13); [set_solver|done].
Qed.
Lemma strip_cr_snoc s : strip_cr (s ++ [13]) = s.
Proof.
  unfold strip_cr. rewrite last_snoc, length_app. cbn. replace (length s + 1 - 1)%nat with (length s) by lia.
  apply take_app_length.
Qed.

Lemma trim_start_id s : (∀ u s', s = u :: s' → is_space u = false) → trim_start s = s.
Proof. destruct s as [|u s]; [done|]. intros H. cbn. by rewrite (H u s). Qed.
Lemma trim_id s : Forall (λ u, is_space u = false) s → trim s = s.
Proof.
  intros H. assert (trim_start s = s) as E.
  { apply trim_start_id. intros u s' ->. by apply Forall_cons_1 in H as [? _]. }
  unfold trim. rewrite E, trim_start_id, rev_involutive; [done|].
  intros u s' Hr. rewrite list.Forall_forall in H. apply H.
  apply (f_equal (@rev Z)) in Hr. rewrite rev_involutive in Hr. rewrite Hr. cbn. set_solver.
Qed.

(** ** [Number] reads back what [String] prints *)

Lemma digit_range u : digit u = true ↔ 0x30 ≤ u ≤ 0x39.
Proof. unfold digit, between. rewrite andb_true_iff, !Z.leb_le. done. Qed.
Lemma digit_not_space u : digit u = true → is_space u = false.
Proof. intros H%digit_range. unfold is_space. repeat (apply orb_false_iff; split); lia. Qed.

Lemma round_double_integer n : 0 < n < 2 ^ 53 → round_double n 1 = DFin (inject_Z n).
Proof.
  intros Hn. unfold round_double. change (Z.log2 1) with 0. rewrite Z.sub_0_r.
  pose proof (Z.log2_nonneg n) as H0. destruct (Z.log2_spec n) as [Hlo Hhi]; [lia|].
  assert (Z.log2 n < 53) as Hl by (apply Z.log2_lt_pow2; lia).
  rewrite (proj2 (Z.leb_le 0 (Z.log2 n)) H0), Z.mul_1_l, (proj2 (Z.ltb_ge _ _) Hlo), Z.max_r by lia.
  set (k := Z.log2 n - 52). assert (∀ m, half_even m 1 = m) as Hh.
  { intros m. unfold half_even. by rewrite Z.mod_1_r, Z.div_1_r. }
  assert (inject_Z (2 ^ 1024) > inject_Z n)%Q as Hbig.
  { rewrite <- Zlt_Qlt. assert (2 ^ 53 ≤ 2 ^ 1024) by (apply Z.pow_le_mono_r; lia). lia. }
  destruct (Z.leb_spec 0 k) as [Hk|Hk].
  - assert (k = 0) as -> by lia. rewrite Z.mul_1_l, Z.pow_0_r, Hh, Z.mul_1_r.
    destruct (Qle_bool _ _) eqn:E; [apply Qle_bool_iff in E; by apply Qle_not_lt in E|].
    by rewrite Qred_identity by apply Z.gcd_1_r.
  - rewrite Hh. set (p := 2 ^ (- k)). assert (0 < p) as Hp by (apply Z.pow_pos_nonneg; lia).
    assert ((n * p # Z.to_pos p) == inject_Z n)%Q as Heq.
    { unfold Qeq, inject_Z. cbn. rewrite Z2Pos.id by done. lia. }
    destruct (Qle_bool _ _) eqn:E.
    { apply Qle_bool_iff in E. rewrite Heq in E. by apply Qle_not_lt in E. }
    by rewrite (Qred_complete _ _ Heq), Qred_identity by apply Z.gcd_1_r.
Qed.

(** The only way to read a string of digits as a decimal numeral. *)
Lemma DECIMAL_digits s : all_digits s → s ≠ [] → exec DECIMAL s = Some (s, [s; []; []]).
Proof.
  intros Hd Hne. assert (∀ c, digit c = false → c ∉ s) as Hnot.
  { intros c Hc Hin. unfold all_digits in Hd. rewrite list.Forall_forall in Hd. specialize (Hd c Hin). congruence. }
  assert (is_Some (exec DECIMAL s)) as [[m g] He].
  { pose proof (proj2 (test_spec DECIMAL s)) as H. unfold test in H. rewrite bool_decide_eq_true in H. apply H.
    exists s, [], [s; []; []]. split; [by rewrite app_nil_r|]. unfold DECIMAL, EXPONENT, empty. cbn [parses]. left.
    exists s, [], [s], [[]; []]. rewrite app_nil_r. split_and!; [done..| |].
    - exists []. split_and!; [done|done| |done|done]. destruct s; [done|cbn; lia].
    - exists [], [], [[]], [[]]. split_and!; [done..| |]; right.
      + exists []. repeat split; [by constructor|cbn; lia|cbn; lia].
      + exists [], [], [[]], []. split_and!; [done|done| |done..]. exists []. repeat split; [by constructor|cbn; lia|cbn; lia]. }
  rewrite He. destruct (exec_sound _ _ _ _ He) as (rest & Es & Hp).
  assert (0x2E ∉ s) as Hdot by by apply Hnot. assert (0x65 ∉ s) as He1 by by apply Hnot.
  assert (0x45 ∉ s) as He2 by by apply Hnot. subst s. unfold DECIMAL, EXPONENT, empty in Hp. cbn [parses] in Hp.
  destruct Hp as [(a1 & a2 & g1 & g2 & -> & -> & (g' & -> & _ & _ & _ & ->) & H)|H].
  - destruct H as (b1 & b2 & h1 & h2 & -> & -> & Hb & H).
    assert (b1 = [] ∧ h1 = [[]]) as [-> ->].
    { destruct Hb as [(x & y & ? & ? & -> & _ & (c & -> & Hc & _) & _)|(h' & -> & _ & _ & Hl & ->)].
      - unfold chr in Hc. apply Z.eqb_eq in Hc as ->. set_solver.
      - by assert (b1 = []) as -> by (apply length_zero_iff_nil; lia). }
    destruct H as [(x & y & ? & ? & -> & _ & (c & -> & Hc & _) & _)|H].
    { exfalso. unfold one_of in Hc. apply bool_decide_eq_true in Hc. change (js "eE") with [0x65; 0x45] in Hc. set_solver. }
    destruct H as (x & y & ? & ? & -> & -> & (h' & -> & _ & _ & Hl & ->) & (-> & -> & ->)).
    assert (x = []) as -> by (apply length_zero_iff_nil; lia). by rewrite !app_nil_r.
  - exfalso. destruct H as (a1 & a2 & ? & ? & -> & _ & _ & (b1 & b2 & ? & ? & -> & _ & (c & -> & Hc & _) & _)).
    unfold chr in Hc. apply Z.eqb_eq in Hc as ->. set_solver.
Qed.

Lemma unsigned_number_digits s :
  all_digits s → s ≠ [] → digits_value s < 2 ^ 53 → unsigned_number s = DFin (inject_Z (digits_value s)).
Proof.
  intros Hd Hne Hv. unfold unsigned_number. rewrite bool_decide_eq_false_2.
  2:{ intros ->. apply Forall_cons_1 in Hd as [Hd _]. discriminate. }
  rewrite DECIMAL_digits, app_nil_r by done. cbn [signed_value]. change (zlen (@nil Z)) with 0. rewrite Z.sub_0_r.
  unfold decimal_value. pose proof (digits_nonneg s Hd). destruct (Z.eqb_spec (digits_value s) 0) as [->|]; [done|].
  cbn [Z.leb Z.compare]. rewrite Z.pow_0_r, Z.mul_1_r. apply round_double_integer. lia.
Qed.

Lemma Number_digits s : canonical s → digits_value s < 2 ^ 53 → Number s = DFin (inject_Z (digits_value s)).
Proof.
  intros Hc Hv. destruct (canonical_digits s Hc) as [Hd Hne]. unfold Number. rewrite trim_id.
  2:{ eapply list.Forall_impl; [exact Hd|]. apply digit_not_space. }
  destruct Hc as [->|(u & s' & -> & Hu & Hs')]; [vm_compute; reflexivity|].
  unfold between in Hu. assert (0x31 ≤ u ≤ 0x39) as Hr by lia.
  destruct (Z.eqb_spec u 0x2D); [lia|]. destruct (Z.eqb_spec u 0x2B); [lia|].
  rewrite unsigned_number_digits by done. destruct s' as [|v s'']; destruct u as [|p|p]; try done;
    do 7 (destruct p; try done); lia.
Qed.
