(* ===== verification/Metrics.v ===== *)
(** * Metrics: what the benchmarks parse

    [parsePrometheus] and [envInteger] of [scripts/load-benchmark-lib.ts]: the bridge's metrics
    page, and numbers in environment variables.  A [Map] is its entries in insertion order. *)
From Stdlib Require Import QArith.
From stdpp Require Import pretty.
From S2P Require Import Prelude Regex Decimal JsText.
Local Open Scope Z_scope.

(** ** The metrics page *)

Definition parse_line (values : list (jsstring * Q)) (line : jsstring) : list (jsstring * Q) :=
  if bool_decide (line = []) || starts_with (js "#") line then values
  else
    match split_last 0x20 line with
    | None | Some ([], _) => values
    | Some (name, text) =>
        match Number text with
        | DFin value => put values name value
        | _ => values
        end
    end.
Definition parsePrometheus (text : jsstring) : list (jsstring * Q) := fold_left parse_line (split_lines text) [].

(** ** Environment variables *)

Inductive EnvError := NotInteger (name : jsstring) (minimum : Z).

Definition envInteger (value : option jsstring) (fallback : Z) (name : jsstring) (minimum : Z) : result EnvError Z :=
  match value with
  | None | Some [] => Ok fallback
  | Some text =>
      match Number text with
      | DFin parsed =>
          let n := Qnum (Qred parsed) in
          if negb (Pos.eqb (Qden (Qred parsed)) 1) || (MAX_SAFE_INTEGER <? Z.abs n) || (n <? minimum)
          then Throw (NotInteger name minimum) else Ok n
      | _ => Throw (NotInteger name minimum)
      end
  end.

(** ** Reading back *)

(** A page as a server prints it: comments, blank lines and samples of natural numbers. *)
Inductive Line := Comment (text : jsstring) | Blank | Sample (name : jsstring) (value : N).
Definition print_line (l : Line) : jsstring :=
  match l with
  | Comment text => js "#" ++ text
  | Blank => []
  | Sample name value => name ++ 0x20 :: js (pretty value)
  end.
(** Lines end with a line feed, or with a carriage return and a line feed ([true]). *)
Fixpoint print_page (page : list (Line * bool)) : jsstring :=
  match page with
  | [] => []
  | (l, cr) :: page => print_line l ++ (if cr : bool then [13; 10] else [10]) ++ print_page page
  end.
Definition samples (page : list (Line * bool)) : list (jsstring * Q) :=
  omap (λ l, match fst l with Sample name value => Some (name, inject_Z (Z.of_N value)) | _ => None end) page.

Definition plain_text (s : jsstring) : Prop := 10 ∉ s ∧ 13 ∉ s.
Definition good_line (l : Line) : Prop :=
  match l with
  | Comment text => plain_text text
  | Blank => True
  | Sample name value => plain_text name ∧ name ≠ [] ∧ starts_with (js "#") name = false ∧ (value < 2 ^ 53)%N
  end.

Lemma pretty_all_digits (n : N) : all_digits (js (pretty n)) ∧ js (pretty n) ≠ [].
Proof. destruct (pretty_canonical n) as [Hc _]. by apply canonical_digits. Qed.
Lemma not_in_digits (n : N) c : digit c = false → c ∉ js (pretty n).
Proof.
  intros Hc Hin. destruct (pretty_all_digits n) as [Hd _]. unfold all_digits in Hd.
  rewrite list.Forall_forall in Hd. specialize (Hd c Hin). congruence.
Qed.
Lemma Number_pretty (n : N) : (n < 2 ^ 53)%N → Number (js (pretty n)) = DFin (inject_Z (Z.of_N n)).
Proof.
  intros Hn. destruct (pretty_canonical n) as [Hc Hv]. rewrite Number_digits; [by rewrite Hv|done|]. rewrite Hv. lia.
Qed.

Lemma plain_line l : good_line l → plain_text (print_line l).
Proof.
  unfold plain_text. destruct l as [text| |name value]; cbn [good_line print_line].
  - intros [??]. change (js "#") with [0x23]. set_solver.
  - intros _. split; set_solver.
  - intros ([??] & _). pose proof (not_in_digits value 10 eq_refl). pose proof (not_in_digits value 13 eq_refl). set_solver.
Qed.

Lemma starts_with_app p s t : s ≠ [] → length p = 1%nat → starts_with p (s ++ t) = starts_with p s.
Proof. intros Hs Hp. unfold starts_with. rewrite Hp. by destruct s. Qed.

Lemma parse_printed values l :
  good_line l →
  parse_line values (print_line l) =
  match l with Sample name value => put values name (inject_Z (Z.of_N value)) | _ => values end.
Proof.
  destruct l as [text| |name value]; cbn [good_line print_line]; [intros _|done|intros (Hn & Hne & Hh & Hv)]; unfold parse_line.
  - by rewrite orb_true_r.
  - rewrite bool_decide_eq_false_2 by (by destruct name). rewrite starts_with_app by done. rewrite Hh. cbn [orb].
    rewrite split_last_app by (by apply not_in_digits). rewrite Number_pretty by done. by destruct name.
Qed.

Lemma page_lines page :
  Forall (λ l, good_line (fst l)) page → split_lines (print_page page) = map (λ l, print_line (fst l)) page ++ [[]].
Proof.
  unfold split_lines. induction 1 as [|[l cr] page Hl _ IH]; [done|]. cbn [print_page map fst] in *.
  destruct (plain_line l Hl) as [H10 H13].
  assert (∀ s t : jsstring, 10 ∉ s → but_last (split_on 10 (s ++ 10 :: t)) = strip_cr s :: but_last (split_on 10 t)) as Hsplit.
  { intros s t Hs. rewrite split_on_app by done. cbn [but_last].
    destruct (split_on 10 t) eqn:E; [by apply split_on_ne in E|done]. }
  destruct cr; cbn [app].
  - replace (print_line l ++ 13 :: 10 :: print_page page) with ((print_line l ++ [13]) ++ 10 :: print_page page)
      by (by rewrite <- app_assoc).
    rewrite Hsplit by set_solver. by rewrite strip_cr_snoc, IH.
  - rewrite Hsplit by done. by rewrite strip_cr_id, IH.
Qed.

Lemma put_new {A} (values : list (jsstring * A)) name value : name ∉ map fst values → put values name value = values ++ [(name, value)].
Proof.
  induction values as [|[n v] values IH]; cbn; [done|]. intros H. destruct (decide (n = name)); [set_solver|].
  rewrite IH by set_solver. done.
Qed.

(** Reading a metrics page back gives its samples.  For every page of comments, blank lines and
    samples of natural numbers below [2^53] with distinct names, whichever of the two line endings
    each line has, [parsePrometheus] returns exactly the samples, in order. *)
Theorem metrics_roundtrip page :
  Forall (λ l, good_line (fst l)) page → NoDup (map fst (samples page)) →
  parsePrometheus (print_page page) = samples page.
Proof.
  intros Hg Hnd. unfold parsePrometheus. rewrite page_lines by done. rewrite fold_left_app. cbn [fold_left].
  assert (∀ values, NoDup (map fst (values ++ samples page)) →
    fold_left parse_line (map (λ l, print_line (fst l)) page) values = values ++ samples page) as H.
  { clear Hnd. induction Hg as [|[l cr] page Hl _ IH]; intros values Hnd; cbn [map fold_left fst samples omap list_omap] in *;
      [by rewrite app_nil_r|].
    rewrite parse_printed by done. destruct l as [text| |name value]; [by apply IH..|].
    unfold samples in *. cbn in Hnd |- *. rewrite put_new.
    - rewrite IH; [by rewrite <- app_assoc|]. by rewrite <- app_assoc.
    - rewrite map_app in Hnd. apply list.NoDup_app in Hnd as (_ & Hnd & _). intros Hin. by apply (Hnd _ Hin); left. }
  rewrite H by done. unfold parse_line. by rewrite bool_decide_eq_true_2.
Qed.

(** A variable is read as the integer it denotes, or refused: what is accepted lies within
    its bounds, and every natural number in range that is written in plain digits is accepted. *)
Lemma envInteger_bounds text fallback name minimum n :
  text ≠ [] → envInteger (Some text) fallback name minimum = Ok n → minimum ≤ n ∧ Z.abs n ≤ MAX_SAFE_INTEGER.
Proof.
  intros Hne. unfold envInteger. destruct text as [|u text]; [done|]. destruct (Number _) as [| |q]; [done..|].
  destruct (_ || _ || _) eqn:E; [done|]. intros [= <-]. repeat apply orb_false_iff in E as [E ?]. lia.
Qed.
Lemma envInteger_reads (n : N) fallback name minimum :
  minimum ≤ Z.of_N n ≤ MAX_SAFE_INTEGER →
  envInteger (Some (js (pretty n))) fallback name minimum = Ok (Z.of_N n).
Proof.
  intros Hn. unfold envInteger. destruct (pretty_all_digits n) as [_ Hne]. unfold MAX_SAFE_INTEGER in Hn.
  rewrite Number_pretty by lia. destruct (js (pretty n)); [done|].
  assert (Qred (inject_Z (Z.of_N n)) = inject_Z (Z.of_N n)) as -> by (apply Qcanon.Qred_identity, Z.gcd_1_r).
  cbn [inject_Z Qnum Qden]. unfold MAX_SAFE_INTEGER. replace (_ <? Z.abs _) with false by lia.
  by replace (_ <? minimum) with false by lia.
Qed.

Lemma metrics_roundtrip_witness :
  parsePrometheus (print_page [(Comment (js " HELP bridge_active_tunnels"), false); (Sample (js "bridge_active_tunnels") 3, false);
    (Blank, true); (Sample (js "bridge_bytes_forwarded_total{direction=to_client}") 65535, true)]) =
  [(js "bridge_active_tunnels", inject_Z 3); (js "bridge_bytes_forwarded_total{direction=to_client}", inject_Z 65535)].
Proof.
  apply (metrics_roundtrip [(Comment (js " HELP bridge_active_tunnels"), false); (Sample (js "bridge_active_tunnels") 3, false);
    (Blank, true); (Sample (js "bridge_bytes_forwarded_total{direction=to_client}") 65535, true)]).
  - repeat constructor; try (apply (bool_decide_unpack _); vm_compute; reflexivity).
  - apply (bool_decide_unpack _). vm_compute. reflexivity.
Defined.
