(* ===== verification/LoadRun.v ===== *)
(** * LoadRun: a run of the load benchmark

    [scripts/load-benchmark.ts]: how a run is configured, what its calls must answer, the workers
    of a stage with the counters and the log they share, the churn of connections, polling for
    recovery, and the verdict.  The answers of the server, the clock, the metrics page and the file
    system are arguments of the steps.  The messages of errors are kept where the program makes
    them.  Left out are the samples, whose page [Metrics] parses and whose other values containers
    report, the order in which [main] runs these parts, and the report in Markdown. *)
From Stdlib Require Import QArith Lqa Sorted.
From S2P Require Import Prelude Retry Statistics JsText Metrics.
Local Open Scope Z_scope.

(** ** Configuration *)

Record Profile := mkProfile {
  tunnels : Z; idleTunnels : Z; concurrency : Z; durationSeconds : Z; churnCycles : Z;
  largeMessageBytes : Z; slowConsumerHoldMs : Z; recoverySeconds : Z;
}.
Definition smoke : Profile := mkProfile 4 1 8 5 12 180000 300 10.
Definition soak : Profile := mkProfile 32 8 64 14400 2000 900000 5000 60.

Inductive SetupError := BadProfile | BadNumber (e : EnvError) | TooManyIdle | BadOutput.

#[local] Instance setup_bind : MBind (result SetupError) := λ A B f r,
  match r with Ok a => f a | Throw e => Throw e end.

(** [process.env]. *)
Definition Env : Type := jsstring → option jsstring.
Definition number_of (env : Env) (name : string) (fallback minimum : Z) : result SetupError Z :=
  match envInteger (env (js name)) fallback (js name) minimum with
  | Ok n => Ok n
  | Throw e => Throw (BadNumber e)
  end.

(** The name of the profile: the argument, the variable, or [smoke]. *)
Definition profileName (argument : option jsstring) (env : Env) : result SetupError jsstring :=
  let name := match argument, env (js "BENCH_PROFILE") with
              | Some name, _ | None, Some name => name
              | None, None => js "smoke"
              end in
  if negb (bool_decide (name = js "smoke")) && negb (bool_decide (name = js "soak")) then Throw BadProfile else Ok name.

Definition read_config (defaults : Profile) (env : Env) : result SetupError Profile :=
  tunnels ← number_of env "BENCH_TUNNELS" (tunnels defaults) 1;
  idleTunnels ← number_of env "BENCH_IDLE_TUNNELS" (idleTunnels defaults) 0;
  concurrency ← number_of env "BENCH_CONCURRENCY" (concurrency defaults) 1;
  durationSeconds ← number_of env "BENCH_DURATION_SECONDS" (durationSeconds defaults) 1;
  churnCycles ← number_of env "BENCH_CHURN_CYCLES" (churnCycles defaults) 0;
  largeMessageBytes ← number_of env "BENCH_LARGE_MESSAGE_BYTES" (largeMessageBytes defaults) 1;
  slowConsumerHoldMs ← number_of env "BENCH_SLOW_CONSUMER_HOLD_MS" (slowConsumerHoldMs defaults) 1;
  recoverySeconds ← number_of env "BENCH_RECOVERY_SECONDS" (recoverySeconds defaults) 1;
  if tunnels <=? idleTunnels then Throw TooManyIdle
  else Ok (mkProfile tunnels idleTunnels concurrency durationSeconds churnCycles largeMessageBytes slowConsumerHoldMs
             recoverySeconds).

Definition read_thresholds (env : Env) : result SetupError SmokeThresholds :=
  errors ← number_of env "BENCH_MAX_ERRORS" 0 0;
  p99 ← number_of env "BENCH_MAX_P99_MS" 5000 1;
  goroutines ← number_of env "BENCH_MAX_GOROUTINE_GROWTH" 20 0;
  heap ← number_of env "BENCH_MAX_HEAP_GROWTH_BYTES" (8 * 1024 * 1024) 0;
  rss ← number_of env "BENCH_MAX_RSS_GROWTH_BYTES" (16 * 1024 * 1024) 0;
  Ok (mkThresholds errors (inject_Z p99) goroutines heap rss).

Definition JSON_SUFFIX : jsstring := js ".json".
(** The files beside the report; [outputPath] is absolute already. *)
Definition replace_suffix (path suffix : jsstring) : jsstring := take (length path - length JSON_SUFFIX) path ++ suffix.
Definition output_paths (outputPath : jsstring) : result SetupError (jsstring * jsstring) :=
  if negb (ends_with JSON_SUFFIX outputPath) then Throw BadOutput
  else Ok (replace_suffix outputPath (js ".samples.jsonl"), replace_suffix outputPath (js ".operations.jsonl")).

Definition setup (argument : option jsstring) (env : Env) (resolved : jsstring)
    : result SetupError (Profile * SmokeThresholds * (jsstring * jsstring)) :=
  name ← profileName argument env;
  let defaults := if bool_decide (name = js "smoke") then smoke else soak in
  config ← read_config defaults env;
  thresholds ← read_thresholds env;
  paths ← output_paths resolved;
  Ok (config, thresholds, paths).

(** ** Stages *)

(** [values.filter((value, index, values) => values.indexOf(value) === index)]. *)
Fixpoint distinct_from (seen values : list Z) : list Z :=
  match values with
  | [] => []
  | v :: values => if decide (v ∈ seen) then distinct_from seen values else v :: distinct_from (v :: seen) values
  end.
Definition distinct : list Z → list Z := distinct_from [].
(** [Math.ceil(n / d)]. *)
Definition ceil_div (n d : Z) : Z := - (- n / d).
Definition tunnelLevels (config : Profile) : list Z :=
  distinct [1; Z.max 1 (ceil_div (tunnels config) 2); tunnels config].
Definition concurrencyLevels (config : Profile) : list Z :=
  distinct [1; Z.max 1 (ceil_div (concurrency config) 4); concurrency config].
Definition stageSeconds (config : Profile) : Q :=
  (inject_Z (durationSeconds config) / inject_Z (zlen (concurrencyLevels config)))%Q.

Inductive Exercise := SlowConsumer | CancellationAndSibling | LargeMessage | SlowProducer.
(** The exercises beside the workers of a stage, with the index of the client each runs on. *)
Definition exercises (config : Profile) (level : Z) (clients : nat) : list (Exercise * nat) :=
  if level =? concurrency config
  then let pick i := if Nat.ltb i clients then i else 0%nat in
       [(SlowConsumer, 0%nat); (CancellationAndSibling, pick 1%nat); (LargeMessage, pick 2%nat); (SlowProducer, pick 3%nat)]
  else [].

(** ** What a call must answer *)

Inductive OperationKind := unary | server_stream | client_stream | bidi.
#[export] Instance OperationKind_eq_dec : EqDecision OperationKind.
Proof. solve_decision. Defined.
Definition kinds : list OperationKind := [unary; server_stream; client_stream; bidi].

Record DemoMessage := mkMessage { text : jsstring; number : Z }.
(** A promised message, or the message of the error instead. *)
Definition Reply : Type := jsstring + DemoMessage.

(** What the call of an operation came to; a stream yields messages and ends, perhaps with an error. *)
Inductive CallAnswer :=
| Echoed (r : Reply)
| Counted (messages : list DemoMessage) (failure : option jsstring)
| Collected (r : Reply)
| Chatted (messages : list DemoMessage) (failure : option jsstring).
Definition kind_of (a : CallAnswer) : OperationKind :=
  match a with Echoed _ => unary | Counted _ _ => server_stream | Collected _ => client_stream | Chatted _ _ => bidi end.

Definition check_reply (r : Reply) (ok : DemoMessage → bool) (mismatch : string) : option jsstring :=
  match r with
  | inl e => Some e
  | inr m => if ok m then None else Some (js mismatch)
  end.
Fixpoint chat_loop (messages : list DemoMessage) (failure : option jsstring) (count : Z) : option jsstring :=
  match messages with
  | m :: messages =>
      if negb (starts_with (js "Python received:") (text m)) then Some (js "bidi response mismatch")
      else chat_loop messages failure (count + 1)
  | [] =>
      match failure with
      | Some e => Some e
      | None => if count =? 3 then None else Some (js "bidi response count mismatch")
      end
  end.
(** The error that [operation] throws. *)
Definition operation (a : CallAnswer) : option jsstring :=
  match a with
  | Echoed r => check_reply r (λ m, number m =? 7) "unary response mismatch"
  | Counted messages failure =>
      match failure with
      | Some e => Some e
      | None => if fold_left (λ total m, total + number m) messages 0 =? 6 then None
                else Some (js "server stream response mismatch")
      end
  | Collected r => check_reply r (λ m, number m =? 6) "client stream response mismatch"
  | Chatted messages failure => chat_loop messages failure 0
  end.

(** ** The exercises *)

Definition healthy (sibling : Reply) (word : string) (mismatch : string) : option jsstring :=
  check_reply sibling (λ m, bool_decide (text m = js word)) mismatch.

(** [None]: the length is right, and the call is recorded. *)
Definition exerciseLargeMessage (config : Profile) (r : Reply) : option jsstring :=
  check_reply r (λ m, zlen (text m) =? largeMessageBytes config) "large response mismatch".

(** [aborted]: the signal when the pending call was settled. *)
Definition exerciseCancellationAndSibling (pending : Reply) (aborted : bool) (sibling : Reply) : option jsstring :=
  let error := match pending with inl e => e | inr _ => js "canceled call completed successfully" end in
  if negb aborted then Some error
  else healthy sibling "healthy sibling" "sibling RPC failed".

Inductive First := FirstFails (e : jsstring) | FirstDone | FirstMessage (m : DemoMessage).
Definition exerciseSlowConsumer (first : First) (sibling : Reply) : option jsstring :=
  match first with
  | FirstFails e => Some e
  | FirstDone => Some (js "slow-consumer stream ended early")
  | FirstMessage _ => healthy sibling "slow-consumer sibling" "slow-consumer blocked sibling stream"
  end.

Definition exerciseSlowProducer (sibling pending : Reply) : option jsstring :=
  match healthy sibling "slow-producer sibling" "slow producer blocked sibling stream" with
  | Some e => Some e
  | None => check_reply pending (λ m, number m =? 3) "slow producer response mismatch"
  end.

(** A call that completes although it was canceled is reported only if the abort had not come yet:
    the error is thrown inside the [try] whose [catch] lets every error pass after the abort. *)
Lemma completed_cancel_unnoticed m sibling :
  exerciseCancellationAndSibling (inr m) true sibling = healthy sibling "healthy sibling" "sibling RPC failed".
Proof. reflexivity. Qed.

(** ** Workers, counters and the log *)

Record OperationRecord := mkRecord { op_kind : OperationKind; durationMs : Q; op_error : option jsstring }.

Inductive WorkerPhase :=
| AtLoop
| Calling (before : Q)
| Recording (failed : option jsstring) (writes : nat)   (* awaits the first [writes] batches *)
| Finished
| Broken.
Record Worker := mkWorker { w_index : nat; w_sequence : nat; w_phase : WorkerPhase }.
Definition worker_kind (w : Worker) : OperationKind := default unary (kinds !! (w_sequence w mod 4)%nat).

Record Run := mkRun {
  records : list OperationRecord;
  batches : list (list OperationRecord);   (* chained on [operationWrite], in order *)
  written : nat;                           (* how many of them have been appended *)
  write_failed : bool;
  latencies : LatencyHistogram;
  shapeLatencies : OperationKind → LatencyHistogram;
  errorCount : Z;
  workloadStopped : bool;
  clients : nat;
  until_ms : Q;
  workers : list Worker;
}.
Definition run_new (clients : nat) : Run :=
  mkRun [] [] 0 false histogram_new (λ _, histogram_new) 0 false clients 0 [].

Definition with_log rs bs (s : Run) : Run :=
  mkRun rs bs (written s) (write_failed s) (latencies s) (shapeLatencies s) (errorCount s) (workloadStopped s) (clients s)
    (until_ms s) (workers s).
Definition with_counts all shapes errors (s : Run) : Run :=
  mkRun (records s) (batches s) (written s) (write_failed s) all shapes errors (workloadStopped s) (clients s)
    (until_ms s) (workers s).
Definition with_write n failed (s : Run) : Run :=
  mkRun (records s) (batches s) n failed (latencies s) (shapeLatencies s) (errorCount s) (workloadStopped s) (clients s)
    (until_ms s) (workers s).
Definition with_stopped (s : Run) : Run :=
  mkRun (records s) (batches s) (written s) (write_failed s) (latencies s) (shapeLatencies s) (errorCount s) true (clients s)
    (until_ms s) (workers s).
Definition with_stage until ws (s : Run) : Run :=
  mkRun (records s) (batches s) (written s) (write_failed s) (latencies s) (shapeLatencies s) (errorCount s)
    (workloadStopped s) (clients s) until ws.
Definition set_worker (i : nat) (w : Worker) (s : Run) : Run := with_stage (until_ms s) (<[i:=w]> (workers s)) s.
Definition at_phase (p : WorkerPhase) (w : Worker) : Worker := mkWorker (w_index w) (w_sequence w) p.

(** The synchronous part of [flushOperations], and how many batches its [await] is for. *)
Definition flushOperations (s : Run) : Run * nat :=
  let s := match records s with [] => s | batch => with_log [] (batches s ++ [batch]) s end in
  (s, length (batches s)).

(** The synchronous part of [recordOperation]; [None]: a duration is refused. *)
Definition recordOperation (r : OperationRecord) (s : Run) : option (Run * nat) :=
  counted ← match op_error r with
            | None =>
                all ← observe (Fin (durationMs r)) (latencies s);
                shape ← observe (Fin (durationMs r)) (shapeLatencies s (op_kind r));
                Some (with_counts all (λ k, if decide (k = op_kind r) then shape else shapeLatencies s k) (errorCount s) s)
            | Some _ => Some (with_counts (latencies s) (shapeLatencies s) (errorCount s + 1) s)
            end;
  let s := with_log (records counted ++ [r]) (batches counted) counted in
  Some (if 1024 <=? zlen (records s) then flushOperations s else (s, 0%nat)).

(** Whether the [await] of a number of batches is over, and how. *)
Definition awaited (n : nat) (s : Run) : option bool :=
  if Nat.leb n (written s) then Some true else if write_failed s then Some false else None.

Section run.
Context (thresholds : SmokeThresholds).

(** The head of the loop in [mixedLoad]; the clock is read for the condition and for the call. *)
Definition turn (i : nat) (w : Worker) (now before : Q) (s : Run) : Run :=
  if workloadStopped s || Qle_bool (until_ms s) now then set_worker i (at_phase Finished w) s
  else if Nat.eqb (clients s) 0 then set_worker i (at_phase Broken w) s
  else set_worker i (at_phase (Calling before) w) s.

(** The call of the operation is over. *)
Definition settles (i : nat) (w : Worker) (before now : Q) (a : CallAnswer) (s : Run) : Run :=
  let error := operation a in
  match recordOperation (mkRecord (worker_kind w) (now - before)%Q error) s with
  | None => set_worker i (at_phase Broken w) s
  | Some (s, n) => set_worker i (at_phase (Recording error n) w) s
  end.

(** After [await recordOperation]. *)
Definition resumes (i : nat) (w : Worker) (failed : option jsstring) (fulfilled : bool) (s : Run) : Run :=
  if negb fulfilled then set_worker i (at_phase Broken w) s
  else if bool_decide (is_Some failed) && (maxErrors thresholds <? errorCount s)
  then with_stopped (set_worker i (at_phase Broken w) s)
  else set_worker i (mkWorker (w_index w) (S (w_sequence w)) AtLoop) s.

(** The workers of a stage. *)
Definition start_stage (level : nat) (until : Q) (s : Run) : Run :=
  with_stage until (map (λ i, mkWorker i i AtLoop) (seq 0 level)) s.

Definition finished (w : Worker) : bool := match w_phase w with Finished => true | _ => false end.

Inductive LoadEvent :=
| Starts (level : nat) (until : Q)
| Turns (i : nat) (now before : Q)
| Settles (i : nat) (now : Q) (a : CallAnswer)
| Resumes (i : nat)
| Large (duration : Q)            (* [exerciseLargeMessage] records its call *)
| Fails                           (* another task of the stage was rejected *)
| Appends (ok : bool)             (* the append in progress is over *)
| Flushes.                        (* [main] flushes *)

Definition load_step (e : LoadEvent) (s : Run) : option Run :=
  match e with
  | Starts level until =>
      if forallb finished (workers s) && negb (workloadStopped s) then Some (start_stage level until s) else None
  | Turns i now before =>
      w ← workers s !! i;
      match w_phase w with AtLoop => Some (turn i w now before s) | _ => None end
  | Settles i now a =>
      w ← workers s !! i;
      match w_phase w with
      | Calling before =>
          if bool_decide (kind_of a = worker_kind w) && Qle_bool before now then Some (settles i w before now a s) else None
      | _ => None
      end
  | Resumes i =>
      w ← workers s !! i;
      match w_phase w with
      | Recording failed n => fulfilled ← awaited n s; Some (resumes i w failed fulfilled s)
      | _ => None
      end
  | Large duration => if Qle_bool 0 duration then fst <$> recordOperation (mkRecord unary duration None) s else None
  | Fails => Some (with_stopped s)
  | Appends ok =>
      if Nat.ltb (written s) (length (batches s)) && negb (write_failed s)
      then Some (if ok : bool then with_write (S (written s)) false s else with_write (written s) true s)
      else None
  | Flushes => Some (fst (flushOperations s))
  end.

Inductive load_reachable (n : nat) : Run → Prop :=
| reach_new : load_reachable n (run_new n)
| reach_step e s s' : load_reachable n s → load_step e s = Some s' → load_reachable n s'.
End run.

(** ** The report *)

Inductive Complaint :=
| Threshold (f : Failure)
| WorkloadFailed (message : jsstring)
| RecoveryFailed (message : jsstring)
| Unmeasured
| NoneSuccessful (k : OperationKind).

Definition complaints (thresholds : SmokeThresholds) (baseline recovered : RecoverySnapshot) (s : Run)
    (workloadFailures : list Complaint) : list Complaint :=
  map Threshold (recoveryFailures baseline recovered (errorCount s) (p99Ms (histogram_distribution (latencies s))) thresholds) ++
  workloadFailures ++
  (match rssBytes baseline, rssBytes recovered with Some _, Some _ => [] | _, _ => [Unmeasured] end) ++
  flat_map (λ k, if d_count (histogram_distribution (shapeLatencies s k)) =? 0 then [NoneSuccessful k] else []) kinds.
Definition exitCode (failures : list Complaint) : Z := if zlen failures =? 0 then 0 else 1.
Definition operationsPerSecond (config : Profile) (s : Run) : Q :=
  (inject_Z (d_count (histogram_distribution (latencies s))) / inject_Z (durationSeconds config))%Q.

(** The lines of the operation file. *)
Definition file (s : Run) : list OperationRecord := concat (take (written s) (batches s)).
(** Everything recorded, in order. *)
Definition log (s : Run) : list OperationRecord := concat (batches s) ++ records s.

(** ** Counting *)

Fixpoint tally {A} (f : A → bool) (l : list A) : Z :=
  match l with [] => 0 | x :: l => Z.b2z (f x) + tally f l end.

Lemma tally_app {A} (f : A → bool) l m : tally f (l ++ m) = tally f l + tally f m.
Proof. induction l as [|x l IH]; cbn [app tally]; lia. Qed.
Lemma tally_bounds {A} (f : A → bool) l : 0 ≤ tally f l ≤ zlen l.
Proof. induction l as [|x l IH]; [done|]. cbn [tally]. rewrite zlen_cons. destruct (f x); cbn; lia. Qed.
Lemma tally_none {A} (f : A → bool) l : (∀ x, x ∈ l → f x = false) → tally f l = 0.
Proof. induction l as [|x l IH]; intros H; [done|]. cbn [tally]. rewrite H, IH by set_solver. done. Qed.
Lemma tally_insert {A} (f : A → bool) l i x y :
  l !! i = Some x → tally f (<[i:=y]> l) = tally f l - Z.b2z (f x) + Z.b2z (f y).
Proof.
  revert i. induction l as [|z l IH]; intros [|i] H; try done; cbn in H; [injection H as ->; cbn; lia|].
  change (<[S i:=y]> (z :: l)) with (z :: <[i:=y]> l). cbn [tally]. rewrite (IH _ H). lia.
Qed.
Lemma tally_pos {A} (f : A → bool) l : tally f l ≠ 0 ↔ ∃ x, x ∈ l ∧ f x = true.
Proof.
  split.
  - intros H. destruct (existsb f l) eqn:E; [apply existsb_exists in E as (x & Hx & Hf); exists x; by rewrite list_elem_of_In|].
    exfalso. apply H, tally_none. intros x Hx. destruct (f x) eqn:Ef; [|done].
    assert (existsb f l = true); [apply existsb_exists; exists x; by rewrite <- list_elem_of_In|congruence].
  - intros (x & Hx & Hf). apply list_elem_of_split in Hx as (l1 & l2 & ->). rewrite tally_app. cbn [tally]. rewrite Hf.
    pose proof (tally_bounds f l1). pose proof (tally_bounds f l2). cbn. lia.
Qed.

(** ** The counters agree with the log *)

Definition failed (r : OperationRecord) : bool := bool_decide (is_Some (op_error r)).
Definition durations (l : list OperationRecord) : list Q := map durationMs (filter (λ r, op_error r = None) l).
Definition of_kind (k : OperationKind) (l : list OperationRecord) : list OperationRecord := filter (λ r, op_kind r = k) l.

(** A worker whose last call failed, and that has not gone on. *)
Definition over (w : Worker) : bool :=
  match w_phase w with Recording (Some _) _ | Broken => true | _ => false end.

Record Agrees (limit : Z) (s : Run) : Prop := mkAgrees {
  ag_all : holds (durations (log s)) (latencies s);
  ag_shape k : holds (durations (of_kind k (log s))) (shapeLatencies s k);
  ag_times : Forall (λ r, 0 <= durationMs r)%Q (log s);
  ag_errors : errorCount s = tally failed (log s);
  ag_written : (written s ≤ length (batches s))%nat;
  ag_budget : errorCount s ≤ Z.max 0 limit + tally over (workers s);
}.

Lemma durations_snoc l r : durations (l ++ [r]) = durations l ++ match op_error r with Some _ => [] | None => [durationMs r] end.
Proof. unfold durations. rewrite list.filter_app, map_app. cbn. unfold filter. cbn. by destruct (op_error r). Qed.
Lemma of_kind_snoc k l r : of_kind k (l ++ [r]) = of_kind k l ++ (if decide (op_kind r = k) then [r] else []).
Proof. unfold of_kind. rewrite list.filter_app. cbn. unfold filter. cbn. by destruct (decide _). Qed.

Lemma log_flush s : log (fst (flushOperations s)) = log s.
Proof.
  unfold flushOperations, log. destruct (records s) as [|r rs] eqn:E; cbn [fst]; [by rewrite E|].
  cbn. rewrite concat_app. cbn. by rewrite !app_nil_r.
Qed.

Lemma agrees_new limit n : Agrees limit (run_new n).
Proof.
  split; [apply holds_new|intros k; apply holds_new|constructor|done..|].
  change (0 ≤ Z.max 0 limit + 0). lia.
Qed.

Lemma log_record r s s' n : recordOperation r s = Some (s', n) → log s' = log s ++ [r].
Proof.
  unfold recordOperation. intros H. apply bind_Some in H as (c & Hc & [= H]).
  assert (records c = records s ∧ batches c = batches s) as [Hr Hb].
  { destruct (op_error r); [by injection Hc as <-|].
    apply bind_Some in Hc as (all & _ & Hc). apply bind_Some in Hc as (shape & _ & Hc). by injection Hc as <-. }
  assert (log (with_log (records c ++ [r]) (batches c) c) = log s ++ [r]) as El.
  { unfold log. cbn. by rewrite Hr, Hb, app_assoc. }
  destruct (1024 <=? _).
  - rewrite <- El. pose proof (log_flush (with_log (records c ++ [r]) (batches c) c)) as F. by rewrite H in F.
  - by injection H as <- _.
Qed.

(** What recording leaves alone. *)
Lemma record_frame r s s' n :
  recordOperation r s = Some (s', n) →
  workers s' = workers s ∧ written s' = written s ∧ (length (batches s) ≤ length (batches s'))%nat ∧
  errorCount s' = errorCount s + Z.b2z (failed r).
Proof.
  unfold recordOperation. intros H. apply bind_Some in H as (c & Hc & [= H]).
  assert (workers c = workers s ∧ written c = written s ∧ batches c = batches s ∧
    errorCount c = errorCount s + Z.b2z (failed r)) as (Hw & Hn & Hb & He).
  { unfold failed. destruct (op_error r); [by injection Hc as <-|].
    apply bind_Some in Hc as (all & _ & Hc). apply bind_Some in Hc as (shape & _ & Hc). injection Hc as <-. cbn. by rewrite Z.add_0_r. }
  destruct (1024 <=? _).
  - unfold flushOperations in H. cbn in H. destruct (records c ++ [r]) eqn:E; [by destruct (records c)|].
    injection H as <- _. cbn. rewrite length_app, Hb. split_and!; (done || lia).
  - injection H as <- _. cbn. rewrite Hb. by split_and!.
Qed.

(** What recording counts. *)
Lemma record_counts r s s' n :
  recordOperation r s = Some (s', n) → (0 <= durationMs r)%Q →
  holds (durations (log s)) (latencies s) → (∀ k, holds (durations (of_kind k (log s))) (shapeLatencies s k)) →
  holds (durations (log s')) (latencies s') ∧ ∀ k, holds (durations (of_kind k (log s'))) (shapeLatencies s' k).
Proof.
  intros H Hd Ha Hk. rewrite (log_record _ _ _ _ H). unfold recordOperation in H.
  apply bind_Some in H as (c & Hc & [= H]).
  assert (latencies s' = latencies c ∧ shapeLatencies s' = shapeLatencies c) as [-> ->].
  { destruct (1024 <=? _); [|by injection H as <- _].
    unfold flushOperations in H. cbn in H. destruct (records c ++ [r]); by injection H as <- _. }
  clear H. setoid_rewrite of_kind_snoc. rewrite durations_snoc. destruct (op_error r) as [e|] eqn:Er.
  - injection Hc as <-. cbn. rewrite app_nil_r. split; [done|]. intros k. destruct (decide _); [|by rewrite app_nil_r].
    by rewrite durations_snoc, Er, app_nil_r.
  - apply bind_Some in Hc as (all & Hall & Hc). apply bind_Some in Hc as (shape & Hshape & Hc). injection Hc as <-. cbn.
    destruct (holds_observe _ _ _ Ha Hd) as (all' & E & H1). rewrite E in Hall. injection Hall as ->.
    destruct (holds_observe _ _ _ (Hk (op_kind r)) Hd) as (shape' & E' & H2). rewrite E' in Hshape. injection Hshape as ->.
    split; [done|]. intros k. destruct (decide (op_kind r = k)) as [<-|Hne].
    + rewrite durations_snoc, Er, decide_True by done. done.
    + rewrite decide_False, app_nil_r by congruence. apply Hk.
Qed.

Lemma agrees_record limit r s s' n :
  recordOperation r s = Some (s', n) → (0 <= durationMs r)%Q → op_error r = None → Agrees limit s → Agrees limit s'.
Proof.
  intros H Hd Hr [Ha Hk Ht He Hw Hb]. destruct (record_counts _ _ _ _ H Hd Ha Hk) as [Ha' Hk'].
  destruct (record_frame _ _ _ _ H) as (Ew & En & El & Ee). pose proof (log_record _ _ _ _ H) as Elog.
  assert (failed r = false) as Ef by (unfold failed; by rewrite Hr). rewrite Ef in Ee. cbn in Ee.
  split; [done|done|..].
  - rewrite Elog. apply list.Forall_app. by repeat constructor.
  - rewrite Elog, tally_app. cbn. rewrite Ef. cbn. lia.
  - lia.
  - rewrite Ew. lia.
Qed.

(** Replacing a worker changes the budget only. *)
Lemma agrees_worker limit i w w' s :
  Agrees limit s → workers s !! i = Some w →
  errorCount s ≤ Z.max 0 limit + tally over (workers s) - Z.b2z (over w) + Z.b2z (over w') →
  Agrees limit (set_worker i w' s).
Proof.
  intros [Ha Hk Ht He Hw Hb] Hi Hle. split; try done. cbn. rewrite (tally_insert _ _ _ w) by done. lia.
Qed.

Lemma agrees_stopped limit s : Agrees limit s → Agrees limit (with_stopped s).
Proof. intros [Ha Hk Ht He Hw Hb]. by split. Qed.

Lemma agrees_flush limit s : Agrees limit s → Agrees limit (fst (flushOperations s)).
Proof.
  intros [Ha Hk Ht He Hw Hb]. pose proof (log_flush s) as El.
  split; rewrite ?El; unfold flushOperations; destruct (records s); cbn; try done. rewrite length_app. lia.
Qed.

Lemma agrees_settles limit i w before now a s :
  Agrees limit s → workers s !! i = Some w → w_phase w = Calling before → (before <= now)%Q →
  Agrees limit (settles i w before now a s).
Proof.
  intros H Hi Hp Hle. unfold settles. assert (over w = false) as Ho by (unfold over; by rewrite Hp).
  destruct (recordOperation _ s) as [[s' n]|] eqn:E.
  - destruct H as [Ha Hk Ht He Hw Hb]. assert (0 <= now - before)%Q as Hd by (apply -> Qle_minus_iff; done).
    destruct (record_counts _ _ _ _ E Hd Ha Hk) as [Ha' Hk']. destruct (record_frame _ _ _ _ E) as (Ew & En & El & Ee).
    pose proof (log_record _ _ _ _ E) as Elog.
    assert (Forall (λ r, 0 <= durationMs r)%Q (log s')) as Ht' by (rewrite Elog; apply list.Forall_app; by repeat constructor).
    split; [done..| | |]; cbn.
    + fold (log s'). rewrite Elog, tally_app. cbn [tally]. lia.
    + lia.
    + rewrite Ew. rewrite (tally_insert _ _ _ w) by done. rewrite Ho, Ee.
      assert (over (at_phase (Recording (operation a) n) w) = failed (mkRecord (worker_kind w) (now - before)%Q (operation a))) as ->
        by (unfold over, failed; cbn; by destruct (operation a)).
      cbn [Z.b2z]. lia.
  - eapply agrees_worker; [done..|]. destruct H as [_ _ _ _ _ Hb]. rewrite Ho. cbn. lia.
Qed.

Lemma agrees_resumes thresholds i w failed n fulfilled s :
  Agrees (maxErrors thresholds) s → workers s !! i = Some w → w_phase w = Recording failed n →
  Agrees (maxErrors thresholds) (resumes thresholds i w failed fulfilled s).
Proof.
  intros H Hi Hp. pose proof (ag_budget _ _ H) as Hb. pose proof (tally_bounds over (workers s)) as Ht.
  assert (over w = bool_decide (is_Some failed)) as Ho by (unfold over; rewrite Hp; by destruct failed).
  unfold resumes. destruct fulfilled; cbn [negb].
  - destruct (_ && _) eqn:E.
    + apply andb_true_iff in E as [E _]. apply agrees_stopped. eapply agrees_worker; [done..|]. rewrite Ho, E. cbn. lia.
    + eapply agrees_worker; [done..|]. rewrite Ho. change (over (mkWorker _ _ AtLoop)) with false.
      destruct (bool_decide _) eqn:Ef; cbn in *; [|lia].
      assert (1 ≤ tally over (workers s)) as H1; [|lia].
      assert (tally over (workers s) ≠ 0); [|lia]. apply tally_pos. exists w. split; [by eapply list_elem_of_lookup_2|done].
  - eapply agrees_worker; [done..|]. change (over (at_phase Broken w)) with true. destruct (over w); cbn; lia.
Qed.

Lemma agrees_step thresholds e s s' :
  load_step thresholds e s = Some s' → Agrees (maxErrors thresholds) s → Agrees (maxErrors thresholds) s'.
Proof.
  intros H Hag. destruct e as [level until|i now before|i now a|i|d| |ok|]; unfold load_step in H.
  - destruct (_ && _) eqn:E; [|done]. injection H as <-. apply andb_true_iff in E as [E _].
    destruct Hag as [Ha Hk Ht He Hw Hb]. split; try done. cbn. rewrite tally_none in Hb; [|intros w Hin].
    + rewrite tally_none; [done|]. intros w (j & -> & _)%list_elem_of_fmap. done.
    + rewrite forallb_forall in E. specialize (E w). rewrite <- list_elem_of_In in E. specialize (E Hin).
      unfold finished, over in *. by destruct (w_phase w).
  - apply bind_Some in H as (w & Hi & H). destruct (w_phase w) eqn:Hp; try done. injection H as <-.
    assert (over w = false) as Ho by (unfold over; by rewrite Hp). pose proof (ag_budget _ _ Hag).
    unfold turn. destruct (_ || _); [|destruct (Nat.eqb _ _)]; (eapply agrees_worker; [done..|]; rewrite Ho; cbn; lia).
  - apply bind_Some in H as (w & Hi & H). destruct (w_phase w) eqn:Hp; try done.
    destruct (_ && _) eqn:E; [|done]. injection H as <-. apply andb_true_iff in E as [_ E%Qle_bool_iff].
    by eapply agrees_settles.
  - apply bind_Some in H as (w & Hi & H). destruct (w_phase w) eqn:Hp; try done.
    apply bind_Some in H as (fulfilled & _ & H). injection H as <-. by eapply agrees_resumes.
  - destruct (Qle_bool 0 d) eqn:E; [|done]. apply Qle_bool_iff in E. apply fmap_Some in H as ([s1 n] & H & ->).
    cbn. by eapply agrees_record.
  - injection H as <-. by apply agrees_stopped.
  - destruct (_ && _) eqn:E; [|done]. injection H as <-. apply andb_true_iff in E as [E%Nat.ltb_lt _].
    destruct Hag as [Ha Hk Ht He Hw Hb]. destruct ok; split; try done; cbn; lia.
  - injection H as <-. by apply agrees_flush.
Qed.

Lemma reachable_agrees thresholds n s : load_reachable thresholds n s → Agrees (maxErrors thresholds) s.
Proof. induction 1; [apply agrees_new|]. by eapply agrees_step. Qed.

(** ** What the report says *)

Lemma holds_count values h : holds values h → d_count (histogram_distribution h) = zlen values.
Proof.
  intros H. unfold histogram_distribution. rewrite (ho_count _ _ H). destruct (zlen values =? 0) eqn:E; [|done].
  apply Z.eqb_eq in E. by rewrite E.
Qed.

Lemma durations_length l : zlen (durations l) + tally failed l = zlen l.
Proof.
  induction l as [|r l IH]; [done|]. unfold durations, failed in *. cbn [tally]. rewrite filter_cons, (zlen_cons r).
  destruct (decide (op_error r = None)) as [E|E]; [rewrite E; cbn [map]; rewrite zlen_cons; cbn; lia|].
  destruct (op_error r); [cbn; lia|done].
Qed.

Lemma durations_pos k l : zlen (durations (of_kind k l)) =? 0 = false ↔ ∃ r, r ∈ l ∧ op_kind r = k ∧ op_error r = None.
Proof.
  unfold durations, of_kind. rewrite Z.eqb_neq. split.
  - intros H. destruct (filter (λ r, op_error r = None) (filter (λ r, op_kind r = k) l)) as [|r rs] eqn:E; [done|].
    assert (r ∈ filter (λ r, op_error r = None) (filter (λ r, op_kind r = k) l)) as Hr by (rewrite E; set_solver).
    apply list_elem_of_filter in Hr as [? [? ?]%list_elem_of_filter]. by exists r.
  - intros (r & Hr & Hk & He) H. assert (durationMs r ∈ map durationMs (filter (λ r, op_error r = None) (filter (λ r, op_kind r = k) l))) as Hin.
    { apply list_elem_of_fmap. exists r. split; [done|]. by rewrite !list_elem_of_filter. }
    destruct (map _ _); [set_solver|]. rewrite zlen_cons in H. unfold zlen in H. lia.
Qed.

Lemma durations_nonnegative l : Forall (λ r, 0 <= durationMs r)%Q l → Forall (λ v, 0 <= v)%Q (durations l).
Proof.
  rewrite !list.Forall_forall. intros H v (r & -> & [_ Hr]%list_elem_of_filter)%list_elem_of_fmap. by apply H.
Qed.

Lemma durations_le l : zlen (durations l) ≤ zlen l.
Proof. pose proof (durations_length l). pose proof (tally_bounds failed l). lia. Qed.

Lemma concat_take {A} (l : list (list A)) n : ∃ rest, concat l = concat (take n l) ++ rest.
Proof. exists (concat (drop n l)). by rewrite <- concat_app, take_drop. Qed.

Lemma exit_zero l : exitCode l = 0 ↔ l = [].
Proof.
  unfold exitCode, zlen. destruct l as [|x l]; [done|]. destruct (Z.eqb_spec (Z.of_nat (length (x :: l))) 0) as [E|E]; [|done].
  cbn in E. lia.
Qed.

Lemma none_successful s :
  flat_map (λ k, if d_count (histogram_distribution (shapeLatencies s k)) =? 0 then [NoneSuccessful k] else []) kinds = [] ↔
  ∀ k, d_count (histogram_distribution (shapeLatencies s k)) =? 0 = false.
Proof.
  unfold kinds. cbn [flat_map]. rewrite !app_nil. assert (∀ (b : bool) (x : Complaint), (if b then [x] else []) = [] ↔ b = false) as Hif by (by intros []).
  rewrite !Hif. split; [intros H []; tauto|]. intros H. by rewrite !H.
Qed.

(** C40: The report of a load test is true to the calls that were made.  However the workers of a stage
    interleave, and whatever the server answers: the counters, overall and for each shape of call, are
    those of the log; every distribution agrees with the exact one of the logged times (fewer than
    2^53): in number, mean, minimum and maximum, and in its percentiles, which are never too low and
    less than a millisecond too high as long as the exact ones are at most 59999 ms - beyond that the
    maximum is reported; the operation file is a prefix of the log, and after an awaited flush all of
    it; at most one call per worker fails beyond the error budget; and the exit code is zero exactly
    when the errors, the 99th percentile and the growth of goroutines, heap and resident memory are
    within their limits, no tunnel is left, nothing else went wrong, memory was measured, and a call of
    every shape has succeeded. *)
Theorem report_agrees thresholds n s :
  load_reachable thresholds n s →
  let all := histogram_distribution (latencies s) in
  let shape k := histogram_distribution (shapeLatencies s k) in
  errorCount s = tally failed (log s) ∧
  d_count all + errorCount s = zlen (log s) ∧
  (zlen (log s) < UNIT →
     agrees all (distribution (durations (log s))) ∧
     ∀ k, agrees (shape k) (distribution (durations (of_kind k (log s))))) ∧
  (∃ rest, log s = file s ++ rest) ∧
  (records s = [] → awaited (length (batches s)) s = Some true → file s = log s) ∧
  errorCount s ≤ Z.max 0 (maxErrors thresholds) + zlen (workers s) ∧
  ∀ baseline recovered others,
    exitCode (complaints thresholds baseline recovered s others) = 0 ↔
    errorCount s ≤ maxErrors thresholds ∧ (p99Ms all <= maxP99Ms thresholds)%Q ∧
    activeTunnels recovered = 0 ∧ establishedTunnels recovered = 0 ∧
    goroutines recovered - goroutines baseline ≤ maxGoroutineGrowth thresholds ∧
    heapAllocBytes recovered - heapAllocBytes baseline ≤ maxHeapGrowthBytes thresholds ∧
    (∃ before after, rssBytes baseline = Some before ∧ rssBytes recovered = Some after ∧
       after - before ≤ maxRSSGrowthBytes thresholds) ∧
    others = [] ∧
    ∀ k, ∃ r, r ∈ log s ∧ op_kind r = k ∧ op_error r = None.
Proof.
  intros [Ha Hk Ht He Hw Hb]%reachable_agrees all shape. pose proof (durations_length (log s)) as Hl.
  split_and!; [done|unfold all; rewrite (holds_count _ _ Ha); lia| | | | |].
  - intros Hu. pose proof (durations_le (log s)). split; [apply holds_agrees; [by apply durations_nonnegative|lia|done]|].
    intros k. apply holds_agrees; [|pose proof (durations_le (of_kind k (log s))) as Hd|done].
    + apply durations_nonnegative. unfold of_kind. rewrite list.Forall_forall in *. intros r [_ Hr]%list_elem_of_filter. by apply Ht.
    + pose proof (length_filter (λ r, op_kind r = k) (log s)). unfold of_kind, zlen in *. lia.
  - destruct (concat_take (batches s) (written s)) as [rest E]. exists (rest ++ records s). unfold log, file.
    by rewrite E, app_assoc.
  - unfold awaited, file, log. intros -> Hf. rewrite app_nil_r, take_ge; [done|].
    destruct (Nat.leb_spec (length (batches s)) (written s)); [done|]. by destruct (write_failed s).
  - pose proof (tally_bounds over (workers s)). lia.
  - intros baseline recovered others. rewrite exit_zero. unfold complaints.
    assert (∀ l, map Threshold l = [] ↔ l = []) as Hm by (by intros []). rewrite !app_nil, none_successful, Hm, recovery_passes.
    setoid_rewrite (holds_count _ _ (Hk _)). setoid_rewrite durations_pos. fold all.
    destruct (rssBytes baseline), (rssBytes recovered); naive_solver.
Qed.

Fixpoint run_all (thresholds : SmokeThresholds) (es : list LoadEvent) (s : Run) : option Run :=
  match es with [] => Some s | e :: es => s' ← load_step thresholds e s; run_all thresholds es s' end.
Lemma reachable_all thresholds n es s s' : run_all thresholds es s = Some s' → load_reachable thresholds n s → load_reachable thresholds n s'.
Proof.
  revert s. induction es as [|e es IH]; cbn; intros s H Hr; [by injection H as <-|].
  apply bind_Some in H as (s1 & H1 & H). eapply IH; [done|]. by eapply reach_step.
Qed.

(** Two workers on one connection that breaks: both calls fail, and the budget allowed none. *)
Definition demo_thresholds : SmokeThresholds := mkThresholds 0 5000 20 8388608 16777216.
Definition demo_events : list LoadEvent :=
  [Starts 2 100; Turns 0 1 1; Turns 1 2 2; Settles 0 5 (Echoed (inl (js "gone"))); Resumes 0;
   Settles 1 6 (Counted [] (Some (js "gone"))); Resumes 1; Flushes; Appends true]%Q.
Definition demo_run : Run := default (run_new 1) (run_all demo_thresholds demo_events (run_new 1)).
Lemma demo_reachable : load_reachable demo_thresholds 1 demo_run.
Proof.
  unfold demo_run. destruct (run_all demo_thresholds demo_events (run_new 1)) as [s|] eqn:E; [|constructor].
  by apply (reachable_all _ _ _ _ _ E), reach_new.
Qed.

Lemma report_agrees_witness :
  map op_kind (file demo_run) = [unary; server_stream] ∧ tally failed (log demo_run) = 2 ∧ file demo_run = log demo_run ∧
  errorCount demo_run ≤ 0 + zlen (workers demo_run).
Proof.
  destruct (report_agrees demo_thresholds 1 demo_run demo_reachable) as (_ & _ & _ & _ & Hf & Hb & _).
  split; [reflexivity|]. split; [reflexivity|]. split; [apply Hf; reflexivity|exact Hb].
Defined.

(** ** Churn: connections opened and closed *)

Inductive ChurnPhase :=
| Claims                              (* about to take the next cycle *)
| Opening (cycle : Z)
| Echoing (cycle : Z)
| Closing (failed : bool)
| Returned
| Rejected.
Record Churning := mkChurning {
  next : Z;
  opened : Z;                         (* connections that came up *)
  closed : Z;                         (* connections whose close was asked for and is over *)
  echoed : list Z;                    (* the calls made, by their number *)
  churners : list ChurnPhase;
}.
Definition churn_workers (config : Profile) : nat := Z.to_nat (Z.min 4 (Z.max 1 (churnCycles config))).
Definition churn_new (config : Profile) : Churning := mkChurning 0 0 0 [] (replicate (churn_workers config) Claims).
Definition set_churner (i : nat) (p : ChurnPhase) (c : Churning) : Churning :=
  mkChurning (next c) (opened c) (closed c) (echoed c) (<[i:=p]> (churners c)).

Inductive ChurnEvent :=
| Claim (i : nat)
| Opened (i : nat) (ok : bool)
| EchoedBack (i : nat) (r : Reply)
| Closed (i : nat) (ok : bool).

Definition churn_step (config : Profile) (e : ChurnEvent) (c : Churning) : option Churning :=
  match e with
  | Claim i =>
      match churners c !! i with
      | Some Claims =>
          let cycle := next c in
          let c := mkChurning (next c + 1) (opened c) (closed c) (echoed c) (churners c) in
          Some (set_churner i (if churnCycles config <=? cycle then Returned else Opening cycle) c)
      | _ => None
      end
  | Opened i ok =>
      match churners c !! i with
      | Some (Opening cycle) =>
          if ok : bool
          then Some (set_churner i (Echoing cycle)
                 (mkChurning (next c) (opened c + 1) (closed c) (echoed c ++ [cycle]) (churners c)))
          else Some (set_churner i Rejected c)
      | _ => None
      end
  | EchoedBack i r =>
      match churners c !! i with
      | Some (Echoing cycle) =>
          Some (set_churner i (Closing (bool_decide (is_Some
            (check_reply r (λ m, number m =? cycle) "churn response mismatch")))) c)
      | _ => None
      end
  | Closed i ok =>
      match churners c !! i with
      | Some (Closing failed) =>
          Some (set_churner i (if failed || negb ok then Rejected else Claims)
            (mkChurning (next c) (opened c) (closed c + 1) (echoed c) (churners c)))
      | _ => None
      end
  end.

Inductive churns (config : Profile) : Churning → Prop :=
| churns_new : churns config (churn_new config)
| churns_step e c c' : churns config c → churn_step config e c = Some c' → churns config c'.

(** The cycles that wait for their connection, and the workers that have one. *)
Definition waiting_cycles (ps : list ChurnPhase) : list Z :=
  flat_map (λ p, match p with Opening cycle => [cycle] | _ => [] end) ps.
Definition connected (p : ChurnPhase) : bool := match p with Echoing _ | Closing _ => true | _ => false end.

Record ChurnInv (config : Profile) (c : Churning) : Prop := mkChurnInv {
  ci_workers : length (churners c) = churn_workers config;
  ci_next : 0 ≤ next c;
  ci_open : opened c = closed c + tally connected (churners c);
  ci_calls : opened c = zlen (echoed c);
  ci_returned : Returned ∈ churners c → churnCycles config ≤ next c;
  ci_cycles : ∃ lost, echoed c ++ waiting_cycles (churners c) ++ lost ≡ₚ seqZ 0 (Z.min (next c) (churnCycles config)) ∧
                (lost ≠ [] → Rejected ∈ churners c);
}.

Lemma waiting_insert ps i p q :
  ps !! i = Some p →
  waiting_cycles [p] ++ waiting_cycles (<[i:=q]> ps) ≡ₚ waiting_cycles [q] ++ waiting_cycles ps.
Proof.
  intros H. rewrite (insert_take_drop _ _ _ (lookup_lt_Some _ _ _ H)). rewrite <- (take_drop_middle _ _ _ H) at 3.
  unfold waiting_cycles. rewrite !flat_map_app. cbn. rewrite !app_nil_r. solve_Permutation.
Qed.

Lemma churn_inv_new config : 0 ≤ churnCycles config → ChurnInv config (churn_new config).
Proof.
  intros Hn. split; cbn [churn_new churners next opened closed echoed].
  - apply length_replicate.
  - done.
  - symmetry. apply tally_none. by intros p [-> _]%elem_of_replicate.
  - done.
  - by intros [? _]%elem_of_replicate.
  - exists []. split; [|done]. rewrite Z.min_l by done. rewrite app_nil_r. cbn.
    induction (churn_workers config) as [|k IH]; [done|exact IH].
Qed.

Lemma elem_insert {A} (ps : list A) i p q x : ps !! i = Some p → x ∈ <[i:=q]> ps → x = q ∨ x ∈ ps.
Proof.
  intros Hi [j Hj]%list_elem_of_lookup. destruct (decide (i = j)) as [<-|Hne].
  - left. rewrite list_lookup_insert_eq in Hj by (by eapply lookup_lt_Some). congruence.
  - right. rewrite list_lookup_insert_ne in Hj by done. by eapply list_elem_of_lookup_2.
Qed.
Lemma insert_keeps {A} (ps : list A) i p q x : ps !! i = Some p → x ≠ p → x ∈ ps → x ∈ <[i:=q]> ps.
Proof.
  intros Hi Hne [j Hj]%list_elem_of_lookup. apply list_elem_of_lookup. exists j.
  rewrite list_lookup_insert_ne; [done|]. congruence.
Qed.

(** A worker moves on: what is counted and what is collected. *)
Lemma churn_move config c i p q opens closes calls n :
  ChurnInv config c → churners c !! i = Some p → p ≠ Rejected → next c ≤ n →
  opened c + opens - (closed c + closes) = tally connected (churners c) - Z.b2z (connected p) + Z.b2z (connected q) →
  opens = zlen calls → (q = Returned → churnCycles config ≤ n) →
  (∃ lost, calls ++ waiting_cycles [q] ++ lost ≡ₚ
     waiting_cycles [p] ++ drop (Z.to_nat (Z.min (next c) (churnCycles config))) (seqZ 0 (Z.min n (churnCycles config))) ∧
     (lost ≠ [] → q = Rejected)) →
  ChurnInv config (set_churner i q (mkChurning n (opened c + opens) (closed c + closes) (echoed c ++ calls) (churners c))).
Proof.
  intros [Hlen Hn Ho Hec Hr (lost & Hc & Hl)] Hi Hp Hle Hconn Hcalls Hret (more & Hm & Hmore).
  split; cbn [set_churner churners next opened closed echoed].
  - by rewrite length_insert.
  - lia.
  - rewrite (tally_insert _ _ _ p) by done. lia.
  - rewrite zlen_app. lia.
  - intros [E|E]%(elem_insert _ _ _ _ _ Hi); [by apply Hret|]. specialize (Hr E). lia.
  - exists (lost ++ more). split.
    + pose proof (waiting_insert _ _ _ q Hi) as Hw.
      rewrite <- (take_drop (Z.to_nat (Z.min (next c) (churnCycles config))) (seqZ 0 (Z.min n (churnCycles config)))).
      assert (take (Z.to_nat (Z.min (next c) (churnCycles config))) (seqZ 0 (Z.min n (churnCycles config))) =
        seqZ 0 (Z.min (next c) (churnCycles config))) as ->.
      { unfold seqZ. rewrite <- fmap_take. f_equal. rewrite take_seq. f_equal. lia. }
      rewrite <- Hc. apply (Permutation_app_inv_l (waiting_cycles [p])).
      transitivity (echoed c ++ lost ++ (calls ++ waiting_cycles [q] ++ more) ++ waiting_cycles (churners c));
        [|rewrite Hm; solve_Permutation].
      transitivity (echoed c ++ calls ++ lost ++ more ++ (waiting_cycles [p] ++ waiting_cycles (<[i:=q]> (churners c))));
        [solve_Permutation|]. rewrite Hw. solve_Permutation.
    + intros H. destruct lost as [|x lost].
      * rewrite Hmore by done. apply list_elem_of_lookup. exists i. apply list_lookup_insert_eq. by eapply lookup_lt_Some.
      * eapply insert_keeps; [done|congruence|]. by apply Hl.
Qed.

Lemma new_cycles a n m :
  0 ≤ a → a ≤ n ≤ a + 1 →
  drop (Z.to_nat (Z.min a m)) (seqZ 0 (Z.min n m)) = if (a =? n) || (m <=? a) then [] else [a].
Proof.
  intros Ha Hn. destruct ((a =? n) || (m <=? a)) eqn:E.
  - apply drop_ge. rewrite length_seqZ. apply orb_true_iff in E as [E|E]; lia.
  - apply orb_false_iff in E as [E1 E2]. rewrite !Z.min_l by lia. assert (n = a + 1) as -> by lia.
    rewrite seqZ_app by lia. rewrite drop_app_ge; rewrite length_seqZ; [|lia]. rewrite Nat.sub_diag. done.
Qed.

Lemma churn_inv_step config e c c' : churn_step config e c = Some c' → ChurnInv config c → ChurnInv config c'.
Proof.
  intros H Hinv. pose proof (ci_next _ _ Hinv) as Hn.
  destruct e as [i|i ok|i r|i ok]; cbn [churn_step] in H; destruct (churners c !! i) as [p|] eqn:Hi; try done;
    destruct p as [|cycle|cycle|failed| |]; try done.
  - injection H as <-.
    pose proof (churn_move config c i Claims (if churnCycles config <=? next c then Returned else Opening (next c)) 0 0 []
      (next c + 1) Hinv Hi) as H.
    rewrite !Z.add_0_r, app_nil_r, new_cycles in H by lia. apply H; clear H; [done|lia|..].
    + destruct (_ <=? _); cbn; pose proof (ci_open _ _ Hinv); lia.
    + done.
    + destruct (_ <=? _) eqn:E; [lia|done].
    + exists []. split; [|done]. rewrite (proj2 (Z.eqb_neq _ _)) by lia. by destruct (_ <=? _).
  - pose proof (churn_move config c i (Opening cycle) (if ok then Echoing cycle else Rejected) (Z.b2z ok) 0
      (if ok then [cycle] else []) (next c) Hinv Hi) as Hm.
    rewrite Z.add_0_r, new_cycles, Z.eqb_refl in Hm by lia. pose proof (ci_open _ _ Hinv).
    destruct ok; injection H as <-; cbn [Z.b2z] in Hm; rewrite ?Z.add_0_r, ?app_nil_r in Hm; apply Hm; clear Hm; try done; try (cbn; lia).
    + by exists [].
    + by exists [cycle].
  - injection H as <-.
    pose proof (churn_move config c i (Echoing cycle) (Closing (bool_decide (is_Some
      (check_reply r (λ m, number m =? cycle) "churn response mismatch")))) 0 0 [] (next c) Hinv Hi) as Hm.
    rewrite !Z.add_0_r, app_nil_r, new_cycles, Z.eqb_refl in Hm by lia. pose proof (ci_open _ _ Hinv).
    apply Hm; clear Hm; try done; try (cbn; lia). by exists [].
  - injection H as <-.
    pose proof (churn_move config c i (Closing failed) (if failed || negb ok then Rejected else Claims) 0 1 [] (next c) Hinv Hi) as Hm.
    rewrite !Z.add_0_r, app_nil_r, new_cycles, Z.eqb_refl in Hm by lia. pose proof (ci_open _ _ Hinv).
    apply Hm; clear Hm; try done; destruct (failed || negb ok); try done; try (cbn; lia); by exists [].
Qed.

(** Churning makes every cycle exactly once.  Whatever connections do and however the workers
    interleave: at most four connections are open at a time, and only those of workers that use one; no
    cycle is made twice; and when all workers have returned, every cycle was made and every connection
    that came up was closed. *)
Theorem churn_exactly_once config c :
  0 ≤ churnCycles config → churns config c →
  opened c - closed c = tally connected (churners c) ∧ opened c - closed c ≤ 4 ∧
  NoDup (echoed c) ∧ Forall (λ cycle, 0 ≤ cycle < churnCycles config) (echoed c) ∧
  (Forall (λ p, p = Returned) (churners c) →
     echoed c ≡ₚ seqZ 0 (churnCycles config) ∧ opened c = churnCycles config ∧ closed c = churnCycles config).
Proof.
  intros Hn Hc. assert (ChurnInv config c) as [Hlen H0 Ho Hec Hr (lost & Hp & Hl)].
  { induction Hc; [by apply churn_inv_new|]. by eapply churn_inv_step. }
  pose proof (tally_bounds connected (churners c)) as Ht. unfold churn_workers in Hlen.
  split_and!; [lia|unfold zlen in Ht; lia|..].
  - assert (NoDup (echoed c ++ waiting_cycles (churners c) ++ lost)) as Hd by (rewrite Hp; apply NoDup_seqZ).
    by apply list.NoDup_app in Hd as [? _].
  - apply list.Forall_forall. intros x Hx. assert (x ∈ seqZ 0 (Z.min (next c) (churnCycles config))) as E.
    { rewrite <- Hp. set_solver. } apply elem_of_seqZ in E. lia.
  - intros Hall. rewrite list.Forall_forall in Hall.
    assert (waiting_cycles (churners c) = []) as Ew.
    { clear -Hall. induction (churners c) as [|p ps IH]; [done|]. cbn. rewrite (Hall p) by set_solver. apply IH. set_solver. }
    assert (lost = []) as ->. { destruct lost; [done|]. specialize (Hall _ (Hl ltac:(done))). done. }
    assert (Returned ∈ churners c) as Hret.
    { destruct (churners c) as [|p ps] eqn:E; [cbn in Hlen; lia|]. rewrite <- (Hall p); set_solver. }
    rewrite Ew, Z.min_r in Hp by (by apply Hr). cbn in Hp. rewrite app_nil_r in Hp. split; [done|].
    assert (tally connected (churners c) = 0) as Et by (apply tally_none; intros p Hin; by rewrite (Hall p Hin)).
    assert (zlen (echoed c) = churnCycles config) as El; [|lia].
    unfold zlen. rewrite Hp, length_seqZ. lia.
Qed.

(** ** Polling for recovery *)

Section recover.
Context (thresholds : SmokeThresholds) (baseline : RecoverySnapshot).

(** How often [recover] polls, over what it observes: the clock at the head of its loop, and the sample
    it takes a second later if it goes on.  [None]: the observations end too early. *)
Fixpoint recover_loop (deadline : Q) (result : RecoverySnapshot) (seen : list (Q * RecoverySnapshot)) : option nat :=
  match seen with
  | [] => None
  | (now, polled) :: seen =>
      if negb (Qle_bool deadline now) && negb (bool_decide (length (recoveryFailures baseline result 0 0 thresholds) = 0%nat))
      then S <$> recover_loop deadline polled seen
      else Some 0%nat
  end.
Definition recover (config : Profile) (started : Q) : RecoverySnapshot → list (Q * RecoverySnapshot) → option nat :=
  recover_loop (started + inject_Z (recoverySeconds config) * 1000)%Q.

(** The loop sleeps for a second, so its clock does not come earlier. *)
Fixpoint spaced (earliest : Q) (seen : list (Q * RecoverySnapshot)) : Prop :=
  match seen with [] => True | (now, _) :: seen => (earliest <= now)%Q ∧ spaced (now + 1000)%Q seen end.

(** Polling ends: there are at most as many polls as seconds to recover in. *)
Lemma recover_ends config started result seen :
  0 ≤ recoverySeconds config → spaced started seen → recoverySeconds config < zlen seen →
  ∃ k, recover config started result seen = Some k ∧ Z.of_nat k ≤ recoverySeconds config.
Proof.
  unfold recover. set (deadline := (started + inject_Z (recoverySeconds config) * 1000)%Q).
  assert (deadline <= started + inject_Z (recoverySeconds config) * 1000)%Q as Hd by apply Qle_refl.
  clearbody deadline. generalize dependent (recoverySeconds config). revert started result.
  induction seen as [|[now polled] seen IH]; intros started result n Hd Hn Hs Hl; [unfold zlen in Hl; cbn in Hl; lia|].
  cbn [recover_loop]. destruct Hs as [Hnow Hs]. destruct (_ && _) eqn:E; [|exists 0%nat; split; [done|lia]].
  apply andb_true_iff in E as [E%negb_true_iff _].
  assert (0 < n) as Hpos.
  { destruct (Z.eq_dec n 0) as [->|]; [|lia]. exfalso. assert (Qle_bool deadline now = true) as F; [|congruence].
    apply Qle_bool_iff. change (inject_Z 0) with 0%Q in Hd. rewrite Qmult_0_l, Qplus_0_r in Hd. by eapply Qle_trans. }
  rewrite zlen_cons in Hl. destruct (IH (now + 1000)%Q polled (n - 1)) as (k & -> & Hk); [|lia|done|lia|].
  - eapply Qle_trans; [exact Hd|]. replace (n - 1) with (n + - 1) by lia. rewrite inject_Z_plus.
    change (inject_Z (- 1)) with (- (1))%Q. lra.
  - exists (S k). split; [done|lia].
Qed.
End recover.

(** ** The stages of a run *)

Lemma bind_Ok {A B} (r : result SetupError A) (f : A → result SetupError B) b :
  (r ≫= f) = Ok b → ∃ a, r = Ok a ∧ f a = Ok b.
Proof. destruct r as [a|e]; [|done]. by exists a. Qed.
Ltac open_setup H :=
  match type of H with
  | (_ ≫= _) = Ok _ => let a := fresh "n" in let E := fresh "E" in apply bind_Ok in H as (a & E & H); open_setup H
  | _ => idtac
  end.

Lemma number_of_bounds env name fallback minimum n :
  number_of env name fallback minimum = Ok n → minimum ≤ fallback → minimum ≤ n.
Proof.
  unfold number_of. destruct (envInteger _ _ _ _) as [m|] eqn:E; [|done]. intros [= <-] Hle.
  destruct (env (js name)) as [[|u text]|]; [by injection E as <-| |by injection E as <-].
  by eapply envInteger_bounds in E as [? _].
Qed.

(** What a run is configured with: at least one tunnel carries load, and no limit is negative. *)
Lemma setup_bounds argument env resolved config thresholds paths :
  setup argument env resolved = Ok (config, thresholds, paths) →
  1 ≤ concurrency config ∧ 0 ≤ idleTunnels config < tunnels config ∧ 1 ≤ durationSeconds config ∧
  0 ≤ churnCycles config ∧ 1 ≤ recoverySeconds config ∧ 0 ≤ maxErrors thresholds.
Proof.
  unfold setup. intros H. apply bind_Ok in H as (name & _ & H). cbv zeta in H.
  set (defaults := if bool_decide _ then _ else _) in H.
  assert (1 ≤ concurrency defaults ∧ 0 ≤ idleTunnels defaults ∧ 1 ≤ durationSeconds defaults ∧ 0 ≤ churnCycles defaults ∧
    1 ≤ recoverySeconds defaults) as Hdef by (unfold defaults; destruct (bool_decide _); cbn; lia).
  clearbody defaults. open_setup H. injection H as -> -> ->. unfold read_config in E. unfold read_thresholds in E0.
  open_setup E. open_setup E0. destruct (_ <=? _) eqn:Hle in E; [done|]. injection E as <-. injection E0 as <-. cbn.
  repeat match goal with H : number_of _ _ _ _ = Ok _ |- _ => apply number_of_bounds in H; [|lia] end. lia.
Qed.

Lemma distinct_sorted a b c : a ≤ b ≤ c → distinct [a; b; c] = a :: (if a =? b then [] else [b]) ++ (if b =? c then [] else [c]).
Proof.
  intros H. unfold distinct. cbn [distinct_from]. rewrite decide_False by set_solver.
  destruct (Z.eqb_spec a b) as [<-|Hab].
  - rewrite decide_True by set_solver. destruct (Z.eqb_spec a c) as [<-|]; [by rewrite decide_True by set_solver|].
    rewrite decide_False; [done|set_solver].
  - rewrite decide_False by set_solver. destruct (Z.eqb_spec b c) as [<-|]; [by rewrite decide_True by set_solver|].
    rewrite decide_False; [done|]. set_unfold. lia.
Qed.

(** The load rises from stage to stage up to the configured one, where the exercises run; the stages
    share the time. *)
Lemma concurrency_stages config :
  1 ≤ concurrency config →
  StronglySorted Z.lt (concurrencyLevels config) ∧ list.last (concurrencyLevels config) = Some (concurrency config) ∧
  (∀ level clients, level ∈ concurrencyLevels config → exercises config level clients ≠ [] ↔ level = concurrency config) ∧
  (stageSeconds config * inject_Z (zlen (concurrencyLevels config)) == inject_Z (durationSeconds config))%Q.
Proof.
  intros Hc. unfold stageSeconds, concurrencyLevels, ceil_div. set (n := concurrency config) in *.
  assert (1 ≤ Z.max 1 (- (- n / 4)) ≤ n) as Hq.
  { assert (- n ≤ - n / 4); [|lia]. apply Z.div_le_lower_bound; lia. }
  set (q := Z.max 1 _) in *. clearbody q. rewrite distinct_sorted by done. split_and!.
  - destruct (Z.eqb_spec 1 q), (Z.eqb_spec q n); cbn; repeat (constructor; try lia).
  - destruct (Z.eqb_spec 1 q), (Z.eqb_spec q n); cbn; f_equal; lia.
  - intros level clients _. unfold exercises. fold n. destruct (Z.eqb_spec level n); split; done || congruence.
  - field. destruct (1 =? q), (q =? n); cbn; discriminate.
Qed.
