(* ===== verification/JsValues.v ===== *)
(** * JsValues: parsed JSON in the hands of a script

    What the release scripts do with values that [JSON.parse] returned: reading and setting
    properties, comparing, testing strings.  [None] is a thrown exception; which one, and its
    message, is left out.  The names the scripts read are not inherited from [Object.prototype]. *)
From stdpp Require Import pretty.
From S2P Require Import Prelude Regex Sort Decimal Json JsText.
Local Open Scope Z_scope.

(** ** Failing *)

(** [assert.ok(b)]. *)
Definition assert (b : bool) : option unit := if b then Some tt else None.

Lemma assert_Some {A} b (k : option A) x : (assert b;; k) = Some x ↔ b = true ∧ k = Some x.
Proof. destruct b; cbn; naive_solver. Qed.

Lemma assert_true b u : assert b = Some u ↔ b = true.
Proof. destruct b, u; cbn; naive_solver. Qed.

(** ** Properties *)

(** [v[k]]. *)
Definition prop (v : json) (k : jsstring) : option json :=
  match v with
  | Null | Undefined => None
  | Obj o => Some (default Undefined (own o k))
  | _ => Some Undefined
  end.
Definition get (v : json) (k : string) : option json := prop v (js k).
(** [v?.k]. *)
Definition get' (v : json) (k : string) : json := default Undefined (get v k).

(** [v[i]] for an index. *)
Definition item (v : json) (i : nat) : option json :=
  match v with
  | Arr l => Some (default Undefined (l !! i))
  | Str s => Some (match s !! i with Some u => Str [u] | None => Undefined end)
  | _ => prop v (js (pretty i))
  end.

(** [v.length]. *)
Definition length_of (v : json) : option json :=
  match v with
  | Arr l => Some (Num (Integer (zlen l)))
  | Str s => Some (Num (Integer (zlen s)))
  | _ => get v "length"
  end.

(** [v ?? null]. *)
Definition or_null (v : json) : json := match v with Undefined => Null | v => v end.

(** [v[k] = x] in strict mode; a named property of an array is no JSON data. *)
Definition set_prop (v : json) (k : jsstring) (x : json) : option json :=
  match v with
  | Obj o => Some (Obj (put o k x))
  | Arr l => Some (Arr l)
  | _ => None
  end.

(** [Object.keys(v)]. *)
Definition object_keys (v : json) : option (list jsstring) :=
  match v with
  | Null | Undefined => None
  | Obj o => Some (map fst o)
  | Arr l => Some (map (λ i, js (pretty i)) (seq 0 (length l)))
  | Str s => Some (map (λ i, js (pretty i)) (seq 0 (length s)))
  | _ => Some []
  end.
(** [Object.entries(v)]. *)
Definition object_entries (v : json) : option (list (jsstring * json)) :=
  match v with
  | Null | Undefined => None
  | Obj o => Some o
  | Arr l => Some (zip (map (λ i, js (pretty i)) (seq 0 (length l))) l)
  | Str s => Some (zip (map (λ i, js (pretty i)) (seq 0 (length s))) (map (λ u, Str [u]) s))
  | _ => Some []
  end.

(** ** Comparing *)

(** [assert.equal] of the strict module, and [===]: two parsed objects are never the same.  NaN, on
    which the two differ, is no JSON data, and neither is [-0] where they are used. *)
Definition same (a b : json) : bool :=
  match a, b with
  | Null, Null | Undefined, Undefined => true
  | Bool x, Bool y => eqb x y
  | Num (Integer x), Num (Integer y) => x =? y
  | Num (Frac x), Num (Frac y) | Num (NotFinite x), Num (NotFinite y) => bool_decide (x = y)
  | Num NegZero, Num NegZero => true
  | Str x, Str y => bool_decide (x = y)
  | _, _ => false
  end.

(** [assert.deepEqual] of the strict module; the order of properties does not matter. *)
Fixpoint deep_equal (a b : json) : bool :=
  match a, b with
  | Arr l, Arr m =>
      (fix go l m := match l, m with
                     | [], [] => true
                     | x :: l, y :: m => deep_equal x y && go l m
                     | _, _ => false
                     end) l m
  | Obj o, Obj p =>
      Nat.eqb (length o) (length p) &&
      (fix go o := match o with
                   | [] => true
                   | (k, v) :: o => match own p k with Some w => deep_equal v w | None => false end && go o
                   end) o
  | _, _ => same a b
  end.

Definition strings (l : list jsstring) : json := Arr (map Str l).

(** [Array.prototype.sort] without a comparison function, on strings. *)
Definition sort_strings (l : list jsstring) : list jsstring := sort_by compare l.

Definition as_string (v : json) : option jsstring := match v with Str s => Some s | _ => None end.
Definition as_array (v : json) : option (list json) := match v with Arr l => Some l | _ => None end.

Definition truthy (v : json) : bool :=
  match v with
  | Undefined | Null => false
  | Bool b => b
  | Num (Integer z) => negb (z =? 0)
  | Num (Frac _) => true
  | Num NegZero => false
  | Num (NotFinite text) => negb (bool_decide (text = js "NaN"))
  | Str s => negb (bool_decide (s = []))
  | Arr _ | Obj _ | Opaque => true
  end.

(** [assert.match(v, pattern)]. *)
Definition matched (r : re) (v : json) : bool := match v with Str s => test r s | _ => false end.

(** ** Lemmas *)

Lemma own_here {A} k (v : A) o : own ((k, v) :: o) k = Some v.
Proof. cbn. by rewrite decide_True. Qed.
Lemma own_there {A} k k' (v : A) o : k' ≠ k → own ((k', v) :: o) k = own o k.
Proof. intros H. cbn. by rewrite decide_False. Qed.

Lemma get_obj o k : get (Obj o) k = Some (default Undefined (own o (js k))).
Proof. done. Qed.

(** Reading a property of an object whose properties are written out. *)
Ltac look_up :=
  rewrite ?get_obj;
  repeat first [rewrite own_here | rewrite own_there by (vm_compute; discriminate)];
  cbn [from_option Datatypes.id].

Lemma same_refl_str s : same (Str s) (Str s) = true.
Proof. cbn. by apply bool_decide_eq_true_2. Qed.
Lemma same_str v s : same v (Str s) = true ↔ v = Str s.
Proof.
  split; [|intros ->; apply same_refl_str]. destruct v as [| |n|t| | | |]; try done; [by destruct n|].
  cbn. by intros ->%bool_decide_eq_true.
Qed.
Lemma same_bool v b : same v (Bool b) = true ↔ v = Bool b.
Proof.
  split; [|intros ->; by destruct b]. destruct v as [|c|n| | | | |]; try done; [|by destruct n].
  cbn. by intros ->%eqb_prop.
Qed.
Lemma same_int v z : same v (Num (Integer z)) = true ↔ v = Num (Integer z).
Proof.
  split; [|intros ->; apply Z.eqb_refl]. destruct v as [| |n| | | | |]; try done. destruct n; try done.
  cbn. by intros ->%Z.eqb_eq.
Qed.
Lemma same_sym a b : same a b = same b a.
Proof.
  destruct a as [|x|n|s| | | |], b as [|y|m|t| | | |]; try done; try (by destruct n); try (by destruct m); cbn.
  - by destruct x, y.
  - destruct n, m; try done; [apply Z.eqb_sym|by apply bool_decide_ext..].
  - by apply bool_decide_ext.
Qed.
Lemma matched_str r v : matched r v = true ↔ ∃ s, v = Str s ∧ test r s = true.
Proof. destruct v; cbn; naive_solver. Qed.

Lemma deep_strings l v : deep_equal v (strings l) = true ↔ v = strings l.
Proof.
  destruct v as [|b|n|s|m|o| |]; try (by destruct n || done).
  unfold strings. revert m. induction l as [|x l IH]; intros [|y m]; cbn; try done.
  split.
  - intros [H1 H2]%andb_true_iff. f_equal. change (deep_equal (Arr m) (Arr (map Str l)) = true) in H2.
    apply IH in H2. injection H2 as ->. f_equal. destruct y as [| |n'|t| | | |]; try done; [by destruct n'|].
    by apply bool_decide_eq_true in H1 as ->.
  - intros [= -> ->]. cbn. rewrite bool_decide_eq_true_2 by done. cbn.
    by apply (proj2 (IH (map Str l))).
Qed.
