(* ===== verification/Package.v ===== *)
(** * Package: what may be published

    [scripts/package-audit-lib.mjs], [scripts/release-provenance-lib.mjs] and
    [scripts/verify-tarball.mjs]: which files a package may hold, whether its source maps lead to
    files it ships, which commit it was made from, and the audit report that states all of it.
    Programs that the script runs ([git], [npm], [tar]) and the file system are observations
    ([Packing]); [sha256] and [sha512] of [node:crypto] are parameters. *)
From stdpp Require Import pretty.
From S2P Require Import Prelude Regex Sort Decimal Json JsText JsValues.
Local Open Scope Z_scope.

(** ** The list of files *)

Definition requiredFiles : list jsstring :=
  map js ["package.json"; "README.md"; "RETRIES.md"; "LICENSE"; "licenses/h2ts-LICENSE-MIT";
    "licenses/h2ts-NOTICE.md"; "licenses/go-LICENSE"; "licenses/protobuf-LICENSE"; "licenses/connect-LICENSE";
    "contracts/runtime-graph-v1.md"; "contracts/runtime-graph-v1.schema.json";
    "contracts/runtime-graph-v1.conformance.json"; "contracts/runtime-graph-v1.conformance.proto"] ++
  (name ← map js ["index"; "raw"; "codegen"];
   map (λ ext, js "package-dist/" ++ name ++ ext) (map js [".js"; ".js.map"; ".d.ts"; ".d.ts.map"])).

Definition SLASH : Z := 0x2F.
Definition BACKSLASH : Z := 0x5C.

(** [[\w/-]]. *)
Definition name_char (u : Z) : bool := lower u || upper u || digit u || one_of "_/-" u.
Definition DIST_PATTERN : re :=
  literal chr (js "package-dist/") (Seq (Many name_char 1 None) (Seq (Class (chr 0x2E))
    (Alt (literal chr (js "js") End_) (Alt (literal chr (js "js.map") End_)
      (Alt (literal chr (js "d.ts") End_) (literal chr (js "d.ts.map") End_)))))).
Definition SOURCES_PATTERN : re :=
  literal chr (js "package-sources/") (Seq (Many name_char 1 None) (literal chr (js ".ts") End_)).
Definition allowed (path : jsstring) : bool :=
  bool_decide (path ∈ requiredFiles) || test DIST_PATTERN path || test SOURCES_PATTERN path.

(** A pattern that begins with [(?:^|\/)]. *)
Definition at_segment (r : re) (path : jsstring) : bool :=
  test r path || finds (Seq (Class (chr SLASH)) r) path.
Definition DEMO_PATTERN : re :=
  let tail := Alt (Class (one_of "._/")) End_ in
  Alt (literal chr (js "demo") tail) (literal chr (js "verify") tail).
Definition GEN_PATTERN : re := literal chr (js "gen") (Class (chr SLASH)).
Definition leaked (path : jsstring) : bool := at_segment DEMO_PATTERN path || at_segment GEN_PATTERN path.

Definition unsafe (path : jsstring) : bool :=
  includes BACKSLASH path || starts_with (js "/") path || bool_decide (js ".." ∈ split_on SLASH path).

Definition dist_js (path : jsstring) : bool := starts_with (js "package-dist/") path && ends_with (js ".js") path.
(** The declaration and the maps of a compiled module. *)
Definition siblings (path : jsstring) : list jsstring :=
  let stem := take (length path - 3) path in
  [path ++ js ".map"; stem ++ js ".d.ts"; stem ++ js ".d.ts.map"].

(** The result is the set of the paths; a list stands for it. *)
Definition auditFileList (paths : list jsstring) : option (list jsstring) :=
  assert (bool_decide (NoDup paths));;
  assert (forallb (λ path, negb (unsafe path) && allowed path && negb (leaked path)) paths);;
  assert (forallb (λ path, bool_decide (path ∈ paths)) requiredFiles);;
  assert (forallb (λ path, forallb (λ sibling, bool_decide (sibling ∈ paths)) (siblings path)) (filter (λ path, dist_js path = true) paths));;
  Some paths.

(** ** Paths, as [node:path] computes them *)

Definition isAbsolute (path : jsstring) : bool := starts_with (js "/") path.

Definition join_with (c : Z) (parts : list jsstring) : jsstring :=
  match parts with [] => [] | part :: parts => fold_left (λ acc p, acc ++ c :: p) parts part end.

(** [.] and empty parts disappear; [..] removes the part before it, if there is one that is not
    [..] itself.  [kept] is in reverse. *)
Fixpoint normalize_parts (above : bool) (parts kept : list jsstring) : list jsstring :=
  match parts with
  | [] => rev kept
  | part :: parts =>
      if bool_decide (part = []) || bool_decide (part = js ".") then normalize_parts above parts kept
      else if bool_decide (part = js "..") then
        match kept with
        | last :: kept' =>
            if bool_decide (last = js "..") then normalize_parts above parts (if above then part :: kept else kept)
            else normalize_parts above parts kept'
        | [] => normalize_parts above parts (if above then [part] else [])
        end
      else normalize_parts above parts (part :: kept)
  end.
Definition normalize (path : jsstring) : jsstring :=
  match path with
  | [] => js "."
  | _ =>
      let absolute := isAbsolute path in
      let trailing := ends_with (js "/") path in
      match join_with SLASH (normalize_parts (negb absolute) (split_on SLASH path) []) with
      | [] => if absolute then js "/" else if trailing then js "./" else js "."
      | p => (if absolute then js "/" else []) ++ p ++ (if trailing then js "/" else [])
      end
  end.
Definition path_join (a b : jsstring) : jsstring :=
  match filter (λ p, p ≠ []) [a; b] with
  | [] => js "."
  | parts => normalize (join_with SLASH parts)
  end.

(** The last slash that a part follows; [i] positions are left to look at. *)
Fixpoint dir_end (path : jsstring) (i : nat) (seen : bool) : option nat :=
  match i with
  | O => None
  | S i' =>
      if bool_decide (path !! i = Some SLASH)
      then if seen then Some i else dir_end path i' seen
      else dir_end path i' true
  end.
Definition dirname (path : jsstring) : jsstring :=
  match path with
  | [] => js "."
  | _ =>
      let root := isAbsolute path in
      match dir_end path (length path - 1) false with
      | None => if root then js "/" else js "."
      | Some e => if root && Nat.eqb e 1 then js "//" else take e path
      end
  end.

(** ** Source maps *)

Definition map_target (path : jsstring) (files : list jsstring) (source : json) : option jsstring :=
  s ← as_string source;
  assert (negb (includes BACKSLASH s) && negb (isAbsolute s));;
  let target := normalize (path_join (dirname path) s) in
  assert (starts_with (js "package-sources/") target && bool_decide (target ∈ files));;
  Some target.

Definition auditMap (path : jsstring) (m : json) (files : list jsstring) : option (list jsstring) :=
  version ← get m "version";
  assert (same version (Num (Integer 3)));;
  root ← get m "sourceRoot";
  assert (negb (truthy root));;
  sources ← get m "sources";
  l ← as_array sources;
  assert (0 <? zlen l);;
  mapM (map_target path files) l.

(** ** Where the source came from *)

(** [captureSource(run)]: [run] is the trimmed output of [git], [None] if it failed. *)
Definition captureSource (run : list string → option jsstring) : json :=
  match run ["rev-parse"; "HEAD"], run ["rev-parse"; "HEAD^{tree}"], run ["status"; "--porcelain"] with
  | Some revision, Some tree, Some status =>
      Obj [(js "revision", Str revision); (js "tree", Str tree); (js "dirty", Bool (0 <? zlen status))]
  | _, _, _ => Null
  end.

Definition sourceProvenance (before after : json) : json :=
  let matching := truthy before && truthy after && same (get' before "revision") (get' after "revision")
                  && same (get' before "tree") (get' after "tree") in
  Obj [(js "revision", or_null (get' before "revision")); (js "tree", or_null (get' before "tree"));
       (js "afterRevision", or_null (get' after "revision")); (js "afterTree", or_null (get' after "tree"));
       (js "dirtyBefore", or_null (get' before "dirty")); (js "dirtyAfter", or_null (get' after "dirty"));
       (js "matchingSnapshots", Bool matching);
       (js "verifiedClean", Bool (matching && same (get' before "dirty") (Bool false)
                                  && same (get' after "dirty") (Bool false)))].

(** ** The audit of a packed archive *)

(** An archive: its bytes, what [tar] lists of it, and the files it unpacks to. *)
Record Archive := mkArchive {
  a_bytes : bytes;
  a_listing : jsstring;                      (* [tar -tzf] *)
  a_verbose : jsstring;                      (* [tar -tvzf] *)
  a_json : jsstring → option json;           (* a file, parsed *)
  a_text : jsstring → option jsstring;
}.

(** What [verify-tarball.mjs] finds. *)
Record Packing := mkPacking {
  k_npm_execpath : jsstring;
  k_require_clean : bool;
  k_git_before : list string → option jsstring;
  k_git_after : list string → option jsstring;
  k_metadata : json;                         (* the first package [npm pack --json] reports *)
  k_archive : Archive;
  k_node : jsstring;
  k_npm : jsstring;
  k_typescript : json;                       (* its [package.json] *)
  k_lock : bytes;                            (* [package-lock.json] *)
  k_ci : json;
}.

(** The files of a listing: [text.trim().split(/\r?\n/).filter(...)] without ["package/"]. *)
Definition archive_paths (listing : jsstring) : option (list jsstring) :=
  mapM (λ path, assert (starts_with (js "package/") path);; Some (drop 8 path))
    (filter (λ path, ends_with (js "/") path = false) (split_lines (trim listing))).

Definition file_path (file : json) : option jsstring := path ← get file "path"; as_string path.

(** No links or special files. *)
Definition regular (verbose : jsstring) : bool :=
  forallb (λ line, match line with u :: _ => one_of "d-" u | [] => false end) (split_lines (trim verbose)).

Definition strip_dot (target : jsstring) : jsstring := if starts_with (js "./") target then drop 2 target else target.
Definition export_resolves (files : list jsstring) (entry : json) : option unit :=
  types ← get entry "types";
  t ← as_string types;
  assert (bool_decide (strip_dot t ∈ files));;
  main ← get entry "import";
  m ← as_string main;
  assert (bool_decide (strip_dot m ∈ files)).

(** The sources of one map, each compared with the text that the map embeds, if it does. *)
Definition check_contents (a : Archive) (m : json) (targets : list jsstring) : option unit :=
  contents ← get m "sourcesContent";
  mapM (λ '(i, target),
    source ← a_text a target;
    if truthy contents
    then embedded ← item contents i; assert (same embedded (Str source))
    else Some tt) (zip (seq 0 (length targets)) targets);; Some tt.
Definition check_map (a : Archive) (files : list jsstring) (path : jsstring) : option (list jsstring) :=
  m ← a_json a path;
  targets ← auditMap path m files;
  check_contents a m targets;;
  Some targets.

Section digests.
Context (sha256_hex sha512_base64 : bytes → jsstring).

Definition integrity_of (b : bytes) : jsstring := js "sha512-" ++ sha512_base64 b.

(** [metadata.filename.replace(/\.tgz$/, "-" + sha256.slice(0, 12) + ".tgz")]. *)
Definition artifact_name (filename sha256 : jsstring) : jsstring :=
  if ends_with (js ".tgz") filename
  then take (length filename - 4) filename ++ js "-" ++ take 12 sha256 ++ js ".tgz" else filename.

Definition export_names : list jsstring := map js ["."; "./codegen"; "./raw"].

(** [package-audit.json]. *)
Definition audit_report (name version : json) (artifact sha256 integrity : jsstring) (size : Z) (unpacked : json)
    (count : Z) (source : json) (node npm : jsstring) (typescript : json) (lock_sha256 : jsstring)
    (ci files : json) : json :=
  Obj [(js "name", name); (js "version", version); (js "artifact", Str artifact); (js "sha256", Str sha256);
    (js "integrity", Str integrity); (js "compressedBytes", Num (Integer size));
    (js "unpackedBytes", unpacked); (js "fileCount", Num (Integer count));
    (js "mapsAndSourcesVerified", Bool true); (js "source", source);
    (js "toolchain", Obj [(js "node", Str node); (js "npm", Str npm); (js "typescript", typescript)]);
    (js "packageLockSha256", Str lock_sha256); (js "ci", ci); (js "files", files)].

(** The report, and the archive that is copied to the output directory under the name in it. *)
Definition verify_tarball (k : Packing) : option (json * jsstring * Archive) :=
  assert (negb (bool_decide (k_npm_execpath k = [])));;
  let before := captureSource (k_git_before k) in
  assert (negb (k_require_clean k) || same (get' before "dirty") (Bool false));;
  let a := k_archive k in
  filename ← get (k_metadata k) "filename" ≫= as_string;
  metadata_files ← get (k_metadata k) "files";
  listed ← as_array metadata_files ≫= mapM file_path;
  let paths := sort_strings listed in
  files ← auditFileList paths;
  actual ← archive_paths (a_listing a);
  assert (bool_decide (sort_strings actual = paths));;
  assert (regular (a_verbose a));;
  manifest ← a_json a (js "package.json");
  name ← get manifest "name";
  assert (same name (Str (js "@dunkymole/grpc-bridge")));;
  license ← get manifest "license";
  assert (same license (Str (js "MIT")));;
  exports ← get manifest "exports";
  keys ← object_keys exports;
  assert (bool_decide (sort_strings keys = export_names));;
  entries ← object_entries exports;
  mapM (λ e, export_resolves files (snd e)) entries;;
  targets ← mapM (check_map a files) (filter (λ p, ends_with (js ".map") p = true) paths);
  assert (forallb (λ p, bool_decide (p ∈ mjoin targets)) (filter (λ p, starts_with (js "package-sources/") p = true) paths));;
  let sha256 := sha256_hex (a_bytes a) in
  let integrity := integrity_of (a_bytes a) in
  packed ← get (k_metadata k) "integrity";
  assert (same packed (Str integrity));;
  let source := sourceProvenance before (captureSource (k_git_after k)) in
  assert (negb (k_require_clean k) || same (get' source "verifiedClean") (Bool true));;
  version ← get manifest "version";
  unpacked ← get (k_metadata k) "unpackedSize";
  typescript ← get (k_typescript k) "version";
  let artifact := artifact_name filename sha256 in
  Some (audit_report name version artifact sha256 integrity (zlen (a_bytes a)) unpacked (zlen paths) source
          (k_node k) (k_npm k) typescript (sha256_hex (k_lock k)) (k_ci k) metadata_files,
        artifact, a).
End digests.
