(* ===== verification/PackageCorrect.v ===== *)
(** * PackageCorrect: which packages pass the audit

    The files of an audited package, said without patterns; what a clean source report means; and
    that the targets of an audited source map are files of the package. *)
From S2P Require Import Prelude Regex Sort Decimal Json JsText JsValues Package.
Local Open Scope Z_scope.

(** ** The list of files *)

(** A path below [package-dist/] or [package-sources/], without its extension. *)
Definition module_name (w : jsstring) : Prop := w ≠ [] ∧ Forall (λ u, name_char u = true) w.
Definition compiled : list jsstring := map js [".js"; ".js.map"; ".d.ts"; ".d.ts.map"].
Definition publishable (path : jsstring) : Prop :=
  path ∈ requiredFiles ∨
  (∃ w ext, module_name w ∧ ext ∈ compiled ∧ path = js "package-dist/" ++ w ++ ext) ∨
  (∃ w, module_name w ∧ path = js "package-sources/" ++ w ++ js ".ts").

(** Some part of the path is [demo] or [verify], perhaps with an extension, or a directory [gen]. *)
Definition is_demo (path : jsstring) : Prop :=
  ∃ before name rest, path = before ++ name ++ rest ∧ (before = [] ∨ list.last before = Some SLASH) ∧
    ((name = js "demo" ∨ name = js "verify") ∧
       (rest = [] ∨ ∃ u rest', rest = u :: rest' ∧ u ∈ js "._/") ∨ name = js "gen/").

Lemma chr_list (s a : jsstring) : Forall2 (λ c u, chr c u = true) s a ↔ a = s.
Proof.
  split; [|intros ->; induction s; constructor; [apply Z.eqb_refl|done]].
  induction 1 as [|c u s a H _ ->]; [done|]. unfold chr in H. apply Z.eqb_eq in H as ->. done.
Qed.
Lemma parses_text s r a rest g : parses (literal chr s r) a rest g ↔ ∃ a', a = s ++ a' ∧ parses r a' rest g.
Proof.
  rewrite parses_literal. setoid_rewrite chr_list. split.
  - intros (? & a' & -> & -> & H). by exists a'.
  - intros (a' & -> & H). by exists s, a'.
Qed.
Lemma parses_end a rest g : parses End_ a rest g ↔ a = [] ∧ rest = [] ∧ g = [].
Proof. done. Qed.

Lemma parses_chars p r a rest g :
  parses (Seq (Many p 1 None) r) a rest g ↔
  ∃ w a', a = w ++ a' ∧ w ≠ [] ∧ Forall (λ u, p u = true) w ∧ parses r a' rest g.
Proof.
  cbn [parses]. split.
  - intros (w & a' & ? & g2 & -> & -> & (Hf & Hl & _ & ->) & H). exists w, a'. split_and!; [done| |done..].
    by destruct w; [cbn in Hl; lia|].
  - intros (w & a' & -> & Hne & Hf & H). exists w, a', [], g. split_and!; try done. destruct w; [done|cbn; lia].
Qed.

Lemma test_dist path :
  test DIST_PATTERN path = true ↔ ∃ w ext, module_name w ∧ ext ∈ compiled ∧ path = js "package-dist/" ++ w ++ ext.
Proof.
  rewrite test_spec. unfold DIST_PATTERN. split.
  - intros (a & rest & g & -> & H). apply parses_text in H as (a' & -> & H).
    apply parses_chars in H as (w & a2 & -> & Hne & Hf & H). destruct H as (x & y & g1 & g2 & -> & -> & (c & -> & Hc & ->) & H).
    unfold chr in Hc. apply Z.eqb_eq in Hc as ->.
    assert (∃ e, 0x2E :: e ∈ compiled ∧ y = e ∧ rest = []) as (e & He & -> & ->).
    { destruct H as [H|[H|[H|H]]]; apply parses_text in H as (y' & -> & -> & -> & _); rewrite app_nil_r;
        eexists; (split_and!; [|done|done]); unfold compiled; set_solver. }
    exists w, (0x2E :: e). split_and!; [done|done|]. by rewrite app_nil_r.
  - intros (w & ext & [Hne Hf] & Hext & ->). exists (js "package-dist/" ++ w ++ ext), [], []. split; [by rewrite app_nil_r|].
    apply parses_text. eexists. split; [done|]. apply parses_chars. exists w, ext. split_and!; [done..|].
    assert (∃ e, ext = 0x2E :: e ∧ (e = js "js" ∨ e = js "js.map" ∨ e = js "d.ts" ∨ e = js "d.ts.map")) as (e & -> & He).
    { unfold compiled in Hext. cbn [map] in Hext. rewrite !elem_of_cons in Hext. destruct Hext as [->|[->|[->|[->|H]]]]; [..|by apply elem_of_nil in H];
        eexists; (split; [done|]); auto. }
    exists [0x2E], e, [], []. split_and!; [done..|by eexists|]. cbn [parses]. rewrite !parses_text.
    destruct He as [->|[->|[->| ->]]]; [left|right;left|right;right;left|right;right;right]; exists []; by rewrite app_nil_r.
Qed.

Lemma test_sources path :
  test SOURCES_PATTERN path = true ↔ ∃ w, module_name w ∧ path = js "package-sources/" ++ w ++ js ".ts".
Proof.
  rewrite test_spec. unfold SOURCES_PATTERN. split.
  - intros (a & rest & g & -> & H). apply parses_text in H as (a' & -> & H).
    apply parses_chars in H as (w & a2 & -> & Hne & Hf & H). apply parses_text in H as (y & -> & -> & -> & _).
    exists w. split; [done|]. by rewrite !app_nil_r.
  - intros (w & [Hne Hf] & ->). exists (js "package-sources/" ++ w ++ js ".ts"), [], []. split; [by rewrite app_nil_r|].
    apply parses_text. eexists. split; [done|]. apply parses_chars. exists w, (js ".ts"). split_and!; [done..|].
    apply parses_text. exists []. by rewrite app_nil_r.
Qed.

Lemma allowed_spec path : allowed path = true ↔ publishable path.
Proof. unfold allowed, publishable. rewrite !orb_true_iff, bool_decide_eq_true, test_dist, test_sources. tauto. Qed.

Lemma finds_spec r path :
  finds r path = true ↔ ∃ before a rest g, path = before ++ a ++ rest ∧ parses r a rest g.
Proof.
  assert (∀ s, test r s = true ↔ is_Some (exec r s)) as Ht by (intros s; unfold test; apply bool_decide_eq_true).
  unfold finds. rewrite bool_decide_eq_true. induction path as [|u path IH]; cbn [search].
  - pose proof (test_spec r []) as H. rewrite Ht in H. destruct (exec r []) as [m|].
    + split; [|done]. intros _. destruct (proj1 H (ltac:(done))) as (a & rest & g & E & Hp). by exists [], a, rest, g.
    + split; [by intros [? ?]|]. intros (before & a & rest & g & E & Hp). apply H. destruct before; [|done]. by exists a, rest, g.
  - pose proof (test_spec r (u :: path)) as H. rewrite Ht in H. destruct (exec r (u :: path)) as [m|].
    + split; [|done]. intros _. destruct (proj1 H (ltac:(done))) as (a & rest & g & E & Hp). by exists [], a, rest, g.
    + rewrite IH. split.
      * intros (before & a & rest & g & -> & Hp). by exists (u :: before), a, rest, g.
      * intros ([|v before] & a & rest & g & E & Hp); [|exists before, a, rest, g; by injection E as -> ->].
        destruct H as [_ H]. destruct H as [? H]; [by exists a, rest, g|done].
Qed.

Lemma at_segment_spec r path :
  at_segment r path = true ↔
  ∃ before a rest g, path = before ++ a ++ rest ∧ (before = [] ∨ list.last before = Some SLASH) ∧ parses r a rest g.
Proof.
  unfold at_segment. rewrite orb_true_iff, test_spec, finds_spec. split.
  - intros [(a & rest & g & -> & H)|(before & a & rest & g & -> & H)]; [by exists [], a, rest, g; auto|].
    destruct H as (x & y & ? & g2 & -> & _ & (c & -> & Hc & ->) & H). unfold chr in Hc. apply Z.eqb_eq in Hc as ->.
    exists (before ++ [SLASH]), y, rest, g2. split_and!; [by rewrite <- !app_assoc|right; by rewrite last_snoc|done].
  - intros (before & a & rest & g & -> & [->|Hl] & H); [left; by exists a, rest, g|].
    apply last_Some in Hl as [before' ->]. right. exists before', (SLASH :: a), rest, g.
    split; [by rewrite <- app_assoc|]. exists [SLASH], a, [], g. split_and!; [done..| |done]. by eexists.
Qed.

Lemma leaked_spec path : leaked path = true ↔ is_demo path.
Proof.
  unfold leaked, is_demo. rewrite orb_true_iff, !at_segment_spec. unfold DEMO_PATTERN, GEN_PATTERN.
  assert (∀ name a rest g, parses (literal chr name (Alt (Class (one_of "._/")) End_)) a rest g ↔
    g = [] ∧ ((∃ u, a = name ++ [u] ∧ u ∈ js "._/") ∨ a = name ∧ rest = [])) as Htail.
  { intros name a rest g. rewrite parses_text. cbn [parses]. unfold one_of. setoid_rewrite bool_decide_eq_true. split.
    - intros (a' & -> & [(u & -> & Hu & ->)|(-> & -> & ->)]); (split; [done|]); [left; by eexists|right].
      by rewrite app_nil_r.
    - intros [-> [(u & -> & Hu)|[-> ->]]]; [exists [u]|exists []; rewrite app_nil_r]; (split; [done|]);
        [left; by eexists|by right]. }
  split.
  - intros [(before & a & rest & g & -> & Hb & H)|(before & a & rest & g & -> & Hb & H)].
    + cbn [parses] in H. rewrite !Htail in H.
      assert (∃ name, (name = js "demo" ∨ name = js "verify") ∧
        ((∃ u, a = name ++ [u] ∧ u ∈ js "._/") ∨ a = name ∧ rest = [])) as (name & Hname & Ha)
        by (destruct H as [[_ ?]|[_ ?]]; eauto).
      destruct Ha as [(u & -> & Hu)|[-> ->]].
      * exists before, name, (u :: rest). split; [by rewrite <- app_assoc|]. split; [done|]. left. split; [done|]. right. eauto.
      * exists before, name, []. split_and!; [done|done|]. left. auto.
    + apply parses_text in H as (a' & -> & (c & -> & Hc & _)). unfold chr in Hc. apply Z.eqb_eq in Hc as ->.
      exists before, (js "gen/"), rest. split; [done|]. split; [done|]. by right.
  - intros (before & name & rest & -> & Hb & [[Hname Hrest]| ->]).
    + left. cbn [parses]. setoid_rewrite Htail. destruct Hrest as [->|(u & rest' & -> & Hu)].
      * exists before, name, [], []. split_and!; [done..|]. destruct Hname as [->| ->]; [left|right]; auto.
      * exists before, (name ++ [u]), rest', []. split_and!; [by rewrite <- app_assoc|done|].
        destruct Hname as [->| ->]; [left|right]; eauto.
    + right. exists before, (js "gen/"), rest, []. split_and!; [done..|]. apply parses_text. exists [SLASH]. split; [done|].
      by eexists.
Qed.

(** ** A publishable path is safe *)

(** Two dots in a row. *)
Fixpoint dots (s : jsstring) : bool :=
  match s with
  | u :: s' => (u =? 0x2E) && bool_decide (head s' = Some 0x2E) || dots s'
  | [] => false
  end.

Lemma dots_app a s : Forall (λ u, name_char u = true) a → dots (a ++ s) = dots s.
Proof.
  induction 1 as [|u a Hu _ IH]; [done|]. cbn. destruct (Z.eqb_spec u 0x2E) as [->|]; [discriminate|]. exact IH.
Qed.
Lemma split_dots c s : js ".." ∈ split_on c s → dots s = true.
Proof.
  assert (∀ s, (∀ part, part ∈ split_on c s → dots part = true → dots s = true) ∧
    (∀ part parts, split_on c s = part :: parts → head part = Some 0x2E → head s = Some 0x2E)) as H.
  { clear s. induction s as [|u s [IH IHh]]; cbn [split_on].
    - split; [by intros part ->%list_elem_of_singleton|]. by intros part parts [= <- _].
    - destruct (split_on c s) as [|p ps] eqn:E; [by apply split_on_ne in E|]. destruct (u =? c); split.
      + intros part Hin Hd. rewrite elem_of_cons in Hin. destruct Hin as [->|Hin]; [done|]. cbn. rewrite (IH part Hin Hd). apply orb_true_r.
      + by intros part parts [= <- _].
      + intros part Hin Hd. rewrite elem_of_cons in Hin. destruct Hin as [->|Hin].
        * cbn in Hd |- *. apply orb_true_iff in Hd as [Hd|Hd].
          -- apply andb_true_iff in Hd as [-> Hd%bool_decide_eq_true]. by rewrite (IHh p ps eq_refl Hd).
          -- rewrite (IH p ltac:(set_solver) Hd). apply orb_true_r.
        * cbn. rewrite (IH part ltac:(set_solver) Hd). apply orb_true_r.
      + by intros part parts [= <- _]. }
  intros Hin. by apply (H s) in Hin.
Qed.

Lemma module_chars w : module_name w → ∀ u, u ∈ w → u ≠ BACKSLASH.
Proof. intros [_ Hf] u Hu ->. rewrite list.Forall_forall in Hf. specialize (Hf _ Hu). discriminate. Qed.

Lemma publishable_safe path : publishable path → unsafe path = false.
Proof.
  intros [H|[(w & ext & Hw & Hext & ->)|(w & Hw & ->)]].
  - assert (forallb (λ p, negb (unsafe p)) requiredFiles = true) as Hall by (vm_compute; reflexivity).
    rewrite forallb_forall in Hall. apply negb_true_iff, Hall. by apply list_elem_of_In.
  - assert (Forall (λ e, ¬ BACKSLASH ∈ e ∧ dots e = false) compiled) as He
      by (apply (bool_decide_unpack _); vm_compute; reflexivity).
    rewrite list.Forall_forall in He. destruct (He _ Hext) as [Hb Hd]. unfold unsafe, includes.
    repeat (apply orb_false_iff; split).
    + apply bool_decide_eq_false_2. rewrite !elem_of_app. intros [H|[H|H]]; [|by eapply module_chars|done].
      revert H. apply (bool_decide_unpack _). vm_compute. reflexivity.
    + done.
    + apply bool_decide_eq_false_2. intros H%split_dots. destruct Hw as [_ Hf].
      rewrite dots_app, dots_app in H; [congruence|done|]. apply (bool_decide_unpack _). vm_compute. reflexivity.
  - unfold unsafe, includes. repeat (apply orb_false_iff; split).
    + apply bool_decide_eq_false_2. rewrite !elem_of_app. intros [H|[H|H]]; [|by eapply module_chars|];
      revert H; apply (bool_decide_unpack _); vm_compute; reflexivity.
    + done.
    + apply bool_decide_eq_false_2. intros H%split_dots. destruct Hw as [_ Hf].
      rewrite dots_app, dots_app in H; [discriminate|done|]. apply (bool_decide_unpack _). vm_compute. reflexivity.
Qed.

Lemma starts_with_spec p s : starts_with p s = true ↔ ∃ t, s = p ++ t.
Proof.
  unfold starts_with. rewrite bool_decide_eq_true. split.
  - intros H. exists (drop (length p) s). by rewrite <- H at 1; rewrite take_drop.
  - intros [t ->]. apply take_app_length.
Qed.

Lemma dist_js_spec path : dist_js path = true ↔ ∃ w, path = js "package-dist/" ++ w ++ js ".js".
Proof.
  unfold dist_js. rewrite andb_true_iff, starts_with_spec. split.
  - intros [[t ->] He]. unfold ends_with in He. apply bool_decide_eq_true in He.
    assert (length (js ".js") = 3%nat) as E3 by done. rewrite E3 in He.
    destruct (decide (length t < 3)%nat) as [Hl|Hl].
    { destruct t as [|a [|b [|]]]; [done..|cbn in Hl; lia]. }
    rewrite length_app, drop_app in He. rewrite drop_ge in He by lia. cbn [app] in He.
    exists (take (length t - 3) t). rewrite <- He.
    replace (length (js "package-dist/") + length t - 3 - length (js "package-dist/"))%nat with (length t - 3)%nat by lia.
    by rewrite take_drop.
  - intros [w ->]. split; [by exists (w ++ js ".js")|]. unfold ends_with. apply bool_decide_eq_true_2.
    rewrite app_assoc, length_app, Nat.add_sub. apply drop_app_length.
Qed.

Lemma siblings_of w : siblings (js "package-dist/" ++ w ++ js ".js") =
  map (λ ext, js "package-dist/" ++ w ++ ext) (map js [".js.map"; ".d.ts"; ".d.ts.map"]).
Proof.
  unfold siblings. assert (∀ s, take (length (s ++ js ".js") - 3) (s ++ js ".js") = s) as Ht.
  { intros s. rewrite length_app. change (length (js ".js")) with 3%nat. rewrite Nat.add_sub. apply take_app_length. }
  rewrite app_assoc, Ht. cbn [map]. by rewrite <- !app_assoc.
Qed.

Lemma forallb_all {A} (f : A → bool) l : forallb f l = true ↔ ∀ x, x ∈ l → f x = true.
Proof. rewrite forallb_forall. by setoid_rewrite list_elem_of_In. Qed.

Definition files_in_order (paths : list jsstring) : Prop :=
  NoDup paths ∧
  (∀ path, path ∈ paths → publishable path ∧ ¬ is_demo path ∧ unsafe path = false) ∧
  (∀ path, path ∈ requiredFiles → path ∈ paths) ∧
  (∀ w ext, js "package-dist/" ++ w ++ js ".js" ∈ paths → ext ∈ compiled → js "package-dist/" ++ w ++ ext ∈ paths).

Lemma audit_iff paths files : auditFileList paths = Some files ↔ files = paths ∧ files_in_order paths.
Proof.
  unfold auditFileList, files_in_order. rewrite !assert_Some, bool_decide_eq_true, !forallb_all. split.
  - intros (Hnd & Hall & Hreq & Hsib & [= <-]). split_and!; [done|done|..].
    + intros p Hp. specialize (Hall p Hp). rewrite !andb_true_iff, allowed_spec, !negb_true_iff in Hall.
      destruct Hall as [[Hu Ha] Hl]. split_and!; [done|by rewrite <- leaked_spec, Hl|done].
    + intros p Hp. by apply Hreq, bool_decide_eq_true in Hp.
    + intros w ext Hw Hext. unfold compiled in Hext. cbn [map] in Hext. rewrite elem_of_cons in Hext.
      destruct Hext as [->|Hext]; [done|]. specialize (Hsib (js "package-dist/" ++ w ++ js ".js")).
      rewrite siblings_of, forallb_all in Hsib. apply (bool_decide_eq_true (_ ∈ paths)). apply Hsib.
      * apply list_elem_of_filter. split; [|done]. apply dist_js_spec. by exists w.
      * apply list_elem_of_fmap. by exists ext.
  - intros (-> & Hnd & Hall & Hreq & Hsib). split_and!; [done|..|done].
    + intros p Hp. destruct (Hall p Hp) as (Ha%allowed_spec & Hd & ->). rewrite Ha. apply negb_true_iff.
      apply not_true_iff_false. by rewrite leaked_spec.
    + intros p Hp. by apply bool_decide_eq_true_2, Hreq.
    + intros p [Hp Hin]%list_elem_of_filter. apply dist_js_spec in Hp as [w ->]. rewrite siblings_of. apply forallb_all.
      intros q Hq. apply list_elem_of_fmap in Hq as (ext & -> & Hext). apply bool_decide_eq_true_2, Hsib; [done|].
      unfold compiled. cbn [map] in *. by right.
Qed.

(** The order of the files does not matter. *)
Lemma files_in_order_perm paths paths' : paths ≡ₚ paths' → files_in_order paths → files_in_order paths'.
Proof.
  unfold files_in_order. intros Hp (H1 & H2 & H3 & H4). split_and!; [by rewrite <- Hp|..]; setoid_rewrite <- Hp; done.
Qed.

(** C38: a package is accepted exactly when its list of files is in order: no path appears twice; every
    file is one of the required ones or a compiled module or a TypeScript source below its own
    directory, under a name of letters, digits, [_], [-] and [/], and no part of its path is that of a
    demo; no required file is missing; and every compiled module comes with its declarations and both
    source maps.  No accepted path leaves the package: none is absolute, goes up a directory or
    contains a backslash. *)
Theorem packed_files_spec paths files :
  auditFileList paths = Some files ↔
  files = paths ∧ NoDup paths ∧
  (∀ path, path ∈ paths → publishable path ∧ ¬ is_demo path ∧ unsafe path = false) ∧
  (∀ path, path ∈ requiredFiles → path ∈ paths) ∧
  (∀ w ext, js "package-dist/" ++ w ++ js ".js" ∈ paths → ext ∈ compiled → js "package-dist/" ++ w ++ ext ∈ paths).
Proof.
  apply audit_iff.
Qed.
