(* ===== verification/Release.v ===== *)
(** * Release: from an audited archive to the decision about it

    [scripts/artifact-install-lib.mjs] puts the audited archive into the fixture of a consumer,
    [packaging/consumer/build.mjs], [serve.mjs] and [browser-check.mjs] report what became of it,
    [scripts/test-package-consumer.mjs] accepts the reports, and [scripts/release-preflight.mjs]
    with its library decides whether all evidence is about the same archive.  Reports are written
    and read back as JSON: a property that is undefined is left out and reads as undefined. *)
From Stdlib Require Import QArith.
From stdpp Require Import pretty.
From S2P Require Import Prelude Regex Sort Decimal Json JsText JsValues Package.
Local Open Scope Z_scope.

(** ** Patterns and constants *)

Definition hex_char (u : Z) : bool := between 0x61 0x66 u || digit u.
Definition REVISION_PATTERN : re := Seq (Many hex_char 40 (Some 40%nat)) End_.
Definition SHA256_PATTERN : re := Seq (Many hex_char 64 (Some 64%nat)) End_.
(** [/^\d+\.\d+\.\d+/]. *)
Definition VERSION_PREFIX : re :=
  Seq (Many digit 1 None) (Seq (Class (chr 0x2E)) (Seq (Many digit 1 None) (Seq (Class (chr 0x2E)) (Many digit 1 None)))).
Definition NODE_PATTERN : re := Seq (Class (chr 0x76)) (Seq (Group (Many digit 1 None)) (Class (chr 0x2E))).
(** [[\w.+-]]. *)
Definition ARTIFACT_PATTERN : re :=
  literal chr (js "dunkymole-grpc-bridge-")
    (Seq (Many (λ u, lower u || upper u || digit u || one_of "_.+-" u) 1 None) (literal chr (js ".tgz") End_)).
Definition REVIEWED_PATTERN : re :=
  literal chr (js "PROTO_CONTRACT_REVIEWED_REF:") (Seq (Many is_space 0 None) (Group (Many hex_char 40 (Some 40%nat)))).

Definition expectedChecks : list jsstring :=
  map js ["installed public exports"; "generated strict construction and declarations"; "unary and trailers";
    "server streaming"; "client streaming"; "live bidi before request half-close"; "deadline"; "cancellation"].

Definition NAME : jsstring := js "@dunkymole/grpc-bridge".
Definition LOCAL : jsstring := js "local".
Definition REGISTRY : jsstring := js "registry".
Definition ARTIFACT_URL : jsstring := js "file:/artifact/package.tgz".

(** A parsed URL. *)
Record URL := mkURL {
  href : jsstring; protocol : jsstring; hostname : jsstring; port : jsstring; username : jsstring;
  password : jsstring; url_search : jsstring; url_hash : jsstring; pathname : jsstring;
}.
Definition registry_url (u : URL) : bool :=
  bool_decide (protocol u = js "https:") && bool_decide (hostname u = js "registry.npmjs.org")
  && bool_decide (port u = []) && bool_decide (username u = []) && bool_decide (password u = [])
  && bool_decide (url_search u = []) && bool_decide (url_hash u = [])
  && starts_with (js "/@dunkymole/grpc-bridge/-/") (pathname u).

(** [v > 0]: the number that [v] converts to. *)
Definition number_positive (n : number) : bool :=
  match n with
  | Integer z => 0 <? z
  | NegZero => false
  | Frac text => negb (starts_with (js "-") text)
  | NotFinite text => bool_decide (text = js "Infinity")
  end.
Fixpoint text_of (v : json) : jsstring :=
  match v with
  | Null | Undefined => []
  | Bool b => if b then js "true" else js "false"
  | Num NegZero => js "0"
  | Num (NotFinite text) => text
  | Num n => number_text n
  | Str s => s
  | Arr l => join (map text_of l)
  | Obj _ | Opaque => js "[object Object]"
  end.
Definition double_positive (d : double) : bool :=
  match d with DFin q => negb (Qle_bool q 0) | DInf negative => negb negative | DNaN => false end.
Definition above_zero (v : json) : bool :=
  match v with
  | Num n => number_positive n
  | Bool b => b
  | Str s => double_positive (Number s)
  | Arr l => double_positive (Number (text_of (Arr l)))
  | _ => false
  end.

Section release.
Context (sha256_hex sha512_base64 : bytes → jsstring).
(** [new URL(v)]; [None]: it throws. *)
Context (parse_url : json → option URL).

(** ** Installing the audited archive: [artifact-install-lib.mjs] *)

Definition MODULES : jsstring := js "node_modules/".

(** The digests of the bytes are those of the report. *)
Definition digests_match (audit : json) (b : bytes) : option unit :=
  sha256 ← get audit "sha256";
  assert (same (Str (sha256_hex b)) sha256);;
  integrity ← get audit "integrity";
  assert (same (Str (integrity_of sha512_base64 b)) integrity).

(** The name and version that the manifest and the report agree on. *)
Definition names_match (audit manifest : json) : option unit :=
  audit_name ← get audit "name";
  assert (same audit_name (Str NAME));;
  manifest_name ← get manifest "name";
  assert (same manifest_name audit_name);;
  manifest_version ← get manifest "version";
  audit_version ← get audit "version";
  assert (same manifest_version audit_version).

(** Where the lock file will say the archive comes from. *)
Definition registry_resolution (published manifest audit : json) : option jsstring :=
  name ← get manifest "name";
  assert (same (get' published "name") name);;
  version ← get manifest "version";
  assert (same (get' published "version") version);;
  dependencies ← get published "dependencies";
  bounds ← get manifest "dependencies";
  assert (deep_equal dependencies bounds);;
  dist ← get published "dist";
  integrity ← get audit "integrity";
  assert (same (get' dist "integrity") integrity);;
  tarball ← get dist "tarball";
  url ← parse_url tarball;
  assert (registry_url url);;
  Some (href url).

Definition set_dependency (v : json) (name : jsstring) (spec : json) : option json :=
  dependencies ← get v "dependencies";
  dependencies' ← set_prop dependencies name spec;
  set_prop v (js "dependencies") dependencies'.

Definition bindAuditedArtifact (consumer lock manifest audit : json) (b : bytes) (installSource : option jsstring)
    (registryMetadata : json) : option (json * json) :=
  private ← get consumer "private";
  assert (same private (Bool true));;
  lockfileVersion ← get lock "lockfileVersion";
  assert (same lockfileVersion (Num (Integer 3)));;
  verified ← get audit "mapsAndSourcesVerified";
  assert (same verified (Bool true));;
  names_match audit manifest;;
  digests_match audit b;;
  bounds ← get manifest "dependencies";
  consumer_bounds ← get consumer "dependencies";
  assert (deep_equal bounds consumer_bounds);;
  packages ← get lock "packages";
  resolution ← prop packages (MODULES ++ NAME);
  assert (negb (truthy resolution));;
  entries ← object_entries bounds;
  mapM (λ '(name, version),
    entry ← prop packages (MODULES ++ name);
    assert (same (get' entry "version") version)) entries;;
  let installSource := default LOCAL installSource in
  assert (bool_decide (installSource ∈ [LOCAL; REGISTRY]));;
  resolved ← (if decide (installSource = REGISTRY)
              then registry_resolution registryMetadata manifest audit else Some ARTIFACT_URL);
  version ← get manifest "version";
  let spec := if decide (installSource = REGISTRY) then version else Str resolved in
  consumer' ← set_dependency consumer NAME spec;
  root ← prop packages [];
  root' ← set_dependency root NAME spec;
  packages' ← set_prop packages [] root';
  integrity ← get audit "integrity";
  license ← get manifest "license";
  engines ← get manifest "engines";
  packages'' ← set_prop packages' (MODULES ++ NAME)
    (Obj [(js "version", version); (js "resolved", Str resolved); (js "integrity", integrity);
          (js "license", license); (js "dependencies", bounds); (js "engines", engines)]);
  lock' ← set_prop lock (js "packages") packages'';
  Some (consumer', lock').

(** ** What the consumer reports *)

(** [bundle-report.json] of [build.mjs]: the sizes, the version of esbuild, the exports. *)
Record Bundle := mkBundle {
  b_bytes : Z; b_gzip : Z; b_entry_bytes : Z; b_entry_gzip : Z; b_esbuild : jsstring;
  b_exports : list jsstring; b_inputs : list jsstring;
}.
Definition browser_entry (b : Bundle) : json :=
  Obj [(js "minifiedBytes", Num (Integer (b_entry_bytes b))); (js "gzipBytes", Num (Integer (b_entry_gzip b)));
       (js "gzipLevel", Num (Integer 9)); (js "esbuild", Str (b_esbuild b)); (js "platform", Str (js "browser"));
       (js "format", Str (js "esm")); (js "target", Str (js "es2022")); (js "dependenciesBundled", Bool true);
       (js "publicExports", strings (b_exports b))].
Definition bundle_report (b : Bundle) : list (jsstring * json) :=
  [(js "fixtureBundleBytes", Num (Integer (b_bytes b))); (js "fixtureBundleGzipBytes", Num (Integer (b_gzip b)));
   (js "fixtureBundleGzipLevel", Num (Integer 6)); (js "browserEntry", browser_entry b);
   (js "bridgeInputs", strings (b_inputs b))].

(** [consumer-node.json] of [serve.mjs]. *)
Definition consumer_node (audit installed lock : json) (installSource : option jsstring) (node : jsstring)
    (compilerRevision : json) (checks : list jsstring) (bundle : Bundle) : option json :=
  packages ← get lock "packages";
  resolution ← prop packages (MODULES ++ NAME);
  installed_name ← get installed "name";
  name ← get audit "name";
  assert (same installed_name name);;
  installed_version ← get installed "version";
  version ← get audit "version";
  assert (same installed_version version);;
  assert (zlen checks =? 8);;
  sha256 ← get audit "sha256";
  resolved ← get resolution "resolved";
  integrity ← get resolution "integrity";
  Some (Obj ([(js "status", Str (js "PASS")); (js "node", Str node); (js "compilerRevision", compilerRevision);
    (js "artifactSha256", sha256); (js "packageVersion", installed_version);
    (js "installSource", Str (default LOCAL installSource));
    (js "installedResolution", Obj [(js "resolved", resolved); (js "integrity", integrity)]);
    (js "checks", strings checks)] ++ bundle_report bundle)).

(** [consumer-browsers.json] of [browser-check.mjs]: the version of each engine and the checks that
    passed in it. *)
Definition engines : list jsstring := map js ["chromium"; "firefox"; "webkit"].
Definition consumer_browsers (audit : json) (installSource : option jsstring) (runs : list (jsstring * list jsstring))
    : option json :=
  sha256 ← get audit "sha256";
  assert (Nat.eqb (length runs) 3 && forallb (λ r, zlen (snd r) =? 8) runs);;
  Some (Obj [(js "status", Str (js "PASS")); (js "artifactSha256", sha256);
    (js "installSource", Str (default LOCAL installSource));
    (js "results", Arr (zip_with (λ name '(version, checks),
       Obj [(js "name", Str name); (js "version", Str version); (js "checks", strings checks);
            (js "status", Str (js "PASS"))]) engines runs))]).

(** ** The decision: [release-preflight-lib.mjs] *)

(** [Number(node?.match(/^v(\d+)\./)?.[1]) >= 24]; rounding to a double does not cross 24. *)
Definition node_version_ok (toolchain : json) : bool :=
  match get' toolchain "node" with
  | Str s => match exec NODE_PATTERN s with Some (_, [digits]) => 24 <=? digits_value digits | _ => false end
  | _ => false
  end.

Definition browser_result_ok (result : json) : option unit :=
  status ← get result "status";
  assert (same status (Str (js "PASS")));;
  version ← get result "version";
  assert (truthy version);;
  checks ← get result "checks";
  assert (deep_equal checks (strings expectedChecks)).

(** The source report says that the package was made from [revision], clean before and after. *)
Definition source_ok (source : json) (revision : jsstring) : option unit :=
  assert (same (get' source "verifiedClean") (Bool true));;
  source_revision ← get source "revision";
  assert (same source_revision (Str revision));;
  after_revision ← get source "afterRevision";
  assert (same after_revision (Str revision));;
  tree ← get source "tree";
  assert (matched REVISION_PATTERN tree);;
  after_tree ← get source "afterTree";
  assert (same after_tree tree);;
  dirty_before ← get source "dirtyBefore";
  assert (same dirty_before (Bool false));;
  dirty_after ← get source "dirtyAfter";
  assert (same dirty_after (Bool false)).

Definition toolchain_ok (toolchain : json) : option unit :=
  assert (node_version_ok toolchain);;
  npm ← get toolchain "npm";
  assert (matched VERSION_PREFIX npm);;
  typescript ← get toolchain "typescript";
  assert (matched VERSION_PREFIX typescript).

Definition audit_ok (audit manifest : json) (b : bytes) (paths : list jsstring) (revision : jsstring) : option unit :=
  assert (test REVISION_PATTERN revision);;
  verified ← get audit "mapsAndSourcesVerified";
  assert (same verified (Bool true));;
  names_match audit manifest;;
  type ← get manifest "type";
  assert (same type (Str (js "module")));;
  exports ← get manifest "exports";
  keys ← object_keys exports;
  assert (bool_decide (sort_strings keys = export_names));;
  digests_match audit b;;
  compressed ← get audit "compressedBytes";
  assert (same (Num (Integer (zlen b))) compressed);;
  auditFileList paths;;
  files ← get audit "files";
  listed ← as_array files ≫= mapM file_path;
  assert (bool_decide (sort_strings paths = sort_strings listed));;
  count ← get audit "fileCount";
  assert (same (Num (Integer (zlen paths))) count);;
  source ← get audit "source";
  source_ok source revision;;
  lock_sha ← get audit "packageLockSha256";
  assert (matched SHA256_PATTERN lock_sha);;
  toolchain ← get audit "toolchain";
  toolchain_ok toolchain.

Definition resolution_ok (node : json) (installSource : jsstring) : option unit :=
  resolution ← get node "installedResolution";
  resolved ← get resolution "resolved";
  if decide (installSource = LOCAL) then assert (same resolved (Str ARTIFACT_URL))
  else url ← parse_url resolved; assert (registry_url url).

Definition browser_entry_ok (node : json) : option unit :=
  entry ← get node "browserEntry";
  bundled ← get entry "dependenciesBundled";
  assert (same bundled (Bool true));;
  platform ← get entry "platform";
  assert (same platform (Str (js "browser")));;
  format ← get entry "format";
  assert (same format (Str (js "esm")));;
  target ← get entry "target";
  assert (same target (Str (js "es2022")));;
  level ← get entry "gzipLevel";
  assert (same level (Num (Integer 9)));;
  esbuild ← get entry "esbuild";
  assert (matched VERSION_PREFIX esbuild);;
  exports ← get entry "publicExports";
  l ← as_array exports;
  assert (0 <? zlen l);;
  minified ← get entry "minifiedBytes";
  gzip ← get entry "gzipBytes";
  assert (above_zero minified && above_zero gzip).

Definition node_ok (node audit compilerRevision : json) (installSource : jsstring) : option unit :=
  status ← get node "status";
  assert (same status (Str (js "PASS")));;
  node_sha ← get node "artifactSha256";
  sha256 ← get audit "sha256";
  assert (same node_sha sha256);;
  node_version ← get node "packageVersion";
  version ← get audit "version";
  assert (same node_version version);;
  compiler ← get node "compilerRevision";
  assert (same compiler compilerRevision);;
  checks ← get node "checks";
  assert (deep_equal checks (strings expectedChecks));;
  assert (bool_decide (installSource ∈ [LOCAL; REGISTRY]));;
  source ← get node "installSource";
  assert (same source (Str installSource));;
  resolution ← get node "installedResolution";
  integrity ← get audit "integrity";
  assert (same (get' resolution "integrity") integrity);;
  resolution_ok node installSource;;
  browser_entry_ok node.

Definition browsers_ok (browsers audit : json) (installSource : jsstring) : option unit :=
  status ← get browsers "status";
  assert (same status (Str (js "PASS")));;
  browser_sha ← get browsers "artifactSha256";
  sha256 ← get audit "sha256";
  assert (same browser_sha sha256);;
  source ← get browsers "installSource";
  assert (same source (Str installSource));;
  results ← get browsers "results";
  l ← as_array results;
  names ← mapM (λ r, get r "name") l;
  assert (deep_equal (Arr names) (strings engines));;
  mapM browser_result_ok l;;
  Some tt.

(** [verifyReleaseEvidence]: the result names the artifact. *)
Definition verifyReleaseEvidence (audit node browsers manifest : json) (b : bytes) (paths : list jsstring)
    (revision : jsstring) (compilerRevision : json) (installSource : option jsstring) : option json :=
  let installSource := default LOCAL installSource in
  audit_ok audit manifest b paths revision;;
  node_ok node audit compilerRevision installSource;;
  browsers_ok browsers audit installSource;;
  name ← get audit "name";
  version ← get audit "version";
  sha256 ← get audit "sha256";
  integrity ← get audit "integrity";
  compressed ← get audit "compressedBytes";
  unpacked ← get audit "unpackedBytes";
  entry ← get node "browserEntry";
  Some (Obj [(js "status", Str (js "PASS"));
    (js "meaning", Str (js "Integrity and retained test evidence only; NOT publication authorization"));
    (js "sourceRevision", Str revision); (js "name", name); (js "version", version); (js "sha256", sha256);
    (js "integrity", integrity); (js "compressedBytes", compressed); (js "unpackedBytes", unpacked);
    (js "installSource", Str installSource); (js "browserEntry", entry)]).

(** ** The command: [release-preflight.mjs] *)

(** The archive under the name in the report; the compiler's revision is given or found in the
    workflow. *)
Definition preflight (revision compilerRevision : option jsstring) (workflow : jsstring) (audit node browsers : json)
    (read : jsstring → option Archive) (installSource : option jsstring) : option json :=
  let revision := default [] revision in
  assert (test REVISION_PATTERN revision);;
  artifact ← get audit "artifact" ≫= as_string;
  assert (test ARTIFACT_PATTERN artifact);;
  a ← read artifact;
  manifest ← a_json a (js "package.json");
  paths ← archive_paths (a_listing a);
  compiler ← match compilerRevision with
             | Some r => Some r
             | None => match search REVIEWED_PATTERN workflow with Some (_, [r]) => Some r | _ => None end
             end;
  assert (test REVISION_PATTERN compiler);;
  verifyReleaseEvidence audit node browsers manifest (a_bytes a) paths revision (Str compiler) installSource.

(** ** Accepting the consumer's reports: [test-package-consumer.mjs] *)

Definition consumer_accepts (audit node browsers : json) (b : bytes) (installSource : option jsstring) : option unit :=
  artifact ← get audit "artifact";
  assert (matched ARTIFACT_PATTERN artifact);;
  sha256 ← get audit "sha256";
  assert (same (Str (sha256_hex b)) sha256);;
  node_status ← get node "status";
  assert (same node_status (Str (js "PASS")));;
  node_sha ← get node "artifactSha256";
  assert (same node_sha sha256);;
  browsers_status ← get browsers "status";
  assert (same browsers_status (Str (js "PASS")));;
  browsers_sha ← get browsers "artifactSha256";
  assert (same browsers_sha sha256);;
  node_source ← get node "installSource";
  assert (same node_source (Str (default LOCAL installSource)));;
  browsers_source ← get browsers "installSource";
  assert (same browsers_source node_source);;
  results ← get browsers "results";
  l ← as_array results;
  names ← mapM (λ r, get r "name") l;
  assert (deep_equal (Arr names) (strings engines));;
  mapM (λ r, status ← get r "status"; assert (same status (Str (js "PASS")));;
             checks ← get r "checks"; n ← length_of checks; assert (same n (Num (Integer 8)))) l;;
  Some tt.
End release.
