(* ===== verification/ReleaseCorrect.v ===== *)
(** * ReleaseCorrect: the evidence chain of a release

    What binding the audited archive into a consumer leaves alone, and when the reports that the
    scripts write one after the other pass the decision at the end of the chain. *)
From Stdlib Require Import QArith.
From stdpp Require Import pretty.
From S2P Require Import Prelude Regex Sort Decimal Json JsText JsValues Package PackageCorrect Release.
Local Open Scope Z_scope.

(** ** Taking a successful run apart *)

Ltac binds H :=
  let x := fresh "v" in let Hx := fresh "Hv" in
  lazymatch type of H with
  | (assert _ ≫= _) = Some _ => apply assert_Some in H as [Hx H]
  | (_ ≫= _) = Some _ => apply bind_Some in H as (x & Hx & H); cbn beta in H
  end.

(** One step, with the value it gave and why. *)
Tactic Notation "open" hyp(H) simple_intropattern(x) simple_intropattern(Hx) :=
  let Hy := fresh in apply bind_Some in H as (x & Hy & H); revert Hy; intros Hx.
Tactic Notation "open" hyp(H) simple_intropattern(x) := open H x ?.
Tactic Notation "check" hyp(H) simple_intropattern(Hx) := apply assert_Some in H as [Hx H].
Tactic Notation "check" hyp(H) := check H ?.

(** ** Properties of parsed values *)

Lemma prop_put o k x k' : prop (Obj (put o k x)) k' = if decide (k = k') then Some x else prop (Obj o) k'.
Proof. cbn. rewrite own_put. by destruct (decide (k = k')). Qed.

Lemma set_prop_get v k x v' k' :
  set_prop v k x = Some v' →
  prop v' k' = (if decide (k = k') then match v with Obj _ => Some x | _ => prop v k' end else prop v k').
Proof.
  destruct v as [| | | |l|o| |]; try done; cbn [set_prop]; intros [= <-]; [by destruct (decide _)|].
  rewrite prop_put. by destruct (decide _).
Qed.

(** A property that was set and is seen again was set on an object. *)
Lemma set_prop_seen v k x v' y :
  set_prop v k x = Some v' → prop v' k = Some y → truthy y = true → y = x ∨ prop v k = Some y.
Proof.
  intros Hs. rewrite (set_prop_get _ _ _ _ k Hs), decide_True by done. destruct v; intros H Ht; try (by right).
  left. congruence.
Qed.

Lemma prop_arr l k : prop (Arr l) k = Some Undefined.
Proof. done. Qed.

(** ** Binding the archive into a consumer *)

Definition at_path (v : json) (path : list jsstring) : option json :=
  fold_left (λ v k, v ≫= λ v, prop v k) path (Some v).

Lemma set_dependency_get v name spec v' k :
  set_dependency v name spec = Some v' → k ≠ js "dependencies" → prop v' k = prop v k.
Proof.
  unfold set_dependency. intros H Hk. binds H. binds H. rewrite (set_prop_get _ _ _ _ k H). by rewrite decide_False.
Qed.
Lemma set_dependency_others v name spec v' k :
  set_dependency v name spec = Some v' → k ≠ name →
  at_path v' [js "dependencies"; k] = at_path v [js "dependencies"; k].
Proof.
  unfold set_dependency, at_path. intros H Hk. binds H. binds H. cbn [fold_left mbind option_bind].
  rewrite (set_prop_get _ _ _ _ (js "dependencies") H), decide_True by done. unfold get in *. rewrite Hv.
  destruct v as [| | | |l|o| |]; try done; cbn [mbind option_bind].
  rewrite (set_prop_get _ _ _ _ k Hv0). by rewrite decide_False.
Qed.

Section chain.
Context (sha256_hex sha512_base64 : bytes → jsstring) (parse_url : json → option URL).

(** What a successful binding has found and made. *)
Record bound (consumer lock manifest audit : json) (b : bytes) (src : option jsstring) (published consumer' lock' : json)
    : Prop := mkBound {
  bo_source : default LOCAL src ∈ [LOCAL; REGISTRY];
  bo_digest : get audit "sha256" = Some (Str (sha256_hex b)) ∧
              get audit "integrity" = Some (Str (integrity_of sha512_base64 b));
  bo_packages : ∃ packages packages' packages'' resolved version license bounds engines spec root root' entries,
    get lock "packages" = Some packages ∧ get manifest "version" = Some version ∧
    get manifest "dependencies" = Some bounds ∧ object_entries bounds = Some entries ∧
    Forall (λ e, ∃ entry, prop packages (MODULES ++ fst e) = Some entry ∧ same (get' entry "version") (snd e) = true) entries ∧
    (resolved = ARTIFACT_URL ∧ default LOCAL src = LOCAL ∨
     default LOCAL src = REGISTRY ∧ ∃ tarball u, parse_url tarball = Some u ∧ registry_url u = true ∧ resolved = href u) ∧
    set_dependency consumer NAME spec = Some consumer' ∧
    prop packages [] = Some root ∧ set_dependency root NAME spec = Some root' ∧
    set_prop packages [] root' = Some packages' ∧
    set_prop packages' (MODULES ++ NAME)
      (Obj [(js "version", version); (js "resolved", Str resolved); (js "integrity", Str (integrity_of sha512_base64 b));
            (js "license", license); (js "dependencies", bounds); (js "engines", engines)]) = Some packages'' ∧
    set_prop lock (js "packages") packages'' = Some lock';
}.

Lemma mapM_all {A B} (f : A → option B) l k : mapM f l = Some k → Forall (λ x, is_Some (f x)) l.
Proof. intros H%mapM_Some_1. induction H as [|x y l k Hx _ IH]; constructor; [by exists y|done]. Qed.

Lemma digests_match_Some audit b :
  digests_match sha256_hex sha512_base64 audit b = Some tt ↔
  get audit "sha256" = Some (Str (sha256_hex b)) ∧ get audit "integrity" = Some (Str (integrity_of sha512_base64 b)).
Proof.
  unfold digests_match. split.
  - intros H. binds H. binds H. binds H. rewrite same_sym, same_str in Hv0. subst.
    apply assert_true in H. rewrite same_sym, same_str in H. by subst.
  - intros [-> ->]. cbn [mbind option_bind]. by rewrite !same_refl_str.
Qed.

Lemma bind_bound consumer lock manifest audit b src published consumer' lock' :
  bindAuditedArtifact sha256_hex sha512_base64 parse_url consumer lock manifest audit b src published = Some (consumer', lock') →
  bound consumer lock manifest audit b src published consumer' lock'.
Proof.
  unfold bindAuditedArtifact. intros H. open H private. check H. open H version3. check H. open H verified. check H.
  open H names. open H digests Hd. open H bounds Hb. open H consumer_bounds. check H. open H packages Hp.
  open H resolution. check H. open H entries He. open H versions Hall. check H Hsrc. cbv zeta in H.
  open H resolved Hres. open H version Hver. open H consumer1 Hc. open H root Hroot. open H root1 Hroot1.
  open H packages1 Hp1. open H integrity Hint. open H license. open H engines. open H packages2 Hp2. open H lock1 Hl.
  injection H as <- <-. apply bool_decide_eq_true in Hsrc. destruct digests. apply digests_match_Some in Hd as [Hsha Hi].
  rewrite Hi in Hint. injection Hint as <-. split; [done|done|].
  eexists _, _, _, _, _, _, _, _, _, _, _, _. split_and!; try eassumption.
  - apply mapM_all in Hall. eapply list.Forall_impl; [exact Hall|]. intros [n w] [u Hu]. open Hu entry Hent.
    cbn [fst snd]. exists entry. split; [done|]. by apply assert_true in Hu.
  - destruct (decide (default LOCAL src = REGISTRY)) as [E|Hne].
    + right. split; [done|]. unfold registry_resolution in Hres. do 13 binds Hres. injection Hres as <-. eauto.
    + left. injection Hres as <-. split; [done|]. rewrite !elem_of_cons in Hsrc. by destruct Hsrc as [?|[?|?%elem_of_nil]].
Qed.

Lemma at_1 v k : at_path v [k] = prop v k.
Proof. done. Qed.
Lemma at_2 v k k' : at_path v [k; k'] = (w ← prop v k; prop w k').
Proof. done. Qed.

(** The lock entry of the package, as the consumer reads it. *)
Lemma bound_resolution consumer lock manifest audit b src published consumer' lock' packages1 resolution :
  bound consumer lock manifest audit b src published consumer' lock' →
  get lock' "packages" = Some packages1 → prop packages1 (MODULES ++ NAME) = Some resolution →
  is_Some (get resolution "resolved") →
  get resolution "integrity" = Some (Str (integrity_of sha512_base64 b)) ∧
  ∃ resolved, get resolution "resolved" = Some (Str resolved) ∧
    (resolved = ARTIFACT_URL ∧ default LOCAL src = LOCAL ∨
     default LOCAL src = REGISTRY ∧ ∃ tarball u, parse_url tarball = Some u ∧ registry_url u = true ∧ resolved = href u).
Proof.
  intros [_ _ (packages & packages' & packages'' & resolved & version & license & bounds & engines & spec & root & root' &
    entries & Hp & Hver & Hb & He & Hall & Hres & Hc & Hroot & Hroot' & Hp' & Hp'' & Hl)] Hp1 Hr [v Hv].
  destruct lock as [| | | |l|o| |]; try done; cbn [set_prop] in Hl; injection Hl as <-.
  { unfold get in Hp1. cbn in Hp1. injection Hp1 as <-. done. }
  unfold get in Hp1. rewrite prop_put, decide_True in Hp1 by done. injection Hp1 as <-.
  destruct packages as [| | | |l|p| |]; try done; cbn [set_prop] in Hp'; injection Hp' as <-; cbn [set_prop] in Hp''; injection Hp'' as <-.
  { cbn in Hr. injection Hr as <-. done. }
  rewrite prop_put, decide_True in Hr by done. injection Hr as <-. look_up. split; [done|]. by exists resolved.
Qed.

(** Installing the audited archive changes nothing else.  When an archive has been bound into a
    consumer, the consumer's manifest and its lock file are as before except at the bridge: every other
    property, every other dependency and every other resolution is the old one, and the dependencies
    that the package declares were already resolved, at the declared versions.  The new resolution
    carries the digest of the very bytes that were given, and leads to the local file or, for a
    published package, to the public registry. *)
Theorem binding_preserves consumer lock manifest audit b src published consumer' lock' :
  bindAuditedArtifact sha256_hex sha512_base64 parse_url consumer lock manifest audit b src published = Some (consumer', lock') →
  (∀ k, k ≠ js "dependencies" → prop consumer' k = prop consumer k) ∧
  (∀ k, k ≠ NAME → at_path consumer' [js "dependencies"; k] = at_path consumer [js "dependencies"; k]) ∧
  (∀ k, k ≠ js "packages" → prop lock' k = prop lock k) ∧
  (∀ k, k ≠ [] → k ≠ MODULES ++ NAME → at_path lock' [js "packages"; k] = at_path lock [js "packages"; k]) ∧
  (∀ k, k ≠ js "dependencies" → at_path lock' [js "packages"; []; k] = at_path lock [js "packages"; []; k]) ∧
  (∀ k, k ≠ NAME → at_path lock' [js "packages"; []; js "dependencies"; k] = at_path lock [js "packages"; []; js "dependencies"; k]) ∧
  (∀ bounds entries name version, get manifest "dependencies" = Some bounds → object_entries bounds = Some entries →
     (name, version) ∈ entries →
     ∃ entry, at_path lock [js "packages"; MODULES ++ name] = Some entry ∧ same (get' entry "version") version = true) ∧
  (∀ l p, lock = Obj l → get lock "packages" = Some (Obj p) →
     ∃ entry resolved, at_path lock' [js "packages"; MODULES ++ NAME] = Some entry ∧
       get entry "integrity" = Some (Str (integrity_of sha512_base64 b)) ∧ get entry "resolved" = Some (Str resolved) ∧
       (resolved = ARTIFACT_URL ∨ ∃ tarball u, parse_url tarball = Some u ∧ registry_url u = true ∧ resolved = href u)).
Proof.
  intros [_ _ (packages & packages' & packages'' & resolved & version & license & bounds & engines & spec & root & root' &
    entries & Hp & Hver & Hb & He & Hall & Hres & Hc & Hroot & Hroot' & Hp' & Hp'' & Hl)]%bind_bound.
  assert (∀ k, k ≠ [] → k ≠ MODULES ++ NAME → prop packages'' k = prop packages k) as Hpk.
  { intros k H1 H2. rewrite (set_prop_get _ _ _ _ k Hp''), decide_False by congruence.
    by rewrite (set_prop_get _ _ _ _ k Hp'), decide_False by congruence. }
  assert (lock' = lock ∨ prop lock' (js "packages") = Some packages'') as Hlock.
  { destruct lock as [| | | |l|o| |]; try done; cbn [set_prop] in Hl; injection Hl as <-; [by left|right].
    by rewrite prop_put, decide_True. }
  assert (packages'' = packages ∨ prop packages'' [] = Some root') as Hpack.
  { destruct packages as [| | | |l|o| |]; try done; cbn [set_prop] in Hp'; injection Hp' as <-; [|right].
    - left. by injection Hp'' as <-.
    - rewrite (set_prop_get _ _ _ _ [] Hp''), decide_False by done. by rewrite prop_put, decide_True. }
  assert (∀ k rest, prop lock' (js "packages") = Some packages'' → at_path lock' (js "packages" :: k :: rest) = at_path packages'' (k :: rest)) as Hat.
  { intros k rest E. unfold at_path. cbn [fold_left mbind option_bind]. by rewrite E. }
  assert (∀ k rest, at_path lock (js "packages" :: k :: rest) = at_path packages (k :: rest)) as Hat0.
  { intros k rest. unfold at_path. cbn [fold_left mbind option_bind]. unfold get in Hp. by rewrite Hp. }
  split_and!.
  - intros k Hk. by eapply set_dependency_get.
  - intros k Hk. by eapply set_dependency_others.
  - intros k Hk. rewrite (set_prop_get _ _ _ _ k Hl). by rewrite decide_False.
  - intros k H1 H2. destruct Hlock as [->|E]; [done|]. rewrite Hat, Hat0 by done. by apply Hpk.
  - intros k Hk. destruct Hlock as [->|E]; [done|]. rewrite Hat, Hat0 by done.
    destruct Hpack as [->|Hr]; [done|]. rewrite !at_2, Hr, Hroot. cbn [mbind option_bind]. by eapply set_dependency_get.
  - intros k Hk. destruct Hlock as [->|E]; [done|]. rewrite Hat, Hat0 by done.
    destruct Hpack as [->|Hr]; [done|]. unfold at_path. cbn [fold_left mbind option_bind]. rewrite Hr, Hroot.
    by eapply set_dependency_others.
  - intros ? ? name w Hb' He' Hin. simplify_eq. rewrite list.Forall_forall in Hall. destruct (Hall _ Hin) as (entry & H1 & H2).
    exists entry. split; [|done]. by rewrite Hat0.
  - intros l p -> Hpo. rewrite Hp in Hpo. injection Hpo as ->.
    cbn [set_prop] in Hl. injection Hl as <-. rewrite Hat by (by rewrite prop_put, decide_True).
    cbn [set_prop] in Hp'. injection Hp' as <-. cbn [set_prop] in Hp''. injection Hp'' as <-.
    eexists _, resolved. rewrite at_1, prop_put, decide_True by done. split; [done|]. look_up. split_and!; [done..|].
    destruct Hres as [[? _]|(_ & ? & ? & ?)]; [by left|right; eauto].
Qed.

(** ** Provenance *)

(** What [git] says of a clean checkout. *)
Definition clean_at (git : list string → option jsstring) (revision tree : jsstring) : Prop :=
  git ["rev-parse"; "HEAD"] = Some revision ∧ git ["rev-parse"; "HEAD^{tree}"] = Some tree ∧
  git ["status"; "--porcelain"] = Some [].

Lemma source_ok_iff before after revision :
  source_ok (sourceProvenance (captureSource before) (captureSource after)) revision = Some tt ↔
  ∃ tree, test REVISION_PATTERN tree = true ∧ clean_at before revision tree ∧ clean_at after revision tree.
Proof.
  unfold source_ok, sourceProvenance, get', clean_at. look_up. cbn [mbind option_bind].
  unfold captureSource. set (r := ["rev-parse"; "HEAD"]). set (t := ["rev-parse"; "HEAD^{tree}"]). set (st := ["status"; "--porcelain"]).
  assert (∀ s : jsstring, (0 <? zlen s) = false ↔ s = []) as Hlen.
  { intros [|u s]; [done|]. rewrite zlen_cons. pose proof (zlen_nonneg s). split; [lia|done]. }
  destruct (before r) as [r1|]; [|split; [done|by intros (? & _ & (? & _) & _)]].
  destruct (before t) as [t1|]; [|split; [done|by intros (? & _ & (_ & ? & _) & _)]].
  destruct (before st) as [s1|]; [|split; [done|by intros (? & _ & (_ & _ & ?) & _)]].
  destruct (after r) as [r2|]; [|split; [by rewrite andb_false_r|by intros (? & _ & _ & (? & _))]].
  destruct (after t) as [t2|]; [|split; [by rewrite andb_false_r|by intros (? & _ & _ & (_ & ? & _))]].
  destruct (after st) as [s2|]; [|split; [by rewrite andb_false_r|by intros (? & _ & _ & (_ & _ & ?))]].
  look_up. cbn [or_null truthy andb]. rewrite !assert_Some, assert_true, !same_str.
  rewrite !(same_bool (Bool _)). cbn [matched]. split.
  - intros (_ & [= ->] & [= ->] & Ht & [= ->] & [= ->%Hlen] & [= ->%Hlen]). by exists t1.
  - intros (tree & Ht & (?&?&?) & (?&?&?)). simplify_eq. split_and!; try done. rewrite !same_refl_str. by cbn.
Qed.

(** ** The reports of a run *)

Lemma verify_tarball_shape k report artifact a :
  verify_tarball sha256_hex sha512_base64 k = Some (report, artifact, a) →
  a = k_archive k ∧ ∃ manifest version filename unpacked typescript files listed actual exports keys,
    a_json a (js "package.json") = Some manifest ∧ get manifest "name" = Some (Str NAME) ∧
    get manifest "version" = Some version ∧ get manifest "exports" = Some exports ∧
    object_keys exports = Some keys ∧ sort_strings keys = export_names ∧
    (as_array files ≫= mapM file_path) = Some listed ∧ files_in_order (sort_strings listed) ∧
    archive_paths (a_listing a) = Some actual ∧ sort_strings actual = sort_strings listed ∧
    get (k_typescript k) "version" = Some typescript ∧ artifact = artifact_name filename (sha256_hex (a_bytes a)) ∧
    report = audit_report (Str NAME) version artifact (sha256_hex (a_bytes a)) (integrity_of sha512_base64 (a_bytes a))
      (zlen (a_bytes a)) unpacked (zlen (sort_strings listed))
      (sourceProvenance (captureSource (k_git_before k)) (captureSource (k_git_after k)))
      (k_node k) (k_npm k) typescript (sha256_hex (k_lock k)) (k_ci k) files.
Proof.
  unfold verify_tarball. intros H. check H. check H. cbv zeta in H. open H filename. open H files. open H listed Hlisted.
  open H audited Ha. open H actual Hact. check H Hsame. check H. open H manifest Hm. open H name Hn. check H Hname.
  open H license. check H. open H exports Hex. open H keys Hk. check H Hkeys. open H entries. open H resolved.
  open H targets. check H. open H packed. check H. check H. open H version Hv. open H unpacked. open H typescript Ht.
  injection H as <- <- <-. apply audit_iff in Ha as [_ Ha]. apply bool_decide_eq_true in Hsame, Hkeys.
  apply same_str in Hname as ->. split; [done|]. do 10 eexists. split_and!; try eassumption; reflexivity.
Qed.

Lemma same_size z : same (Num (Integer z)) (Num (Integer z)) = true.
Proof. apply Z.eqb_refl. Qed.

(** The versions of the tools, as the decision wants them. *)
Definition tools_ok (k : Packing) : Prop :=
  (∃ m digits, exec NODE_PATTERN (k_node k) = Some (m, [digits]) ∧ 24 ≤ digits_value digits) ∧
  test VERSION_PREFIX (k_npm k) = true ∧
  ∃ typescript, get (k_typescript k) "version" = Some (Str typescript) ∧ test VERSION_PREFIX typescript = true.

Lemma toolchain_ok_iff k typescript :
  get (k_typescript k) "version" = Some typescript →
  toolchain_ok (Obj [(js "node", Str (k_node k)); (js "npm", Str (k_npm k)); (js "typescript", typescript)]) = Some tt ↔
  tools_ok k.
Proof.
  intros Ht. unfold toolchain_ok, tools_ok, node_version_ok, get'. look_up. cbn [mbind option_bind]. look_up.
  rewrite !assert_Some, assert_true, Ht, !matched_str. split.
  - intros (Hn & (s & [= <-] & Hnpm) & ts & -> & Hts). split_and!; [|done|by exists ts].
    destruct (exec NODE_PATTERN (k_node k)) as [[m [|digits [|? ?]]]|]; try done. exists m, digits. split; [done|lia].
  - intros ((m & digits & -> & Hd) & Hnpm & ts & [= ->] & Hts). split_and!; [lia|by eexists|by exists ts].
Qed.

Lemma audit_ok_iff k report artifact a manifest paths revision :
  (∀ b, test SHA256_PATTERN (sha256_hex b) = true) →
  verify_tarball sha256_hex sha512_base64 k = Some (report, artifact, a) →
  a_json a (js "package.json") = Some manifest → archive_paths (a_listing a) = Some paths →
  (∀ v, get manifest "version" = Some v → same v v = true) →
  audit_ok sha256_hex sha512_base64 report manifest (a_bytes a) paths revision = Some tt ↔
  test REVISION_PATTERN revision = true ∧ get manifest "type" = Some (Str (js "module")) ∧
  (∃ tree, test REVISION_PATTERN tree = true ∧ clean_at (k_git_before k) revision tree ∧ clean_at (k_git_after k) revision tree) ∧
  tools_ok k.
Proof.
  intros Hhex Hk Hm Hpaths Hvv. destruct (verify_tarball_shape _ _ _ _ Hk) as (-> & m & version & filename & unpacked & typescript &
    files & listed & actual & exports & keys & Hm' & Hname & Hver & Hex & Hkeys & Hsorted & Hl & Hord & Hact & Hsame & Hts & -> & ->).
  rewrite Hm in Hm'. injection Hm' as <-. rewrite Hpaths in Hact. injection Hact as <-.
  assert (paths ≡ₚ listed) as Hperm.
  { etransitivity; [symmetry; apply (sort_by_perm compare)|]. unfold sort_strings in Hsame. rewrite Hsame. apply sort_by_perm. }
  assert (auditFileList paths = Some paths) as Haudit.
  { apply audit_iff. split; [done|]. eapply files_in_order_perm; [|exact Hord]. rewrite Hperm. apply (sort_by_perm compare listed). }
  assert (zlen (sort_strings listed) = zlen paths) as Hlen.
  { unfold zlen. f_equal. apply Permutation_length. rewrite Hperm. apply (sort_by_perm compare listed). }
  unfold audit_ok, names_match, digests_match, audit_report. look_up. cbn [mbind option_bind].
  rewrite Hname, Hver, Hex. cbn [mbind option_bind]. rewrite Hkeys, Haudit, Hl. cbn [mbind option_bind].
  rewrite !same_refl_str, Hlen, !same_size, (Hvv _ Hver), !bool_decide_eq_true_2 by done. cbn [assert mbind option_bind matched].
  rewrite Hhex, !assert_Some. cbn [assert mbind option_bind]. rewrite <- (toolchain_ok_iff k typescript Hts), <- source_ok_iff.
  change (same (Bool true) (Bool true)) with true. cbn [assert mbind option_bind].
  set (source := source_ok _ revision). set (tools := toolchain_ok _).
  destruct (get manifest "type") as [type|]; cbn [mbind option_bind]; [|naive_solver].
  rewrite assert_Some, same_str. destruct source as [[]|]; cbn [mbind option_bind]; naive_solver.
Qed.

Definition bundle_ok (b : Bundle) : Prop :=
  test VERSION_PREFIX (b_esbuild b) = true ∧ b_exports b ≠ [] ∧ 0 < b_entry_bytes b ∧ 0 < b_entry_gzip b.

Lemma entry_ok_iff b node : get node "browserEntry" = Some (browser_entry b) → browser_entry_ok node = Some tt ↔ bundle_ok b.
Proof.
  intros Hn. unfold browser_entry_ok, bundle_ok. rewrite Hn. unfold browser_entry. cbn [mbind option_bind]. look_up.
  cbn [mbind option_bind]. rewrite !same_refl_str, same_size. change (same (Bool true) (Bool true)) with true.
  unfold strings. cbn [assert mbind option_bind as_array matched]. rewrite !assert_Some, assert_true, andb_true_iff.
  cbn [above_zero number_positive]. replace (zlen (map Str (b_exports b))) with (zlen (b_exports b)) by (unfold zlen; by rewrite length_map). rewrite !Z.ltb_lt.
  assert (0 < zlen (b_exports b) ↔ b_exports b ≠ []) as ->; [|tauto].
  destruct (b_exports b) as [|x l]; [done|]. rewrite zlen_cons. pose proof (zlen_nonneg l). split; [done|intros _; lia].
Qed.

Lemma strings_inj l m : strings l = strings m → l = m.
Proof.
  unfold strings. intros [= H]. revert m H. induction l as [|x l IH]; intros [|y m]; try done. cbn. intros [= -> H].
  f_equal. by apply IH.
Qed.
Lemma deep_checks l m : deep_equal (strings l) (strings m) = true ↔ l = m.
Proof. rewrite deep_strings. split; [apply strings_inj|by intros ->]. Qed.

Lemma node_ok_iff audit installed lock src nodev env checks bundle node compiler sha integrity :
  (∀ v u, parse_url v = Some u → parse_url (Str (href u)) = Some u) →
  get audit "sha256" = Some (Str sha) → get audit "integrity" = Some (Str integrity) →
  default LOCAL src ∈ [LOCAL; REGISTRY] →
  (∀ packages resolution, get lock "packages" = Some packages → prop packages (MODULES ++ NAME) = Some resolution →
     is_Some (get resolution "resolved") →
     get resolution "integrity" = Some (Str integrity) ∧ ∃ resolved, get resolution "resolved" = Some (Str resolved) ∧
       (resolved = ARTIFACT_URL ∧ default LOCAL src = LOCAL ∨
        default LOCAL src = REGISTRY ∧ ∃ tarball u, parse_url tarball = Some u ∧ registry_url u = true ∧ resolved = href u)) →
  consumer_node audit installed lock src nodev env checks bundle = Some node →
  node_ok parse_url node audit (Str compiler) (default LOCAL src) = Some tt ↔
  env = Str compiler ∧ checks = expectedChecks ∧ bundle_ok bundle.
Proof.
  intros Hlaw Hsha Hint Hsrc Hres H. unfold consumer_node in H. open H packages Hp. open H resolution Hr. open H iname.
  open H name. check H. open H iversion Hiv. open H version Hv. check H Hsame. check H. open H sha' Hsha'. open H resolved Hresolved.
  open H integrity' Hint'. injection H as <-. rewrite Hsha in Hsha'. injection Hsha' as <-.
  destruct (Hres _ _ Hp Hr ltac:(by rewrite Hresolved)) as [Hi (resolved' & Hr' & Hcase)].
  rewrite Hi in Hint'. rewrite Hr' in Hresolved. simplify_eq.
  unfold node_ok, resolution_ok, bundle_report. cbn [app]. look_up. cbn [mbind option_bind]. unfold get'. look_up.
  rewrite Hsha, Hint, Hv. cbn [mbind option_bind]. look_up. cbn [mbind option_bind from_option Datatypes.id].
  rewrite !same_refl_str, Hsame, (bool_decide_eq_true_2 _ Hsrc). cbn [assert mbind option_bind].
  rewrite !assert_Some, same_str, deep_checks.
  set (res := if decide _ then _ else _). assert (res = Some tt) as ->.
  { unfold res. destruct Hcase as [[-> ->]|[-> (tarball & u & Hu & Hreg & ->)]].
    - rewrite decide_True by done. by rewrite same_refl_str.
    - rewrite decide_False by done. rewrite (Hlaw _ _ Hu). cbn [mbind option_bind]. by rewrite Hreg. }
  cbn [mbind option_bind]. rewrite (entry_ok_iff bundle); [done|]. look_up. done.
Qed.

Definition run_report (name : jsstring) (run : jsstring * list jsstring) : json :=
  Obj [(js "name", Str name); (js "version", Str (fst run)); (js "checks", strings (snd run)); (js "status", Str (js "PASS"))].

Lemma browser_result_iff name run :
  browser_result_ok (run_report name run) = Some tt ↔ fst run ≠ [] ∧ snd run = expectedChecks.
Proof.
  unfold browser_result_ok, run_report. look_up. cbn [mbind option_bind]. rewrite same_refl_str.
  cbn [assert mbind option_bind truthy]. rewrite assert_Some, assert_true, deep_checks, negb_true_iff, bool_decide_eq_false. done.
Qed.

Lemma browsers_ok_iff audit src runs browsers sha :
  get audit "sha256" = Some (Str sha) → consumer_browsers audit src runs = Some browsers →
  browsers_ok browsers audit (default LOCAL src) = Some tt ↔
  Forall (λ run, fst run ≠ [] ∧ snd run = expectedChecks) runs.
Proof.
  intros Hsha H. unfold consumer_browsers in H. open H sha' Hsha'. check H Hruns. injection H as <-.
  rewrite Hsha in Hsha'. injection Hsha' as <-. apply andb_true_iff in Hruns as [Hlen%Nat.eqb_eq _].
  destruct runs as [|r1 [|r2 [|r3 [|]]]]; try done. unfold browsers_ok. look_up. cbn [mbind option_bind].
  rewrite Hsha. cbn [mbind option_bind]. look_up. rewrite !same_refl_str. cbn [assert mbind option_bind as_array].
  unfold engines. cbn [map zip_with]. destruct r1 as [v1 c1], r2 as [v2 c2], r3 as [v3 c3].
  change (Obj [(js "name", Str (js "chromium")); (js "version", Str v1); (js "checks", strings c1); (js "status", Str (js "PASS"))])
    with (run_report (js "chromium") (v1, c1)).
  change (Obj [(js "name", Str (js "firefox")); (js "version", Str v2); (js "checks", strings c2); (js "status", Str (js "PASS"))])
    with (run_report (js "firefox") (v2, c2)).
  change (Obj [(js "name", Str (js "webkit")); (js "version", Str v3); (js "checks", strings c3); (js "status", Str (js "PASS"))])
    with (run_report (js "webkit") (v3, c3)).
  assert (∀ n r, get (run_report n r) "name" = Some (Str n)) as Hname by (intros n r; unfold run_report; by look_up).
  assert (mapM (λ r, get r "name") [run_report (js "chromium") (v1, c1); run_report (js "firefox") (v2, c2); run_report (js "webkit") (v3, c3)]
    = Some (map Str (map js ["chromium"; "firefox"; "webkit"]))) as ->.
  { cbn [mapM mbind option_bind]. rewrite !Hname. done. }
  cbn [mbind option_bind]. change (Arr (map Str ?l)) with (strings l). rewrite (proj2 (deep_checks _ _) eq_refl).
  cbn [assert mbind option_bind mapM]. rewrite !list.Forall_cons, list.Forall_nil, <- !(browser_result_iff (js "x")).
  assert (∀ n r, browser_result_ok (run_report n r) = browser_result_ok (run_report (js "x") r)) as Hn.
  { intros n r. unfold browser_result_ok, run_report. look_up. done. }
  rewrite (Hn (js "chromium")), (Hn (js "firefox")), (Hn (js "webkit")).
  destruct (browser_result_ok (run_report (js "x") (v1, c1))) as [[]|], (browser_result_ok (run_report (js "x") (v2, c2))) as [[]|],
    (browser_result_ok (run_report (js "x") (v3, c3))) as [[]|]; cbn; naive_solver.
Qed.

Lemma bind_names consumer lock manifest audit b src published consumer' lock' v :
  bindAuditedArtifact sha256_hex sha512_base64 parse_url consumer lock manifest audit b src published = Some (consumer', lock') →
  get manifest "version" = Some v → get audit "version" = Some v → same v v = true.
Proof.
  unfold bindAuditedArtifact. intros H Hm Ha. open H private. check H. open H version3. check H. open H verified. check H.
  open H names Hn. unfold names_match in Hn. open Hn n1. check Hn. open Hn n2. check Hn. open Hn v1 Hv1. open Hn v2 Hv2.
  simplify_eq. by apply assert_true in Hn.
Qed.

Lemma node_entry audit installed lock src nodev env checks bundle node :
  consumer_node audit installed lock src nodev env checks bundle = Some node → get node "browserEntry" = Some (browser_entry bundle).
Proof.
  unfold consumer_node. intros H. open H packages. open H resolution. open H iname. open H name. check H. open H iv. open H v.
  check H. check H. open H sha. open H resolved. open H integrity. injection H as <-. unfold bundle_report. cbn [app]. by look_up.
Qed.

(** The decision, about reports that were written. *)
Lemma decision_passes k report artifact a manifest consumer lock src published consumer' lock' installed nodev env checks
    bundle node runs browsers revision compiler workflow read :
  (∀ v u, parse_url v = Some u → parse_url (Str (href u)) = Some u) →
  (∀ b, test SHA256_PATTERN (sha256_hex b) = true) →
  verify_tarball sha256_hex sha512_base64 k = Some (report, artifact, a) →
  a_json a (js "package.json") = Some manifest →
  bindAuditedArtifact sha256_hex sha512_base64 parse_url consumer lock manifest report (a_bytes a) src published = Some (consumer', lock') →
  consumer_node report installed lock' src nodev env checks bundle = Some node →
  consumer_browsers report src runs = Some browsers →
  read artifact = Some a →
  let decision := preflight sha256_hex sha512_base64 parse_url (Some revision) (Some compiler) workflow report node browsers read src in
  (is_Some decision ↔
     (test REVISION_PATTERN revision = true ∧ test REVISION_PATTERN compiler = true ∧ test ARTIFACT_PATTERN artifact = true) ∧
     (∃ tree, test REVISION_PATTERN tree = true ∧ clean_at (k_git_before k) revision tree ∧ clean_at (k_git_after k) revision tree) ∧
     get manifest "type" = Some (Str (js "module")) ∧ tools_ok k ∧
     env = Str compiler ∧ checks = expectedChecks ∧ bundle_ok bundle ∧
     Forall (λ run, fst run ≠ [] ∧ snd run = expectedChecks) runs) ∧
  ∀ result, decision = Some result →
    get result "sha256" = Some (Str (sha256_hex (a_bytes a))) ∧ get result "sourceRevision" = Some (Str revision).
Proof.
  intros Hlaw Hhex Hk Hm Hbind Hnode Hbrowsers Hread decision.
  destruct (verify_tarball_shape _ _ _ _ Hk) as (_ & m & version & filename & unpacked & typescript &
    files & listed & actual & exports & keys & Hm' & Hname & Hver & Hex & Hkeys & Hsorted & Hl & Hord & Hact & Hsame & Hts & _ & Hr).
  rewrite Hm in Hm'. injection Hm' as <-.
  assert (get report "sha256" = Some (Str (sha256_hex (a_bytes a)))) as Hsha by (rewrite Hr; unfold audit_report; by look_up).
  assert (get report "integrity" = Some (Str (integrity_of sha512_base64 (a_bytes a)))) as Hint by (rewrite Hr; unfold audit_report; by look_up).
  assert (get report "version" = Some version) as Hrv by (rewrite Hr; unfold audit_report; by look_up).
  assert (get report "artifact" = Some (Str artifact)) as Hart by (rewrite Hr; unfold audit_report; by look_up).
  assert (∃ n c u, get report "name" = Some n ∧ get report "compressedBytes" = Some c ∧ get report "unpackedBytes" = Some u)
    as (n & c & u & Hn & Hc & Hu) by (rewrite Hr; unfold audit_report; look_up; eauto 6).
  assert (∀ v, get manifest "version" = Some v → same v v = true) as Hvv.
  { intros v Hv. rewrite Hver in Hv. injection Hv as <-. by eapply bind_names. }
  pose proof (audit_ok_iff k report artifact a manifest actual revision Hhex Hk Hm Hact Hvv) as HA.
  pose proof (bind_bound _ _ _ _ _ _ _ _ _ Hbind) as Hbound.
  pose proof (node_ok_iff _ _ _ _ _ _ _ _ _ compiler _ _ Hlaw Hsha Hint (bo_source _ _ _ _ _ _ _ _ _ Hbound)
    (λ p r Hp Hr, bound_resolution _ _ _ _ _ _ _ _ _ p r Hbound Hp Hr) Hnode) as HN.
  pose proof (browsers_ok_iff _ _ _ _ _ Hsha Hbrowsers) as HB. pose proof (node_entry _ _ _ _ _ _ _ _ _ Hnode) as He.
  assert (∃ result, (∀ x, decision = Some x ↔
      (test REVISION_PATTERN revision = true ∧ test ARTIFACT_PATTERN artifact = true ∧ test REVISION_PATTERN compiler = true) ∧
      (audit_ok sha256_hex sha512_base64 report manifest (a_bytes a) actual revision = Some tt ∧
       node_ok parse_url node report (Str compiler) (default LOCAL src) = Some tt ∧
       browsers_ok browsers report (default LOCAL src) = Some tt) ∧ x = result) ∧
    get result "sha256" = Some (Str (sha256_hex (a_bytes a))) ∧ get result "sourceRevision" = Some (Str revision))
    as (result & Hdec & Hrsha & Hrev).
  { eexists. split; [intros x|split].
    - unfold decision, preflight, verifyReleaseEvidence. cbn [from_option Datatypes.id]. rewrite Hart. cbn [mbind option_bind as_string].
      rewrite Hread, !assert_Some. cbn [mbind option_bind]. rewrite Hm. cbn [mbind option_bind]. rewrite Hact. cbn [mbind option_bind].
      rewrite assert_Some.
      destruct (audit_ok _ _ report _ _ _ _) as [[]|]; cbn [mbind option_bind]; [|naive_solver].
      destruct (node_ok _ node _ _ _) as [[]|]; cbn [mbind option_bind]; [|naive_solver].
      destruct (browsers_ok browsers _ _) as [[]|]; cbn [mbind option_bind]; [|naive_solver].
      rewrite Hn, Hrv, Hsha, Hint, Hc, Hu, He. cbn [mbind option_bind]. split.
      + intros (? & ? & ? & [= <-]). by split_and!.
      + by intros ((? & ? & ?) & _ & ->).
    - by look_up.
    - by look_up. }
  split.
  - split.
    + intros [x Hx]. apply Hdec in Hx as ((? & ? & ?) & (Hra & Hrn & Hrb) & _).
      apply HA in Hra as (? & ? & ? & ?). apply HN in Hrn as (? & ? & ?). apply HB in Hrb. by split_and!.
    + intros ((? & ? & ?) & ? & ? & ? & ? & ? & ? & ?). exists result. apply Hdec. split; [done|].
      split; [split_and!; [by apply HA|by apply HN|by apply HB]|done].
  - intros x Hx. apply Hdec in Hx as (_ & _ & ->). done.
Qed.

(** *** The consumer's scripts after a binding *)

(** What was bound is an object with an entry for the package. *)
Lemma bound_entry consumer lock manifest audit b src published consumer' lock' :
  bindAuditedArtifact sha256_hex sha512_base64 parse_url consumer lock manifest audit b src published = Some (consumer', lock') →
  ∃ packages entry resolved,
    get lock' "packages" = Some packages ∧ prop packages (MODULES ++ NAME) = Some entry ∧
    get entry "resolved" = Some (Str resolved) ∧ get entry "integrity" = Some (Str (integrity_of sha512_base64 b)).
Proof.
  intros H. pose proof (bind_bound _ _ _ _ _ _ _ _ _ H) as [_ _ (packages & packages' & packages'' & resolved & version &
    license & bounds & engines & spec & root & root' & entries & Hp & _ & _ & _ & _ & _ & _ & Hroot & Hroot' & Hp' & Hp'' & Hl)].
  assert (∃ l, lock = Obj l) as [l ->].
  { unfold bindAuditedArtifact in H. open H private. check H. open H version3 Hv3. check H Hsame.
    destruct lock as [| | | |l|l| |]; try done; [|by exists l]. injection Hv3 as <-. done. }
  assert (∃ q, packages = Obj q) as [q ->].
  { destruct packages as [| | | |q|q| |]; try done; [|by exists q]. injection Hroot as <-. done. }
  cbn [set_prop] in Hl, Hp'. injection Hl as <-. injection Hp' as <-. cbn [set_prop] in Hp''. injection Hp'' as <-.
  eexists _, _, resolved. unfold get at 1. rewrite prop_put, decide_True by done. split; [done|].
  rewrite prop_put, decide_True by done. split; [done|]. by look_up.
Qed.

(** The consumer of an archive that was bound reports on it. *)
Lemma node_reports audit manifest lock src nodev env bundle packages entry resolved integrity sha version :
  get lock "packages" = Some packages → prop packages (MODULES ++ NAME) = Some entry →
  get entry "resolved" = Some (Str resolved) → get entry "integrity" = Some (Str integrity) →
  get manifest "name" = Some (Str NAME) → get audit "name" = Some (Str NAME) →
  get manifest "version" = Some version → get audit "version" = Some version → same version version = true →
  get audit "sha256" = Some (Str sha) →
  ∃ node, consumer_node audit manifest lock src nodev env expectedChecks bundle = Some node ∧
    get node "status" = Some (Str (js "PASS")) ∧ get node "artifactSha256" = Some (Str sha) ∧
    get node "installSource" = Some (Str (default LOCAL src)).
Proof.
  intros Hp He Hr Hi Hn Hn' Hv Hv' Hsame Hsha. unfold consumer_node. rewrite Hp. cbn [mbind option_bind]. rewrite He.
  cbn [mbind option_bind]. rewrite Hn, Hn', Hv, Hv', Hr, Hi, Hsha. cbn [mbind option_bind]. rewrite same_refl_str, Hsame.
  cbn [assert mbind option_bind]. eexists. split; [reflexivity|]. unfold bundle_report. cbn [app]. by look_up.
Qed.

(** The browsers' report is written exactly for three runs of eight checks. *)
Lemma browsers_report audit src runs sha :
  get audit "sha256" = Some (Str sha) →
  Forall (λ run, fst run ≠ [] ∧ snd run = expectedChecks) runs → length runs = 3%nat →
  is_Some (consumer_browsers audit src runs).
Proof.
  intros Hsha Hruns Hlen. unfold consumer_browsers. rewrite Hsha, Hlen. cbn [mbind option_bind Nat.eqb andb].
  assert (forallb (λ r : jsstring * list jsstring, zlen (snd r) =? 8) runs = true) as ->; [|by eexists].
  apply forallb_forall. intros r Hr%list_elem_of_In.
  by destruct (proj1 (list.Forall_forall _ _) Hruns r Hr) as [_ ->].
Qed.

Lemma browsers_length audit src runs browsers :
  consumer_browsers audit src runs = Some browsers → length runs = 3%nat.
Proof.
  unfold consumer_browsers. intros H. open H sha. check H Hr. by apply andb_true_iff in Hr as [Hr%Nat.eqb_eq _].
Qed.

(** Reports that pass the decision are accepted by the consumer's test. *)
Lemma reports_accepted audit node browsers b src artifact runs :
  get audit "artifact" = Some (Str artifact) → test ARTIFACT_PATTERN artifact = true →
  get audit "sha256" = Some (Str (sha256_hex b)) →
  get node "status" = Some (Str (js "PASS")) → get node "artifactSha256" = Some (Str (sha256_hex b)) →
  get node "installSource" = Some (Str (default LOCAL src)) →
  consumer_browsers audit src runs = Some browsers → Forall (λ run, fst run ≠ [] ∧ snd run = expectedChecks) runs →
  consumer_accepts sha256_hex audit node browsers b src = Some tt.
Proof.
  intros Ha Hpat Hsha Hst Hns Hsrc Hb Hruns. pose proof (browsers_length _ _ _ _ Hb) as Hlen.
  unfold consumer_browsers in Hb. rewrite Hsha in Hb. cbn [mbind option_bind] in Hb. check Hb. injection Hb as <-.
  destruct runs as [|[v1 c1] [|[v2 c2] [|[v3 c3] [|]]]]; try done.
  repeat match goal with H : Forall _ (_ :: _) |- _ => apply Forall_cons_1 in H as [[_ ?] H] end. cbn [snd] in *. subst.
  unfold consumer_accepts. look_up. rewrite Ha, Hsha, Hst, Hns, Hsrc. cbn [mbind option_bind matched].
  rewrite Hpat, !same_refl_str. cbn [assert mbind option_bind as_array map zip_with engines mapM]. look_up.
  vm_compute. reflexivity.
Qed.

(** *** The whole chain *)

(** What follows the binding: [serve.mjs] and [browser-check.mjs] report, [test-package-consumer.mjs]
    accepts, [release-preflight.mjs] decides.  What npm installed is the package in the archive. *)
Definition after_binding (revision compiler workflow : jsstring) (report manifest lock : json) (b : bytes)
    (src : option jsstring) (nodev : jsstring) (env : json) (checks : list jsstring) (bundle : Bundle)
    (runs : list (jsstring * list jsstring)) (read : jsstring → option Archive) : option json :=
  node ← consumer_node report manifest lock src nodev env checks bundle;
  browsers ← consumer_browsers report src runs;
  consumer_accepts sha256_hex report node browsers b src;;
  preflight sha256_hex sha512_base64 parse_url (Some revision) (Some compiler) workflow report node browsers read src.

End chain.

(** ** An example release *)

Module Demo.
Definition sha256_hex (b : bytes) : jsstring := replicate 64 (0x61 + zlen b mod 6).
Definition sha512_base64 (b : bytes) : jsstring := js "digest" ++ [0x30 + zlen b mod 10].
Definition tarball_url : URL :=
  mkURL (js "https://registry.npmjs.org/@dunkymole/grpc-bridge/-/grpc-bridge-0.2.0.tgz") (js "https:")
    (js "registry.npmjs.org") [] [] [] [] [] (js "/@dunkymole/grpc-bridge/-/grpc-bridge-0.2.0.tgz").
Definition parse_url (v : json) : option URL :=
  match v with Str s => if decide (s = href tarball_url) then Some tarball_url else None | _ => None end.

Definition revision : jsstring := replicate 40 0x61.
Definition git (args : list string) : option jsstring :=
  if decide (args = ["status"; "--porcelain"]) then Some [] else Some revision.
Definition paths : list jsstring := requiredFiles ++ [js "package-sources/index.ts"].
Definition entry (name : string) : json :=
  Obj [(js "types", Str (js "./package-dist/" ++ js name ++ js ".d.ts")); (js "import", Str (js "./package-dist/" ++ js name ++ js ".js"))].
Definition bounds : json := Obj [(js "@bufbuild/protobuf", Str (js "2.15.0"))].
Definition manifest : json :=
  Obj [(js "name", Str NAME); (js "version", Str (js "0.2.0")); (js "license", Str (js "MIT")); (js "type", Str (js "module"));
       (js "dependencies", bounds);
       (js "exports", Obj [(js ".", entry "index"); (js "./raw", entry "raw"); (js "./codegen", entry "codegen")])].
Definition source_map : json :=
  Obj [(js "version", Num (Integer 3)); (js "sources", strings [js "../package-sources/index.ts"])].
Definition archive : Archive :=
  mkArchive [1; 2; 3] (mjoin (map (λ p, js "package/" ++ p ++ [10]) paths)) (js "-rw-r--r-- package/index.js")
    (λ p, Some (if decide (p = js "package.json") then manifest else source_map)) (λ _, Some (js "export {};")).
Definition packing : Packing :=
  mkPacking (js "npm-cli.js") true git git
    (Obj [(js "filename", Str (js "dunkymole-grpc-bridge-0.2.0.tgz")); (js "integrity", Str (integrity_of sha512_base64 [1; 2; 3]));
          (js "files", Arr (map (λ p, Obj [(js "path", Str p)]) paths))])
    archive (js "v24.14.0") (js "11.19.0") (Obj [(js "version", Str (js "5.9.3"))]) [4; 5] Null.
Definition audited : json * jsstring * Archive :=
  default (Null, [], archive) (verify_tarball sha256_hex sha512_base64 packing).
Definition report : json := Eval vm_compute in fst (fst audited).
Definition artifact : jsstring := Eval vm_compute in snd (fst audited).

Definition consumer : json := Obj [(js "private", Bool true); (js "dependencies", bounds)].
Definition lock : json :=
  Obj [(js "lockfileVersion", Num (Integer 3));
       (js "packages", Obj [([], Obj [(js "dependencies", bounds)]);
          (js "node_modules/@bufbuild/protobuf", Obj [(js "version", Str (js "2.15.0"))])])].
Definition published : json :=
  Obj [(js "name", Str NAME); (js "version", Str (js "0.2.0")); (js "dependencies", bounds);
       (js "dist", Obj [(js "integrity", Str (integrity_of sha512_base64 [1; 2; 3])); (js "tarball", Str (href tarball_url))])].
Definition installed : json * json :=
  default (Null, Null) (bindAuditedArtifact sha256_hex sha512_base64 parse_url consumer lock manifest report [1; 2; 3] (Some REGISTRY) published).
Definition consumer' : json := Eval vm_compute in fst installed.
Definition lock' : json := Eval vm_compute in snd installed.
Definition bundle : Bundle := mkBundle 900 300 800 250 (js "0.28.2") [js "openBridgeConnection"] [].
Definition runs : list (jsstring * list jsstring) := replicate 3 (js "141.0", expectedChecks).

Lemma hex_digest b : test SHA256_PATTERN (sha256_hex b) = true.
Proof.
  unfold sha256_hex. pose proof (Z.mod_pos_bound (zlen b) 6 eq_refl) as H. set (x := zlen b mod 6) in *.
  assert (x = 0 ∨ x = 1 ∨ x = 2 ∨ x = 3 ∨ x = 4 ∨ x = 5) as Hx by lia.
  destruct Hx as [->|[->|[->|[->|[->| ->]]]]]; vm_compute; reflexivity.
Qed.
Lemma url_again v u : parse_url v = Some u → parse_url (Str (href u)) = Some u.
Proof.
  unfold parse_url. destruct v; try done. destruct (decide _); [|done]. intros [= <-]. by rewrite decide_True.
Qed.
Lemma bound_demo : bindAuditedArtifact sha256_hex sha512_base64 parse_url consumer lock manifest report [1; 2; 3] (Some REGISTRY) published = Some (consumer', lock').
Proof. vm_compute. reflexivity. Qed.
End Demo.

Lemma binding_preserves_witness :
  at_path Demo.lock' [js "packages"; js "node_modules/@bufbuild/protobuf"] = Some (Obj [(js "version", Str (js "2.15.0"))]).
Proof.
  destruct (binding_preserves Demo.sha256_hex Demo.sha512_base64 Demo.parse_url Demo.consumer Demo.lock Demo.manifest
    Demo.report [1; 2; 3] (Some REGISTRY) Demo.published Demo.consumer' Demo.lock' Demo.bound_demo) as (_ & _ & _ & H & _).
  rewrite (H (js "node_modules/@bufbuild/protobuf")); [reflexivity|discriminate|vm_compute; discriminate].
Defined.

