(* ===== verification/DurableCall.v ===== *)
(** * DurableCall: one call through the retry loop, the recovering connection and a session

    The constructor of [RecoveringConnection] ([recovery.ts]) joins the parts of a call: its
    [RetryingTransport] invokes, on the first attempt, a [direct] transport that waits for a session
    as the caller asked, and on every later attempt the transport of a session that [select] has
    waited for.  The parts are those of [Retry], [Recovery] and [Transport]; this file has the
    joints, and what becomes of a caller's time limit on the way. *)
From Stdlib Require Import QArith Qround Qminmax Lqa.
From stdpp Require Import pretty.
From S2P Require Import Prelude Errors Text HpackTables Hpack Stream Framing Retry RetryCorrect Recovery RecoveryCorrect.
From S2P Require Import Regex Decimal Transport TransportCorrect JsonCorrect StrictCorrect.
Local Open Scope Z_scope.

(** ** The joints *)

(** The resumption of a [select]: the connection it finds, the caller's signal, the time since its
    start. *)
Record Resumed := mkResumed { rs_connection : Recovery; rs_aborted : bool; rs_elapsed : Q }.
Definition selected (timeoutMs : option Q) (r : Resumed) : result ConnectError (nat * option Q) :=
  select_end (rs_aborted r) timeoutMs (rs_elapsed r) (rs_connection r).

(** The transport of an attempt. *)
Inductive Chosen := Direct | OfSession (s : nat).

(** The [select] given to [RetryingTransport]: where it begins and what it resumes with. *)
Definition choose_begin (retrying : bool) (t : nat) (aborted : bool) (c : Recovery) : Recovery :=
  if retrying then select_begin t aborted true c else c.
Definition choose (retrying : bool) (timeoutMs : option Q) (r : Resumed) : result ConnectError (Chosen * option Q) :=
  if negb retrying then Ok (Direct, timeoutMs)
  else match selected timeoutMs r with
       | Ok (s, remaining) => Ok (OfSession s, remaining)
       | Throw e => Throw e
       end.

(** [transport.unary] and [transport.stream] of what was chosen: the session that carries the call
    and its limit there.  [waits]: [waitForReady] of the call's context. *)
Definition direct_begin (waits : option bool) (t : nat) (aborted : bool) (c : Recovery) : Recovery :=
  select_begin t aborted (default false waits) c.
Definition carry (chosen : Chosen) (timeoutMs : option Q) (r : Resumed) : result ConnectError (nat * option Q) :=
  match chosen with
  | OfSession s => Ok (s, timeoutMs)
  | Direct => selected timeoutMs r
  end.

(** ** Limits *)

(** What was invoked in a round is what its attempt computed. *)
Lemma loop_invoked throttle policy original timeout deadline rounds st i e w :
  fst (run_loop throttle policy original timeout deadline rounds st) !! i = Some e → rounds !! i = Some w →
  e_invoked e = fst (try_attempt original timeout deadline (e_state e) w).
Proof.
  revert st i. induction rounds as [|w0 rounds IH]; intros st i; [done|]. cbn [run_loop].
  destruct (w_abort w0); [done|]. destruct (try_attempt _ _ _ st w0) as [inv [error|]] eqn:Ha.
  2:{ destruct i; [|done]. intros [= <-] [= <-]. cbn. by rewrite Ha. }
  destruct (caught _ _ _ _ _ _) as [|st' q]; [destruct i; [|done]; intros [= <-] [= <-]; cbn; by rewrite Ha|].
  destruct (w_pause w0); [destruct i; [|done]; intros [= <-] [= <-]; cbn; by rewrite Ha|].
  specialize (IH st'). destruct (run_loop _ _ _ _ _ rounds st') as [log out]. destruct i as [|i]; cbn [fst].
  - intros [= <-] [= <-]. cbn. by rewrite Ha.
  - apply IH.
Qed.

Lemma limited_spec timeout :
  match limited timeout with
  | Some t => timeout = Some t ∧ (0 < t)%Q
  | None => match timeout with Some t => (t <= 0)%Q | None => True end
  end.
Proof.
  unfold limited. destruct timeout as [t|]; [|done]. destruct (Qle_bool t 0) eqn:E.
  - by apply Qle_bool_iff.
  - split; [done|]. apply Qnot_le_lt. rewrite <- Qle_bool_iff. congruence.
Qed.

(** [select] hands over the session it finds, with what is left of a limit. *)
Lemma selected_spec timeout r s l :
  recovery_reachable (rs_connection r) → selected timeout r = Ok (s, l) →
  session (rs_connection r) = Some s ∧ stopped (rs_connection r) = false ∧
  match limited timeout with
  | Some t => ∃ left, l = Some left ∧ (0 < left)%Q ∧ (left == t - rs_elapsed r)%Q
  | None => l = timeout
  end.
Proof.
  intros Hr. pose proof (ok_phase _ (reachable_ok _ Hr)) as Hp. unfold selected, select_end, phase in *.
  destruct (rs_aborted r); [done|]. intros H.
  assert (session (rs_connection r) = Some s) as Hs.
  { destruct (_ && _); [done|]. by destruct (session (rs_connection r)); [injection H as <- _|]. }
  rewrite Hs in *. split; [done|]. split.
  { destruct (stopped (rs_connection r)); [|done]. by destruct Hp as (_ & ? & _). }
  unfold limited. destruct timeout as [t|]; [|by injection H as <-]. destruct (Qle_bool t 0); cbn in H.
  - by injection H as <-.
  - destruct (Qle_bool _ 0) eqn:E; [done|]. injection H as <-. exists (t - rs_elapsed r)%Q. split_and!; [done| |reflexivity].
    apply Qnot_le_lt. rewrite <- Qle_bool_iff. congruence.
Qed.

(** ** The field that the server reads *)

Lemma pretty_digits (z : Z) : 0 ≤ z → Forall (λ u, is_http_space u = false) (js (pretty z)).
Proof.
  intros Hz. destruct z as [|p|p]; [by repeat constructor| |lia].
  change (pretty (Z.pos p)) with (pretty (N.pos p)). destruct (pretty_canonical (N.pos p)) as [[Hd _]%canonical_digits _].
  eapply list.Forall_impl; [exact Hd|]. intros u Hu. unfold digit in Hu. apply between_spec in Hu. apply visible. lia.
Qed.

Lemma timeout_value_bounds t : (0 < t)%Q → 0 < timeout_value t ∧ (inject_Z (timeout_value t) < t + 1)%Q.
Proof.
  intros Ht. unfold timeout_value. pose proof (Qle_ceiling t) as Hle. pose proof (Qceiling_lt t) as Hlt.
  assert (0 < Qceiling t) as Hpos by (rewrite Zlt_Qlt; change (inject_Z 0) with 0%Q; lra).
  split; [lia|]. apply Qle_lt_trans with (inject_Z (Qceiling t)).
  - rewrite <- Zle_Qle. lia.
  - unfold Z.sub in Hlt. rewrite inject_Z_plus in Hlt. change (inject_Z (- (1))) with (- (1))%Q in Hlt. lra.
Qed.

Lemma timeout_field authorization t h :
  (0 < t)%Q → forallb header_ok h = true →
  ∃ fields, request_headers authorization (Some t) h = Some fields ∧
    headers_get fields GRPC_TIMEOUT = Some (js (pretty (timeout_value t)) ++ js "m").
Proof.
  intros Ht Hh. unfold request_headers, headers_new. rewrite Hh. eexists. split; [reflexivity|].
  unfold call_headers. cbv zeta. unfold limited.
  destruct (Qle_bool t 0) eqn:E; [apply Qle_bool_iff in E; lra|].
  set (h1 := headers_set _ (js "grpc-accept-encoding") _). clearbody h1. unfold headers_get.
  destruct (set_same h1 GRPC_TIMEOUT (js (pretty (timeout_value t)) ++ js "m") eq_refl) as [n ->]. cbn [fold_left].
  rewrite no_space_trim; [done|]. apply Forall_app_2; [|by repeat constructor].
  apply pretty_digits. pose proof (timeout_value_bounds t Ht). lia.
Qed.

(** ** The theorem *)

(** How long the layers below [run] wait before the session's transport is called. *)
Definition waited (chosen : Chosen) (inner : Resumed) : Q :=
  match chosen with Direct => rs_elapsed inner | OfSession _ => 0 end.

Lemma limited_some q : (0 < q)%Q → limited (Some q) = Some q.
Proof. intros Hq. unfold limited. destruct (Qle_bool q 0) eqn:E; [apply Qle_bool_iff in E; lra|done]. Qed.

Lemma invoked_limit original timeout now st w t h :
  fst (try_attempt original timeout (deadline_of timeout now) st w) = Some (t, h) →
  match limited timeout with
  | Some limit => ∃ q, t = Some q ∧ (0 < q)%Q ∧ (q == now + limit - w_now_invoke w)%Q
  | None => t = timeout
  end.
Proof.
  intros H. assert (deadline_of timeout now = (λ limit, now + limit)%Q <$> limited timeout) as Hd.
  { unfold deadline_of, limited. destruct timeout as [q|]; [|done]. by destruct (Qle_bool q 0). }
  destruct (limited timeout) as [limit|].
  - destruct (attempt_timeout _ _ _ _ _ _ _ _ H Hd) as (q & -> & Hq & E).
    exists q. split_and!; [done|done|]. by rewrite E.
  - unfold try_attempt, remaining_ms in H. rewrite Hd in H. cbn in H.
    destruct (w_select w); [done|]. destruct (w_abort_selected w); [done|]. by injection H as <- _.
Qed.

Lemma carry_limit chosen timeout r s l :
  recovery_reachable (rs_connection r) → carry chosen timeout r = Ok (s, l) →
  match limited timeout with
  | Some t => ∃ left, l = Some left ∧ (0 < left)%Q ∧ (left == t - waited chosen r)%Q
  | None => l = timeout
  end.
Proof.
  intros Hr H. destruct chosen as [|s']; [by apply (selected_spec _ _ s)|]. cbn in H. injection H as _ <-.
  pose proof (limited_spec timeout) as Hl. destruct (limited timeout) as [t|]; [|done].
  destruct Hl as [-> Ht]. exists t. split_and!; [done|done|]. cbn. ring.
Qed.

(** C18: a time limit survives all layers, and calls only reach live sessions.  Take any round of a
    call over a recovering connection in which a transport was invoked - at once or after any
    retries, pauses, reconnects and waits - and in which a session was found.  It was the
    current session of a connection that had not been closed when [select] resumed.  If the
    caller set a limit, the session's transport gets exactly what is left of it at that moment,
    more than nothing.  If the header is well-formed (otherwise no request is made), it announces
    that to the server in [grpc-timeout], in milliseconds: a limit of up to 99999999 ms is
    rounded up, so that the server is never given less than what is left nor a whole millisecond
    more, and a longer one is announced as 99999999.  Without a limit the transport gets what the
    caller gave. *)
Theorem durable_limit o key header timeout now rounds i e w t h outer inner given chosen u s l authorization :
  fst (run o key header timeout now rounds) !! i = Some e → rounds !! i = Some w → e_invoked e = Some (t, h) →
  recovery_reachable (rs_connection outer) → recovery_reachable (rs_connection inner) →
  choose (retry (e_state e)) given outer = Ok (chosen, u) → carry chosen t inner = Ok (s, l) →
  (∃ r, r ∈ [outer; inner] ∧ session (rs_connection r) = Some s ∧ stopped (rs_connection r) = false) ∧
  match limited timeout with
  | Some limit => ∃ left,
      l = Some left ∧ (0 < left)%Q ∧ (left == now + limit - (w_now_invoke w + waited chosen inner))%Q ∧
      (forallb header_ok h = true →
         ∃ fields, request_headers authorization l h = Some fields ∧
           headers_get fields GRPC_TIMEOUT = Some (js (pretty (timeout_value left)) ++ js "m")) ∧
      ((left <= 99999999)%Q →
         (left <= inject_Z (timeout_value left))%Q ∧ (inject_Z (timeout_value left) < left + 1)%Q) ∧
      ((99999999 < left)%Q → timeout_value left = 99999999)
  | None => l = timeout
  end.
Proof.
  intros He Hw Hinv Ho Hi Hch Hca. pose proof (loop_invoked _ _ _ _ _ _ _ _ _ _ He Hw) as Hr.
  rewrite Hinv in Hr. symmetry in Hr.
  assert (∃ r, r ∈ [outer; inner] ∧ session (rs_connection r) = Some s ∧ stopped (rs_connection r) = false) as Hlive.
  { destruct chosen as [|s'].
    - destruct (selected_spec _ _ _ _ Hi Hca) as (? & ? & _). exists inner. set_solver.
    - cbn in Hca. injection Hca as -> ->. unfold choose in Hch. destruct (retry _); [|done]. cbn [negb] in Hch.
      destruct (selected given outer) as [[s' l']|] eqn:Hsel; [|done]. injection Hch as -> _.
      destruct (selected_spec _ _ _ _ Ho Hsel) as (? & ? & _). exists outer. set_solver. }
  split; [done|]. clear Hlive Hch Ho He Hw Hinv.
  pose proof (invoked_limit _ _ _ _ _ _ _ Hr) as Ht. pose proof (carry_limit _ _ _ _ _ Hi Hca) as Hl.
  destruct (limited timeout) as [limit|] eqn:Elim.
  - destruct Ht as (q & -> & Hq & Eq). rewrite limited_some in Hl by done. destruct Hl as (left & -> & Hleft & El).
    exists left. destruct (timeout_value_bounds left Hleft) as [_ Hup]. pose proof (timeout_covers left).
    split_and!; [done|done| |by apply timeout_field|by auto|apply timeout_capped].
    rewrite El, Eq. ring.
  - subst t. by rewrite Elim in Hl.
Qed.

(** The first attempt is refused unsent; the second waits two seconds for a new session. *)
Module Durable.
Definition second : Round := mkRound None 1000 None None 3000 None None false 10 (1 # 2) 3000 None.
Definition rounds : list Round := [RetryCorrect.Demo.round (RetryCorrect.Demo.fails [] (Some Unsent)); second].
Definition reconnected : Recovery := recovery_run (RecoveryCorrect.Demo.before ++ [VDialed]).
Definition entry : Entry :=
  Eval vm_compute in
    default (mkEntry (run_start None) None None)
      (fst (run RetryCorrect.Demo.options [] [] (Some 5000%Q) 0 rounds) !! 1%nat).
End Durable.

Lemma durable_limit_witness :
  e_invoked Durable.entry = Some (Some (0 + 5000 - 3000)%Q, []) ∧
  (∃ r, r ∈ [mkResumed Durable.reconnected false 2000; mkResumed Durable.reconnected false 0] ∧
     session (rs_connection r) = Some 1%nat ∧ stopped (rs_connection r) = false) ∧
  ∃ left, Some (0 + 5000 - 3000)%Q = Some left ∧ (0 < left)%Q ∧ (left == 0 + 5000 - (3000 + 0))%Q ∧
    (forallb header_ok [] = true →
       ∃ fields, request_headers None (Some (0 + 5000 - 3000)%Q) [] = Some fields ∧
         headers_get fields GRPC_TIMEOUT = Some (js (pretty (timeout_value left)) ++ js "m")) ∧
    ((left <= 99999999)%Q →
       (left <= inject_Z (timeout_value left))%Q ∧ (inject_Z (timeout_value left) < left + 1)%Q) ∧
    ((99999999 < left)%Q → timeout_value left = 99999999).
Proof.
  split; [reflexivity|].
  assert (recovery_reachable Durable.reconnected) as Hr by (apply run_reachable; vm_compute; reflexivity).
  apply (durable_limit RetryCorrect.Demo.options [] [] (Some 5000%Q) 0 Durable.rounds 1 Durable.entry Durable.second
    (Some (0 + 5000 - 3000)%Q) [] (mkResumed Durable.reconnected false 2000)
    (mkResumed Durable.reconnected false 0) (Some 4000%Q) (OfSession 1) (Some (4000 - 2000)%Q) 1
    (Some (0 + 5000 - 3000)%Q) None); [vm_compute; reflexivity|reflexivity..|exact Hr|exact Hr|vm_compute; reflexivity|reflexivity].
Defined.
